(* ===== verification/_CoqProject ===== *)
-Q . S2P
Prelude.v
GoStrings.v
GoConv.v
Errors.v
DotStuff.v
Parse.v
Net.v
NetLive.v
Session.v
Options.v
Mem.v
MemProps.v
MemWorld.v
ConnState.v
ConnHandlers.v
ConnServe.v
Wire.v
Spec.v
Demo.v
ConnFacts.v
ConnFrame.v
ConnLive.v
Fuel.v
ConnAuth.v
ConnTrace.v
ConnEnds.v
ConnSafety.v
Refine.v
RefineInput.v
RefineLoop.v
ConnTimeout.v
ConnHijack.v
ServerSpec.v
MemSpec.v
WellFormed.v
ConnTLS.v
ServerProps.v
Server.v
Client.v
ClientFacts.v
ClientText.v
ClientServer.v
ClientBody.v
ClientAuth.v
Dialogue.v
EndToEnd.v
ClientLive.v
ClientCancel.v
ClientDemo.v
