(* ===== verification/Prelude.v ===== *)
(** * go-pop3: a verification library

    go-pop3 is a POP3 server library ([src/pop3server]), a POP3 client
    ([src/pop3client]), an in-memory maildrop for tests and examples
    ([src/pop3mem]) and the three record types they share ([src/pop3]).  This
    library models all four as executable definitions, translated from the
    source, and proves what they promise.

    ** The program

    [Server] (server.go) accepts connections and runs [Conn.serve] (conn.go) on
    each in a goroutine of its own.  [serve] greets the client and reads command
    lines under a read deadline; [dispatch] hands each to a handler by the
    protocol state, AUTHORIZATION or TRANSACTION; the handlers parse arguments,
    call the methods of a [Session] (session.go), which is the consumer's code,
    and print responses through a buffered writer, message bodies through
    [dotStuffWriter] (dotstuff.go).  A session may call back the exported methods
    of its [*Conn]: it may take the connection over ([Hijack]).  [Options]
    (options.go) configures limits, timeouts, hooks.  [pop3mem] implements
    [Session] over a store shared by all connections.  The client sends a
    command, reads the response and parses it; a context bounds each operation,
    and a goroutine ([guard]) interrupts the one under way when the context is
    cancelled.

    ** The files, and the code each models

    The language and its library, as far as the program uses them:
    - [Prelude]: bytes, integers of a width, tactics, generic lemmas;
    - [GoStrings]: [strings], UTF-8 decoding, case mapping (its tables for
      non-ASCII letters are the class [Unicode]);
    - [GoConv]: [strconv], [fmt]'s decimal output, base64;
    - [Net], [NetLive]: a [net.Conn] whose peer is a script of timed arrivals,
      with deadlines and a script of what happens to writes; [bufio.Reader] and
      [bufio.Writer] over it, byte for byte.

    The server:
    - [Errors]: errors.go, the records of package pop3, and the [errors.As] and
      [errors.Is] walks over chains of wrapped errors;
    - [DotStuff]: dotstuff.go, over any [io.Writer], failing ones included;
    - [Parse]: the pure functions of conn.go (commands, numbers, SASL PLAIN);
    - [Session]: session.go and body.go.  A method is a program over the exported
      methods of [Conn] that returns or panics ([Prog]);
    - [Options]: options.go, with [defaults];
    - [ConnState]: the struct [Conn], the monad of the handlers (state, panic,
      blocking), [Hijack], calls of the session, the TLS handshake;
    - [ConnHandlers]: every handler of conn.go, dispatch, the error paths, the
      line reader, in the order of the source;
    - [ConnServe]: [serve], [close], [handleConn], [recoverConn], [ServeConn];
    - [Server]: [Serve], [ListenAndServe], [ListenAndServeTLS], [Close].

    The in-memory maildrop: [Mem] (store.go).  The client: [Client] (client.go
    and commands.go).

    ** What is proved

    A connection, whatever the peer, the consumer's session and the environment
    do ([ConnFacts] and [ConnFrame] have a program logic for the handlers and
    the frame each respects; [ConnTrace] the shape of a connection's event log):
    - [ConnSafety]: session methods are called only by the commands they belong
      to, in the right state, authentication only where it is allowed; login
      attempts and errors are bounded; [Close] is called exactly once; a connection
      ends once the client sends nothing more, and with an absolute limit also
      when it goes on ([ConnLive], [ConnEnds], [ConnAuth] have the lemmas);
    - [ConnTLS]: STLS leaves nothing of the plaintext side, or does not happen;
    - [ConnTimeout]: time-outs, lines that are cut off, cancellation;
    - [ConnHijack]: what a session that takes a connection over gets, whatever it
      returns, and the write deadline it may not know of;
    - [Fuel]: the unbounded loops of the source end, within the rounds the model
      gives them.

    Refinement.  [Spec] is the protocol as a pure machine: a state, a line, a
    response.  [Wire], [Refine], [RefineInput], [RefineLoop], [ServerSpec] and
    [ServerProps] show that the bytes the server writes on a whole connection,
    however the client's lines were segmented, are the machine's conversation,
    and that the session it leaves is the machine's.
    The machine is stated against the class [PureSession] of sessions whose
    methods only compute; [MemSpec] shows that the in-memory maildrop is one.
    [WellFormed]: the output is a sequence of well-formed responses.

    The maildrop.  [MemProps]: a session answers as an abstract maildrop does,
    and TOP returns the lines RFC 1939 names.  [MemWorld]: under any
    interleaving of sessions and deliveries messages leave the store only by a
    QUIT of a session of the same user that marked them.

    The client.  [ClientFacts] and [ClientText] have the building blocks;
    [ClientServer] and [ClientBody] are round trips against the server's
    responses, and say what every command makes of an error; [ClientAuth]: the
    lines of a login as the command loop reads and trims them; [ClientLive]:
    every operation returns under a context that ends, responses are bounded,
    STLS discards the plaintext; [ClientCancel]: when a cancellation is lost;
    [ClientDemo]: the theorems at concrete inputs.

    The system.  [Dialogue] runs the client and the machine side by side: what
    one writes is what the other reads.  [EndToEnd]: a client that connects, logs
    in, retrieves and deletes every message and quits gets the mailbox as it was
    stored, and leaves it empty.

    [Server]: the back-off of the accept loop; what [Close] waits for, and what
    it does not.

    ** Choices of the model

    - Time is an integer in nanoseconds and advances only when an operation
      waits, sleeps or calls consumer code that takes time ([PWork]).  A read
      deadline is met by what arrives strictly before it.
    - An operation of the network that never returns is a result of its own
      ([IoBlock], [Blocked]); panics are another ([Panicked]).
    - [int] has the width [int_width] (32 or 64 bits), a parameter of the
      handlers that parse numbers; a [time.Duration] wraps at 64 bits where the
      source multiplies.
    - What a connection does besides its bytes is its event log: session calls
      with the state and TLS flag they were entered in, commands, counted
      errors, hooks, the closing of the network connection.
    - The environment is an argument: the peer's script, the fate of writes, the
      outcomes of TLS handshakes, the time of the server's cancellation, and how
      long, call by call, the goroutine of a guard that is due takes to run
      ([lag]).
    - A peer's script is finite, of any length.  A client that never stops sending
      is met by scripts of every length: a bound that does not depend on the
      script's length, as the one on the commands run before the absolute limit
      ([ConnEnds]), is a bound for it.  That a run ends is a statement on clients
      that fall silent at some time.
    - A TLS handshake is bounded by the read deadline and the context, and its
      last messages by the write deadline.
    - Hypotheses on consumer code are classes or premises: [TLSStable] (session
      methods do not call [SetTLS], as its comment asks), [PureSession],
      [plain_config] (for the refinement: no upgrade by STLS, because TLS is not
      configured or the connection is encrypted from the start; no hook for
      unknown commands; no absolute limit; timeouts on).

    ** Fuel

    Loops that are not structural take a number of rounds.  The command loop has
    one for each byte and item the peer still has to deliver, and one more: every
    round but the last consumes something.  The line reader has [MaxLineLength]
    and two more, [ReadSlice] the size of the buffer and two more, a buffered
    write two per byte and two more.  [Fuel] proves that the loops of the source,
    without any bound, end within these rounds with what the model computes; the
    client's loops are covered by [ClientLive].  The hundred tries of [fill] are
    [bufio]'s own limit.

    ** Not modelled

    - The logger and its calls; [context.WithCancel]'s identity (a context is its
      deadline and the time of its cancellation).
    - [net.Listen], [net.Dialer], [tls]: their results are inputs.  TLS records
      are not: inside TLS the peer is again a script of arrivals.
    - A message body is what its [Read] yields, an error at the end included; that
      [Read] panics, blocks or takes time is left out, and so is the effect of its
      [Close], which is an event of the log.
    - The mutex of the in-memory store: its operations hold it from start to end
      and are atomic here.
    - The accessors of [Conn] and [Client] that return a field ([NetConn],
      [Context], [Session], [Reader]); [newWriter] is the write-timeout argument
      of [net_write].
    - In [Server], one call of [Serve] and one of [Close]; a connection's run
      between its start and end is one step there, and a function in [ConnServe].

    ** Where this may go next

    The refinement without [plain_config] (STLS, the hook and the absolute limit
    in the machine); several connections of [Server] over one store, and several
    clients. *)
From Stdlib Require Export ZArith Lia Bool.
From Stdlib Require Export Init.Byte.
From Stdlib Require Strings.Byte.
From stdpp Require Export prelude strings list.

#[global] Set Default Goal Selector "!".
#[global] Open Scope Z_scope.

(** ** Bytes

    A Go [string] and a Go [[]byte] are both sequences of 8-bit values;
    both are lists of [byte] here, whose 256 constructors keep the width. *)

Abbreviation byte := Init.Byte.byte.
Abbreviation bytes := (list byte).

#[export] Instance byte_eq_dec : EqDecision byte := Strings.Byte.byte_eq_dec.
#[export] Instance byte_inhabited : Inhabited byte := populate x00.

(** The unsigned value of a byte, and the truncating conversion back. *)
Definition byte_z (b : byte) : Z := Z.of_N (Strings.Byte.to_N b).
Definition z_byte (z : Z) : byte := default x00 (Strings.Byte.of_N (Z.to_N (z mod 256))).

Definition byte_eqb (a b : byte) : bool := Strings.Byte.eqb a b.

Fixpoint bytes_eqb (s t : bytes) : bool :=
  match s, t with
  | [], [] => true
  | a :: s', b :: t' => byte_eqb a b && bytes_eqb s' t'
  | _, _ => false
  end.

(** String literals of the Go source. *)
Definition str (s : string) : bytes := String.list_byte_of_string s.

Definition CR : byte := x0d.
Definition LF : byte := x0a.
Definition SP : byte := x20.
Definition TAB : byte := x09.
Definition DOT : byte := x2e.
Definition NUL : byte := x00.
Definition crlf : bytes := [CR; LF].

Declare Scope pop3_scope.
Delimit Scope pop3_scope with pop3.
Infix "=b?" := byte_eqb (at level 70, no associativity) : pop3_scope.
Infix "=s?" := bytes_eqb (at level 70, no associativity) : pop3_scope.
#[global] Open Scope pop3_scope.

Definition is_nil_list {A} (l : list A) : bool := match l with [] => true | _ => false end.

(** Length as Go's [len]: an [int]. *)
Definition blen {A} (l : list A) : Z := Z.of_nat (length l).

(** Two's-complement wrap-around of a signed [w]-bit integer. *)
Definition wrap_s (w z : Z) : Z := (z + 2 ^ (w - 1)) mod 2 ^ w - 2 ^ (w - 1).

(** ** Tactics *)

(** Case analysis on the scrutinee of the first [match] or [if] of the goal. *)
Ltac case_goal :=
  match goal with
  | |- context [match ?x with _ => _ end] => destruct x eqn:?
  end.

(** Turns boolean comparisons in the context into propositions. *)
Ltac bool_hyps :=
  repeat match goal with
  | H : (_ && _)%bool = true |- _ => apply andb_true_iff in H as [? ?]
  | H : (_ || _)%bool = false |- _ => apply orb_false_iff in H as [? ?]
  | H : negb _ = true |- _ => apply negb_true_iff in H
  | H : negb _ = false |- _ => apply negb_false_iff in H
  | H : (_ <? _) = true |- _ => apply Z.ltb_lt in H
  | H : (_ <? _) = false |- _ => apply Z.ltb_ge in H
  | H : (_ <=? _) = true |- _ => apply Z.leb_le in H
  | H : (_ <=? _) = false |- _ => apply Z.leb_gt in H
  | H : (_ =? _) = true |- _ => apply Z.eqb_eq in H
  | H : (_ =? _) = false |- _ => apply Z.eqb_neq in H
  end.

(** ** Facts on bytes *)

Lemma byte_z_range b : 0 <= byte_z b < 256.
Proof.
  unfold byte_z. pose proof (Strings.Byte.to_N_bounded b). lia.
Qed.

Lemma byte_z_inj a b : byte_z a = byte_z b -> a = b.
Proof.
  unfold byte_z. intros H%N2Z.inj.
  pose proof (Strings.Byte.of_to_N a) as Ha. pose proof (Strings.Byte.of_to_N b) as Hb.
  congruence.
Qed.

Lemma z_byte_z b : z_byte (byte_z b) = b.
Proof.
  unfold z_byte. rewrite Z.mod_small by apply byte_z_range.
  unfold byte_z. by rewrite N2Z.id, Strings.Byte.of_to_N.
Qed.

Lemma byte_z_byte z : byte_z (z_byte z) = z mod 256.
Proof.
  unfold z_byte. pose proof (Z.mod_pos_bound z 256 ltac:(lia)) as Hr.
  destruct (Strings.Byte.of_N (Z.to_N (z mod 256))) as [b|] eqn:E; simpl.
  - apply Strings.Byte.to_of_N in E. unfold byte_z. rewrite E. lia.
  - apply Strings.Byte.of_N_None_iff in E. lia.
Qed.

Lemma byte_eqb_eq a b : byte_eqb a b = true <-> a = b.
Proof. split; [apply Strings.Byte.byte_dec_bl | apply Strings.Byte.byte_dec_lb]. Qed.

Lemma byte_eqb_spec a b : reflect (a = b) (byte_eqb a b).
Proof. apply iff_reflect. by rewrite byte_eqb_eq. Qed.

Lemma byte_eqb_refl a : byte_eqb a a = true.
Proof. by apply byte_eqb_eq. Qed.

Lemma byte_eqb_neq a b : byte_eqb a b = false <-> a <> b.
Proof. destruct (byte_eqb_spec a b); split; congruence. Qed.

Lemma bytes_eqb_eq s t : bytes_eqb s t = true <-> s = t.
Proof.
  revert t. induction s as [|a s IH]; intros [|b t]; simpl; try (split; congruence).
  rewrite andb_true_iff, byte_eqb_eq, IH. split; [intros [-> ->] | intros [= -> ->]]; auto.
Qed.

Lemma bytes_eqb_spec s t : reflect (s = t) (bytes_eqb s t).
Proof. apply iff_reflect. by rewrite bytes_eqb_eq. Qed.

Lemma bytes_eqb_refl s : bytes_eqb s s = true.
Proof. by apply bytes_eqb_eq. Qed.

Lemma bytes_eqb_neq s t : bytes_eqb s t = false <-> s <> t.
Proof. destruct (bytes_eqb_spec s t); split; congruence. Qed.

(** Case analysis on a byte or byte-string test of the goal. *)
Ltac beq_cases :=
  repeat match goal with
  | |- context [byte_eqb ?a ?b] => destruct (byte_eqb_spec a b); simpl
  | |- context [bytes_eqb ?a ?b] => destruct (bytes_eqb_spec a b); simpl
  end.

Lemma blen_nonneg {A} (l : list A) : 0 <= blen l.
Proof. unfold blen. lia. Qed.

Lemma blen_app {A} (l k : list A) : blen (l ++ k) = blen l + blen k.
Proof. unfold blen. rewrite length_app. lia. Qed.

Lemma blen_cons {A} (x : A) l : blen (x :: l) = 1 + blen l.
Proof. unfold blen. simpl. lia. Qed.

(** ** Wrap-around *)

Lemma wrap_s_small w z : 0 < w -> - 2 ^ (w - 1) <= z < 2 ^ (w - 1) -> wrap_s w z = z.
Proof.
  intros Hw Hz. unfold wrap_s.
  assert (2 ^ w = 2 * 2 ^ (w - 1)) as E.
  { rewrite <- Z.pow_succ_r by lia. f_equal. lia. }
  rewrite Z.mod_small by lia. lia.
Qed.

Lemma wrap_s_range w z : 0 < w -> - 2 ^ (w - 1) <= wrap_s w z < 2 ^ (w - 1).
Proof.
  intros Hw. unfold wrap_s.
  assert (2 ^ w = 2 * 2 ^ (w - 1)) as E.
  { rewrite <- Z.pow_succ_r by lia. f_equal. lia. }
  pose proof (Z.mod_pos_bound (z + 2 ^ (w - 1)) (2 ^ w) ltac:(lia)). lia.
Qed.

(** ** Facts on lists *)

Lemma Forall_concat {A} (P : A -> Prop) (ls : list (list A)) :
  Forall (Forall P) ls -> Forall P (concat ls).
Proof. induction 1; simpl; [constructor | by apply Forall_app]. Qed.

Lemma filter_Forall_id {A} (f : A -> bool) l :
  Forall (fun x => f x = true) l -> List.filter f l = l.
Proof. induction 1 as [|x l Hx Hl IH]; simpl; [done|]. by rewrite Hx, IH. Qed.

Lemma filter_all {A} (f : A -> bool) l : Forall (fun x => f x = true) (List.filter f l).
Proof. induction l as [|x l IH]; simpl; [constructor|]. destruct (f x) eqn:E; auto. Qed.

(** An element of a concatenation is in one of the halves. *)
Lemma app_eq_middle {A} (l k p q : list A) x :
  l ++ k = p ++ x :: q ->
  (exists q', l = p ++ x :: q' /\ q = q' ++ k) \/ (exists p', p = l ++ p' /\ k = p' ++ x :: q).
Proof.
  revert p. induction l as [|a l IH]; intros p Hl; simpl in *; [right; by exists p|].
  destruct p as [|b p]; simpl in *.
  - injection Hl as -> <-. left. by exists l.
  - injection Hl as -> Hl. destruct (IH p Hl) as [(q' & -> & ->)|(p' & -> & ->)]; [left|right]; eauto.
Qed.

Create HintDb bytes.
Create Rewrite HintDb bytes.
#[export] Hint Resolve byte_z_range blen_nonneg byte_eqb_refl bytes_eqb_refl : bytes.
#[export] Hint Rewrite @blen_app @blen_cons byte_eqb_refl bytes_eqb_refl z_byte_z : bytes.

(** A loop whose body calls itself on smaller arguments only: after enough rounds
    it has ended, whatever would come next. *)
Lemma iter_ends {A B} (F : (A -> B) -> A -> B) (size : A -> nat) :
  (forall f f' x, (forall y, size y < size x -> f y = f' y)%nat -> F f x = F f' x) ->
  forall k k' g g' x, (size x < k)%nat -> (size x < k')%nat -> Nat.iter k F g x = Nat.iter k' F g' x.
Proof.
  intros HF k. induction k as [|k IH]; intros k' g g' x Hk Hk'; [lia|]. destruct k' as [|k']; [lia|].
  simpl. apply HF. intros y Hy. apply IH; lia.
Qed.

(** The unbounded loop whose body is [F], begun at [x], ends with [b] before its
    round [k]: whatever [g] stands for the rounds that come after, it is not
    reached. *)
Definition ends_within {A B} (k : nat) (F : (A -> B) -> A -> B) (x : A) (b : B) : Prop :=
  forall k' g, (k <= k')%nat -> Nat.iter k' F g x = b.

Lemma iter_ends_within {A B} (F : (A -> B) -> A -> B) (size : A -> nat) g k x :
  (forall f f' x, (forall y, size y < size x -> f y = f' y)%nat -> F f x = F f' x) ->
  (size x < k)%nat -> ends_within k F x (Nat.iter k F g x).
Proof. intros HF Hk k' g' Hk'. apply (iter_ends F size HF); lia. Qed.
