(* ===== verification/GoStrings.v ===== *)
(** * The parts of Go's [strings], [bytes] and [unicode/utf8] the program uses

    These are models of standard-library functions, not of go-pop3 code: the
    other files call them where the source calls the library.  Strings are byte
    sequences; a [range] loop over a string decodes UTF-8, an invalid byte
    yielding U+FFFD with width 1. *)
From S2P Require Import Prelude.

(** Unicode case tables for runes above U+007F ([unicode.ToUpper], and
    whether two runes are in one [unicode.SimpleFold] orbit).  The tables are
    data of the standard library; every theorem holds for all of them. *)
Class Unicode := {
  uc_upper : Z -> Z;
  uc_same_fold : Z -> Z -> bool
}.

(** The tables restricted to ASCII, for closed examples. *)
#[export] Instance ascii_unicode : Unicode := {| uc_upper r := r; uc_same_fold a b := a =? b |}.

(** ** Searching and slicing *)

Fixpoint has_prefix (s p : bytes) {struct p} : bool :=
  match p, s with
  | [], _ => true
  | b :: p', a :: s' => byte_eqb a b && has_prefix s' p'
  | _ :: _, [] => false
  end.

Definition trim_prefix (s p : bytes) : bytes :=
  if has_prefix s p then drop (length p) s else s.

(** Index of the first byte satisfying [f] ([IndexByte], [IndexAny] with an
    ASCII set). *)
Fixpoint index_func (f : byte -> bool) (s : bytes) : option nat :=
  match s with
  | [] => None
  | a :: s' => if f a then Some 0%nat else S <$> index_func f s'
  end.

Definition index_byte (s : bytes) (c : byte) : option nat := index_func (fun a => a =b? c) s.

(** [bytes.Index]: the first occurrence of [sep]. *)
Fixpoint index_sub (s sep : bytes) : option nat :=
  if has_prefix s sep then Some 0%nat
  else match s with
       | [] => None
       | _ :: s' => S <$> index_sub s' sep
       end.

(** Split a line at the first byte satisfying [f]; used to state facts. *)
Fixpoint join (sep : bytes) (parts : list bytes) : bytes :=
  match parts with
  | [] => []
  | [p] => p
  | p :: ps => p ++ sep ++ join sep ps
  end.

(** ** UTF-8 *)

Definition rune_error : Z := 65533.

(** A continuation byte within the given bounds. *)
Definition cont (b : byte) (lo hi : Z) : bool := (lo <=? byte_z b) && (byte_z b <=? hi).

(** [utf8.DecodeRune]: the rune and its width; [(rune_error, 1)] on an invalid
    sequence, [(rune_error, 0)] on the empty string. *)
Definition decode_rune (s : bytes) : Z * nat :=
  match s with
  | [] => (rune_error, 0%nat)
  | b0 :: s1 =>
    let c0 := byte_z b0 in
    if c0 <? 128 then (c0, 1%nat)
    else if (194 <=? c0) && (c0 <=? 223) then
      match s1 with
      | b1 :: _ => if cont b1 128 191
                   then ((c0 mod 32) * 64 + byte_z b1 mod 64, 2%nat)
                   else (rune_error, 1%nat)
      | [] => (rune_error, 1%nat)
      end
    else if (224 <=? c0) && (c0 <=? 239) then
      let lo := if c0 =? 224 then 160 else 128 in
      let hi := if c0 =? 237 then 159 else 191 in
      match s1 with
      | b1 :: b2 :: _ =>
        if cont b1 lo hi && cont b2 128 191
        then ((c0 mod 16) * 4096 + (byte_z b1 mod 64) * 64 + byte_z b2 mod 64, 3%nat)
        else (rune_error, 1%nat)
      | _ => (rune_error, 1%nat)
      end
    else if (240 <=? c0) && (c0 <=? 244) then
      let lo := if c0 =? 240 then 144 else 128 in
      let hi := if c0 =? 244 then 143 else 191 in
      match s1 with
      | b1 :: b2 :: b3 :: _ =>
        if cont b1 lo hi && cont b2 128 191 && cont b3 128 191
        then ((c0 mod 8) * 262144 + (byte_z b1 mod 64) * 4096
              + (byte_z b2 mod 64) * 64 + byte_z b3 mod 64, 4%nat)
        else (rune_error, 1%nat)
      | _ => (rune_error, 1%nat)
      end
    else (rune_error, 1%nat)
  end.

(** [utf8.EncodeRune]; surrogates and out-of-range values encode U+FFFD. *)
Definition encode_rune (r : Z) : bytes :=
  let r := if (r <? 0) || (1114111 <? r) || ((55296 <=? r) && (r <=? 57343))
           then rune_error else r in
  if r <=? 127 then [z_byte r]
  else if r <=? 2047 then [z_byte (192 + r / 64); z_byte (128 + r mod 64)]
  else if r <=? 65535 then
    [z_byte (224 + r / 4096); z_byte (128 + (r / 64) mod 64); z_byte (128 + r mod 64)]
  else
    [z_byte (240 + r / 262144); z_byte (128 + (r / 4096) mod 64);
     z_byte (128 + (r / 64) mod 64); z_byte (128 + r mod 64)].

(** The runes a [range] loop visits, each with the bytes it was decoded from.
    The fuel is the length of the string: each rune takes at least one byte. *)
Fixpoint runes_fuel (n : nat) (s : bytes) : list (Z * bytes) :=
  match n, s with
  | S n', _ :: _ =>
    let '(r, w) := decode_rune s in (r, take w s) :: runes_fuel n' (drop w s)
  | _, _ => []
  end.

Definition runes (s : bytes) : list (Z * bytes) := runes_fuel (length s) s.

Definition ascii_only (s : bytes) : bool := forallb (fun b => byte_z b <? 128) s.

(** ** White space *)

(** [unicode.IsSpace]: the Latin-1 spaces, and the White_Space property. *)
Definition is_space (r : Z) : bool :=
  if r <=? 255 then
    ((9 <=? r) && (r <=? 13)) || (r =? 32) || (r =? 133) || (r =? 160)
  else
    (r =? 5760) || ((8192 <=? r) && (r <=? 8202)) || (r =? 8232) || (r =? 8233)
    || (r =? 8239) || (r =? 8287) || (r =? 12288).

(** [strings.Fields]: the maximal runs of non-space runes. *)
Fixpoint fields_go (cur : option bytes) (rs : list (Z * bytes)) : list bytes :=
  match rs with
  | [] => match cur with Some f => [f] | None => [] end
  | (r, bs) :: rs' =>
    if is_space r then
      match cur with Some f => f :: fields_go None rs' | None => fields_go None rs' end
    else fields_go (Some (default [] cur ++ bs)) rs'
  end.

Definition fields (s : bytes) : list bytes := fields_go None (runes s).

Fixpoint trim_left_space (rs : list (Z * bytes)) : bytes :=
  match rs with
  | [] => []
  | (r, bs) :: rs' => if is_space r then trim_left_space rs' else bs ++ concat (map snd rs')
  end.

(** [utf8.DecodeLastRune]: the width of the last rune and the rune.  It backs
    up over at most three continuation bytes to a byte that can start a rune,
    and accepts the rune decoded there only if it ends where the string ends. *)
Definition rune_start (b : byte) : bool := negb ((128 <=? byte_z b) && (byte_z b <=? 191)).

Fixpoint back_up (k : nat) (rev_s acc : bytes) : bytes :=
  match k, rev_s with
  | S k', b :: rest => if rune_start b then b :: acc else back_up k' rest (b :: acc)
  | _, _ => acc
  end.

Definition decode_last_rune (s : bytes) : Z * nat :=
  match reverse s with
  | [] => (rune_error, 0%nat)
  | b :: rest =>
    if byte_z b <? 128 then (byte_z b, 1%nat)
    else
      let tail := if rune_start b then [b] else back_up 3 rest [b] in
      let '(r, w) := decode_rune tail in
      if (w =? length tail)%nat then (r, w) else (rune_error, 1%nat)
  end.

Fixpoint trim_right_fuel (n : nat) (s : bytes) : bytes :=
  match n with
  | O => s
  | S n' =>
    match s with
    | [] => []
    | _ =>
      let '(r, w) := decode_last_rune s in
      if is_space r then trim_right_fuel n' (take (length s - w) s) else s
    end
  end.

(** [strings.TrimSpace]. *)
Definition trim_space (s : bytes) : bytes :=
  let l := trim_left_space (runes s) in trim_right_fuel (length l) l.

(** ** Case *)

Section Case.
Context `{Unicode}.

(** [unicode.ToUpper]. *)
Definition rune_upper (r : Z) : Z :=
  if r <=? 127 then (if (97 <=? r) && (r <=? 122) then r - 32 else r) else uc_upper r.

Definition byte_upper (b : byte) : byte :=
  if (97 <=? byte_z b) && (byte_z b <=? 122) then z_byte (byte_z b - 32) else b.

(** [strings.ToUpper]: bytewise on an ASCII string; otherwise
    [strings.Map(unicode.ToUpper, s)], which re-encodes every rune. *)
Definition to_upper (s : bytes) : bytes :=
  if ascii_only s then map byte_upper s
  else concat (map (fun rb => encode_rune (rune_upper rb.1)) (runes s)).

Definition byte_fold (b : byte) : byte :=
  if (65 <=? byte_z b) && (byte_z b <=? 90) then z_byte (byte_z b + 32) else b.

(** One step of [strings.EqualFold] on a pair of runes. *)
Definition rune_equal_fold (a b : Z) : bool :=
  if a =? b then true
  else
    let sr := Z.min a b in
    let tr := Z.max a b in
    if tr <? 128 then (65 <=? sr) && (sr <=? 90) && (tr =? sr + 32)
    else uc_same_fold sr tr.

Fixpoint equal_fold_runes (s t : list (Z * bytes)) : bool :=
  match s, t with
  | [], [] => true
  | a :: s', b :: t' => rune_equal_fold a.1 b.1 && equal_fold_runes s' t'
  | _, _ => false
  end.

(** [strings.EqualFold]. *)
Definition equal_fold (s t : bytes) : bool := equal_fold_runes (runes s) (runes t).
End Case.

(** ** Facts *)

Lemma decode_rune_width b s : (1 <= (decode_rune (b :: s)).2 <= length (b :: s))%nat.
Proof.
  unfold decode_rune. cbn -[byte_z cont Z.mul Z.modulo].
  repeat (case_match; cbn -[byte_z cont Z.mul Z.modulo]); lia.
Qed.

Lemma runes_fuel_concat n s : (length s <= n)%nat -> concat (map snd (runes_fuel n s)) = s.
Proof.
  revert s. induction n as [|n IH]; intros [|b s] Hn; try done; try (simpl in Hn; lia).
  pose proof (decode_rune_width b s) as Hw. cbn [runes_fuel].
  destruct (decode_rune (b :: s)) as [r w]; cbn [map snd concat] in *.
  rewrite IH; [apply take_drop|]. rewrite length_drop. simpl in *. lia.
Qed.

(** The runes of a string are a partition of its bytes. *)
Lemma runes_concat s : concat (map snd (runes s)) = s.
Proof. apply runes_fuel_concat. lia. Qed.

Lemma runes_fuel_ascii n s :
  (length s <= n)%nat -> ascii_only s = true ->
  runes_fuel n s = map (fun b => (byte_z b, [b])) s.
Proof.
  revert s. induction n as [|n IH]; intros [|b s] Hn Ha; try done; try (simpl in Hn; lia).
  change (ascii_only (b :: s)) with ((byte_z b <? 128) && ascii_only s) in Ha.
  apply andb_true_iff in Ha as [Hb Ha].
  cbn [runes_fuel]. unfold decode_rune. rewrite Hb. simpl. f_equal.
  apply IH; [simpl in Hn; lia | done].
Qed.

(** On an ASCII string the runes are the bytes. *)
Lemma runes_ascii s : ascii_only s = true -> runes s = map (fun b => (byte_z b, [b])) s.
Proof. apply runes_fuel_ascii. lia. Qed.

Lemma has_prefix_app s t : has_prefix (s ++ t) s = true.
Proof. induction s as [|b s IH]; simpl; [done|]. by rewrite byte_eqb_refl, IH. Qed.

Lemma has_prefix_spec s p : has_prefix s p = true <-> exists t, s = p ++ t.
Proof.
  revert s. induction p as [|b p IH]; intros s; simpl.
  - split; [intros _; by exists s | intros _; done].
  - destruct s as [|a s]; [split; [intros [=] | intros [t [=]]]|].
    rewrite andb_true_iff, byte_eqb_eq, IH. split.
    + intros [-> [t ->]]. by exists t.
    + intros [t [= -> ->]]. split; [done | by exists t].
Qed.

Lemma index_func_spec f s n :
  index_func f s = Some n ->
  exists a, s !! n = Some a /\ f a = true /\ Forall (fun b => f b = false) (take n s).
Proof.
  revert n. induction s as [|b s IH]; intros n; simpl; [done|].
  destruct (f b) eqn:E.
  - intros [= <-]. exists b. auto using Forall_nil.
  - destruct (index_func f s) as [m|] eqn:E'; simpl; [|done]. intros [= <-].
    destruct (IH m eq_refl) as (a & Ha & Hf & Hall). exists a. repeat split; auto.
    simpl. by constructor.
Qed.

Lemma index_func_None f s : index_func f s = None <-> Forall (fun b => f b = false) s.
Proof.
  induction s as [|b s IH]; simpl; [split; auto using Forall_nil|].
  destruct (f b) eqn:E.
  - split; [done | intros Hf; inv Hf; congruence].
  - rewrite Forall_cons_iff, <- IH. destruct (index_func f s); simpl; split; try done.
    all: intuition congruence.
Qed.

Lemma index_func_app f s a t :
  Forall (fun b => f b = false) s -> f a = true -> index_func f (s ++ a :: t) = Some (length s).
Proof.
  intros Hs Ha. induction Hs as [|b s Hb Hs IH]; simpl; [by rewrite Ha|].
  by rewrite Hb, IH.
Qed.

(** A byte outside ASCII never decodes to an ASCII rune. *)
Lemma decode_rune_big b s : 128 <= byte_z b -> 128 <= (decode_rune (b :: s)).1.
Proof.
  intros Hb. pose proof (byte_z_range b) as Hr. unfold decode_rune.
  destruct (byte_z b <? 128) eqn:E0; bool_hyps; [lia|].
  assert (forall c lo hi, cont c lo hi = true -> lo <= byte_z c <= hi) as Hc.
  { unfold cont. intros. bool_hyps. lia. }
  destruct ((194 <=? byte_z b) && (byte_z b <=? 223)) eqn:E1.
  { bool_hyps. destruct s as [|b1 s]; [done|].
    destruct (cont b1 128 191) eqn:C1; [|done]. apply Hc in C1. simpl fst.
    Z.to_euclidean_division_equations. lia. }
  destruct ((224 <=? byte_z b) && (byte_z b <=? 239)) eqn:E2.
  { bool_hyps. destruct s as [|b1 [|b2 s]]; [done|done|].
    destruct (cont b1 _ _ && cont b2 128 191) eqn:C1; [|done]. bool_hyps.
    apply Hc in H1, H2. simpl fst. destruct (byte_z b =? 224) eqn:E3; bool_hyps;
    destruct (byte_z b =? 237) eqn:E4; bool_hyps;
      Z.to_euclidean_division_equations; lia. }
  destruct ((240 <=? byte_z b) && (byte_z b <=? 244)) eqn:E3; [|done].
  bool_hyps. destruct s as [|b1 [|b2 [|b3 s]]]; [done|done|done|].
  destruct (cont b1 _ _ && _ && _) eqn:C1; [|done]. bool_hyps.
  apply Hc in H1, H2, H3. simpl fst. destruct (byte_z b =? 240) eqn:E4; bool_hyps;
  destruct (byte_z b =? 244) eqn:E5; bool_hyps; Z.to_euclidean_division_equations; lia.
Qed.
