(* ===== verification/GoConv.v ===== *)
(** * The parts of Go's [strconv], [fmt] and [encoding/base64] the program uses

    Decimal printing and parsing, and the standard base64 alphabet, with the
    round trips the wire formats rest on. *)
From S2P Require Import Prelude GoStrings.

(** ** Decimal integers *)

Definition digit (d : Z) : byte := z_byte (48 + d).

(** Digits of a natural number, most significant first, onto [acc].  Each step
    divides by ten, so [1 + log2 n] steps are enough. *)
Fixpoint digits_fuel (k : nat) (n : Z) (acc : bytes) : bytes :=
  match k with
  | O => acc
  | S k' =>
    let acc' := digit (n mod 10) :: acc in
    if n / 10 =? 0 then acc' else digits_fuel k' (n / 10) acc'
  end.

Definition utoa (n : Z) : bytes := digits_fuel (S (Z.to_nat (Z.log2 n))) n [].

(** [%d] of a signed integer. *)
Definition itoa (n : Z) : bytes := if n <? 0 then x2d :: utoa (- n) else utoa n.

Definition is_digit (b : byte) : bool := (48 <=? byte_z b) && (byte_z b <=? 57).

(** The value of a digit string; [None] when a byte is not a digit. *)
Fixpoint digits_val (acc : Z) (s : bytes) : option Z :=
  match s with
  | [] => Some acc
  | b :: s' => if is_digit b then digits_val (acc * 10 + (byte_z b - 48)) s' else None
  end.

(** [strconv.ParseInt(s, 10, w)]; [strconv.Atoi] is the case where [w] is the
    width of [int].  A value out of range is an error. *)
Definition parse_signed (w : Z) (s : bytes) : option Z :=
  let '(neg, ds) := match s with
                    | b :: s' => if b =b? x2d then (true, s')
                                 else if b =b? x2b then (false, s') else (false, s)
                    | [] => (false, s)
                    end in
  match ds with
  | [] => None
  | _ =>
    match digits_val 0 ds with
    | None => None
    | Some u =>
      if neg then (if 2 ^ (w - 1) <? u then None else Some (- u))
      else (if 2 ^ (w - 1) <=? u then None else Some u)
    end
  end.

(** ** Base64, standard alphabet with padding *)

Definition b64_char (v : Z) : byte :=
  if v <? 26 then z_byte (65 + v)
  else if v <? 52 then z_byte (97 + (v - 26))
  else if v <? 62 then z_byte (48 + (v - 52))
  else if v =? 62 then x2b else x2f.

Definition b64_val (b : byte) : option Z :=
  let c := byte_z b in
  if (65 <=? c) && (c <=? 90) then Some (c - 65)
  else if (97 <=? c) && (c <=? 122) then Some (c - 97 + 26)
  else if (48 <=? c) && (c <=? 57) then Some (c - 48 + 52)
  else if c =? 43 then Some 62
  else if c =? 47 then Some 63
  else None.

(** [StdEncoding.EncodeToString]. *)
Fixpoint b64_encode (s : bytes) : bytes :=
  match s with
  | a :: b :: c :: s' =>
    let v := byte_z a * 65536 + byte_z b * 256 + byte_z c in
    b64_char (v / 262144) :: b64_char (v / 4096 mod 64)
    :: b64_char (v / 64 mod 64) :: b64_char (v mod 64) :: b64_encode s'
  | [a; b] =>
    let v := byte_z a * 65536 + byte_z b * 256 in
    [b64_char (v / 262144); b64_char (v / 4096 mod 64); b64_char (v / 64 mod 64); x3d]
  | [a] =>
    let v := byte_z a * 65536 in
    [b64_char (v / 262144); b64_char (v / 4096 mod 64); x3d; x3d]
  | [] => []
  end.

(** The quanta of [Encoding.decode], newlines removed.  Padding must end the
    input; the unused low bits of a padded quantum are not checked. *)
Fixpoint b64_quanta (s : bytes) : option bytes :=
  match s with
  | [] => Some []
  | c0 :: c1 :: c2 :: c3 :: s' =>
    v0 ← b64_val c0; v1 ← b64_val c1;
    if c2 =b? x3d then
      if (c3 =b? x3d) && match s' with [] => true | _ => false end
      then Some [z_byte (v0 * 4 + v1 / 16)] else None
    else
      v2 ← b64_val c2;
      if c3 =b? x3d then
        match s' with
        | [] => Some [z_byte (v0 * 4 + v1 / 16); z_byte (v1 * 16 + v2 / 4)]
        | _ => None
        end
      else
        v3 ← b64_val c3;
        rest ← b64_quanta s';
        Some (z_byte (v0 * 4 + v1 / 16) :: z_byte (v1 * 16 + v2 / 4)
              :: z_byte (v2 * 64 + v3) :: rest)
  | _ => None
  end.

(** [StdEncoding.DecodeString]: CR and LF are skipped wherever they stand. *)
Definition b64_decode (s : bytes) : option bytes :=
  b64_quanta (List.filter (fun b => negb ((b =b? CR) || (b =b? LF))) s).

(** ** Decimal round trip *)

Lemma digit_val d : 0 <= d < 10 -> byte_z (digit d) = 48 + d.
Proof. intros. unfold digit. rewrite byte_z_byte, Z.mod_small; lia. Qed.

Lemma digit_is_digit d : 0 <= d < 10 -> is_digit (digit d) = true.
Proof. intros. unfold is_digit. rewrite digit_val by done. lia. Qed.

Lemma digits_val_app a s t : digits_val a (s ++ t) = v ← digits_val a s; digits_val v t.
Proof.
  revert a. induction s as [|b s IH]; intros a; simpl; [done|].
  by destruct (is_digit b).
Qed.

Lemma digits_fuel_acc k n acc : digits_fuel k n acc = digits_fuel k n [] ++ acc.
Proof.
  revert n acc. induction k as [|k IH]; intros n acc; simpl; [done|].
  case_match; [done|]. rewrite IH. rewrite (IH _ [digit _]). by rewrite <- app_assoc.
Qed.

Lemma digits_fuel_val k n :
  0 <= n -> n < 2 ^ Z.of_nat k -> digits_val 0 (digits_fuel k n []) = Some n.
Proof.
  revert n. induction k as [|k IH]; intros n H0 Hk.
  - simpl in *. f_equal. lia.
  - cbn [digits_fuel].
    pose proof (Z.mod_pos_bound n 10 ltac:(lia)) as Hm.
    pose proof (Z.div_mod n 10 ltac:(lia)) as Hd.
    destruct (n / 10 =? 0) eqn:E; bool_hyps.
    + cbn -[digit]. rewrite digit_is_digit, digit_val by lia. f_equal. lia.
    + rewrite digits_fuel_acc, digits_val_app, IH; simpl.
      * rewrite digit_is_digit, digit_val by lia. f_equal. lia.
      * apply Z.div_pos; lia.
      * rewrite Nat2Z.inj_succ, Z.pow_succ_r in Hk by lia.
        apply Z.div_lt_upper_bound; lia.
Qed.

Lemma utoa_val n : 0 <= n -> digits_val 0 (utoa n) = Some n.
Proof.
  intros Hn. apply digits_fuel_val; [done|].
  destruct (decide (n = 0)) as [->|]; [done|].
  pose proof (Z.log2_spec n ltac:(lia)) as [_ Hl].
  pose proof (Z.log2_nonneg n). by rewrite Nat2Z.inj_succ, Z2Nat.id by done.
Qed.

Lemma digits_fuel_digits k n acc :
  0 <= n -> Forall (fun b => is_digit b = true) acc ->
  Forall (fun b => is_digit b = true) (digits_fuel k n acc).
Proof.
  revert n acc. induction k as [|k IH]; intros n acc Hn Ha; simpl; [done|].
  assert (Forall (fun b => is_digit b = true) (digit (n mod 10) :: acc)) as Ha'.
  { constructor; [|done]. apply digit_is_digit, Z.mod_pos_bound. lia. }
  case_match; [done|]. apply IH; [apply Z.div_pos; lia | done].
Qed.

Lemma utoa_digits n : 0 <= n -> Forall (fun b => is_digit b = true) (utoa n).
Proof. intros. by apply digits_fuel_digits. Qed.

Lemma digits_fuel_nonempty k n acc : digits_fuel (S k) n acc <> [].
Proof.
  simpl. case_match; [done|]. rewrite digits_fuel_acc.
  intros [_ [=]]%app_eq_nil.
Qed.

Lemma utoa_nonempty n : utoa n <> [].
Proof. apply digits_fuel_nonempty. Qed.

Lemma itoa_nonempty n : itoa n <> [].
Proof. unfold itoa. case_match; [done | apply utoa_nonempty]. Qed.

(** The bytes [%d] can print. *)
Definition num_byte (b : byte) : bool := is_digit b || (b =b? x2d).

Lemma itoa_num n : Forall (fun b => num_byte b = true) (itoa n).
Proof.
  unfold itoa. destruct (n <? 0) eqn:E; bool_hyps.
  - constructor; [done|]. eapply Forall_impl; [apply utoa_digits; lia|].
    intros b Hb. unfold num_byte. by rewrite Hb.
  - eapply Forall_impl; [apply utoa_digits; lia|].
    intros b Hb. unfold num_byte. by rewrite Hb.
Qed.

Lemma is_digit_sign b : is_digit b = true -> byte_eqb b x2d = false /\ byte_eqb b x2b = false.
Proof. intros H. split; apply byte_eqb_neq; intros ->; by vm_compute in H. Qed.

(** Parsing what [%d] printed gives the number back, for every number the
    width can hold. *)
Lemma parse_itoa w n :
  0 < w -> - 2 ^ (w - 1) <= n < 2 ^ (w - 1) -> parse_signed w (itoa n) = Some n.
Proof.
  intros Hw Hn. unfold itoa, parse_signed. destruct (n <? 0) eqn:E; bool_hyps.
  - rewrite byte_eqb_refl. destruct (utoa (- n)) as [|d ds] eqn:Eu.
    { by apply utoa_nonempty in Eu. }
    rewrite <- Eu, utoa_val by lia.
    destruct (2 ^ (w - 1) <? - n) eqn:E'; bool_hyps; [lia|]. f_equal. lia.
  - pose proof (utoa_digits n ltac:(lia)) as Hd.
    destruct (utoa n) as [|d ds] eqn:Eu; [by apply utoa_nonempty in Eu|].
    inv Hd. destruct (is_digit_sign d) as [-> ->]; [done|].
    rewrite <- Eu, utoa_val by lia.
    destruct (2 ^ (w - 1) <=? n) eqn:E'; bool_hyps; [lia | done].
Qed.

(** ** Base64 round trip *)

Lemma sextet_forall (f : Z -> bool) :
  forallb f (seqZ 0 64) = true -> forall v, 0 <= v < 64 -> f v = true.
Proof.
  intros Hf v Hv. rewrite List.forallb_forall in Hf. apply Hf, list_elem_of_In, elem_of_seqZ. lia.
Qed.

Lemma b64_val_char v : 0 <= v < 64 -> b64_val (b64_char v) = Some v.
Proof.
  intros Hv. pose proof (sextet_forall (fun v => bool_decide (b64_val (b64_char v) = Some v))) as H.
  specialize (H ltac:(vm_compute; reflexivity) v Hv). cbv beta in H. by apply bool_decide_eq_true in H.
Qed.

Lemma b64_char_not_pad v : 0 <= v < 64 ->
  byte_eqb (b64_char v) x3d = false /\ byte_eqb (b64_char v) CR = false
  /\ byte_eqb (b64_char v) LF = false.
Proof.
  intros Hv. pose proof (sextet_forall (fun v => negb (byte_eqb (b64_char v) x3d)
    && negb (byte_eqb (b64_char v) CR) && negb (byte_eqb (b64_char v) LF))) as H.
  specialize (H ltac:(vm_compute; reflexivity) v Hv). cbv beta in H. by bool_hyps.
Qed.

Lemma z_byte_eq z b : z mod 256 = byte_z b -> z_byte z = b.
Proof. intros H. rewrite <- (z_byte_z b), <- H. unfold z_byte. by rewrite Z.mod_mod. Qed.

(** The four sextets of a 24-bit group and the three bytes they rebuild. *)
Section Sextets.
Variables (a b c : Z).
Hypotheses (Ha : 0 <= a < 256) (Hb : 0 <= b < 256) (Hc : 0 <= c < 256).
Let v := a * 65536 + b * 256 + c.

Lemma sextet_ranges :
  0 <= v / 262144 < 64 /\ 0 <= v / 4096 mod 64 < 64 /\ 0 <= v / 64 mod 64 < 64
  /\ 0 <= v mod 64 < 64.
Proof using Ha Hb Hc. subst v. Z.to_euclidean_division_equations. lia. Qed.

Lemma sextet_byte0 : (v / 262144 * 4 + (v / 4096 mod 64) / 16) mod 256 = a.
Proof using Ha Hb Hc. subst v. Z.to_euclidean_division_equations. lia. Qed.

Lemma sextet_byte1 : ((v / 4096 mod 64) * 16 + (v / 64 mod 64) / 4) mod 256 = b.
Proof using Ha Hb Hc. subst v. Z.to_euclidean_division_equations. lia. Qed.

Lemma sextet_byte2 : ((v / 64 mod 64) * 64 + v mod 64) mod 256 = c.
Proof using Ha Hb Hc. subst v. Z.to_euclidean_division_equations. lia. Qed.
End Sextets.

(** Every byte of an encoding is a base64 character or padding. *)
Definition b64_byte (b : byte) : bool :=
  match b64_val b with Some _ => true | None => b =b? x3d end.

Lemma b64_char_byte v : 0 <= v < 64 -> b64_byte (b64_char v) = true.
Proof. intros. unfold b64_byte. by rewrite b64_val_char. Qed.

(** Induction by groups of three bytes. *)
Lemma triple_ind (P : bytes -> Prop) :
  P [] -> (forall a, P [a]) -> (forall a b, P [a; b]) ->
  (forall a b c s, P s -> P (a :: b :: c :: s)) -> forall s, P s.
Proof.
  intros H0 H1 H2 H3 s.
  assert (forall n s, (length s <= n)%nat -> P s) as Hn.
  { intros n. induction n as [|n IH]; intros [|a [|b [|c s']]] Hl; simpl in Hl; auto; try lia.
    apply H3, IH. lia. }
  by apply (Hn (length s)).
Qed.

Lemma b64_encode_bytes s : Forall (fun b => b64_byte b = true) (b64_encode s).
Proof.
  induction s as [|a|a b|a b c s IH] using triple_ind; cbn -[Z.mul Z.div Z.modulo b64_char].
  - constructor.
  - destruct (sextet_ranges (byte_z a) 0 0) as (? & ? & ? & ?); auto using byte_z_range; try lia.
    replace (byte_z a * 65536) with (byte_z a * 65536 + 0 * 256 + 0) by lia.
    repeat constructor; by apply b64_char_byte.
  - destruct (sextet_ranges (byte_z a) (byte_z b) 0) as (? & ? & ? & ?);
      auto using byte_z_range; try lia.
    replace (byte_z a * 65536 + byte_z b * 256)
      with (byte_z a * 65536 + byte_z b * 256 + 0) by lia.
    repeat constructor; by apply b64_char_byte.
  - destruct (sextet_ranges (byte_z a) (byte_z b) (byte_z c)) as (? & ? & ? & ?);
      auto using byte_z_range.
    repeat (constructor; [by apply b64_char_byte|]). done.
Qed.

Lemma b64_quanta_encode s : b64_quanta (b64_encode s) = Some s.
Proof.
  induction s as [|a|a b|a b c s IH] using triple_ind;
    cbn -[Z.mul Z.div Z.modulo b64_char b64_val z_byte].
  - done.
  - pose proof (byte_z_range a).
    replace (byte_z a * 65536) with (byte_z a * 65536 + 0 * 256 + 0) by lia.
    destruct (sextet_ranges (byte_z a) 0 0) as (? & ? & ? & ?); try lia.
    rewrite !b64_val_char by done. simpl. do 2 f_equal.
    apply z_byte_eq, sextet_byte0; lia.
  - pose proof (byte_z_range a). pose proof (byte_z_range b).
    replace (byte_z a * 65536 + byte_z b * 256)
      with (byte_z a * 65536 + byte_z b * 256 + 0) by lia.
    destruct (sextet_ranges (byte_z a) (byte_z b) 0) as (? & ? & ? & ?); try lia.
    rewrite !b64_val_char by done. destruct (b64_char_not_pad
      ((byte_z a * 65536 + byte_z b * 256 + 0) / 64 mod 64)) as (-> & _ & _); [done|].
    simpl. do 2 f_equal; [|f_equal]; apply z_byte_eq.
    + apply sextet_byte0; lia.
    + apply sextet_byte1; lia.
  - pose proof (byte_z_range a). pose proof (byte_z_range b). pose proof (byte_z_range c).
    destruct (sextet_ranges (byte_z a) (byte_z b) (byte_z c)) as (? & ? & ? & ?); try done.
    set (v := byte_z a * 65536 + byte_z b * 256 + byte_z c) in *.
    rewrite !b64_val_char by done.
    destruct (b64_char_not_pad (v / 64 mod 64)) as (-> & _ & _); [done|].
    destruct (b64_char_not_pad (v mod 64)) as (-> & _ & _); [done|].
    cbn -[z_byte Z.mul Z.div Z.modulo]. rewrite IH. simpl. f_equal.
    f_equal; [|f_equal; [|f_equal]]; apply z_byte_eq; subst v.
    + by apply sextet_byte0.
    + by apply sextet_byte1.
    + by apply sextet_byte2.
Qed.

(** Decoding an encoding gives the bytes back. *)
Lemma b64_decode_encode s : b64_decode (b64_encode s) = Some s.
Proof.
  unfold b64_decode. rewrite filter_Forall_id; [apply b64_quanta_encode|].
  eapply Forall_impl; [apply b64_encode_bytes|]. intros b Hb.
  apply negb_true_iff, orb_false_iff.
  split; apply byte_eqb_neq; intros ->; by vm_compute in Hb.
Qed.
