(* ===== verification/Errors.v ===== *)
(** * pop3server/errors.go and pop3/pop3.go

    Go error values, the chain walks [errors.As] and [errors.Is] the library
    performs on them, and the wire rendering of [*Error].  The shared wire types
    of package [pop3] are here too. *)
From S2P Require Import Prelude GoStrings.

(** ** pop3/pop3.go *)

Record MessageInfo := mkMessageInfo { mi_Num : Z; mi_Size : Z }.

Record MessageUidl := mkMessageUidl { mu_Num : Z; mu_UniqueID : bytes }.

Record Capability := mkCapability { cap_Name : bytes; cap_Params : list bytes }.

(** ** Error values *)

(** [pop3server.Error]. *)
Record Error := mkError { Code : bytes; Message : bytes; Close : bool }.

(** Sentinel values, compared by identity. *)
Inductive sentinel :=
| ErrCloseConnection
| ErrSilentReject
| errLineTooLong
| EOF
| ErrShortWrite.

(** An [error]: a [*Error], a sentinel, a [net.Error] with its [Timeout], an
    error wrapping others ([Unwrap] to one or to several), or any other error,
    which is its text. *)
#[warnings="-register-all"]
Inductive goerr :=
| EPop3 (e : Error)
| ESentinel (s : sentinel)
| ENet (text : bytes) (timeout : bool)
| EWrap (text : bytes) (inner : list goerr)
| EPlain (text : bytes).

(** A Go pair [(value, error)] of which one half is meaningful. *)
Abbreviation result A := (A + goerr)%type.

#[export] Instance sentinel_eq_dec : EqDecision sentinel.
Proof. solve_decision. Defined.

Definition sentinel_text (s : sentinel) : bytes :=
  match s with
  | ErrCloseConnection => str "pop3server: close connection"
  | ErrSilentReject => str "pop3server: silently reject connection"
  | errLineTooLong => str "line too long"
  | EOF => str "EOF"
  | ErrShortWrite => str "short write"
  end.

Definition is_nil (s : bytes) : bool := match s with [] => true | _ => false end.

(** The first element [f] answers for. *)
Definition first_some {A B} (f : A -> option B) : list A -> option B :=
  fix go l :=
    match l with
    | [] => None
    | a :: l' => match f a with Some b => Some b | None => go l' end
    end.

(** [errors.As] on a [net.Error] target followed by [Timeout()]: the first
    error of the chain that is a [net.Error] answers. *)
Fixpoint as_net (e : goerr) : option bool :=
  match e with
  | ENet _ t => Some t
  | EWrap _ es => first_some as_net es
  | _ => None
  end.

(** [errors.As(err, &perr)] with [perr *Error]: the first [*Error] in pre-order. *)
Fixpoint as_error (e : goerr) : option Error :=
  match e with
  | EPop3 x => Some x
  | EWrap _ es => first_some as_error es
  | _ => None
  end.

(** [errors.Is(err, s)] for a sentinel. *)
Fixpoint is_sentinel (s : sentinel) (e : goerr) : bool :=
  match e with
  | ESentinel s' => bool_decide (s = s')
  | EWrap _ es => existsb (is_sentinel s) es
  | _ => false
  end.

Section Render.
Context `{Unicode}.

(** [Error.wireMessage]. *)
Definition wireMessage (e : Error) : bytes :=
  let msg := if is_nil (Message e) then str "internal error" else Message e in
  if is_nil (Code e) then msg
  else str "[" ++ to_upper (Code e) ++ str "] " ++ msg.

(** [err.Error()]; [Error.Error] is [wireMessage]. *)
Definition err_text (e : goerr) : bytes :=
  match e with
  | EPop3 x => wireMessage x
  | ESentinel s => sentinel_text s
  | ENet t _ => t
  | EWrap t _ => t
  | EPlain t => t
  end.
End Render.

(** [isTimeout] of conn.go. *)
Definition isTimeout (e : goerr) : bool := default false (as_net e).

(** ** Facts *)

Lemma first_some_Some {A B} (f : A -> option B) l b :
  first_some f l = Some b -> exists a, a ∈ l /\ f a = Some b.
Proof.
  induction l as [|a l IH]; simpl; [done|]. destruct (f a) as [b'|] eqn:E.
  - intros [= <-]. exists a. split; [by left | done].
  - intros (a' & Hin & Ha)%IH. exists a'. split; [by right | done].
Qed.

Lemma first_some_None {A B} (f : A -> option B) l :
  first_some f l = None -> forall a, a ∈ l -> f a = None.
Proof.
  induction l as [|x l IH]; simpl; [intros _ a Ha; by apply not_elem_of_nil in Ha|].
  destruct (f x) eqn:E; [done|]. intros Hl a [-> | Ha]%elem_of_cons; auto.
Qed.

Lemma wireMessage_nonempty `{Unicode} e : wireMessage e <> [].
Proof.
  unfold wireMessage. destruct (Message e); destruct (Code e); done.
Qed.
