(* ===== verification/DotStuff.v ===== *)
(** * pop3server/dotstuff.go: the dot-stuffing writer

    [dotStuffWriter] over an abstract [io.Writer], the reference encoding it
    implements, and the decoding a client performs. *)
From S2P Require Import Prelude GoStrings Errors.

(** ** The writer interface

    [wwrite w p] writes [p] and returns the writer's next state and, when not
    all went well, what happened: the call returned an error, or it never
    returned.  A writer that works ([good]) accepts every byte, in order. *)
Inductive wfail :=
| WFail (e : goerr)
| WBlock.

Class Writer (W : Type) := wwrite : W -> bytes -> W * option wfail.

Class GoodWriter (W : Type) `{Writer W} := {
  good : W -> Prop;
  seen : W -> bytes;
  wwrite_good : forall w p, good w ->
    exists w', wwrite w p = (w', None) /\ good w' /\ seen w' = seen w ++ p
}.

(** ** dotStuffWriter *)

Record dotStuffWriter (W : Type) := mkDSW {
  ds_w : W;
  atLineStart : bool;
  lastByte : byte
}.
Arguments mkDSW {W}.
Arguments ds_w {W}.
Arguments atLineStart {W}.
Arguments lastByte {W}.

Section Code.
Context {W : Type} `{Writer W}.
Implicit Types d : dotStuffWriter W.

Definition newDotStuffWriter (w : W) : dotStuffWriter W := mkDSW w true NUL.

(** [d.w.Write(p)]. *)
Definition ds_put d (p : bytes) : dotStuffWriter W * option wfail :=
  let '(w', e) := wwrite (ds_w d) p in (mkDSW w' (atLineStart d) (lastByte d), e).

Definition ds_line_start (v : bool) d : dotStuffWriter W := mkDSW (ds_w d) v (lastByte d).

Definition ds_last (b : byte) d : dotStuffWriter W := mkDSW (ds_w d) (atLineStart d) b.

(** Two writes in sequence, stopping at the first error. *)
Definition ds_seq (r : dotStuffWriter W * option wfail)
    (k : dotStuffWriter W -> dotStuffWriter W * option wfail) :=
  match r with (d, None) => k d | (d, Some e) => (d, Some e) end.

(** The body of the loop of [Write] for one input byte. *)
Definition ds_byte d (b : byte) : dotStuffWriter W * option wfail :=
  ds_seq
    (if b =b? LF then
       ds_seq (if lastByte d =b? CR then (d, None) else ds_put d [CR]) (fun d =>
       ds_seq (ds_put d [LF]) (fun d =>
       (ds_line_start true d, None)))
     else if b =b? CR then
       ds_seq (ds_put d [CR]) (fun d => (ds_line_start false d, None))
     else
       ds_seq (if atLineStart d && (b =b? DOT) then ds_put d [DOT] else (d, None)) (fun d =>
       ds_seq (ds_put d [b]) (fun d =>
       (ds_line_start false d, None))))
    (fun d => (ds_last b d, None)).

(** [Write], from index [i] on: the bytes processed, and the error. *)
Fixpoint ds_loop (i : Z) d (p : bytes) : dotStuffWriter W * Z * option wfail :=
  match p with
  | [] => (d, i, None)
  | b :: p' =>
    match ds_byte d b with
    | (d', None) => ds_loop (i + 1) d' p'
    | (d', Some e) => (d', i, Some e)
    end
  end.

Definition ds_Write d (p : bytes) : dotStuffWriter W * Z * option wfail := ds_loop 0 d p.

Definition ds_Close d : dotStuffWriter W * option wfail :=
  ds_seq
    (if atLineStart d then (d, None)
     else ds_put d (if lastByte d =b? CR then [LF] else crlf))
    (fun d => ds_put d (str "." ++ crlf)).

(** [io.Copy(d, body)]: each chunk the body's [Read] yields is written in one
    [Write]; [rerr] is the error that ends the body, [None] for [io.EOF]. *)
Fixpoint ds_copy d (chunks : list bytes) (rerr : option goerr)
    : dotStuffWriter W * option wfail :=
  match chunks with
  | [] => (d, WFail <$> rerr)
  | c :: cs =>
    match ds_Write d c with
    | (d', _, Some e) => (d', Some e)
    | (d', n, None) =>
      if n =? blen c then ds_copy d' cs rerr else (d', Some (WFail (ESentinel ErrShortWrite)))
    end
  end.
End Code.

(** ** The encoding, as a function on the whole body *)

(** Splits at every LF: the complete lines (without their LF) and the rest. *)
Fixpoint split_lf (s : bytes) : list bytes * bytes :=
  match s with
  | [] => ([], [])
  | b :: s' =>
    let '(ls, r) := split_lf s' in
    if b =b? LF then ([] :: ls, r)
    else match ls with
         | [] => ([], b :: r)
         | l :: ls' => ((b :: l) :: ls', r)
         end
  end.

(** Drops the CR of a CRLF pair: one trailing CR of a line. *)
Fixpoint chomp (l : bytes) : bytes :=
  match l with
  | [] => []
  | [b] => if b =b? CR then [] else [b]
  | b :: l' => b :: chomp l'
  end.

(** The lines of a body, an unterminated last line included. *)
Definition body_lines (s : bytes) : list bytes :=
  let '(ls, r) := split_lf s in
  map chomp ls ++ (if is_nil r then [] else [chomp r]).

(** RFC 1939 byte-stuffing of one line. *)
Definition stuff_line (l : bytes) : bytes := if has_prefix l [DOT] then DOT :: l else l.

Definition crlf_lines (ls : list bytes) : bytes := concat (map (fun l => l ++ crlf) ls).

(** The multi-line response that carries a body. *)
Definition dot_encode (s : bytes) : bytes :=
  crlf_lines (map stuff_line (body_lines s)) ++ str "." ++ crlf.

(** The body with every line ending normalised to CRLF. *)
Definition normalize (s : bytes) : bytes := crlf_lines (body_lines s).

(** Number of LF bytes not preceded by CR; [prev] is the byte before [s]. *)
Fixpoint bare_lfs (prev : byte) (s : bytes) : Z :=
  match s with
  | [] => 0
  | b :: s' => (if (b =b? LF) && negb (prev =b? CR) then 1 else 0) + bare_lfs b s'
  end.

(** [unstuffLine] of pop3client/commands.go. *)
Definition unstuffLine (line : bytes) : bytes :=
  if has_prefix line [DOT] then drop 1 line else line.

(** What a client makes of the lines of a multi-line response: the lines up to
    the one that is a single dot, un-stuffed, and the lines after it. *)
Fixpoint until_dot (ls : list bytes) : option (list bytes * list bytes) :=
  match ls with
  | [] => None
  | l :: ls' =>
    if l =s? str "." then Some ([], ls')
    else '(body, rest) ← until_dot ls'; Some (unstuffLine l :: body, rest)
  end.

(** The output of [Write] on a writer that works, from a given state; [dots]
    says whether stuffing is on (it always is in the code; off, this is the
    normalisation alone). *)
Fixpoint emit (dots als : bool) (prev : byte) (p : bytes) : bytes :=
  match p with
  | [] => []
  | b :: p' =>
    if b =b? LF then
      (if prev =b? CR then [] else [CR]) ++ LF :: emit dots true b p'
    else
      (if dots && als && (b =b? DOT) then [DOT] else []) ++ b :: emit dots false b p'
  end.

(** The line terminator [Close] adds after [p]. *)
Fixpoint closing (als : bool) (prev : byte) (p : bytes) : bytes :=
  match p with
  | [] => if als then [] else if prev =b? CR then [LF] else crlf
  | b :: p' => closing (b =b? LF) b p'
  end.

(** The state [Write] leaves. *)
Definition end_als (als : bool) (p : bytes) : bool :=
  match last p with Some b => b =b? LF | None => als end.
Definition end_last (prev : byte) (p : bytes) : byte := default prev (last p).

(** The rest of a line whose last byte so far is [prev], with its terminator. *)
Definition line_tail (prev : byte) (l : bytes) : bytes :=
  match l with [] => if prev =b? CR then [LF] else crlf | _ => chomp l ++ crlf end.

(** The line function of [emit]: stuffed, or not. *)
Definition dot_line (dots : bool) (l : bytes) : bytes := if dots then stuff_line l else l.

(** A writer with room for [k] more bytes. *)
Definition small_writer : Writer nat :=
  fun k p => if (length p <=? k)%nat then ((k - length p)%nat, None) else (0%nat, Some (WFail (EPlain (str "full")))).

(** An accumulating writer. *)
#[export] Instance sink : Writer bytes := fun w p => (w ++ p, None).

#[export] Instance sink_good : GoodWriter bytes.
Proof.
  refine {| good _ := True; seen w := w |}. intros w p _. by eexists.
Defined.

(** ** Write on a writer that works *)

Section Good.
Context {W : Type} `{GoodWriter W}.
Implicit Types d : dotStuffWriter W.

Lemma ds_put_good d p :
  good (ds_w d) ->
  exists w', ds_put d p = (mkDSW w' (atLineStart d) (lastByte d), None)
             /\ good w' /\ seen w' = seen (ds_w d) ++ p.
Proof.
  intros Hg. destruct (wwrite_good (ds_w d) p Hg) as (w' & Hw & Hg' & Hs).
  exists w'. unfold ds_put. by rewrite Hw.
Qed.

(** One step of [ds_put] in a goal about a working writer. *)
Ltac put_step :=
  match goal with
  | Hg : good (ds_w ?d) |- context [ds_put ?d ?p] =>
    let w := fresh "w" in let E := fresh "E" in let G := fresh "G" in let S := fresh "S" in
    destruct (ds_put_good d p Hg) as (w & E & G & S); rewrite E; cbn [ds_seq]
  | Hg : good ?w |- context [ds_put (mkDSW ?w ?a ?l) ?p] =>
    let w' := fresh "w" in let E := fresh "E" in let G := fresh "G" in let S := fresh "S" in
    destruct (ds_put_good (mkDSW w a l) p Hg) as (w' & E & G & S);
    rewrite E; cbn [ds_seq ds_w atLineStart lastByte] in *
  end.

(** Rewrites with what the writers have seen. *)
Ltac seen_step :=
  cbn [ds_w ds_line_start ds_last]; repeat match goal with S : seen ?w = _ |- context [seen ?w] => rewrite S end;
  rewrite <- ?app_assoc.

Lemma ds_byte_good d b :
  good (ds_w d) ->
  exists w', ds_byte d b = (mkDSW w' (b =b? LF) b, None)
             /\ good w' /\ seen w' = seen (ds_w d) ++ emit true (atLineStart d) (lastByte d) [b].
Proof.
  intros Hg. unfold ds_byte. cbn [emit andb].
  destruct (byte_eqb_spec b LF) as [->|Hn].
  - destruct (lastByte d =b? CR); cbn [ds_seq]; repeat put_step;
      eexists; (split; [reflexivity|]); (split; [done|]); by seen_step.
  - destruct (byte_eqb_spec b CR) as [->|Hc].
    + put_step. eexists. split; [reflexivity|]. split; [done|].
      rewrite andb_false_r. by seen_step.
    + destruct (atLineStart d && (b =b? DOT)); cbn [ds_seq]; repeat put_step;
        eexists; (split; [reflexivity|]); (split; [done|]); by seen_step.
Qed.

Lemma emit_cons dots als prev b p :
  emit dots als prev (b :: p) = emit dots als prev [b] ++ emit dots (b =b? LF) b p.
Proof.
  simpl. destruct (b =b? LF); by rewrite <- app_assoc.
Qed.

Lemma ds_loop_good p d i :
  good (ds_w d) ->
  exists w', ds_loop i d p
             = (mkDSW w' (end_als (atLineStart d) p) (end_last (lastByte d) p), i + blen p, None)
    /\ good w' /\ seen w' = seen (ds_w d) ++ emit true (atLineStart d) (lastByte d) p.
Proof.
  revert d i. induction p as [|b p IH]; intros d i Hg.
  - exists (ds_w d). destruct d; simpl. rewrite app_nil_r. repeat split; auto.
    f_equal. unfold blen; simpl. f_equal. lia.
  - cbn [ds_loop]. destruct (ds_byte_good d b Hg) as (w1 & -> & Hg1 & Hs1).
    destruct (IH (mkDSW w1 (b =b? LF) b) (i + 1) Hg1) as (w2 & E2 & Hg2 & Hs2).
    exists w2. rewrite E2. repeat split; auto.
    + unfold end_als, end_last. rewrite blen_cons. cbn [atLineStart lastByte].
      rewrite last_cons. destruct (last p); simpl; do 2 f_equal; lia.
    + cbn [ds_w atLineStart lastByte] in Hs2.
      by rewrite Hs2, Hs1, <- app_assoc, (emit_cons _ _ _ b p).
Qed.

Lemma ds_Close_good d :
  good (ds_w d) ->
  exists d', ds_Close d = (d', None) /\ good (ds_w d')
    /\ seen (ds_w d') = seen (ds_w d) ++ closing (atLineStart d) (lastByte d) []
                        ++ str "." ++ crlf.
Proof.
  intros Hg. unfold ds_Close. cbn [closing]. destruct (atLineStart d); cbn [ds_seq].
  - put_step. by eexists.
  - put_step. put_step. eexists. split; [reflexivity|]. split; [done|].
    seen_step. by destruct (lastByte d =b? CR).
Qed.
End Good.

(** ** The emitted bytes are the reference encoding *)

Lemma closing_end als prev p :
  closing als prev p = closing (end_als als p) (end_last prev p) [].
Proof.
  revert als prev. induction p as [|b p IH]; intros als prev; [done|].
  cbn [closing]. rewrite IH. unfold end_als, end_last. rewrite last_cons.
  by destruct (last p).
Qed.

Lemma chomp_line_tail b l : chomp (b :: l) ++ crlf = b :: line_tail b l.
Proof.
  destruct l as [|c l]; [|done]. simpl.
  destruct (byte_eqb_spec b CR) as [->|]; done.
Qed.

Lemma dot_line_first dots b l :
  b <> LF ->
  dot_line dots (chomp (b :: l)) ++ crlf
  = (if dots && (b =b? DOT) then [DOT] else []) ++ chomp (b :: l) ++ crlf.
Proof.
  intros Hb. destruct dots; [|done]. cbn [andb dot_line]. unfold stuff_line.
  assert (has_prefix (chomp (b :: l)) [DOT] = (b =b? DOT)) as ->; [|by destruct (b =b? DOT)].
  destruct l as [|c l]; [|simpl; by rewrite andb_true_r].
  simpl. destruct (byte_eqb_spec b CR) as [->|]; [done|]. simpl. by rewrite andb_true_r.
Qed.

Lemma emit_closing dots s :
  (forall prev, emit dots false prev s ++ closing false prev s
     = match split_lf s with
       | (l :: ls, r) => line_tail prev l ++ crlf_lines (map (dot_line dots)
                           (map chomp ls ++ (if is_nil r then [] else [chomp r])))
       | ([], r) => line_tail prev r
       end)
  /\ (forall prev, prev <> CR ->
      emit dots true prev s ++ closing true prev s
      = crlf_lines (map (dot_line dots) (body_lines s))).
Proof.
  unfold body_lines.
  induction s as [|b s [IHm IHs]]; [split; intros; by simpl|].
  cbn [emit closing split_lf]. destruct (split_lf s) as [ls r] eqn:E.
  destruct (byte_eqb_spec b LF) as [->|Hb].
  - specialize (IHs LF ltac:(done)). split; intros prev.
    + cbn [line_tail]. rewrite <- IHs. by destruct (prev =b? CR).
    + intros Hp. apply byte_eqb_neq in Hp. rewrite Hp.
      cbn [map app]. rewrite IHs.
      unfold crlf_lines. cbn [map concat]. by destruct dots.
  - specialize (IHm b). cbn [andb]. split; intros prev.
    + rewrite andb_false_r. cbn [andb app]. rewrite IHm. destruct ls as [|l ls].
      * symmetry. apply (chomp_line_tail b r).
      * unfold line_tail at 2.
        change (b :: line_tail b l ++ ?x) with ((b :: line_tail b l) ++ x).
        by rewrite <- chomp_line_tail.
    + intros _. rewrite andb_true_r, <- app_assoc, <- app_comm_cons, IHm.
      destruct ls as [|l ls]; cbn [map app is_nil]; unfold crlf_lines; cbn [map concat].
      * rewrite app_nil_r, dot_line_first, chomp_line_tail by done. done.
      * rewrite dot_line_first, chomp_line_tail by done. by rewrite <- app_assoc.
Qed.

Lemma emit_encode s prev :
  prev <> CR -> emit true true prev s ++ closing true prev s ++ str "." ++ crlf = dot_encode s.
Proof.
  intros Hp. rewrite app_assoc, (proj2 (emit_closing true s) prev Hp). done.
Qed.

Lemma emit_normalize s prev :
  prev <> CR -> emit false true prev s ++ closing true prev s = normalize s.
Proof.
  intros Hp. rewrite (proj2 (emit_closing false s) prev Hp). unfold normalize.
  f_equal. etrans; [|apply map_id]. by apply map_ext.
Qed.

(** Normalisation adds one CR per bare LF. *)
Lemma emit_false_length als prev s :
  blen (emit false als prev s) = blen s + bare_lfs prev s.
Proof.
  revert als prev. induction s as [|b s IH]; intros als prev; [done|].
  cbn [emit bare_lfs]. destruct (b =b? LF); autorewrite with bytes; rewrite IH;
    destruct (prev =b? CR); simpl; unfold blen; simpl; lia.
Qed.

(** ** Decoding *)

Lemma split_lf_line l s :
  Forall (fun b => b <> LF) l -> split_lf (l ++ LF :: s) = (l :: (split_lf s).1, (split_lf s).2).
Proof.
  induction 1 as [|b l Hb Hl IH]; cbn [app split_lf].
  - by destruct (split_lf s).
  - rewrite IH. apply byte_eqb_neq in Hb. by rewrite Hb.
Qed.

Lemma chomp_snoc_cr l : chomp (l ++ [CR]) = l.
Proof. induction l as [|b l IH]; [done|]. cbn. rewrite IH. by destruct l. Qed.

Lemma split_crlf_lines ls s :
  Forall (Forall (fun b => b <> LF)) ls ->
  let '(ls', r) := split_lf s in
  split_lf (crlf_lines ls ++ s) = (map (fun l => l ++ [CR]) ls ++ ls', r).
Proof.
  induction 1 as [|l ls Hl Hls IH]; [cbn; by destruct (split_lf s)|].
  destruct (split_lf s) as [ls' r].
  unfold crlf_lines. cbn [map concat]. fold (crlf_lines ls).
  replace (((l ++ crlf) ++ crlf_lines ls) ++ s) with ((l ++ [CR]) ++ LF :: (crlf_lines ls ++ s)).
  - rewrite split_lf_line, IH; [done|]. apply Forall_app. split; [done|]. repeat constructor. discriminate.
  - rewrite <- !app_assoc. done.
Qed.

Lemma split_lf_no_lf s :
  Forall (Forall (fun b => b <> LF)) (split_lf s).1 /\ Forall (fun b => b <> LF) (split_lf s).2.
Proof.
  induction s as [|b s IH]; [by split; constructor|].
  cbn [split_lf]. destruct (split_lf s) as [ls r]. destruct IH as [IH1 IH2].
  destruct (byte_eqb_spec b LF) as [->|Hb]; [by split; [constructor|]|].
  destruct ls as [|l ls]; cbn in *; [by split; constructor|].
  inv IH1. split; [by repeat constructor | done].
Qed.

Lemma chomp_Forall (P : byte -> Prop) l : Forall P l -> Forall P (chomp l).
Proof.
  induction 1 as [|b l Hb Hl IH]; [constructor|]. destruct l as [|c l].
  - cbn. destruct (b =b? CR); auto.
  - change (chomp (b :: c :: l)) with (b :: chomp (c :: l)). by constructor.
Qed.

Lemma body_lines_no_lf s : Forall (Forall (fun b => b <> LF)) (body_lines s).
Proof.
  unfold body_lines. pose proof (split_lf_no_lf s) as Hs. destruct (split_lf s) as [ls r].
  destruct Hs as [H1 H2]. apply Forall_app. split.
  - apply List.Forall_map. eapply Forall_impl; [exact H1|]. intros l. apply chomp_Forall.
  - destruct (is_nil r); repeat constructor. by apply chomp_Forall.
Qed.

Lemma stuff_line_no_lf l :
  Forall (fun b => b <> LF) l -> Forall (fun b => b <> LF) (stuff_line l).
Proof. intros Hl. unfold stuff_line. case_match; [by constructor | done]. Qed.

(** Un-stuffing undoes stuffing, and a stuffed line is never the terminator. *)
Lemma unstuff_stuff l : unstuffLine (stuff_line l) = l /\ stuff_line l <> str ".".
Proof.
  unfold unstuffLine, stuff_line. destruct (has_prefix l [DOT]) eqn:E.
  - cbn. split; [done|]. intros [= ->]. done.
  - rewrite E. split; [done|]. intros ->. done.
Qed.

Lemma until_dot_stuffed ls rest :
  until_dot (map stuff_line ls ++ str "." :: rest) = Some (ls, rest).
Proof.
  induction ls as [|l ls IH]; cbn [map app until_dot]; [done|].
  destruct (unstuff_stuff l) as [Hu Hd]. apply bytes_eqb_neq in Hd.
  by rewrite Hd, IH; simpl; rewrite Hu.
Qed.

(** The lines of an encoded body followed by anything. *)
Lemma split_dot_encode s t :
  split_lf (dot_encode s ++ t)
  = (map (fun l => l ++ [CR]) (map stuff_line (body_lines s) ++ [str "."]) ++ (split_lf t).1,
     (split_lf t).2).
Proof.
  pose proof (split_crlf_lines (map stuff_line (body_lines s) ++ [str "."]) t) as H.
  assert (dot_encode s = crlf_lines (map stuff_line (body_lines s) ++ [str "."])) as ->.
  { unfold dot_encode, crlf_lines. rewrite map_app, concat_app. done. }
  destruct (split_lf t) as [ls r]. apply H.
  apply Forall_app. split; [|repeat constructor; discriminate].
  apply List.Forall_map. eapply Forall_impl; [apply body_lines_no_lf|].
  intros l. apply stuff_line_no_lf.
Qed.

(** ** Copying a whole body *)

Section Copy.
Context {W : Type} `{GoodWriter W}.
Implicit Types d : dotStuffWriter W.

Lemma emit_app dots als prev p q :
  emit dots als prev (p ++ q)
  = emit dots als prev p ++ emit dots (end_als als p) (end_last prev p) q.
Proof.
  revert als prev. induction p as [|b p IH]; intros als prev; [done|].
  change ((b :: p) ++ q) with (b :: (p ++ q)).
  rewrite (emit_cons _ _ _ b (p ++ q)), (emit_cons _ _ _ b p), <- app_assoc, IH.
  unfold end_als, end_last. rewrite last_cons. by destruct (last p).
Qed.

Lemma end_als_app als p q : end_als als (p ++ q) = end_als (end_als als p) q.
Proof. unfold end_als. rewrite last_app. by destruct (last q). Qed.

Lemma end_last_app prev p q : end_last prev (p ++ q) = end_last (end_last prev p) q.
Proof. unfold end_last. rewrite last_app. by destruct (last q). Qed.

(** The chunks in which a body arrives do not matter. *)
Lemma ds_copy_good chunks d rerr :
  good (ds_w d) ->
  exists w', ds_copy d chunks rerr
             = (mkDSW w' (end_als (atLineStart d) (concat chunks))
                  (end_last (lastByte d) (concat chunks)), WFail <$> rerr)
    /\ good w'
    /\ seen w' = seen (ds_w d) ++ emit true (atLineStart d) (lastByte d) (concat chunks).
Proof.
  revert d. induction chunks as [|c cs IH]; intros d Hg.
  - exists (ds_w d). destruct d; simpl. by rewrite app_nil_r.
  - cbn [ds_copy concat]. unfold ds_Write.
    destruct (ds_loop_good c d 0 Hg) as (w1 & -> & Hg1 & Hs1).
    rewrite Z.add_0_l, Z.eqb_refl.
    destruct (IH (mkDSW w1 (end_als (atLineStart d) c) (end_last (lastByte d) c)) Hg1)
      as (w2 & E2 & Hg2 & Hs2).
    exists w2. rewrite E2. cbn [ds_w atLineStart lastByte] in *.
    rewrite end_als_app, end_last_app, emit_app, Hs2, Hs1, <- app_assoc. done.
Qed.

Lemma ds_copy_close chunks w :
  good w ->
  exists d1 d2, ds_copy (newDotStuffWriter w) chunks None = (d1, None)
    /\ ds_Close d1 = (d2, None) /\ good (ds_w d2)
    /\ seen (ds_w d2) = seen w ++ dot_encode (concat chunks).
Proof.
  intros Hg. destruct (ds_copy_good chunks (newDotStuffWriter w) None Hg) as (w1 & E1 & Hg1 & Hs1).
  eexists. destruct (ds_Close_good (mkDSW w1 (end_als true (concat chunks))
    (end_last NUL (concat chunks))) Hg1) as (d2 & E2 & Hg2 & Hs2).
  exists d2. split; [exact E1|]. split; [exact E2|]. split; [exact Hg2|].
  cbn [ds_w atLineStart lastByte newDotStuffWriter] in *.
  rewrite Hs2, Hs1, <- closing_end, <- (emit_encode _ NUL) by discriminate.
  by rewrite <- !app_assoc.
Qed.
End Copy.

Section Contract.
Context {W : Type} `{Writer W}.

Lemma ds_loop_contract p (d : dotStuffWriter W) i d' n e :
  ds_loop i d p = (d', n, e) ->
  i <= n <= i + blen p /\ (e = None <-> n = i + blen p)
  /\ exists d1, ds_loop i d (take (Z.to_nat (n - i)) p) = (d1, n, None)
     /\ match e with
        | None => d1 = d'
        | Some _ => exists b, p !! Z.to_nat (n - i) = Some b /\ ds_byte d1 b = (d', e)
        end.
Proof.
  revert d i. induction p as [|b p IH]; intros d i; cbn [ds_loop].
  - intros [= <- <- <-]. rewrite Z.sub_diag. unfold blen; simpl.
    split; [lia|]. split; [split; [lia | done]|]. by exists d.
  - destruct (ds_byte d b) as [d0 [e0|]] eqn:E.
    + intros [= <- <- <-]. rewrite Z.sub_diag. rewrite blen_cons.
      pose proof (blen_nonneg p). split; [lia|]. split; [split; [done | lia]|].
      exists d. split; [done|]. by exists b.
    + intros Hl%IH. rewrite blen_cons. destruct Hl as (H1 & H2 & d1 & H3 & H4).
      split; [lia|]. split; [rewrite H2; lia|]. exists d1.
      replace (Z.to_nat (n - i)) with (S (Z.to_nat (n - (i + 1)))) by lia.
      cbn [take ds_loop]. rewrite E. done.
Qed.
End Contract.

(** ** Properties *)

(** Whatever every write respects, streaming a body respects. *)
Section Rel.
Context {W : Type} `{Writer W}.
Variable R : W -> W -> Prop.
Context `{!PreOrder R}.
Hypothesis Hw : forall w p, R w (wwrite w p).1.

Lemma ds_put_rel d p : R (ds_w d) (ds_w (ds_put d p).1).
Proof using Hw. unfold ds_put. specialize (Hw (ds_w d) p). by destruct (wwrite (ds_w d) p). Qed.

Lemma ds_seq_rel w r k :
  R w (ds_w r.1) -> (forall d, R (ds_w d) (ds_w (k d).1)) -> R w (ds_w (ds_seq r k).1).
Proof. destruct r as [d [e|]]; simpl; intros H1 H2; [done|]. etrans; [exact H1|apply H2]. Qed.

Lemma ds_byte_rel d b : R (ds_w d) (ds_w (ds_byte d b).1).
Proof using Hw PreOrder0.
  unfold ds_byte. repeat first [apply ds_seq_rel; [|intros ?] | case_goal];
    try apply ds_put_rel; reflexivity.
Qed.

Lemma ds_loop_rel p i d : R (ds_w d) (ds_w (ds_loop i d p).1.1).
Proof using Hw PreOrder0.
  revert i d. induction p as [|b p IH]; intros i d; simpl; [reflexivity|].
  pose proof (ds_byte_rel d b). destruct (ds_byte d b) as [d1 [e|]]; simpl in *; [done|]. by etrans.
Qed.

Lemma ds_copy_rel cs d e : R (ds_w d) (ds_w (ds_copy d cs e).1).
Proof using Hw PreOrder0.
  revert d. induction cs as [|c cs IH]; intros d; simpl; [reflexivity|].
  pose proof (ds_loop_rel c 0 d). unfold ds_Write. destruct (ds_loop 0 d c) as [[d1 n] [x|]]; simpl in *; [done|].
  destruct (n =? blen c); [by etrans | done].
Qed.

(** A target that always returns makes streaming return. *)
Hypothesis Hlive : forall w p, (wwrite w p).2 <> Some WBlock.

Lemma ds_put_live d p : (ds_put d p).2 <> Some WBlock.
Proof using Hlive. unfold ds_put. specialize (Hlive (ds_w d) p). by destruct (wwrite (ds_w d) p). Qed.

Lemma ds_seq_live r k :
  r.2 <> Some WBlock -> (forall d, (k d).2 <> Some WBlock) -> (ds_seq (W := W) r k).2 <> Some WBlock.
Proof. destruct r as [d [e|]]; simpl; auto. Qed.

Lemma ds_byte_live d b : (ds_byte d b).2 <> Some WBlock.
Proof using Hlive.
  unfold ds_byte. repeat first [apply ds_seq_live; [|intros ?] | case_goal];
    try apply ds_put_live; done.
Qed.

Lemma ds_loop_live p i d : (ds_loop i d p).2 <> Some WBlock.
Proof using Hlive.
  revert i d. induction p as [|b p IH]; intros i d; simpl; [done|].
  pose proof (ds_byte_live d b). by destruct (ds_byte d b) as [d1 [e|]].
Qed.

Lemma ds_copy_live cs d e : (ds_copy d cs e).2 <> Some WBlock.
Proof using Hlive.
  revert d. induction cs as [|c cs IH]; intros d; simpl; [by destruct e|].
  pose proof (ds_loop_live c 0 d). unfold ds_Write. destruct (ds_loop 0 d c) as [[d1 n] [x|]]; simpl in *; [done|].
  by destruct (n =? blen c).
Qed.

Lemma ds_Close_live d : (ds_Close d).2 <> Some WBlock.
Proof using Hlive.
  unfold ds_Close. apply ds_seq_live; [|intros; apply ds_put_live].
  destruct (atLineStart d); [done | apply ds_put_live].
Qed.

Lemma ds_Close_rel d : R (ds_w d) (ds_w (ds_Close d).1).
Proof using Hw PreOrder0.
  unfold ds_Close. apply ds_seq_rel; [|intros; apply ds_put_rel].
  destruct (atLineStart d); [reflexivity | apply ds_put_rel].
Qed.
End Rel.

(** C20: streaming a body through the dot-stuffing writer and closing it puts the
    reference encoding of the body on the wire (each line stuffed and ended by
    CRLF, then the lone dot), however the body was split into [Read] chunks. *)
Theorem dotstuff_streams_reference (W : Type) `{GoodWriter W} (chunks : list bytes) (w : W) :
  good w ->
  exists d1 d2, ds_copy (newDotStuffWriter w) chunks None = (d1, None)
    /\ ds_Close d1 = (d2, None)
    /\ seen (ds_w d2) = seen w ++ dot_encode (concat chunks).
Proof.
  intros Hg. destruct (ds_copy_close chunks w Hg) as (d1 & d2 & H1 & H2 & _ & H3).
  by exists d1, d2.
Qed.

Lemma dotstuff_streams_reference_witness :
  exists d1 d2, ds_copy (newDotStuffWriter (W := bytes) []) [str "a." ++ [LF]; str ".b"] None
    = (d1, None) /\ ds_Close d1 = (d2, None)
    /\ ds_w d2 = str "a." ++ crlf ++ str "..b" ++ crlf ++ str "." ++ crlf.
Proof.
  destruct (@dotstuff_streams_reference bytes sink sink_good [str "a." ++ [LF]; str ".b"] [] I)
    as (d1 & d2 & H1 & H2 & H3).
  exists d1, d2. split; [exact H1|]. split; [exact H2|]. exact H3.
Defined.

(** C21: over any writer, failing ones included, [Write] keeps the io.Writer
    contract: it reports [n <= len(p)], with no error exactly when [n] is
    [len(p)]; the first [n] bytes were processed without error, and on an error
    it was byte [n] whose output failed. *)
Theorem dotstuff_write_contract (W : Type) `{Writer W} (d d' : dotStuffWriter W) p n e :
  ds_Write d p = (d', n, e) ->
  0 <= n <= blen p /\ (e = None <-> n = blen p)
  /\ exists d1, ds_Write d (take (Z.to_nat n) p) = (d1, n, None)
     /\ match e with
        | None => d1 = d'
        | Some _ => exists b, p !! Z.to_nat n = Some b /\ ds_byte d1 b = (d', e)
        end.
Proof.
  intros Hw. apply ds_loop_contract in Hw. rewrite Z.add_0_l, Z.sub_0_r in Hw. exact Hw.
Qed.

Lemma dotstuff_write_contract_witness :
  exists d', @ds_Write nat small_writer (newDotStuffWriter 3%nat) (str "..x") = (d', 2, Some (WFail (EPlain (str "full"))))
  /\ 0 <= 2 <= 3.
Proof.
  eexists. split; [reflexivity|].
  exact (proj1 (@dotstuff_write_contract nat small_writer (newDotStuffWriter 3%nat) _ (str "..x") 2 _ eq_refl)).
Defined.
