(* ===== verification/Parse.v ===== *)
(** * The utility functions of pop3server/conn.go

    Command splitting, response sanitising, number parsing and the SASL PLAIN
    decoder: the pure functions between the wire and the handlers. *)
From S2P Require Import Prelude GoStrings GoConv Errors.

(** ** splitCommand *)

Definition is_blank (b : byte) : bool := (b =b? SP) || (b =b? TAB).

Definition splitCommand (line : bytes) : bytes * bytes :=
  match index_func is_blank line with
  | None => (line, [])
  | Some i => (take i line, drop (i + 1) line)
  end.

(** ** sanitizeResponse *)

Definition is_crlf (b : byte) : bool := (b =b? CR) || (b =b? LF).

Definition sanitizeResponse (s : bytes) : bytes :=
  if negb (existsb is_crlf s) then s else List.filter (fun b => negb (is_crlf b)) s.

(** ** parseInt

    [w] is the width of Go's [int] on the target, so [n*10 + digit] wraps. *)
Definition maxVal : Z := 2 ^ 31 - 1.

Fixpoint parseInt_loop (w n : Z) (rs : list (Z * bytes)) : result Z :=
  match rs with
  | [] => inl n
  | (ch, _) :: rs' =>
    if (ch <? 48) || (57 <? ch) then inr (EPlain (str "not a number"))
    else
      let n' := wrap_s w (n * 10 + (ch - 48)) in
      if maxVal <? n' then inr (EPlain (str "number too large")) else parseInt_loop w n' rs'
  end.

Definition parseInt (w : Z) (s : bytes) : result Z :=
  if blen s =? 0 then inr (EPlain (str "not a number")) else parseInt_loop w 0 (runes s).

(** [parseMsgNum] and [parseOptionalMsgNum]. *)
Definition parseMsgNum (w : Z) (args : list bytes) : result Z :=
  match args with
  | [] => inr (EPlain (str "message number required"))
  | a :: _ =>
    match parseInt w a with
    | inl n => if n <? 1 then inr (EPlain (str "invalid message number")) else inl n
    | inr _ => inr (EPlain (str "invalid message number"))
    end
  end.

Definition parseOptionalMsgNum (w : Z) (args : list bytes) : result Z :=
  if blen args =? 0 then inl 0 else parseMsgNum w args.

(** ** SASL PLAIN *)

Definition containsCTL (s : bytes) : bool :=
  existsb (fun b => (byte_z b <? 32) || (byte_z b =? 127)) s.

Fixpoint splitNull_go (current : bytes) (data : bytes) : list bytes :=
  match data with
  | [] => [current]
  | b :: data' => if b =b? NUL then current :: splitNull_go [] data'
                  else splitNull_go (current ++ [b]) data'
  end.

Definition splitNull (data : bytes) : list bytes := splitNull_go [] data.

(** The base64 error carries an input offset in Go; it only reaches the
    [OnCommand] hook, and is a fixed text here. *)
Definition decodeSASLPlain (encoded : bytes) : result (bytes * bytes * bytes) :=
  match b64_decode encoded with
  | None => inr (EPlain (str "illegal base64 data"))
  | Some decoded =>
    match splitNull decoded with
    | [p0; p1; p2] =>
      if containsCTL p0 || containsCTL p1
      then inr (EPlain (str "control characters in SASL PLAIN identity"))
      else inl (p0, p1, p2)
    | _ => inr (EPlain (str "invalid SASL PLAIN format"))
    end
  end.

(** [mechanismAdvertised], over the session's list. *)
Definition mechanismAdvertised `{Unicode} (mechs : list bytes) (mech : bytes) : bool :=
  existsb (fun m => equal_fold m mech) mechs.

(** ** Facts: sanitising *)

Lemma sanitize_filter s : sanitizeResponse s = List.filter (fun b => negb (is_crlf b)) s.
Proof.
  unfold sanitizeResponse. destruct (existsb is_crlf s) eqn:E; simpl; [done|].
  symmetry. apply filter_Forall_id. apply Forall_forall. intros b Hb.
  apply negb_true_iff. destruct (is_crlf b) eqn:E'; [|done].
  apply not_true_iff_false in E. contradict E.
  apply existsb_exists. exists b. by rewrite <- list_elem_of_In.
Qed.

(** A text that cannot break a line. *)
Definition no_crlf (s : bytes) : Prop := Forall (fun b => is_crlf b = false) s.

Lemma sanitize_no_crlf s : no_crlf (sanitizeResponse s).
Proof.
  rewrite sanitize_filter. eapply Forall_impl; [apply filter_all|].
  intros b Hb. by apply negb_true_iff in Hb.
Qed.

Lemma sanitize_id s : no_crlf s -> sanitizeResponse s = s.
Proof.
  intros Hs. rewrite sanitize_filter. apply filter_Forall_id.
  eapply Forall_impl; [exact Hs|]. intros b Hb. simpl. by rewrite Hb.
Qed.

(** ** Facts: splitting *)

Lemma splitCommand_spec line :
  let '(verb, arg) := splitCommand line in
  Forall (fun b => is_blank b = false) verb
  /\ ((line = verb /\ arg = [])
      \/ exists d, is_blank d = true /\ line = verb ++ d :: arg).
Proof.
  unfold splitCommand. destruct (index_func is_blank line) as [i|] eqn:E.
  - apply index_func_spec in E as (d & Hd & Hb & Hall). split; [done|]. right.
    exists d. split; [done|]. rewrite Nat.add_1_r. symmetry. by apply take_drop_middle.
  - apply index_func_None in E. auto.
Qed.

(** White space of a line that [splitCommand] sees too. *)
Definition blank_only (s : bytes) : Prop :=
  ascii_only s = true /\ Forall (fun b => is_space (byte_z b) = is_blank b) s.

Lemma fields_go_word v cur rs :
  Forall (fun b => is_space (byte_z b) = false) v ->
  fields_go (Some cur) (map (fun b => (byte_z b, [b])) v ++ rs) = fields_go (Some (cur ++ v)) rs.
Proof.
  intros Hv. revert cur. induction Hv as [|b v Hb Hv IH]; intros cur; simpl.
  - by rewrite app_nil_r.
  - rewrite Hb. by rewrite IH, <- app_assoc.
Qed.

Lemma fields_word v rs :
  v <> [] -> Forall (fun b => is_space (byte_z b) = false) v ->
  fields_go None (map (fun b => (byte_z b, [b])) v ++ rs) = fields_go (Some v) rs.
Proof.
  intros Hne Hv. destruct Hv as [|b v Hb Hv]; [done|]. simpl. rewrite Hb.
  by rewrite fields_go_word.
Qed.

(** ** Facts: numbers *)

Lemma digits_val_le s n v : 0 <= n -> digits_val n s = Some v -> n <= v.
Proof.
  revert n. induction s as [|b s IH]; intros n Hn; simpl; [intros [= ->]; lia|].
  destruct (is_digit b) eqn:E; [|done]. unfold is_digit in E. bool_hyps.
  intros Hv. apply IH in Hv; lia.
Qed.

Lemma is_digit_ascii b : is_digit b = true -> (byte_z b <? 128) = true.
Proof. unfold is_digit. intros. bool_hyps. lia. Qed.

Lemma parseInt_loop_ascii w s n v :
  36 <= w -> ascii_only s = true -> 0 <= n <= maxVal ->
  parseInt_loop w n (map (fun b => (byte_z b, [b])) s) = inl v
  <-> digits_val n s = Some v /\ v <= maxVal.
Proof.
  intros Hw. revert n. induction s as [|b s IH]; intros n Ha Hn.
  - simpl. split; [intros [= ->]; split; [done | lia] | by intros [[= ->] _]].
  - change (ascii_only (b :: s)) with ((byte_z b <? 128) && ascii_only s) in Ha.
    apply andb_true_iff in Ha as [_ Ha]. cbn [map parseInt_loop digits_val].
    assert (((byte_z b <? 48) || (57 <? byte_z b)) = negb (is_digit b)) as ->.
    { unfold is_digit. rewrite negb_andb, <- !Z.ltb_antisym. done. }
    destruct (is_digit b) eqn:Ed; cbn [negb]; [|naive_solver].
    assert (48 <= byte_z b <= 57) as Hd by (unfold is_digit in Ed; bool_hyps; lia).
    assert (2 ^ 35 <= 2 ^ (w - 1)) as H35 by (apply Z.pow_le_mono_r; lia).
    unfold maxVal in *. rewrite wrap_s_small by lia.
    destruct (_ <? _) eqn:El; bool_hyps; [|apply IH; [done | lia]].
    split; [done|]. intros [Hv Hm]. apply digits_val_le in Hv; lia.
Qed.

Lemma digits_val_Some_digits n s v :
  digits_val n s = Some v -> Forall (fun b => is_digit b = true) s.
Proof.
  revert n. induction s as [|b s IH]; intros n; simpl; [constructor|].
  destruct (is_digit b) eqn:E; [|done]. intros. constructor; eauto.
Qed.

(** A number the loop accepts is made of ASCII digits. *)
Lemma parseInt_loop_inl_ascii w k s n v :
  (length s <= k)%nat -> parseInt_loop w n (runes_fuel k s) = inl v -> ascii_only s = true.
Proof.
  revert s n. induction k as [|k IH]; intros [|b s] n Hk; try done; [simpl in Hk; lia|].
  cbn [runes_fuel]. intros Hv.
  change (ascii_only (b :: s)) with ((byte_z b <? 128) && ascii_only s).
  destruct (byte_z b <? 128) eqn:Eb.
  - unfold decode_rune in Hv. rewrite Eb in Hv. cbn [parseInt_loop take drop] in Hv.
    destruct (_ || _); [done|]. destruct (_ <? _); [done|].
    eapply IH; [simpl in Hk; lia | exact Hv].
  - bool_hyps. pose proof (decode_rune_big b s Eb) as Hbig.
    destruct (decode_rune (b :: s)) as [r wd]. cbn [parseInt_loop fst] in *.
    assert ((57 <? r) = true) as E by (apply Z.ltb_lt; lia).
    rewrite E, orb_true_r in Hv. done.
Qed.

Lemma digits_ascii s : Forall (fun b => is_digit b = true) s -> ascii_only s = true.
Proof.
  intros Hs. apply forallb_forall. intros b Hb%list_elem_of_In.
  apply is_digit_ascii. rewrite Forall_forall in Hs. by apply Hs.
Qed.

Lemma parseInt_inl w s v :
  36 <= w ->
  parseInt w s = inl v <-> s <> [] /\ digits_val 0 s = Some v /\ v <= maxVal.
Proof.
  intros Hw. unfold parseInt.
  assert ((blen s =? 0) = is_nil s) as -> by (destruct s; unfold blen; simpl; lia).
  destruct s as [|b s]; cbn [is_nil]; [naive_solver|].
  assert (0 <= 0 <= maxVal) as H0 by (unfold maxVal; lia).
  split.
  - intros Hv. assert (ascii_only (b :: s) = true) as Ha.
    { eapply parseInt_loop_inl_ascii; [|exact Hv]. done. }
    rewrite runes_ascii in Hv by done. apply parseInt_loop_ascii in Hv; naive_solver.
  - intros (_ & Hv & Hm).
    assert (ascii_only (b :: s) = true) as Ha by eauto using digits_ascii, digits_val_Some_digits.
    rewrite runes_ascii by done. by apply parseInt_loop_ascii.
Qed.

Lemma parseInt_itoa w n : 36 <= w -> 0 <= n <= maxVal -> parseInt w (itoa n) = inl n.
Proof.
  intros Hw Hn. apply parseInt_inl; [done|]. unfold itoa.
  destruct (n <? 0) eqn:E; bool_hyps; [lia|].
  split; [apply utoa_nonempty|]. split; [apply utoa_val; lia | lia].
Qed.

(** ** Facts: SASL *)

Definition no_nul (s : bytes) : Prop := Forall (fun b => b <> NUL) s.

Lemma splitNull_go_cons cur data :
  exists p ps, splitNull_go cur data = p :: ps.
Proof.
  revert cur. induction data as [|b data IH]; intros cur; simpl; [eauto|].
  case_match; eauto.
Qed.

Lemma splitNull_go_join cur data :
  no_nul cur ->
  join [NUL] (splitNull_go cur data) = cur ++ data /\ Forall no_nul (splitNull_go cur data).
Proof.
  revert cur. induction data as [|b data IH]; intros cur Hc; simpl.
  - rewrite app_nil_r. by repeat constructor.
  - destruct (byte_eqb_spec b NUL) as [->|Hb].
    + destruct (IH [] ltac:(constructor)) as [Hj Hf].
      destruct (splitNull_go_cons [] data) as (p & ps & E). rewrite E in Hj, Hf |- *.
      cbn [join] in *. rewrite Hj. by repeat constructor; inv Hf.
    + destruct (IH (cur ++ [b])) as [Hj Hf]; [by apply Forall_app; repeat constructor|].
      by rewrite Hj, <- app_assoc.
Qed.

Lemma splitNull_go_word cur p rest :
  no_nul p -> splitNull_go cur (p ++ rest) = splitNull_go (cur ++ p) rest.
Proof.
  intros Hp. revert cur. induction Hp as [|b p Hb Hp IH]; intros cur; simpl.
  - by rewrite app_nil_r.
  - apply byte_eqb_neq in Hb. by rewrite Hb, IH, <- app_assoc.
Qed.

Lemma splitNull_join parts :
  parts <> [] -> Forall no_nul parts -> splitNull (join [NUL] parts) = parts.
Proof.
  intros Hne Hp. unfold splitNull.
  induction Hp as [|p ps Hp Hps IH]; [done|]. destruct ps as [|q ps]; cbn [join].
  - rewrite <- (app_nil_r p) at 1. by rewrite splitNull_go_word.
  - rewrite splitNull_go_word by done. cbn [app splitNull_go].
    rewrite byte_eqb_refl. f_equal. by apply IH.
Qed.

(** Splitting at NUL bytes inverts joining with them. *)
Lemma splitNull_iff data parts :
  splitNull data = parts <-> parts <> [] /\ Forall no_nul parts /\ data = join [NUL] parts.
Proof.
  split.
  - intros <-. destruct (splitNull_go_join [] data ltac:(constructor)) as [Hj Hf].
    split; [|done]. unfold splitNull. destruct (splitNull_go_cons [] data) as (p & ps & ->). done.
  - intros (Hne & Hf & ->). by apply splitNull_join.
Qed.

Lemma containsCTL_false_no_nul s : containsCTL s = false -> no_nul s.
Proof.
  intros Hs. apply Forall_forall. intros b Hb ->.
  apply not_true_iff_false in Hs. contradict Hs.
  apply existsb_exists. exists NUL. by rewrite <- list_elem_of_In.
Qed.

(** The payload of a SASL PLAIN response (RFC 4616). *)
Definition plain_payload (identity username password : bytes) : bytes :=
  identity ++ NUL :: username ++ NUL :: password.

Lemma decodeSASLPlain_iff e i u p :
  decodeSASLPlain e = inl (i, u, p)
  <-> b64_decode e = Some (plain_payload i u p)
      /\ containsCTL i = false /\ containsCTL u = false /\ no_nul p.
Proof.
  unfold decodeSASLPlain. destruct (b64_decode e) as [data|]; [|naive_solver].
  split.
  - destruct (splitNull data) as [|p0 [|p1 [|p2 [|]]]] eqn:E; try done.
    destruct (containsCTL p0 || containsCTL p1) eqn:Ec; [done|]. bool_hyps.
    intros [= -> -> ->]. apply splitNull_iff in E as (_ & Hf & ->).
    inv Hf. inv H4. inv H6. done.
  - intros ([= ->] & Hi & Hu & Hp).
    assert (splitNull (plain_payload i u p) = [i; u; p]) as ->.
    { apply splitNull_iff. split; [done|]. split; [|done].
      repeat constructor; auto using containsCTL_false_no_nul. }
    by rewrite Hi, Hu.
Qed.

(** ** Properties *)

(** C31: on a target whose [int] is at least 36 bits wide, [parseInt] accepts
    exactly the non-empty strings of ASCII digits whose value is at most
    2^31 - 1, and returns that value; overflow cannot occur. *)
Theorem parseInt_spec w s v :
  36 <= w ->
  parseInt w s = inl v
  <-> s <> [] /\ Forall (fun b => is_digit b = true) s /\ digits_val 0 s = Some v /\ v <= 2147483647.
Proof.
  intros Hw. rewrite parseInt_inl by done. unfold maxVal.
  split; [|naive_solver]. intros (H1 & H2 & H3). eauto using digits_val_Some_digits.
Qed.

Lemma parseInt_spec_witness : parseInt 64 (str "2147483647") = inl 2147483647.
Proof.
  apply (parseInt_spec 64 (str "2147483647") 2147483647); [lia|].
  split; [done|]. split; [repeat constructor|]. split; [reflexivity | lia].
Defined.

(** C35: where [int] is 32 bits wide the guard of [parseInt] never fires: the
    accumulated value wraps first, and [DELE 4294967297] addresses message 1. *)
Theorem parseInt_wraps_on_32_bit :
  parseMsgNum 32 [str "4294967297"] = inl 1
  /\ (forall args, parseMsgNum 32 args <> inr (EPlain (str "number too large")))
  /\ (forall s, parseInt 32 s <> inr (EPlain (str "number too large"))).
Proof.
  split; [vm_compute; reflexivity|].
  assert (forall rs n, parseInt_loop 32 n rs <> inr (EPlain (str "number too large"))) as Hl.
  { intros rs. induction rs as [|[ch b] rs IH]; intros n; cbn [parseInt_loop]; [done|].
    destruct (_ || _); [discriminate|].
    pose proof (wrap_s_range 32 (n * 10 + (ch - 48)) ltac:(lia)) as Hr.
    destruct (_ <? _) eqn:E; [|apply IH]. bool_hyps. unfold maxVal in E. lia. }
  split.
  - intros [|a args]; unfold parseMsgNum; [discriminate|].
    repeat case_match; discriminate.
  - intros s. unfold parseInt. case_match; [discriminate | apply Hl].
Qed.

(** C32: splitting a line at its first space or tab gives the verb, and
    tokenising the rest gives the arguments [strings.Fields] of the whole line
    would give, for every ASCII line that does not start with white space and
    whose only white space is spaces and tabs; the raw argument loses nothing
    of the line but the one delimiter. *)
Theorem splitCommand_fields line verb arg :
  blank_only line -> splitCommand line = (verb, arg) -> verb <> [] ->
  fields line = verb :: fields arg
  /\ (line = verb /\ arg = [] \/ exists d, is_blank d = true /\ line = verb ++ d :: arg).
Proof.
  intros [Ha Hsp] E Hne. pose proof (splitCommand_spec line) as Hs. rewrite E in Hs.
  destruct Hs as [Hv Hline]. split; [|done].
  assert (forall s, Forall (fun b => is_space (byte_z b) = is_blank b) s ->
          Forall (fun b => is_blank b = false) s ->
          Forall (fun b => is_space (byte_z b) = false) s) as Hns.
  { intros s H1 H2. apply Forall_forall. intros b Hb.
    rewrite Forall_forall in H1, H2. by rewrite H1, H2. }
  unfold fields. destruct Hline as [[-> ->] | (d & Hd & ->)].
  - rewrite runes_ascii by done. rewrite <- (app_nil_r (map _ verb)), fields_word; auto.
  - apply Forall_app in Hsp as [Hs1 Hs2]. inv Hs2.
    assert (ascii_only arg = true) as Haa.
    { unfold ascii_only in *. rewrite forallb_app in Ha. simpl in Ha. by bool_hyps. }
    rewrite !runes_ascii, map_app, fields_word by auto. cbn [map fields_go]. by rewrite H1, Hd.
Qed.

Lemma splitCommand_fields_witness :
  fields (str "TOP 1  20") = str "TOP" :: fields (str "1  20").
Proof.
  apply (splitCommand_fields (str "TOP 1  20") (str "TOP") (str "1  20")).
  - split; [reflexivity|]. vm_compute. repeat constructor.
  - reflexivity.
  - discriminate.
Defined.

(** C27: [decodeSASLPlain] accepts a response exactly when it is base64 of
    [authzid NUL authcid NUL passwd] with no control characters in the two
    identities and no NUL in the password, and returns those three parts; in
    particular it inverts the payload a SASL PLAIN client sends. *)
Theorem decodeSASLPlain_correct :
  (forall e i u p, decodeSASLPlain e = inl (i, u, p)
    <-> b64_decode e = Some (plain_payload i u p)
        /\ containsCTL i = false /\ containsCTL u = false /\ no_nul p)
  /\ (forall i u p, containsCTL i = false -> containsCTL u = false -> no_nul p ->
      decodeSASLPlain (b64_encode (plain_payload i u p)) = inl (i, u, p)).
Proof.
  split; [apply decodeSASLPlain_iff|]. intros i u p Hi Hu Hp.
  apply decodeSASLPlain_iff. by rewrite b64_decode_encode.
Qed.

(** C33: nothing a session supplies can break a response line: the sanitised
    text has no CR and no LF, a text without them is unchanged, and sanitising
    keeps every other byte in order. *)
Theorem sanitizeResponse_spec s :
  no_crlf (sanitizeResponse s)
  /\ (no_crlf s -> sanitizeResponse s = s)
  /\ sanitizeResponse s = List.filter (fun b => negb (is_crlf b)) s.
Proof. auto using sanitize_no_crlf, sanitize_id, sanitize_filter. Qed.
