(* ===== verification/Net.v ===== *)
(** * A connection and Go's [bufio] over it

    The standard-library side of the program's I/O: a [net.Conn] whose peer is
    a script of timed arrivals, with read and write deadlines, and the
    [bufio.Reader] and [bufio.Writer] both the server and the client put on
    top.  Times are nanoseconds; the zero [time.Time] is [None]. *)
From S2P Require Import Prelude GoStrings Errors DotStuff.

(** ** The connection *)

(** What the peer sends next. *)
Inductive NetItem :=
| NBytes (bs : bytes)
| NEOF                      (* the peer closed; every later read is EOF *)
| NErr (e : goerr).         (* one read fails *)

(** What happens to a [Write]: it succeeds, fails after [n] bytes, or stalls
    after [n] bytes because the peer reads no more. *)
Inductive WriteResult :=
| WOk
| WErr (n : nat) (e : goerr)
| WStall (n : nat).

(** [inbox]: the peer's items with their arrival times; a peer whose script is
    exhausted stays silent.  [rdl], [wdl]: the read and write deadlines.
    [wsched]: the fate of the next writes, [WOk] once exhausted.  [wire]: every
    byte the peer was sent. *)
Record Net := mkNet {
  now : Z;
  inbox : list (Z * NetItem);
  rdl : option Z;
  wdl : option Z;
  wsched : list WriteResult;
  wire : bytes
}.

Definition set_now t n := mkNet t (inbox n) (rdl n) (wdl n) (wsched n) (wire n).
Definition set_inbox i n := mkNet (now n) i (rdl n) (wdl n) (wsched n) (wire n).
Definition SetReadDeadline d n := mkNet (now n) (inbox n) d (wdl n) (wsched n) (wire n).
Definition SetWriteDeadline d n := mkNet (now n) (inbox n) (rdl n) d (wsched n) (wire n).
Definition SetDeadline d n := mkNet (now n) (inbox n) d d (wsched n) (wire n).
Definition set_wsched s n := mkNet (now n) (inbox n) (rdl n) (wdl n) s (wire n).
Definition send bs n := mkNet (now n) (inbox n) (rdl n) (wdl n) (wsched n) (wire n ++ bs).

(** Time passes. *)
Definition wait_until (t : Z) (n : Net) : Net := set_now (Z.max (now n) t) n.

(** An operation that may never return. *)
Inductive io (A : Type) :=
| IoVal (a : A)
| IoBlock.
Arguments IoVal {A}.
Arguments IoBlock {A}.

Definition io_bind {A B} (m : Net * io A) (k : A -> Net -> Net * io B) : Net * io B :=
  match m with
  | (n, IoVal a) => k a n
  | (n, IoBlock) => (n, IoBlock)
  end.

Definition timeoutError : goerr := ENet (str "i/o timeout") true.

(** The next item arrives; [rest] is what follows it. *)
Definition deliver (cap : nat) (t : Z) (it : NetItem) (rest : list (Z * NetItem)) (n : Net)
    : Net * (bytes * option goerr) :=
  match it with
  | NBytes bs =>
    if (length bs <=? cap)%nat then (set_inbox rest n, (bs, None))
    else (set_inbox ((t, NBytes (drop cap bs)) :: rest) n, (take cap bs, None))
  | NEOF => (n, ([], Some (ESentinel EOF)))
  | NErr e => (set_inbox rest n, ([], Some e))
  end.

(** [Conn.Read] into a buffer of [cap] bytes: what arrived before the deadline,
    the timeout error at the deadline otherwise. *)
Definition net_read (cap : nat) (n : Net) : Net * io (bytes * option goerr) :=
  match inbox n with
  | [] =>
    match rdl n with
    | None => (n, IoBlock)
    | Some d => (wait_until d n, IoVal ([], Some timeoutError))
    end
  | (t, it) :: rest =>
    if match rdl n with Some d => d <=? Z.max (now n) t | None => false end
    then (wait_until (default 0 (rdl n)) n, IoVal ([], Some timeoutError))
    else let '(n', r) := deliver cap t it rest (wait_until t n) in (n', IoVal r)
  end.

(** [Conn.Write], through [writeDeadlineConn] when [wt], the write timeout, is
    positive: bytes written and error. *)
Definition net_write (wt : Z) (p : bytes) (n : Net) : Net * io (nat * option goerr) :=
  let n := if 0 <? wt then SetWriteDeadline (Some (now n + wt)) n else n in
  if match wdl n with Some d => d <=? now n | None => false end
  then (n, IoVal (0%nat, Some timeoutError))
  else
    match wsched n with
    | [] => (send p n, IoVal (length p, None))
    | WOk :: s => (send p (set_wsched s n), IoVal (length p, None))
    | WErr k e :: s => (send (take k p) (set_wsched s n), IoVal (length (take k p), Some e))
    | WStall k :: s =>
      let n := send (take k p) (set_wsched s n) in
      match wdl n with
      | None => (n, IoBlock)
      | Some d => (wait_until d n, IoVal (length (take k p), Some timeoutError))
      end
    end.

(** ** bufio.Reader *)

(** The default buffer size. *)
Definition bufsize : nat := Z.to_nat 4096.

(** The unread part of the buffer, and the pending read error. *)
Record Reader := mkReader { rbuf : bytes; rerr : option goerr }.

Definition NewReader : Reader := mkReader [] None.

(** [Buffered()]. *)
Definition Buffered (r : Reader) : Z := blen (rbuf r).

(** [fill]: one read into the free part of the buffer; at most a hundred empty
    reads are tolerated. *)
Fixpoint fill_go (tries : nat) (r : Reader) (n : Net) : Net * io Reader :=
  match tries with
  | O => (n, IoVal (mkReader (rbuf r) (Some (EPlain
            (str "multiple Read calls return no data or error")))))
  | S k =>
    io_bind (net_read (bufsize - length (rbuf r)) n) (fun res n' =>
    let '(bs, e) := res in
    match e with
    | Some _ => (n', IoVal (mkReader (rbuf r ++ bs) e))
    | None => match bs with
              | [] => fill_go k r n'
              | _ => (n', IoVal (mkReader (rbuf r ++ bs) None))
              end
    end)
  end.

Definition fill (r : Reader) (n : Net) : Net * io Reader := fill_go 100 r n.

(** How [ReadSlice] ends other than at a delimiter. *)
Inductive slice_end := SDelim | SErr (e : goerr) | SFull.

(** [ReadSlice('\n')].  Every round adds a byte or an error to the reader, so
    [bufsize + 2] rounds are enough. *)
Fixpoint ReadSlice_go (k : nat) (r : Reader) (n : Net)
    : Net * io (Reader * (bytes * slice_end)) :=
  match k with
  | O => (n, IoBlock)
  | S k' =>
    match index_byte (rbuf r) LF with
    | Some i =>
      (n, IoVal (mkReader (drop (i + 1) (rbuf r)) (rerr r), (take (i + 1) (rbuf r), SDelim)))
    | None =>
      match rerr r with
      | Some e => (n, IoVal (mkReader [] None, (rbuf r, SErr e)))
      | None =>
        if (bufsize <=? length (rbuf r))%nat
        then (n, IoVal (mkReader [] None, (rbuf r, SFull)))
        else io_bind (fill r n) (fun r' n' => ReadSlice_go k' r' n')
      end
    end
  end.

Definition ReadSlice (r : Reader) (n : Net) := ReadSlice_go (bufsize + 2) r n.

(** [ReadLine]: the line, whether it is only a prefix, and the error.  A CR that
    fills the buffer goes back into it. *)
Definition ReadLine (r : Reader) (n : Net)
    : Net * io (Reader * (bytes * bool * option goerr)) :=
  io_bind (ReadSlice r n) (fun res n' =>
  let '(r', (line, e)) := res in
  match e with
  | SFull =>
    if match last line with Some b => b =b? CR | None => false end
    then (n', IoVal (mkReader (CR :: rbuf r') (rerr r'),
                     (take (length line - 1) line, true, None)))
    else (n', IoVal (r', (line, true, None)))
  | SErr err =>
    match line with
    | [] => (n', IoVal (r', ([], false, Some err)))
    | _ => (n', IoVal (r', (line, false, None)))
    end
  | SDelim =>
    let body := take (length line - 1) line in
    let drop_cr := match last body with Some b => b =b? CR | None => false end in
    (n', IoVal (r', (if drop_cr then take (length body - 1) body else body, false, None)))
  end).

(** ** bufio.Writer *)

Record Writer_ := mkWriter { wbuf : bytes; werr : option goerr }.

Definition NewWriter : Writer_ := mkWriter [] None.

Definition Available (w : Writer_) : nat := (bufsize - length (wbuf w))%nat.

(** [Flush]. *)
Definition Flush (wt : Z) (w : Writer_) (n : Net) : Net * io (Writer_ * option goerr) :=
  match werr w with
  | Some e => (n, IoVal (w, Some e))
  | None =>
    match wbuf w with
    | [] => (n, IoVal (w, None))
    | _ =>
      io_bind (net_write wt (wbuf w) n) (fun res n' =>
      let '(k, e) := res in
      let e := match e with
               | None => if (k <? length (wbuf w))%nat then Some (ESentinel ErrShortWrite) else None
               | _ => e
               end in
      match e with
      | Some e => (n', IoVal (mkWriter (drop k (wbuf w)) (Some e), Some e))
      | None => (n', IoVal (mkWriter [] None, None))
      end)
    end
  end.

(** [Write] ([direct]) and [WriteString] (not [direct]: the connection is no
    [io.StringWriter]).  Every two rounds consume a byte of [p]. *)
Fixpoint write_go (direct : bool) (wt : Z) (k : nat) (p : bytes) (w : Writer_) (n : Net)
    : Net * io (Writer_ * option goerr) :=
  match k with
  | O => (n, IoBlock)
  | S k' =>
    if (Available w <? length p)%nat && match werr w with None => true | _ => false end then
      if direct && match wbuf w with [] => true | _ => false end then
        io_bind (net_write wt p n) (fun res n' =>
        let '(m, e) := res in
        write_go direct wt k' (drop m p) (mkWriter [] e) n')
      else
        let m := Available w in
        io_bind (Flush wt (mkWriter (wbuf w ++ take m p) (werr w)) n) (fun res n' =>
        write_go direct wt k' (drop m p) res.1 n')
    else
      match werr w with
      | Some e => (n, IoVal (w, Some e))
      | None => (n, IoVal (mkWriter (wbuf w ++ p) None, None))
      end
  end.

Definition wr_Write (wt : Z) (p : bytes) (w : Writer_) (n : Net) :=
  write_go true wt (2 * length p + 2) p w n.

Definition wr_WriteString (wt : Z) (p : bytes) (w : Writer_) (n : Net) :=
  write_go false wt (2 * length p + 2) p w n.

(** ** Measures and predicates used by the facts *)

(** What the peer has yet to deliver, counting one per item and per byte. *)
Definition item_weight (it : Z * NetItem) : nat :=
  match it.2 with NBytes bs => S (length bs) | _ => 1%nat end.

Definition inbox_weight (l : list (Z * NetItem)) : nat := list_sum (map item_weight l).

(** Bytes buffered and yet to come. *)
Definition rweight (r : Reader) (n : Net) : nat := (length (rbuf r) + inbox_weight (inbox n))%nat.

(** The bytes of the script, when it is only data. *)
Definition item_bytes (it : Z * NetItem) : bytes := match it.2 with NBytes bs => bs | _ => [] end.

Definition is_data (it : Z * NetItem) : Prop := match it.2 with NBytes bs => bs <> [] | _ => False end.

(** The reader will yield exactly [s], however it was cut into segments,
    before the read deadline. *)
Definition yields (r : Reader) (n : Net) (s : bytes) : Prop :=
  rerr r = None /\ Forall is_data (inbox n) /\ s = rbuf r ++ concat (map item_bytes (inbox n))
  /\ (length (rbuf r) <= bufsize)%nat
  /\ match rdl n with
     | None => True
     | Some d => now n < d /\ Forall (fun it => it.1 < d) (inbox n)
     end.

(** No stale write deadline: it is set anew by every write, or there is none, or
    it is ahead. *)
Definition in_time (wt : Z) (n : Net) : Prop :=
  0 < wt \/ match wdl n with None => True | Some d => now n < d end.

(** The writer works: no error so far, none scheduled, and no stale deadline. *)
Definition writable (wt : Z) (w : Writer_) (n : Net) : Prop :=
  werr w = None /\ (length (wbuf w) <= bufsize)%nat /\ Forall (fun x => x = WOk) (wsched n)
  /\ in_time wt n.

(** Everything written so far: sent, or still buffered. *)
Definition written (w : Writer_) (n : Net) : bytes := wire n ++ wbuf w.

(** The parts of a connection writing leaves alone (when it does not stall). *)
Definition same_input (n n' : Net) : Prop :=
  now n' = now n /\ inbox n' = inbox n /\ rdl n' = rdl n.

(** ** Facts: reading makes progress *)

Lemma bufsize_ge : (2 <= bufsize)%nat.
Proof. unfold bufsize. lia. Qed.

Lemma bufsize_z : Z.of_nat bufsize = 4096.
Proof. unfold bufsize. lia. Qed.

#[global] Opaque bufsize.

Lemma inbox_weight_cons it l : inbox_weight (it :: l) = (item_weight it + inbox_weight l)%nat.
Proof. done. Qed.

Lemma deliver_weight cap t it rest n n' bs e :
  deliver cap t it rest n = (n', (bs, e)) -> inbox n = (t, it) :: rest ->
  (length bs + inbox_weight (inbox n') <= inbox_weight (inbox n))%nat.
Proof.
  intros Hd Hi. rewrite Hi. unfold deliver in Hd. destruct it as [bs0| |e0].
  - destruct (Nat.leb_spec (length bs0) cap) as [Hl|Hl]; injection Hd as <- <- <-;
      cbn [inbox set_inbox]; rewrite !inbox_weight_cons; unfold item_weight; cbn [snd].
    + lia.
    + rewrite length_take, length_drop. lia.
  - injection Hd as <- <- <-. rewrite Hi. simpl. lia.
  - injection Hd as <- <- <-. cbn [inbox set_inbox]. rewrite inbox_weight_cons. simpl. lia.
Qed.

Lemma net_read_weight cap n n' bs e :
  net_read cap n = (n', IoVal (bs, e)) ->
  (length bs + inbox_weight (inbox n') <= inbox_weight (inbox n))%nat.
Proof.
  unfold net_read. destruct (inbox n) as [|[t it] rest] eqn:Hi.
  - destruct (rdl n); [|done]. intros [= <- <- <-]. simpl. rewrite Hi. done.
  - destruct (match rdl n with Some _ => _ | None => _ end).
    + intros [= <- <- <-]. simpl. by rewrite Hi.
    + destruct (deliver cap t it rest (wait_until t n)) as [n1 [bs1 e1]] eqn:Hd.
      intros [= <- <- <-]. apply deliver_weight in Hd; [|done]. simpl in Hd. by rewrite Hi in Hd.
Qed.

Lemma net_read_weight_le cap n : (inbox_weight (inbox (net_read cap n).1) <= inbox_weight (inbox n))%nat.
Proof.
  destruct (net_read cap n) as [n' [[bs e]|]] eqn:E.
  - apply net_read_weight in E. simpl. lia.
  - unfold net_read in E. destruct (inbox n) as [|[t it] rest] eqn:Hi.
    + destruct (rdl n); [done|]. injection E as <-. simpl. by rewrite Hi.
    + destruct (match rdl n with Some _ => _ | None => _ end); [done|].
      by destruct (deliver _ _ _ _ _).
Qed.

Lemma index_func_lt f s i : index_func f s = Some i -> (i < length s)%nat.
Proof. intros (a & Ha & _)%index_func_spec. by eapply lookup_lt_Some. Qed.

(** A measure of what is to come that pays for every byte a read returns, as
    long as [P] holds of the connection. *)
Section Measured.
Variable w : list (Z * NetItem) -> nat.
Variable P : Net -> Prop.

Definition measured (r : Reader) (n : Net) : nat := (length (rbuf r) + w (inbox n))%nat.

Definition pays {A} (n : Net) (m : Net * io A) (Q : A -> Prop) : Prop :=
  P m.1 /\ (w (inbox m.1) <= w (inbox n))%nat /\ match m.2 with IoVal a => Q a | IoBlock => True end.

Hypothesis Hread : forall cap n, P n ->
  pays n (net_read cap n) (fun res => (length res.1 + w (inbox (net_read cap n).1) <= w (inbox n))%nat).

Local Ltac paid := unfold pays, measured in *; cbn [fst snd rbuf] in *; split_and!; (done || simpl; lia).

Lemma fill_go_measured k r n :
  P n -> pays n (fill_go k r n) (fun r' => (measured r' (fill_go k r n).1 <= measured r n)%nat).
Proof using Hread.
  revert n. induction k as [|k IH]; intros n Hn; cbn [fill_go]; [paid|].
  destruct (Hread (bufsize - length (rbuf r)) n Hn) as (Hp & Hw & Hv).
  destruct (net_read _ n) as [n1 [[bs e]|]]; cbn [io_bind fst snd] in *; [|paid].
  assert (measured (mkReader (rbuf r ++ bs) e) n1 <= measured r n)%nat
    by (unfold measured; cbn [rbuf]; rewrite length_app; lia).
  destruct e as [e|]; [paid|]. destruct bs as [|b bs]; [|paid].
  destruct (IH n1 Hp) as (Hp2 & Hw2 & Hv2). split; [done|]. split; [lia|].
  destruct (fill_go k r n1) as [n2 [r2|]]; cbn [fst snd] in *; [|done]. unfold measured in *. simpl in *. lia.
Qed.

Lemma ReadSlice_go_measured k r n :
  P n -> pays n (ReadSlice_go k r n) (fun res =>
    (measured res.1 (ReadSlice_go k r n).1 + length res.2.1 <= measured r n)%nat
    /\ match res.2.2 with SDelim => res.2.1 <> [] | SErr _ => True | SFull => (bufsize <= length res.2.1)%nat end).
Proof using Hread.
  revert r n. induction k as [|k IH]; intros r n Hn; cbn [ReadSlice_go]; [paid|].
  destruct (index_byte (rbuf r) LF) as [i|] eqn:Hi.
  - apply index_func_lt in Hi. split; [done|]. split; [done|]. unfold measured. cbn [fst snd rbuf].
    rewrite length_drop, length_take. split; [lia|].
    intros Ht%(f_equal length). rewrite length_take in Ht. simpl in Ht. lia.
  - destruct (rerr r); [split_and!; cbn [fst snd]; unfold measured; simpl; (done || lia)|].
    destruct (Nat.leb_spec bufsize (length (rbuf r)));
      [split_and!; cbn [fst snd]; unfold measured; simpl; (done || lia)|].
    unfold fill. destruct (fill_go_measured 100 r n Hn) as (Hp & Hw & Hv).
    destruct (fill_go 100 r n) as [n1 [r1|]]; cbn [io_bind fst snd] in *; [|paid].
    destruct (IH r1 n1 Hp) as (Hp2 & Hw2 & Hv2). split; [done|]. split; [lia|].
    destruct (ReadSlice_go k r1 n1) as [n2 [[r2 [l e]]|]]; cbn [fst snd] in *; [|done].
    destruct Hv2. split; [lia|done].
Qed.

(** A line, or a part of one, costs the peer at least one byte. *)
Lemma ReadLine_measured r n :
  P n -> pays n (ReadLine r n) (fun res =>
    (measured res.1 (ReadLine r n).1 <= measured r n)%nat
    /\ (res.2.2 = None -> (measured res.1 (ReadLine r n).1 < measured r n)%nat)).
Proof using Hread.
  intros Hn. unfold ReadLine, ReadSlice. destruct (ReadSlice_go_measured (bufsize + 2) r n Hn) as (Hp & Hw & Hv).
  pose proof bufsize_ge.
  destruct (ReadSlice_go _ r n) as [n1 [[r1 [l e]]|]]; cbn [io_bind fst snd] in *; [|paid].
  destruct Hv as [Hv He]. destruct e; [|destruct l|destruct (match last l with Some _ => _ | None => _ end)];
    (split; [done|split; [done|]]); cbn [fst snd]; unfold measured in *; simpl in *; try (split; [|intros]; (done || lia)).
  destruct l; [done|]. simpl in *. split; [|intros _]; lia.
Qed.
End Measured.

Lemma inbox_weight_pays cap n :
  True -> pays inbox_weight (fun _ => True) n (net_read cap n)
    (fun res => (length res.1 + inbox_weight (inbox (net_read cap n).1) <= inbox_weight (inbox n))%nat).
Proof.
  intros _. split; [done|]. split; [apply net_read_weight_le|].
  destruct (net_read cap n) as [n' [[bs e]|]] eqn:E; [|done]. by apply net_read_weight in E.
Qed.

Lemma ReadSlice_go_weight k r n n' r' line e :
  ReadSlice_go k r n = (n', IoVal (r', (line, e))) ->
  (rweight r' n' + length line <= rweight r n)%nat
  /\ match e with SDelim => line <> [] | SErr _ => True | SFull => (bufsize <= length line)%nat end.
Proof.
  intros E. destruct (ReadSlice_go_measured _ _ inbox_weight_pays k r n I) as (_ & _ & Hv). by rewrite E in Hv.
Qed.

Lemma ReadLine_weight r n n' r' line pre :
  ReadLine r n = (n', IoVal (r', (line, pre, None))) -> (rweight r' n' < rweight r n)%nat.
Proof.
  intros E. destruct (ReadLine_measured _ _ inbox_weight_pays r n I) as (_ & _ & Hv). rewrite E in Hv. by apply Hv.
Qed.

Lemma ReadLine_weight_le r n :
  (inbox_weight (inbox (ReadLine r n).1) <= inbox_weight (inbox n))%nat
  /\ match (ReadLine r n).2 with
     | IoVal (r', _) => (rweight r' (ReadLine r n).1 <= rweight r n)%nat
     | IoBlock => True
     end.
Proof.
  destruct (ReadLine_measured _ _ inbox_weight_pays r n I) as (_ & Hw & Hv). split; [done|].
  destruct (ReadLine r n).2 as [[r' res]|]; [|done]. by destruct Hv.
Qed.

(** What arrives before [L]: a deadline no later than [L] keeps a read from what
    arrives afterwards. *)
Definition early_weight (L : Z) (l : list (Z * NetItem)) : nat :=
  inbox_weight (List.filter (fun it => it.1 <? L) l).

Definition due_by (L : Z) (n : Net) : Prop := match rdl n with Some d => d <= L | None => False end.

Lemma early_weight_cons L t it l :
  early_weight L ((t, it) :: l) = ((if (t <? L)%Z then item_weight (t, it) else 0) + early_weight L l)%nat.
Proof. unfold early_weight. simpl. by destruct (t <? L). Qed.

Lemma early_weight_pays L cap n :
  due_by L n -> pays (early_weight L) (due_by L) n (net_read cap n)
    (fun res => (length res.1 + early_weight L (inbox (net_read cap n).1) <= early_weight L (inbox n))%nat).
Proof.
  unfold due_by. destruct (rdl n) as [d|] eqn:Hd; [|done]. intros HL. unfold pays, net_read.
  rewrite Hd. destruct (inbox n) as [|[t it] rest] eqn:Hi; [simpl; by rewrite Hd, Hi|].
  destruct (Z.leb_spec d (Z.max (now n) t)) as [|Ht]; [simpl; by rewrite Hd, Hi|].
  assert ((t <? L) = true) as Hlt by (apply Z.ltb_lt; lia).
  destruct it as [bs| |e]; unfold deliver; [destruct (Nat.leb_spec (length bs) cap)|..];
    cbn [fst snd wait_until set_inbox set_now rdl inbox]; rewrite ?Hd, ?Hi, !early_weight_cons, ?Hlt;
    unfold item_weight; cbn [snd fst]; rewrite ?length_take, ?length_drop; simpl length; (split; [done|split; lia]).
Qed.

Lemma ReadLine_early L r n :
  due_by L n -> pays (early_weight L) (due_by L) n (ReadLine r n) (fun res =>
    (measured (early_weight L) res.1 (ReadLine r n).1 <= measured (early_weight L) r n)%nat
    /\ (res.2.2 = None ->
        (measured (early_weight L) res.1 (ReadLine r n).1 < measured (early_weight L) r n)%nat)).
Proof. apply ReadLine_measured, early_weight_pays. Qed.

(** ** Facts: what a line reads as does not depend on the segments *)

Lemma chomp_last l :
  chomp l = if match last l with Some b => b =b? CR | None => false end
            then take (length l - 1) l else l.
Proof.
  induction l as [|b l IH]; [done|]. rewrite last_cons. destruct l as [|c l].
  - simpl. by destruct (b =b? CR).
  - change (chomp (b :: c :: l)) with (b :: chomp (c :: l)). rewrite IH.
    destruct (last_is_Some (c :: l)) as [_ [x Hx]]; [done|]. rewrite Hx.
    destruct (x =b? CR); [|done]. simpl. by rewrite Nat.sub_0_r.
Qed.

Lemma chomp_app a b : b <> [] -> chomp (a ++ b) = a ++ chomp b.
Proof.
  intros Hb. induction a as [|x a IH]; [done|]. simpl app. rewrite <- IH.
  destruct (a ++ b) as [|y l] eqn:E; [|done]. by apply app_eq_nil in E as [_ ?].
Qed.

Lemma deliver_data cap t bs rest n :
  (1 <= cap)%nat -> bs <> [] -> inbox n = (t, NBytes bs) :: rest ->
  exists got n', deliver cap t (NBytes bs) rest n = (n', (got, None)) /\ got <> []
    /\ (length got <= cap)%nat
    /\ bs ++ concat (map item_bytes rest) = got ++ concat (map item_bytes (inbox n'))
    /\ (Forall is_data rest -> Forall is_data (inbox n'))
    /\ (forall d, Forall (fun it => it.1 < d) (inbox n) -> Forall (fun it => it.1 < d) (inbox n'))
    /\ now n' = now n /\ rdl n' = rdl n.
Proof.
  intros Hc Hb Hi. unfold deliver. destruct (Nat.leb_spec (length bs) cap) as [Hl|Hl].
  - exists bs, (set_inbox rest n). repeat split; auto. intros d Hd. rewrite Hi in Hd. by inv Hd.
  - exists (take cap bs), (set_inbox ((t, NBytes (drop cap bs)) :: rest) n).
    split; [done|]. split.
    { intros Ht%(f_equal length). rewrite length_take in Ht. simpl in Ht. lia. }
    split; [rewrite length_take; lia|]. cbn [set_inbox inbox map concat].
    split; [unfold item_bytes at 2; simpl; by rewrite app_assoc, take_drop|].
    split; [|split; [|done]].
    + intros Hr. constructor; [|done]. unfold is_data. simpl.
      intros Hd%(f_equal length). rewrite length_drop in Hd. simpl in Hd. lia.
    + intros d Hd. rewrite Hi in Hd. inv Hd. by constructor.
Qed.

(** Everything happens before [d]. *)
Definition before (d : Z) (n : Net) : Prop := now n < d /\ Forall (fun it => it.1 < d) (inbox n).

Lemma fill_yields r n s :
  yields r n s -> (length (rbuf r) < bufsize)%nat -> inbox n <> [] ->
  exists r' n', fill r n = (n', IoVal r') /\ yields r' n' s
    /\ (length (rbuf r) < length (rbuf r'))%nat /\ (forall d, before d n -> before d n').
Proof.
  intros (He & Hd & Hs & Hb & Hdl) Hlt Hne.
  destruct (inbox n) as [|[t it] rest] eqn:Hi; [done|]. inv Hd. destruct it as [bs| |]; try done.
  unfold fill. change 100%nat with (S 99). cbn [fill_go]. unfold net_read. rewrite Hi.
  assert (match rdl n with Some d => d <=? Z.max (now n) t | None => false end = false) as ->.
  { destruct (rdl n) as [d|]; [|done]. destruct Hdl as [Hn Ha]. inv Ha. simpl in *.
    apply Z.leb_gt. lia. }
  destruct (deliver_data (bufsize - length (rbuf r)) t bs rest (wait_until t n))
    as (got & n' & -> & Hg & Hgl & Hc & Hf & Hft & Hnow & Hrdl); try done; [lia|].
  cbn [io_bind]. destruct got as [|g got]; [done|].
  eexists _, n'. split; [reflexivity|]. cbn [rbuf rerr].
  rewrite length_app. split; [|split; [simpl; lia|]].
  2:{ intros d [Hn Ha]. split; [|apply Hft; simpl; by rewrite Hi in *].
      rewrite Hnow. rewrite Hi in Ha. inv Ha. simpl in *. lia. }
  split; [done|]. split; [auto|]. split.
  { cbn [map concat rbuf]. change (item_bytes (t, NBytes bs)) with bs.
    by rewrite Hc, app_assoc. }
  cbn [rbuf]. rewrite length_app. split; [lia|].
  rewrite Hrdl, Hnow. simpl. destruct (rdl n) as [d|]; [|done].
  destruct Hdl as [Hn Ha]. split; [inv Ha; simpl in *; lia|]. apply Hft. simpl. by rewrite Hi.
Qed.

Lemma ReadSlice_go_yields k r n l t :
  yields r n (l ++ LF :: t) -> Forall (fun b => b <> LF) l ->
  (bufsize - length (rbuf r) < k)%nat ->
  exists r' n', 
    (forall d, before d n -> before d n') /\
    if (length l <? bufsize)%nat
    then ReadSlice_go k r n = (n', IoVal (r', (l ++ [LF], SDelim))) /\ yields r' n' t
    else ReadSlice_go k r n = (n', IoVal (r', (take bufsize l, SFull)))
         /\ yields r' n' (drop bufsize l ++ LF :: t) /\ rbuf r' = [].
Proof.
  revert r n. induction k as [|k IH]; intros r n Hy Hl Hk; [lia|].
  pose proof Hy as (He & Hd & Hs & Hb & Hdl). cbn [ReadSlice_go]. unfold index_byte.
  destruct (index_func _ (rbuf r)) as [i|] eqn:Hi.
  - (* the delimiter is in the buffer *)
    assert (i = length l) as ->.
    { assert (index_func (fun a => a =b? LF) (l ++ LF :: t) = Some (length l)) as H1.
      { apply index_func_app; [|done]. eapply Forall_impl; [exact Hl|].
        intros b. apply byte_eqb_neq. }
      rewrite Hs in H1. assert (index_func (fun a => a =b? LF)
        (rbuf r ++ concat (map item_bytes (inbox n))) = Some i) as H2; [|congruence].
      apply index_func_spec in Hi as (a & Ha & Hf & Hall).
      rewrite <- (take_drop_middle _ _ _ Ha), <- app_assoc. simpl.
      rewrite index_func_app by done. f_equal. rewrite length_take.
      apply lookup_lt_Some in Ha. lia. }
    pose proof (index_func_lt _ _ _ Hi) as Hlt.
    assert ((length l <? bufsize)%nat = true) as -> by (apply Nat.ltb_lt; lia).
    assert (rbuf r = l ++ LF :: drop (length l + 1) (rbuf r)) as Hr.
    { pose proof (f_equal (take (length l + 1)) Hs) as Ht.
      rewrite (take_app_le (rbuf r)) in Ht by lia.
      rewrite <- (take_drop (length l + 1) (rbuf r)) at 1.
      rewrite <- Ht, (take_app_ge l) by lia. replace (length l + 1 - length l)%nat with 1%nat by lia.
      simpl. by rewrite <- app_assoc. }
    eexists _, n. split; [done|]. split.
    + do 4 f_equal. rewrite Hr. rewrite (take_app_ge l) by lia.
      replace (length l + 1 - length l)%nat with 1%nat by lia. done.
    + split; [done|]. split; [done|]. cbn [rbuf]. rewrite Hr in Hs at 1.
      rewrite <- app_assoc in Hs. simplify_list_eq. rewrite length_drop. split_and!; [done|lia|done].
  - rewrite He. apply index_func_None in Hi. 
    assert (length (rbuf r) <= length l)%nat as Hle.
    { destruct (Nat.leb_spec (length (rbuf r)) (length l)); [done|]. exfalso.
      assert (rbuf r !! length l = Some LF) as Hx.
      { rewrite <- (lookup_app_l (rbuf r) (concat (map item_bytes (inbox n)))) by done.
        rewrite <- Hs. by apply list_lookup_middle. }
      rewrite Forall_lookup in Hi. apply Hi in Hx. done. }
    destruct (Nat.leb_spec bufsize (length (rbuf r))) as [Hfull|Hroom].
    + assert ((length l <? bufsize)%nat = false) as -> by (apply Nat.ltb_ge; lia).
      assert (length (rbuf r) = bufsize) as Hlen by lia.
      assert (take bufsize l = rbuf r /\ concat (map item_bytes (inbox n))
              = drop bufsize l ++ LF :: t) as [Ht Hdr].
      { pose proof (f_equal (take bufsize) Hs) as H1. pose proof (f_equal (drop bufsize) Hs) as H2.
        rewrite take_app_le in H1 by lia. rewrite drop_app_le in H2 by lia.
        rewrite take_app_ge, Hlen, Nat.sub_diag, take_0, app_nil_r in H1 by lia.
        rewrite drop_app_ge, Hlen, Nat.sub_diag, drop_0 in H2 by lia. done. }
      eexists _, n. split; [done|]. split; [by rewrite Ht|]. split; [|done].
      split; [done|]. split; [done|]. simpl. split_and!; [done|lia|done].
    + assert (inbox n <> []) as Hne.
      { intros Hn. rewrite Hn in Hs. simpl in Hs. rewrite app_nil_r in Hs.
        apply (f_equal length) in Hs. rewrite length_app in Hs. simpl in Hs. lia. }
      destruct (fill_yields r n _ Hy Hroom Hne) as (r1 & n1 & Hf & Hy1 & Hgt & Hbf).
      rewrite Hf. cbn [io_bind]. destruct (IH r1 n1 Hy1 Hl ltac:(lia)) as (r2 & n2 & Hb2 & H2).
      exists r2, n2. split; [auto | exact H2].
Qed.

(** [ReadLine] on a stream that holds a whole line: the line without its
    terminator, or, of a line longer than the buffer, a first part. *)
Lemma ReadLine_yields r n l t :
  yields r n (l ++ LF :: t) -> Forall (fun b => b <> LF) l ->
  exists r' n', (forall d, before d n -> before d n') /\
    (ReadLine r n = (n', IoVal (r', (chomp l, false, None))) /\ yields r' n' t
    \/ exists m, (1 <= m <= length l)%nat
       /\ ReadLine r n = (n', IoVal (r', (take m l, true, None)))
       /\ yields r' n' (drop m l ++ LF :: t) /\ chomp l = take m l ++ chomp (drop m l)).
Proof.
  intros Hy Hl. unfold ReadLine, ReadSlice. pose proof bufsize_ge as Hbs.
  destruct (ReadSlice_go_yields (bufsize + 2) r n l t Hy Hl ltac:(lia)) as (r1 & n1 & Hbf & H).
  destruct (Nat.ltb_spec (length l) bufsize) as [Hlt|Hge].
  - destruct H as [-> Hy1]. exists r1, n1. split; [done|]. left. split; [|done]. cbn [io_bind].
    rewrite length_app. simpl length. rewrite Nat.add_sub, take_app_length, chomp_last. done.
  - destruct H as (-> & Hy1 & Hr1). cbn [io_bind]. rewrite length_take, Nat.min_l by lia.
    assert (forall m, drop m l = [] -> (m <= length l)%nat -> m = length l) as Hdn.
    { intros m Hd Hm. apply (f_equal length) in Hd. rewrite length_drop in Hd. simpl in Hd. lia. }
    destruct (last (take bufsize l)) as [b|] eqn:Hlast.
    2:{ apply last_None in Hlast. apply (f_equal length) in Hlast.
        rewrite length_take in Hlast. simpl in Hlast. lia. }
    apply last_Some in Hlast as [l0 Hl0].
    assert (length l0 = bufsize - 1)%nat as Hlen0.
    { apply (f_equal length) in Hl0. rewrite length_take, length_app in Hl0. simpl in Hl0. lia. }
    assert (l = l0 ++ b :: drop bufsize l) as Hsplit.
    { rewrite <- (take_drop bufsize l) at 1. by rewrite Hl0, <- app_assoc. }
    destruct (byte_eqb_spec b CR) as [->|Hb].
    + exists (mkReader (CR :: rbuf r1) (rerr r1)), n1. split; [done|]. right. exists (bufsize - 1)%nat.
      split; [lia|].
      assert (drop (bufsize - 1) l = CR :: drop bufsize l) as Hdr.
      { rewrite Hsplit at 1. rewrite <- Hlen0. by rewrite drop_app_length. }
      split.
      { rewrite take_take, Nat.min_l by lia. done. }
      split.
      * rewrite Hdr, Hr1. destruct Hy1 as (? & ? & Hs & ? & ?). rewrite Hr1 in Hs. simpl in Hs.
        split; [done|]. split; [done|]. split; [cbn; by rewrite Hs|]. split; [cbn; lia | done].
      * rewrite <- (take_drop (bufsize - 1) l) at 1. apply chomp_app. by rewrite Hdr.
    + exists r1, n1. split; [done|]. right. exists bufsize. split; [lia|]. split; [done|]. split; [done|].
      destruct (drop bufsize l) as [|c d] eqn:Hd.
      * rewrite app_nil_r, take_ge by (apply Hdn in Hd; lia).
        rewrite chomp_last. rewrite Hsplit, last_snoc.
        apply byte_eqb_neq in Hb. by rewrite Hb.
      * rewrite <- (take_drop bufsize l) at 1. rewrite Hd. by apply chomp_app.
Qed.

(** ** Facts: reading leaves the output side alone *)

Definition same_output (n n' : Net) : Prop :=
  wire n' = wire n /\ wsched n' = wsched n /\ wdl n' = wdl n /\ rdl n' = rdl n
  /\ now n <= now n'.

#[export] Instance same_output_pre : PreOrder same_output.
Proof.
  split; [intros n; unfold same_output; by split_and!|].
  intros a b c (?&?&?&?&?) (?&?&?&?&?). unfold same_output. split_and!; congruence || lia.
Qed.

Lemma wait_until_output t n : same_output n (wait_until t n).
Proof. unfold same_output. simpl. split_and!; auto. lia. Qed.

Lemma net_read_output cap n : same_output n (net_read cap n).1.
Proof.
  unfold net_read. destruct (inbox n) as [|[t it] rest].
  - destruct (rdl n); [apply wait_until_output | done].
  - destruct (match rdl n with Some _ => _ | None => _ end); [apply wait_until_output|].
    destruct (deliver _ _ _ _ _) as [n1 res] eqn:Hd. simpl.
    etrans; [apply (wait_until_output t)|].
    unfold deliver in Hd. repeat case_match; injection Hd as <- <-; by split_and!.
Qed.

Lemma fill_go_output k r n : same_output n (fill_go k r n).1.
Proof.
  revert n. induction k as [|k IH]; intros n; cbn [fill_go]; [done|].
  pose proof (net_read_output (bufsize - length (rbuf r)) n) as Hr.
  destruct (net_read _ n) as [n1 [[bs e]|]]; simpl in *; [|done].
  destruct e; [done|]. destruct bs; [|done]. by etrans.
Qed.

Lemma ReadSlice_go_output k r n : same_output n (ReadSlice_go k r n).1.
Proof.
  revert r n. induction k as [|k IH]; intros r n; cbn [ReadSlice_go]; [done|].
  destruct (index_byte _ _); [done|]. destruct (rerr r); [done|].
  destruct (_ <=? _)%nat; [done|]. unfold fill.
  pose proof (fill_go_output 100 r n) as Hf.
  destruct (fill_go 100 r n) as [n1 [r1|]]; simpl in *; [|done]. by etrans.
Qed.

Lemma ReadLine_output r n : same_output n (ReadLine r n).1.
Proof.
  unfold ReadLine, ReadSlice. pose proof (ReadSlice_go_output (bufsize + 2) r n) as Hs.
  destruct (ReadSlice_go _ r n) as [n1 [[r1 [l e]]|]]; simpl in *; [|done].
  destruct e; [done| |]; by repeat case_match.
Qed.

(** ** Facts: a working writer accepts everything, in order *)

#[export] Instance same_input_pre : PreOrder same_input.
Proof.
  split; [intros n; by split_and!|].
  intros a b c (?&?&?) (?&?&?). split_and!; congruence.
Qed.

Lemma net_write_ok wt p w n :
  writable wt w n ->
  exists n', net_write wt p n = (n', IoVal (length p, None))
    /\ wire n' = wire n ++ p /\ same_input n n'
    /\ Forall (fun x => x = WOk) (wsched n') /\ in_time wt n' /\ (wt <= 0 -> wdl n' = wdl n).
Proof.
  intros (_ & _ & Hs & Hd). unfold net_write, in_time in *.
  set (n1 := if 0 <? wt then _ else n).
  assert (match wdl n1 with Some d => d <=? now n1 | None => false end = false) as ->.
  { subst n1. destruct (0 <? wt) eqn:E; bool_hyps; simpl; [apply Z.leb_gt; lia|].
    destruct Hd as [?|Hd]; [lia|]. destruct (wdl n); [by apply Z.leb_gt | done]. }
  assert (wire n1 = wire n /\ wsched n1 = wsched n /\ same_input n n1 /\ in_time wt n1
          /\ (wt <= 0 -> wdl n1 = wdl n)) as (Hw1 & Hs1 & Hi1 & Hd1 & He1).
  { subst n1. unfold in_time. destruct (0 <? wt) eqn:E; bool_hyps; split_and!; auto; try by split_and!.
    lia. }
  rewrite Hs1. destruct (wsched n) as [|x s].
  - exists (send p n1). simpl. rewrite Hw1, Hs1. split_and!; auto.
  - inv Hs. exists (send p (set_wsched s n1)). simpl. rewrite Hw1. split_and!; auto.
Qed.

Lemma writable_empty wt n :
  Forall (fun x => x = WOk) (wsched n) -> in_time wt n ->
  writable wt (mkWriter [] None) n.
Proof. intros Hs Hd. repeat split; auto. simpl. lia. Qed.

Lemma Flush_ok wt w n :
  writable wt w n ->
  exists n', Flush wt w n = (n', IoVal (mkWriter [] None, None))
    /\ writable wt (mkWriter [] None) n' /\ wire n' = written w n /\ same_input n n'.
Proof.
  intros Hw. pose proof Hw as (He & Hb & Hs & Hd). unfold Flush, written. rewrite He.
  destruct (wbuf w) as [|b bs] eqn:Eb.
  - exists n. destruct w; simpl in *; subst. rewrite app_nil_r.
    split_and!; auto using writable_empty; by split_and!.
  - destruct (net_write_ok wt (b :: bs) w n Hw) as (n' & -> & Hwire & Hi & Hs' & Hd' & _).
    cbn [io_bind]. rewrite Nat.ltb_irrefl. exists n'. split_and!; auto using writable_empty.
Qed.

(** Enough rounds for the rest of [p]: two per byte, one more when the buffer
    is full, one to finish. *)
Definition write_rounds (p : bytes) (w : Writer_) : nat :=
  (2 * length p + (if (Available w =? 0)%nat then 1 else 0) + 1)%nat.

Lemma write_go_ok direct wt k p w n :
  writable wt w n -> (write_rounds p w <= k)%nat ->
  exists w' n', write_go direct wt k p w n = (n', IoVal (w', None))
    /\ writable wt w' n' /\ written w' n' = written w n ++ p /\ same_input n n'.
Proof.
  pose proof bufsize_ge as Hbs. revert p w n. induction k as [|k IH]; intros p w n Hw Hk.
  { unfold write_rounds in Hk. lia. }
  cbn [write_go]. pose proof Hw as (He & Hb & Hs & Hd). rewrite He, andb_true_r.
  destruct (Nat.ltb_spec (Available w) (length p)) as [Hlt|Hge].
  - destruct (direct && match wbuf w with [] => true | _ => false end) eqn:Edir.
    + apply andb_true_iff in Edir as [-> Eb]. destruct (wbuf w) eqn:Ewb; [clear Eb|done].
      destruct (net_write_ok wt p w n Hw) as (n' & -> & Hwire & Hi & Hs' & Hd' & _).
      cbn [io_bind]. rewrite drop_all.
      assert (writable wt (mkWriter [] None) n') as Hw' by auto using writable_empty.
      destruct (IH [] (mkWriter [] None) n' Hw') as (w2 & n2 & E2 & Hw2 & Hwr & Hi2).
      { unfold write_rounds in *. cbn [length]. unfold Available in Hlt at 1.
        destruct (Available (mkWriter [] None) =? 0)%nat, (Available w =? 0)%nat; lia. }
      exists w2, n2. split_and!; auto.
      * rewrite Hwr. unfold written. rewrite Ewb, Hwire. simpl. by rewrite !app_nil_r.
      * by etrans.
    + assert (writable wt (mkWriter (wbuf w ++ take (Available w) p) None) n) as Hwa.
      { unfold writable; simpl; split_and!; auto.
        rewrite length_app, length_take. unfold Available. lia. }
      destruct (Flush_ok _ _ _ Hwa) as (n1 & -> & Hw1 & Hwire & Hi1). cbn [io_bind fst].
      destruct (IH (drop (Available w) p) (mkWriter [] None) n1 Hw1) as (w2 & n2 & E2 & Hw2 & Hwr & Hi2).
      { unfold write_rounds in *. rewrite length_drop. unfold Available in *. simpl.
        rewrite Nat.sub_0_r. destruct (Nat.eqb_spec bufsize 0); [lia|].
        destruct (Nat.eqb_spec (bufsize - length (wbuf w)) 0); lia. }
      exists w2, n2. split_and!; auto.
      * rewrite Hwr. unfold written at 1. simpl. rewrite Hwire. unfold written. simpl.
        by rewrite app_nil_r, <- !app_assoc, take_drop.
      * by etrans.
  - eexists _, n. split; [reflexivity|].
    split; [|unfold written; simpl; split; [by rewrite app_assoc | by split_and!]].
    unfold writable; simpl; split_and!; auto. rewrite length_app. unfold Available in Hge. lia.
Qed.

Lemma wr_Write_ok wt p w n :
  writable wt w n ->
  exists w' n', wr_Write wt p w n = (n', IoVal (w', None))
    /\ writable wt w' n' /\ written w' n' = written w n ++ p /\ same_input n n'.
Proof.
  intros Hw. apply write_go_ok; [done|]. unfold write_rounds. case_match; lia.
Qed.

Lemma wr_WriteString_ok wt p w n :
  writable wt w n ->
  exists w' n', wr_WriteString wt p w n = (n', IoVal (w', None))
    /\ writable wt w' n' /\ written w' n' = written w n ++ p /\ same_input n n'.
Proof.
  intros Hw. apply write_go_ok; [done|]. unfold write_rounds. case_match; lia.
Qed.

(** ** Facts: writing leaves the input alone *)

Definition input_kept (n n' : Net) : Prop := inbox n' = inbox n /\ rdl n' = rdl n /\ now n <= now n'.

#[export] Instance input_kept_pre : PreOrder input_kept.
Proof.
  split; [intros n; split_and!; [done|done|lia]|].
  intros a b c (?&?&?) (?&?&?). split_and!; congruence || lia.
Qed.

Lemma same_input_kept n n' : same_input n n' -> input_kept n n'.
Proof. intros (Hn & Hi & Hr). split_and!; [done|done|lia]. Qed.

Lemma net_write_input wt p n : input_kept n (net_write wt p n).1.
Proof.
  unfold net_write. set (n1 := if 0 <? wt then _ else n).
  assert (input_kept n n1) as H1 by (subst n1; case_match; split_and!; simpl; auto; lia).
  etrans; [exact H1|]. clearbody n1.
  repeat case_match; split_and!; simpl; auto; lia.
Qed.

Lemma Flush_input wt w n : input_kept n (Flush wt w n).1.
Proof.
  unfold Flush. destruct (werr w); [done|]. destruct (wbuf w) as [|b l]; [done|].
  pose proof (net_write_input wt (b :: l) n) as Hw.
  destruct (net_write wt (b :: l) n) as [n1 [[k e]|]]; simpl in *; [|done].
  by destruct (match e with Some _ => _ | None => _ end).
Qed.

Lemma write_go_input direct wt k p w n : input_kept n (write_go direct wt k p w n).1.
Proof.
  revert p w n. induction k as [|k IH]; intros p w n; cbn [write_go]; [done|].
  destruct (_ && _); [|by destruct (werr w)].
  destruct (direct && _).
  - pose proof (net_write_input wt p n) as Hw.
    destruct (net_write wt p n) as [n1 [[m e]|]]; simpl in *; [|done]. by etrans.
  - pose proof (Flush_input wt (mkWriter (wbuf w ++ take (Available w) p) (werr w)) n) as Hw.
    destruct (Flush _ _ n) as [n1 [[w1 e]|]]; simpl in *; [|done]. by etrans.
Qed.
