(* ===== verification/NetLive.v ===== *)
(** * Buffered I/O under deadlines always returns

    With a read deadline no read blocks, with a write timeout no write does; the
    rounds given to the loops of [bufio] are enough with or without. *)
From S2P Require Import Prelude GoStrings Errors DotStuff Net.

(** The operation returned. *)
Definition returns {A} (r : Net * io A) : Prop := match r.2 with IoVal _ => True | IoBlock => False end.

(** ** Writing *)

(** A write has a deadline. *)
Definition bounded_w (wt : Z) (n : Net) : Prop := 0 < wt \/ is_Some (wdl n).

Lemma net_write_returns wt p n : bounded_w wt n -> returns (net_write wt p n).
Proof.
  intros Hw. unfold net_write. set (n1 := if 0 <? wt then _ else n).
  assert (is_Some (wdl n1)) as [d Hd].
  { subst n1. destruct (Z.ltb_spec 0 wt); [by eexists|]. destruct Hw; [lia | done]. }
  rewrite Hd. destruct (_ <=? _); [done|]. destruct (wsched n1) as [|[| |] s]; try done.
  simpl. by rewrite Hd.
Qed.

Lemma net_write_bounded wt p n : bounded_w wt n -> bounded_w wt (net_write wt p n).1.
Proof.
  intros [Hw|Hw]; [by left|]. right. unfold net_write. set (n1 := if 0 <? wt then _ else n).
  assert (is_Some (wdl n1)) as Hd by (subst n1; by destruct (0 <? wt)).
  clearbody n1. repeat case_match; simplify_eq/=; done.
Qed.

Lemma net_write_full wt p n n' k : net_write wt p n = (n', IoVal (k, None)) -> k = length p.
Proof.
  unfold net_write. intros H. repeat case_match; try done; injection H as _ <-; try done.
Qed.

Lemma Flush_bounded wt w n : bounded_w wt n -> bounded_w wt (Flush wt w n).1.
Proof.
  intros Hw. unfold Flush. destruct (werr w); [done|]. destruct (wbuf w) as [|b l]; [done|].
  pose proof (net_write_bounded wt (b :: l) n Hw).
  destruct (net_write wt (b :: l) n) as [n1 [[k e]|]]; [|done]. simpl in *.
  by destruct (match e with Some _ => _ | None => _ end).
Qed.

Lemma Flush_returns wt w n : bounded_w wt n -> returns (Flush wt w n).
Proof.
  intros Hw. unfold Flush. destruct (werr w); [done|]. destruct (wbuf w) as [|b l]; [done|].
  pose proof (net_write_returns wt (b :: l) n Hw).
  destruct (net_write wt (b :: l) n) as [n1 [[k e]|]]; [|done]. cbn [io_bind].
  by destruct (match e with Some _ => _ | None => _ end).
Qed.

Lemma Flush_result wt w n n' w' e :
  Flush wt w n = (n', IoVal (w', e)) -> werr w' = e /\ (e = None -> wbuf w' = []).
Proof.
  unfold Flush. destruct (werr w) eqn:He; [intros [= <- <- <-]; by split|].
  destruct (wbuf w) as [|b l] eqn:Hb; [intros [= <- <- <-]; by split|].
  destruct (net_write wt (b :: l) n) as [n1 [[k e1]|]]; cbn [io_bind]; [|done].
  destruct (match e1 with Some _ => _ | None => _ end); intros [= <- <- <-]; by split.
Qed.

Lemma write_go_failed direct wt k p w n e :
  werr w = Some e -> (0 < k)%nat -> write_go direct wt k p w n = (n, IoVal (w, Some e)).
Proof. intros He Hk. destruct k; [lia|]. cbn [write_go]. by rewrite He, andb_false_r. Qed.

Lemma write_rounds_pos p w : (0 < write_rounds p w)%nat.
Proof. unfold write_rounds. case_match; lia. Qed.

(** Rounds left after the buffer was filled up and flushed. *)
Lemma write_rounds_flush p w w1 :
  (Available w < length p)%nat -> wbuf w1 = [] ->
  (write_rounds (drop (Available w) p) w1 < write_rounds p w)%nat.
Proof.
  pose proof bufsize_ge as Hbs. intros Hlt Hb.
  assert (Available w1 = bufsize) as Hfresh by (unfold Available; rewrite Hb; simpl; lia).
  unfold write_rounds. rewrite Hfresh, length_drop.
  destruct (Nat.eqb_spec bufsize 0); [lia|]. destruct (Nat.eqb_spec (Available w) 0); lia.
Qed.

(** Rounds left after everything was written past the buffer. *)
Lemma write_rounds_direct p w : (0 < length p)%nat -> (write_rounds [] (mkWriter [] None) < write_rounds p w)%nat.
Proof.
  pose proof bufsize_ge as Hbs. intros Hp. unfold write_rounds, Available. cbn [wbuf length].
  destruct (Nat.eqb_spec (bufsize - 0) 0); [lia|]. case_match; lia.
Qed.

Lemma write_go_returns direct wt k p w n :
  bounded_w wt n -> (write_rounds p w <= k)%nat -> returns (write_go direct wt k p w n).
Proof.
  revert p w n. induction k as [|k IH]; intros p w n Hw Hk; [pose proof (write_rounds_pos p w); lia|].
  cbn [write_go]. destruct (_ && _) eqn:Eg; [|by destruct (werr w)].
  apply andb_true_iff in Eg as [Hlt He]. apply Nat.ltb_lt in Hlt.
  destruct (werr w) eqn:Ew; [done|]. clear He.
  destruct (direct && _) eqn:Ed.
  - pose proof (net_write_returns wt p n Hw) as Hr. pose proof (net_write_bounded wt p n Hw) as Hw1.
    pose proof (write_rounds_direct p w ltac:(lia)) as Hd. pose proof (write_rounds_pos [] (mkWriter [] None)).
    destruct (net_write wt p n) as [n1 [[m e]|]] eqn:En; [|done]. cbn [io_bind]. clear Hr.
    destruct e as [e|]; [rewrite (write_go_failed _ _ _ _ _ _ e); done || lia|].
    apply net_write_full in En as ->. rewrite drop_all. apply IH; [done|lia].
  - pose proof (Flush_returns wt (mkWriter (wbuf w ++ take (Available w) p) None) n Hw) as Hr.
    pose proof (Flush_bounded wt (mkWriter (wbuf w ++ take (Available w) p) None) n Hw) as Hw1.
    pose proof (write_rounds_flush p w (mkWriter [] None) Hlt eq_refl).
    pose proof (write_rounds_pos (drop (Available w) p) (mkWriter [] None)).
    destruct (Flush _ _ n) as [n1 [[w1 e]|]] eqn:Ef; [|done]. cbn [io_bind fst]. clear Hr.
    apply Flush_result in Ef as [He1 Hb1].
    destruct e as [e|]; [rewrite (write_go_failed _ _ _ _ _ _ e); done || lia|].
    apply IH; [done|]. pose proof (write_rounds_flush p w w1 Hlt (Hb1 eq_refl)). lia.
Qed.

(** The loop of a write, as it stands in [bufio]. *)
Definition write_F (direct : bool) (wt : Z) (self : bytes * Writer_ * Net -> Net * io (Writer_ * option goerr))
    : bytes * Writer_ * Net -> Net * io (Writer_ * option goerr) := fun '(p, w, n) =>
  if (Available w <? length p)%nat && match werr w with None => true | _ => false end then
    if direct && match wbuf w with [] => true | _ => false end then
      io_bind (net_write wt p n) (fun res n' => self (drop res.1 p, mkWriter [] res.2, n'))
    else
      let m := Available w in
      io_bind (Flush wt (mkWriter (wbuf w ++ take m p) (werr w)) n) (fun res n' => self (drop m p, res.1, n'))
  else
    match werr w with
    | Some e => (n, IoVal (w, Some e))
    | None => (n, IoVal (mkWriter (wbuf w ++ p) None, None))
    end.

Lemma write_go_iter direct wt k p w n :
  write_go direct wt k p w n = Nat.iter k (write_F direct wt) (fun x => (x.2, IoBlock)) (p, w, n).
Proof.
  revert p w n. induction k as [|k IH]; intros p w n; [done|]. cbn [write_go Nat.iter nat_rect]. unfold write_F at 1.
  destruct (_ && _); [|done]. destruct (direct && _).
  - destruct (net_write wt p n) as [n1 [[m e]|]]; [|done]. apply IH.
  - destruct (Flush _ _ n) as [n1 [[w1 e]|]]; [|done]. apply IH.
Qed.

(** What a write still needs; nothing once it has failed. *)
Definition write_size (x : bytes * Writer_ * Net) : nat :=
  match werr x.1.2 with Some _ => 0 | None => pred (write_rounds x.1.1 x.1.2) end.

Lemma write_F_ends direct wt f f' x :
  (forall y, write_size y < write_size x -> f y = f' y)%nat -> write_F direct wt f x = write_F direct wt f' x.
Proof.
  destruct x as [[p w] n]. unfold write_size. cbn [fst snd]. intros Hf. unfold write_F.
  destruct (_ && _) eqn:Eg; [|done]. apply andb_true_iff in Eg as [Hlt He]. apply Nat.ltb_lt in Hlt.
  destruct (werr w) eqn:Ew; [done|]. clear He. pose proof (write_rounds_pos [] (mkWriter [] None)) as Hpos.
  pose proof (write_rounds_direct p w ltac:(lia)) as Hd.
  destruct (direct && _).
  - destruct (net_write wt p n) as [n1 [[m e]|]] eqn:En; [|done]. cbn [io_bind fst snd]. apply Hf. cbn [fst snd werr].
    destruct e; [lia|]. apply net_write_full in En as ->. rewrite drop_all. lia.
  - destruct (Flush _ _ n) as [n1 [[w1 e]|]] eqn:Ef; [|done]. cbn [io_bind fst snd]. apply Hf. cbn [fst snd].
    apply Flush_result in Ef as [He1 Hb1]. rewrite He1. destruct e; [lia|].
    pose proof (write_rounds_flush p w w1 Hlt (Hb1 eq_refl)). pose proof (write_rounds_pos (drop (Available w) p) w1). lia.
Qed.

Lemma wr_Write_returns wt p w n : bounded_w wt n -> returns (wr_Write wt p w n).
Proof. intros Hw. apply write_go_returns; [done|]. unfold write_rounds. case_match; lia. Qed.

Lemma wr_WriteString_returns wt p w n : bounded_w wt n -> returns (wr_WriteString wt p w n).
Proof. intros Hw. apply write_go_returns; [done|]. unfold write_rounds. case_match; lia. Qed.

(** ** Reading *)

Lemma net_read_returns cap n : is_Some (rdl n) -> returns (net_read cap n).
Proof.
  intros [d Hd]. unfold net_read. rewrite Hd. destruct (inbox n) as [|[t it] rest]; [done|].
  destruct (_ <=? _); [done|]. by destruct (deliver _ _ _ _ _).
Qed.

Lemma fill_go_returns k r n : is_Some (rdl n) -> returns (fill_go k r n).
Proof.
  revert n. induction k as [|k IH]; intros n Hd; cbn [fill_go]; [done|].
  pose proof (net_read_returns (bufsize - length (rbuf r)) n Hd) as Hr.
  pose proof (net_read_output (bufsize - length (rbuf r)) n) as (_&_&_&Hrd&_).
  destruct (net_read _ n) as [n1 [[bs e]|]]; cbn [io_bind fst] in *; [|done].
  destruct e; [done|]. destruct bs; [|done]. apply IH. by rewrite Hrd.
Qed.

Lemma fill_go_grows k r n n' r' :
  fill_go k r n = (n', IoVal r') -> (length (rbuf r) <= length (rbuf r'))%nat
  /\ (rerr r' <> None \/ (length (rbuf r) < length (rbuf r'))%nat).
Proof.
  revert n. induction k as [|k IH]; intros n; cbn [fill_go].
  - intros [= <- <-]. split; [done | by left].
  - destruct (net_read _ n) as [n1 [[bs e]|]]; cbn [io_bind]; [|done].
    destruct e; [|destruct bs; [apply IH|]]; intros [= <- <-]; simpl; rewrite length_app;
      (split; [lia|]); [by left | right; simpl; lia].
Qed.

(** Rounds [ReadSlice] still needs. *)
Definition slice_rounds (r : Reader) : nat :=
  (bufsize - length (rbuf r) + match rerr r with None => 2 | Some _ => 1 end)%nat.

Lemma slice_rounds_pos r : (0 < slice_rounds r)%nat.
Proof. unfold slice_rounds. case_match; lia. Qed.

(** Rounds left after the buffer was filled. *)
Lemma slice_rounds_fill r n n1 r1 :
  rerr r = None -> (length (rbuf r) < bufsize)%nat -> fill r n = (n1, IoVal r1) ->
  (slice_rounds r1 < slice_rounds r)%nat.
Proof.
  intros Er Hl Hf. apply fill_go_grows in Hf as [? Hg]. unfold slice_rounds. rewrite Er.
  destruct Hg as [?|?], (rerr r1); done || lia.
Qed.

Lemma ReadSlice_go_returns k r n :
  is_Some (rdl n) -> (slice_rounds r <= k)%nat -> returns (ReadSlice_go k r n).
Proof.
  revert r n. induction k as [|k IH]; intros r n Hd Hk; [pose proof (slice_rounds_pos r); lia|].
  cbn [ReadSlice_go]. destruct (index_byte _ _); [done|]. destruct (rerr r) eqn:Er; [done|].
  destruct (Nat.leb_spec bufsize (length (rbuf r))); [done|].
  pose proof (fill_go_returns 100 r n Hd) as Hr. pose proof (fill_go_output 100 r n) as (_&_&_&Hrd&_).
  pose proof (slice_rounds_fill r n) as Ef. unfold fill in *.
  destruct (fill_go 100 r n) as [n1 [r1|]]; cbn [io_bind fst] in *; [|done].
  apply IH; [by rewrite Hrd|]. specialize (Ef _ _ Er ltac:(done) eq_refl). lia.
Qed.

(** The loop that searches for a line's end. *)
Definition ReadSlice_F (self : Reader * Net -> Net * io (Reader * (bytes * slice_end)))
    : Reader * Net -> Net * io (Reader * (bytes * slice_end)) := fun '(r, n) =>
  match index_byte (rbuf r) LF with
  | Some i => (n, IoVal (mkReader (drop (i + 1) (rbuf r)) (rerr r), (take (i + 1) (rbuf r), SDelim)))
  | None =>
    match rerr r with
    | Some e => (n, IoVal (mkReader [] None, (rbuf r, SErr e)))
    | None =>
      if (bufsize <=? length (rbuf r))%nat then (n, IoVal (mkReader [] None, (rbuf r, SFull)))
      else io_bind (fill r n) (fun r' n' => self (r', n'))
    end
  end.

Lemma ReadSlice_go_iter k r n :
  ReadSlice_go k r n = Nat.iter k ReadSlice_F (fun x => (x.2, IoBlock)) (r, n).
Proof.
  revert r n. induction k as [|k IH]; intros r n; [done|]. cbn [ReadSlice_go Nat.iter nat_rect]. unfold ReadSlice_F at 1.
  destruct (index_byte _ _); [done|]. destruct (rerr r); [done|]. destruct (_ <=? _)%nat; [done|].
  destruct (fill r n) as [n1 [r1|]]; [|done]. apply IH.
Qed.

Lemma ReadSlice_F_ends f f' x :
  (forall y, slice_rounds y.1 < slice_rounds x.1 -> f y = f' y)%nat -> ReadSlice_F f x = ReadSlice_F f' x.
Proof.
  destruct x as [r n]. cbn [fst]. intros Hf. unfold ReadSlice_F.
  destruct (index_byte _ _); [done|]. destruct (rerr r) eqn:Er; [done|].
  destruct (Nat.leb_spec bufsize (length (rbuf r))); [done|].
  destruct (fill r n) as [n1 [r1|]] eqn:Ef; [|done]. cbn [io_bind]. apply Hf. by eapply slice_rounds_fill.
Qed.

Lemma ReadLine_returns r n : is_Some (rdl n) -> returns (ReadLine r n).
Proof.
  intros Hd. unfold ReadLine, ReadSlice.
  pose proof (ReadSlice_go_returns (bufsize + 2) r n Hd) as Hr.
  destruct (ReadSlice_go _ r n) as [n1 [[r1 [l e]]|]]; cbn [io_bind].
  - destruct e; [done| |]; repeat case_match; done.
  - destruct Hr. unfold slice_rounds. case_match; lia.
Qed.

(** A partial line is not empty. *)
Lemma ReadLine_prefix r n n' r' l :
  ReadLine r n = (n', IoVal (r', (l, true, None))) -> l <> [].
Proof.
  unfold ReadLine, ReadSlice. pose proof bufsize_ge.
  destruct (ReadSlice_go _ r n) as [n1 [[r1 [s e]]|]] eqn:E; cbn [io_bind]; [|done].
  apply ReadSlice_go_weight in E as [_ He]. destruct e; [done| |].
  - destruct s; done.
  - destruct (match last s with Some _ => _ | None => _ end); intros [= _ _ <-] Hn;
      apply (f_equal length) in Hn; rewrite ?length_take in Hn; simpl in *; lia.
Qed.
