(* ===== verification/Session.v ===== *)
(** * pop3server/session.go and body.go: the Session interface

    A session is consumer code: a state type with one operation per interface
    method.  A method may use the exported methods of the [*Conn] it was created
    with, so it is a program that asks for them and finally returns, or
    panics. *)
From S2P Require Import Prelude Errors.

(** The context a method receives: its deadline, and the time at which the
    server's context is cancelled. *)
Record Context := mkContext { ctx_deadline : option Z; ctx_cancel : option Z }.

Definition min_opt (a b : option Z) : option Z :=
  match a, b with
  | Some x, Some y => Some (Z.min x y)
  | Some x, None | None, Some x => Some x
  | None, None => None
  end.

(** When [ctx.Done()] is closed. *)
Definition ctx_done (c : Context) : option Z := min_opt (ctx_deadline c) (ctx_cancel c).

(** [context.WithTimeout(c, d)] at time [t]. *)
Definition WithTimeout (c : Context) (t d : Z) : Context :=
  mkContext (min_opt (ctx_deadline c) (Some (t + d))) (ctx_cancel c).

(** A call into consumer code that ends in session state [S] with a result [A].
    [PHijack], [POK], [PErr], [PSetTLS], [PIsTLS] are the exported methods of
    [*Conn]; [PWork d] is [d] nanoseconds of the consumer's own work. *)
Inductive Prog (S A : Type) :=
| PRet (s : S) (a : A)
| PPanic (s : S)
| PHijack (k : option goerr -> Prog S A)
| POK (msg : bytes) (k : Prog S A)
| PErr (msg : bytes) (k : Prog S A)
| PSetTLS (v : bool) (k : Prog S A)
| PIsTLS (k : bool -> Prog S A)
| PWork (d : Z) (k : Prog S A).
Arguments PRet {S A}.
Arguments PPanic {S A}.
Arguments PHijack {S A}.
Arguments POK {S A}.
Arguments PErr {S A}.
Arguments PSetTLS {S A}.
Arguments PIsTLS {S A}.
Arguments PWork {S A}.

(** A message body: the chunks its [Read] yields, the error that ends it when
    that is not [io.EOF], and the octet count of a [sizedBody].  A [Read] here
    returns at once: one that panics, blocks or takes time is not modelled. *)
Record Body := mkBody {
  body_chunks : list bytes;
  body_err : option goerr;
  body_octets : option Z
}.

(** [SizedBody]. *)
Definition SizedBody (body : Body) (octets : Z) : Body :=
  mkBody (body_chunks body) (body_err body) (Some octets).

Record LanguageInfo := mkLanguageInfo { li_Tag : bytes; li_Description : bytes }.

(** [SessionSASL], [SessionLang], [SessionUTF8]: what each adds to [Session]. *)
Record SessionSASL (S : Type) := mkSASL {
  AuthenticateMechanisms : S -> Prog S (list bytes);
  AuthenticatePlain : Context -> bytes -> bytes -> bytes -> S -> Prog S (option goerr)
}.

Record SessionLang (S : Type) := mkLang {
  SetLanguage : Context -> bytes -> S -> Prog S (result bytes);
  ListLanguages : Context -> S -> Prog S (result (list LanguageInfo))
}.

Record SessionUTF8 (S : Type) := mkUTF8 {
  EnableUTF8 : Context -> S -> Prog S (option goerr)
}.
Arguments AuthenticateMechanisms {S}.
Arguments AuthenticatePlain {S}.
Arguments SetLanguage {S}.
Arguments ListLanguages {S}.
Arguments EnableUTF8 {S}.

(** [Session]; the last three are the type assertions the library makes. *)
Class Session (S : Type) := {
  s_Close : S -> Prog S unit;
  s_Login : Context -> bytes -> bytes -> S -> Prog S (option goerr);
  s_Stat : Context -> S -> Prog S (result (Z * Z));
  s_List : Context -> Z -> S -> Prog S (result (list MessageInfo));
  s_Uidl : Context -> Z -> S -> Prog S (result (list MessageUidl));
  s_Retr : Context -> Z -> S -> Prog S (result Body);
  s_Top : Context -> Z -> Z -> S -> Prog S (result Body);
  s_Dele : Context -> Z -> S -> Prog S (option goerr);
  s_Rset : Context -> S -> Prog S (option goerr);
  s_Noop : Context -> S -> Prog S (option goerr);
  s_Quit : Context -> S -> Prog S (result Z);
  as_SASL : S -> option (SessionSASL S);
  as_Lang : S -> option (SessionLang S);
  as_UTF8 : S -> option (SessionUTF8 S)
}.

(** The methods, as the connection's event log names them. *)
Inductive method :=
| MClose | MLogin | MStat | MList | MUidl | MRetr | MTop | MDele | MRset | MNoop | MQuit
| MAuthenticateMechanisms | MAuthenticatePlain | MSetLanguage | MListLanguages | MEnableUTF8.

#[export] Instance method_eq_dec : EqDecision method.
Proof. solve_decision. Defined.

(** A program that leaves the connection's TLS flag alone. *)
Inductive keeps_tls {S A} : Prog S A -> Prop :=
| kt_ret s a : keeps_tls (PRet s a)
| kt_panic s : keeps_tls (PPanic s)
| kt_hijack k : (forall r, keeps_tls (k r)) -> keeps_tls (PHijack k)
| kt_ok m k : keeps_tls k -> keeps_tls (POK m k)
| kt_err m k : keeps_tls k -> keeps_tls (PErr m k)
| kt_istls k : (forall b, keeps_tls (k b)) -> keeps_tls (PIsTLS k)
| kt_work d k : keeps_tls k -> keeps_tls (PWork d k).

(** The documented use of [SetTLS] is in [NewSession]: a session's methods do
    not change the TLS flag. *)
Class TLSStable (S : Type) `{Session S} := {
  ts_mechs : forall x s, as_SASL s = Some x -> forall s', keeps_tls (AuthenticateMechanisms x s')
}.
