(* ===== verification/Options.v ===== *)
(** * pop3server/options.go: the server's configuration

    [Options], the defaults that replace zero values, the timeout kinds. *)
From S2P Require Import Prelude Errors Session.

Definition Millisecond : Z := 1000000.
Definition Second : Z := 1000 * Millisecond.
Definition Minute : Z := 60 * Second.

Definition defaultMaxErrorDelay : Z := 30 * Second.
Definition defaultWriteTimeout : Z := 60 * Second.

(** The kinds reported to [OnTimeout]. *)
Inductive timeout_kind := TimeoutIdle | TimeoutAbsolute.

(** [Options].  A hook is the fact that it is set ([OnCommand], [OnPanic],
    [OnTimeout]: its calls are events); [TLSConfig] is whether one is set, the
    handshake being the environment's.  The logger is left out. *)
Record Options (S : Type) := mkOptions {
  NewSession : Prog unit (result S);
  TLSConfig : bool;
  Caps : list Capability;
  SuppressedCaps : list bytes;
  IdleTimeout : Z;
  AuthIdleTimeout : Z;
  AbsoluteSessionTimeout : Z;
  CommandTimeout : Z;
  WriteTimeout : Z;
  InsecureAuth : bool;
  MaxLineLength : Z;
  MaxErrors : Z;
  AuthFailuresExemptFromMaxErrors : bool;
  ErrorDelay : Z;
  MaxErrorDelay : Z;
  Greeting : bytes;
  RejectMessage : bytes;
  StrictSessionErrors : bool;
  UnknownCommandHandler : option (Context -> bytes -> list bytes -> S -> Prog S (bool * bool));
  OnCommand : bool;
  OnPanic : bool;
  OnTimeout : bool
}.
Arguments mkOptions {S}.
Arguments NewSession {S}.
Arguments TLSConfig {S}.
Arguments Caps {S}.
Arguments SuppressedCaps {S}.
Arguments IdleTimeout {S}.
Arguments AuthIdleTimeout {S}.
Arguments AbsoluteSessionTimeout {S}.
Arguments CommandTimeout {S}.
Arguments WriteTimeout {S}.
Arguments InsecureAuth {S}.
Arguments MaxLineLength {S}.
Arguments MaxErrors {S}.
Arguments AuthFailuresExemptFromMaxErrors {S}.
Arguments ErrorDelay {S}.
Arguments MaxErrorDelay {S}.
Arguments Greeting {S}.
Arguments RejectMessage {S}.
Arguments StrictSessionErrors {S}.
Arguments UnknownCommandHandler {S}.
Arguments OnCommand {S}.
Arguments OnPanic {S}.
Arguments OnTimeout {S}.

(** The zero value of a field is replaced by its default. *)
Definition or_default (v d : Z) : Z := if v =? 0 then d else v.
Definition or_default_text (v d : bytes) : bytes := if is_nil v then d else v.

Definition defaults {S} (o : Options S) : Options S := {|
  NewSession := NewSession o;
  TLSConfig := TLSConfig o;
  Caps := Caps o;
  SuppressedCaps := SuppressedCaps o;
  IdleTimeout := or_default (IdleTimeout o) (10 * Minute);
  AuthIdleTimeout := AuthIdleTimeout o;
  AbsoluteSessionTimeout := AbsoluteSessionTimeout o;
  CommandTimeout := CommandTimeout o;
  WriteTimeout := or_default (WriteTimeout o) defaultWriteTimeout;
  InsecureAuth := InsecureAuth o;
  MaxLineLength := or_default (MaxLineLength o) 1024;
  MaxErrors := or_default (MaxErrors o) 10;
  AuthFailuresExemptFromMaxErrors := AuthFailuresExemptFromMaxErrors o;
  ErrorDelay := ErrorDelay o;
  MaxErrorDelay := or_default (MaxErrorDelay o) defaultMaxErrorDelay;
  Greeting := or_default_text (Greeting o) (str "POP3 server ready");
  RejectMessage := or_default_text (RejectMessage o) (str "Service not available");
  StrictSessionErrors := StrictSessionErrors o;
  UnknownCommandHandler := UnknownCommandHandler o;
  OnCommand := OnCommand o;
  OnPanic := OnPanic o;
  OnTimeout := OnTimeout o
|}.

(** Resolving twice changes nothing, and a resolved configuration has no zero
    where the library divides its behaviour on zero. *)
Lemma defaults_idempotent {S} (o : Options S) : defaults (defaults o) = defaults o.
Proof.
  unfold defaults; simpl. f_equal; unfold or_default, or_default_text; repeat case_match; try done;
    bool_hyps; congruence.
Qed.
