(* ===== verification/Mem.v ===== *)
(** * pop3mem/store.go: the in-memory maildrop

    The store, its operations, and the session that snapshots a maildrop at
    login, marks deletions and expunges them at QUIT.  Messages are shared by
    pointer between the store and the snapshots; a pointer is an address. *)
From stdpp Require Import gmap.
From S2P Require Import Prelude GoStrings Errors Session.

#[export] Instance byte_countable : Countable byte :=
  inj_countable Strings.Byte.to_N Strings.Byte.of_N Strings.Byte.of_to_N.

(** ** The store *)

(** [*Message]: [addr] is the pointer; the fields are never written after the
    message is created. *)
Record MessageRef := mkMessage { addr : nat; UID : bytes; Data : bytes }.

Record account := mkAccount { password : bytes; messages : list MessageRef }.

(** [next] is the next fresh address. *)
Record Store := mkStore { users : gmap bytes account; next : nat }.

Definition New : Store := mkStore ∅ 0.

Definition AddUser (s : Store) (name pass : bytes) : Store :=
  mkStore (<[name := mkAccount pass []]> (users s)) (next s).

(** The one error of [AddMessage]: [fmt.Errorf("pop3mem: unknown user %q", name)]. *)
Inductive AddError := UnknownUser (name : bytes).

Definition AddMessage (s : Store) (name uid data : bytes) : Store * option AddError :=
  match users s !! name with
  | None => (s, Some (UnknownUser name))
  | Some acc =>
    (mkStore (<[name := mkAccount (password acc)
                          (messages acc ++ [mkMessage (next s) uid data])]> (users s))
       (Datatypes.S (next s)), None)
  end.

Definition dummyPassword : bytes := NUL :: str "pop3mem-nonexistent-account" ++ [NUL].

(** [authenticate]; [subtle.ConstantTimeCompare(a, b) == 1] is equality. *)
Definition authenticate (s : Store) (name pass : bytes) : option (list MessageRef) :=
  let acc := users s !! name in
  let stored := match acc with Some a => password a | None => dummyPassword end in
  let matches := stored =s? pass in
  match acc with
  | Some a => if matches then Some (messages a) else None
  | None => None
  end.

(** [expunge]: messages are removed by pointer identity. *)
Definition expunge (s : Store) (name : bytes) (remove : gset nat) : Store * Z :=
  if bool_decide (remove = ∅) then (s, 0)
  else match users s !! name with
  | None => (s, 0)
  | Some acc =>
    let kept := List.filter (fun m => negb (bool_decide (addr m ∈ remove))) (messages acc) in
    let gone := List.filter (fun m => bool_decide (addr m ∈ remove)) (messages acc) in
    (mkStore (<[name := mkAccount (password acc) kept]> (users s)) (next s), blen gone)
  end.

(** ** topBytes *)

(** The loop over the body: at most [n] lines. *)
Fixpoint top_lines (k : nat) (n : Z) (body : bytes) : bytes :=
  match k with
  | O => []
  | Datatypes.S k' =>
    match body with
    | [] => []
    | _ =>
      if n <=? 0 then []
      else match index_byte body LF with
           | None => body
           | Some i => take (i + 1) body ++ top_lines k' (n - 1) (drop (i + 1) body)
           end
    end
  end.

(** Where the header block ends, and the length of the separator. *)
Definition header_end (data : bytes) : option (nat * nat) :=
  match index_sub data (crlf ++ crlf) with
  | Some i => Some (i, 4%nat)
  | None => match index_sub data [LF; LF] with
            | Some i => Some (i, 2%nat)
            | None => None
            end
  end.

Definition topBytes (data : bytes) (n : Z) : bytes :=
  match header_end data with
  | None => data
  | Some (sep, sepLen) =>
    let body := drop (sep + sepLen) data in
    take (sep + sepLen) data
    ++ (if n <=? 0 then [] else top_lines (length body) n body)
  end.

(** ** The session *)

(** [session]; [deleted] is the set of keys of the map, whose values are only
    ever [true]. *)
Record session := mkSession {
  s_username : bytes;
  s_msgs : list MessageRef;
  s_deleted : gset Z
}.

(** [NewSession]. *)
Definition NewSession : session := mkSession [] [] ∅.

(** [s.deleted[i]]. *)
Definition is_deleted (s : session) (i : Z) : bool := bool_decide (i ∈ s_deleted s).

Definition auth_failed : goerr := EPop3 (mkError (str "AUTH") (str "authentication failed") false).
Definition no_such : goerr := EPop3 (mkError [] (str "no such message") false).
Definition msg_deleted : goerr := EPop3 (mkError [] (str "message is deleted") false).
Definition already_deleted : goerr := EPop3 (mkError [] (str "message already deleted") false).

Definition Login (st : Store) (s : session) (name pass : bytes) : session * option goerr :=
  match authenticate st name pass with
  | None => (s, Some auth_failed)
  | Some msgs => (mkSession name msgs (s_deleted s), None)
  end.

Definition in_range (s : session) (msg : Z) : bool := (1 <=? msg) && (msg <=? blen (s_msgs s)).

Definition msgAt (s : session) (msg : Z) : result MessageRef :=
  if negb (in_range s msg) then inr no_such
  else if is_deleted s msg then inr msg_deleted
  else match s_msgs s !! Z.to_nat (msg - 1) with
       | Some m => inl m
       | None => inr no_such
       end.

(** The loops over the snapshot: [i] is the 1-based number of the head. *)
Fixpoint live_from (s : session) (i : Z) (l : list MessageRef) : list (Z * MessageRef) :=
  match l with
  | [] => []
  | m :: l' => (if is_deleted s i then [] else [(i, m)]) ++ live_from s (i + 1) l'
  end.

(** The undeleted messages with their numbers. *)
Definition live (s : session) : list (Z * MessageRef) := live_from s 1 (s_msgs s).

Fixpoint stat_from (s : session) (i count size : Z) (l : list MessageRef) : Z * Z :=
  match l with
  | [] => (count, size)
  | m :: l' =>
    if is_deleted s i then stat_from s (i + 1) count size l'
    else stat_from s (i + 1) (count + 1) (size + blen (Data m)) l'
  end.

Definition Stat (s : session) : Z * Z := stat_from s 1 0 0 (s_msgs s).

Definition List_ (s : session) (msg : Z) : result (list MessageInfo) :=
  if 0 <? msg then
    match msgAt s msg with
    | inr e => inr e
    | inl m => inl [mkMessageInfo msg (blen (Data m))]
    end
  else inl (map (fun im => mkMessageInfo im.1 (blen (Data im.2))) (live s)).

Definition Uidl (s : session) (msg : Z) : result (list MessageUidl) :=
  if 0 <? msg then
    match msgAt s msg with
    | inr e => inr e
    | inl m => inl [mkMessageUidl msg (UID m)]
    end
  else inl (map (fun im => mkMessageUidl im.1 (UID im.2)) (live s)).

(** [io.NopCloser(bytes.NewReader(data))]: one chunk, then EOF. *)
Definition bytes_body (data : bytes) : Body := mkBody [data] None None.

Definition Retr (s : session) (msg : Z) : result Body :=
  match msgAt s msg with
  | inr e => inr e
  | inl m => inl (bytes_body (Data m))
  end.

Definition Top (s : session) (msg lines : Z) : result Body :=
  match msgAt s msg with
  | inr e => inr e
  | inl m => inl (bytes_body (topBytes (Data m) lines))
  end.

Definition Dele (s : session) (msg : Z) : session * option goerr :=
  if negb (in_range s msg) then (s, Some no_such)
  else if is_deleted s msg then (s, Some already_deleted)
  else (mkSession (s_username s) (s_msgs s) ({[msg]} ∪ s_deleted s), None).

Definition Rset (s : session) : session := mkSession (s_username s) (s_msgs s) ∅.

(** The pointers of the messages marked in [s.deleted]. *)
Definition marked (s : session) : gset nat :=
  list_to_set (omap (fun num =>
    if in_range s num then addr <$> s_msgs s !! Z.to_nat (num - 1) else None)
    (elements (s_deleted s))).

Definition Quit (st : Store) (s : session) : Store * Z :=
  if bool_decide (s_deleted s = ∅) then (st, 0) else expunge st (s_username s) (marked s).

(** ** The session as an implementation of the library's interface *)

Record MemSession := mkMem { m_store : Store; m_sess : session }.

(** A method that only reads the session. *)
Definition reads {A} (f : session -> A) (s : MemSession) : Prog MemSession A := PRet s (f (m_sess s)).

Definition mem_login (name pass : bytes) (s : MemSession) : Prog MemSession (option goerr) :=
  let '(s', e) := Login (m_store s) (m_sess s) name pass in PRet (mkMem (m_store s) s') e.

Definition mem_sasl : SessionSASL MemSession := {|
  AuthenticateMechanisms s := PRet s [str "PLAIN"];
  AuthenticatePlain _ _ name pass := mem_login name pass
|}.

#[export] Instance mem_session : Session MemSession := {|
  s_Close s := PRet s tt;
  s_Login _ := mem_login;
  s_Stat _ := reads (fun s => inl (Stat s));
  s_List _ msg := reads (fun s => List_ s msg);
  s_Uidl _ msg := reads (fun s => Uidl s msg);
  s_Retr _ msg := reads (fun s => Retr s msg);
  s_Top _ msg lines := reads (fun s => Top s msg lines);
  s_Dele _ msg s := let '(s', e) := Dele (m_sess s) msg in PRet (mkMem (m_store s) s') e;
  s_Rset _ s := PRet (mkMem (m_store s) (Rset (m_sess s))) None;
  s_Noop _ s := PRet s None;
  s_Quit _ s := let '(st', n) := Quit (m_store s) (m_sess s) in PRet (mkMem st' (m_sess s)) (inl n);
  as_SASL _ := Some mem_sasl;
  as_Lang _ := None;
  as_UTF8 _ := None
|}.

#[export] Instance mem_tls_stable : TLSStable MemSession.
Proof. constructor. intros x s [= <-] s'. constructor. Qed.
