(* ===== verification/MemProps.v ===== *)
(** * Properties of the in-memory maildrop

    The session against an abstract maildrop (a list of messages with deletion
    marks), the lines TOP returns, and what happens to messages when any number
    of sessions work on one store. *)
From stdpp Require Import gmap.
From S2P Require Import Prelude GoStrings Errors Session Mem.

(** ** The abstract maildrop *)

Module Maildrop.

(** The messages in maildrop order, each with its deletion mark. *)
Definition t : Type := list (MessageRef * bool).

Definition fresh (l : list MessageRef) : t := map (fun m => (m, false)) l.

(** Messages are numbered from [k] on. *)
Fixpoint numbered (k : Z) (d : t) : list (Z * (MessageRef * bool)) :=
  match d with [] => [] | x :: d' => (k, x) :: numbered (k + 1) d' end.

(** The messages a client may see: not marked. *)
Definition visible (d : t) : list (Z * MessageRef) :=
  map (fun x => (x.1, x.2.1)) (List.filter (fun x => negb x.2.2) (numbered 1 d)).

(** Message number [n], counting from one. *)
Definition at_num (d : t) (n : Z) : option (MessageRef * bool) :=
  if n <? 1 then None else d !! Z.to_nat (n - 1).

Definition get (d : t) (n : Z) : result MessageRef :=
  match at_num d n with
  | None => inr no_such
  | Some (m, true) => inr msg_deleted
  | Some (m, false) => inl m
  end.

Definition size (m : MessageRef) : Z := blen (Data m).

Inductive request :=
| RqStat | RqList (n : Z) | RqUidl (n : Z) | RqRetr (n : Z) | RqTop (n lines : Z)
| RqDele (n : Z) | RqRset.

Inductive answer :=
| AnStat (count total : Z)
| AnList (l : list (Z * Z))
| AnUidl (l : list (Z * bytes))
| AnBody (data : bytes)
| AnDone
| AnErr (e : goerr).

Definition on (r : result MessageRef) (k : MessageRef -> answer) : answer :=
  match r with inl m => k m | inr e => AnErr e end.

(** What RFC 1939 asks of a maildrop. *)
Definition serve (d : t) (q : request) : t * answer :=
  match q with
  | RqStat => (d, AnStat (blen (visible d)) (foldr (fun x n => size x.2 + n) 0 (visible d)))
  | RqList n =>
    (d, if 0 <? n then on (get d n) (fun m => AnList [(n, size m)])
        else AnList (map (fun x => (x.1, size x.2)) (visible d)))
  | RqUidl n =>
    (d, if 0 <? n then on (get d n) (fun m => AnUidl [(n, UID m)])
        else AnUidl (map (fun x => (x.1, UID x.2)) (visible d)))
  | RqRetr n => (d, on (get d n) (fun m => AnBody (Data m)))
  | RqTop n k => (d, on (get d n) (fun m => AnBody (topBytes (Data m) k)))
  | RqDele n =>
    match at_num d n with
    | None => (d, AnErr no_such)
    | Some (_, true) => (d, AnErr already_deleted)
    | Some (m, false) => (<[Z.to_nat (n - 1) := (m, true)]> d, AnDone)
    end
  | RqRset => (fresh (map fst d), AnDone)
  end.

Fixpoint serve_all (d : t) (qs : list request) : t * list answer :=
  match qs with
  | [] => (d, [])
  | q :: qs => let '(d', a) := serve d q in
               let '(d'', l) := serve_all d' qs in (d'', a :: l)
  end.

End Maildrop.

(** ** The session's methods on the same requests *)

Definition of_result {A} (f : A -> Maildrop.answer) (r : result A) : Maildrop.answer :=
  match r with inl a => f a | inr e => Maildrop.AnErr e end.

Definition of_error (e : option goerr) : Maildrop.answer :=
  match e with None => Maildrop.AnDone | Some e => Maildrop.AnErr e end.

(** What reading a body to its end yields. *)
Definition body_bytes (b : Body) : bytes := concat (body_chunks b).

Definition mem_serve (s : session) (q : Maildrop.request) : session * Maildrop.answer :=
  match q with
  | Maildrop.RqStat => (s, let '(c, n) := Stat s in Maildrop.AnStat c n)
  | Maildrop.RqList n => (s, of_result (fun l => Maildrop.AnList (map (fun i => (mi_Num i, mi_Size i)) l)) (List_ s n))
  | Maildrop.RqUidl n =>
    (s, of_result (fun l => Maildrop.AnUidl (map (fun i => (mu_Num i, mu_UniqueID i)) l)) (Uidl s n))
  | Maildrop.RqRetr n => (s, of_result (fun b => Maildrop.AnBody (body_bytes b)) (Retr s n))
  | Maildrop.RqTop n k => (s, of_result (fun b => Maildrop.AnBody (body_bytes b)) (Top s n k))
  | Maildrop.RqDele n => let '(s', e) := Dele s n in (s', of_error e)
  | Maildrop.RqRset => (Rset s, Maildrop.AnDone)
  end.

Fixpoint mem_serve_all (s : session) (qs : list Maildrop.request) : session * list Maildrop.answer :=
  match qs with
  | [] => (s, [])
  | q :: qs => let '(s', a) := mem_serve s q in
               let '(s'', l) := mem_serve_all s' qs in (s'', a :: l)
  end.

(** The abstract maildrop behind a session: each message with its mark. *)
Fixpoint marks_from (s : session) (k : Z) (l : list MessageRef) : Maildrop.t :=
  match l with [] => [] | m :: l' => (m, is_deleted s k) :: marks_from s (k + 1) l' end.

Definition drop_of (s : session) : Maildrop.t := marks_from s 1 (s_msgs s).

Section session_facts.
Import Maildrop.
Implicit Types (s : session) (n : Z).

Lemma marks_from_lookup s k l j :
  (marks_from s k l : list _) !! j = (fun m => (m, is_deleted s (k + Z.of_nat j))) <$> l !! j.
Proof.
  revert k j. induction l as [|m l IH]; intros k [|j]; simpl; try done.
  - do 3 f_equal. lia.
  - rewrite IH. destruct (l !! j); simpl; [|done]. do 3 f_equal. lia.
Qed.

Lemma at_num_drop_of s n :
  at_num (drop_of s) n
  = if in_range s n then (fun m => (m, is_deleted s n)) <$> s_msgs s !! Z.to_nat (n - 1) else None.
Proof.
  unfold at_num, in_range, drop_of, blen.
  destruct (Z.ltb_spec n 1), (Z.leb_spec 1 n); try lia; [done|]. simpl.
  rewrite marks_from_lookup. replace (1 + Z.of_nat (Z.to_nat (n - 1))) with n by lia.
  destruct (Z.leb_spec n (Z.of_nat (length (s_msgs s)))); [done|].
  rewrite lookup_ge_None_2; [done | lia].
Qed.

Lemma in_range_lookup s n : in_range s n = true -> exists m, s_msgs s !! Z.to_nat (n - 1) = Some m.
Proof. unfold in_range, blen. intros [? ?]%andb_prop. apply lookup_lt_is_Some. lia. Qed.

Lemma get_msgAt s n : msgAt s n = get (drop_of s) n.
Proof.
  unfold msgAt, get. rewrite at_num_drop_of. destruct (in_range s n) eqn:E; simpl; [|done].
  destruct (in_range_lookup _ _ E) as [m ->]. simpl. by destruct (is_deleted s n).
Qed.

Lemma live_visible s : live s = visible (drop_of s).
Proof.
  unfold live, visible, drop_of. generalize 1. induction (s_msgs s) as [|m l IH]; intros k; [done|].
  simpl. rewrite IH. by destruct (is_deleted s k).
Qed.

Lemma stat_from_live s k c z l :
  stat_from s k c z l
  = (c + blen (live_from s k l), z + foldr (fun x n => size x.2 + n) 0 (live_from s k l)).
Proof.
  revert k c z. induction l as [|m l IH]; intros k c z; simpl; [f_equal; unfold blen; simpl; lia|].
  destruct (is_deleted s k); rewrite IH; simpl; [done|]. rewrite blen_cons. unfold size.
  f_equal; lia.
Qed.

Lemma marks_from_Dele u msgs del n m l :
  l !! Z.to_nat (n - 1) = Some m -> 1 <= n ->
  marks_from (mkSession u msgs ({[n]} ∪ del)) 1 l
  = <[Z.to_nat (n - 1) := (m, true)]> (marks_from (mkSession u msgs del) 1 l : list _).
Proof.
  intros Hm Hn. apply list_eq. intros j. rewrite marks_from_lookup.
  destruct (decide (j = Z.to_nat (n - 1))) as [->|Hj].
  - rewrite list_lookup_insert_eq.
    + rewrite Hm. simpl. unfold is_deleted; simpl. do 2 f_equal.
      apply bool_decide_eq_true_2, elem_of_union_l, elem_of_singleton. lia.
    + apply lookup_lt_is_Some. rewrite marks_from_lookup, Hm. simpl. eauto.
  - rewrite list_lookup_insert_ne, marks_from_lookup by done. apply option_fmap_ext. intros x.
    unfold is_deleted; simpl. f_equal. apply bool_decide_ext.
    rewrite elem_of_union, elem_of_singleton. intuition lia.
Qed.

Lemma marks_from_fresh u msgs k l : marks_from (mkSession u msgs ∅) k l = fresh l.
Proof. revert k. induction l as [|m l IH]; intros k; simpl; [done|]. by rewrite IH. Qed.

Lemma marks_from_fst s k l : map fst (marks_from s k l) = l.
Proof. revert k. induction l as [|m l IH]; intros k; simpl; [done|]. by rewrite IH. Qed.

Lemma body_bytes_of data : body_bytes (bytes_body data) = data.
Proof. unfold body_bytes. simpl. apply app_nil_r. Qed.

(** One request: the session answers as the abstract maildrop does. *)
Lemma mem_serve_drop s q :
  let '(s', a) := mem_serve s q in serve (drop_of s) q = (drop_of s', a).
Proof.
  destruct q as [|n|n|n|n k|n|]; simpl.
  - unfold Stat. rewrite stat_from_live. change (live_from s 1 (s_msgs s)) with (live s).
    by rewrite live_visible, !Z.add_0_l.
  - unfold List_. rewrite get_msgAt, live_visible. destruct (0 <? n); simpl.
    + by destruct (get _ _).
    + by rewrite map_map.
  - unfold Uidl. rewrite get_msgAt, live_visible. destruct (0 <? n); simpl.
    + by destruct (get _ _).
    + by rewrite map_map.
  - unfold Retr. rewrite get_msgAt. destruct (get _ _); simpl; [by rewrite body_bytes_of | done].
  - unfold Top. rewrite get_msgAt. destruct (get _ _); simpl; [by rewrite body_bytes_of | done].
  - unfold Dele. rewrite at_num_drop_of. destruct (in_range s n) eqn:E; simpl; [|done].
    destruct (in_range_lookup _ _ E) as [m Hm]. rewrite Hm. simpl. destruct (is_deleted s n) eqn:Ed; [done|].
    f_equal. unfold drop_of; simpl. rewrite (marks_from_Dele _ _ _ _ m) by (done || unfold in_range in E; lia).
    by destruct s.
  - unfold Rset, drop_of. simpl. by rewrite marks_from_fresh, marks_from_fst.
Qed.
End session_facts.

Lemma mem_serve_all_drop s qs :
  let '(s', l) := mem_serve_all s qs in Maildrop.serve_all (drop_of s) qs = (drop_of s', l).
Proof.
  revert s. induction qs as [|q qs IH]; intros s; simpl; [done|].
  pose proof (mem_serve_drop s q) as Hq. destruct (mem_serve s q) as [s1 a]. rewrite Hq.
  specialize (IH s1). destruct (mem_serve_all s1 qs) as [s2 l]. by rewrite IH.
Qed.

Lemma authenticate_Some st name pass msgs :
  authenticate st name pass = Some msgs
  <-> exists acc, users st !! name = Some acc /\ password acc = pass /\ messages acc = msgs.
Proof.
  unfold authenticate. destruct (users st !! name) as [acc|]; [|naive_solver].
  destruct (bytes_eqb_spec (password acc) pass); naive_solver.
Qed.

Lemma Login_eq st s name pass :
  (exists acc, users st !! name = Some acc /\ password acc = pass
               /\ Login st s name pass = (mkSession name (messages acc) (s_deleted s), None))
  \/ authenticate st name pass = None /\ Login st s name pass = (s, Some auth_failed).
Proof.
  unfold Login. destruct (authenticate st name pass) as [msgs|] eqn:E; [|auto].
  apply authenticate_Some in E as (acc & Hu & Hp & <-). left. eauto.
Qed.

(** C11: a session of the in-memory store is the maildrop of RFC 1939 that was
    there at login.  A login succeeds exactly for an existing account and its
    password; from then on, whatever sequence of STAT, LIST, UIDL, RETR, TOP,
    DELE and RSET follows, valid or not, every answer (message numbers, sizes,
    unique ids, contents, errors) is the one of the abstract maildrop in which
    each message carries a deletion mark. *)
Theorem mem_session_refines_maildrop st name pass qs :
  match Login st NewSession name pass with
  | (s, None) =>
    exists acc, users st !! name = Some acc /\ password acc = pass
    /\ Maildrop.serve_all (Maildrop.fresh (messages acc)) qs
       = (drop_of (mem_serve_all s qs).1, (mem_serve_all s qs).2)
  | (s, Some e) =>
    s = NewSession /\ e = auth_failed
    /\ forall acc, users st !! name = Some acc -> password acc <> pass
  end.
Proof.
  destruct (Login_eq st NewSession name pass) as [(acc & Hu & Hp & ->)|[Ha ->]].
  - exists acc. split; [done|]. split; [done|].
    pose proof (mem_serve_all_drop (mkSession name (messages acc) (s_deleted NewSession)) qs) as H.
    destruct (mem_serve_all _ qs) as [s' l]. simpl. rewrite <- H. f_equal.
    unfold drop_of, NewSession. simpl. by rewrite marks_from_fresh.
  - split; [done|]. split; [done|]. intros acc Hu Hp.
    assert (authenticate st name pass = Some (messages acc)) by (apply authenticate_Some; eauto).
    congruence.
Qed.

(** ** The lines of TOP *)

(** The lines of a text, each with its LF; the last may have none. *)
Fixpoint lines_of (s : bytes) : list bytes :=
  match s with
  | [] => []
  | b :: s' =>
    if b =b? LF then [b] :: lines_of s'
    else match lines_of s' with
         | [] => [[b]]
         | l :: ls => (b :: l) :: ls
         end
  end.

(** [sep] first occurs in [s] after [i] bytes. *)
Definition first_at (sep s : bytes) (i : nat) : Prop :=
  (exists t, drop i s = sep ++ t) /\ forall j t, (j < i)%nat -> drop j s <> sep ++ t.

Definition absent (sep s : bytes) : Prop := forall j t, drop j s <> sep ++ t.

Lemma lines_of_concat s : concat (lines_of s) = s.
Proof.
  induction s as [|b s IH]; simpl; [done|]. destruct (b =b? LF); simpl; [by rewrite IH|].
  destruct (lines_of s); simpl in *; by rewrite <- IH.
Qed.

Lemma lines_of_None s : index_byte s LF = None -> s <> [] -> lines_of s = [s].
Proof.
  unfold index_byte. induction s as [|b s IH]; [done|]. intros H _. simpl in *.
  destruct (b =b? LF); [done|]. destruct (index_func _ s); [done|].
  destruct s as [|c s]; [done|]. by rewrite IH.
Qed.

Lemma lines_of_Some s i :
  index_byte s LF = Some i -> lines_of s = take (i + 1) s :: lines_of (drop (i + 1) s).
Proof.
  unfold index_byte. revert i. induction s as [|b s IH]; intros i; [done|]. simpl.
  destruct (b =b? LF) eqn:E; [by intros [= <-]|].
  destruct (index_func _ s) as [j|]; simpl; [|done]. intros [= <-].
  by rewrite (IH j eq_refl).
Qed.

Lemma top_lines_spec k n s :
  (length s <= k)%nat -> top_lines k n s = concat (take (Z.to_nat n) (lines_of s)).
Proof.
  revert n s. induction k as [|k IH]; intros n s Hk.
  { destruct s; [|simpl in *; lia]. simpl. by rewrite take_nil. }
  destruct s as [|b s]; [simpl; by rewrite take_nil|]. cbn [top_lines].
  destruct (Z.leb_spec n 0) as [Hn|Hn].
  { by replace (Z.to_nat n) with 0%nat by lia. }
  replace (Z.to_nat n) with (S (Z.to_nat (n - 1))) by lia.
  destruct (index_byte (b :: s) LF) as [i|] eqn:E.
  - rewrite (lines_of_Some _ _ E), firstn_cons. cbn [concat]. f_equal. apply IH.
    rewrite length_drop. simpl in *. lia.
  - rewrite (lines_of_None _ E) by done. by rewrite firstn_cons, take_nil, concat_cons, app_nil_r.
Qed.

Lemma index_sub_Some s sep i : index_sub s sep = Some i -> first_at sep s i.
Proof.
  revert i. induction s as [|b s IH]; intros i; cbn [index_sub];
    destruct (has_prefix _ sep) eqn:E; try done.
  1, 2: intros [= <-]; split; [by apply has_prefix_spec | lia].
  destruct (index_sub s sep) as [k|]; simpl; [|done]. intros [= <-].
  destruct (IH k eq_refl) as [Hk Hj]. split; [done|]. intros [|j] t Hl; simpl; [|apply Hj; lia].
  intros Heq. apply not_true_iff_false in E. apply E, has_prefix_spec. eauto.
Qed.

Lemma index_sub_None s sep : index_sub s sep = None -> absent sep s.
Proof.
  induction s as [|b s IH]; cbn [index_sub]; destruct (has_prefix _ sep) eqn:E; try done;
    apply not_true_iff_false in E; rewrite has_prefix_spec in E.
  - intros _ j t. rewrite drop_nil. intros H. apply E. eauto.
  - destruct (index_sub s sep); simpl; [done|]. intros _ [|j] t; simpl; [eauto|].
    by apply IH.
Qed.

(** C28: TOP returns the header block, the blank line that ends it, and the
    first [n] lines of the body, no more and no less (none for a negative [n]).
    The blank line is the first CRLF CRLF of the message, or the first LF LF
    when there is no CRLF CRLF at all; a message with neither is all header. *)
Theorem topBytes_spec data n :
  (absent (crlf ++ crlf) data /\ absent [LF; LF] data /\ topBytes data n = data)
  \/ exists header sep body,
       data = header ++ sep ++ body
       /\ (sep = crlf ++ crlf \/ sep = [LF; LF] /\ absent (crlf ++ crlf) data)
       /\ first_at sep data (length header)
       /\ topBytes data n = header ++ sep ++ concat (take (Z.to_nat n) (lines_of body)).
Proof.
  unfold topBytes, header_end.
  assert (forall sep i k, first_at sep data i -> k = length sep ->
    (sep = crlf ++ crlf \/ sep = [LF; LF] /\ absent (crlf ++ crlf) data) ->
    exists header sep body,
       data = header ++ sep ++ body
       /\ (sep = crlf ++ crlf \/ sep = [LF; LF] /\ absent (crlf ++ crlf) data)
       /\ first_at sep data (length header)
       /\ take (i + k) data ++ (if n <=? 0 then [] else
             top_lines (length (drop (i + k) data)) n (drop (i + k) data))
          = header ++ sep ++ concat (take (Z.to_nat n) (lines_of body))) as Hcut.
  { intros sep i k Hf -> Hsep. pose proof Hf as [[t Ht] _].
    assert (i <= length data)%nat as Hi.
    { destruct (decide (i <= length data)%nat); [done|]. rewrite drop_ge in Ht by lia.
      by destruct Hsep as [->|[-> _]]. }
    exists (take i data), sep, t.
    assert (data = take i data ++ sep ++ t) as Hd by (rewrite <- Ht; symmetry; apply take_drop).
    assert (take (i + length sep) data = take i data ++ sep) as Htk.
    { rewrite Hd at 1. rewrite app_assoc, take_app_le by (rewrite length_app, length_take; lia).
      apply take_ge. rewrite length_app, length_take. lia. }
    assert (drop (i + length sep) data = t) as Hdr.
    { rewrite <- drop_drop, Ht. apply drop_app_length. }
    rewrite length_take, Nat.min_l, Htk, Hdr, <- app_assoc by done.
    split; [done|]. split; [done|]. split; [done|]. do 2 f_equal.
    destruct (Z.leb_spec n 0); [by replace (Z.to_nat n) with 0%nat by lia | by apply top_lines_spec]. }
  destruct (index_sub data (crlf ++ crlf)) as [i|] eqn:E1.
  { right. apply (Hcut (crlf ++ crlf)); [by apply index_sub_Some | done | by left]. }
  apply index_sub_None in E1.
  destruct (index_sub data [LF; LF]) as [i|] eqn:E2.
  { right. apply (Hcut [LF; LF]); [by apply index_sub_Some | done | by right]. }
  left. auto using index_sub_None.
Qed.

(** A blank line that ends in LF, before one that ends in CRLF, is not taken for
    the end of the header. *)
Example topBytes_second_blank :
  let data := str "a" ++ [LF; LF] ++ str "b" ++ crlf ++ crlf ++ str "c" in
  topBytes data 0 = str "a" ++ [LF; LF] ++ str "b" ++ crlf ++ crlf.
Proof. vm_compute. reflexivity. Qed.
