(* ===== verification/MemWorld.v ===== *)
(** * Several sessions on one in-memory store

    The store and the sessions open on it, the operations that change them, and
    what an interleaving of such operations does to a maildrop.  Every
    operation of the store holds its mutex from start to end, so that an
    interleaving is a sequence of whole operations. *)
From stdpp Require Import gmap.
From S2P Require Import Prelude Errors Session Mem MemProps.

Record world := mkWorld { w_store : Store; w_sessions : list session }.

Inductive op :=
| OAddUser (name pass : bytes)
| OAddMessage (name uid data : bytes)
| ONewSession
| OLogin (i : nat) (name pass : bytes)
| ODele (i : nat) (n : Z)
| ORset (i : nat)
| OQuit (i : nat).

Definition empty_world : world := mkWorld New [].

Definition with_session (w : world) (i : nat) (f : session -> session) : world :=
  mkWorld (w_store w) (alter f i (w_sessions w)).

Definition act (w : world) (o : op) : world :=
  match o with
  | OAddUser name pass => mkWorld (AddUser (w_store w) name pass) (w_sessions w)
  | OAddMessage name uid data => mkWorld (AddMessage (w_store w) name uid data).1 (w_sessions w)
  | ONewSession => mkWorld (w_store w) (w_sessions w ++ [NewSession])
  | OLogin i name pass => with_session w i (fun s => (Login (w_store w) s name pass).1)
  | ODele i n => with_session w i (fun s => (Dele s n).1)
  | ORset i => with_session w i Rset
  | OQuit i =>
    match w_sessions w !! i with
    | None => w
    | Some s => mkWorld (Quit (w_store w) s).1 (w_sessions w)
    end
  end.

Definition run (w : world) (os : list op) : world := foldl act w os.

(** The maildrop of an account. *)
Definition maildrop (w : world) (u : bytes) : list MessageRef :=
  match users (w_store w) !! u with Some acc => messages acc | None => [] end.

(** Session [s] holds message [m] marked for deletion. *)
Definition marks (s : session) (m : MessageRef) : Prop :=
  exists n, n ∈ s_deleted s /\ 1 <= n /\ s_msgs s !! Z.to_nat (n - 1) = Some m.

(** ** The invariant: pointers name messages

    [heap] lists every message that was ever created, with its owner, at its
    address. *)

Definition owned (heap : list (bytes * MessageRef)) (u : bytes) (l : list MessageRef) : Prop :=
  NoDup l /\ Forall (fun m => heap !! addr m = Some (u, m)) l.

Record coherent (heap : list (bytes * MessageRef)) (w : world) : Prop := {
  co_next : next (w_store w) = length heap;
  co_users u : owned heap u (maildrop w u);
  co_sessions : Forall (fun s => owned heap (s_username s) (s_msgs s)) (w_sessions w)
}.

Definition world_ok (w : world) : Prop := exists heap, coherent heap w.

Lemma owned_nil heap u : owned heap u [].
Proof. split; constructor. Qed.

Lemma owned_app heap u l x : owned heap u l -> owned (heap ++ [x]) u l.
Proof.
  intros [Hn Hf]. split; [done|]. eapply Forall_impl; [done|]. intros m Hm. simpl.
  by apply lookup_app_l_Some.
Qed.

Lemma owned_addr heap u v l k m m' :
  owned heap u l -> owned heap v k -> m ∈ l -> m' ∈ k -> addr m = addr m' -> m = m'.
Proof.
  intros [_ Hl] [_ Hk] Hm Hm' Ha. rewrite Forall_forall in Hl, Hk.
  specialize (Hl _ Hm). specialize (Hk _ Hm'). simpl in *. rewrite Ha in Hl. congruence.
Qed.

Lemma owned_filter heap u f l : owned heap u l -> owned heap u (List.filter f l).
Proof.
  intros [Hn Hf]. split.
  - clear Hf. induction Hn as [|m l Hm Hn IH]; simpl; [constructor|].
    destruct (f m); [|done]. constructor; [|done].
    rewrite list_elem_of_In, filter_In, <- list_elem_of_In. naive_solver.
  - apply Forall_forall. intros m. rewrite list_elem_of_In, filter_In, <- list_elem_of_In.
    intros [Hm _]. rewrite Forall_forall in Hf. by apply Hf.
Qed.

Lemma marked_spec s a :
  a ∈ marked s <-> exists m, marks s m /\ addr m = a.
Proof.
  unfold marked, marks. rewrite elem_of_list_to_set, list_elem_of_omap. split.
  - intros (n & Hn & H). rewrite elem_of_elements in Hn.
    destruct (in_range s n) eqn:E; [|done]. unfold in_range in E.
    destruct (s_msgs s !! Z.to_nat (n - 1)) as [m|] eqn:Em; [|done]. simpl in H.
    exists m. split; [exists n; split_and!; [done | lia | done] | congruence].
  - intros (m & (n & Hn & H1 & Hm) & <-). exists n. rewrite elem_of_elements. split; [done|].
    apply lookup_lt_Some in Hm as Hl. unfold in_range, blen.
    destruct (Z.leb_spec 1 n); [|lia]. destruct (Z.leb_spec n (Z.of_nat (length (s_msgs s)))); [|lia].
    simpl. by rewrite Hm.
Qed.

Lemma maildrop_expunge st name remove u ss :
  maildrop (mkWorld (expunge st name remove).1 ss) u
  = if bool_decide (u = name)
    then List.filter (fun m => negb (bool_decide (addr m ∈ remove))) (maildrop (mkWorld st ss) u)
    else maildrop (mkWorld st ss) u.
Proof.
  unfold expunge, maildrop. simpl. destruct (bool_decide_reflect (remove = ∅)) as [->|Hr].
  - destruct (bool_decide_reflect (u = name)); [|done].
    symmetry. apply filter_Forall_id, Forall_forall. intros m _. simpl.
    by rewrite bool_decide_eq_false_2 by set_solver.
  - destruct (users st !! name) as [acc|] eqn:E; simpl.
    + destruct (bool_decide_reflect (u = name)) as [->|Hu].
      * by rewrite lookup_insert_eq, E.
      * by rewrite lookup_insert_ne.
    + destruct (bool_decide_reflect (u = name)) as [->|]; [|done]. by rewrite E.
Qed.

Lemma maildrop_Quit st s u ss :
  maildrop (mkWorld (Quit st s).1 ss) u
  = if bool_decide (u = s_username s)
    then List.filter (fun m => negb (bool_decide (addr m ∈ marked s))) (maildrop (mkWorld st ss) u)
    else maildrop (mkWorld st ss) u.
Proof.
  unfold Quit. destruct (bool_decide_reflect (s_deleted s = ∅)) as [He|]; [|apply maildrop_expunge].
  simpl. destruct (bool_decide _); [|done]. symmetry. apply filter_Forall_id, Forall_forall.
  intros m _. apply negb_true_iff, bool_decide_eq_false_2. rewrite marked_spec.
  intros (m' & (n & Hn & _) & _). rewrite He in Hn. set_solver.
Qed.

Lemma next_Quit st s : next (Quit st s).1 = next st.
Proof. unfold Quit, expunge. repeat case_match; done. Qed.

Lemma maildrop_AddUser w name pass u :
  maildrop (act w (OAddUser name pass)) u = if bool_decide (u = name) then [] else maildrop w u.
Proof.
  unfold maildrop, act, AddUser; simpl. destruct (bool_decide_reflect (u = name)) as [->|].
  - by rewrite lookup_insert_eq.
  - by rewrite lookup_insert_ne.
Qed.

Lemma blen_filter_split {A} (f : A -> bool) l :
  blen (List.filter f l) + blen (List.filter (fun x => negb (f x)) l) = blen l.
Proof. induction l as [|x l IH]; simpl; [done|]. destruct (f x); simpl; rewrite !blen_cons; lia. Qed.

(** The number [Quit] returns. *)
Lemma Quit_count st s ss :
  (Quit st s).2
  = blen (maildrop (mkWorld st ss) (s_username s))
    - blen (List.filter (fun m => negb (bool_decide (addr m ∈ marked s)))
              (maildrop (mkWorld st ss) (s_username s))).
Proof.
  pose proof (maildrop_Quit st s (s_username s) ss) as H.
  rewrite bool_decide_eq_true_2 in H by done. unfold Quit, expunge in *.
  pose proof (blen_filter_split (fun m => bool_decide (addr m ∈ marked s))
    (maildrop (mkWorld st ss) (s_username s))) as Hs.
  destruct (bool_decide (s_deleted s = ∅)); simpl in *; [rewrite <- H; lia|].
  destruct (bool_decide (marked s = ∅)); simpl in *; [rewrite <- H; lia|].
  unfold maildrop in *; simpl in *.
  destruct (users st !! s_username s) as [acc|]; simpl in *; lia.
Qed.

(** What an operation does to the maildrop of [u]. *)
Inductive changed (w : world) (u : bytes) (o : op) : list MessageRef -> Prop :=
| ch_same : changed w u o (maildrop w u)
| ch_reset pass : o = OAddUser u pass -> changed w u o []
| ch_new uid data :
    o = OAddMessage u uid data -> is_Some (users (w_store w) !! u) ->
    changed w u o (maildrop w u ++ [mkMessage (next (w_store w)) uid data])
| ch_quit i s :
    o = OQuit i -> w_sessions w !! i = Some s -> s_username s = u ->
    changed w u o (List.filter (fun m => negb (bool_decide (addr m ∈ marked s))) (maildrop w u)).

Lemma changed_refl w u o l : l = maildrop w u -> changed w u o l.
Proof. intros ->. apply ch_same. Qed.

Lemma act_changed w u o : changed w u o (maildrop (act w o) u).
Proof.
  destruct o as [name pass|name uid data| |i name pass|i n|i|i]; try by apply changed_refl.
  - rewrite maildrop_AddUser. destruct (bool_decide_reflect (u = name)) as [->|]; [|constructor].
    by econstructor 2.
  - unfold act, AddMessage. destruct (users (w_store w) !! name) as [acc|] eqn:E; [|by apply changed_refl].
    unfold maildrop; simpl. destruct (decide (u = name)) as [->|Hu].
    + rewrite lookup_insert_eq. simpl.
      pose proof (ch_new w name (OAddMessage name uid data) uid data eq_refl) as H.
      unfold maildrop in H. rewrite E in H. apply H. done.
    + rewrite lookup_insert_ne by done. apply ch_same.
  - simpl. destruct (w_sessions w !! i) as [s|] eqn:E; [|apply ch_same].
    rewrite maildrop_Quit. destruct (bool_decide_reflect (u = s_username s)) as [->|]; [|by apply changed_refl].
    by apply (ch_quit w (s_username s) (OQuit i) i s).
Qed.

Lemma next_act w o :
  next (w_store (act w o)) = next (w_store w)
  \/ exists name uid data,
       o = OAddMessage name uid data /\ is_Some (users (w_store w) !! name)
       /\ next (w_store (act w o)) = S (next (w_store w)).
Proof.
  destruct o as [name pass|name uid data| |i name pass|i n|i|i]; auto; simpl.
  - unfold AddMessage. destruct (users (w_store w) !! name) eqn:E; simpl; [|auto]. right. eauto 8.
  - left. destruct (w_sessions w !! i); simpl; [apply next_Quit | done].
Qed.

(** Every operation keeps the invariant. *)
Lemma act_ok w o : world_ok w -> world_ok (act w o).
Proof.
  intros (heap & [Hnx Hu Hs]). destruct (next_act w o) as [Hn|(name & uid & data & -> & Hacc & Hn)].
  - exists heap. split; [congruence| |].
    + intros u. destruct (act_changed w u o) as [|pass|uid data -> Hacc|i s -> Hi Hsu].
      * apply Hu.
      * apply owned_nil.
      * exfalso. destruct Hacc as [acc Ha]. simpl in Hn. unfold AddMessage in Hn.
        rewrite Ha in Hn. simpl in Hn. lia.
      * apply owned_filter, Hu.
    + destruct o as [| | |i name pass|i n|i|i]; simpl; auto.
      * apply Forall_app. split; [done|]. repeat constructor.
      * apply Forall_alter; [done|]. intros s Hi Ho.
        destruct (Login_eq (w_store w) s name pass) as [(acc & Ha & _ & ->)|[_ ->]]; [|done].
        simpl. specialize (Hu name). unfold maildrop in Hu. by rewrite Ha in Hu.
      * apply Forall_alter; [done|]. intros s Hi Ho. unfold Dele. by repeat case_match.
      * apply Forall_alter; [done|]. by intros s Hi Ho.
      * by destruct (w_sessions w !! i).
  - set (m := mkMessage (next (w_store w)) uid data).
    exists (heap ++ [(name, m)]). split.
    + rewrite Hn, length_app, Hnx. simpl. lia.
    + intros u. destruct (act_changed w u (OAddMessage name uid data))
        as [|pass|uid' data' [= <- <- <-] _|i s [= ]]; [by apply owned_app | apply owned_nil|].
      destruct (owned_app heap name _ (name, m) (Hu name)) as [Hnd Hf]. split.
      * apply NoDup_app. split; [apply Hu|]. split; [|apply NoDup_singleton].
        intros x Hx ->%list_elem_of_singleton. destruct (Hu name) as [_ Hh].
        rewrite Forall_forall in Hh. specialize (Hh _ Hx). simpl in Hh.
        apply lookup_lt_Some in Hh. lia.
      * apply Forall_app. split; [done|]. apply Forall_singleton. by apply list_lookup_middle.
    + eapply Forall_impl; [apply Hs|]. intros s. apply owned_app.
Qed.

Lemma run_ok w os : world_ok w -> world_ok (run w os).
Proof. unfold run. revert w. induction os as [|o os IH]; simpl; auto using act_ok. Qed.

Lemma empty_ok : world_ok empty_world.
Proof. exists []. split; [done | | constructor]. intros u. apply owned_nil. Qed.

(** Marked by address or marked as a message: the same, pointers being unique. *)
Lemma marked_marks w i s u m :
  world_ok w -> w_sessions w !! i = Some s -> m ∈ maildrop w u ->
  addr m ∈ marked s <-> marks s m.
Proof.
  intros (heap & [_ Hu Hs]) Hi Hm. rewrite marked_spec. split; [|eauto].
  intros (m' & Hmk & Ha). replace m with m'; [done|].
  rewrite Forall_forall in Hs. specialize (Hs s (list_elem_of_lookup_2 _ _ _ Hi)).
  eapply owned_addr; [exact Hs | apply (Hu u) | | exact Hm | exact Ha].
  destruct Hmk as (n & _ & _ & Hl). by eapply list_elem_of_lookup_2.
Qed.

(** ** What is lost, what is kept *)

(** At some point of [os], started in [w], [m] is taken out of [u]'s maildrop:
    the account is replaced, or a session of [u] that marked [m] quits. *)
Inductive removed (u : bytes) (m : MessageRef) : world -> list op -> Prop :=
| rm_reset w pass os : removed u m w (OAddUser u pass :: os)
| rm_quit w i s os :
    w_sessions w !! i = Some s -> s_username s = u -> marks s m ->
    removed u m w (OQuit i :: os)
| rm_later w o os : removed u m (act w o) os -> removed u m w (o :: os).

(** What AddMessage was asked to put in the maildrop of [u]. *)
Definition delivered (u : bytes) (os : list op) : list (bytes * bytes) :=
  omap (fun o => match o with
                 | OAddMessage name uid data => if name =s? u then Some (uid, data) else None
                 | _ => None
                 end) os.

Definition content (m : MessageRef) : bytes * bytes := (UID m, Data m).

Lemma elem_of_filter_marked (r : gset nat) m l :
  m ∈ List.filter (fun m => negb (bool_decide (addr m ∈ r))) l <-> m ∈ l /\ addr m ∉ r.
Proof.
  rewrite !list_elem_of_In, filter_In, negb_true_iff, bool_decide_eq_false. done.
Qed.

Lemma filter_sublist' {A} (f : A -> bool) l : List.filter f l `sublist_of` l.
Proof. induction l as [|x l IH]; simpl; [done|]. destruct (f x); by constructor. Qed.

Lemma maildrop_kept w os u m :
  world_ok w -> m ∈ maildrop w u -> m ∈ maildrop (run w os) u \/ removed u m w os.
Proof.
  revert w. induction os as [|o os IH]; intros w Hok Hm; [by left|].
  assert (m ∈ maildrop (act w o) u \/ removed u m w (o :: os)) as [Ha|]; [| |by right].
  - destruct (act_changed w u o) as [|pass ->|uid data -> Hacc|i s -> Hi Hsu].
    + by left.
    + right. constructor.
    + left. apply elem_of_app. by left.
    + destruct (decide (addr m ∈ marked s)) as [Ha|Ha].
      * right. econstructor; [done | done|]. by eapply marked_marks.
      * left. by apply elem_of_filter_marked.
  - destruct (IH _ (act_ok _ o Hok) Ha) as [|Hr]; [by left | right; by constructor].
Qed.

Lemma maildrop_content w os u :
  (content <$> maildrop (run w os) u) `sublist_of` (content <$> maildrop w u) ++ delivered u os.
Proof.
  revert w. induction os as [|o os IH]; intros w; [by rewrite app_nil_r|].
  etrans; [apply IH|]. change (o :: os) with ([o] ++ os). unfold delivered at 2.
  rewrite omap_app, app_assoc. apply sublist_app; [|done].
  destruct (act_changed w u o) as [|pass Ho|uid data -> Hacc|i s Ho Hi Hsu].
  - by apply sublist_inserts_r.
  - apply sublist_nil_l.
  - simpl. rewrite bytes_eqb_refl, fmap_app. done.
  - apply sublist_inserts_r, fmap_sublist, filter_sublist'.
Qed.

(** C12: the mail of a user is never lost and never invented.  In any world
    reached by any interleaving of deliveries, logins, deletions, resets and
    quits of any number of sessions: every message that was in [u]'s maildrop
    and is not there any more was taken out by a session of [u] that had it
    marked when it quit (or the account was replaced); a session that did not
    mark it, or never quit, or belongs to somebody else, has no effect on it,
    messages delivered after its login included.  And what is in the maildrop
    is what was there or was delivered, in that order, nothing twice. *)
Theorem maildrop_conserved before os u :
  (forall m, m ∈ maildrop (run empty_world before) u ->
    m ∈ maildrop (run empty_world (before ++ os)) u
    \/ removed u m (run empty_world before) os)
  /\ (content <$> maildrop (run empty_world (before ++ os)) u)
     `sublist_of` (content <$> maildrop (run empty_world before) u) ++ delivered u os
  /\ NoDup (maildrop (run empty_world (before ++ os)) u).
Proof.
  assert (run empty_world (before ++ os) = run (run empty_world before) os) as ->
    by apply foldl_app.
  split; [|split].
  - intros m Hm. apply maildrop_kept; [|done]. apply run_ok, empty_ok.
  - apply maildrop_content.
  - destruct (run_ok _ os (run_ok _ before empty_ok)) as (heap & [_ Hu _]). apply Hu.
Qed.

(** C13: QUIT expunges exactly the messages the session marked.  In any
    reachable world, after session [i] quits, a message is in a maildrop if and
    only if it was there before and is not a marked message of the session's
    own user; the order of the others is kept, and the number QUIT reports is
    the number of messages that left. *)
Theorem quit_expunges_marked os i s :
  w_sessions (run empty_world os) !! i = Some s ->
  let w := run empty_world os in
  let w' := act w (OQuit i) in
  (forall u m, m ∈ maildrop w' u <-> m ∈ maildrop w u /\ ~ (u = s_username s /\ marks s m))
  /\ (forall u, maildrop w' u `sublist_of` maildrop w u)
  /\ (Quit (w_store w) s).2
     = blen (maildrop w (s_username s)) - blen (maildrop w' (s_username s)).
Proof.
  intros Hi w w'. pose proof (run_ok _ os empty_ok : world_ok w) as Hok.
  assert (forall u, maildrop w' u = if bool_decide (u = s_username s)
    then List.filter (fun m => negb (bool_decide (addr m ∈ marked s))) (maildrop w u)
    else maildrop w u) as Hd.
  { intros u. unfold w', act. fold w in Hi. rewrite Hi, maildrop_Quit. done. }
  split; [|split].
  - intros u m. rewrite Hd. destruct (bool_decide_reflect (u = s_username s)) as [->|]; [|naive_solver].
    rewrite elem_of_filter_marked. split; intros [Hm Hn]; (split; [done|]).
    + intros [_ Hk]. apply Hn. by eapply marked_marks.
    + intros Ha. apply Hn. split; [done|]. by eapply marked_marks.
  - intros u. rewrite Hd. destruct (bool_decide _); [apply filter_sublist' | done].
  - rewrite Hd, bool_decide_eq_true_2 by done. exact (Quit_count (w_store w) s (w_sessions w)).
Qed.

(** Two messages, the first marked, a third delivered while the session is open. *)
Definition sample_ops : list op :=
  [OAddUser (str "alice") (str "pw"); OAddMessage (str "alice") (str "u1") (str "one");
   OAddMessage (str "alice") (str "u2") (str "two"); ONewSession;
   OLogin 0 (str "alice") (str "pw"); ODele 0 1; OAddMessage (str "alice") (str "u3") (str "three")].

Definition sample_session : session :=
  mkSession (str "alice")
    [mkMessage 0 (str "u1") (str "one"); mkMessage 1 (str "u2") (str "two")] {[1]}.

Lemma quit_expunges_marked_witness :
  w_sessions (run empty_world sample_ops) !! 0%nat = Some sample_session
  /\ (Quit (w_store (run empty_world sample_ops)) sample_session).2 = 1
  /\ blen (maildrop (run empty_world sample_ops) (str "alice"))
     - blen (maildrop (act (run empty_world sample_ops) (OQuit 0)) (str "alice")) = 1.
Proof.
  assert (w_sessions (run empty_world sample_ops) !! 0%nat = Some sample_session) as Hi
    by (vm_compute; reflexivity).
  destruct (quit_expunges_marked sample_ops 0%nat sample_session Hi) as (_ & _ & Hc).
  split; [exact Hi|]. split; [vm_compute; reflexivity|].
  etransitivity; [symmetry; exact Hc | vm_compute; reflexivity].
Defined.
