(* ===== verification/ConnState.v ===== *)
(** * The state a POP3 connection runs in, and the monad of its handlers

    The [Conn] struct of pop3server/conn.go, the environment it acts on, and
    the primitive effects: field updates, buffered I/O, calls into the session,
    the TLS handshake, waiting. *)
From S2P Require Import Prelude GoStrings Errors DotStuff Parse Net Session Options.

Inductive connState := stateAuthorization | stateTransaction.

#[export] Instance connState_eq_dec : EqDecision connState.
Proof. solve_decision. Defined.

(** What an observer of the connection sees happen, besides the bytes on the
    wire.  [EvCall] records the state and the TLS flag in which the session's
    method was entered; [EvFail] is the increment of [errorCount]. *)
Inductive event :=
| EvCall (m : method) (st : connState) (tls : bool)
| EvCommand (cmd : bytes)
| EvFail
| EvHijack
| EvBodyClose
| EvNetClose
| EvCancel
| EvOnCommand (cmd : bytes) (dur : Z) (err : option goerr)
| EvOnTimeout (k : timeout_kind)
| EvOnPanic.

(** The outcome of the next TLS handshake: success at a time, with what the
    peer sends inside; failure at a time; or a peer that stalls. *)
Inductive Handshake :=
| HsOk (t : Z) (items : list (Z * NetItem))
| HsFail (t : Z) (e : goerr)
| HsStall.

Section State.
Context {S : Type}.

(** [Conn].  [netConn] is the [net] of the state below; [server] is the options
    the handlers take. *)
Record Conn := mkConn {
  reader : Reader;
  writer : Writer_;
  session : option S;
  state : connState;
  ctx : Context;
  username : bytes;
  rawArg : bytes;
  errorCount : Z;
  isTLS : bool;
  startTime : Z;
  hijacked : bool;
  closePending : bool;
  lastErr : option goerr
}.

Definition set_reader v c := mkConn v (writer c) (session c) (state c) (ctx c) (username c)
  (rawArg c) (errorCount c) (isTLS c) (startTime c) (hijacked c) (closePending c) (lastErr c).
Definition set_writer v c := mkConn (reader c) v (session c) (state c) (ctx c) (username c)
  (rawArg c) (errorCount c) (isTLS c) (startTime c) (hijacked c) (closePending c) (lastErr c).
Definition set_session v c := mkConn (reader c) (writer c) v (state c) (ctx c) (username c)
  (rawArg c) (errorCount c) (isTLS c) (startTime c) (hijacked c) (closePending c) (lastErr c).
Definition set_state v c := mkConn (reader c) (writer c) (session c) v (ctx c) (username c)
  (rawArg c) (errorCount c) (isTLS c) (startTime c) (hijacked c) (closePending c) (lastErr c).
Definition set_username v c := mkConn (reader c) (writer c) (session c) (state c) (ctx c) v
  (rawArg c) (errorCount c) (isTLS c) (startTime c) (hijacked c) (closePending c) (lastErr c).
Definition set_rawArg v c := mkConn (reader c) (writer c) (session c) (state c) (ctx c) (username c)
  v (errorCount c) (isTLS c) (startTime c) (hijacked c) (closePending c) (lastErr c).
Definition set_errorCount v c := mkConn (reader c) (writer c) (session c) (state c) (ctx c)
  (username c) (rawArg c) v (isTLS c) (startTime c) (hijacked c) (closePending c) (lastErr c).
Definition set_isTLS v c := mkConn (reader c) (writer c) (session c) (state c) (ctx c) (username c)
  (rawArg c) (errorCount c) v (startTime c) (hijacked c) (closePending c) (lastErr c).
Definition set_hijacked v c := mkConn (reader c) (writer c) (session c) (state c) (ctx c) (username c)
  (rawArg c) (errorCount c) (isTLS c) (startTime c) v (closePending c) (lastErr c).
Definition set_closePending v c := mkConn (reader c) (writer c) (session c) (state c) (ctx c)
  (username c) (rawArg c) (errorCount c) (isTLS c) (startTime c) (hijacked c) v (lastErr c).
Definition set_lastErr v c := mkConn (reader c) (writer c) (session c) (state c) (ctx c) (username c)
  (rawArg c) (errorCount c) (isTLS c) (startTime c) (hijacked c) (closePending c) v.

(** The connection and what it acts on: the network, the handshakes to come,
    and the log of events so far. *)
Record St := mkSt {
  conn : Conn;
  net : Net;
  handshakes : list Handshake;
  log : list event
}.

(** How a computation ends: with a value, in a panic, or never. *)
Inductive outcome (A : Type) := Val (a : A) | Panicked | Blocked.
Arguments Val {A}.
Arguments Panicked {A}.
Arguments Blocked {A}.

Definition M (A : Type) : Type := St -> St * outcome A.

Definition ret {A} (a : A) : M A := fun st => (st, Val a).

Definition bind {A B} (m : M A) (k : A -> M B) : M B := fun st =>
  match m st with
  | (st', Val a) => k a st'
  | (st', Panicked) => (st', Panicked)
  | (st', Blocked) => (st', Blocked)
  end.

Definition panic {A} : M A := fun st => (st, Panicked).
Definition block {A} : M A := fun st => (st, Blocked).

(** [m] with [fin] deferred: [fin] runs when [m] returns and when it panics. *)
Definition finally {A} (m : M A) (fin : M unit) : M A := fun st =>
  match m st with
  | (st', Val a) => bind fin (fun _ => ret a) st'
  | (st', Panicked) => bind fin (fun _ => panic) st'
  | (st', Blocked) => (st', Blocked)
  end.

Definition gets {A} (f : St -> A) : M A := fun st => (st, Val (f st)).
Definition getc {A} (f : Conn -> A) : M A := gets (fun st => f (conn st)).
Definition modc (f : Conn -> Conn) : M unit := fun st =>
  (mkSt (f (conn st)) (net st) (handshakes st) (log st), Val tt).
Definition modn (f : Net -> Net) : M unit := fun st =>
  (mkSt (conn st) (f (net st)) (handshakes st) (log st), Val tt).
Definition emit_ev (e : event) : M unit := fun st =>
  (mkSt (conn st) (net st) (handshakes st) (log st ++ [e]), Val tt).

(** A network operation. *)
Definition lift_io {A} (f : Net -> Net * io A) : M A := fun st =>
  let '(n, r) := f (net st) in
  (mkSt (conn st) n (handshakes st) (log st),
   match r with IoVal a => Val a | IoBlock => Blocked end).
End State.
Arguments Conn : clear implicits.
Arguments St : clear implicits.
Arguments M : clear implicits.
Arguments outcome : clear implicits.
Arguments Val {A}.
Arguments Panicked {A}.
Arguments Blocked {A}.

Notation "x <- m ;; k" := (bind m (fun x => k))
  (at level 100, m at next level, right associativity) : pop3_scope.
Notation "m ;;; k" := (bind m (fun _ => k)) (at level 100, right associativity) : pop3_scope.

Section Prims.
Context {S : Type}.
Variable opts : Options S.
Local Abbreviation M := (M S).

(** ** Buffered output *)

Definition with_writer {A} (f : Writer_ -> Net -> Net * io (Writer_ * A)) : M A :=
  w <- getc writer;;
  res <- lift_io (f w);;
  modc (set_writer res.1);;;
  ret res.2.

(** [c.writer.WriteString], [c.writer.Write] (also [fmt.Fprintf]), [Flush]. *)
Definition WriteString (s : bytes) : M unit :=
  with_writer (wr_WriteString (WriteTimeout opts) s);;; ret tt.
Definition WriteBytes (s : bytes) : M (option goerr) :=
  with_writer (wr_Write (WriteTimeout opts) s).
Definition Fprintf (s : bytes) : M unit := WriteBytes s;;; ret tt.
Definition flush : M (option goerr) := with_writer (Flush (WriteTimeout opts)).

(** [c.reader.ReadLine()]. *)
Definition readLine1 : M (bytes * bool * option goerr) :=
  r <- getc reader;;
  res <- lift_io (ReadLine r);;
  modc (set_reader res.1);;;
  ret res.2.

(** ** Responses: conn.go's [ok] and [err] *)

Definition ok (msg : bytes) : M unit :=
  if is_nil msg then WriteString (str "+OK" ++ crlf)
  else WriteString (str "+OK ");;; WriteString (sanitizeResponse msg);;; WriteString crlf.

Definition err (msg : bytes) : M unit :=
  if is_nil msg then WriteString (str "-ERR" ++ crlf)
  else WriteString (str "-ERR ");;; WriteString (sanitizeResponse msg);;; WriteString crlf.

(** ** Hijack *)

Definition Hijack : M (option goerr) :=
  st <- getc state;;
  if bool_decide (st <> stateAuthorization)
  then ret (Some (EPlain (str "pop3server: Hijack only valid during authentication")))
  else
    h <- getc hijacked;;
    if (h : bool) then ret (Some (EPlain (str "pop3server: connection already hijacked")))
    else
      e <- flush;;
      match e with
      | Some e => ret (Some e)
      | None => modc (set_hijacked true);;; emit_ev EvHijack;;; ret None
      end.

(** [SetTLS], [IsTLS]. *)
Definition SetTLS (v : bool) : M unit := modc (set_isTLS v).
Definition IsTLS : M bool := getc isTLS.

(** ** Calls into consumer code

    [upd] stores the consumer's state when its program ends. *)
Fixpoint run {T A} (upd : T -> M unit) (p : Prog T A) : M A :=
  match p with
  | PRet s a => upd s;;; ret a
  | PPanic s => upd s;;; panic
  | PHijack k => r <- Hijack;; run upd (k r)
  | POK msg k => ok msg;;; run upd k
  | PErr msg k => err msg;;; run upd k
  | PSetTLS v k => SetTLS v;;; run upd k
  | PIsTLS k => b <- IsTLS;; run upd (k b)
  | PWork d k => modn (fun n => wait_until (now n + d) n);;; run upd k
  end.

(** A call of a session method: a nil session panics. *)
Definition call {A} (m : method) (f : S -> Prog S A) : M A :=
  st <- getc state;; tls <- getc isTLS;;
  emit_ev (EvCall m st tls);;;
  s <- getc session;;
  match s with
  | None => panic
  | Some s => run (fun s' => modc (set_session (Some s'))) (f s)
  end.

(** A type assertion on the session. *)
Definition assert_session {A} (f : S -> option A) : M (option A) :=
  s <- getc session;;
  ret (match s with Some s => f s | None => None end).

(** ** Deadlines, waiting, the handshake *)

(** Sleep for [d], or until [ctx.Done()]. *)
Definition sleep_ctx (d : Z) : M unit :=
  c <- getc ctx;;
  modn (fun n => match ctx_done c with
                 | Some t => wait_until (Z.min (now n + d) t) n
                 | None => wait_until (now n + d) n
                 end).

(** [tls.Server(c.netConn, cfg).HandshakeContext(ctx)].  On success the
    connection is the TLS one: what the peer sends comes from inside it.  The
    server's last messages are written as the handshake completes: they fail when
    the write deadline, which may be the one the flush before it left, is past. *)
Definition handshake (cx : Context) : M (option goerr) := fun st =>
  let n := net st in
  let limit := min_opt (rdl n) (ctx_done cx) in
  let late t := match limit with Some d => d <=? Z.max (now n) t | None => false end in
  let mute t := match wdl n with Some d => d <=? Z.max (now n) t | None => false end in
  let stop := (mkSt (conn st) (wait_until (default 0 limit) n) (tail (handshakes st)) (log st),
               Val (Some timeoutError)) in
  match head (handshakes st) with
  | Some (HsOk t items) =>
    if late t then stop
    else if mute t
    then (mkSt (conn st) (wait_until t n) (tail (handshakes st)) (log st), Val (Some timeoutError))
    else (mkSt (conn st) (set_inbox items (wait_until t n)) (tail (handshakes st)) (log st), Val None)
  | Some (HsFail t e) =>
    if late t then stop
    else (mkSt (conn st) (wait_until t n) (tail (handshakes st)) (log st), Val (Some e))
  | Some HsStall | None =>
    match limit with Some _ => stop | None => (st, Blocked) end
  end.
End Prims.
