(* ===== verification/ConnHandlers.v ===== *)
(** * The command handlers of pop3server/conn.go

    One definition per method of [Conn], in the order of the source: dispatch,
    the handlers, the error paths, the line reader. *)
From S2P Require Import Prelude GoStrings GoConv Errors DotStuff Parse Net Session Options ConnState.

Section Handlers.
Context {Sess : Type} `{Unicode} `{Session Sess}.
Variable opts : Options Sess.
(** The width of Go's [int] on the target. *)
Variable int_width : Z.
Local Abbreviation M := (M Sess).

(** ** Small helpers *)

Fixpoint for_each {A} (f : A -> M unit) (l : list A) : M unit :=
  match l with
  | [] => ret tt
  | a :: l' => f a;;; for_each f l'
  end.

Definition authAllowed : M bool :=
  tls <- getc isTLS;; ret (InsecureAuth opts || tls).

(** The delay applied after the [n]-th error: [time.Duration(n) * delay], which
    wraps at 64 bits, capped. *)
Definition error_delay (n : Z) : Z :=
  let d := wrap_s 64 (n * ErrorDelay opts) in
  let limit := MaxErrorDelay opts in
  if (0 <? limit) && (limit <? d) then limit else d.

Definition applyErrorDelay : M unit :=
  if ErrorDelay opts <=? 0 then ret tt
  else n <- getc errorCount;; sleep_ctx (error_delay n).

Definition maxErrorsExceeded : M bool :=
  n <- getc errorCount;; ret ((0 <? MaxErrors opts) && (MaxErrors opts <=? n)).

(** [c.errorCount++]. *)
Definition countError : M unit :=
  n <- getc errorCount;; modc (set_errorCount (n + 1));;; emit_ev EvFail.

Definition clientError (msg : bytes) : M unit :=
  countError;;;
  le <- getc lastErr;;
  match le with
  | None => modc (set_lastErr (Some (EPop3 (mkError [] msg false))))
  | Some _ => ret tt
  end;;;
  applyErrorDelay;;;
  err opts msg.

Definition sessionError (e : goerr) : M unit :=
  modc (set_lastErr (Some e));;;
  match as_error e with
  | Some perr =>
    err opts (wireMessage perr);;;
    if Close perr then modc (set_closePending true) else ret tt
  | None =>
    if is_sentinel ErrCloseConnection e then
      err opts (str "internal error");;; modc (set_closePending true)
    else if StrictSessionErrors opts then err opts (str "internal error")
    else err opts (err_text e)
  end.

(** ** Deadlines and lines *)

Definition nextReadDeadline : M (option Z) :=
  st <- getc state;; t0 <- getc startTime;; t <- gets (fun s => now (net s));;
  let idle := if bool_decide (st = stateAuthorization) && (0 <? AuthIdleTimeout opts)
              then AuthIdleTimeout opts else IdleTimeout opts in
  let deadline := if 0 <? idle then Some (t + idle) else None in
  if 0 <? AbsoluteSessionTimeout opts then
    let abs := t0 + AbsoluteSessionTimeout opts in
    ret (match deadline with
         | None => Some abs
         | Some d => if abs <? d then Some abs else Some d
         end)
  else ret deadline.

Definition arm_read : M unit :=
  d <- nextReadDeadline;;
  match d with
  | Some _ => modn (SetReadDeadline d)
  | None => ret tt
  end.

(** The loop of [readLine].  Every round but the last adds a byte to [line], so
    [maxLen + 2] rounds are enough. *)
Fixpoint readLine_go (k : nat) (line : bytes) : M (result bytes) :=
  match k with
  | O => block
  | S k' =>
    res <- readLine1;;
    let '(chunk, isPrefix, e) := res in
    match e with
    | Some e => ret (inr e)
    | None =>
      let line := line ++ chunk in
      if isPrefix then
        if MaxLineLength opts <? blen line then ret (inr (ESentinel errLineTooLong))
        else readLine_go k' line
      else if MaxLineLength opts <? blen line then ret (inr (ESentinel errLineTooLong))
      else ret (inl line)
    end
  end.

Definition readLine : M (result bytes) := readLine_go (Z.to_nat (MaxLineLength opts) + 2) [].

(** ** CAPA *)

Definition capSuppressed (name : bytes) : bool :=
  existsb (fun s => equal_fold s name) (SuppressedCaps opts).

Definition writeCap (name : bytes) (params : list bytes) : M unit :=
  if capSuppressed name then ret tt
  else
    WriteString opts name;;;
    (if 0 <? blen params then WriteString opts (str " ");;; WriteString opts (join (str " ") params)
     else ret tt);;;
    WriteString opts crlf.

Definition handleCapa : M unit :=
  allowed <- authAllowed;;
  WriteString opts (str "+OK Capability list follows" ++ crlf);;;
  writeCap (str "TOP") [];;;
  writeCap (str "UIDL") [];;;
  (if allowed : bool then writeCap (str "USER") [] else ret tt);;;
  writeCap (str "RESP-CODES") [];;;
  writeCap (str "PIPELINING") [];;;
  tls <- getc isTLS;;
  (if TLSConfig opts && negb tls then writeCap (str "STLS") [] else ret tt);;;
  (if allowed then
     sasl <- assert_session as_SASL;;
     match sasl with
     | Some x =>
       mechs <- call opts MAuthenticateMechanisms (AuthenticateMechanisms x);;
       if 0 <? blen mechs then writeCap (str "SASL") mechs else ret tt
     | None => ret tt
     end
   else ret tt);;;
  lang <- assert_session as_Lang;;
  match lang with Some _ => writeCap (str "LANG") [] | None => ret tt end;;;
  utf8 <- assert_session as_UTF8;;
  match utf8 with Some _ => writeCap (str "UTF8") [] | None => ret tt end;;;
  for_each (fun c => writeCap (cap_Name c) (cap_Params c)) (Caps opts);;;
  WriteString opts (str "." ++ crlf).

(** ** Authentication *)

Definition handleUser (args : list bytes) : M unit :=
  allowed <- authAllowed;;
  if negb allowed then clientError (str "Authentication requires TLS. Use STLS first")
  else match args with
  | [] => clientError (str "Syntax: USER <username>")
  | a :: _ =>
    if containsCTL a then clientError (str "Invalid username")
    else modc (set_username a);;; ok opts []
  end.

(** The shared end of [handlePass] and [handleAuth]. *)
Definition auth_result (e : option goerr) : M unit :=
  match e with
  | Some e =>
    (if AuthFailuresExemptFromMaxErrors opts then ret tt else countError);;;
    applyErrorDelay;;;
    sessionError e
  | None =>
    h <- getc hijacked;;
    if h : bool then ret tt
    else modc (set_state stateTransaction);;; ok opts (str "Authentication successful")
  end.

Definition handlePass (cx : Context) : M unit :=
  allowed <- authAllowed;;
  if negb allowed then clientError (str "Authentication requires TLS. Use STLS first")
  else
    user <- getc username;;
    if is_nil user then clientError (str "Send USER first")
    else
      password <- getc rawArg;;
      if is_nil password then clientError (str "Syntax: PASS <password>")
      else
        e <- call opts MLogin (s_Login cx user password);;
        auth_result e.

(** The response of an [AUTH PLAIN] without an initial response: [None] when
    the continuation could not be read. *)
Definition auth_continuation : M (option bytes) :=
  WriteString opts (str "+ " ++ crlf);;;
  flush opts;;;
  arm_read;;;
  r <- readLine;;
  modn (SetReadDeadline None);;;
  match r with
  | inr _ => modc (set_closePending true);;; ret None
  | inl line => ret (Some (trim_space line))
  end.

Definition auth_plain (cx : Context) (sasl : SessionSASL Sess) (encoded : bytes) : M unit :=
  if encoded =s? str "*" then err opts (str "Authentication aborted")
  else match decodeSASLPlain encoded with
  | inr parseErr =>
    modc (set_lastErr (Some parseErr));;; clientError (str "Invalid SASL PLAIN response")
  | inl (identity, user, password) =>
    e <- call opts MAuthenticatePlain (AuthenticatePlain sasl cx identity user password);;
    auth_result e
  end.

Definition handleAuth (cx : Context) (args : list bytes) : M unit :=
  allowed <- authAllowed;;
  if negb allowed then clientError (str "Authentication requires TLS. Use STLS first")
  else
    sasl <- assert_session as_SASL;;
    match sasl with
    | None => clientError (str "SASL not supported")
    | Some x =>
      match args with
      | [] =>
        WriteString opts (str "+OK" ++ crlf);;;
        mechs <- call opts MAuthenticateMechanisms (AuthenticateMechanisms x);;
        for_each (fun m => WriteString opts m;;; WriteString opts crlf) mechs;;;
        WriteString opts (str "." ++ crlf)
      | a :: rest =>
        adv <- (if to_upper a =s? str "PLAIN" then
                  mechs <- call opts MAuthenticateMechanisms (AuthenticateMechanisms x);;
                  ret (mechanismAdvertised mechs (str "PLAIN"))
                else ret false);;
        if negb adv then clientError (str "Unsupported SASL mechanism")
        else match rest with
        | initial :: _ => auth_plain cx x initial
        | [] =>
          r <- auth_continuation;;
          match r with
          | None => ret tt
          | Some encoded => auth_plain cx x encoded
          end
        end
      end
    end.

Definition handleSTLS (cx : Context) : M unit :=
  tls <- getc isTLS;;
  if tls : bool then clientError (str "Already using TLS")
  else if negb (TLSConfig opts) then clientError (str "TLS not available")
  else
    st <- getc state;;
    if bool_decide (st <> stateAuthorization)
    then clientError (str "STLS only allowed before authentication")
    else
      r <- getc reader;;
      if 0 <? Buffered r then
        clientError (str "Pipelining after STLS not permitted");;;
        modc (set_closePending true)
      else
        ok opts (str "Begin TLS negotiation");;;
        flush opts;;;
        d <- nextReadDeadline;;
        (match d with Some _ => modn (SetDeadline d) | None => ret tt end);;;
        e <- handshake cx;;
        modn (SetDeadline None);;;
        match e with
        | Some _ => modc (set_closePending true)
        | None =>
          modc (set_reader NewReader);;;
          modc (set_writer NewWriter);;;
          modc (set_isTLS true);;;
          modc (set_username [])
        end.

(** ** TRANSACTION commands *)

Definition handleStat (cx : Context) : M unit :=
  r <- call opts MStat (s_Stat cx);;
  match r with
  | inr e => sessionError e
  | inl (count, size) =>
    Fprintf opts (str "+OK " ++ itoa count ++ str " " ++ itoa size ++ crlf)
  end.

(** The error a session that breaks the single-message contract is given. *)
Definition no_such_message : goerr := EPop3 (mkError [] (str "No such message") false).

Definition handleList (cx : Context) (args : list bytes) : M unit :=
  match parseOptionalMsgNum int_width args with
  | inr e => clientError (err_text e)
  | inl msg =>
    r <- call opts MList (s_List cx msg);;
    match r with
    | inr e => sessionError e
    | inl items =>
      if 0 <? msg then
        match items with
        | [item] =>
          Fprintf opts (str "+OK " ++ itoa (mi_Num item) ++ str " " ++ itoa (mi_Size item) ++ crlf)
        | _ => sessionError no_such_message
        end
      else
        Fprintf opts (str "+OK " ++ itoa (blen items) ++ str " messages" ++ crlf);;;
        for_each (fun item =>
          Fprintf opts (itoa (mi_Num item) ++ str " " ++ itoa (mi_Size item) ++ crlf)) items;;;
        WriteString opts (str "." ++ crlf)
    end
  end.

Definition handleUidl (cx : Context) (args : list bytes) : M unit :=
  match parseOptionalMsgNum int_width args with
  | inr e => clientError (err_text e)
  | inl msg =>
    r <- call opts MUidl (s_Uidl cx msg);;
    match r with
    | inr e => sessionError e
    | inl items =>
      if 0 <? msg then
        match items with
        | [item] =>
          WriteString opts (str "+OK " ++ itoa (mu_Num item) ++ str " "
                            ++ sanitizeResponse (mu_UniqueID item) ++ crlf)
        | _ => sessionError no_such_message
        end
      else
        WriteString opts (str "+OK " ++ itoa (blen items) ++ str " messages" ++ crlf);;;
        for_each (fun item =>
          WriteString opts (itoa (mu_Num item) ++ str " "
                            ++ sanitizeResponse (mu_UniqueID item) ++ crlf)) items;;;
        WriteString opts (str "." ++ crlf)
    end
  end.

(** The connection's buffered writer as the dot-stuffing writer's target. *)
#[local] Instance conn_writer : Writer (St Sess) := fun st p =>
  match WriteBytes opts p st with
  | (st', Val None) => (st', None)
  | (st', Val (Some e)) => (st', Some (WFail e))
  | (st', _) => (st', Some WBlock)
  end.

(** [newDotStuffWriter], [io.Copy], and on an error the connection is marked
    for closing; else the writer's [Close], whose error is ignored. *)
Definition stream_body (b : Body) : M unit := fun st =>
  match ds_copy (newDotStuffWriter st) (body_chunks b) (body_err b) with
  | (d, Some WBlock) => (ds_w d, Blocked)
  | (d, Some (WFail e)) =>
    (modc (set_lastErr (Some e));;; modc (set_closePending true)) (ds_w d)
  | (d, None) =>
    match ds_Close d with
    | (d', Some WBlock) => (ds_w d', Blocked)
    | (d', _) => (ds_w d', Val tt)
    end
  end.

(** The success response of RETR and TOP, the body streamed and closed. *)
Definition send_body (status : bytes) (b : Body) : M unit :=
  finally (ok opts status;;; flush opts;;; stream_body b) (emit_ev EvBodyClose).

Definition handleRetr (cx : Context) (args : list bytes) : M unit :=
  match parseMsgNum int_width args with
  | inr e => clientError (err_text e)
  | inl msg =>
    r <- call opts MRetr (s_Retr cx msg);;
    match r with
    | inr e => sessionError e
    | inl b =>
      send_body (match body_octets b with
                 | Some n => itoa n ++ str " octets"
                 | None => str "Message follows"
                 end) b
    end
  end.

Definition handleTop (cx : Context) (args : list bytes) : M unit :=
  match args with
  | a :: l :: _ =>
    match parseMsgNum int_width [a] with
    | inr e => clientError (err_text e)
    | inl msg =>
      match parseInt int_width l with
      | inr _ => clientError (str "Invalid number of lines")
      | inl lines =>
        if lines <? 0 then clientError (str "Invalid number of lines")
        else
          r <- call opts MTop (s_Top cx msg lines);;
          match r with
          | inr e => sessionError e
          | inl b => send_body (str "Top of message follows") b
          end
      end
    end
  | _ => clientError (str "Syntax: TOP <msg> <lines>")
  end.

Definition handleDele (cx : Context) (args : list bytes) : M unit :=
  match parseMsgNum int_width args with
  | inr e => clientError (err_text e)
  | inl msg =>
    e <- call opts MDele (s_Dele cx msg);;
    match e with
    | Some e => sessionError e
    | None => ok opts (str "Message deleted")
    end
  end.

Definition handleRset (cx : Context) : M unit :=
  e <- call opts MRset (s_Rset cx);;
  match e with
  | Some e => sessionError e
  | None => ok opts (str "Maildrop has been reset")
  end.

Definition handleNoop (cx : Context) : M unit :=
  e <- call opts MNoop (s_Noop cx);;
  match e with
  | Some e => sessionError e
  | None => ok opts []
  end.

Definition handleQuit (cx : Context) : M unit :=
  r <- call opts MQuit (s_Quit cx);;
  match r with
  | inr e => sessionError e
  | inl expunged =>
    if 0 <? expunged
    then WriteString opts (str "+OK " ++ itoa expunged ++ str " messages expunged" ++ crlf)
    else ok opts (str "Goodbye")
  end.

(** ** LANG and UTF8 *)

Definition handleLang (cx : Context) (args : list bytes) : M unit :=
  lang <- assert_session as_Lang;;
  match lang with
  | None => clientError (str "LANG not supported")
  | Some x =>
    match args with
    | [] =>
      r <- call opts MListLanguages (ListLanguages x cx);;
      match r with
      | inr e => sessionError e
      | inl langs =>
        WriteString opts (str "+OK Language list follows" ++ crlf);;;
        for_each (fun l => Fprintf opts (sanitizeResponse (li_Tag l) ++ str " "
                             ++ sanitizeResponse (li_Description l) ++ crlf)) langs;;;
        WriteString opts (str "." ++ crlf)
      end
    | a :: _ =>
      r <- call opts MSetLanguage (SetLanguage x cx a);;
      match r with
      | inr e => sessionError e
      | inl tag => Fprintf opts (str "+OK Language set to " ++ sanitizeResponse tag ++ crlf)
      end
    end
  end.

Definition handleUTF8 (cx : Context) : M unit :=
  utf8 <- assert_session as_UTF8;;
  match utf8 with
  | None => clientError (str "UTF8 not supported")
  | Some x =>
    e <- call opts MEnableUTF8 (EnableUTF8 x cx);;
    match e with
    | Some e => sessionError e
    | None => ok opts (str "UTF8 mode enabled")
    end
  end.

(** ** Dispatch: [true] asks for the connection to be closed *)

Definition dispatchUnknown (cx : Context) (cmd : bytes) (args : list bytes) : M bool :=
  let unknown :=
    modc (set_lastErr (Some (EPlain (str "unknown command: " ++ cmd))));;;
    clientError (str "Unknown command: " ++ cmd);;;
    ret false in
  match UnknownCommandHandler opts with
  | None => unknown
  | Some h =>
    s <- getc session;;
    match s with
    | None => panic
    | Some s =>
      r <- run opts (fun s' => modc (set_session (Some s'))) (h cx cmd args s);;
      let '(handled, closeConn) := r in
      if handled : bool then ret closeConn else unknown
    end
  end.

Definition known_verb (cmd : bytes) (l : list string) : bool :=
  existsb (fun v => cmd =s? str v) l.

Definition dispatchAuth (cx : Context) (cmd : bytes) (args : list bytes) : M bool :=
  if cmd =s? str "CAPA" then handleCapa;;; ret false
  else if cmd =s? str "USER" then handleUser args;;; ret false
  else if cmd =s? str "PASS" then handlePass cx;;; ret false
  else if cmd =s? str "AUTH" then handleAuth cx args;;; ret false
  else if cmd =s? str "STLS" then handleSTLS cx;;; ret false
  else if cmd =s? str "QUIT" then ok opts (str "Goodbye");;; ret true
  else if cmd =s? str "UTF8" then handleUTF8 cx;;; ret false
  else if cmd =s? str "LANG" then handleLang cx args;;; ret false
  else if known_verb cmd ["STAT"; "LIST"; "UIDL"; "RETR"; "TOP"; "DELE"; "RSET"; "NOOP"]%string
  then clientError (str "Not authenticated");;; ret false
  else if cmd =s? str "LAST" then err opts (str "LAST is obsolete (RFC 1939)");;; ret false
  else dispatchUnknown cx cmd args.

Definition dispatchTransaction (cx : Context) (cmd : bytes) (args : list bytes) : M bool :=
  if cmd =s? str "CAPA" then handleCapa;;; ret false
  else if cmd =s? str "STAT" then handleStat cx;;; ret false
  else if cmd =s? str "LIST" then handleList cx args;;; ret false
  else if cmd =s? str "UIDL" then handleUidl cx args;;; ret false
  else if cmd =s? str "RETR" then handleRetr cx args;;; ret false
  else if cmd =s? str "TOP" then handleTop cx args;;; ret false
  else if cmd =s? str "DELE" then handleDele cx args;;; ret false
  else if cmd =s? str "RSET" then handleRset cx;;; ret false
  else if cmd =s? str "NOOP" then handleNoop cx;;; ret false
  else if cmd =s? str "QUIT" then handleQuit cx;;; ret true
  else if cmd =s? str "LANG" then handleLang cx args;;; ret false
  else if cmd =s? str "UTF8" then handleUTF8 cx;;; ret false
  else if cmd =s? str "LAST" then err opts (str "LAST is obsolete (RFC 1939)");;; ret false
  else dispatchUnknown cx cmd args.

(** The [default] case of the source is unreachable: the state has two values. *)
Definition dispatch (cx : Context) (cmd : bytes) (args : list bytes) : M bool :=
  st <- getc state;;
  match st with
  | stateAuthorization => dispatchAuth cx cmd args
  | stateTransaction => dispatchTransaction cx cmd args
  end.
End Handlers.
