(* ===== verification/ConnServe.v ===== *)
(** * The command loop and the life of one connection

    [serve] and [close] of pop3server/conn.go; [handleConn], [ServeConn],
    [recoverConn] and [isTLSConn] of pop3server/server.go. *)
From S2P Require Import Prelude GoStrings GoConv Errors Parse Net Session Options ConnState ConnHandlers.

(** A [net.Conn] as [isTLSConn] sees it: a TLS connection, a wrapper with an
    [Unwrap] method, or anything else. *)
#[warnings="-register-all"]
Inductive NetConn :=
| TLSConn
| Wrapper (inner : option NetConn)
| OtherConn.

Fixpoint isTLSConn_go (c : NetConn) : bool :=
  match c with
  | TLSConn => true
  | Wrapper (Some inner) => isTLSConn_go inner
  | Wrapper None => false
  | OtherConn => false
  end.

Definition isTLSConn (c : option NetConn) : bool :=
  match c with Some c => isTLSConn_go c | None => false end.

(** Everything the environment may still deliver to a connection: buffered
    bytes, the peer's items, and what is inside the handshakes to come. *)
Definition hs_weight (h : Handshake) : nat :=
  match h with HsOk _ items => Datatypes.S (inbox_weight items) | _ => 1%nat end.

Definition st_weight {Sess} (st : St Sess) : nat :=
  (rweight (reader (conn st)) (net st) + list_sum (map hs_weight (handshakes st)))%nat.

Section Serve.
Context {Sess : Type} `{Unicode} `{Session Sess}.
Variable opts : Options Sess.
Variable int_width : Z.
Local Abbreviation M := (M Sess).

(** [close]. *)
Definition close : M unit :=
  s <- getc session;;
  (match s with Some _ => call opts MClose s_Close | None => ret tt end);;;
  h <- getc hijacked;;
  if h : bool then ret tt else emit_ev EvNetClose.

(** The answer to a failed read of a command line. *)
Definition read_failed (e : goerr) : M unit :=
  if isTimeout e then
    t0 <- getc startTime;; t <- gets (fun s => now (net s));;
    if (0 <? AbsoluteSessionTimeout opts) && (AbsoluteSessionTimeout opts <=? t - t0) then
      err opts (str "[IN-USE] Maximum session duration exceeded");;;
      flush opts;;;
      (if OnTimeout opts then emit_ev (EvOnTimeout TimeoutAbsolute) else ret tt)
    else
      err opts (str "Idle timeout, connection timed out");;;
      flush opts;;;
      (if OnTimeout opts then emit_ev (EvOnTimeout TimeoutIdle) else ret tt)
  else if is_sentinel errLineTooLong e then
    err opts (str "Line too long");;; flush opts;;; ret tt
  else ret tt.

(** What follows the dispatch of a command: the hook, the limits, the flush.
    [true] means the loop goes on. *)
Definition finish_command (cmd : bytes) (start : Z) (quit : bool) : M bool :=
  (if OnCommand opts then
     t' <- gets (fun s => now (net s));; le <- getc lastErr;;
     emit_ev (EvOnCommand cmd (t' - start) le)
   else ret tt);;;
  h <- getc hijacked;;
  if h : bool then ret false
  else
    cp <- getc closePending;;
    let quit := quit || cp in
    over <- maxErrorsExceeded opts;;
    quit <- (if negb quit && over
             then err opts (str "Too many errors, closing connection");;; ret true
             else ret quit);;
    e <- flush opts;;
    match e with
    | Some _ => ret false
    | None => ret (negb quit)
    end.

(** The context of one command. *)
Definition command_context (cx : Context) (t : Z) : Context :=
  if 0 <? CommandTimeout opts then WithTimeout cx t (CommandTimeout opts) else cx.

(** A command line that was read: parse, dispatch, finish. *)
Definition run_command (line : bytes) : M bool :=
  let '(verb, raw) := splitCommand line in
  let cmd := to_upper verb in
  let args := fields raw in
  modc (set_rawArg raw);;;
  cx <- getc ctx;; t <- gets (fun s => now (net s));;
  modn (SetDeadline None);;;
  modc (set_lastErr None);;;
  start <- gets (fun s => now (net s));;
  emit_ev (EvCommand cmd);;;
  quit <- dispatch opts int_width (command_context cx t) cmd args;;
  finish_command cmd start quit.

(** One round of the loop of [serve]. *)
Definition serve_step : M bool :=
  arm_read opts;;;
  r <- readLine opts;;
  match r with
  | inr e => read_failed e;;; ret false
  | inl line =>
    let line := trim_space line in
    if is_nil line then ret true else run_command line
  end.

Fixpoint serve_loop (k : nat) : M unit :=
  match k with
  | O => block
  | Datatypes.S k' =>
    go <- serve_step;;
    if go : bool then serve_loop k' else ret tt
  end.

(** The greeting and the loop, with a round for everything the environment
    still has to deliver, and one more. *)
Definition serve_body : M unit :=
  ok opts (Greeting opts);;;
  e <- flush opts;;
  match e with
  | Some _ => ret tt
  | None => fun st => serve_loop (Datatypes.S (st_weight st)) st
  end.

Definition serve : M unit := finally (finally serve_body close) (emit_ev EvCancel).

(** The connection [handleConn] builds at time [now n]. *)
Definition newConn (nc : option NetConn) (cancel : option Z) (t : Z) : Conn Sess := {|
  reader := NewReader;
  writer := NewWriter;
  session := None;
  state := stateAuthorization;
  ctx := if 0 <? AbsoluteSessionTimeout opts
         then WithTimeout (mkContext None cancel) t (AbsoluteSessionTimeout opts)
         else mkContext None cancel;
  username := [];
  rawArg := [];
  errorCount := 0;
  isTLS := isTLSConn nc;
  startTime := t;
  hijacked := false;
  closePending := false;
  lastErr := None
|}.

(** A refused connection: silently closed, or told why. *)
Definition reject (e : goerr) : M unit :=
  if is_sentinel ErrSilentReject e then emit_ev EvNetClose;;; emit_ev EvCancel
  else
    let msg := match as_error e with
               | Some perr => wireMessage perr
               | None => RejectMessage opts
               end in
    err opts msg;;;
    flush opts;;;
    emit_ev EvNetClose;;;
    emit_ev EvCancel.

(** [handleConn] on a fresh [Conn]: the session is asked for, then served. *)
Definition handleConn_go : M unit :=
  r <- run opts (fun _ : unit => ret tt) (NewSession opts);;
  match r with
  | inr e => reject e
  | inl s => modc (set_session (Some s));;; serve
  end.

(** [recoverConn], deferred around [m]. *)
Definition recoverConn (m : M unit) : M unit := fun st =>
  match m st with
  | (st', Panicked) =>
    ((if OnPanic opts then emit_ev EvOnPanic else ret tt);;; emit_ev EvNetClose) st'
  | r => r
  end.

(** [ServeConn]: the whole life of a connection, from the network's state, the
    time the server's context is cancelled, and the handshakes to come. *)
Definition ServeConn (nc : option NetConn) (cancel : option Z) (n : Net) (hs : list Handshake)
    : St Sess * outcome unit :=
  recoverConn handleConn_go (mkSt (newConn nc cancel (now n)) n hs []).
End Serve.
