(* ===== verification/Wire.v ===== *)
(** * What a handler puts on the wire

    Over a writer that works, the effect of a computation is the text it
    writes, the connection it leaves and the value it returns: buffers,
    flushes and the event log are abstracted away. *)
From S2P Require Import Prelude GoStrings GoConv Errors DotStuff Parse Net Session Options ConnState ConnHandlers.

Section Wire.
Context {Sess : Type} `{Unicode} `{HS : Session Sess}.
Variable opts : Options Sess.
Implicit Types st : St Sess.

(** Everything sent or still buffered. *)
Definition out st : bytes := written (writer (conn st)) (net st).

(** The output side works. *)
Definition works st : Prop := writable (WriteTimeout opts) (writer (conn st)) (net st).

(** The connection, less the buffer and the hook's error. *)
Definition norm (c : Conn Sess) : Conn Sess := set_lastErr None (set_writer NewWriter c).

(** From [st] to [st'], [t] was written, and the connection became [c]. *)
Record spoke (t : bytes) (c : Conn Sess) st st' : Prop := mkSpoke {
  sp_works : works st';
  sp_out : out st' = out st ++ t;
  sp_conn : norm (conn st') = c;
  sp_input : input_kept (net st) (net st')
}.

(** [m] returns [a] from [st], having written [t] and left the connection [c]. *)
Definition does {A} (m : M Sess A) st (t : bytes) (c : Conn Sess) (a : A) : Prop :=
  works st -> exists st', m st = (st', Val a) /\ spoke t c st st'.

Lemma spoke_refl st : works st -> spoke [] (norm (conn st)) st st.
Proof. intros Hw. split; auto; [by rewrite app_nil_r|reflexivity]. Qed.

Lemma spoke_trans t1 t2 c1 c2 st st1 st2 :
  spoke t1 c1 st st1 -> spoke t2 c2 st1 st2 -> spoke (t1 ++ t2) c2 st st2.
Proof.
  intros [W1 O1 C1 I1] [W2 O2 C2 I2]. split; auto; [by rewrite O2, O1, app_assoc | by etrans].
Qed.

(** Each rule names the connection [c] before; the text and the connection after
    are computed from it. *)
Lemma does_bind {A B} (m : M Sess A) (k : A -> M Sess B) st t1 t2 c1 c2 a b :
  does m st t1 c1 a ->
  (forall st1, norm (conn st1) = c1 -> does (k a) st1 t2 c2 b) ->
  does (bind m k) st (t1 ++ t2) c2 b.
Proof.
  intros Hm Hk Hw. destruct (Hm Hw) as (st1 & E1 & S1).
  destruct (Hk st1 (sp_conn _ _ _ _ S1) (sp_works _ _ _ _ S1)) as (st2 & E2 & S2).
  exists st2. unfold bind. rewrite E1. split; [done|]. by eapply spoke_trans.
Qed.

Lemma does_eq {A} (m : M Sess A) st t t' c c' a :
  does m st t c a -> t = t' -> c = c' -> does m st t' c' a.
Proof. by intros ? <- <-. Qed.

Lemma does_ret {A} (a : A) st c : norm (conn st) = c -> does (ret a) st [] c a.
Proof. intros <- Hw. exists st. split; [done | by apply spoke_refl]. Qed.

Lemma does_getc {A} (f : Conn Sess -> A) st c :
  norm (conn st) = c -> f (norm (conn st)) = f (conn st) -> does (getc f) st [] c (f c).
Proof. intros <- Hf Hw. exists st. rewrite Hf. split; [done | by apply spoke_refl]. Qed.

(** Reading something else. *)
Lemma does_gets {A} (f : St Sess -> A) st c : norm (conn st) = c -> does (gets f) st [] c (f st).
Proof. intros <- Hw. exists st. split; [done | by apply spoke_refl]. Qed.

Lemma does_modc f f' st c :
  norm (conn st) = c -> writer (f (conn st)) = writer (conn st) ->
  norm (f (conn st)) = f' (norm (conn st)) -> does (modc f) st [] (f' c) tt.
Proof.
  intros <- Hf Hn Hw. eexists. split; [reflexivity|]. split; simpl; auto; [| |reflexivity].
  - unfold works in *. simpl. by rewrite Hf.
  - unfold out. simpl. by rewrite Hf, app_nil_r.
Qed.

Lemma does_emit e st c : norm (conn st) = c -> does (emit_ev e) st [] c tt.
Proof.
  intros <- Hw. eexists. split; [reflexivity|]. split; simpl; auto; [by rewrite app_nil_r | reflexivity].
Qed.

(** ** Output *)

Lemma does_with_writer {A} (f : Writer_ -> Net -> Net * io (Writer_ * A)) st s a c :
  norm (conn st) = c ->
  (forall w n, writable (WriteTimeout opts) w n ->
     exists w' n', f w n = (n', IoVal (w', a)) /\ writable (WriteTimeout opts) w' n'
       /\ written w' n' = written w n ++ s /\ same_input n n') ->
  does (with_writer f) st s c a.
Proof.
  intros <- Hf Hw. destruct (Hf _ _ Hw) as (w' & n' & E & W & O & I).
  unfold with_writer, getc, gets, bind, lift_io. rewrite E. eexists. split; [reflexivity|].
  split; auto. by apply same_input_kept.
Qed.

Lemma does_flush st c : norm (conn st) = c -> does (flush opts) st [] c None.
Proof.
  intros Hc. apply does_with_writer; [done|]. intros w n Hw. destruct (Flush_ok _ _ _ Hw) as (n' & E & W & O & I).
  eexists _, n'. split; [exact E|]. split; [done|]. split; [|done].
  unfold written in *. simpl. by rewrite O, !app_nil_r.
Qed.

Lemma does_WriteBytes s st c : norm (conn st) = c -> does (WriteBytes opts s) st s c None.
Proof. intros Hc. apply does_with_writer; [done|]. intros w n Hw. by apply wr_Write_ok. Qed.

Lemma does_WriteString s st c : norm (conn st) = c -> does (WriteString opts s) st s c tt.
Proof.
  intros Hc. eapply does_eq; [eapply does_bind with (c1 := c)| |reflexivity].
  - apply does_with_writer; [done|]. intros w n Hw. by apply wr_WriteString_ok.
  - intros st1 S1. by apply does_ret.
  - by rewrite app_nil_r.
Qed.

Lemma does_Fprintf s st c : norm (conn st) = c -> does (Fprintf opts s) st s c tt.
Proof.
  intros Hc. eapply does_eq; [eapply does_bind with (c1 := c)| |reflexivity].
  - by apply does_WriteBytes.
  - intros st1 S1. by apply does_ret.
  - by rewrite app_nil_r.
Qed.

(** Time may pass. *)
Lemma does_sleep d st c : 0 < WriteTimeout opts -> norm (conn st) = c -> does (sleep_ctx d) st [] c tt.
Proof.
  intros Hwt Hc (He & Hb & Hs & _). eexists. split; [reflexivity|].
  assert (forall t n, input_kept n (wait_until t n) /\ wire (wait_until t n) = wire n /\ wsched (wait_until t n) = wsched n) as Hk.
  { intros t n. unfold input_kept. simpl. split_and!; done || lia. }
  set (f := fun n : Net => match ctx_done _ with Some t => _ | None => _ end).
  assert (input_kept (net st) (f (net st)) /\ wire (f (net st)) = wire (net st) /\ wsched (f (net st)) = wsched (net st)) as (Hi & Ho & Hsc).
  { subst f. simpl. destruct (ctx_done _); apply Hk. }
  clearbody f. split; simpl; auto.
  - unfold works, writable. simpl. rewrite Hsc. split_and!; auto. by left.
  - unfold out, written. simpl. by rewrite Ho, app_nil_r.
Qed.

(** A response line: the status, and the text when there is one. *)
Definition status_line (status msg : bytes) : bytes :=
  status ++ (if is_nil msg then [] else SP :: sanitizeResponse msg) ++ crlf.
Definition ok_line (msg : bytes) : bytes := status_line (str "+OK") msg.
Definition err_line (msg : bytes) : bytes := status_line (str "-ERR") msg.

Lemma does_ok msg st c : norm (conn st) = c -> does (ok opts msg) st (ok_line msg) c tt.
Proof.
  intros Hc. unfold ok, ok_line, status_line. destruct (is_nil msg); [by apply does_WriteString|].
  eapply does_eq; [eapply does_bind with (c1 := c); [by apply does_WriteString|]; intros st1 S1;
    eapply does_bind with (c1 := c); [by apply does_WriteString|]; intros st2 S2; by apply does_WriteString | |reflexivity].
  done.
Qed.

Lemma does_err msg st c : norm (conn st) = c -> does (err opts msg) st (err_line msg) c tt.
Proof.
  intros Hc. unfold err, err_line, status_line. destruct (is_nil msg); [by apply does_WriteString|].
  eapply does_eq; [eapply does_bind with (c1 := c); [by apply does_WriteString|]; intros st1 S1;
    eapply does_bind with (c1 := c); [by apply does_WriteString|]; intros st2 S2; by apply does_WriteString | |reflexivity].
  done.
Qed.

Lemma does_for_each {A} (f : A -> M Sess unit) (g : A -> bytes) l st c :
  (forall a st, norm (conn st) = c -> does (f a) st (g a) c tt) -> norm (conn st) = c ->
  does (for_each f l) st (concat (map g l)) c tt.
Proof.
  intros Hf. revert st. induction l as [|a l IH]; intros st Hc; simpl; [by apply does_ret|].
  eapply does_bind; [by apply Hf|]. intros st1 Hc1. by apply IH.
Qed.

(** ** A call of a method that only computes *)

Lemma does_call {A} m (f : Sess -> Prog Sess A) s s' a st c :
  norm (conn st) = c -> session c = Some s -> f s = PRet s' a ->
  does (call opts m f) st [] (set_session (Some s') c) a.
Proof.
  intros <- Hs Hf Hw. change (session (norm (conn st))) with (session (conn st)) in Hs.
  unfold call, bind, getc, gets. simpl. rewrite Hs, Hf. eexists. split; [reflexivity|].
  split; simpl; auto; [by rewrite app_nil_r | reflexivity].
Qed.

Lemma does_assert {A} (f : Sess -> option A) s st c :
  norm (conn st) = c -> session c = Some s -> does (assert_session f) st [] c (f s).
Proof.
  intros Hc Hs. eapply does_eq; [eapply does_bind; [by apply (does_getc session)|]| |reflexivity].
  - intros st1 Hc1. rewrite Hs. by apply does_ret.
  - done.
Qed.
End Wire.
