(* ===== verification/Spec.v ===== *)
(** * The protocol as a pure machine

    What the server promises to a client, with no buffers, deadlines, segments
    or effects: a machine whose state is the protocol state and the maildrop,
    that answers one line with one response.  [Refine] shows that the server
    implements it. *)
From S2P Require Import Prelude GoStrings GoConv Errors DotStuff Parse Session Options ConnState ConnHandlers Wire.

(** A program that only computes. *)
Definition pure_prog {Sess A} (r : Sess * A) : Prog Sess A := PRet r.1 r.2.

(** A session whose methods are functions of its state: the interface the
    machine is written against. *)
Class PureSession (Sess : Type) `{Session Sess} := {
  p_Close : Sess -> Sess;
  p_Login : bytes -> bytes -> Sess -> Sess * option goerr;
  p_Stat : Sess -> Sess * result (Z * Z);
  p_List : Z -> Sess -> Sess * result (list MessageInfo);
  p_Uidl : Z -> Sess -> Sess * result (list MessageUidl);
  p_Retr : Z -> Sess -> Sess * result Body;
  p_Top : Z -> Z -> Sess -> Sess * result Body;
  p_Dele : Z -> Sess -> Sess * option goerr;
  p_Rset : Sess -> Sess * option goerr;
  p_Noop : Sess -> Sess * option goerr;
  p_Quit : Sess -> Sess * result Z;
  p_Mechs : Sess -> Sess * list bytes;
  p_Plain : bytes -> bytes -> bytes -> Sess -> Sess * option goerr;
  p_SetLang : bytes -> Sess -> Sess * result bytes;
  p_Langs : Sess -> Sess * result (list LanguageInfo);
  p_UTF8 : Sess -> Sess * option goerr;
  has_SASL : bool;
  has_Lang : bool;
  has_UTF8 : bool;
  close_pure s : s_Close s = pure_prog (p_Close s, tt);
  login_pure cx u p s : s_Login cx u p s = pure_prog (p_Login u p s);
  stat_pure cx s : s_Stat cx s = pure_prog (p_Stat s);
  list_pure cx n s : s_List cx n s = pure_prog (p_List n s);
  uidl_pure cx n s : s_Uidl cx n s = pure_prog (p_Uidl n s);
  retr_pure cx n s : s_Retr cx n s = pure_prog (p_Retr n s);
  top_pure cx n l s : s_Top cx n l s = pure_prog (p_Top n l s);
  dele_pure cx n s : s_Dele cx n s = pure_prog (p_Dele n s);
  rset_pure cx s : s_Rset cx s = pure_prog (p_Rset s);
  noop_pure cx s : s_Noop cx s = pure_prog (p_Noop s);
  quit_pure cx s : s_Quit cx s = pure_prog (p_Quit s);
  sasl_pure s : if has_SASL
    then exists x, as_SASL s = Some x /\ (forall s, AuthenticateMechanisms x s = pure_prog (p_Mechs s))
         /\ (forall cx i u p s, AuthenticatePlain x cx i u p s = pure_prog (p_Plain i u p s))
    else as_SASL s = None;
  lang_pure s : if has_Lang
    then exists x, as_Lang s = Some x /\ (forall cx t s, SetLanguage x cx t s = pure_prog (p_SetLang t s))
         /\ (forall cx s, ListLanguages x cx s = pure_prog (p_Langs s))
    else as_Lang s = None;
  utf8_pure s : if has_UTF8
    then exists x, as_UTF8 s = Some x /\ (forall cx s, EnableUTF8 x cx s = pure_prog (p_UTF8 s))
    else as_UTF8 s = None
}.

(** The machine's state: the protocol state, the name given with USER, the
    counted errors, and the session. *)
Record Proto (Sess : Type) := mkProto {
  pt_phase : connState;
  pt_user : bytes;
  pt_errors : Z;
  pt_sess : Sess
}.
Arguments mkProto {Sess}.
Arguments pt_phase {Sess}.
Arguments pt_user {Sess}.
Arguments pt_errors {Sess}.
Arguments pt_sess {Sess}.

Section Machine.
Context {Sess : Type} `{Unicode} `{PureSession Sess}.
Variable opts : Options Sess.
Variable int_width : Z.
Variable tls : bool.
Implicit Types p : Proto Sess.

Definition with_sess s p : Proto Sess := mkProto (pt_phase p) (pt_user p) (pt_errors p) s.
Definition with_error p : Proto Sess := mkProto (pt_phase p) (pt_user p) (pt_errors p + 1) (pt_sess p).
Definition with_user u p : Proto Sess := mkProto (pt_phase p) u (pt_errors p) (pt_sess p).
Definition logged_in p : Proto Sess := mkProto stateTransaction (pt_user p) (pt_errors p) (pt_sess p).

(** A response, the state after it, and whether the connection ends. *)
Record Reply := mkReply { re_text : bytes; re_state : Proto Sess; re_stop : bool }.

(** ** Errors *)

(** The client is at fault: the error is counted. *)
Definition refused (msg : bytes) p : Reply := mkReply (err_line msg) (with_error p) false.

(** What a client is told of a session's error, and whether it is dropped. *)
Definition error_text (e : goerr) : bytes :=
  match as_error e with
  | Some perr => wireMessage perr
  | None => if is_sentinel ErrCloseConnection e || StrictSessionErrors opts then str "internal error"
            else err_text e
  end.
Definition error_closes (e : goerr) : bool :=
  match as_error e with Some perr => Close perr | None => is_sentinel ErrCloseConnection e end.
Definition failed (e : goerr) p : Reply := mkReply (err_line (error_text e)) p (error_closes e).

(** The outcome of a method that returns a value. *)
Definition answer {A} (r : Sess * result A) p (f : A -> Proto Sess -> Reply) : Reply :=
  match r.2 with
  | inl a => f a (with_sess r.1 p)
  | inr e => failed e (with_sess r.1 p)
  end.

(** The outcome of a method that returns an error or nothing. *)
Definition done_or (r : Sess * option goerr) p (msg : bytes) : Reply :=
  match r.2 with
  | None => mkReply (ok_line msg) (with_sess r.1 p) false
  | Some e => failed e (with_sess r.1 p)
  end.

Definition says (t : bytes) p : Reply := mkReply t p false.

(** ** Multi-line responses *)

Definition listing (status : bytes) (ls : list bytes) : bytes :=
  status ++ crlf ++ concat (map (fun l => l ++ crlf) ls) ++ str "." ++ crlf.

(** A message: dot-stuffed and terminated; when the body breaks off, what was
    read of it, and the end of the connection. *)
Definition message (status : bytes) (b : Body) p : Reply :=
  match body_err b with
  | None => mkReply (ok_line status ++ dot_encode (concat (body_chunks b))) p false
  | Some _ => mkReply (ok_line status ++ emit true true NUL (concat (body_chunks b))) p true
  end.

(** ** Either state *)

Definition auth_open : bool := InsecureAuth opts || tls.

Definition capabilities (mechs : list bytes) : list Capability :=
  [mkCapability (str "TOP") []; mkCapability (str "UIDL") []]
  ++ (if auth_open then [mkCapability (str "USER") []] else [])
  ++ [mkCapability (str "RESP-CODES") []; mkCapability (str "PIPELINING") []]
  ++ (if TLSConfig opts && negb tls then [mkCapability (str "STLS") []] else [])
  ++ (if is_nil_list mechs then [] else [mkCapability (str "SASL") mechs])
  ++ (if has_Lang then [mkCapability (str "LANG") []] else [])
  ++ (if has_UTF8 then [mkCapability (str "UTF8") []] else [])
  ++ Caps opts.

Definition cap_line (c : Capability) : bytes :=
  cap_Name c ++ (if is_nil_list (cap_Params c) then [] else SP :: join (str " ") (cap_Params c)).

Definition reply_capa p : Reply :=
  let r := if auth_open && has_SASL then p_Mechs (pt_sess p) else (pt_sess p, []) in
  says (listing (str "+OK Capability list follows")
          (map cap_line (List.filter (fun c => negb (capSuppressed opts (cap_Name c))) (capabilities r.2))))
       (with_sess r.1 p).

Definition reply_lang (args : list bytes) p : Reply :=
  if negb has_Lang then refused (str "LANG not supported") p
  else match args with
  | [] => answer (p_Langs (pt_sess p)) p (fun ls =>
      says (listing (str "+OK Language list follows")
             (map (fun l => sanitizeResponse (li_Tag l) ++ str " " ++ sanitizeResponse (li_Description l)) ls)))
  | a :: _ => answer (p_SetLang a (pt_sess p)) p (fun tag =>
      says (str "+OK Language set to " ++ sanitizeResponse tag ++ crlf))
  end.

Definition reply_utf8 p : Reply :=
  if negb has_UTF8 then refused (str "UTF8 not supported") p
  else done_or (p_UTF8 (pt_sess p)) p (str "UTF8 mode enabled").

(** ** AUTHORIZATION *)

Definition needs_tls : bytes := str "Authentication requires TLS. Use STLS first".

Definition reply_user (args : list bytes) p : Reply :=
  if negb auth_open then refused needs_tls p
  else match args with
  | [] => refused (str "Syntax: USER <username>") p
  | a :: _ => if containsCTL a then refused (str "Invalid username") p
              else says (ok_line []) (with_user a p)
  end.

(** The outcome of a login. *)
Definition login (r : Sess * option goerr) p : Reply :=
  match r.2 with
  | None => says (ok_line (str "Authentication successful")) (logged_in (with_sess r.1 p))
  | Some e =>
    let p := with_sess r.1 p in
    failed e (if AuthFailuresExemptFromMaxErrors opts then p else with_error p)
  end.

Definition reply_pass (raw : bytes) p : Reply :=
  if negb auth_open then refused needs_tls p
  else if is_nil (pt_user p) then refused (str "Send USER first") p
  else if is_nil raw then refused (str "Syntax: PASS <password>") p
  else login (p_Login (pt_user p) raw (pt_sess p)) p.

Definition too_long (l : bytes) : bool := MaxLineLength opts <? blen (chomp l).

Definition reply_plain (encoded : bytes) p : Reply :=
  if encoded =s? str "*" then says (err_line (str "Authentication aborted")) p
  else match decodeSASLPlain encoded with
  | inr _ => refused (str "Invalid SASL PLAIN response") p
  | inl (i, u, pw) => login (p_Plain i u pw (pt_sess p)) p
  end.

(** [next] is the client's next line; the result says whether it was used. *)
Definition reply_auth (args : list bytes) (next : option bytes) p : Reply * bool :=
  if negb auth_open then (refused needs_tls p, false)
  else if negb has_SASL then (refused (str "SASL not supported") p, false)
  else match args with
  | [] =>
    let r := p_Mechs (pt_sess p) in
    (says (listing (str "+OK") r.2) (with_sess r.1 p), false)
  | a :: rest =>
    if negb (to_upper a =s? str "PLAIN") then (refused (str "Unsupported SASL mechanism") p, false)
    else
      let r := p_Mechs (pt_sess p) in
      let p := with_sess r.1 p in
      if negb (mechanismAdvertised r.2 (str "PLAIN")) then (refused (str "Unsupported SASL mechanism") p, false)
      else match rest with
      | initial :: _ => (reply_plain initial p, false)
      | [] =>
        match next with
        | None => (mkReply (str "+ " ++ crlf) p true, false)
        | Some l =>
          if too_long l then (mkReply (str "+ " ++ crlf) p true, false)
          else
            let r := reply_plain (trim_space (chomp l)) p in
            (mkReply (str "+ " ++ crlf ++ re_text r) (re_state r) (re_stop r), true)
        end
      end
  end.

Definition reply_stls p : Reply :=
  refused (if tls then str "Already using TLS" else str "TLS not available") p.

Definition obsolete : bytes := err_line (str "LAST is obsolete (RFC 1939)").

Definition reply_unknown (cmd : bytes) p : Reply := refused (str "Unknown command: " ++ cmd) p.

Definition in_authorization (cmd raw : bytes) (args : list bytes) (next : option bytes) p : Reply * bool :=
  if cmd =s? str "AUTH" then reply_auth args next p
  else
    (if cmd =s? str "CAPA" then reply_capa p
     else if cmd =s? str "USER" then reply_user args p
     else if cmd =s? str "PASS" then reply_pass raw p
     else if cmd =s? str "STLS" then reply_stls p
     else if cmd =s? str "QUIT" then mkReply (ok_line (str "Goodbye")) p true
     else if cmd =s? str "UTF8" then reply_utf8 p
     else if cmd =s? str "LANG" then reply_lang args p
     else if known_verb cmd ["STAT"; "LIST"; "UIDL"; "RETR"; "TOP"; "DELE"; "RSET"; "NOOP"]%string
     then refused (str "Not authenticated") p
     else if cmd =s? str "LAST" then says obsolete p
     else reply_unknown cmd p, false).

(** ** TRANSACTION *)

Definition reply_stat p : Reply :=
  answer (p_Stat (pt_sess p)) p (fun cs =>
    says (str "+OK " ++ itoa cs.1 ++ str " " ++ itoa cs.2 ++ crlf)).

(** One item for a message number, a listing without one. *)
Definition items {A} (msg : Z) (item : A -> bytes) (l : list A) p : Reply :=
  if 0 <? msg then
    match l with
    | [a] => says (str "+OK " ++ item a ++ crlf) p
    | _ => failed no_such_message p
    end
  else says (listing (str "+OK " ++ itoa (blen l) ++ str " messages") (map item l)) p.

Definition scan_item (i : MessageInfo) : bytes := itoa (mi_Num i) ++ str " " ++ itoa (mi_Size i).
Definition uid_item (i : MessageUidl) : bytes :=
  itoa (mu_Num i) ++ str " " ++ sanitizeResponse (mu_UniqueID i).

Definition reply_list (args : list bytes) p : Reply :=
  match parseOptionalMsgNum int_width args with
  | inr e => refused (err_text e) p
  | inl msg => answer (p_List msg (pt_sess p)) p (items msg scan_item)
  end.

Definition reply_uidl (args : list bytes) p : Reply :=
  match parseOptionalMsgNum int_width args with
  | inr e => refused (err_text e) p
  | inl msg => answer (p_Uidl msg (pt_sess p)) p (items msg uid_item)
  end.

Definition reply_retr (args : list bytes) p : Reply :=
  match parseMsgNum int_width args with
  | inr e => refused (err_text e) p
  | inl msg => answer (p_Retr msg (pt_sess p)) p (fun b =>
      message (match body_octets b with
               | Some n => itoa n ++ str " octets"
               | None => str "Message follows"
               end) b)
  end.

Definition reply_top (args : list bytes) p : Reply :=
  match args with
  | a :: l :: _ =>
    match parseMsgNum int_width [a] with
    | inr e => refused (err_text e) p
    | inl msg =>
      match parseInt int_width l with
      | inr _ => refused (str "Invalid number of lines") p
      | inl n => if n <? 0 then refused (str "Invalid number of lines") p
                 else answer (p_Top msg n (pt_sess p)) p (message (str "Top of message follows"))
      end
    end
  | _ => refused (str "Syntax: TOP <msg> <lines>") p
  end.

Definition reply_dele (args : list bytes) p : Reply :=
  match parseMsgNum int_width args with
  | inr e => refused (err_text e) p
  | inl msg => done_or (p_Dele msg (pt_sess p)) p (str "Message deleted")
  end.

Definition stopping (r : Reply) : Reply := mkReply (re_text r) (re_state r) true.

Definition reply_quit p : Reply :=
  stopping (answer (p_Quit (pt_sess p)) p (fun n =>
    says (if 0 <? n then str "+OK " ++ itoa n ++ str " messages expunged" ++ crlf
          else ok_line (str "Goodbye")))).

Definition in_transaction_state (cmd : bytes) (args : list bytes) p : Reply :=
  if cmd =s? str "CAPA" then reply_capa p
  else if cmd =s? str "STAT" then reply_stat p
  else if cmd =s? str "LIST" then reply_list args p
  else if cmd =s? str "UIDL" then reply_uidl args p
  else if cmd =s? str "RETR" then reply_retr args p
  else if cmd =s? str "TOP" then reply_top args p
  else if cmd =s? str "DELE" then reply_dele args p
  else if cmd =s? str "RSET" then done_or (p_Rset (pt_sess p)) p (str "Maildrop has been reset")
  else if cmd =s? str "NOOP" then done_or (p_Noop (pt_sess p)) p []
  else if cmd =s? str "QUIT" then reply_quit p
  else if cmd =s? str "LANG" then reply_lang args p
  else if cmd =s? str "UTF8" then reply_utf8 p
  else if cmd =s? str "LAST" then says obsolete p
  else reply_unknown cmd p.

(** ** The conversation *)

(** The answer to one non-blank line. *)
Definition respond (line : bytes) (next : option bytes) p : Reply * bool :=
  let '(verb, raw) := splitCommand line in
  let cmd := to_upper verb in
  match pt_phase p with
  | stateAuthorization => in_authorization cmd raw (fields raw) next p
  | stateTransaction => (in_transaction_state cmd (fields raw) p, false)
  end.

Definition over_limit p : bool := (0 <? MaxErrors opts) && (MaxErrors opts <=? pt_errors p).

(** Everything the server writes after the greeting to a client that sends
    these lines (each without its LF) and then falls silent. *)
Fixpoint converse (p : Proto Sess) (ls : list bytes) : bytes :=
  match ls with
  | [] => err_line (str "Idle timeout, connection timed out")
  | l :: rest =>
    if too_long l then err_line (str "Line too long")
    else
      let line := trim_space (chomp l) in
      if is_nil line then converse p rest
      else
        let '(r, used) := respond line (head rest) p in
        re_text r ++
        (if re_stop r then []
         else if over_limit (re_state r) then err_line (str "Too many errors, closing connection")
         else if used : bool then match rest with [] => [] | _ :: rest' => converse (re_state r) rest' end
         else converse (re_state r) rest)
  end.

(** The machine's state when such a conversation is over. *)
Fixpoint final_state (p : Proto Sess) (ls : list bytes) : Proto Sess :=
  match ls with
  | [] => p
  | l :: rest =>
    if too_long l then p
    else
      let line := trim_space (chomp l) in
      if is_nil line then final_state p rest
      else
        let '(r, used) := respond line (head rest) p in
        if re_stop r || over_limit (re_state r) then re_state r
        else if used : bool then match rest with [] => re_state r | _ :: rest' => final_state (re_state r) rest' end
        else final_state (re_state r) rest
  end.

(** A conversation from the start, and the session it leaves when the connection
    has been closed. *)
Definition conversation (s : Sess) (ls : list bytes) : bytes :=
  ok_line (Greeting opts) ++ converse (mkProto stateAuthorization [] 0 s) ls.
Definition final_session (s : Sess) (ls : list bytes) : Sess :=
  p_Close (pt_sess (final_state (mkProto stateAuthorization [] 0 s) ls)).
End Machine.
