(* ===== verification/Demo.v ===== *)
(** * Example configurations

    A server over the in-memory maildrop, and connections to it: the inputs the
    theorems are tried on. *)
From stdpp Require Import gmap.
From S2P Require Import Prelude GoStrings GoConv Errors Parse Net Session Options Mem ConnState ConnHandlers ConnServe.

(** One user with two messages. *)
Definition demo_store : Store :=
  let s := AddUser New (str "alice") (str "s3cret") in
  let s := (AddMessage s (str "alice") (str "u1")
              (str "Subject: hi" ++ crlf ++ crlf ++ str ".dot" ++ [LF])).1 in
  (AddMessage s (str "alice") (str "u2") (str "x")).1.

(** Authentication in the clear, at most [max] errors. *)
Definition demo_options (max : Z) : Options MemSession :=
  defaults (mkOptions (PRet tt (inl (mkMem demo_store NewSession))) false [] [] 0 0 0 0 0 true 0 max
              false 0 0 [] [] false None false false false).

Definition lines (ls : list string) : bytes := concat (map (fun l => str l ++ crlf) ls).

(** The peer sends these lines at time 5 and is silent afterwards. *)
Definition demo_net (ls : list string) : Net := mkNet 0 [(5, NBytes (lines ls))] None None [] [].

Definition demo_run (max : Z) (ls : list string) : St MemSession * outcome unit :=
  ServeConn (demo_options max) 64 None None (demo_net ls) [].

Definition demo_wire (max : Z) (ls : list string) : string :=
  String.string_of_list_byte (wire (net (demo_run max ls).1)).
