(* ===== verification/ConnFacts.v ===== *)
(** * Reasoning about the handlers

    A two-state program logic for the handlers' monad, the frame every handler
    respects, and the rules that let each handler's proof be automatic. *)
From S2P Require Import Prelude GoStrings GoConv Errors DotStuff Parse Net Session Options ConnState ConnHandlers ConnServe.

(** ** Triples

    From a state in [P], [m] reaches a state related by [R] however it ends,
    and in [Q] when it returns. *)
Definition triple {Sess A} (P : St Sess -> Prop) (R : St Sess -> St Sess -> Prop)
    (m : M Sess A) (Q : A -> St Sess -> Prop) : Prop :=
  forall st, P st ->
    R st (m st).1 /\ match (m st).2 with Val a => Q a (m st).1 | _ => True end.

(** ** The call discipline of the library

    Which session methods a command may reach, in which state, on which
    connections. *)
Definition methods_of (cmd : bytes) : list method :=
  if cmd =s? str "CAPA" then [MAuthenticateMechanisms]
  else if cmd =s? str "PASS" then [MLogin]
  else if cmd =s? str "AUTH" then [MAuthenticateMechanisms; MAuthenticatePlain]
  else if cmd =s? str "STAT" then [MStat]
  else if cmd =s? str "LIST" then [MList]
  else if cmd =s? str "UIDL" then [MUidl]
  else if cmd =s? str "RETR" then [MRetr]
  else if cmd =s? str "TOP" then [MTop]
  else if cmd =s? str "DELE" then [MDele]
  else if cmd =s? str "RSET" then [MRset]
  else if cmd =s? str "NOOP" then [MNoop]
  else if cmd =s? str "QUIT" then [MQuit]
  else if cmd =s? str "LANG" then [MSetLanguage; MListLanguages]
  else if cmd =s? str "UTF8" then [MEnableUTF8]
  else [].

(** The protocol state a method belongs to; [None] for either. *)
Definition phase_of (m : method) : option connState :=
  match m with
  | MLogin | MAuthenticatePlain => Some stateAuthorization
  | MStat | MList | MUidl | MRetr | MTop | MDele | MRset | MNoop | MQuit => Some stateTransaction
  | MAuthenticateMechanisms | MSetLanguage | MListLanguages | MEnableUTF8 | MClose => None
  end.

(** The methods that need an encrypted connection, or [InsecureAuth]. *)
Definition needs_auth_allowed (m : method) : bool :=
  match m with MLogin | MAuthenticatePlain | MAuthenticateMechanisms => true | _ => false end.

(** The events a command's handler may produce. *)
Definition event_ok (insecure : bool) (cmd : bytes) (e : event) : Prop :=
  match e with
  | EvCall m st tls =>
    m ∈ methods_of cmd
    /\ (forall s, phase_of m = Some s -> st = s)
    /\ (needs_auth_allowed m = true -> insecure || tls = true)
  | EvFail | EvHijack | EvBodyClose => True
  | _ => False
  end.

Definition is_fail (e : event) : bool := match e with EvFail => true | _ => false end.

(** The number of counted errors in a log. *)
Definition fails (l : list event) : Z := blen (List.filter is_fail l).

Definition is_call (e : event) : bool := match e with EvCall _ _ _ => true | _ => false end.

(** The event is no call, or a call entered in the TRANSACTION state. *)
Definition in_transaction (e : event) : Prop :=
  match e with EvCall _ x _ => x = stateTransaction | _ => True end.

(** What every handler respects: the log grows by permitted events, errors are
    counted one by one, nothing the peer sent comes back, the fields fixed at
    connection time stay, and a hijacking that was logged is in force. *)
Record frame {Sess} (good : event -> Prop) (st st' : St Sess) : Prop := mkFrame {
  fr_log : exists l, log st' = log st ++ l /\ Forall good l
           /\ errorCount (conn st') = errorCount (conn st) + fails l;
  fr_phase : state (conn st) = stateTransaction -> state (conn st') = stateTransaction
             /\ forall l, log st' = log st ++ l -> Forall in_transaction l;
  fr_weight : (st_weight st' <= st_weight st)%nat;
  fr_start : startTime (conn st') = startTime (conn st);
  fr_ctx : ctx (conn st') = ctx (conn st);
  fr_hijacked : hijacked (conn st) = true -> hijacked (conn st') = true;
  fr_session : is_Some (session (conn st)) -> is_Some (session (conn st'));
  fr_hijack : forall l, log st' = log st ++ l -> EvHijack ∈ l -> hijacked (conn st') = true
}.

(** Predicates that only look at the protocol state and the TLS flag. *)
Class Pinned {Sess} (P : St Sess -> Prop) := pinned : forall st st',
  state (conn st') = state (conn st) -> isTLS (conn st') = isTLS (conn st) -> P st -> P st'.

(** Predicates that only look at the protocol state. *)
Class StatePinned {Sess} (P : St Sess -> Prop) := state_pinned : forall st st',
  state (conn st') = state (conn st) -> P st -> P st'.

Lemma fails_app l k : fails (l ++ k) = fails l + fails k.
Proof. unfold fails. by rewrite List.filter_app, blen_app. Qed.

(** The log of two steps that leave it as it was. *)
Lemma app_self_nil {A} (l k : list A) : l = l ++ k -> k = [].
Proof. intros Hl. rewrite <- (app_nil_r l) in Hl at 1. by apply app_inv_head in Hl as <-. Qed.

#[export] Instance frame_pre {Sess} good : PreOrder (@frame Sess good).
Proof.
  split.
  - intros st. split; auto.
    + exists []. rewrite app_nil_r. repeat split; auto. unfold fails; simpl. unfold blen; simpl; lia.
    + intros Hst. split; [done|]. by intros l ->%app_self_nil.
    + intros l ->%app_self_nil. by intros ?%not_elem_of_nil.
  - intros a b c [(l1 & E1 & F1 & C1) P1 ???? J1] [(l2 & E2 & F2 & C2) P2 ???? J2].
    split; try congruence; auto; [| |lia|].
    + exists (l1 ++ l2). rewrite E2, E1, app_assoc, fails_app. split_and!; [done| |lia].
      by apply Forall_app.
    + intros Ha. destruct (P1 Ha) as [Hb Q1]. destruct (P2 Hb) as [Hc Q2]. split; [done|].
      intros l Hl. rewrite E2, E1, <- app_assoc in Hl. apply app_inv_head in Hl as <-.
      apply Forall_app; auto.
    + intros l Hl. rewrite E2, E1, <- app_assoc in Hl. apply app_inv_head in Hl as <-.
      intros [?|?]%elem_of_app; eauto.
Qed.

Lemma frame_weaken {Sess} (g1 g2 : event -> Prop) (st st' : St Sess) :
  (forall e, g1 e -> g2 e) -> frame g1 st st' -> frame g2 st st'.
Proof.
  intros Hg [(l & E & F & C) ?????]. split; auto. exists l. split_and!; auto.
  eapply Forall_impl; eauto.
Qed.

#[export] Instance state_pinned_pinned {Sess} (P : St Sess -> Prop) :
  StatePinned P -> Pinned P.
Proof. intros H st st' Hs _. by apply H. Qed.

(** ** Rules *)

Section Rules.
Context {Sess : Type}.
Implicit Types (P : St Sess -> Prop) (R : St Sess -> St Sess -> Prop).

Lemma triple_conseq {A} P P' R (m : M Sess A) (Q Q' : A -> St Sess -> Prop) :
  triple P' R m Q' -> (forall st, P st -> P' st) -> (forall a st, Q' a st -> Q a st) ->
  triple P R m Q.
Proof.
  intros Ht HP HQ st Hst. destruct (Ht st (HP _ Hst)) as [Hr Hq]. split; [done|].
  destruct (m st).2; auto.
Qed.

Lemma triple_ret {A} P R (a : A) (Q : A -> St Sess -> Prop) :
  PreOrder R -> (forall st, P st -> Q a st) -> triple P R (ret a) Q.
Proof. intros HR HQ st Hst. simpl. split; [reflexivity | auto]. Qed.

Lemma triple_bind {A B} P R Q0 (m : M Sess A) (k : A -> M Sess B) Q :
  PreOrder R -> triple P R m Q0 -> (forall a, triple (Q0 a) R (k a) Q) ->
  triple P R (bind m k) Q.
Proof.
  intros HR Hm Hk st Hst. unfold bind. destruct (Hm st Hst) as [H1 H2].
  destruct (m st) as [st1 [a| |]]; simpl in *; [|done|done].
  destruct (Hk a st1 H2) as [H3 H4]. split; [by etrans | done].
Qed.

(** The rule the automation uses: [m] keeps [P]. *)
Lemma triple_seq {A B} P R (m : M Sess A) (k : A -> M Sess B) Q :
  PreOrder R -> triple P R m (fun _ => P) -> (forall a, triple P R (k a) Q) ->
  triple P R (bind m k) Q.
Proof. intros. by eapply triple_bind. Qed.

Lemma triple_gets_bind {A B} P R (f : St Sess -> A) (k : A -> M Sess B) Q :
  (forall a, triple (fun st => P st /\ f st = a) R (k a) Q) ->
  triple P R (bind (gets f) k) Q.
Proof. intros Hk st Hst. exact (Hk (f st) st (conj Hst eq_refl)). Qed.

Lemma triple_finally {A} P R (m : M Sess A) (fin : M Sess unit) :
  PreOrder R -> triple P R m (fun _ _ => True) -> triple (fun _ => True) R fin (fun _ _ => True) ->
  triple P R (finally m fin) (fun _ _ => True).
Proof.
  intros HR Hm Hf st Hst. unfold finally. destruct (Hm st Hst) as [H1 _].
  destruct (m st) as [st1 [a| |]]; simpl in *; [| |done].
  - destruct (Hf st1 I) as [H2 _]. unfold bind. destruct (fin st1) as [st2 [x| |]]; simpl in *;
      split; auto; by etrans.
  - destruct (Hf st1 I) as [H2 _]. unfold bind. destruct (fin st1) as [st2 [x| |]]; simpl in *;
      split; auto; by etrans.
Qed.

Lemma bind_getc {A B} (f : Conn Sess -> A) (k : A -> M Sess B) st : bind (getc f) k st = k (f (conn st)) st.
Proof. done. Qed.

Lemma triple_panic {A} P R Q : PreOrder R -> triple P R (panic (A := A)) Q.
Proof. intros HR st Hst. simpl. split; [reflexivity | done]. Qed.

Lemma triple_block {A} P R Q : PreOrder R -> triple P R (block (A := A)) Q.
Proof. intros HR st Hst. simpl. split; [reflexivity | done]. Qed.
End Rules.

(** ** The primitives respect the frame *)

Section Prims.
Context {Sess : Type}.
Variable opts : Options Sess.
Variable good : event -> Prop.
Implicit Types P : St Sess -> Prop.

(** A change of the connection's fields that the frame allows. *)
Definition mild (f : Conn Sess -> Conn Sess) : Prop := forall c,
  errorCount (f c) = errorCount c /\ reader (f c) = reader c /\ startTime (f c) = startTime c
  /\ ctx (f c) = ctx c /\ (hijacked c = true -> hijacked (f c) = true)
  /\ (state c = stateTransaction -> state (f c) = stateTransaction)
  /\ (is_Some (session c) -> is_Some (session (f c))).

Lemma frame_same_log (st st' : St Sess) :
  log st' = log st -> errorCount (conn st') = errorCount (conn st) ->
  (st_weight st' <= st_weight st)%nat ->
  startTime (conn st') = startTime (conn st) -> ctx (conn st') = ctx (conn st) ->
  (hijacked (conn st) = true -> hijacked (conn st') = true) ->
  (is_Some (session (conn st)) -> is_Some (session (conn st'))) ->
  (state (conn st) = stateTransaction -> state (conn st') = stateTransaction) ->
  frame good st st'.
Proof.
  intros Hl. intros. split; auto.
  - exists []. rewrite app_nil_r. split_and!; auto. unfold fails, blen; simpl. lia.
  - intros Hst. split; [auto|]. intros l Hl'. rewrite Hl in Hl'. by apply app_self_nil in Hl' as ->.
  - intros l Hl'. rewrite Hl in Hl'. apply app_self_nil in Hl' as ->. by intros ?%not_elem_of_nil.
Qed.

(** One event more. *)
Lemma frame_emit e (st : St Sess) :
  good e -> is_fail e = false -> (is_call e = false \/ in_transaction e
    \/ state (conn st) <> stateTransaction) -> (e = EvHijack -> hijacked (conn st) = true) ->
  frame good st (mkSt (conn st) (net st) (handshakes st) (log st ++ [e])).
Proof.
  intros Hg Hf Hc Hj. split; auto.
  - exists [e]. split_and!; eauto. unfold fails; simpl. rewrite Hf. unfold blen; simpl; lia.
  - intros Hst. split; [done|]. intros l Hl. apply app_inv_head in Hl as <-.
    repeat constructor. unfold in_transaction in *. destruct e; naive_solver.
  - intros l Hl. apply app_inv_head in Hl as <-. intros ?%list_elem_of_singleton. auto.
Qed.

Lemma modc_mild f P Q :
  mild f -> (forall st, P st -> Q tt (mkSt (f (conn st)) (net st) (handshakes st) (log st))) ->
  triple P (frame good) (modc f) Q.
Proof.
  intros Hf HQ st Hst. split; [|by apply HQ]. destruct (Hf (conn st)) as (?&Hr&?&?&?&?&?).
  apply frame_same_log; auto. unfold st_weight; simpl. by rewrite Hr.
Qed.

Lemma modn_frame f P `{!Pinned P} :
  (forall n, inbox (f n) = inbox n) -> triple P (frame good) (modn f) (fun _ => P).
Proof.
  intros Hf st Hst. split; [|by eapply (pinned (P := P)); [| |exact Hst]].
  apply frame_same_log; auto. unfold st_weight, rweight; simpl. by rewrite Hf.
Qed.

Lemma gets_frame {A} (f : St Sess -> A) P : triple P (frame good) (gets f) (fun _ => P).
Proof. intros st Hst. split; [reflexivity | done]. Qed.

Lemma emit_pre_frame e P `{!Pinned P} :
  (forall st, P st -> good e) -> is_fail e = false -> is_call e = false ->
  (forall st, P st -> e = EvHijack -> hijacked (conn st) = true) ->
  triple P (frame good) (emit_ev e) (fun _ => P).
Proof.
  intros Hg Hf Hc Hj st Hst. split; [|by eapply (pinned (P := P)); [| |exact Hst]].
  apply frame_emit; eauto.
Qed.

Lemma emit_frame e P `{!Pinned P} :
  good e -> is_fail e = false -> is_call e = false -> e <> EvHijack ->
  triple P (frame good) (emit_ev e) (fun _ => P).
Proof. intros. by apply emit_pre_frame. Qed.
End Prims.

(** ** Buffered I/O respects the frame *)

Section IO.
Context {Sess : Type}.
Variable opts : Options Sess.
Variable good : event -> Prop.
Implicit Types P : St Sess -> Prop.

Lemma with_writer_frame {A} (f : Writer_ -> Net -> Net * io (Writer_ * A)) P `{!Pinned P} :
  (forall w n, input_kept n (f w n).1) ->
  triple P (frame good) (with_writer f) (fun _ => P).
Proof.
  intros Hf st Hst. unfold with_writer, getc, gets, bind, lift_io.
  pose proof (Hf (writer (conn st)) (net st)) as (Hi & _ & _).
  destruct (f (writer (conn st)) (net st)) as [n1 [[w1 a]|]]; simpl in *.
  - split; [|by eapply (pinned (P := P)); [| |exact Hst]].
    apply frame_same_log; auto. unfold st_weight, rweight; simpl. by rewrite Hi.
  - split; [|done]. apply frame_same_log; auto. unfold st_weight, rweight; simpl. by rewrite Hi.
Qed.

Lemma flush_frame P `{!Pinned P} : triple P (frame good) (flush opts) (fun _ => P).
Proof. apply with_writer_frame; [done|]. intros. apply Flush_input. Qed.

Lemma WriteBytes_frame s P `{!Pinned P} : triple P (frame good) (WriteBytes opts s) (fun _ => P).
Proof. apply with_writer_frame; [done|]. intros. apply write_go_input. Qed.

Lemma WriteString_frame s P `{!Pinned P} : triple P (frame good) (WriteString opts s) (fun _ => P).
Proof.
  eapply triple_seq; [apply _| |].
  - apply with_writer_frame; [done|]. intros. apply write_go_input.
  - intros _. apply triple_ret; [apply _ | done].
Qed.

Lemma Fprintf_frame s P `{!Pinned P} : triple P (frame good) (Fprintf opts s) (fun _ => P).
Proof.
  eapply triple_seq; [apply _ | by apply WriteBytes_frame|].
  intros _. apply triple_ret; [apply _ | done].
Qed.

Lemma readLine1_frame P `{!Pinned P} : triple P (frame good) readLine1 (fun _ => P).
Proof.
  intros st Hst. unfold readLine1, getc, gets, bind, lift_io.
  pose proof (ReadLine_weight_le (reader (conn st)) (net st)) as [H1 H2].
  destruct (ReadLine (reader (conn st)) (net st)) as [n1 [[r1 a]|]]; simpl in *.
  - split; [|by eapply (pinned (P := P)); [| |exact Hst]].
    apply frame_same_log; auto. unfold st_weight; simpl. lia.
  - split; [|done]. apply frame_same_log; auto. unfold st_weight, rweight; simpl. lia.
Qed.

Lemma sleep_ctx_frame d P `{!Pinned P} : triple P (frame good) (sleep_ctx d) (fun _ => P).
Proof.
  eapply triple_seq; [apply _ | apply gets_frame|]. intros c.
  apply modn_frame; [done|]. intros n. by destruct (ctx_done c).
Qed.

Lemma handshake_frame cx P `{!Pinned P} : triple P (frame good) (handshake cx) (fun _ => P).
Proof.
  assert (forall (h : list Handshake), list_sum (map hs_weight (tail h)) <= list_sum (map hs_weight h))%nat
    as Ht by (intros [|x h]; simpl; lia).
  intros st Hst. unfold handshake. specialize (Ht (handshakes st)).
  assert (forall n' hs' o, inbox n' = inbox (net st) ->
    (list_sum (map hs_weight hs') <= list_sum (map hs_weight (handshakes st)))%nat ->
    frame good st (mkSt (conn st) n' hs' (log st), o : outcome (option goerr)).1
    /\ match o with Val _ => P (mkSt (conn st) n' hs' (log st)) | _ => True end) as Hk.
  { intros n' hs' o Hi Hw. split.
    - apply frame_same_log; auto. unfold st_weight, rweight; simpl. rewrite Hi. lia.
    - destruct o; try done. by eapply (pinned (P := P)); [| |exact Hst]. }
  destruct (head (handshakes st)) as [[t items|t e|]|] eqn:Hh.
  - do 2 (destruct (match _ with Some d => _ | None => false end); [by apply Hk|]).
    split; [|by eapply (pinned (P := P)); [| |exact Hst]].
    apply frame_same_log; auto. unfold st_weight, rweight; simpl.
    destruct (handshakes st) as [|h hs]; [done|]. injection Hh as ->. simpl. lia.
  - destruct (match _ with Some d => _ | None => false end); by apply Hk.
  - destruct (min_opt _ _); [by apply Hk|]. simpl. split; [reflexivity | done].
  - destruct (min_opt _ _); [by apply Hk|]. simpl. split; [reflexivity | done].
Qed.

Lemma ok_frame msg P `{!Pinned P} : triple P (frame good) (ok opts msg) (fun _ => P).
Proof.
  unfold ok. destruct (is_nil msg); [by apply WriteString_frame|].
  do 2 (eapply triple_seq; [apply _ | by apply WriteString_frame|]; intros _).
  by apply WriteString_frame.
Qed.

Lemma err_frame msg P `{!Pinned P} : triple P (frame good) (err opts msg) (fun _ => P).
Proof.
  unfold err. destruct (is_nil msg); [by apply WriteString_frame|].
  do 2 (eapply triple_seq; [apply _ | by apply WriteString_frame|]; intros _).
  by apply WriteString_frame.
Qed.

(** The changes handlers make to single fields. *)
Lemma mild_lastErr v : mild (Sess := Sess) (set_lastErr v).
Proof. intros c; by split_and!. Qed.
Lemma mild_closePending v : mild (Sess := Sess) (set_closePending v).
Proof. intros c; by split_and!. Qed.
Lemma mild_username v : mild (Sess := Sess) (set_username v).
Proof. intros c; by split_and!. Qed.
Lemma mild_rawArg v : mild (Sess := Sess) (set_rawArg v).
Proof. intros c; by split_and!. Qed.
Lemma mild_writer v : mild (Sess := Sess) (set_writer v).
Proof. intros c; by split_and!. Qed.
Lemma mild_state : mild (Sess := Sess) (set_state stateTransaction).
Proof. intros c; by split_and!. Qed.
Lemma mild_isTLS v : mild (Sess := Sess) (set_isTLS v).
Proof. intros c; by split_and!. Qed.
Lemma mild_session s : mild (Sess := Sess) (set_session (Some s)).
Proof. intros c; split_and!; auto. Qed.
Lemma mild_hijacked : mild (Sess := Sess) (set_hijacked true).
Proof. intros c; by split_and!. Qed.

(** A mild change that keeps the state and the TLS flag. *)
Lemma modc_frame f P `{!Pinned P} :
  mild f -> (forall c, state (f c) = state c) -> (forall c, isTLS (f c) = isTLS c) ->
  triple P (frame good) (modc f) (fun _ => P).
Proof.
  intros Hf Hs Ht. apply modc_mild; [done|]. intros st Hst.
  eapply (pinned (P := P)); [| |exact Hst]; simpl; auto.
Qed.
End IO.

Create HintDb frame.
#[export] Hint Resolve mild_lastErr mild_closePending mild_username mild_rawArg mild_writer
  mild_state mild_isTLS mild_session mild_hijacked : frame.
#[export] Hint Resolve flush_frame WriteBytes_frame WriteString_frame Fprintf_frame
  readLine1_frame sleep_ctx_frame handshake_frame ok_frame err_frame gets_frame : frame.
#[export] Hint Extern 1 (Pinned _) => apply _ : frame.
#[export] Hint Extern 1 (StatePinned _) => apply _ : frame.
#[export] Hint Extern 2 (triple _ _ (modc _) _) =>
  apply modc_frame; [ apply _ | solve [auto with frame] | reflexivity | reflexivity ] : frame.
#[export] Hint Extern 2 (triple _ _ (modn _) _) => apply modn_frame; [ apply _ | reflexivity ] : frame.
#[export] Hint Extern 2 (triple _ _ (getc _) _) => apply gets_frame : frame.
#[export] Hint Extern 2 (triple _ _ (gets _) _) => apply gets_frame : frame.
#[export] Hint Extern 2 (triple _ _ IsTLS _) => apply gets_frame : frame.
#[export] Hint Extern 2 (triple _ _ (ret _) _) => apply triple_ret; [apply _ | auto] : frame.

(** Splits sequences and case distinctions, and closes the primitive steps. *)
Ltac frame_steps :=
  repeat match goal with
  | |- triple _ _ (bind _ _) _ => eapply triple_seq; [apply _| |intros ?]
  | |- triple _ _ (let '(_, _) := ?x in _) _ => destruct x
  | |- triple _ _ (match ?x with _ => _ end) _ => destruct x eqn:?
  | |- triple _ _ (if ?x then _ else _) _ => destruct x eqn:?
  | |- triple _ _ (panic) _ => apply triple_panic, _
  | |- triple _ _ (block) _ => apply triple_block, _
  | |- triple _ _ _ _ => solve [eauto 3 with frame]
  end.
