(* ===== verification/ConnFrame.v ===== *)
(** * Every handler respects the frame

    Hijacking, calls into consumer code, body streaming, the error paths and
    the line reader; then one lemma per handler, up to [dispatch]. *)
From S2P Require Import Prelude GoStrings GoConv Errors DotStuff Parse Net Session Options ConnState ConnHandlers ConnServe ConnFacts.

Section Calls.
Context {Sess : Type}.
Variable opts : Options Sess.
Variable good : event -> Prop.
Implicit Types P : St Sess -> Prop.
(** Hijacking, counting an error and closing a body are always permitted. *)
Hypothesis Hhijack : good EvHijack.
Hypothesis Hfail : good EvFail.
Hypothesis Hbody : good EvBodyClose.

Lemma Hijack_frame P `{!Pinned P} : triple P (frame good) (Hijack opts) (fun _ => P).
Proof using Hhijack.
  unfold Hijack. eapply triple_seq; [apply _|by frame_steps|intros s]. case_goal; [by frame_steps|].
  eapply triple_seq; [apply _|by frame_steps|intros h]. case_goal; [by frame_steps|].
  eapply triple_seq; [apply _|by frame_steps|intros [e|]]; [by frame_steps|].
  eapply triple_bind with (Q0 := fun _ st => P st /\ hijacked (conn st) = true); [apply _| |intros _].
  - apply modc_mild; [auto with frame|]. intros st Hst. split; [|done]. by eapply (pinned (P := P)); [| |exact Hst].
  - eapply triple_bind with (Q0 := fun _ => P); [apply _| |by intros; frame_steps].
    intros st [Hst Hj]. split; [by apply frame_emit; auto|]. by eapply (pinned (P := P)); [| |exact Hst].
Qed.

Lemma SetTLS_frame v P `{!StatePinned P} : triple P (frame good) (SetTLS v) (fun _ => P).
Proof.
  apply modc_mild; [auto with frame|]. intros st Hst.
  by eapply (state_pinned (P := P)); [|exact Hst].
Qed.

(** Consumer code that leaves [P] alone when its own state is stored. *)
Lemma run_frame {T A} (upd : T -> M Sess unit) (p : Prog T A) P `{!StatePinned P} :
  (forall s, triple P (frame good) (upd s) (fun _ => P)) ->
  triple P (frame good) (run opts upd p) (fun _ => P).
Proof using Hhijack.
  intros Hupd. induction p; simpl run; (eapply triple_seq; [apply _| |intros ?]);
    try (by auto); first [by apply Hijack_frame, _ | by apply SetTLS_frame, _ | by frame_steps].
Qed.

(** Consumer code that leaves the TLS flag alone keeps more. *)
Lemma run_keeps_frame {T A} (upd : T -> M Sess unit) (p : Prog T A) P `{!Pinned P} :
  keeps_tls p -> (forall s, triple P (frame good) (upd s) (fun _ => P)) ->
  triple P (frame good) (run opts upd p) (fun _ => P).
Proof using Hhijack.
  intros Hp Hupd. induction Hp; simpl run; (eapply triple_seq; [apply _| |intros ?]);
    try (by auto); first [by apply Hijack_frame, _ | by frame_steps].
Qed.

(** The state after a session's method was entered. *)
Definition entered (m : method) (st : St Sess) : St Sess :=
  mkSt (conn st) (net st) (handshakes st) (log st ++ [EvCall m (state (conn st)) (isTLS (conn st))]).

Lemma call_eq {A} m (f : Sess -> Prog Sess A) st :
  call opts m f st = match session (conn st) with
                     | None => (entered m st, Panicked)
                     | Some s => run opts (fun s' => modc (set_session (Some s'))) (f s) (entered m st)
                     end.
Proof. unfold call, bind, getc, gets. simpl. by destruct (session (conn st)). Qed.

Lemma entered_frame m st :
  good (EvCall m (state (conn st)) (isTLS (conn st))) -> frame good st (entered m st).
Proof.
  intros Hg. apply frame_emit; [done|done| |done]. right.
  destruct (state (conn st)) eqn:E; [by right | by left].
Qed.

(** A session call is permitted by what is known of the state it is made in. *)
Lemma call_gen {A} m (f : Sess -> Prog Sess A) P Q `{!Pinned Q} :
  (forall st, P st -> good (EvCall m (state (conn st)) (isTLS (conn st)))) ->
  (forall st, P st -> Q st) ->
  (forall s, triple Q (frame good)
     (run opts (fun s' => modc (set_session (Some s'))) (f s)) (fun _ => Q)) ->
  triple P (frame good) (call opts m f) (fun _ => Q).
Proof.
  intros Hg HPQ Hrun st Hst. rewrite call_eq. pose proof (entered_frame m st (Hg st Hst)) as Hf.
  destruct (session (conn st)) as [s|]; [|done].
  destruct (Hrun s (entered m st)) as [H1 H2]; [|split; [by etrans | done]].
  by eapply (pinned (P := Q)); [| |exact (HPQ st Hst)].
Qed.

Lemma call_frame {A} m (f : Sess -> Prog Sess A) P Q `{!StatePinned Q} :
  (forall st, P st -> good (EvCall m (state (conn st)) (isTLS (conn st)))) ->
  (forall st, P st -> Q st) ->
  triple P (frame good) (call opts m f) (fun _ => Q).
Proof using Hhijack.
  intros Hg HPQ. apply call_gen; [apply _|done|done|]. intros s. apply run_frame; [apply _|].
  intros. by frame_steps.
Qed.

Lemma call_keeps_frame {A} m (f : Sess -> Prog Sess A) P `{!Pinned P} :
  (forall s, keeps_tls (f s)) ->
  (forall st, P st -> good (EvCall m (state (conn st)) (isTLS (conn st)))) ->
  triple P (frame good) (call opts m f) (fun _ => P).
Proof using Hhijack.
  intros Hk Hg. apply call_gen; [apply _|done|done|]. intros s. apply run_keeps_frame; [apply _|done|].
  intros. by frame_steps.
Qed.

(** ** The error paths *)

Lemma countError_frame P `{!Pinned P} : triple P (frame good) (countError (Sess := Sess)) (fun _ => P).
Proof using Hfail.
  intros st Hst. split; [|by eapply (pinned (P := P)); [| |exact Hst]].
  split; auto; [exists [EvFail]; split_and!; auto| |].
  - intros Ht. split; [done|]. intros l Hl. apply app_inv_head in Hl as <-. by repeat constructor.
  - intros l Hl. apply app_inv_head in Hl as <-. by intros ?%list_elem_of_singleton.
Qed.

Lemma applyErrorDelay_frame P `{!Pinned P} : triple P (frame good) (applyErrorDelay opts) (fun _ => P).
Proof. unfold applyErrorDelay. frame_steps. Qed.

Lemma assert_session_frame {A} (f : Sess -> option A) P `{!Pinned P} :
  triple P (frame good) (assert_session f) (fun _ => P).
Proof. unfold assert_session. frame_steps. Qed.
End Calls.

#[export] Hint Resolve Hijack_frame countError_frame applyErrorDelay_frame assert_session_frame : frame.

Section Paths.
Context {Sess : Type} `{Unicode} `{Session Sess}.
Variable opts : Options Sess.
Variable good : event -> Prop.
Implicit Types P : St Sess -> Prop.
Hypothesis Hhijack : good EvHijack.
Hypothesis Hfail : good EvFail.
Hypothesis Hbody : good EvBodyClose.

Lemma clientError_frame msg P `{!Pinned P} :
  triple P (frame good) (clientError opts msg) (fun _ => P).
Proof using Hfail. unfold clientError. frame_steps. Qed.

Lemma sessionError_frame e P `{!Pinned P} :
  triple P (frame good) (sessionError opts e) (fun _ => P).
Proof. unfold sessionError. frame_steps. Qed.

Lemma for_each_frame {A} (f : A -> M Sess unit) l P `{!Pinned P} :
  (forall a, triple P (frame good) (f a) (fun _ => P)) ->
  triple P (frame good) (for_each f l) (fun _ => P).
Proof. intros Hf. induction l; simpl; frame_steps; auto. Qed.

Lemma nextReadDeadline_frame P : triple P (frame good) (nextReadDeadline opts) (fun _ => P).
Proof. unfold nextReadDeadline. frame_steps. Qed.

Lemma arm_read_frame P `{!Pinned P} : triple P (frame good) (arm_read opts) (fun _ => P).
Proof.
  unfold arm_read. eapply triple_seq; [apply _|apply nextReadDeadline_frame|]. intros d. frame_steps.
Qed.

Lemma readLine_frame P `{!Pinned P} : triple P (frame good) (readLine opts) (fun _ => P).
Proof.
  unfold readLine. generalize (@nil Init.Byte.byte). generalize (Z.to_nat (MaxLineLength opts) + 2)%nat.
  intros k. induction k; intros l; simpl; frame_steps; auto.
Qed.

Lemma writeCap_frame name params P `{!Pinned P} :
  triple P (frame good) (writeCap opts name params) (fun _ => P).
Proof. unfold writeCap. frame_steps. Qed.
End Paths.

#[export] Hint Resolve clientError_frame sessionError_frame for_each_frame nextReadDeadline_frame
  arm_read_frame readLine_frame writeCap_frame : frame.

#[export] Hint Extern 1 (event_ok _ _ _) => exact I : frame.

(** ** The handlers *)

Section HandlerFrames.
Context {Sess : Type} `{Unicode} `{HS : Session Sess}.
Variable opts : Options Sess.
Variable int_width : Z.
Local Abbreviation good cmd := (event_ok (InsecureAuth opts) cmd).
Local Abbreviation top := (fun _ _ => True).
Local Abbreviation top1 := (fun _ : St Sess => True).
Implicit Types P : St Sess -> Prop.

(** A client that may authenticate. *)
Definition allowed (st : St Sess) : Prop := InsecureAuth opts || isTLS (conn st) = true.

(** The connection is in state [s]. *)
Definition in_state (s : connState) (st : St Sess) : Prop := state (conn st) = s.

#[export] Instance in_state_pinned s : StatePinned (in_state s).
Proof. intros st st' Hs. unfold in_state. by rewrite Hs. Qed.

#[export] Instance true_pinned : StatePinned (fun _ : St Sess => True).
Proof. by intros st st' _. Qed.

#[export] Instance auth_pinned : Pinned (fun st : St Sess => in_state stateAuthorization st /\ allowed st).
Proof. intros st st' Hs Ht. unfold in_state, allowed. by rewrite Hs, Ht. Qed.

Lemma triple_top {A} P R (m : M Sess A) : triple P R m (fun _ => P) -> triple P R m top.
Proof. intros Ht. eapply triple_conseq; eauto. Qed.

(** The post-condition is forgotten before the last step. *)
Lemma triple_end {A B} P R (m : M Sess A) (b : B) :
  PreOrder R -> triple P R m top -> triple P R (m;;; ret b) top.
Proof. intros HR Hm. eapply triple_bind; [done|exact Hm|]. intros a. by apply triple_ret; [apply _|]. Qed.

Lemma stream_body_frame cmd b P `{!Pinned P} :
  triple P (frame (good cmd)) (stream_body opts b) (fun _ => P).
Proof.
  set (R := fun st st' : St Sess => frame (good cmd) st st' /\ (P st -> P st')).
  assert (PreOrder R).
  { split; [intros st; split; [reflexivity|done]|].
    intros x y z [H1 H2] [H3 H4]. split; [by etrans | auto]. }
  assert (forall st p, R st (@wwrite _ (conn_writer opts) st p).1) as Hw.
  { intros st p. unfold wwrite, conn_writer. split.
    - destruct (WriteBytes_frame opts (good cmd) p (fun _ => True) st I) as [Hf _].
      by destruct (WriteBytes opts p st) as [st1 [[e|]| |]].
    - intros Hst. eapply (pinned (P := P)); [| |exact Hst];
        unfold WriteBytes, with_writer, getc, gets, bind, lift_io;
        by destruct (wr_Write _ _ _ _) as [n1 [[w1 [e|]]|]]. }
  intros st Hst. unfold stream_body.
  pose proof (@ds_copy_rel _ (conn_writer opts) R _ Hw (body_chunks b) (newDotStuffWriter st) (body_err b))
    as [Hf Hp]. change (ds_w (newDotStuffWriter st)) with st in *.
  destruct (ds_copy _ _ _) as [d [[e|]|]]; simpl in Hf, Hp; specialize (Hp Hst).
  - assert (triple P (frame (good cmd)) (modc (set_lastErr (Some e));;; modc (set_closePending true))
      (fun _ => P)) as Hm by frame_steps.
    destruct (Hm _ Hp) as [H1 H2]. split; [by etrans | done].
  - done.
  - pose proof (@ds_Close_rel _ (conn_writer opts) R _ Hw d) as [Hf2 Hp2].
    destruct (ds_Close d) as [d' [[e|]|]]; simpl in *; split; auto; by etrans.
Qed.

(** The three obligations of a permitted call. *)
Ltac call_ok :=
  let Hst := fresh in intros ? Hst; unfold in_state, allowed in Hst; simpl;
  split_and!; [ by apply list_elem_of_In; vm_compute; auto
              | first [ by intros ? [= <-]; apply Hst | done ]
              | first [ done | intros _; apply Hst ] ].

Ltac call_step :=
  match goal with
  | |- triple _ _ (call _ _ _) _ => apply call_frame; [done | apply _ | call_ok | done]
  | |- triple _ _ (for_each _ _) _ => apply for_each_frame; [apply _|intros; by frame_steps]
  end.

Lemma send_body_frame cmd s b P `{!Pinned P} :
  triple P (frame (good cmd)) (send_body opts s b) top.
Proof.
  apply triple_finally; [apply _| |by apply emit_frame; [apply _|..]].
  apply triple_top. frame_steps. by apply stream_body_frame.
Qed.

Tactic Notation "handler_frame" reference(h) :=
  apply triple_top; unfold h; frame_steps; call_step.

Lemma handleStat_frame cx :
  triple (in_state stateTransaction) (frame (good (str "STAT"))) (handleStat opts cx) top.
Proof. handler_frame handleStat. Qed.

Lemma handleList_frame cx args :
  triple (in_state stateTransaction) (frame (good (str "LIST"))) (handleList opts int_width cx args) top.
Proof. handler_frame handleList. Qed.

Lemma handleUidl_frame cx args :
  triple (in_state stateTransaction) (frame (good (str "UIDL"))) (handleUidl opts int_width cx args) top.
Proof. handler_frame handleUidl. Qed.

Lemma handleDele_frame cx args :
  triple (in_state stateTransaction) (frame (good (str "DELE"))) (handleDele opts int_width cx args) top.
Proof. handler_frame handleDele. Qed.

Lemma handleRset_frame cx :
  triple (in_state stateTransaction) (frame (good (str "RSET"))) (handleRset opts cx) top.
Proof. handler_frame handleRset. Qed.

Lemma handleNoop_frame cx :
  triple (in_state stateTransaction) (frame (good (str "NOOP"))) (handleNoop opts cx) top.
Proof. handler_frame handleNoop. Qed.

Lemma handleQuit_frame cx :
  triple (in_state stateTransaction) (frame (good (str "QUIT"))) (handleQuit opts cx) top.
Proof. handler_frame handleQuit. Qed.

Lemma handleRetr_frame cx args :
  triple (in_state stateTransaction) (frame (good (str "RETR"))) (handleRetr opts int_width cx args) top.
Proof.
  unfold handleRetr. destruct (parseMsgNum _ _); [|apply triple_top; by frame_steps].
  eapply triple_seq; [apply _|call_step|]. intros [b|e]; [by apply send_body_frame, _|].
  apply triple_top. by frame_steps.
Qed.

Lemma handleTop_frame cx args :
  triple (in_state stateTransaction) (frame (good (str "TOP"))) (handleTop opts int_width cx args) top.
Proof.
  unfold handleTop. destruct args as [|a [|l args]]; try by (apply triple_top; frame_steps).
  destruct (parseMsgNum _ _); [|apply triple_top; by frame_steps].
  destruct (parseInt _ _); [|apply triple_top; by frame_steps].
  destruct (_ <? 0); [apply triple_top; by frame_steps|].
  eapply triple_seq; [apply _|call_step|]. intros [b|e]; [by apply send_body_frame, _|].
  apply triple_top. by frame_steps.
Qed.

(** *** Authentication *)

Lemma triple_pure {A} (P : St Sess -> Prop) (phi : Prop) R (m : M Sess A) Q :
  (phi -> triple P R m Q) -> triple (fun st => P st /\ phi) R m Q.
Proof. intros Hm st [Hst Hphi]. by apply Hm. Qed.

Lemma assert_session_spec {A} cmd (f : Sess -> option A) P :
  triple P (frame (good cmd)) (assert_session f)
    (fun o st => P st /\ forall x, o = Some x -> exists s, f s = Some x).
Proof.
  intros st Hst. split; [reflexivity|]. simpl. split; [done|].
  destruct (session (conn st)) as [s|]; [|done]. intros x Hx. by exists s.
Qed.

Lemma triple_weaken_pre {A} P R (m : M Sess A) Q : triple top1 R m Q -> triple P R m Q.
Proof. intros Ht st _. by apply Ht. Qed.

(** Where the authentication is not allowed, or the client's request is
    refused, nothing is called. *)
Lemma auth_result_frame cmd P e : triple P (frame (good cmd)) (auth_result opts e) top.
Proof.
  apply triple_weaken_pre. unfold auth_result. frame_steps. by apply modc_mild; [auto with frame|].
Qed.

(** The guard of [handleUser], [handlePass] and [handleAuth]. *)
Lemma auth_guard_frame cmd P msg (m : M Sess unit) `{!Pinned P} :
  triple (fun st => P st /\ allowed st) (frame (good cmd)) m top ->
  triple P (frame (good cmd))
    (a <- authAllowed opts;; if negb a then clientError opts msg else m) top.
Proof.
  intros Hm. eapply triple_bind with (Q0 := fun a st => P st /\ (a = true -> allowed st));
    [apply _|intros st Hst; split; [reflexivity | done]|].
  intros [|]; simpl.
  - eapply triple_conseq; [exact Hm| |done]. intros st [H1 H2]; auto.
  - eapply triple_conseq; [apply (triple_top P); by frame_steps| |done]. by intros st [H1 H2].
Qed.

Lemma handleUser_frame args : triple top1 (frame (good (str "USER"))) (handleUser opts args) top.
Proof. apply auth_guard_frame; [apply _|]. apply triple_weaken_pre. by frame_steps. Qed.

Lemma handlePass_frame cx :
  triple (in_state stateAuthorization) (frame (good (str "PASS"))) (handlePass opts cx) top.
Proof.
  apply auth_guard_frame; [apply _|].
  eapply triple_seq; [apply _|by frame_steps|]. intros u.
  destruct (is_nil u); [apply triple_top; by frame_steps|].
  eapply triple_seq; [apply _|by frame_steps|]. intros pw.
  destruct (is_nil pw); [apply triple_top; by frame_steps|].
  eapply triple_bind with (Q0 := top); [apply _|call_step|intros; apply auth_result_frame].
Qed.

Lemma auth_continuation_frame cmd P `{!Pinned P} :
  triple P (frame (good cmd)) (auth_continuation opts) (fun _ => P).
Proof. unfold auth_continuation. frame_steps. Qed.

Lemma auth_plain_frame cx x enc :
  triple (fun st => in_state stateAuthorization st /\ allowed st) (frame (good (str "AUTH")))
    (auth_plain opts cx x enc) top.
Proof.
  unfold auth_plain. destruct (enc =s? _); [apply triple_top; by frame_steps|].
  destruct (decodeSASLPlain enc) as [[[i u] pw]|e]; [|apply triple_top; by frame_steps].
  eapply triple_bind with (Q0 := top); [apply _|call_step|intros; apply auth_result_frame].
Qed.

Lemma handleAuth_frame `{!TLSStable Sess} cx args :
  triple (in_state stateAuthorization) (frame (good (str "AUTH"))) (handleAuth opts cx args) top.
Proof.
  apply auth_guard_frame; [apply _|].
  eapply triple_bind; [apply _|apply assert_session_spec|]. intros o.
  apply triple_pure. destruct o as [x|]; [|intros _; apply triple_top; by frame_steps].
  intros Hx. destruct (Hx x eq_refl) as [s0 Hs0].
  destruct args as [|a rest].
  - eapply triple_seq; [apply _|by frame_steps|]. intros _.
    eapply triple_bind with (Q0 := top); [apply _|call_step|]. intros ms.
    apply triple_top. frame_steps; call_step.
  - eapply triple_seq; [apply _| |].
    { destruct (_ =s? _); [|by frame_steps]. eapply triple_seq; [apply _| |intros; by frame_steps].
      apply call_keeps_frame; [done|apply _|by eapply ts_mechs|call_ok]. }
    intros [|]; simpl; [|apply triple_top; by frame_steps].
    destruct rest as [|i rest]; [|by apply auth_plain_frame].
    eapply triple_seq; [apply _|by apply auth_continuation_frame, _|].
    intros [e|]; [by apply auth_plain_frame | by apply triple_top; frame_steps].
Qed.

Lemma handleLang_frame cx args :
  triple top1 (frame (good (str "LANG"))) (handleLang opts cx args) top.
Proof. handler_frame handleLang. Qed.

Lemma handleUTF8_frame cx :
  triple top1 (frame (good (str "UTF8"))) (handleUTF8 opts cx) top.
Proof. handler_frame handleUTF8. Qed.

(** *** CAPA, STLS, unknown commands *)

Lemma handleCapa_frame : triple top1 (frame (good (str "CAPA"))) (handleCapa opts) top.
Proof.
  unfold handleCapa.
  eapply triple_bind with (Q0 := fun a st => a = true -> allowed st);
    [apply _|intros st Hst; split; [reflexivity | exact (fun Ha => Ha)]|].
  intros a. assert (Pinned (fun st : St Sess => a = true -> allowed st)).
  { intros st st' _ Ht. unfold allowed. by rewrite Ht. }
  repeat (eapply triple_seq; [apply _|by frame_steps|intros ?]).
  eapply triple_bind with (Q0 := top); [apply _| |].
  - destruct a; [|by apply triple_ret; [apply _|]]. eapply triple_seq; [apply _|by frame_steps|].
    intros [x|]; [|by apply triple_ret; [apply _|]]. eapply triple_bind with (Q0 := fun _ => top1); [apply _| |].
    + apply call_frame; [done|apply _| |done]. intros st Hst. split_and!; [|done|].
      * by apply list_elem_of_In; vm_compute; auto.
      * intros _. by apply Hst.
    + intros ms. by frame_steps.
  - intros _. apply triple_top. by frame_steps; call_step.
Qed.

Lemma reader_reset_frame cmd P `{!Pinned P} :
  triple P (frame (good cmd)) (modc (set_reader NewReader)) (fun _ => P).
Proof.
  intros st Hst. split; [|by eapply (pinned (P := P)); [| |exact Hst]].
  apply frame_same_log; auto. unfold st_weight, rweight; simpl. lia.
Qed.

Lemma handleSTLS_frame cx : triple top1 (frame (good (str "STLS"))) (handleSTLS opts cx) top.
Proof.
  apply triple_top. unfold handleSTLS. frame_steps; try by apply reader_reset_frame, _.
  by apply modc_mild; [auto with frame|].
Qed.

Lemma dispatchUnknown_frame cx cmd args :
  triple top1 (frame (good cmd)) (dispatchUnknown opts cx cmd args) top.
Proof.
  apply triple_top. unfold dispatchUnknown. frame_steps.
  apply run_frame; [done|apply _|]. intros. by frame_steps.
Qed.

(** Every command runs within its discipline. *)
Lemma dispatch_frame `{!TLSStable Sess} cx cmd args :
  triple top1 (frame (good cmd)) (dispatch opts int_width cx cmd args) top.
Proof.
  apply (triple_gets_bind top1). intros [|].
  - apply triple_conseq with (P' := in_state stateAuthorization) (Q' := top); [|by intros st []|done].
    unfold dispatchAuth.
    repeat (case_goal; [match goal with Hc : (cmd =s? _) = true |- _ =>
       apply bytes_eqb_eq in Hc as -> | _ => idtac end; apply triple_end; [apply _|]|]);
    auto using handlePass_frame, handleAuth_frame, triple_weaken_pre, handleCapa_frame, handleUser_frame,
      handleSTLS_frame, handleUTF8_frame, handleLang_frame, dispatchUnknown_frame;
    apply triple_top; by frame_steps.
  - apply triple_conseq with (P' := in_state stateTransaction) (Q' := top); [|by intros st []|done].
    unfold dispatchTransaction.
    repeat (case_goal; [match goal with Hc : (cmd =s? _) = true |- _ =>
       apply bytes_eqb_eq in Hc as -> | _ => idtac end; apply triple_end; [apply _|]|]);
    auto using handleStat_frame, handleList_frame, handleUidl_frame, handleRetr_frame, handleTop_frame,
      handleDele_frame, handleRset_frame, handleNoop_frame, handleQuit_frame, triple_weaken_pre,
      handleCapa_frame, handleUTF8_frame, handleLang_frame, dispatchUnknown_frame;
    apply triple_top; by frame_steps.
Qed.
End HandlerFrames.
