(* ===== verification/ConnLive.v ===== *)
(** * Every connection ends

    With positive idle and write timeouts nothing a connection does blocks for
    ever, and the rounds given to the loops of the library are enough: a peer
    that stalls is dropped, whatever it does. *)
From S2P Require Import Prelude GoStrings GoConv Errors DotStuff Parse Net NetLive Session Options ConnState ConnHandlers ConnServe ConnFacts ConnFrame.

Section Live.
Context {Sess : Type} `{Unicode} `{HS : Session Sess}.
Variable opts : Options Sess.
Variable int_width : Z.
Hypothesis Hidle : 0 < IdleTimeout opts.
Hypothesis Hwrite : 0 < WriteTimeout opts.
Local Abbreviation top1 := (fun _ : St Sess => True).
Local Abbreviation any := (fun _ : event => True).

(** What may still be read when what arrives from [L] on is not: buffered, on
    the connection, or inside a handshake to come. *)
Definition hs_early (L : Z) (h : Handshake) : nat :=
  match h with HsOk _ items => Datatypes.S (early_weight L items) | _ => 1%nat end.

Definition early (L : Z) (st : St Sess) : nat :=
  (measured (early_weight L) (reader (conn st)) (net st) + list_sum (map (hs_early L) (handshakes st)))%nat.

(** When the absolute limit of the connection is up. *)
Definition session_end (st : St Sess) : Z := startTime (conn st) + AbsoluteSessionTimeout opts.

(** Nothing comes back of what the peer sent, and with an absolute limit nothing
    that arrives after it is read. *)
Record spends (st st' : St Sess) : Prop := mkSpends {
  spd_weight : (st_weight st' <= st_weight st)%nat;
  spd_start : startTime (conn st') = startTime (conn st);
  spd_early : 0 < AbsoluteSessionTimeout opts -> (early (session_end st) st' <= early (session_end st) st)%nat
}.

#[export] Instance spends_pre : PreOrder spends.
Proof.
  split; [by split|]. intros a b c [W1 S1 E1] [W2 S2 E2]. split; [lia|congruence|].
  intros Ha. specialize (E1 Ha). specialize (E2 Ha). unfold session_end in *. rewrite S1 in E2. lia.
Qed.

(** The computation ends, and only spends. *)
Definition live {A} (m : M Sess A) : Prop := forall st, (m st).2 <> Blocked /\ spends st (m st).1.

Lemma spends_same st st' :
  reader (conn st') = reader (conn st) -> inbox (net st') = inbox (net st) ->
  startTime (conn st') = startTime (conn st) -> handshakes st' = handshakes st -> spends st st'.
Proof.
  intros Hr Hi Ht Hh. split; [|done|]; unfold st_weight, early, rweight, measured; rewrite ?Hr, ?Hi, ?Hh; intros; lia.
Qed.

Lemma live_ret {A} (a : A) : live (ret a).
Proof. by intros st. Qed.

Lemma live_bind {A B} (m : M Sess A) (k : A -> M Sess B) :
  live m -> (forall a, live (k a)) -> live (bind m k).
Proof.
  intros Hm Hk st. destruct (Hm st) as [H1 H2]. unfold bind.
  destruct (m st) as [st1 [a| |]]; simpl in *; [|done|done].
  destruct (Hk a st1) as [H3 H4]. split; [done | by etrans].
Qed.

Lemma live_finally {A} (m : M Sess A) fin : live m -> live fin -> live (finally m fin).
Proof.
  intros Hm Hf st. destruct (Hm st) as [H1 H2]. unfold finally, bind.
  destruct (m st) as [st1 [a| |]]; simpl in *; [| |done].
  all: destruct (Hf st1) as [H3 H4]; destruct (fin st1) as [st2 [[]| |]]; simpl in *; (split; [done|by etrans]).
Qed.

Lemma live_panic {A} : live (panic (A := A)).
Proof. by intros st. Qed.

Lemma live_gets {A} (f : St Sess -> A) : live (gets f).
Proof. by intros st. Qed.

Lemma live_emit e : live (emit_ev e).
Proof. intros st. split; [done|by apply spends_same]. Qed.

Lemma live_modc f :
  (forall c, reader (f c) = reader c) -> (forall c, startTime (f c) = startTime c) -> live (modc f).
Proof. intros Hf Ht st. split; [done|]. apply spends_same; simpl; auto. Qed.

Lemma live_reset_reader : live (modc (set_reader NewReader)).
Proof. intros st. split; [done|]. split; unfold st_weight, rweight, early, measured; simpl; [lia|done|lia]. Qed.

Lemma live_modn f : (forall n, inbox (f n) = inbox n) -> live (modn f).
Proof. intros Hf st. split; [done|]. apply spends_same; simpl; auto. Qed.

(** ** Output *)

Lemma live_with_writer {A} (f : Writer_ -> Net -> Net * io (Writer_ * A)) :
  (forall w n, returns (f w n)) -> (forall w n, input_kept n (f w n).1) -> live (with_writer f).
Proof.
  intros Hr Hi st. unfold with_writer, getc, gets, bind, lift_io. specialize (Hr (writer (conn st)) (net st)).
  destruct (Hi (writer (conn st)) (net st)) as [Hin _].
  destruct (f _ _) as [n1 [[w1 a]|]]; [|done]. split; [done|]. by apply spends_same.
Qed.

Lemma live_flush : live (flush opts).
Proof using Hwrite.
  apply live_with_writer; intros; [by apply Flush_returns; left | apply Flush_input].
Qed.

Lemma live_WriteBytes s : live (WriteBytes opts s).
Proof using Hwrite.
  apply live_with_writer; intros; [by apply wr_Write_returns; left | apply write_go_input].
Qed.

Lemma live_WriteString s : live (WriteString opts s).
Proof using Hwrite.
  apply live_bind; [|intros; apply live_ret].
  apply live_with_writer; intros; [by apply wr_WriteString_returns; left | apply write_go_input].
Qed.

Lemma live_Fprintf s : live (Fprintf opts s).
Proof using Hwrite. apply live_bind; [apply live_WriteBytes | intros; apply live_ret]. Qed.
End Live.

Create HintDb live.
#[export] Hint Resolve live_ret live_panic live_gets live_emit live_reset_reader live_flush
  live_WriteBytes live_WriteString live_Fprintf : live.
#[export] Hint Extern 2 (live _ (modc _)) => apply live_modc; reflexivity : live.
#[export] Hint Extern 2 (live _ (modn _)) => apply live_modn; reflexivity : live.
#[export] Hint Extern 2 (live _ (getc _)) => apply live_gets : live.

(** Splits sequences and case distinctions, and closes the primitive steps. *)
Ltac live_steps :=
  repeat match goal with
  | |- live _ (bind _ _) => apply live_bind; [|intros ?]
  | |- live _ (finally _ _) => apply live_finally
  | |- live _ (let '(_, _) := ?x in _) => destruct x
  | |- live _ (match ?x with _ => _ end) => destruct x eqn:?
  | |- live _ (if ?x then _ else _) => destruct x eqn:?
  | |- live _ _ => solve [auto with live]
  end.

Section Live2.
Context {Sess : Type} `{Unicode} `{HS : Session Sess}.
Variable opts : Options Sess.
Variable int_width : Z.
Hypothesis Hidle : 0 < IdleTimeout opts.
Hypothesis Hwrite : 0 < WriteTimeout opts.
Local Abbreviation top1 := (fun _ : St Sess => True).
Local Abbreviation any := (fun _ : event => True).

Lemma live_ok msg : live opts (ok opts msg).
Proof using Hwrite. unfold ok. live_steps. Qed.

Lemma live_err msg : live opts (err opts msg).
Proof using Hwrite. unfold err. live_steps. Qed.

Lemma live_Hijack : live opts (Hijack opts).
Proof using Hwrite. unfold Hijack. live_steps. Qed.

Lemma live_run {T A} (upd : T -> M Sess unit) (p : Prog T A) :
  (forall s, live opts (upd s)) -> live opts (run opts upd p).
Proof using Hwrite.
  intros Hu. induction p; simpl run; apply live_bind; intros;
    first [ by apply Hu | by apply live_Hijack | by apply live_ok | by apply live_err | by auto | idtac ];
    unfold SetTLS, IsTLS; live_steps; apply live_modn; intros n; reflexivity.
Qed.

Lemma live_call {A} m (f : Sess -> Prog Sess A) : live opts (call opts m f).
Proof using Hwrite. unfold call. live_steps. apply live_run. intros. live_steps. Qed.

Lemma live_applyErrorDelay : live opts (applyErrorDelay opts).
Proof.
  unfold applyErrorDelay, sleep_ctx. live_steps. apply live_modn. intros n. by destruct (ctx_done _).
Qed.

Lemma live_countError : live opts (countError (Sess := Sess)).
Proof. unfold countError. live_steps. Qed.

Lemma live_assert_session {A} (f : Sess -> option A) : live opts (assert_session f).
Proof. unfold assert_session. live_steps. Qed.

Lemma live_for_each {A} (f : A -> M Sess unit) l : (forall a, live opts (f a)) -> live opts (for_each f l).
Proof. intros Hf. induction l; simpl; live_steps; auto. Qed.
End Live2.

#[export] Hint Resolve live_ok live_err live_call live_applyErrorDelay live_countError
  live_assert_session live_for_each live_Hijack : live.

(** ** Reading a line under a deadline *)

Section Reading.
Context {Sess : Type} `{Unicode} `{HS : Session Sess}.
Variable opts : Options Sess.
Hypothesis Hidle : 0 < IdleTimeout opts.
Implicit Types st : St Sess.
Local Abbreviation top1 := (fun _ : St Sess => True).
Local Abbreviation any := (fun _ : event => True).

(** There is always a deadline to arm, no later than the absolute limit. *)
Lemma nextReadDeadline_some st :
  exists d, nextReadDeadline opts st = (st, Val (Some d))
    /\ (0 < AbsoluteSessionTimeout opts -> d <= session_end opts st).
Proof using Hidle.
  unfold nextReadDeadline, bind, getc, gets, session_end. simpl.
  set (idle := if _ && _ then _ else _).
  assert ((0 <? idle) = true) as ->.
  { subst idle. apply Z.ltb_lt. destruct (_ && _) eqn:E; [by bool_hyps | done]. }
  destruct (Z.ltb_spec 0 (AbsoluteSessionTimeout opts)); [|by eexists; split; [|lia]].
  destruct (Z.ltb_spec (startTime (conn st) + AbsoluteSessionTimeout opts) (now (net st) + idle)); eexists; (split; [done|lia]).
Qed.

(** A read is bounded: there is a deadline, no later than the absolute limit. *)
Definition read_bounded st : Prop :=
  is_Some (rdl (net st)) /\ (0 < AbsoluteSessionTimeout opts -> due_by (session_end opts st) (net st)).

Lemma arm_read_armed st :
  exists d, arm_read opts st = (mkSt (conn st) (SetReadDeadline (Some d) (net st)) (handshakes st) (log st), Val tt)
    /\ read_bounded (mkSt (conn st) (SetReadDeadline (Some d) (net st)) (handshakes st) (log st)).
Proof using Hidle.
  destruct (nextReadDeadline_some st) as (d & Hd & Ha). exists d. unfold arm_read, bind. rewrite Hd.
  split; [done|]. split; [by eexists | exact Ha].
Qed.

(** Something was consumed. *)
Record spends_more st st' : Prop := mkSpendsMore {
  sm_spends : spends opts st st';
  sm_weight : (st_weight st' < st_weight st)%nat;
  sm_early : 0 < AbsoluteSessionTimeout opts ->
    (early (session_end opts st) st' < early (session_end opts st) st)%nat
}.

Lemma spends_then_more st st1 st2 : spends opts st st1 -> spends_more st1 st2 -> spends_more st st2.
Proof.
  intros Ha [Hb Hw He]. pose proof Ha as [W1 S1 E1]. split; [by etrans|lia|]. intros Hp.
  specialize (He Hp). specialize (E1 Hp). unfold session_end in *. rewrite S1 in He. lia.
Qed.

Lemma spends_more_then st st1 st2 : spends_more st st1 -> spends opts st1 st2 -> spends_more st st2.
Proof.
  intros [Ha Hw He] Hb. pose proof Hb as [W1 S1 E1]. split; [by etrans|lia|]. intros Hp.
  specialize (He Hp). specialize (E1 Hp). pose proof (spd_start _ _ _ Ha) as S0.
  unfold session_end in *. rewrite S0 in E1. lia.
Qed.

(** One call of the buffered reader. *)
Lemma readLine1_live st :
  read_bounded st ->
  exists st' chunk pre e, readLine1 st = (st', Val (chunk, pre, e)) /\ read_bounded st'
    /\ spends opts st st' /\ (e = None -> spends_more st st' /\ (pre = true -> chunk <> [])).
Proof.
  intros [Hd Hda]. unfold readLine1, bind, getc, gets, lift_io.
  pose proof (ReadLine_returns (reader (conn st)) (net st) Hd) as Hr.
  pose proof (ReadLine_output (reader (conn st)) (net st)) as (_&_&_&Hrd&_).
  pose proof (ReadLine_weight_le (reader (conn st)) (net st)) as [_ Hw].
  pose proof (ReadLine_weight (reader (conn st)) (net st)) as Hws.
  pose proof (ReadLine_prefix (reader (conn st)) (net st)) as Hp.
  assert (0 < AbsoluteSessionTimeout opts -> pays (early_weight (session_end opts st)) (due_by (session_end opts st))
    (net st) (ReadLine (reader (conn st)) (net st)) _) as He by (intros Ha; apply ReadLine_early; auto).
  destruct (ReadLine _ _) as [n1 [[r1 [[chunk pre] e]]|]]; simpl in *; [|done].
  set (st' := mkSt _ _ _ _). assert (spends opts st st') as Hs.
  { split; [unfold st_weight; simpl; lia|done|]. intros Ha. destruct (He Ha) as (_ & _ & Hv & _).
    unfold early. simpl in *. lia. }
  exists st', chunk, pre, e. split; [reflexivity|]. split; [|split; [done|]].
  - split; simpl; [by rewrite Hrd|]. intros Ha. by destruct (He Ha).
  - intros ->. specialize (Hws _ _ _ _ eq_refl). split; [|intros ->; by eapply Hp].
    split; [done|unfold st_weight; simpl; lia|]. intros Ha. destruct (He Ha) as (_ & _ & _ & Hv).
    specialize (Hv eq_refl). unfold early. simpl in *. lia.
Qed.

(** What a line that was read costs; a failed read costs nothing. *)
Definition read_spends st st' (r : result bytes) : Prop :=
  match r with inl _ => spends_more st st' | inr _ => spends opts st st' end.

(** Enough rounds: one more than the room left in the line. *)
Lemma readLine_go_live k line st :
  read_bounded st -> (Z.to_nat (MaxLineLength opts + 1 - blen line) < k)%nat ->
  exists st' r, readLine_go opts k line st = (st', Val r) /\ read_spends st st' r.
Proof.
  revert line st. induction k as [|k IH]; intros line st Hd Hk; [lia|]. cbn [readLine_go].
  destruct (readLine1_live st Hd) as (st1 & chunk & pre & e & Hr & Hd1 & Hw & Hs).
  unfold bind. rewrite Hr. destruct e as [e|]; [by eexists _, _|].
  destruct (Hs eq_refl) as [Hlt Hne].
  destruct pre; [destruct (Z.ltb_spec (MaxLineLength opts) (blen (line ++ chunk)))|case_goal];
    try by eexists _, _.
  destruct (IH (line ++ chunk) st1 Hd1) as (st2 & r & -> & Hr2).
  { specialize (Hne eq_refl). destruct chunk as [|c chunk]; [done|].
    rewrite blen_app, blen_cons in *. pose proof (blen_nonneg chunk). lia. }
  eexists _, _. split; [reflexivity|]. destruct r; simpl in *; [by eapply spends_then_more|by etrans].
Qed.

Lemma arm_then_readLine st :
  exists st' r, (arm_read opts;;; readLine opts) st = (st', Val r) /\ read_spends st st' r.
Proof using Hidle.
  destruct (arm_read_armed st) as (d & Hd & Hb). unfold bind. rewrite Hd. clear Hd.
  set (st1 := mkSt _ _ _ _) in *. assert (spends opts st st1) as Hs by by apply spends_same.
  destruct (readLine_go_live (Z.to_nat (MaxLineLength opts) + 2) [] st1 Hb) as (st2 & r & Hr & Hsp).
  { unfold blen; simpl. lia. }
  exists st2, r. split; [exact Hr|]. destruct r; simpl in *; [by eapply spends_then_more|by etrans].
Qed.

(** A read that is armed first, inside a longer computation. *)
Lemma live_arm_readLine {A} (k : result bytes -> M Sess A) :
  (forall r, live opts (k r)) -> live opts (arm_read opts;;; r <- readLine opts;; k r).
Proof using Hidle.
  intros Hk st. destruct (arm_then_readLine st) as (st1 & r & Hr & Hw).
  destruct (arm_read_armed st) as (d & Hd & _). unfold bind in *. rewrite Hd in *. rewrite Hr.
  destruct (Hk r st1). split; [done|]. etrans; [|done]. by destruct r; [destruct Hw|].
Qed.
End Reading.

(** ** The handlers end *)

Section LiveHandlers.
Context {Sess : Type} `{Unicode} `{HS : Session Sess}.
Variable opts : Options Sess.
Variable int_width : Z.
Hypothesis Hidle : 0 < IdleTimeout opts.
Hypothesis Hwrite : 0 < WriteTimeout opts.

Lemma live_clientError msg : live opts (clientError opts msg).
Proof using Hwrite. unfold clientError. live_steps. Qed.

Lemma live_sessionError e : live opts (sessionError opts e).
Proof using Hwrite. unfold sessionError. live_steps. Qed.

Lemma live_writeCap name params : live opts (writeCap opts name params).
Proof using Hwrite. unfold writeCap. live_steps. Qed.

Lemma live_nextReadDeadline : live opts (nextReadDeadline opts).
Proof. unfold nextReadDeadline. live_steps. Qed.

Lemma live_auth_result e : live opts (auth_result opts e).
Proof using Hwrite.
  unfold auth_result. live_steps. apply live_sessionError.
Qed.
End LiveHandlers.

#[export] Hint Resolve live_clientError live_sessionError live_writeCap live_nextReadDeadline
  live_auth_result : live.

Section LiveDispatch.
Context {Sess : Type} `{Unicode} `{HS : Session Sess}.
Variable opts : Options Sess.
Variable int_width : Z.
Hypothesis Hidle : 0 < IdleTimeout opts.
Hypothesis Hwrite : 0 < WriteTimeout opts.

Lemma live_auth_plain cx x enc : live opts (auth_plain opts cx x enc).
Proof using Hwrite. unfold auth_plain. live_steps. Qed.

Lemma live_auth_continuation : live opts (auth_continuation opts).
Proof using Hwrite Hidle.
  unfold auth_continuation. do 2 (apply live_bind; [live_steps|intros ?]).
  apply live_arm_readLine; [done|]. intros r. live_steps.
Qed.

Lemma live_handleAuth cx args : live opts (handleAuth opts cx args).
Proof using Hwrite Hidle.
  unfold handleAuth, authAllowed. live_steps; auto using live_auth_plain, live_auth_continuation.
  apply live_for_each. intros. live_steps.
Qed.

(** With a deadline on the connection the handshake ends. *)
Lemma handshake_live cx (st : St Sess) :
  is_Some (rdl (net st)) -> (handshake cx st).2 <> Blocked.
Proof.
  intros [d Hd]. unfold handshake. rewrite Hd.
  destruct (min_opt (Some d) (ctx_done cx)) eqn:Em; [|by destruct (ctx_done cx)].
  by destruct (head (handshakes st)) as [[| |]|]; repeat case_match.
Qed.

Lemma hs_early_tail L (h : list Handshake) :
  (list_sum (map (hs_early L) (tail h)) <= list_sum (map (hs_early L) h))%nat.
Proof. destruct h; simpl; lia. Qed.

Lemma handshake_spends cx (st : St Sess) : spends opts st (handshake cx st).1.
Proof.
  destruct (handshake_frame (fun _ => True) cx (fun _ : St Sess => True) st I) as [[_ _ Hw Ht _ _ _] _].
  split; [exact Hw|exact Ht|]. intros _. unfold early, measured.
  pose proof (hs_early_tail (session_end opts st) (handshakes st)) as Hl.
  unfold handshake. destruct (head (handshakes st)) as [[t items|t e|]|] eqn:Hh; repeat case_match; simpl; try lia;
    (destruct (handshakes st) as [|h hs]; [done|]; injection Hh as ->; simpl; lia).
Qed.

Lemma live_deadline_handshake cx (k : option goerr -> M Sess unit) :
  (forall e, live opts (k e)) ->
  live opts (d <- nextReadDeadline opts;;
        (match d with Some _ => modn (SetDeadline d) | None => ret tt end);;;
        e <- handshake cx;; k e).
Proof using Hidle.
  intros Hk st. destruct (nextReadDeadline_some opts Hidle st) as (d & Hd & _).
  set (st1 := mkSt (conn st) (SetDeadline (Some d) (net st)) (handshakes st) (log st)).
  assert ((d <- nextReadDeadline opts;;
        (match d with Some _ => modn (SetDeadline d) | None => ret tt end);;;
        e <- handshake cx;; k e) st = (e <- handshake cx;; k e) st1) as ->.
  { unfold bind at 1. by rewrite Hd. }
  assert (spends opts st st1) as Hs by by apply spends_same.
  assert ((handshake cx st1).2 <> Blocked) as Hb by (apply handshake_live; by eexists).
  pose proof (handshake_spends cx st1) as Hw.
  unfold bind. destruct (handshake cx st1) as [st2 [e| |]]; simpl in *; [|split; [done|by etrans]|done].
  destruct (Hk e st2). split; [done|]. do 2 (etrans; [eassumption|]). done.
Qed.

Lemma live_handleSTLS cx : live opts (handleSTLS opts cx).
Proof using Hwrite Hidle.
  unfold handleSTLS. apply live_bind; [live_steps|intros [|]]; [live_steps|].
  destruct (negb (TLSConfig opts)); [live_steps|].
  apply live_bind; [live_steps|intros s]. destruct (bool_decide _); [live_steps|].
  apply live_bind; [live_steps|intros r]. destruct (0 <? Buffered r); [live_steps|].
  do 2 (apply live_bind; [live_steps|intros ?]).
  apply live_deadline_handshake. intros e. live_steps.
Qed.

Lemma live_stream_body b : live opts (stream_body opts b).
Proof using Hwrite.
  intros st. unfold stream_body.
  assert (forall w p, (@wwrite _ (conn_writer opts) w p).2 <> Some WBlock
    /\ spends opts w (@wwrite _ (conn_writer opts) w p).1) as Hw.
  { intros w p. unfold wwrite, conn_writer. destruct (live_WriteBytes opts Hwrite p w) as [Hb Hs].
    destruct (WriteBytes opts p w) as [w' [[e|]| |]] eqn:E; try done.
    unfold WriteBytes, with_writer, bind, getc, gets, lift_io in E.
    by destruct (wr_Write _ _ _ _) as [? [[]|]]. }
  pose proof (fun w p => proj1 (Hw w p)) as Hl. pose proof (fun w p => proj2 (Hw w p)) as Hs.
  pose proof (@ds_copy_live _ (conn_writer opts) Hl (body_chunks b) (newDotStuffWriter st) (body_err b)) as Hc.
  pose proof (@ds_copy_rel _ (conn_writer opts) (spends opts) _ Hs (body_chunks b) (newDotStuffWriter st) (body_err b)) as Hcs.
  change (ds_w (newDotStuffWriter st)) with st in *.
  destruct (ds_copy _ _ _) as [d [[e|]|]]; [|done|].
  - split; [done|]. etrans; [exact Hcs|]. by apply spends_same.
  - pose proof (@ds_Close_live _ (conn_writer opts) Hl d) as Hx.
    pose proof (@ds_Close_rel _ (conn_writer opts) (spends opts) _ Hs d) as Hxs. simpl in Hcs.
    destruct (ds_Close d) as [d' [[e|]|]]; simpl in *; try done; (split; [done|by etrans]).
Qed.

Lemma live_send_body s b : live opts (send_body opts s b).
Proof using Hwrite. unfold send_body. live_steps. apply live_stream_body. Qed.

Lemma live_for_each_lines {A} (f : A -> bytes) l : live opts (for_each (fun a => Fprintf opts (f a)) l).
Proof using Hwrite. apply live_for_each. intros. live_steps. Qed.

Lemma live_for_each_strings {A} (f : A -> bytes) l : live opts (for_each (fun a => WriteString opts (f a)) l).
Proof using Hwrite. apply live_for_each. intros. live_steps. Qed.

#[local] Hint Resolve live_for_each_lines live_for_each_strings live_send_body live_handleSTLS
  live_handleAuth : live.

Lemma live_dispatchUnknown cx cmd args : live opts (dispatchUnknown opts cx cmd args).
Proof using Hwrite. unfold dispatchUnknown. live_steps. apply live_run; [done|]. intros. live_steps. Qed.

Lemma live_handleCapa : live opts (handleCapa opts).
Proof using Hwrite. unfold handleCapa, authAllowed. live_steps. Qed.

Lemma live_handleUser args : live opts (handleUser opts args).
Proof using Hwrite. unfold handleUser, authAllowed. live_steps. Qed.

Lemma live_handlePass cx : live opts (handlePass opts cx).
Proof using Hwrite. unfold handlePass, authAllowed. live_steps. Qed.

Lemma live_handleLang cx args : live opts (handleLang opts cx args).
Proof using Hwrite. unfold handleLang. live_steps. Qed.

Lemma live_handleUTF8 cx : live opts (handleUTF8 opts cx).
Proof using Hwrite. unfold handleUTF8. live_steps. Qed.

#[local] Hint Resolve live_dispatchUnknown live_handleCapa live_handleUser live_handlePass
  live_handleLang live_handleUTF8 : live.

Lemma live_dispatch cx cmd args : live opts (dispatch opts int_width cx cmd args).
Proof using Hwrite Hidle.
  unfold dispatch. live_steps.
  - unfold dispatchAuth. repeat case_goal; live_steps.
  - unfold dispatchTransaction, handleStat, handleList, handleUidl, handleRetr, handleTop, handleDele,
      handleRset, handleNoop, handleQuit. repeat case_goal; live_steps.
Qed.

(** ** The loop ends *)

Lemma live_finish_command cmd start quit : live opts (finish_command opts cmd start quit).
Proof using Hwrite. unfold finish_command, maxErrorsExceeded. live_steps. Qed.

Lemma live_run_command line : live opts (run_command opts int_width line).
Proof using Hwrite Hidle.
  unfold run_command. live_steps; auto using live_dispatch, live_finish_command.
Qed.

Lemma live_read_failed e : live opts (read_failed opts e).
Proof using Hwrite. unfold read_failed. live_steps. Qed.

(** A round of the loop ends, and one that is followed by another consumed
    something. *)
Lemma serve_step_live st :
  (serve_step opts int_width st).2 <> Blocked
  /\ spends opts st (serve_step opts int_width st).1
  /\ ((serve_step opts int_width st).2 = Val true -> spends_more opts st (serve_step opts int_width st).1).
Proof using Hwrite Hidle.
  destruct (arm_then_readLine opts Hidle st) as (st1 & r & Hr & Hs). unfold serve_step.
  unfold bind in *. destruct (arm_read opts st) as [st0 [[]| |]]; [|done|done]. rewrite Hr.
  destruct r as [line|e]; simpl in Hs.
  - destruct (is_nil (trim_space line)); [by split_and!; [|destruct Hs|]|].
    destruct (live_run_command (trim_space line) st1) as [Hb Hl].
    pose proof (spends_more_then _ _ _ _ Hs Hl) as Hm. by split_and!; [|destruct Hm|].
  - destruct (live_read_failed e st1) as [Hb Hl].
    destruct (read_failed opts e st1) as [st2 [[]| |]]; simpl in *; split_and!; (done || by etrans).
Qed.

Lemma serve_loop_live k st :
  (st_weight st < k)%nat ->
  (serve_loop opts int_width k st).2 <> Blocked /\ spends opts st (serve_loop opts int_width k st).1.
Proof using Hwrite Hidle.
  revert st. induction k as [|k IH]; intros st Hk; [lia|]. cbn [serve_loop]. unfold bind.
  destruct (serve_step_live st) as (Hb & Hw & Hgo).
  destruct (serve_step opts int_width st) as [st1 [[|]| |]]; simpl in *; try done.
  destruct (Hgo eq_refl) as [_ Hlt _]. destruct (IH st1); [lia|]. split; [done | by etrans].
Qed.

Lemma live_serve : live opts (serve opts int_width).
Proof using Hwrite Hidle.
  unfold serve. apply live_finally; [apply live_finally|apply live_emit].
  - unfold serve_body. live_steps. intros st. apply serve_loop_live. lia.
  - unfold close. live_steps.
Qed.

Lemma live_handleConn_go : live opts (handleConn_go opts int_width).
Proof using Hwrite Hidle.
  unfold handleConn_go. apply live_bind; [apply live_run; [done|]; intros; live_steps|].
  intros [s|e]; [|unfold reject; live_steps]. apply live_bind; [live_steps|intros _; apply live_serve].
Qed.
End LiveDispatch.
