(* ===== verification/Fuel.v ===== *)
(** * The server's loops end

    Each loop of the model takes a number of rounds; here each is written once
    more as its body alone ([serve_F], [readLine_F]; [ReadSlice_F] and [write_F] in
    [NetLive]), the way it stands in the source, and is shown to end within the
    rounds the model gives it, with what the model computes.  A result [Blocked]
    so always is an operation of the network that does not return.  Nothing is
    assumed of timeouts here. *)
From S2P Require Import Prelude GoStrings GoConv Errors DotStuff Parse Net NetLive Session Options ConnState ConnHandlers ConnServe ConnFacts ConnFrame.

Section Fuel.
Context {Sess : Type} `{Unicode} `{HS : Session Sess}.
Variable opts : Options Sess.
Variable int_width : Z.
Implicit Types st : St Sess.
Local Abbreviation top1 := (fun _ : St Sess => True).
Local Abbreviation any := (fun _ : event => True).
Local Abbreviation top := (fun _ _ => True).

(** ** Reading a line *)

(** One call of the buffered reader that succeeds consumes something. *)
Lemma readLine1_progress st st' chunk pre :
  readLine1 st = (st', Val (chunk, pre, None)) ->
  (st_weight st' < st_weight st)%nat /\ (pre = true -> chunk <> []).
Proof.
  unfold readLine1, bind, getc, gets, lift_io.
  destruct (ReadLine _ _) as [n1 [[r1 [[c p] e]]|]] eqn:E; [|done]. simpl. intros [= <- -> -> ->].
  apply ReadLine_weight in E as Hw. split; [unfold st_weight; simpl; lia|].
  intros ->. by eapply ReadLine_prefix.
Qed.

(** The rounds a line that begins with [line] still takes. *)
Definition line_rounds (line : bytes) : nat := S (Z.to_nat (MaxLineLength opts + 1 - blen line)).

Lemma line_rounds_more line chunk :
  chunk <> [] -> blen (line ++ chunk) <= MaxLineLength opts -> (line_rounds (line ++ chunk) < line_rounds line)%nat.
Proof.
  intros Hne Hle. unfold line_rounds. destruct chunk as [|c chunk]; [done|].
  rewrite blen_app, blen_cons in *. pose proof (blen_nonneg chunk). lia.
Qed.

(** The loop of [readLine], as it stands in the source: [self] is its next round. *)
Definition readLine_F (self : bytes * St Sess -> St Sess * outcome (result bytes))
    : bytes * St Sess -> St Sess * outcome (result bytes) := fun '(line, st) =>
  (r <- readLine1;;
   let '(chunk, isPrefix, e) := r in
   match e with
   | Some e => ret (inr e)
   | None =>
     if MaxLineLength opts <? blen (line ++ chunk) then ret (inr (ESentinel errLineTooLong))
     else if negb isPrefix then ret (inl (line ++ chunk)) else fun st' => self (line ++ chunk, st')
   end) st.

Lemma readLine_go_iter k line st :
  readLine_go opts k line st = Nat.iter k readLine_F (fun x => (x.2, Blocked)) (line, st).
Proof.
  revert line st. induction k as [|k IH]; intros line st; [done|]. cbn [readLine_go Nat.iter nat_rect].
  unfold readLine_F at 1. unfold bind. destruct (readLine1 st) as [st1 [[[chunk pre] e]| |]]; [|done|done].
  destruct e; [done|]. destruct pre, (_ <? _); done || apply IH.
Qed.

Lemma readLine_F_ends f f' x :
  (forall y, line_rounds y.1 < line_rounds x.1 -> f y = f' y)%nat -> readLine_F f x = readLine_F f' x.
Proof.
  destruct x as [line st]. cbn [fst]. intros Hf. unfold readLine_F, bind.
  destruct (readLine1 st) as [st1 [[[chunk pre] e]| |]] eqn:E; [|done|done]. destruct e; [done|].
  apply readLine1_progress in E as [_ Hne].
  destruct (Z.ltb_spec (MaxLineLength opts) (blen (line ++ chunk))); [done|]. destruct pre; [|done].
  apply Hf. cbn [fst]. by apply line_rounds_more; [apply Hne|].
Qed.

(** Reading a line gives nothing back, and a line that was read was consumed. *)
Lemma readLine_go_weight k line st :
  (st_weight (readLine_go opts k line st).1 <= st_weight st)%nat
  /\ match (readLine_go opts k line st).2 with
     | Val (inl _) => (st_weight (readLine_go opts k line st).1 < st_weight st)%nat
     | _ => True
     end.
Proof.
  revert line st. induction k as [|k IH]; intros line st; [done|]. cbn [readLine_go]. unfold bind.
  destruct (readLine1_frame any top1 st I) as [[_ _ Hw _ _ _ _] _].
  destruct (readLine1 st) as [st1 [[[chunk pre] e]| |]] eqn:E; [|done|done]. destruct e; [done|].
  apply readLine1_progress in E as [Hlt _]. destruct pre.
  - destruct (_ <? _); [done|]. destruct (IH (line ++ chunk) st1). split; [lia|].
    destruct (readLine_go opts k (line ++ chunk) st1) as [st2 [[x|x]| |]]; simpl in *; (done || lia).
  - destruct (_ <? _); simpl; by split.
Qed.

(** ** The handlers give nothing back *)

Lemma triple_any {A} P good (m : M Sess A) Q : triple P (frame good) m Q -> triple P (frame any) m Q.
Proof.
  intros Hm st Hst. destruct (Hm st Hst) as [Hf Hq]. split; [|done]. by eapply frame_weaken; [|exact Hf].
Qed.

Lemma call_any {A} P m (f : Sess -> Prog Sess A) : triple P (frame any) (call opts m f) (fun _ => top1).
Proof. apply call_frame; [done|apply _|done|done]. Qed.

Lemma auth_plain_any cx x enc : triple top1 (frame any) (auth_plain opts cx x enc) top.
Proof.
  unfold auth_plain. destruct (enc =s? _); [apply triple_top; by frame_steps|].
  destruct (decodeSASLPlain enc) as [[[i u] pw]|e]; [|apply triple_top; by frame_steps].
  eapply triple_seq; [apply _|apply call_any|]. intros e. eapply triple_any, (auth_result_frame opts []).
Qed.

Lemma handleAuth_any cx args : triple top1 (frame any) (handleAuth opts cx args) top.
Proof.
  unfold handleAuth. eapply triple_seq; [apply _|by unfold authAllowed; frame_steps|intros a].
  destruct (negb a); [apply triple_top; by frame_steps|].
  eapply triple_seq; [apply _|by frame_steps|]. intros [x|]; [|apply triple_top; by frame_steps].
  destruct args as [|a0 rest].
  - eapply triple_seq; [apply _|by frame_steps|]. intros _.
    eapply triple_seq; [apply _|apply call_any|]. intros ms. apply triple_top. frame_steps.
    apply for_each_frame; [apply _|intros; by frame_steps].
  - eapply triple_seq; [apply _| |].
    { destruct (_ =s? _); [|by frame_steps]. eapply triple_seq; [apply _|apply call_any|intros; by frame_steps]. }
    intros adv. destruct (negb adv); [apply triple_top; by frame_steps|].
    destruct rest as [|i rest]; [|apply auth_plain_any].
    eapply triple_seq; [apply _|by eapply triple_any, (auth_continuation_frame opts [] top1)|].
    intros [e|]; [apply auth_plain_any | by apply triple_top; frame_steps].
Qed.

Lemma triple_from {A} P R (m : M Sess A) Q st :
  triple P R m Q -> P st -> R st (m st).1.
Proof. intros Hm Hst. by destruct (Hm st Hst). Qed.

Lemma dispatch_any cx cmd args : triple top1 (frame any) (dispatch opts int_width cx cmd args) top.
Proof.
  apply (triple_gets_bind top1). intros [|].
  - apply triple_conseq with (P' := in_state stateAuthorization) (Q' := top); [|by intros st []|done].
    unfold dispatchAuth. repeat (case_goal; [apply triple_end; [apply _|]|]);
    first [apply triple_weaken_pre, handleAuth_any
      | solve [eauto 4 using triple_any, handlePass_frame, triple_weaken_pre, handleCapa_frame, handleUser_frame,
          handleSTLS_frame, handleUTF8_frame, handleLang_frame, dispatchUnknown_frame]
      | apply triple_top; by frame_steps].
  - apply triple_conseq with (P' := in_state stateTransaction) (Q' := top); [|by intros st []|done].
    unfold dispatchTransaction. repeat (case_goal; [apply triple_end; [apply _|]|]);
    first [solve [eauto 4 using triple_any, handleStat_frame, handleList_frame, handleUidl_frame, handleRetr_frame,
          handleTop_frame, handleDele_frame, handleRset_frame, handleNoop_frame, handleQuit_frame,
          triple_weaken_pre, handleCapa_frame, handleUTF8_frame, handleLang_frame, dispatchUnknown_frame]
      | apply triple_top; by frame_steps].
Qed.

Lemma finish_command_any cmd start quit : triple top1 (frame any) (finish_command opts cmd start quit) top.
Proof.
  apply triple_top. unfold finish_command, maxErrorsExceeded. frame_steps. by apply emit_frame; [apply _|..].
Qed.

Lemma run_command_weight line st :
  (st_weight (run_command opts int_width line st).1 <= st_weight st)%nat.
Proof.
  assert (triple top1 (frame any) (run_command opts int_width line) top) as Hr.
  { unfold run_command. destruct (splitCommand line) as [verb raw].
    do 6 (eapply triple_seq; [apply _|by frame_steps|intros ?]).
    eapply triple_seq; [apply _|by apply emit_frame; [apply _|..]|intros _].
    eapply triple_bind; [apply _|apply dispatch_any|]. intros q. apply triple_weaken_pre, finish_command_any. }
  by destruct (triple_from _ _ _ _ st Hr I).
Qed.

(** ** The command loop *)

Lemma serve_step_weight st :
  (serve_step opts int_width st).2 = Val true ->
  (st_weight (serve_step opts int_width st).1 < st_weight st)%nat.
Proof.
  unfold serve_step, bind.
  pose proof (triple_from _ _ _ _ st (arm_read_frame opts any top1) I) as [_ _ Hw _ _ _ _].
  destruct (arm_read opts st) as [st0 [[]| |]]; try done. simpl in Hw. unfold readLine.
  destruct (readLine_go_weight (Z.to_nat (MaxLineLength opts) + 2) [] st0) as [_ Hlt].
  destruct (readLine_go opts _ [] st0) as [st1 [[line|e]| |]]; simpl in *; try done.
  - destruct (is_nil (trim_space line)); simpl; [lia|]. pose proof (run_command_weight (trim_space line) st1). lia.
  - by destruct (read_failed opts e st1) as [st2 [[]| |]].
Qed.

(** The loop of [serve], as it stands in the source. *)
Definition serve_F (self : St Sess -> St Sess * outcome unit) : St Sess -> St Sess * outcome unit :=
  go <- serve_step opts int_width;; if go : bool then self else ret tt.

Lemma serve_loop_iter k st :
  serve_loop opts int_width k st = Nat.iter k serve_F (fun st => (st, Blocked)) st.
Proof.
  revert st. induction k as [|k IH]; intros st; [done|]. cbn [serve_loop Nat.iter nat_rect].
  unfold serve_F at 1. unfold bind. destruct (serve_step opts int_width st) as [st1 [[|]| |]]; done || apply IH.
Qed.

Lemma serve_F_ends f f' st :
  (forall y, st_weight y < st_weight st -> f y = f' y)%nat -> serve_F f st = serve_F f' st.
Proof.
  intros Hf. unfold serve_F, bind. pose proof (serve_step_weight st) as Hlt.
  destruct (serve_step opts int_width st) as [st1 [[|]| |]]; try done. by apply Hf, Hlt.
Qed.
End Fuel.

(** C26: the unbounded loops of the source end.  The command loop of [serve] ends
    before its round [st_weight st + 1] - one round for each byte and piece the
    client still sends - and the line reader, the search for a line's end and the
    buffered write end after the rounds given below, for every configuration,
    session and peer: what a later round would do is never reached.  They end with
    what the bounded loops of the model give. *)
Theorem loops_end (Sess : Type) `{Unicode} `{Session Sess} (opts : Options Sess) int_width
    (st : St Sess) (direct : bool) (wt : Z) (p : bytes) (w : Writer_) (r : Reader) (n : Net) :
  ends_within (S (st_weight st)) (serve_F opts int_width) st (serve_loop opts int_width (S (st_weight st)) st)
  /\ ends_within (Z.to_nat (MaxLineLength opts) + 2) (readLine_F opts) ([], st) (readLine opts st)
  /\ ends_within (bufsize + 2) ReadSlice_F (r, n) (ReadSlice r n)
  /\ ends_within (2 * length p + 2) (write_F direct wt) (p, w, n)
       (if direct then wr_Write wt p w n else wr_WriteString wt p w n).
Proof.
  split_and!.
  - rewrite serve_loop_iter. apply (iter_ends_within _ st_weight); [apply serve_F_ends|lia].
  - unfold readLine. rewrite readLine_go_iter. apply (iter_ends_within _ (fun x => pred (line_rounds opts x.1))).
    + intros f f' x Hf. apply readLine_F_ends. intros y Hy. apply Hf. unfold line_rounds in *. lia.
    + unfold line_rounds, blen. simpl. lia.
  - unfold ReadSlice. rewrite ReadSlice_go_iter. apply (iter_ends_within _ (fun x => pred (slice_rounds x.1))).
    + intros f f' x Hf. apply ReadSlice_F_ends. intros y Hy. apply Hf. pose proof (slice_rounds_pos y.1). lia.
    + unfold slice_rounds. simpl. case_match; lia.
  - unfold wr_Write, wr_WriteString.
    replace (if direct then _ else _) with (write_go direct wt (2 * length p + 2) p w n) by by destruct direct.
    rewrite write_go_iter. apply (iter_ends_within _ write_size); [intros; by apply write_F_ends|].
    unfold write_size, write_rounds. simpl. repeat case_match; lia.
Qed.
