(* ===== verification/ConnAuth.v ===== *)
(** * Login attempts

    A command makes at most one login attempt; an attempt that does not succeed
    is a counted error (unless failures are exempt); after a success there are
    no more attempts. *)
From S2P Require Import Prelude GoStrings GoConv Errors DotStuff Parse Net Session Options ConnState ConnHandlers ConnServe ConnFacts ConnFrame.

Definition is_login (e : event) : bool :=
  match e with EvCall MLogin _ _ | EvCall MAuthenticatePlain _ _ => true | _ => false end.

(** The number of login attempts in a log. *)
Definition logins (l : list event) : Z := blen (List.filter is_login l).

Definition no_login (e : event) : Prop := is_login e = false.

#[export] Hint Extern 1 (no_login _) => reflexivity : frame.

Lemma logins_app l k : logins (l ++ k) = logins l + logins k.
Proof. unfold logins. by rewrite List.filter_app, blen_app. Qed.

Lemma logins_none l : Forall no_login l -> logins l = 0.
Proof. unfold logins. induction 1 as [|e l He _ IH]; [done|]. simpl. by rewrite He. Qed.

Lemma logins_nonneg l : 0 <= logins l.
Proof. apply blen_nonneg. Qed.

Lemma fails_nonneg l : 0 <= fails l.
Proof. apply blen_nonneg. Qed.

Section Attempts.
Context {Sess : Type} `{Unicode} `{HS : Session Sess}.
Variable opts : Options Sess.
Variable int_width : Z.
Local Abbreviation top := (fun _ _ => True).
Local Abbreviation top1 := (fun _ : St Sess => True).
Implicit Types st : St Sess.

(** What a computation adds to the log of [st]: at most one attempt, and one
    that did not succeed was counted. *)
Definition attempt {A} st (r : St Sess * outcome A) : Prop :=
  exists l, log r.1 = log st ++ l /\ logins l <= 1
    /\ errorCount (conn r.1) = errorCount (conn st) + fails l
    /\ match r.2 with
       | Val _ => AuthFailuresExemptFromMaxErrors opts = false ->
           logins l <= fails l \/ state (conn r.1) = stateTransaction \/ hijacked (conn r.1) = true
       | _ => True
       end.

(** A computation that makes no attempt. *)
Definition calm {A} (m : M Sess A) : Prop := triple top1 (frame no_login) m top.

Lemma calm_from_attempt {A} (P : St Sess -> Prop) st (m : M Sess A) Q :
  triple P (frame no_login) m Q -> P st -> attempt st (m st).
Proof.
  intros Hm Hst. destruct (Hm st Hst) as [[(l & Hl & Hg & Hc) _ _ _ _ _ _] _].
  exists l. rewrite (logins_none l Hg). split_and!; auto; [lia|].
  destruct (m st).2; try done. intros _. left. apply fails_nonneg.
Qed.

Lemma calm_attempt {A} st (m : M Sess A) : calm m -> attempt st (m st).
Proof. intros Hm. by eapply calm_from_attempt. Qed.

Lemma calm_bind_attempt {A B} st (m : M Sess A) (k : A -> M Sess B) :
  calm m -> (forall a st, attempt st (k a st)) -> attempt st (bind m k st).
Proof.
  intros Hm Hk. destruct (Hm st I) as [[(l & Hl & Hg & Hc) _ _ _ _ _ _] _]. unfold bind.
  destruct (m st) as [st1 [a| |]]; simpl in *.
  2,3: exists l; rewrite (logins_none l Hg); split_and!; (done || lia).
  destruct (Hk a st1) as (l' & Hl' & H1 & Hc' & Ho). exists (l ++ l').
  split; [by rewrite Hl', Hl, app_assoc|]. rewrite logins_app, fails_app, (logins_none l Hg).
  split; [lia|]. split; [lia|]. destruct (k a st1).2; try done. intros He.
  destruct (Ho He) as [?|?]; [|by right]. left. pose proof (fails_nonneg l). lia.
Qed.

Lemma attempt_end {A B} st (m : M Sess A) (b : B) :
  attempt st (m st) -> attempt st ((m;;; ret b) st).
Proof. unfold bind. by destruct (m st) as [st1 [a| |]]. Qed.

Lemma auth_result_calm e : calm (auth_result opts e).
Proof.
  unfold calm, auth_result. frame_steps. by apply modc_mild; [auto with frame|].
Qed.

(** A refused login is counted; an accepted one moves on, unless hijacked. *)
Lemma auth_result_end e st :
  match (auth_result opts e st).2 with
  | Val _ => AuthFailuresExemptFromMaxErrors opts = false ->
      errorCount (conn st) + 1 <= errorCount (conn (auth_result opts e st).1)
      \/ state (conn (auth_result opts e st).1) = stateTransaction
      \/ hijacked (conn (auth_result opts e st).1) = true
  | _ => True
  end.
Proof.
  unfold auth_result. destruct e as [e|].
  - destruct (AuthFailuresExemptFromMaxErrors opts); [by destruct (bind _ _ st).2|].
    assert (triple top1 (frame no_login) (applyErrorDelay opts;;; sessionError opts e) top) as Hr.
    { apply triple_top. by frame_steps. }
    set (st1 := mkSt (set_errorCount (errorCount (conn st) + 1) (conn st)) (net st) (handshakes st)
      (log st ++ [EvFail])).
    assert (forall k : unit -> M Sess unit, bind (countError (Sess := Sess)) k st = k tt st1) as -> by done.
    destruct (Hr st1 I) as [[(l & _ & _ & Hc) _ _ _ _ _ _] _]. destruct (bind _ _ st1) as [st2 [[]| |]]; try done.
    intros _. left. simpl in *. pose proof (fails_nonneg l). lia.
  - destruct (hijacked (conn st)) eqn:Eh.
    { unfold bind, getc, gets. rewrite Eh. simpl. auto. }
    set (st1 := mkSt (set_state stateTransaction (conn st)) (net st) (handshakes st) (log st)).
    assert (bind (getc hijacked) (fun h => if h then ret tt else
      modc (set_state stateTransaction);;; ok opts (str "Authentication successful")) st
      = ok opts (str "Authentication successful") st1) as ->.
    { unfold bind, getc, gets. by rewrite Eh. }
    destruct (ok_frame opts no_login (str "Authentication successful") top1 st1 I) as [Hf _].
    pose proof (fr_phase _ _ _ Hf eq_refl) as [Hp _].
    destruct (ok opts _ st1) as [st2 [[]| |]]; simpl in *; auto.
Qed.

(** The call of a login method, and what is made of its result. *)
Lemma login_attempt m (f : Sess -> Prog Sess (option goerr)) st :
  attempt st ((e <- call opts m f;; auth_result opts e) st).
Proof.
  unfold bind. rewrite call_eq. set (st0 := entered m st).
  set (c := EvCall m (state (conn st)) (isTLS (conn st))).
  assert (logins [c] <= 1) as H1 by (unfold logins, blen; cbn [List.filter]; destruct (is_login c); simpl; lia).
  assert (fails [c] = 0) as H0 by done.
  destruct (session (conn st)) as [s|].
  2:{ exists [c]. split_and!; try done. rewrite H0. simpl. lia. }
  assert (calm (run opts (fun s' => modc (set_session (Some s'))) (f s))) as Hc.
  { apply run_frame; [done|apply _|]. intros. by frame_steps. }
  destruct (Hc st0 I) as [[(l & Hl & Hg & Hec) _ _ _ _ _ _] _].
  destruct (run _ _ _ st0) as [st1 [e| |]]; simpl in *.
  2,3: exists (c :: l); change (c :: l) with ([c] ++ l);
    rewrite logins_app, fails_app, (logins_none l Hg); split_and!; try done; try lia; cbn [fst];
    rewrite Hl; by rewrite <- app_assoc.
  destruct (auth_result_calm e st1 I) as [[(l2 & Hl2 & Hg2 & Hec2) _ _ _ _ _ _] _].
  pose proof (auth_result_end e st1) as Hend.
  exists (c :: l ++ l2). change (c :: l ++ l2) with ([c] ++ l ++ l2).
  rewrite !logins_app, !fails_app, (logins_none l Hg), (logins_none l2 Hg2), H0.
  split; [rewrite Hl2, Hl; simpl; by rewrite <- !app_assoc|]. split; [lia|]. split; [lia|].
  destruct (auth_result opts e st1) as [st2 [[]| |]]; simpl in *; try done.
  intros Hex. destruct (Hend Hex) as [Hf|Hf]; [left | by right].
  pose proof (fails_nonneg l). lia.
Qed.

Lemma guard_attempt msg (m : M Sess unit) st :
  (forall st, attempt st (m st)) ->
  attempt st ((a <- authAllowed opts;; if negb a then clientError opts msg else m) st).
Proof.
  intros Hm. apply calm_bind_attempt; [by unfold calm, authAllowed; frame_steps|].
  intros [|] st1; simpl; [apply Hm|]. apply calm_attempt, triple_top. by frame_steps.
Qed.

Lemma handlePass_attempt cx st : attempt st (handlePass opts cx st).
Proof.
  apply guard_attempt. clear st. intros st. apply calm_bind_attempt; [by unfold calm; frame_steps|].
  intros u st1. destruct (is_nil u); [apply calm_attempt, triple_top; by frame_steps|].
  apply calm_bind_attempt; [by unfold calm; frame_steps|].
  intros pw st2. destruct (is_nil pw); [apply calm_attempt, triple_top; by frame_steps|].
  apply login_attempt.
Qed.

Lemma auth_plain_attempt cx x enc st : attempt st (auth_plain opts cx x enc st).
Proof.
  unfold auth_plain. destruct (enc =s? _); [apply calm_attempt, triple_top; by frame_steps|].
  destruct (decodeSASLPlain enc) as [[[i u] pw]|e]; [apply login_attempt|].
  apply calm_attempt, triple_top. by frame_steps.
Qed.

Lemma mechs_calm (x : SessionSASL Sess) : calm (call opts MAuthenticateMechanisms (AuthenticateMechanisms x)).
Proof. by apply call_frame; [|apply _|..]. Qed.

Lemma handleAuth_attempt cx args st : attempt st (handleAuth opts cx args st).
Proof.
  apply guard_attempt. clear st. intros st. apply calm_bind_attempt; [by unfold calm; frame_steps|].
  intros [x|] st1; [|apply calm_attempt, triple_top; by frame_steps].
  destruct args as [|a rest].
  - apply calm_attempt. eapply triple_seq; [apply _|by frame_steps|intros _].
    eapply triple_seq; [apply _|apply mechs_calm|intros ms]. apply triple_top. frame_steps.
    apply for_each_frame; [apply _|intros; by frame_steps].
  - apply calm_bind_attempt.
    { destruct (_ =s? _); [|by unfold calm; frame_steps].
      eapply triple_seq; [apply _|apply mechs_calm|intros; by frame_steps]. }
    intros [|] st2; simpl; [|apply calm_attempt, triple_top; by frame_steps].
    destruct rest as [|i rest]; [|apply auth_plain_attempt].
    apply calm_bind_attempt; [unfold calm, auth_continuation; by frame_steps|].
    intros [e|] st3; [apply auth_plain_attempt|]. apply calm_attempt. by frame_steps.
Qed.

(** ** Dispatch *)

Lemma triple_weaken {A} (g1 g2 : event -> Prop) P (m : M Sess A) Q :
  (forall e, g1 e -> g2 e) -> triple P (frame g1) m Q -> triple P (frame g2) m Q.
Proof. intros Hg Hm st Hst. destruct (Hm st Hst). split; [by eapply frame_weaken | done]. Qed.

(** Only PASS and AUTH reach the login methods. *)
Lemma event_ok_no_login insecure cmd e :
  (MLogin ∉ methods_of cmd) -> (MAuthenticatePlain ∉ methods_of cmd) ->
  event_ok insecure cmd e -> no_login e.
Proof. intros H1 H2. destruct e as [m s t| | | | | | | | |]; try done. intros (Hm & _). by destruct m. Qed.

Lemma known_no_login cmd : cmd ∈ map str ["CAPA"; "USER"; "STLS"; "UTF8"; "LANG"; "STAT"; "LIST"; "UIDL";
    "RETR"; "TOP"; "DELE"; "RSET"; "NOOP"; "QUIT"]%string ->
  (MLogin ∉ methods_of cmd) /\ MAuthenticatePlain ∉ methods_of cmd.
Proof.
  assert (Forall (fun cmd => (MLogin ∉ methods_of cmd) /\ MAuthenticatePlain ∉ methods_of cmd)
    (map str ["CAPA"; "USER"; "STLS"; "UTF8"; "LANG"; "STAT"; "LIST"; "UIDL";
    "RETR"; "TOP"; "DELE"; "RSET"; "NOOP"; "QUIT"]%string)) as Hall.
  { apply (bool_decide_unpack _). vm_compute. exact I. }
  rewrite Forall_forall in Hall. auto.
Qed.

Lemma known_calm cmd P (m : M Sess unit) :
  triple P (frame (event_ok (InsecureAuth opts) (str cmd))) m top ->
  cmd ∈ ["CAPA"; "USER"; "STLS"; "UTF8"; "LANG"; "STAT"; "LIST"; "UIDL";
    "RETR"; "TOP"; "DELE"; "RSET"; "NOOP"; "QUIT"]%string ->
  forall b : bool, triple P (frame no_login) (m;;; ret b) top.
Proof.
  intros Hm Hin b. apply triple_end; [apply _|]. eapply triple_weaken; [|exact Hm].
  destruct (known_no_login (str cmd)); [by apply list_elem_of_fmap_2|].
  intros e. by apply event_ok_no_login.
Qed.

Lemma dispatchUnknown_calm cx cmd args : calm (dispatchUnknown opts cx cmd args).
Proof.
  unfold calm, dispatchUnknown. frame_steps.
  apply run_frame; [done|apply _|]. intros. by frame_steps.
Qed.

Ltac known := solve [by apply list_elem_of_In; simpl; tauto].

Lemma dispatchAuth_attempt cx cmd args st : attempt st (dispatchAuth opts cx cmd args st).
Proof.
  unfold dispatchAuth. repeat case_goal;
    try (by apply calm_attempt; unfold calm; frame_steps);
    first [ by apply attempt_end, handlePass_attempt | by apply attempt_end, handleAuth_attempt
          | by apply calm_attempt, dispatchUnknown_calm | idtac ].
  all: apply calm_attempt.
  - eapply (known_calm "CAPA"); [apply handleCapa_frame|known].
  - eapply (known_calm "USER"); [apply handleUser_frame|known].
  - eapply (known_calm "STLS"); [apply handleSTLS_frame|known].
  - eapply (known_calm "UTF8"); [apply handleUTF8_frame|known].
  - eapply (known_calm "LANG"); [apply handleLang_frame|known].
Qed.

Lemma dispatchTransaction_calm cx cmd args :
  triple (in_state stateTransaction) (frame no_login) (dispatchTransaction opts int_width cx cmd args) top.
Proof.
  unfold dispatchTransaction. repeat case_goal;
    try (by apply triple_weaken_pre; frame_steps); try (by apply triple_weaken_pre, dispatchUnknown_calm).
  - eapply (known_calm "CAPA"); [apply triple_weaken_pre, handleCapa_frame|known].
  - eapply (known_calm "STAT"); [apply handleStat_frame|known].
  - eapply (known_calm "LIST"); [apply handleList_frame|known].
  - eapply (known_calm "UIDL"); [apply handleUidl_frame|known].
  - eapply (known_calm "RETR"); [apply handleRetr_frame|known].
  - eapply (known_calm "TOP"); [apply handleTop_frame|known].
  - eapply (known_calm "DELE"); [apply handleDele_frame|known].
  - eapply (known_calm "RSET"); [apply handleRset_frame|known].
  - eapply (known_calm "NOOP"); [apply handleNoop_frame|known].
  - eapply (known_calm "QUIT"); [apply handleQuit_frame|known].
  - eapply (known_calm "LANG"); [apply triple_weaken_pre, handleLang_frame|known].
  - eapply (known_calm "UTF8"); [apply triple_weaken_pre, handleUTF8_frame|known].
Qed.

Lemma dispatch_attempt cx cmd args st : attempt st (dispatch opts int_width cx cmd args st).
Proof.
  unfold dispatch, bind at 1, getc, gets. destruct (state (conn st)) eqn:E.
  - apply dispatchAuth_attempt.
  - by eapply calm_from_attempt; [apply dispatchTransaction_calm|].
Qed.

(** Logged in, no command attempts to log in. *)
Lemma dispatch_logged_in cx cmd args st :
  state (conn st) = stateTransaction ->
  frame no_login st (dispatch opts int_width cx cmd args st).1.
Proof.
  intros Hst. unfold dispatch, bind at 1, getc, gets. rewrite Hst.
  by destruct (dispatchTransaction_calm cx cmd args st Hst).
Qed.
End Attempts.
