(* ===== verification/ConnTrace.v ===== *)
(** * The trace of a connection

    Which events a connection may produce, from its first command to its last:
    the shape of the log of [ServeConn], and what follows from it. *)
From S2P Require Import Prelude GoStrings GoConv Errors DotStuff Parse Net Session Options ConnState ConnHandlers ConnServe ConnFacts ConnFrame ConnAuth.

(** ** The shape of a log *)

(** Events that are neither calls, commands, counted errors nor closings. *)
Definition quiet (e : event) : Prop :=
  match e with
  | EvHijack | EvBodyClose | EvOnCommand _ _ _ | EvOnTimeout _ | EvOnPanic => True
  | _ => False
  end.

(** Those a round of the loop may add before and after the command's handler. *)
Definition silent (e : event) : Prop := quiet e /\ e <> EvHijack.

(** What may happen between a command and the next one. *)
Definition during (insecure : bool) (cmd : bytes) (e : event) : Prop :=
  event_ok insecure cmd e \/ quiet e.

(** The commands of a connection from the [n]-th counted error on: each begins
    below the limit [limit] on errors (when there is one), makes only the calls
    its discipline permits and at most one login attempt; an attempt that is
    not followed by a counted error (when failures count) is the last one, and a
    command during which the connection is hijacked is the last one. *)
Inductive history (insecure : bool) (limit : Z) (exempt : bool) : Z -> list event -> Prop :=
| history_end n : history insecure limit exempt n []
| history_silent n e l : silent e -> history insecure limit exempt n l -> history insecure limit exempt n (e :: l)
| history_command n cmd l rest :
    (0 < limit -> n < limit) ->
    Forall (during insecure cmd) l ->
    logins l <= 1 ->
    (exempt = false -> logins l <= fails l \/ logins rest = 0) ->
    (EvHijack ∈ l -> rest = []) ->
    history insecure limit exempt (n + fails l) rest ->
    history insecure limit exempt n (EvCommand cmd :: l ++ rest).

(** The last command of a log. *)
Definition is_command (e : event) : bool := match e with EvCommand _ => true | _ => false end.

Definition last_command (l : list event) : option bytes :=
  last (omap (fun e => match e with EvCommand c => Some c | _ => None end) l).

Lemma silent_quiet q : Forall silent q -> Forall quiet q.
Proof. intros Hq. eapply Forall_impl; [exact Hq|]. by intros e [? _]. Qed.

Lemma history_silents insecure limit exempt n q l :
  Forall silent q -> history insecure limit exempt n l -> history insecure limit exempt n (q ++ l).
Proof. induction 1; simpl; auto using history. Qed.

Lemma quiet_fails q : Forall quiet q -> fails q = 0.
Proof.
  induction 1 as [|e q He _ IH]; [done|]. unfold fails in *; simpl. by destruct e.
Qed.

Lemma last_command_app l k :
  last_command (l ++ k) = match last_command k with Some c => Some c | None => last_command l end.
Proof.
  unfold last_command. by rewrite omap_app, last_app.
Qed.

(** ** One round of the loop *)

Section Rounds.
Context {Sess : Type} `{Unicode} `{HS : Session Sess} `{!TLSStable Sess}.
Variable opts : Options Sess.
Variable int_width : Z.
Local Abbreviation top := (fun _ _ => True).
Local Abbreviation top1 := (fun _ : St Sess => True).

(** The connection is below the limit on errors. *)
Definition below_limit (st : St Sess) : Prop :=
  0 < MaxErrors opts -> errorCount (conn st) < MaxErrors opts.

Lemma read_failed_frame e : triple top1 (frame silent) (read_failed opts e) (fun _ => top1).
Proof. unfold read_failed. frame_steps; by apply emit_frame; [apply _|..]. Qed.

(** Nothing silent changes the number of errors. *)
Lemma triple_silent {A} P (m : M Sess A) Q (I : Z -> Prop) :
  triple P (frame silent) m Q ->
  triple (fun st => P st /\ I (errorCount (conn st))) (frame silent) m
    (fun a st => Q a st /\ I (errorCount (conn st))).
Proof.
  intros Hm st [Hst HI]. destruct (Hm st Hst) as [Hf HQ]. split; [done|].
  pose proof (fr_log _ _ _ Hf) as (l & _ & Hl & Hc). rewrite (quiet_fails l (silent_quiet l Hl)), Z.add_0_r in Hc.
  destruct (m st).2; try done. by rewrite Hc.
Qed.

Lemma finish_command_frame cmd start quit :
  triple top1 (frame silent) (finish_command opts cmd start quit)
    (fun go st => go = true -> below_limit st).
Proof.
  unfold finish_command. eapply triple_seq; [apply _| |intros _].
  { frame_steps. by apply emit_frame; [apply _|..]. }
  eapply triple_seq; [apply _|by frame_steps|intros [|]]; [by apply triple_ret; [apply _|]|].
  eapply triple_seq; [apply _|by frame_steps|intros cp].
  eapply triple_bind with (Q0 := fun over st => True /\
    (over = false -> 0 < MaxErrors opts -> errorCount (conn st) < MaxErrors opts)); [apply _| |].
  { intros st _. split; [reflexivity|]. simpl. split; [done|]. intros Ho Hp.
    apply andb_false_iff in Ho as [Ho|Ho]; bool_hyps; lia. }
  intros over.
  set (I := fun n => over = false -> 0 < MaxErrors opts -> n < MaxErrors opts).
  apply triple_conseq with (P' := fun st => True /\ I (errorCount (conn st)))
    (Q' := fun go st => (go = true -> over = false) /\ I (errorCount (conn st)));
    [| done | unfold below_limit; by intros go st [H1 H2] Hg; auto].
  apply (triple_silent top1 _ (fun go _ => go = true -> over = false) I).
  eapply triple_bind with (Q0 := fun q _ => q = false -> over = false); [apply _| |].
  - destruct (negb (quit || cp) && over) eqn:E.
    + eapply triple_seq; [apply _|by frame_steps|intros _]. by apply triple_ret; [apply _|].
    + apply triple_ret; [apply _|]. intros _ _ Hq. by rewrite Hq in E.
  - intros q. apply triple_conseq with (Q' := fun go _ => go = true -> over = false) (P' := fun st => True /\ (q = false -> over = false));
      [|intros st Hq; by split|done].
    apply triple_pure. intros Hq. eapply triple_seq; [apply _|by frame_steps|intros e].
    destruct e; apply triple_ret; try apply _; try done.
    intros _ _ ?%negb_true_iff. auto.
Qed.

Lemma quiet_no_login e : quiet e -> no_login e.
Proof. by destruct e. Qed.

Lemma quiet_logins q : Forall quiet q -> logins q = 0.
Proof. intros Hq. apply logins_none. eapply Forall_impl; [exact Hq|]. apply quiet_no_login. Qed.

(** One command, and how it leaves the loop. *)
Definition command_round (cmd : bytes) (st : St Sess) (r : St Sess * outcome bool) : Prop :=
  exists q l, log r.1 = log st ++ q ++ EvCommand cmd :: l /\ Forall silent q
     /\ Forall (during (InsecureAuth opts) cmd) l
     /\ errorCount (conn r.1) = errorCount (conn st) + fails l
     /\ (st_weight r.1 <= st_weight st)%nat
     /\ (is_Some (session (conn st)) -> is_Some (session (conn r.1)))
     /\ logins l <= 1
     /\ (state (conn st) = stateTransaction -> logins l = 0 /\ state (conn r.1) = stateTransaction)
     /\ (EvHijack ∈ l -> hijacked (conn r.1) = true /\ r.2 <> Val true)
     /\ (hijacked (conn st) = true -> hijacked (conn r.1) = true)
     /\ (r.2 = Val true -> below_limit r.1 /\ (AuthFailuresExemptFromMaxErrors opts = false ->
           logins l <= fails l \/ state (conn r.1) = stateTransaction)).

(** After a hijacking the loop ends. *)
Lemma finish_command_hijacked cmd start quit st :
  hijacked (conn st) = true -> (finish_command opts cmd start quit st).2 = Val false.
Proof.
  intros Hh. unfold finish_command. destruct (OnCommand opts); unfold bind, getc, gets, emit_ev; simpl;
    by rewrite Hh.
Qed.

(** The state in which the dispatch of a command begins. *)
Definition command_start (cmd raw : bytes) (st : St Sess) : St Sess :=
  mkSt (set_lastErr None (set_rawArg raw (conn st))) (SetDeadline None (net st)) (handshakes st)
    (log st ++ [EvCommand cmd]).

Lemma run_command_eq line st :
  run_command opts int_width line st =
  (quit <- dispatch opts int_width (command_context opts (ctx (conn st)) (now (net st)))
     (to_upper (splitCommand line).1) (fields (splitCommand line).2);;
   finish_command opts (to_upper (splitCommand line).1) (now (net st)) quit)
    (command_start (to_upper (splitCommand line).1) (splitCommand line).2 st).
Proof. unfold run_command. by destruct (splitCommand line). Qed.

Lemma dispatch_then_finish cx cmd args start st :
  let r := (quit <- dispatch opts int_width cx cmd args;; finish_command opts cmd start quit) st in
  frame (during (InsecureAuth opts) cmd) st r.1
  /\ exists l, log r.1 = log st ++ l /\ logins l <= 1
     /\ (state (conn st) = stateTransaction -> logins l = 0)
     /\ (EvHijack ∈ l -> r.2 <> Val true)
     /\ (r.2 = Val true -> below_limit r.1 /\ (AuthFailuresExemptFromMaxErrors opts = false ->
           logins l <= fails l \/ state (conn r.1) = stateTransaction)).
Proof.
  destruct (dispatch_frame opts int_width cx cmd args st I) as [Hf1 _].
  pose proof (dispatch_attempt opts int_width cx cmd args st) as (l & Hl & Hl1 & Hec & Hend).
  pose proof (dispatch_logged_in opts int_width cx cmd args st) as Hin.
  unfold bind. simpl. destruct (dispatch opts int_width cx cmd args st) as [st1 o]. simpl in *.
  assert (frame (during (InsecureAuth opts) cmd) st st1) as Hd1.
  { eapply frame_weaken; [|exact Hf1]. intros e He. by left. }
  assert (state (conn st) = stateTransaction -> logins l = 0) as Hst.
  { intros [(l' & Hl' & Hg & _) _ _ _ _ _ _]%Hin. rewrite Hl in Hl'. apply app_inv_head in Hl' as ->.
    by apply logins_none. }
  destruct o as [quit| |]; simpl.
  2,3: split; [done|]; exists l; split_and!; auto; done.
  destruct (finish_command_frame cmd start quit st1 I) as [Hf2 Hb].
  pose proof (finish_command_hijacked cmd start quit st1) as Hh.
  destruct (finish_command opts cmd start quit st1) as [st2 o2]. simpl in *.
  split. { etrans; [exact Hd1|]. eapply frame_weaken; [|exact Hf2]. intros e [He _]. by right. }
  pose proof (fr_log _ _ _ Hf2) as (q & Hq & Hqs & _). exists (l ++ q).
  rewrite Hq, Hl, <- app_assoc, logins_app, fails_app, (quiet_logins q (silent_quiet q Hqs)),
    (quiet_fails q (silent_quiet q Hqs)), !Z.add_0_r.
  split_and!; auto.
  { intros [Hj|Hj]%elem_of_app.
    - rewrite (Hh (fr_hijack _ _ _ Hf1 l Hl Hj)). done.
    - rewrite Forall_forall in Hqs. by destruct (Hqs _ Hj). }
  intros ->. split; [by apply Hb|]. intros He.
  destruct (Hend He) as [?|[Ht|Hj]]; [by left| |by specialize (Hh Hj)].
  right. by apply (fr_phase _ _ _ Hf2).
Qed.

Lemma run_command_round line st :
  command_round (to_upper (splitCommand line).1) st (run_command opts int_width line st).
Proof.
  rewrite run_command_eq. set (cmd := to_upper _). set (args := fields _). set (cx := command_context _ _ _).
  destruct (dispatch_then_finish cx cmd args (now (net st)) (command_start cmd (splitCommand line).2 st))
    as ([(l & Hl & Hg & Hc) Hp Hw _ _ Hj Hs Hjl] & l' & Hl' & H1 & Ht & Hjgo & Hgo).
  rewrite Hl in Hl'. apply app_inv_head in Hl' as <-. specialize (Hjl l Hl).
  destruct (bind _ _ (command_start _ _ st)) as [st2 o]. simpl in *.
  exists [], l. simpl. split_and!; auto.
  - by rewrite Hl, <- app_assoc.
  - intros Hst. split; [auto|]. by apply Hp.
Qed.

(** One round of the loop is silent, or one command; it goes on only below the limit. *)
Lemma serve_step_round st :
  (frame silent st (serve_step opts int_width st).1
   /\ ((serve_step opts int_width st).2 = Val true -> below_limit st -> below_limit (serve_step opts int_width st).1))
  \/ exists cmd, command_round cmd st (serve_step opts int_width st).
Proof.
  unfold serve_step.
  assert (triple top1 (frame silent) (arm_read opts;;; readLine opts) (fun _ => top1)) as Hpre by frame_steps.
  destruct (Hpre st I) as [Hf _]. pose proof (fr_log _ _ _ Hf) as (l0 & Hl0 & Hq0 & Hc0).
  rewrite (quiet_fails l0 (silent_quiet l0 Hq0)), Z.add_0_r in Hc0.
  unfold bind in *. destruct (arm_read opts st) as [st0 [[]| |]]; simpl in *; [|by left|by left].
  destruct (readLine opts st0) as [st1 [[line|e]| |]]; simpl in *; [| |by left|by left].
  - destruct (is_nil (trim_space line)).
    { simpl. left. split; [done|]. unfold below_limit. by rewrite Hc0. }
    destruct (run_command_round (trim_space line) st1) as (q & l & Hl & Hq & Hd & Hc & Hw & Hs & H1 & Ht & Hjl & Hj & Hgo).
    right. eexists. exists (l0 ++ q), l.
    destruct Hf as [_ Hpf Hwf _ _ Hjf Hsf _]. rewrite Hl, Hl0, <- !app_assoc.
    split_and!; auto; [by apply Forall_app|by rewrite Hc, Hc0|lia|].
    intros [Hst _]%Hpf. auto.
  - destruct (read_failed_frame e st1 I) as [Hf2 _].
    destruct (read_failed opts e st1) as [st2 [[]| |]]; simpl in *; left; (split; [by etrans | done]).
Qed.

(** The part of the log from [st] on is the history of some rounds. *)
Definition rounds (st st' : St Sess) : Prop :=
  (exists l, log st' = log st ++ l /\ history (InsecureAuth opts) (MaxErrors opts) (AuthFailuresExemptFromMaxErrors opts) (errorCount (conn st)) l
     /\ (state (conn st) = stateTransaction -> logins l = 0)
     /\ (EvHijack ∈ l -> hijacked (conn st') = true))
  /\ (is_Some (session (conn st)) -> is_Some (session (conn st')))
  /\ (hijacked (conn st) = true -> hijacked (conn st') = true).

Lemma frame_rounds st st' st'' : frame silent st st' -> rounds st' st'' -> rounds st st''.
Proof.
  intros [(q & Hl & Hq & Hc) Hp _ _ _ Hj Hs _] ((l & Hl' & Hr & Hlog & Hjl) & Hs' & Hj'). split; [|auto].
  rewrite (quiet_fails q (silent_quiet q Hq)), Z.add_0_r in Hc. rewrite Hc in Hr.
  exists (q ++ l). rewrite Hl', Hl, app_assoc. split_and!; [done|by apply history_silents| |].
  - intros [Hst _]%Hp. rewrite logins_app, (quiet_logins q (silent_quiet q Hq)). auto.
  - intros [Hx|Hx]%elem_of_app; [|auto]. rewrite Forall_forall in Hq. by destruct (Hq _ Hx).
Qed.

Lemma rounds_refl st : rounds st st.
Proof.
  split; [|done]. exists []. rewrite app_nil_r. split_and!; [done|constructor|done|by intros ?%not_elem_of_nil].
Qed.

(** A command, and the rounds after it if the loop goes on. *)
Lemma command_rounds cmd st r st' :
  below_limit st -> command_round cmd st r ->
  match r.2 with Val true => rounds r.1 st' | _ => st' = r.1 end -> rounds st st'.
Proof.
  intros Hb (q & l & Hl & Hq & Hd & Hc & _ & Hs & H1 & Ht & Hjl & Hjs & Hgo) Hr.
  assert (rounds r.1 st' /\ (r.2 = Val true \/ st' = r.1)) as [((k & Hk & Hh & Hkt & Hkj) & Hs' & Hj') Hcase].
  { destruct r as [st1 [[|]| |]]; simpl in *; subst; auto using rounds_refl. }
  assert (st' = r.1 -> k = []) as Hnil.
  { intros ->. by apply app_self_nil in Hk. }
  split; [|auto]. exists (q ++ EvCommand cmd :: l ++ k). rewrite Hk, Hl, <- !app_assoc. simpl.
  split; [done|]. split; [|split].
  - apply history_silents; [done|]. constructor; [exact Hb|done|done| | |by rewrite <- Hc].
    + intros He. destruct Hcase as [Hv | ->%Hnil]; [|by right].
      destruct (Hgo Hv) as [_ Hx]. destruct (Hx He) as [?|?]; [by left|right; auto].
    + intros [_ Hv]%Hjl. destruct Hcase as [?|?]; [done|auto].
  - intros [Hl0 Hst]%Ht. rewrite logins_app, (quiet_logins q (silent_quiet q Hq)).
    change (EvCommand cmd :: l ++ k) with ([EvCommand cmd] ++ l ++ k).
    rewrite !logins_app, Hl0, (Hkt Hst). done.
  - intros [Hx|[Hx|[Hx|Hx]%elem_of_app]%elem_of_cons]%elem_of_app; [| done | |auto].
    + rewrite Forall_forall in Hq. by destruct (Hq _ Hx).
    + destruct (Hjl Hx). auto.
Qed.

Lemma serve_loop_rounds k st : below_limit st -> rounds st (serve_loop opts int_width k st).1.
Proof.
  revert st. induction k as [|k IH]; intros st Hb; [apply rounds_refl|].
  cbn [serve_loop]. unfold bind. destruct (serve_step_round st) as [[Hf Hgo]|(cmd & Hr)].
  - destruct (serve_step opts int_width st) as [st1 [[|]| |]]; simpl in *;
      eapply frame_rounds; try done; auto using rounds_refl.
  - eapply command_rounds; [done|exact Hr|]. destruct Hr as (q & l & _ & _ & _ & _ & _ & _ & _ & _ & _ & _ & Hgo).
    destruct (serve_step opts int_width st) as [st1 [[|]| |]]; simpl in *; try done.
    apply IH. by apply Hgo.
Qed.

Lemma serve_body_rounds st :
  below_limit st -> rounds st (serve_body opts int_width st).1.
Proof.
  intros Hb. unfold serve_body.
  assert (triple top1 (frame silent) (ok opts (Greeting opts);;; flush opts) (fun _ => top1)) as Hpre
    by (by frame_steps).
  destruct (Hpre st I) as [Hf _]. pose proof (fr_log _ _ _ Hf) as (l0 & Hl0 & Hq0 & Hc0).
  rewrite (quiet_fails l0 (silent_quiet l0 Hq0)), Z.add_0_r in Hc0. unfold bind in *.
  assert (forall st', frame silent st st' -> rounds st st') as Hfr
    by (intros; eapply frame_rounds; [done|apply rounds_refl]).
  destruct (ok opts (Greeting opts) st) as [st0 [[]| |]]; simpl in *; auto.
  destruct (flush opts st0) as [st1 [[e|]| |]]; simpl in *; auto.
  eapply frame_rounds; [done|]. apply (serve_loop_rounds (Datatypes.S (st_weight st1))).
  unfold below_limit. by rewrite Hc0.
Qed.

(** ** The end of a connection *)

Definition ending (e : event) : Prop :=
  match e with EvHijack | EvNetClose | EvCancel | EvOnPanic => True | _ => False end.

(** With a session, [close] calls its [Close] first; the network connection is
    closed last, and not once it was hijacked. *)
Lemma close_events st :
  is_Some (session (conn st)) ->
  exists t l, log (close opts st).1 = log st ++ EvCall MClose (state (conn st)) t :: l /\ Forall ending l
    /\ is_Some (session (conn (close opts st).1))
    /\ (hijacked (conn st) = true \/ EvHijack ∈ l -> EvNetClose ∉ l).
Proof.
  intros [s Hs]. set (st1 := entered MClose st).
  assert (close opts st = (run opts (fun s' => modc (set_session (Some s'))) (s_Close s);;;
    h <- getc hijacked;; if h : bool then ret tt else emit_ev EvNetClose) st1) as ->.
  { unfold close, bind, getc, gets. rewrite Hs, call_eq, Hs.
    by destruct (run _ _ _ _) as [? [[]| |]]. }
  assert (triple top1 (frame (eq EvHijack)) (run opts (fun s' => modc (set_session (Some s'))) (s_Close s)) (fun _ => top1)) as Ht.
  { apply run_frame; [done|apply _|]. intros. by frame_steps. }
  destruct (Ht st1 I) as [[(l & Hl & He & _) _ _ _ _ Hj Hk Hjl] _]. specialize (Hjl l Hl).
  assert (Forall ending l) as Hen by (eapply Forall_impl; [exact He|by intros ? <-]).
  assert (EvNetClose ∉ l) as Hnc by (intros Hx; rewrite Forall_forall in He; by specialize (He _ Hx)).
  exists (isTLS (conn st)). unfold bind.
  destruct (run _ _ _ st1) as [st2 [[]| |]]; cbn [fst] in *; [destruct (hijacked (conn st2)) eqn:Ej|..];
    cbn [getc gets]; rewrite ?Ej; simpl; rewrite Hl; simpl; rewrite <- !app_assoc.
  1,3,4: exists l; split_and!; auto.
  exists (l ++ [EvNetClose]). split; [done|]. split; [apply Forall_app; by repeat constructor|]. split; [auto|].
  intros [Hx%Hj|[Hx%Hjl|Hx%list_elem_of_singleton]%elem_of_app]; congruence.
Qed.

(** A hijacked connection is not closed. *)
Definition unclosed (l post : list event) : Prop := EvHijack ∈ l ++ post -> EvNetClose ∉ post.

(** How a log ends once there is a session: with the call of [Close], unless
    the connection never ends. *)
Definition ended (post : list event) (o : outcome unit) : Prop :=
  (post = [] /\ o = Blocked)
  \/ exists x t l, post = EvCall MClose x t :: l /\ Forall ending l.

Lemma serve_shape st :
  below_limit st -> is_Some (session (conn st)) ->
  exists l post, log (serve opts int_width st).1 = log st ++ l ++ post
    /\ history (InsecureAuth opts) (MaxErrors opts) (AuthFailuresExemptFromMaxErrors opts) (errorCount (conn st)) l
    /\ ended post (serve opts int_width st).2 /\ is_Some (session (conn (serve opts int_width st).1))
    /\ unclosed l post.
Proof.
  intros Hb Hs. unfold serve, finally. destruct (serve_body_rounds st Hb) as ((l & Hl & Hr & _ & Hjl) & Hk & _).
  destruct (serve_body opts int_width st) as [st1 o] eqn:Eb; simpl in *. specialize (Hk Hs).
  exists l. destruct (close_events st1 Hk) as (t & e & He & Hen & Hk2 & Hun). rewrite Hl in He.
  assert (forall x k, k = [] \/ k = [EvCancel] -> unclosed l (EvCall MClose x t :: e ++ k)) as Hu.
  { unfold unclosed. intros x k Hk'. rewrite elem_of_app, !elem_of_cons, !elem_of_app.
    destruct Hk' as [-> | ->]; set_solver. }
  assert (forall o' k, Forall ending k -> ended (EvCall MClose (state (conn st1)) t :: e ++ k) o') as Hend.
  { intros o' k Hek. right. eexists _, _, _. split; [done|]. by apply Forall_app. }
  pose proof (Forall_nil_2 ending) as Hnil. assert (Forall ending [EvCancel]) as Hcan by by repeat constructor.
  unfold bind in *. destruct o as [[]| |]; simpl.
  3:{ exists []. rewrite app_nil_r. split_and!; auto; [by left|]. intros _. apply not_elem_of_nil. }
  all: destruct (close opts st1) as [st2 [[]| |]]; simpl in *; rewrite He, <- !app_assoc.
  all: first
    [ exists (EvCall MClose (state (conn st1)) t :: e ++ [EvCancel]); split; [done|]
    | exists (EvCall MClose (state (conn st1)) t :: e ++ []); split; [by rewrite app_nil_r|] ];
    split_and!; auto.
Qed.

(** The state [handleConn] starts in, and what [NewSession] answers there. *)
Definition conn_start (nc : option NetConn) (cancel : option Z) (n : Net) (hs : list Handshake) : St Sess :=
  mkSt (newConn opts nc cancel (now n)) n hs [].

Definition accepted nc cancel n hs : bool :=
  match (run opts (fun _ : unit => ret tt) (NewSession opts) (conn_start nc cancel n hs)).2 with
  | Val (inl _) => true
  | _ => false
  end.

(** Recovering a panic only adds endings. *)
Lemma recoverConn_log (m : M Sess unit) st :
  exists k, log (recoverConn opts m st).1 = log (m st).1 ++ k /\ Forall ending k
    /\ ((m st).2 <> Panicked -> k = [] /\ (recoverConn opts m st).2 = (m st).2).
Proof.
  unfold recoverConn. destruct (m st) as [st' [[]| |]]; simpl.
  - exists []. by rewrite app_nil_r.
  - assert (triple top1 (frame ending) ((if OnPanic opts then emit_ev EvOnPanic else ret tt);;;
      emit_ev EvNetClose) (fun _ => top1)) as Ht by (frame_steps; by apply emit_frame; [apply _|..]).
    destruct (Ht st' I) as [[(l & Hl & He & _) _ _ _ _ _ _] _]. by exists l.
  - exists []. by rewrite app_nil_r.
Qed.

Lemma ended_app post o o' k :
  ended post o -> Forall ending k -> (o <> Panicked -> k = [] /\ o' = o) -> ended (post ++ k) o'.
Proof.
  intros [[-> ->]|(x & t & l & -> & Hl)] Hk Ho.
  - destruct Ho as [-> ->]; [done|]. by left.
  - right. exists x, t, (l ++ k). split; [done|]. by apply Forall_app.
Qed.

(** The connection ends in a panic of consumer code, which is recovered. *)
Definition panics nc cancel n hs : Prop := (handleConn_go opts int_width (conn_start nc cancel n hs)).2 = Panicked.

(** The whole log of a connection: what [NewSession] did, the commands, the end. *)
Lemma ServeConn_shape nc cancel n hs :
  exists pre l post,
    log (ServeConn opts int_width nc cancel n hs).1 = pre ++ l ++ post
    /\ Forall quiet pre /\ history (InsecureAuth opts) (MaxErrors opts) (AuthFailuresExemptFromMaxErrors opts) 0 l
    /\ if accepted nc cancel n hs
       then ended post (ServeConn opts int_width nc cancel n hs).2
            /\ (~ panics nc cancel n hs -> unclosed l post)
       else l = [] /\ Forall ending post.
Proof.
  unfold ServeConn, panics. fold (conn_start nc cancel n hs). set (st0 := conn_start nc cancel n hs).
  destruct (recoverConn_log (handleConn_go opts int_width) st0) as (k & -> & Hk & Hko).
  revert Hko. generalize (recoverConn opts (handleConn_go opts int_width) st0).2. intros o' Hko.
  assert (triple top1 (frame quiet) (run opts (fun _ : unit => ret tt) (NewSession opts)) (fun _ => top1)) as Hrun.
  { apply run_frame; [done|apply _|]. intros. by apply triple_ret; [apply _|]. }
  destruct (Hrun st0 I) as [[(pre & Hpre & Hq & Hc) _ _ _ _ _ _] _]. rewrite (quiet_fails pre Hq) in Hc.
  unfold accepted. fold st0. assert (forall x, run opts (fun _ : unit => ret tt) (NewSession opts) st0 = x ->
    handleConn_go opts int_width st0 = bind (fun _ => x) (fun r => match r with
      | inl s => modc (set_session (Some s));;; serve opts int_width
      | inr e => reject opts e end) st0) as Heq by (intros x <-; done).
  specialize (Heq _ eq_refl). rewrite Heq in *. clear Heq.
  simpl in Hpre, Hc. destruct (run _ _ _ st0) as [st1 [[s|e]| |]]; simpl in *.
  3,4: exists pre, [], k; rewrite Hpre; split_and!; auto using history.
  - unfold bind, modc in *. set (st2 := mkSt _ _ _ _) in *.
    destruct (serve_shape st2) as (l & post & Hl & Hh & He & _ & Hu).
    { unfold below_limit. simpl. by rewrite Hc. }
    { by eexists. }
    simpl in Hh. rewrite Hc in Hh. exists pre, l, (post ++ k). rewrite Hl. simpl. rewrite Hpre, <- !app_assoc.
    split_and!; auto; [by eapply ended_app|]. intros Hnp. destruct (Hko Hnp) as [-> _]. by rewrite app_nil_r.
  - assert (triple top1 (frame ending) (reject opts e) (fun _ => top1)) as Hm.
    { unfold reject. frame_steps; by apply emit_frame; [apply _|..]. }
    destruct (Hm st1 I) as [[(p & Hp & He & _) _ _ _ _ _ _] _].
    unfold bind.     exists pre, [], (p ++ k). rewrite Hp, Hpre, <- app_assoc. split_and!; auto using history.
    by apply Forall_app.
Qed.
End Rounds.

(** ** What a history says *)

Section History.
Variable insecure : bool.
Variable limit : Z.
Variable exempt : bool.

(** A call is made by the handler of the last command. *)
Lemma history_call n l : history insecure limit exempt n l -> forall pre e post,
  l = pre ++ e :: post -> match e with EvCall _ _ _ => True | _ => False end ->
  exists c, last_command pre = Some c /\ event_ok insecure c e.
Proof.
  induction 1 as [|n e0 l [Hq _] Hh IH|n cmd l rest Hn Hd Hl1 Hlx Hlj Hh IH]; intros pre e post Heq He.
  - by destruct pre.
  - destruct pre as [|x pre]; injection Heq as -> Heq; [by destruct e|].
    destruct (IH _ _ _ Heq He) as (c & Hc & Hok). exists c. split; [|done].
    change (x :: pre) with ([x] ++ pre). by rewrite last_command_app, Hc.
  - destruct pre as [|x pre]; injection Heq as <- Heq; [done|].
    apply app_eq_middle in Heq as [(q & -> & _)|(p & -> & ->)].
    + exists cmd. change (EvCommand cmd :: pre) with ([EvCommand cmd] ++ pre).
      apply Forall_app in Hd as [Hpre Hrest]. inv Hrest.
      match goal with Hx : during _ _ _ |- _ => destruct Hx as [Hok|Hok]; [|by destruct e] end.
      split; [|done]. rewrite last_command_app.
      assert (last_command pre = None) as ->; [|done]. unfold last_command. clear -Hpre.
      induction Hpre as [|y l Hy _ IH]; [done|]. simpl. destruct y, Hy; done.
    + destruct (IH p e post eq_refl He) as (c & Hc & Hok). exists c. split; [|done].
      change (EvCommand cmd :: l ++ p) with ((EvCommand cmd :: l) ++ p).
      by rewrite last_command_app, Hc.
Qed.

(** Every command begins below the limit. *)
Lemma history_limit n l : history insecure limit exempt n l -> forall pre cmd post,
  l = pre ++ EvCommand cmd :: post -> 0 < limit -> n + fails pre < limit.
Proof.
  assert (forall e p, fails (e :: p) = (if is_fail e then 1 else 0) + fails p) as Hf.
  { intros e p. unfold fails; simpl. destruct (is_fail e); [by rewrite blen_cons | lia]. }
  induction 1 as [|n e0 l [Hq _] Hh IH|n cmd l rest Hn Hd Hl1 Hlx Hlj Hh IH]; intros pre c post Heq Hl.
  - by destruct pre.
  - destruct pre as [|x pre]; injection Heq as -> Heq; [done|].
    rewrite Hf. specialize (IH _ _ _ Heq Hl). by destruct x.
  - destruct pre as [|x pre]; injection Heq as <- Heq; [unfold fails, blen; simpl; specialize (Hn Hl); lia|].
    apply app_eq_middle in Heq as [(q & -> & _)|(p & -> & ->)].
    + apply Forall_app in Hd as [_ Hrest]. inv Hrest.
      match goal with Hx : during _ _ (EvCommand _) |- _ => by destruct Hx end.
    + rewrite Hf, fails_app. specialize (IH p c post eq_refl Hl). simpl. lia.
Qed.

(** Login attempts are bounded by what is left of the limit. *)
Lemma history_logins n l : history insecure limit exempt n l ->
  exempt = false -> 0 < limit -> n + logins l <= Z.max limit n.
Proof.
  intros Hh He Hl. induction Hh as [n|n e0 l [Hq _] Hh IH|n cmd l rest Hn Hd Hl1 Hlx Hlj Hh IH].
  - change (logins []) with 0. lia.
  - change (e0 :: l) with ([e0] ++ l). rewrite logins_app, (logins_none [e0]); [lia|].
    repeat constructor. by destruct e0.
  - change (EvCommand cmd :: l ++ rest) with ([EvCommand cmd] ++ l ++ rest). rewrite !logins_app.
    change (logins [EvCommand cmd]) with 0. specialize (Hn Hl). pose proof (fails_nonneg l).
    destruct (Hlx He) as [?|?]; lia.
Qed.

(** A command after which the connection is hijacked is the last one. *)
Lemma history_hijack n l : history insecure limit exempt n l -> forall pre post,
  l = pre ++ EvHijack :: post -> Forall (fun e => is_command e = false) post /\ is_Some (last_command pre).
Proof.
  induction 1 as [|n e0 l [_ Hq] Hh IH|n cmd l rest Hn Hd Hl1 Hlx Hlj Hh IH]; intros pre post Heq.
  - by destruct pre.
  - destruct pre as [|x pre]; injection Heq as -> Heq; [done|]. destruct (IH _ _ Heq) as [Hp [c Hc]].
    split; [done|]. exists c. change (x :: pre) with ([x] ++ pre). by rewrite last_command_app, Hc.
  - destruct pre as [|x pre]; [discriminate|]. injection Heq as <- Heq.
    change (EvCommand cmd :: pre) with ([EvCommand cmd] ++ pre).
    assert (is_Some (last_command ([EvCommand cmd] ++ pre))) as Hs.
    { rewrite last_command_app. destruct (last_command pre); by eexists. }
    split; [|done]. apply app_eq_middle in Heq as [(q & -> & Hr)|(p & -> & ->)]; [|by eapply IH].
    assert (rest = []) as -> by (apply Hlj, elem_of_app; right; left). rewrite app_nil_r in Hr. subst.
    apply Forall_app in Hd as [_ Hd]. inv Hd. eapply Forall_impl; [eassumption|]. by intros [] [].
Qed.

(** Every event of a history is a command, or happens during one. *)
Lemma history_events n l : history insecure limit exempt n l ->
  Forall (fun e => is_command e = true \/ quiet e \/ exists cmd, event_ok insecure cmd e) l.
Proof.
  induction 1 as [|n e0 l [Hq _] Hh IH|n cmd l rest Hn Hd Hl1 Hlx Hlj Hh IH]; [constructor|constructor; auto|].
  constructor; [by left|]. apply Forall_app. split; [|done].
  eapply Forall_impl; [exact Hd|]. intros e [?|?]; eauto.
Qed.

(** Nothing in it closes the session, or the network connection. *)
Lemma history_no_close n l x t : history insecure limit exempt n l -> EvCall MClose x t ∉ l.
Proof.
  intros Hh%history_events Hin. rewrite Forall_forall in Hh.
  destruct (Hh _ Hin) as [?|[?|(cmd & Hm & _)]]; [done|done|].
  unfold methods_of in Hm. repeat case_match; set_solver.
Qed.

Lemma history_no_net_close n l : history insecure limit exempt n l -> EvNetClose ∉ l.
Proof.
  intros Hh%history_events Hin. rewrite Forall_forall in Hh. by destruct (Hh _ Hin) as [?|[?|(cmd & Hm)]].
Qed.
End History.

(** Lifting to the whole log of a connection. *)
Section Whole.
Context {Sess : Type} `{Unicode} `{HS : Session Sess} `{!TLSStable Sess}.
Variable opts : Options Sess.
Variable int_width : Z.

Lemma last_command_quiet l : Forall quiet l -> last_command l = None.
Proof. unfold last_command. induction 1 as [|e l He _ IH]; [done|]. simpl. by destruct e. Qed.

Lemma ServeConn_event nc cancel n hs pre e post :
  log (ServeConn opts int_width nc cancel n hs).1 = pre ++ e :: post -> ~ quiet e -> ~ ending e ->
  match e with EvCall MClose _ _ => False | _ => True end ->
  exists q p l, pre = q ++ p /\ Forall quiet q
    /\ history (InsecureAuth opts) (MaxErrors opts) (AuthFailuresExemptFromMaxErrors opts) 0 (p ++ e :: l).
Proof.
  intros Heq Hq He Hc. destruct (ServeConn_shape opts int_width nc cancel n hs) as (q & l & z & Hl & Hqs & Hh & Hz).
  rewrite Heq in Hl. symmetry in Hl. apply app_eq_middle in Hl as [(x & -> & _)|(p & -> & Hl)].
  { apply Forall_app in Hqs as [_ Hx]. by inv Hx. }
  apply app_eq_middle in Hl as [(x & -> & _)|(p' & -> & Hl)]; [by eauto 6|].
  exfalso. assert (Forall (fun e => ending e \/ match e with EvCall MClose _ _ => True | _ => False end) z) as Hall.
  { assert (Forall ending z \/ exists x t r, z = EvCall MClose x t :: r /\ Forall ending r) as [Hen|(x & t & r & -> & Hr)].
    { destruct (accepted _ _ _ _ _); [|by left; destruct Hz]. destruct Hz as [[[-> _]|Hz] _]; eauto. }
    - eapply Forall_impl; [exact Hen|]. auto.
    - constructor; [by right|]. eapply Forall_impl; [exact Hr|]. auto. }
  rewrite Hl in Hall. apply Forall_app in Hall as [_ Hx]. inv Hx.
  by destruct e as [[]| | | | | | | | |]; destruct_or?.
Qed.
End Whole.
