(* ===== verification/ConnEnds.v ===== *)
(** * How much a client gets done before the absolute limit

    With an absolute limit on a connection's duration, the number of commands it
    runs is bounded by what arrives before the limit: a client that goes on for
    ever is not served for ever. *)
From S2P Require Import Prelude GoStrings Errors Net Session Options ConnState ConnHandlers ConnServe ConnFacts ConnFrame ConnLive ConnTrace.

(** The number of commands in a log. *)
Definition commands (l : list event) : Z := blen (List.filter is_command l).

Lemma commands_app l k : commands (l ++ k) = commands l + commands k.
Proof. unfold commands. by rewrite List.filter_app, blen_app. Qed.

Lemma commands_none l : Forall (fun e => is_command e = false) l -> commands l = 0.
Proof. unfold commands. induction 1 as [|e l He _ IH]; [done|]. simpl. by rewrite He. Qed.

Section Commands.
Context {Sess : Type} `{Unicode} `{HS : Session Sess} `{!TLSStable Sess}.
Variable opts : Options Sess.
Variable int_width : Z.
Hypothesis Hidle : 0 < IdleTimeout opts.
Hypothesis Hwrite : 0 < WriteTimeout opts.
Hypothesis Habs : 0 < AbsoluteSessionTimeout opts.
Local Abbreviation top1 := (fun _ : St Sess => True).

(** The commands [m] runs, at most [extra] more than what may still be read. *)
Definition runs_most (extra : Z) {A} (m : M Sess A) : Prop := forall st,
  exists l, log (m st).1 = log st ++ l
    /\ commands l <= extra + Z.of_nat (early (session_end opts st) st).

(** None at all. *)
Definition runs_none {A} (m : M Sess A) : Prop := forall st,
  exists l, log (m st).1 = log st ++ l /\ commands l = 0.

Lemma frame_runs_none good (st st' : St Sess) :
  (forall e, good e -> is_command e = false) -> frame good st st' ->
  exists l, log st' = log st ++ l /\ commands l = 0.
Proof.
  intros Hg [(l & Hl & Hf & _) _ _ _ _ _ _ _]. exists l. split; [done|]. apply commands_none.
  eapply Forall_impl; [exact Hf|]. auto.
Qed.

Lemma triple_runs_none {A} good (m : M Sess A) Q :
  (forall e, good e -> is_command e = false) -> triple top1 (frame good) m Q -> runs_none m.
Proof. intros Hg Hm st. destruct (Hm st I) as [Hf _]. by eapply frame_runs_none. Qed.

Lemma silent_no_command e : silent e -> is_command e = false.
Proof. intros [Hq _]. by destruct e. Qed.

Lemma during_no_command insecure cmd e : during insecure cmd e -> is_command e = false.
Proof. intros [Ho|Hq]; by destruct e. Qed.

Lemma runs_none_then {A B} extra (m : M Sess A) (k : A -> M Sess B) :
  0 <= extra -> runs_none m -> live opts m -> (forall a, runs_most extra (k a)) -> runs_most extra (bind m k).
Proof.
  intros He Hm Hl Hk st. destruct (Hm st) as (l & El & Hc), (Hl st) as [_ [_ Hst Hw]].
  specialize (Hw Habs). unfold bind. destruct (m st) as [st1 [a| |]]; simpl in *;
    [|exists l; split; [done|lia]..].
  destruct (Hk a st1) as (l2 & El2 & Hc2). exists (l ++ l2). rewrite El2, El, app_assoc, commands_app.
  split; [done|]. unfold session_end in *. rewrite Hst in Hc2. lia.
Qed.

Lemma runs_most_finally {A} extra (m : M Sess A) fin :
  runs_most extra m -> runs_none fin -> runs_most extra (finally m fin).
Proof.
  intros Hm Hf st. destruct (Hm st) as (l & El & Hc). unfold finally, bind.
  destruct (m st) as [st1 [a| |]]; simpl in *; [| |by exists l].
  all: destruct (Hf st1) as (l2 & El2 & Hc2); exists (l ++ l2);
    destruct (fin st1) as [st2 [[]| |]]; simpl in *; rewrite El2, El, app_assoc, commands_app; (split; [done|lia]).
Qed.

(** A round of the loop runs at most one command. *)
Lemma serve_step_commands st :
  exists l, log (serve_step opts int_width st).1 = log st ++ l /\ commands l <= 1.
Proof.
  destruct (serve_step_round opts int_width st) as [[Hf _]|(cmd & q & l & Hl & Hq & Hd & _)].
  - destruct (frame_runs_none silent _ _ silent_no_command Hf) as (l & Hl & Hc). exists l. split; [done|lia].
  - exists (q ++ EvCommand cmd :: l). split; [done|].
    change (EvCommand cmd :: l) with ([EvCommand cmd] ++ l). rewrite !commands_app.
    rewrite (commands_none q), (commands_none l); [done|..].
    + eapply Forall_impl; [exact Hd|]. apply during_no_command.
    + eapply Forall_impl; [exact Hq|]. apply silent_no_command.
Qed.

(** Every round but the last costs the client something that arrived in time. *)
Lemma serve_loop_runs_most k : runs_most 1 (serve_loop opts int_width k).
Proof using All.
  induction k as [|k IH]; intros st; cbn [serve_loop].
  { exists []. rewrite app_nil_r. split; [done|]. change (commands []) with 0. lia. }
  destruct (serve_step_commands st) as (l & El & Hc).
  destruct (serve_step_live opts int_width Hidle Hwrite st) as (_ & _ & Hgo).
  unfold bind. destruct (serve_step opts int_width st) as [st1 [[|]| |]]; simpl in *;
    [|exists l; split; [done|lia]..].
  destruct (Hgo eq_refl) as [[_ Hst _] _ He]. specialize (He Habs).
  destruct (IH st1) as (l2 & El2 & Hc2). exists (l ++ l2). rewrite El2, El, app_assoc, commands_app.
  split; [done|]. unfold session_end in *. rewrite Hst in Hc2. lia.
Qed.

Lemma runs_none_close : runs_none (close opts).
Proof using.
  apply (triple_runs_none (fun e => is_command e = false) _ (fun _ _ => True)); [done|].
  unfold close. eapply triple_seq; [apply _|by frame_steps|intros s].
  eapply triple_seq; [apply _| |intros _].
  - destruct s; [|by frame_steps]. by apply call_frame; [|apply _|..].
  - eapply triple_seq; [apply _|by frame_steps|intros [|]]; [by apply triple_ret; [apply _|]|].
    by apply emit_frame; [apply _|..].
Qed.

Lemma serve_runs_most : runs_most 1 (serve opts int_width).
Proof using All.
  unfold serve. apply runs_most_finally; [apply runs_most_finally|].
  - unfold serve_body. apply runs_none_then; [lia| |auto with live|intros _].
    { apply (triple_runs_none silent _ (fun _ => top1)); [apply silent_no_command|by frame_steps]. }
    apply runs_none_then; [lia| |auto with live|intros [e|]].
    { apply (triple_runs_none silent _ (fun _ => top1)); [apply silent_no_command|by frame_steps]. }
    + intros st. exists []. rewrite app_nil_r. split; [done|]. change (commands []) with 0. lia.
    + intros st. apply serve_loop_runs_most.
  - apply runs_none_close.
  - intros st. exists [EvCancel]. done.
Qed.

Lemma runs_none_reject e : runs_none (reject opts e).
Proof using.
  apply (triple_runs_none ending _ (fun _ => top1)); [by intros []|].
  unfold reject. frame_steps; by apply emit_frame; [apply _|..].
Qed.

Lemma handleConn_runs_most : runs_most 1 (handleConn_go opts int_width).
Proof using All.
  unfold handleConn_go. apply runs_none_then; [lia| | |].
  - apply (triple_runs_none quiet _ (fun _ => top1)); [by intros []|].
    apply run_frame; [done|apply _|]. intros. by apply triple_ret; [apply _|].
  - apply live_run; [done|]. intros. apply live_ret.
  - intros [s|e].
    + apply runs_none_then; [lia| |apply live_modc; reflexivity|intros _; apply serve_runs_most].
      intros st. exists []. by rewrite app_nil_r.
    + intros st. destruct (runs_none_reject e st) as (l & El & Hc). exists l. split; [done|lia].
Qed.

(** What the client gets through before [L]: bytes and pieces, on the connection
    or inside TLS. *)
Definition arriving (L : Z) (n : Net) (hs : list Handshake) : nat :=
  (early_weight L (inbox n) + list_sum (map (hs_early L) hs))%nat.

(** Over a whole connection. *)
Lemma ServeConn_commands nc cancel n hs :
  commands (log (ServeConn opts int_width nc cancel n hs).1)
  <= 1 + Z.of_nat (arriving (now n + AbsoluteSessionTimeout opts) n hs).
Proof using All.
  unfold ServeConn. fold (conn_start opts nc cancel n hs). set (st := conn_start opts nc cancel n hs).
  destruct (recoverConn_log opts (handleConn_go opts int_width) st) as (k & -> & Hk & _).
  destruct (handleConn_runs_most st) as (l & El & Hc). rewrite El, commands_app, (commands_none k).
  - unfold arriving. unfold early, measured, session_end in Hc. simpl in *. lia.
  - eapply Forall_impl; [exact Hk|]. by intros [].
Qed.
End Commands.
