(* ===== verification/ConnSafety.v ===== *)
(** * Safety of a connection

    What holds of every connection, whatever the peer and the consumer's
    session do: the call discipline, the error limit, the teardown. *)
From S2P Require Import Prelude GoStrings Errors Net Session Options Mem ConnState ConnHandlers ConnServe Demo ConnFacts ConnFrame ConnLive ConnAuth ConnTrace ConnEnds.

(** ** Properties *)

(** C4: over the whole life of a connection, whatever the peer sends, a session
    method other than [Close] is only entered by the handler of a command it
    belongs to, in the protocol state it belongs to, and the authentication
    methods only on an encrypted connection or with [InsecureAuth]. *)
Theorem session_calls_disciplined (Sess : Type) `{Unicode} `{Session Sess} `{!TLSStable Sess}
    (opts : Options Sess) int_width nc cancel n hs pre m st tls post :
  log (ServeConn opts int_width nc cancel n hs).1 = pre ++ EvCall m st tls :: post ->
  m <> MClose ->
  exists cmd, last_command pre = Some cmd
    /\ m ∈ methods_of cmd
    /\ (forall s, phase_of m = Some s -> st = s)
    /\ (needs_auth_allowed m = true -> InsecureAuth opts || tls = true).
Proof.
  intros Heq Hm. destruct (ServeConn_event _ _ _ _ _ _ _ _ _ Heq) as (q & p & l & -> & Hq & Hh);
    [by intros []|by intros []|by destruct m|].
  destruct (history_call _ _ _ _ _ Hh p _ l eq_refl I) as (c & Hc & Hok).
  exists c. rewrite last_command_app, Hc. by split.
Qed.

Lemma session_calls_disciplined_witness :
  exists cmd, Some (str "QUIT") = Some cmd /\ MQuit ∈ methods_of cmd.
Proof.
  assert (log (ServeConn (demo_options 0) 64 None None (demo_net ["USER alice"; "PASS s3cret"; "QUIT"]) []).1
    = [EvCommand (str "USER"); EvCommand (str "PASS"); EvCall MLogin stateAuthorization false;
       EvCommand (str "QUIT")] ++ EvCall MQuit stateTransaction false ::
      [EvCall MClose stateTransaction false; EvNetClose; EvCancel]) as Hl by (vm_compute; reflexivity).
  destruct (session_calls_disciplined _ _ _ _ _ _ _ _ _ _ _ _ Hl) as (c & Hc & Hm & _); [done|].
  exists c. split; [exact Hc | exact Hm].
Defined.

(** C8: with a limit on errors, no command is dispatched once that many errors
    were counted: every command of the connection's log finds fewer counted
    errors before it than [MaxErrors]. *)
Theorem max_errors_enforced (Sess : Type) `{Unicode} `{Session Sess} `{!TLSStable Sess}
    (opts : Options Sess) int_width nc cancel n hs pre cmd post :
  log (ServeConn opts int_width nc cancel n hs).1 = pre ++ EvCommand cmd :: post ->
  0 < MaxErrors opts ->
  fails pre < MaxErrors opts.
Proof.
  intros Heq Hl. destruct (ServeConn_event _ _ _ _ _ _ _ _ _ Heq) as (q & p & l & -> & Hq & Hh);
    [by intros []|by intros []|done|].
  rewrite fails_app, (quiet_fails q Hq).
  pose proof (history_limit _ _ _ _ _ Hh p cmd l eq_refl Hl). lia.
Qed.

Lemma max_errors_enforced_witness : 0 < 2 /\ fails [EvCommand (str "FOO"); EvFail] < 2.
Proof.
  assert (log (ServeConn (demo_options 2) 64 None None (demo_net ["FOO"; "BAR"; "NOOP"]) []).1
    = [EvCommand (str "FOO"); EvFail] ++ EvCommand (str "BAR") ::
      [EvFail; EvCall MClose stateAuthorization false; EvNetClose; EvCancel]) as Hl by (vm_compute; reflexivity).
  split; [lia|]. exact (max_errors_enforced _ _ _ _ _ _ _ _ _ _ Hl ltac:(vm_compute; reflexivity)).
Defined.

(** C6: with a limit on errors and failed logins not exempt from it, a
    connection makes at most [MaxErrors] login attempts in all, by PASS and by
    AUTH together. *)
Theorem login_attempts_bounded (Sess : Type) `{Unicode} `{Session Sess} `{!TLSStable Sess}
    (opts : Options Sess) int_width nc cancel n hs :
  0 < MaxErrors opts ->
  AuthFailuresExemptFromMaxErrors opts = false ->
  logins (log (ServeConn opts int_width nc cancel n hs).1) <= MaxErrors opts.
Proof.
  intros Hl He. destruct (ServeConn_shape opts int_width nc cancel n hs) as (q & l & z & -> & Hq & Hh & Hz).
  rewrite !logins_app, (quiet_logins q Hq).
  pose proof (history_logins _ _ _ _ _ Hh He Hl). enough (logins z = 0) by lia.
  assert (forall k, Forall ending k -> logins k = 0) as Hend.
  { intros k Hk. apply logins_none. eapply Forall_impl; [exact Hk|]. by intros []. }
  destruct (accepted _ _ _ _ _); [|by apply Hend; destruct Hz].
  destruct Hz as [[[-> _]|(x & t & k & -> & Hk)] _]; [done|]. exact (Hend k Hk).
Qed.

Lemma login_attempts_bounded_witness :
  logins (log (ServeConn (demo_options 2) 64 None None
    (demo_net ["USER alice"; "PASS a"; "PASS b"; "PASS s3cret"]) []).1) <= 2.
Proof. exact (login_attempts_bounded _ (demo_options 2) 64 None None _ [] eq_refl eq_refl). Defined.

Definition is_close (e : event) : bool := match e with EvCall MClose _ _ => true | _ => false end.

(** C7: a connection whose session was created and that ends, even by a panic,
    has called [Close] exactly once, and after it entered no session method and
    dispatched no command; a refused connection enters no session method. *)
Theorem session_closed_once (Sess : Type) `{Unicode} `{Session Sess} `{!TLSStable Sess}
    (opts : Options Sess) int_width nc cancel n hs :
  let r := ServeConn opts int_width nc cancel n hs in
  (r.2 <> Blocked -> accepted opts nc cancel n hs = true ->
   exists pre x t post, log r.1 = pre ++ EvCall MClose x t :: post
     /\ Forall (fun e => is_close e = false) pre /\ Forall ending post)
  /\ (accepted opts nc cancel n hs = false -> Forall (fun e => is_call e = false) (log r.1)).
Proof.
  simpl. destruct (ServeConn_shape opts int_width nc cancel n hs) as (q & l & z & -> & Hq & Hh & Hz).
  split; intros.
  - destruct (accepted _ _ _ _ _); [|done].
    destruct Hz as [[[_ ?]|(x & t & k & -> & Hk)] _]; [done|].
    exists (q ++ l), x, t, k. split_and!; [by rewrite app_assoc| |done].
    apply Forall_app. split; [eapply Forall_impl; [exact Hq|by intros []]|].
    rewrite Forall_forall. intros e He. destruct e as [[]| | | | | | | | |]; try done.
    by apply (history_no_close _ _ _ _ _ _ _ Hh) in He.
  - destruct (accepted _ _ _ _ _); [done|]. destruct Hz as [-> Hk].
    apply Forall_app. split; [eapply Forall_impl; [exact Hq|by intros []]|].
    eapply Forall_impl; [exact Hk|by intros []].
Qed.

Lemma session_closed_once_witness :
  exists pre x t post, log (ServeConn (demo_options 2) 64 None None (demo_net ["QUIT"]) []).1
    = pre ++ EvCall MClose x t :: post
    /\ Forall (fun e => is_close e = false) pre /\ Forall ending post.
Proof.
  apply (session_closed_once _ (demo_options 2) 64 None None (demo_net ["QUIT"]) []);
    [vm_compute; discriminate | vm_compute; reflexivity].
Defined.

(** C5: connections end.  Under a configuration the library resolved, with the
    idle and write timeouts not disabled, a connection ends, normally or by a
    recovered panic, once its client sends nothing more: no stalled read, stalled
    write or stalled handshake keeps it.  A client that goes on sending is served
    as long as it does, unless there is an absolute limit: then the connection
    runs at most one command more than there are bytes and pieces arriving before
    the limit, however much comes after. *)
Theorem connection_ends (Sess : Type) `{Unicode} `{Session Sess}
    (o : Options Sess) int_width nc cancel n hs :
  0 <= IdleTimeout o -> 0 <= WriteTimeout o ->
  let r := ServeConn (defaults o) int_width nc cancel n hs in
  r.2 = Val tt
  /\ (TLSStable Sess -> 0 < AbsoluteSessionTimeout o ->
      commands (log r.1) <= 1 + Z.of_nat (arriving (now n + AbsoluteSessionTimeout o) n hs)).
Proof.
  intros Hi Hw r.
  assert (0 < IdleTimeout (defaults o)) as Hi'.
  { simpl. unfold or_default, Minute, Second, Millisecond. destruct (Z.eqb_spec (IdleTimeout o) 0); lia. }
  assert (0 < WriteTimeout (defaults o)) as Hw'.
  { simpl. unfold or_default, defaultWriteTimeout, Second, Millisecond.
    destruct (Z.eqb_spec (WriteTimeout o) 0); lia. }
  split; [|intros Ht Ha; exact (ServeConn_commands (defaults o) int_width Hi' Hw' Ha nc cancel n hs)].
  subst r. unfold ServeConn, recoverConn.
  match goal with |- context [handleConn_go _ _ ?st] => destruct (live_handleConn_go _ int_width Hi' Hw' st) as [Hb _];
    destruct (handleConn_go _ _ st) as [st' [[]| |]] end; simpl in *; try done.
  by destruct (OnPanic o).
Qed.

(** A limit of 100 ns, and a client that sends commands before and after it. *)
Definition limited_options : Options MemSession :=
  mkOptions (PRet tt (inl (mkMem demo_store Mem.NewSession))) false [] [] 0 0 100 0 0 true 0 0
    false 0 0 [] [] false None false false false.

Lemma connection_ends_witness :
  let n := mkNet 0 ((5, NBytes (str "NOOP" ++ crlf)) :: repeat (200, NBytes (str "NOOP" ++ crlf)) 50) None None [WOk; WOk; WStall 3] [] in
  let r := ServeConn (defaults limited_options) 64 None None n [] in
  r.2 = Val tt /\ commands (log r.1) <= 8.
Proof.
  intros n r. assert (Z.of_nat (arriving (now n + AbsoluteSessionTimeout limited_options) n []) = 7) as Ha
    by (vm_compute; reflexivity).
  destruct (connection_ends MemSession limited_options 64 None None n []) as [He Hc];
    [vm_compute; discriminate|vm_compute; discriminate|].
  rewrite Ha in Hc. split; [exact He|]. apply Hc; [exact mem_tls_stable|vm_compute; reflexivity].
Defined.
