(* ===== verification/Refine.v ===== *)
(** * The handlers implement the machine

    Each handler, over a writer that works and a session whose methods only
    compute, writes the machine's response and reaches its state. *)
From S2P Require Import Prelude GoStrings GoConv Errors DotStuff Parse Net Session Options ConnState ConnHandlers Wire Spec.

Section Refine.
Context {Sess : Type} `{Unicode} `{PureSession Sess}.
Variable opts : Options Sess.
Variable int_width : Z.
Variable tls : bool.
(** The raw argument of the command under way. *)
Variable raw : bytes.
Local Abbreviation M := (M Sess).

(** The connection [c] represents the machine's state [p]; [rd] is its buffered
    reader, [cp] whether it is to be closed. *)
Record abs (rd : Reader) (c : Conn Sess) (p : Proto Sess) (cp : bool) : Prop := mkAbs {
  abs_reader : reader c = rd;
  abs_session : session c = Some (pt_sess p);
  abs_state : state c = pt_phase p;
  abs_user : username c = pt_user p;
  abs_errors : errorCount c = pt_errors p;
  abs_tls : isTLS c = tls;
  abs_raw : rawArg c = raw;
  abs_hijacked : hijacked c = false;
  abs_closing : closePending c = cp
}.

(** [m] gives the answer [r] when the connection represents [p]. *)
Definition gives (m : M unit) (p : Proto Sess) (r : Reply) : Prop :=
  forall c rd, abs rd c p false ->
  exists c', (forall st, norm (conn st) = c -> does opts m st (re_text r) c' tt)
    /\ abs rd c' (re_state r) (re_stop r).

(** ** Steps *)

Lemma does_set f st c :
  norm (conn st) = c -> writer (f (conn st)) = writer (conn st) ->
  norm (f (conn st)) = f (norm (conn st)) -> does opts (modc f) st [] (f c) tt.
Proof. apply does_modc. Qed.

Lemma does_lastErr v st c : norm (conn st) = c -> does opts (modc (set_lastErr v)) st [] c tt.
Proof. intros Hc. by apply (does_modc opts (set_lastErr v) id). Qed.

(** The primitive step at the head of the goal. *)
Ltac does_prim :=
  lazymatch goal with
  | |- does _ (ret _) _ _ _ _ => apply does_ret; eassumption
  | |- does _ (getc _) _ _ _ _ => eapply does_getc; [eassumption | reflexivity]
  | |- does _ (modc (set_lastErr _)) _ _ _ _ => apply does_lastErr; eassumption
  | |- does _ (modc _) _ _ _ _ => eapply does_set; [eassumption | reflexivity | reflexivity]
  | |- does _ (emit_ev _) _ _ _ _ => apply does_emit; eassumption
  | |- does _ (ok _ _) _ _ _ _ => apply does_ok; eassumption
  | |- does _ (err _ _) _ _ _ _ => apply does_err; eassumption
  | |- does _ (WriteString _ _) _ _ _ _ => apply does_WriteString; eassumption
  | |- does _ (Fprintf _ _) _ _ _ _ => apply does_Fprintf; eassumption
  | |- does _ (flush _) _ _ _ _ => apply does_flush; eassumption
  end.

Ltac does_step :=
  match goal with
  | |- does _ (bind _ _) _ _ _ _ => eapply does_bind; [does_prim | intros ?st ?]
  | _ => does_prim
  end.

Ltac does_steps := repeat does_step.

(** Texts are equal up to the grouping of their parts. *)
Ltac text := unfold scan_item, uid_item, listing, ok_line, err_line, status_line; simpl;
  rewrite ?app_nil_r, <- ?app_assoc; simpl; rewrite ?app_nil_r, <- ?app_assoc; reflexivity.

(** The abstraction of the connection after a step. *)
Ltac abs_done := match goal with Ha : abs _ _ _ _ |- _ => destruct Ha; split; simpl in *; congruence end.

Hypothesis Hwrite : 0 < WriteTimeout opts.

Lemma does_applyErrorDelay st c : norm (conn st) = c -> does opts (applyErrorDelay opts) st [] c tt.
Proof using Hwrite.
  intros Hc. unfold applyErrorDelay. destruct (ErrorDelay opts <=? 0); [by apply does_ret|].
  eapply does_eq; [eapply does_bind with (t1 := []) (t2 := [])|reflexivity|reflexivity].
  - by apply (does_getc opts errorCount).
  - intros st1 Hc1. by apply does_sleep.
Qed.

Lemma does_countError st c :
  norm (conn st) = c -> does opts countError st [] (set_errorCount (errorCount c + 1) c) tt.
Proof.
  intros Hc. unfold countError. eapply does_eq; [does_steps|reflexivity|reflexivity].
Qed.

Lemma clientError_gives msg p : gives (clientError opts msg) p (refused msg p).
Proof using Hwrite.
  intros c rd Ha. eexists. split.
  - intros st Hc. unfold clientError. eapply does_eq.
    + eapply does_bind; [by apply does_countError|intros st1 Hc1].
      eapply does_bind; [eapply does_gets; eassumption|intros st2 Hc2].
      eapply does_bind with (t1 := []) (c1 := set_errorCount (errorCount c + 1) c).
      { destruct (lastErr (conn st1)); does_prim. }
      intros st3 Hc3. eapply does_bind; [by apply does_applyErrorDelay|intros st4 Hc4]. does_prim.
    + text.
    + reflexivity.
  - abs_done.
Qed.

Lemma sessionError_gives e p : gives (sessionError opts e) p (failed opts e p).
Proof.
  intros c rd Ha. unfold failed, error_text, error_closes, sessionError.
  destruct (as_error e) as [perr|].
  - destruct (Close perr); eexists;
      (split; [intros st Hc; eapply does_eq; [does_steps|text|reflexivity]|abs_done]).
  - destruct (is_sentinel ErrCloseConnection e); simpl.
    + eexists; (split; [intros st Hc; eapply does_eq; [does_steps|text|reflexivity]|abs_done]).
    + destruct (StrictSessionErrors opts); eexists;
        (split; [intros st Hc; eapply does_eq; [does_steps|text|reflexivity]|abs_done]).
Qed.

(** ** Shapes shared by the handlers *)

Lemma gives_says m t p :
  (forall st c, norm (conn st) = c -> does opts m st t c tt) -> gives m p (says t p).
Proof. intros Hm c rd Ha. exists c. split; [intros st Hc; by apply Hm | done]. Qed.

Lemma gives_eq m p r r' : gives m p r -> r = r' -> gives m p r'.
Proof. by intros ? <-. Qed.

(** A call that only computes leaves its state in the session. *)
Lemma call_pure {A} me (f : Sess -> Prog Sess A) (pf : Sess -> Sess * A) p c rd :
  (forall s, f s = pure_prog (pf s)) -> abs rd c p false ->
  exists c', (forall st, norm (conn st) = c -> does opts (call opts me f) st [] c' (pf (pt_sess p)).2)
    /\ abs rd c' (with_sess (pf (pt_sess p)).1 p) false.
Proof.
  intros Hf Ha. eexists. split.
  - intros st Hc. eapply does_call; [done|by destruct Ha|apply Hf].
  - abs_done.
Qed.

Lemma gives_call {A} me (f : Sess -> Prog Sess A) pf (k : A -> M unit) p r :
  (forall s, f s = pure_prog (pf s)) ->
  gives (k (pf (pt_sess p)).2) (with_sess (pf (pt_sess p)).1 p) r ->
  gives (x <- call opts me f;; k x) p r.
Proof.
  intros Hf Hk c rd Ha. destruct (call_pure me f pf p c rd Hf Ha) as (c1 & D1 & A1).
  destruct (Hk c1 rd A1) as (c2 & D2 & A2). exists c2. split; [|done]. intros st Hc.
  eapply does_eq; [eapply does_bind; [by apply D1|exact D2]|done|done].
Qed.

(** A method that returns a value or an error. *)
Lemma gives_answer {A} me (f : Sess -> Prog Sess (result A)) pf (k : A -> M unit) g p :
  (forall s, f s = pure_prog (pf s)) ->
  (forall a p, gives (k a) p (g a p)) ->
  gives (r <- call opts me f;; match r with inr e => sessionError opts e | inl a => k a end) p
    (answer opts (pf (pt_sess p)) p g).
Proof.
  intros Hf Hk. eapply gives_call; [exact Hf|]. unfold answer.
  destruct (pf (pt_sess p)).2; [apply Hk | apply sessionError_gives].
Qed.

(** A method that returns an error or nothing. *)
Lemma gives_done_or me (f : Sess -> Prog Sess (option goerr)) pf msg p :
  (forall s, f s = pure_prog (pf s)) ->
  gives (e <- call opts me f;; match e with Some e => sessionError opts e | None => ok opts msg end) p
    (done_or opts (pf (pt_sess p)) p msg).
Proof.
  intros Hf. eapply gives_call; [exact Hf|]. unfold done_or.
  destruct (pf (pt_sess p)).2; [apply sessionError_gives|]. apply gives_says. intros st c Hc. does_prim.
Qed.

(** ** The maildrop commands *)

Lemma handleStat_gives cx p : gives (handleStat opts cx) p (reply_stat opts p).
Proof.
  eapply gives_eq; [eapply gives_answer with (pf := p_Stat); [apply stat_pure|]|reflexivity].
  intros [count size] p1. apply gives_says. intros st c Hc. does_prim.
Qed.

Lemma listing_does {A} (item : A -> bytes) (w : A -> M unit) l st c :
  (forall a st c, norm (conn st) = c -> does opts (w a) st (item a ++ crlf) c tt) ->
  norm (conn st) = c ->
  does opts (for_each w l;;; WriteString opts (str "." ++ crlf)) st
    (concat (map (fun l => l ++ crlf) (map item l)) ++ str "." ++ crlf) c tt.
Proof.
  intros Hw Hc. rewrite map_map. eapply does_bind.
  - apply does_for_each with (g := fun a => item a ++ crlf); [|done]. intros a st1. apply Hw.
  - intros st1 Hc1. does_prim.
Qed.

(** The common part of LIST and UIDL. *)
Lemma items_gives {A} msg (item : A -> bytes) (w1 w : A -> M unit) (h : M unit) l p :
  (forall a st c, norm (conn st) = c -> does opts (w1 a) st (str "+OK " ++ item a ++ crlf) c tt) ->
  (forall a st c, norm (conn st) = c -> does opts (w a) st (item a ++ crlf) c tt) ->
  (forall st c, norm (conn st) = c ->
     does opts h st (str "+OK " ++ itoa (blen l) ++ str " messages" ++ crlf) c tt) ->
  gives (if 0 <? msg then match l with [a] => w1 a | _ => sessionError opts no_such_message end
         else h;;; for_each w l;;; WriteString opts (str "." ++ crlf)) p (items opts msg item l p).
Proof.
  intros Hone Hw Hh. unfold items. destruct (0 <? msg).
  - destruct l as [|a [|b l]]; [apply sessionError_gives| |apply sessionError_gives].
    apply gives_says. intros st c Hc. by apply Hone.
  - apply gives_says. intros st c Hc. eapply does_eq; [eapply does_bind; [by apply Hh|]| |reflexivity].
    + intros st1 Hc1. by apply listing_does.
    + text.
Qed.

(** The continuation of LIST and UIDL, matched up to case order. *)
Lemma handleList_gives cx args p :
  gives (handleList opts int_width cx args) p (reply_list opts int_width args p).
Proof using Hwrite.
  unfold handleList, reply_list. destruct (parseOptionalMsgNum int_width args) as [msg|e];
    [|apply clientError_gives].
  eapply gives_answer; [apply list_pure|]. intros l p1. apply items_gives; intros; (eapply does_eq; [does_prim|text|done]).
Qed.

Lemma handleUidl_gives cx args p :
  gives (handleUidl opts int_width cx args) p (reply_uidl opts int_width args p).
Proof using Hwrite.
  unfold handleUidl, reply_uidl. destruct (parseOptionalMsgNum int_width args) as [msg|e];
    [|apply clientError_gives].
  eapply gives_answer; [apply uidl_pure|]. intros l p1. apply items_gives; intros; (eapply does_eq; [does_prim|text|done]).
Qed.

Lemma handleDele_gives cx args p :
  gives (handleDele opts int_width cx args) p (reply_dele opts int_width args p).
Proof using Hwrite.
  unfold handleDele, reply_dele. destruct (parseMsgNum int_width args) as [msg|e];
    [|apply clientError_gives].
  apply gives_done_or. apply dele_pure.
Qed.

Lemma handleRset_gives cx p :
  gives (handleRset opts cx) p (done_or opts (p_Rset (pt_sess p)) p (str "Maildrop has been reset")).
Proof. apply gives_done_or with (pf := p_Rset). apply rset_pure. Qed.

Lemma handleNoop_gives cx p : gives (handleNoop opts cx) p (done_or opts (p_Noop (pt_sess p)) p []).
Proof. apply gives_done_or with (pf := p_Noop). apply noop_pure. Qed.

Lemma handleQuit_gives cx p :
  gives (handleQuit opts cx) p (answer opts (p_Quit (pt_sess p)) p (fun n =>
    says (if 0 <? n then str "+OK " ++ itoa n ++ str " messages expunged" ++ crlf
          else ok_line (str "Goodbye")))).
Proof.
  apply gives_answer with (pf := p_Quit); [apply quit_pure|]. intros n p1. apply gives_says.
  intros st c Hc. destruct (0 <? n); does_prim.
Qed.

(** ** Bodies *)

Section Stream.
Variables (c0 : Conn Sess) (n0 : Net).

(** The states of the connection while a body is streamed into it. *)
Definition streaming (st : St Sess) : Prop :=
  works opts st /\ norm (conn st) = c0 /\ input_kept n0 (net st).

#[local] Instance conn_good : @GoodWriter (St Sess) (conn_writer opts).
Proof.
  refine {| good := streaming; seen := out |}. intros st q (Hw & Hc & Hi).
  destruct (does_WriteBytes opts q st c0 Hc Hw) as (st' & E & [W O C I]).
  exists st'. unfold wwrite, conn_writer. rewrite E. split_and!; auto. split_and!; auto. by etrans.
Defined.

Lemma stream_whole b st :
  streaming st -> body_err b = None ->
  exists st', stream_body opts b st = (st', Val tt) /\ streaming st'
    /\ out st' = out st ++ dot_encode (concat (body_chunks b)).
Proof.
  intros Hs He. destruct (@ds_copy_close _ _ conn_good (body_chunks b) st Hs) as (d1 & d2 & E1 & E2 & G & S).
  exists (ds_w d2). unfold stream_body. rewrite He. rewrite E1, E2. by split_and!.
Qed.

Lemma stream_broken b e st :
  streaming st -> body_err b = Some e ->
  exists st1, stream_body opts b st
      = (modc (set_lastErr (Some e));;; modc (set_closePending true)) st1
    /\ streaming st1 /\ out st1 = out st ++ emit true true NUL (concat (body_chunks b)).
Proof.
  intros Hs He.
  destruct (@ds_copy_good _ _ conn_good (body_chunks b) (newDotStuffWriter st) (Some e) Hs) as (w & E & G & S).
  exists w. unfold stream_body. rewrite He, E. by split_and!.
Qed.
End Stream.

Lemma stream_gives b st c :
  norm (conn st) = c ->
  does opts (stream_body opts b) st
    (match body_err b with None => dot_encode (concat (body_chunks b))
     | Some _ => emit true true NUL (concat (body_chunks b)) end)
    (match body_err b with None => c | Some _ => set_closePending true c end) tt.
Proof.
  intros Hc Hw. assert (streaming c (net st) st) as Hs by (split_and!; auto; by split_and!).
  destruct (body_err b) as [e|] eqn:He.
  - destruct (stream_broken c (net st) b e st Hs He) as (st1 & -> & (W1 & C1 & I1) & O1).
    assert (does opts (modc (set_lastErr (Some e));;; modc (set_closePending true)) st1 []
      (set_closePending true c) tt) as Hd by (eapply does_eq; [does_steps|done|done]).
    destruct (Hd W1) as (st2 & E2 & [W2 O2 C2 I2]). exists st2. split; [done|].
    split; auto; [by rewrite O2, app_nil_r | by etrans].
  - destruct (stream_whole c (net st) b st Hs He) as (st1 & E1 & (W1 & C1 & I1) & O1).
    exists st1. split; [done|]. by split.
Qed.

Lemma does_finally m fin st t1 t2 c1 c2 :
  does opts m st t1 c1 tt -> (forall st1, norm (conn st1) = c1 -> does opts fin st1 t2 c2 tt) ->
  does opts (finally m fin) st (t1 ++ t2) c2 tt.
Proof.
  intros Hm Hf Hw. destruct (Hm Hw) as (st1 & E1 & S1).
  destruct (Hf st1 (sp_conn _ _ _ _ _ S1) (sp_works _ _ _ _ _ S1)) as (st2 & E2 & S2).
  exists st2. unfold finally, bind. rewrite E1, E2. split; [done|]. by eapply spoke_trans.
Qed.

Lemma send_body_gives status b p : gives (send_body opts status b) p (message status b p).
Proof.
  intros c rd Ha. unfold message.
  exists (match body_err b with None => c | Some _ => set_closePending true c end). split.
  - intros st Hc. unfold send_body. eapply does_eq; [eapply does_finally| |reflexivity].
    + eapply does_bind; [by apply does_ok|intros st1 Hc1].
      eapply does_bind; [by apply does_flush|intros st2 Hc2]. by apply stream_gives.
    + intros st1 Hc1. by apply does_emit.
    + destruct (body_err b); text.
  - destruct (body_err b); simpl; [abs_done | done].
Qed.

Lemma handleRetr_gives cx args p :
  gives (handleRetr opts int_width cx args) p (reply_retr opts int_width args p).
Proof using Hwrite.
  unfold handleRetr, reply_retr. destruct (parseMsgNum int_width args) as [msg|e];
    [|apply clientError_gives].
  eapply gives_answer; [apply retr_pure|]. intros b p1. apply send_body_gives.
Qed.

Lemma handleTop_gives cx args p :
  gives (handleTop opts int_width cx args) p (reply_top opts int_width args p).
Proof using Hwrite.
  unfold handleTop, reply_top. destruct args as [|a [|l args]]; try apply clientError_gives.
  destruct (parseMsgNum int_width [a]) as [msg|e]; [|apply clientError_gives].
  destruct (parseInt int_width l) as [n|e]; [|apply clientError_gives].
  destruct (n <? 0); [apply clientError_gives|].
  eapply gives_answer; [apply top_pure|]. intros b p1. apply send_body_gives.
Qed.

(** ** Reading the connection's fields *)

(** A first step that writes nothing and changes nothing. *)
Lemma does_first {A B} (m : M A) (k : A -> M B) st c t c2 a b :
  does opts m st [] c a -> (forall st1, norm (conn st1) = c -> does opts (k a) st1 t c2 b) ->
  does opts (bind m k) st t c2 b.
Proof. intros Hm Hk. change t with ([] ++ t). eapply does_bind; eauto. Qed.

Lemma gives_getc {A} (f : Conn Sess -> A) v k p r :
  (forall c rd, abs rd c p false -> f c = v) -> (forall c, f (norm c) = f c) ->
  gives (k v) p r -> gives (x <- getc f;; k x) p r.
Proof.
  intros Hf Hn Hk c rd Ha. destruct (Hk c rd Ha) as (c2 & D2 & A2). exists c2. split; [|done].
  intros st Hc. apply does_first with (c := c) (a := v); [|exact D2].
  rewrite <- (Hf c rd Ha). apply does_getc; [done|apply Hn].
Qed.

Lemma gives_assert {A} (f : Sess -> option A) v k p r :
  f (pt_sess p) = v -> gives (k v) p r -> gives (x <- assert_session f;; k x) p r.
Proof.
  intros Hf Hk c rd Ha. destruct (Hk c rd Ha) as (c2 & D2 & A2). exists c2. split; [|done].
  intros st Hc. apply does_first with (c := c) (a := v); [|exact D2].
  rewrite <- Hf. apply does_assert; [done|by destruct Ha].
Qed.

(** The guard of the authentication commands. *)
Lemma gives_guard (m : M unit) p r :
  gives m p r ->
  gives (a <- authAllowed opts;; if negb a then clientError opts needs_tls else m) p
    (if negb (auth_open opts tls) then refused needs_tls p else r).
Proof using Hwrite.
  intros Hm.
  assert (gives (if negb (auth_open opts tls) then clientError opts needs_tls else m) p
    (if negb (auth_open opts tls) then refused needs_tls p else r)) as Hk
    by (destruct (negb _); [apply clientError_gives | done]).
  intros c rd Ha. destruct (Hk c rd Ha) as (c2 & D2 & A2). exists c2. split; [|done].
  intros st Hc. apply does_first with (c := c) (a := auth_open opts tls); [|exact D2].
  unfold authAllowed, auth_open. rewrite <- (abs_tls _ _ _ _ Ha).
  eapply does_eq; [does_steps|reflexivity|reflexivity].
Qed.

(** ** Either state *)

Lemma handleLang_gives cx args p :
  gives (handleLang opts cx args) p (reply_lang opts args p).
Proof using Hwrite.
  unfold handleLang, reply_lang. pose proof (lang_pure (pt_sess p)) as Hl. destruct has_Lang; simpl.
  - destruct Hl as (x & Hx & Hset & Hlist). eapply gives_assert; [exact Hx|]. destruct args as [|a args].
    + eapply gives_answer; [apply Hlist|]. intros ls p1. apply gives_says. intros st c Hc.
      eapply does_eq; [eapply does_bind; [does_prim|intros st1 Hc1]| |reflexivity].
      * apply listing_does with (item := fun l => sanitizeResponse (li_Tag l) ++ str " "
          ++ sanitizeResponse (li_Description l)); [|done].
        intros l st2 c2 Hc2. eapply does_eq; [does_prim|text|done].
      * text.
    + eapply gives_answer; [apply Hset|]. intros tag p1. apply gives_says. intros st c Hc. does_prim.
  - eapply gives_assert; [exact Hl|]. apply clientError_gives.
Qed.

Lemma handleUTF8_gives cx p : gives (handleUTF8 opts cx) p (reply_utf8 opts p).
Proof using Hwrite.
  unfold handleUTF8, reply_utf8. pose proof (utf8_pure (pt_sess p)) as Hu. destruct has_UTF8; simpl.
  - destruct Hu as (x & Hx & Hf). eapply gives_assert; [exact Hx|]. apply gives_done_or. apply Hf.
  - eapply gives_assert; [exact Hu|]. apply clientError_gives.
Qed.

Lemma handleSTLS_gives cx p :
  TLSConfig opts = false \/ tls = true -> gives (handleSTLS opts cx) p (reply_stls tls p).
Proof using Hwrite.
  intros Ht. unfold handleSTLS, reply_stls.
  eapply gives_getc with (v := tls); [by intros c rd []|done|].
  destruct tls; [apply clientError_gives|]. destruct Ht as [->|?]; [apply clientError_gives|done].
Qed.

Lemma dispatchUnknown_gives cx cmd args p :
  UnknownCommandHandler opts = None ->
  forall c rd, abs rd c p false ->
  exists c', (forall st, norm (conn st) = c ->
      does opts (dispatchUnknown opts cx cmd args) st (re_text (reply_unknown cmd p)) c' false)
    /\ abs rd c' (re_state (reply_unknown cmd p)) false.
Proof using Hwrite.
  intros Hu c rd Ha. destruct (clientError_gives (str "Unknown command: " ++ cmd) p c rd Ha) as (c2 & D2 & A2).
  exists c2. split; [|done]. intros st Hc. unfold dispatchUnknown. rewrite Hu.
  eapply does_eq; [eapply does_bind; [does_prim|intros st1 Hc1];
    eapply does_bind; [by apply D2|intros st2 Hc2]; by apply does_ret | |reflexivity].
  simpl. by rewrite app_nil_r.
Qed.

(** ** Capabilities *)

(** The lines of the capabilities that are not suppressed. *)
Definition cap_text (cs : list Capability) : bytes :=
  concat (map (fun l => l ++ crlf)
    (map cap_line (List.filter (fun c => negb (capSuppressed opts (cap_Name c))) cs))).

Lemma cap_text_app cs ds : cap_text (cs ++ ds) = cap_text cs ++ cap_text ds.
Proof. unfold cap_text. by rewrite List.filter_app, !map_app, concat_app. Qed.

Lemma writeCap_does c0 st c :
  norm (conn st) = c ->
  does opts (writeCap opts (cap_Name c0) (cap_Params c0)) st (cap_text [c0]) c tt.
Proof.
  intros Hc. unfold writeCap, cap_text. simpl. destruct (capSuppressed opts (cap_Name c0)); simpl.
  { eapply does_eq; [by apply does_ret|done|done]. }
  destruct c0 as [n ps]. unfold cap_line. simpl. destruct ps as [|a ps].
  - eapply does_eq; [eapply does_bind; [does_prim|intros st1 Hc1];
      eapply does_bind; [by apply does_ret|intros st2 Hc2]; does_prim| |reflexivity]. text.
  - replace (0 <? blen (a :: ps)) with true by (symmetry; apply Z.ltb_lt; rewrite blen_cons; pose proof (blen_nonneg ps); lia).
    eapply does_eq; [eapply does_bind; [does_prim|intros st1 Hc1];
      eapply does_bind; [does_steps|intros st2 Hc2]; does_prim| |reflexivity]. text.
Qed.

(** A capability written under a condition. *)
Lemma cap_if_does (b : bool) c0 st c :
  norm (conn st) = c ->
  does opts (if b then writeCap opts (cap_Name c0) (cap_Params c0) else ret tt) st
    (cap_text (if b then [c0] else [])) c tt.
Proof.
  intros Hc. destruct b; [by apply writeCap_does|].
  eapply does_eq; [by apply does_ret|by unfold cap_text|done].
Qed.

Lemma with_same_sess (p : Proto Sess) : with_sess (pt_sess p) p = p.
Proof. by destruct p. Qed.

Lemma nonempty_blen {A} (l : list A) : (0 <? blen l) = negb (is_nil_list l).
Proof. destruct l; [done|]. apply Z.ltb_lt. rewrite blen_cons. pose proof (blen_nonneg l). lia. Qed.

(** The mechanisms, asked for only where a client may authenticate. *)
Definition capa_mechs (p : Proto Sess) : Sess * list bytes :=
  if auth_open opts tls && has_SASL then p_Mechs (pt_sess p) else (pt_sess p, []).

Lemma capa_sasl p c rd :
  abs rd c p false ->
  exists c1, (forall st, norm (conn st) = c ->
    does opts (if auth_open opts tls then
                 sasl <- assert_session as_SASL;;
                 match sasl with
                 | Some x =>
                   mechs <- call opts MAuthenticateMechanisms (AuthenticateMechanisms x);;
                   if 0 <? blen mechs then writeCap opts (str "SASL") mechs else ret tt
                 | None => ret tt
                 end
               else ret tt) st
      (cap_text (if is_nil_list (capa_mechs p).2 then [] else [mkCapability (str "SASL") (capa_mechs p).2])) c1 tt)
    /\ abs rd c1 (with_sess (capa_mechs p).1 p) false.
Proof.
  intros Ha. pose proof (sasl_pure (pt_sess p)) as Hs. unfold capa_mechs.
  destruct (auth_open opts tls); simpl.
  2:{ exists c. rewrite with_same_sess. split; [|done]. intros st Hc. by apply does_ret. }
  destruct has_SASL; simpl.
  - destruct Hs as (x & Hx & Hm & _). destruct (call_pure MAuthenticateMechanisms _ p_Mechs p c rd Hm Ha) as (c1 & D1 & A1).
    exists c1. split; [|done]. intros st Hc. apply does_first with (c := c) (a := Some x).
    { rewrite <- Hx. apply does_assert; [done|by destruct Ha]. }
    intros st1 Hc1. change (cap_text _) with ([] ++ cap_text (if is_nil_list (p_Mechs (pt_sess p)).2 then []
      else [mkCapability (str "SASL") (p_Mechs (pt_sess p)).2])).
    eapply does_bind; [by apply D1|]. intros st2 Hc2. rewrite nonempty_blen.
    destruct (is_nil_list _); simpl; [by apply does_ret|].
    by apply (writeCap_does (mkCapability (str "SASL") (p_Mechs (pt_sess p)).2)).
  - exists c. rewrite with_same_sess. split; [|done]. intros st Hc.
    apply does_first with (c := c) (a := None); [|intros st1 Hc1; by apply does_ret].
    rewrite <- Hs. apply does_assert; [done|by destruct Ha].
Qed.

(** An interface the session may offer, announced as a capability. *)
Lemma capa_optional {A} (f : Sess -> option A) (b : bool) name p c rd st :
  abs rd c p false -> (if b then exists x, f (pt_sess p) = Some x else f (pt_sess p) = None) ->
  norm (conn st) = c ->
  does opts (o <- assert_session f;; match o with Some _ => writeCap opts name [] | None => ret tt end) st
    (cap_text (if b then [mkCapability name []] else [])) c tt.
Proof.
  intros Ha Hf Hc. apply does_first with (c := c) (a := f (pt_sess p)).
  { apply does_assert; [done|by destruct Ha]. }
  intros st1 Hc1. destruct b; [destruct Hf as [x ->]|rewrite Hf].
  - by apply (writeCap_does (mkCapability name [])).
  - by apply does_ret.
Qed.

Lemma does_assoc {A B C} (m : M A) (f : A -> M B) (k : B -> M C) st t c a :
  does opts (bind (bind m f) k) st t c a -> does opts (bind m (fun x => bind (f x) k)) st t c a.
Proof.
  intros Hd Hw. destruct (Hd Hw) as (st1 & E1 & S1). exists st1. split; [|done]. rewrite <- E1.
  unfold bind. by destruct (m st) as [st0 [x| |]].
Qed.

Lemma handleCapa_gives p : gives (handleCapa opts) p (reply_capa opts tls p).
Proof.
  intros c rd Ha. destruct (capa_sasl p c rd Ha) as (c1 & D1 & A1).
  exists c1. split; [|exact A1]. intros st Hc.
  assert (if has_Lang then exists x, as_Lang (capa_mechs p).1 = Some x else as_Lang (capa_mechs p).1 = None) as Hl.
  { pose proof (lang_pure (capa_mechs p).1) as Hl. destruct has_Lang; [|done]. destruct Hl as (x & ? & _); eauto. }
  assert (if has_UTF8 then exists x, as_UTF8 (capa_mechs p).1 = Some x else as_UTF8 (capa_mechs p).1 = None) as Hu.
  { pose proof (utf8_pure (capa_mechs p).1) as Hu. destruct has_UTF8; [|done]. destruct Hu as (x & ? & _); eauto. }
  unfold handleCapa. apply does_first with (c := c) (a := auth_open opts tls).
  { unfold authAllowed, auth_open. rewrite <- (abs_tls _ _ _ _ Ha).
    eapply does_eq; [does_steps|reflexivity|reflexivity]. }
  intros st1 Hc1. eapply does_eq.
  - eapply does_bind; [does_prim|intros st2 Hc2].
    eapply does_bind; [by apply (writeCap_does (mkCapability (str "TOP") []))|intros st3 Hc3].
    eapply does_bind; [by apply (writeCap_does (mkCapability (str "UIDL") []))|intros st4 Hc4].
    eapply does_bind; [by apply (cap_if_does (auth_open opts tls) (mkCapability (str "USER") []))|intros st5 Hc5].
    eapply does_bind; [by apply (writeCap_does (mkCapability (str "RESP-CODES") []))|intros st6 Hc6].
    eapply does_bind; [by apply (writeCap_does (mkCapability (str "PIPELINING") []))|intros st7 Hc7].
    eapply does_first with (c := c) (a := tls).
    { rewrite <- (abs_tls _ _ _ _ Ha). does_prim. }
    intros st8 Hc8.
    eapply does_bind; [by apply (cap_if_does (TLSConfig opts && negb tls) (mkCapability (str "STLS") []))|intros st9 Hc9].
    eapply does_bind; [by apply D1|intros st10 Hc10].
    apply does_assoc. eapply does_bind; [by apply (capa_optional as_Lang has_Lang (str "LANG") _ _ _ _ A1 Hl)|intros st11 Hc11].
    apply does_assoc. eapply does_bind; [by apply (capa_optional as_UTF8 has_UTF8 (str "UTF8") _ _ _ _ A1 Hu)|intros st12 Hc12].
    eapply does_bind with (t1 := cap_text (Caps opts)).
    { eapply does_eq; [eapply (does_for_each opts _ (fun x => cap_text [x])); [|exact Hc12]| |reflexivity].
      - intros x st13 Hc13. by apply writeCap_does.
      - clear. induction (Caps opts) as [|x l IH]; [done|]. cbn [map concat]. rewrite IH.
        by rewrite <- cap_text_app. }
    intros st13 Hc13. does_prim.
  - unfold reply_capa, says, re_text, listing, capabilities. fold (capa_mechs p).
    change (concat (map (fun l => l ++ crlf) (map cap_line (List.filter _ ?l)))) with (cap_text l).
    rewrite !cap_text_app. change (cap_text [mkCapability (str "TOP") []; mkCapability (str "UIDL") []])
      with (cap_text ([mkCapability (str "TOP") []] ++ [mkCapability (str "UIDL") []])).
    change (cap_text [mkCapability (str "RESP-CODES") []; mkCapability (str "PIPELINING") []])
      with (cap_text ([mkCapability (str "RESP-CODES") []] ++ [mkCapability (str "PIPELINING") []])).
    rewrite !cap_text_app, <- !app_assoc. reflexivity.
  - reflexivity.
Qed.

(** ** Authentication *)

Lemma handleUser_gives args p : gives (handleUser opts args) p (reply_user opts tls args p).
Proof using Hwrite.
  apply gives_guard. destruct args as [|a args]; [apply clientError_gives|].
  destruct (containsCTL a); [apply clientError_gives|].
  intros c rd Ha. eexists. split.
  - intros st Hc. eapply does_eq; [does_steps|text|reflexivity].
  - abs_done.
Qed.

Lemma auth_result_gives e p :
  gives (auth_result opts e) p (login opts (pt_sess p, e) p).
Proof using Hwrite.
  unfold auth_result, login. simpl. rewrite with_same_sess. destruct e as [e|].
  - intros c rd Ha.
    set (p' := if AuthFailuresExemptFromMaxErrors opts then p else with_error p).
    set (c' := if AuthFailuresExemptFromMaxErrors opts then c else set_errorCount (errorCount c + 1) c).
    assert (abs rd c' p' false) as Ha' by (subst c' p'; destruct (AuthFailuresExemptFromMaxErrors opts); [done|abs_done]).
    destruct (sessionError_gives e p' c' rd Ha') as (c2 & D2 & A2). exists c2. split; [|exact A2].
    intros st Hc. apply (does_bind opts _ _ st [] _ c' c2 tt).
    { subst c'. destruct (AuthFailuresExemptFromMaxErrors opts); [by apply does_ret | by apply does_countError]. }
    intros st1 Hc1. apply does_first with (c := c') (a := tt); [by apply does_applyErrorDelay|exact D2].
  - eapply gives_getc with (v := false); [by intros c rd []|done|].
    intros c rd Ha. eexists. split.
    + intros st Hc. eapply does_eq; [does_steps|text|reflexivity].
    + abs_done.
Qed.

(** A login method, and what is made of its answer. *)
Lemma login_gives me (f : Sess -> Prog Sess (option goerr)) pf p :
  (forall s, f s = pure_prog (pf s)) ->
  gives (e <- call opts me f;; auth_result opts e) p (login opts (pf (pt_sess p)) p).
Proof using Hwrite.
  intros Hf. eapply gives_call; [exact Hf|]. eapply gives_eq; [apply auth_result_gives|].
  unfold login. by destruct (pf (pt_sess p)) as [s [e|]], p.
Qed.

Lemma handlePass_gives cx p : gives (handlePass opts cx) p (reply_pass opts tls raw p).
Proof using Hwrite.
  apply gives_guard. eapply gives_getc with (v := pt_user p); [by intros c rd []|done|].
  destruct (is_nil (pt_user p)); [apply clientError_gives|].
  eapply gives_getc with (v := raw); [by intros c rd []|done|].
  destruct (is_nil raw); [apply clientError_gives|].
  apply login_gives with (pf := p_Login (pt_user p) raw). apply login_pure.
Qed.

Lemma auth_plain_gives cx x enc p :
  (forall cx i u p s, AuthenticatePlain x cx i u p s = pure_prog (p_Plain i u p s)) ->
  gives (auth_plain opts cx x enc) p (reply_plain opts enc p).
Proof using Hwrite.
  intros Hx. unfold auth_plain, reply_plain. destruct (enc =s? _).
  { apply gives_says. intros st c Hc. does_prim. }
  destruct (decodeSASLPlain enc) as [[[i u] pw]|e].
  - apply login_gives. intros s. apply Hx.
  - intros c rd Ha. destruct (clientError_gives (str "Invalid SASL PLAIN response") p c rd Ha) as (c1 & D1 & A1).
    exists c1. split; [|done]. intros st Hc. eapply does_first; [does_prim|exact D1].
Qed.
End Refine.
