(* ===== verification/RefineInput.v ===== *)
(** * What the server reads

    A client's lines arrive in arbitrary segments; the server reads them one
    by one, within [MaxLineLength], whatever the segments were. *)
From S2P Require Import Prelude GoStrings GoConv Errors DotStuff Parse Net NetLive Session Options ConnState ConnHandlers Wire Spec.

(** The bytes of a list of lines, each ended by LF. *)
Definition script (ls : list bytes) : bytes := concat (map (fun l => l ++ [LF]) ls).

Definition no_lf (l : bytes) : Prop := Forall (fun b => b <> LF) l.

(** A deadline that is already armed. *)
Lemma yields_rdl r n s d : yields r n s -> rdl n = Some d -> yields r (SetReadDeadline (Some d) n) s.
Proof. intros (?&?&?&?&Hd) Hr. rewrite Hr in Hd. by split_and!. Qed.

Section Input.
Context {Sess : Type} `{Unicode} `{PureSession Sess}.
Variable opts : Options Sess.
Implicit Types st : St Sess.

(** ** One line *)

(** The result of reading the line [l] when [acc] was read of it before. *)
Definition line_result (acc l : bytes) : result bytes :=
  if MaxLineLength opts <? blen (acc ++ chomp l) then inr (ESentinel errLineTooLong)
  else inl (acc ++ chomp l).

(** The parts of a state that reading leaves alone. *)
Definition read_from st st' : Prop :=
  (exists r, conn st' = set_reader r (conn st)) /\ same_output (net st) (net st')
  /\ handshakes st' = handshakes st /\ log st' = log st.

#[export] Instance read_from_pre : PreOrder read_from.
Proof.
  split.
  - intros st. split_and!; try done. by exists (reader (conn st)); destruct (conn st).
  - intros a b c ((r1 & E1) & O1 & Hs1 & L1) ((r2 & E2) & O2 & Hs2 & L2). split_and!; try congruence.
    + exists r2. by rewrite E2, E1.
    + by etrans.
Qed.

(** One call of the buffered reader on a stream that holds the line. *)
Lemma readLine1_yields st l t :
  yields (reader (conn st)) (net st) (l ++ LF :: t) -> no_lf l ->
  exists st', read_from st st' /\
    (readLine1 st = (st', Val (chomp l, false, None)) /\ yields (reader (conn st')) (net st') t
    \/ exists m, (1 <= m <= length l)%nat /\ readLine1 st = (st', Val (take m l, true, None))
       /\ yields (reader (conn st')) (net st') (drop m l ++ LF :: t)
       /\ chomp l = take m l ++ chomp (drop m l)).
Proof.
  intros Hy Hl. destruct (ReadLine_yields _ _ _ _ Hy Hl) as (r' & n' & _ & Hr).
  exists (mkSt (set_reader r' (conn st)) n' (handshakes st) (log st)).
  pose proof (ReadLine_output (reader (conn st)) (net st)) as Ho.
  unfold readLine1, bind, getc, gets, lift_io. destruct Hr as [[Er Hy']|(m & Hm & Er & Hy' & Hc)]; rewrite Er in *.
  - split; [unfold read_from; split_and!; [by exists r'|done..] | by left].
  - split; [unfold read_from; split_and!; [by exists r'|done..] | right]. exists m. split; [exact Hm|]. split; [reflexivity|]. by split.
Qed.

Lemma readLine_go_yields k acc st l t :
  yields (reader (conn st)) (net st) (l ++ LF :: t) -> no_lf l ->
  (Z.to_nat (MaxLineLength opts + 1 - blen acc) < k)%nat ->
  exists st', readLine_go opts k acc st = (st', Val (line_result acc l)) /\ read_from st st'
    /\ (blen (acc ++ chomp l) <= MaxLineLength opts -> yields (reader (conn st')) (net st') t).
Proof.
  revert acc st l. induction k as [|k IH]; intros acc st l Hy Hl Hk; [lia|].
  destruct (readLine1_yields st l t Hy Hl) as (st1 & Hrf & [[Er Hy1]|(m & Hm & Er & Hy1 & Hc)]);
    cbn [readLine_go]; unfold bind; rewrite Er.
  - exists st1. unfold line_result. by destruct (_ <? _).
  - unfold line_result. rewrite Hc, app_assoc.
    destruct (Z.ltb_spec (MaxLineLength opts) (blen (acc ++ take m l))) as [Hgt|Hle].
    + assert (MaxLineLength opts < blen ((acc ++ take m l) ++ chomp (drop m l))) as Hgt2.
      { rewrite blen_app. pose proof (blen_nonneg (chomp (drop m l))). lia. }
      exists st1. split_and!; [|done|lia]. apply Z.ltb_lt in Hgt2. by rewrite Hgt2.
    + destruct (IH (acc ++ take m l) st1 (drop m l) Hy1) as (st2 & E2 & Hrf2 & Hy2).
      { by apply Forall_drop. }
      { rewrite blen_app in *. unfold blen at 2. unfold blen at 2 in Hle.
        rewrite length_take in *. unfold blen in *. lia. }
      exists st2. split_and!; [exact E2|by etrans|exact Hy2].
Qed.

(** A line is read whole, or refused when it is longer than the limit; the
    segments it arrived in do not matter. *)
Lemma readLine_yields st l t :
  yields (reader (conn st)) (net st) (l ++ LF :: t) -> no_lf l ->
  exists st', readLine opts st = (st', Val (line_result [] l)) /\ read_from st st'
    /\ (too_long opts l = false -> yields (reader (conn st')) (net st') t).
Proof.
  intros Hy Hl. destruct (readLine_go_yields (Z.to_nat (MaxLineLength opts) + 2) [] st l t Hy Hl)
    as (st' & E & Hr & Hy'); [unfold blen; simpl; lia|].
  exists st'. split_and!; [exact E|done|]. intros Ht. apply Hy'. unfold too_long in Ht.
  by apply Z.ltb_ge in Ht.
Qed.

Lemma line_result_nil l : line_result [] l = if too_long opts l then inr (ESentinel errLineTooLong) else inl (chomp l).
Proof. done. Qed.

(** ** A silent client *)

Lemma readLine_silent st d :
  yields (reader (conn st)) (net st) [] -> rdl (net st) = Some d ->
  exists st', readLine opts st = (st', Val (inr timeoutError)) /\ read_from st st'.
Proof.
  intros (He & Hd & Hs & Hb & Hdl) Hrd.
  symmetry in Hs. apply app_eq_nil in Hs as [Hrb Hin].
  assert (inbox (net st) = []) as Hi.
  { destruct (inbox (net st)) as [|[t it] rest]; [done|]. inv Hd. simpl in Hin.
    apply app_eq_nil in Hin as [Hin _]. unfold item_bytes in Hin. simpl in *. by destruct it. }
  pose proof (ReadLine_output (reader (conn st)) (net st)) as Ho.
  assert (exists n' r', ReadLine (reader (conn st)) (net st) = (n', IoVal (r', ([], false, Some timeoutError)))) as (n' & r' & Er).
  { unfold ReadLine, ReadSlice. pose proof bufsize_ge.
    replace (bufsize + 2)%nat with (Datatypes.S (Datatypes.S bufsize)) by lia. cbn [ReadSlice_go].
    rewrite Hrb, He. simpl (index_byte _ _). destruct (Nat.leb_spec bufsize (length ([] : bytes))); [simpl in *; lia|].
    unfold fill. change 100%nat with (Datatypes.S 99). cbn [fill_go]. unfold net_read. rewrite Hi, Hrd.
    cbn [io_bind rbuf rerr]. rewrite Hrb. simpl. eauto. }
  rewrite Er in Ho. exists (mkSt (set_reader r' (conn st)) n' (handshakes st) (log st)). split.
  - unfold readLine. replace (Z.to_nat (MaxLineLength opts) + 2)%nat with (Datatypes.S (Z.to_nat (MaxLineLength opts) + 1)) by lia.
    cbn [readLine_go]. unfold readLine1, bind, getc, gets, lift_io. by rewrite Er.
  - unfold read_from; split_and!; [by exists r'|done..].
Qed.
End Input.
