(* ===== verification/RefineLoop.v ===== *)
(** * The server implements the machine

    From the handlers to the whole connection: a client whose lines arrive in
    time, in whatever segments, receives the machine's conversation. *)
From S2P Require Import Prelude GoStrings GoConv Errors DotStuff Parse Net NetLive Session Options ConnState ConnHandlers ConnServe Wire Spec ConnFacts ConnFrame ConnLive ConnAuth ConnTrace Refine RefineInput.

(** The configurations the machine describes: no upgrade to TLS (there is no
    TLS configuration, or the connection is encrypted already), no hook for
    unknown commands, no limit on the whole session. *)
Record plain_config {Sess} (opts : Options Sess) (tls : bool) : Prop := mkPlain {
  pc_tls : TLSConfig opts = false \/ tls = true;
  pc_unknown : UnknownCommandHandler opts = None;
  pc_absolute : AbsoluteSessionTimeout opts <= 0;
  pc_idle : 0 < IdleTimeout opts;
  pc_auth_idle : AuthIdleTimeout opts <= IdleTimeout opts;
  pc_write : 0 < WriteTimeout opts
}.

Section Loop.
Context {Sess : Type} `{Unicode} `{PureSession Sess}.
Variable opts : Options Sess.
Variable int_width : Z.
Variable tls : bool.
Hypothesis Hcfg : plain_config opts tls.
Local Abbreviation M := (M Sess).
Implicit Types (st : St Sess) (p : Proto Sess).

(** The idle timeout of a protocol state. *)
Definition idle_of (s : connState) : Z :=
  if bool_decide (s = stateAuthorization) && (0 <? AuthIdleTimeout opts)
  then AuthIdleTimeout opts else IdleTimeout opts.

Lemma idle_of_pos s : 0 < idle_of s.
Proof using Hcfg. unfold idle_of. pose proof (pc_idle _ _ Hcfg). destruct (_ && _) eqn:E; [by bool_hyps | done]. Qed.

Lemma idle_of_mono s : idle_of s <= idle_of stateTransaction.
Proof using Hcfg.
  unfold idle_of. pose proof (pc_auth_idle _ _ Hcfg). destruct s; simpl; [|lia]. case_match; lia.
Qed.

(** The lines [ls] are still to be read, and all of them arrive in time. *)
Definition waiting st (s : connState) (ls : list bytes) : Prop :=
  Forall no_lf ls /\ exists T, T <= now (net st) + idle_of s
    /\ yields (reader (conn st)) (SetReadDeadline (Some T) (net st)) (script ls).

Lemma nextReadDeadline_idle st :
  nextReadDeadline opts st = (st, Val (Some (now (net st) + idle_of (state (conn st))))).
Proof using Hcfg.
  unfold nextReadDeadline, bind, getc, gets. simpl. fold (idle_of (state (conn st))).
  pose proof (idle_of_pos (state (conn st))) as Hi. apply Z.ltb_lt in Hi. rewrite Hi.
  destruct (Z.ltb_spec 0 (AbsoluteSessionTimeout opts)); [pose proof (pc_absolute _ _ Hcfg); lia | done].
Qed.

(** ** One line of a waiting client *)

Definition armed st : St Sess :=
  mkSt (conn st) (SetReadDeadline (Some (now (net st) + idle_of (state (conn st)))) (net st))
    (handshakes st) (log st).

Lemma arm_read_eq st : arm_read opts st = (armed st, Val tt).
Proof using Hcfg. unfold arm_read, bind. by rewrite nextReadDeadline_idle. Qed.

(** A later deadline changes nothing for what arrives in time. *)
Lemma yields_later r n s T d :
  yields r (SetReadDeadline (Some T) n) s -> T <= d -> yields r (SetReadDeadline (Some d) n) s.
Proof.
  intros (He & Hd & Hs & Hb & Hn & Ht) Hle. split_and!; auto. simpl in *.
  split; [lia|]. eapply Forall_impl; [exact Ht|]. intros x Hx. simpl in Hx. lia.
Qed.

(** Writing, waiting and changing other fields leave a client waiting. *)
Lemma waiting_same st st' s ls :
  waiting st s ls -> reader (conn st') = reader (conn st) -> input_kept (net st) (net st') ->
  waiting st' s ls.
Proof using Hcfg.
  intros (Hl & T & HT & Hy) Hr (Hi & _ & Hn). split; [done|]. exists (now (net st') + idle_of s).
  split; [done|]. rewrite Hr. pose proof (idle_of_pos s).
  apply (yields_later _ _ _ _ (now (net st') + idle_of s)) in Hy; [|lia].
  destruct Hy as (He & Hd & Hs & Hb & Hdl). unfold yields in *. simpl in *. rewrite Hi.
  split_and!; try done; [lia|apply Hdl].
Qed.

Lemma waiting_phase st s s' ls :
  waiting st s ls -> (s = stateTransaction -> s' = stateTransaction) -> waiting st s' ls.
Proof using Hcfg.
  intros (Hl & T & HT & Hy) Hs. split; [done|]. exists T. split; [|done].
  destruct s, s'; try done; [pose proof (idle_of_mono stateAuthorization); lia|by specialize (Hs eq_refl)].
Qed.

(** The next line is read, and the client waits with the rest. *)
Lemma read_next st l ls :
  waiting st (state (conn st)) (l :: ls) ->
  exists st', (arm_read opts;;; readLine opts) st
      = (st', Val (if too_long opts l then inr (ESentinel errLineTooLong) else inl (chomp l)))
    /\ read_from (armed st) st' /\ (too_long opts l = false -> waiting st' (state (conn st)) ls).
Proof using Hcfg.
  intros (Hl & T & HT & Hy). inv Hl. apply (yields_later _ _ _ _ _ Hy) in HT as Hy'.
  unfold script in Hy'. simpl in Hy'. rewrite <- app_assoc in Hy'.
  destruct (readLine_yields opts (armed st) l (script ls) Hy') as (st' & E & Hr & Hyr); [done|].
  exists st'. unfold bind. rewrite arm_read_eq, E. split_and!; [done|done|].
  intros Hs. specialize (Hyr Hs). destruct Hr as ((r & Hc) & (_ & _ & _ & Hrd & Hnow) & _).
  split; [done|]. simpl in Hrd, Hnow. eexists. split; [|exact (yields_rdl _ _ _ _ Hyr Hrd)]. lia.
Qed.

(** ** One command *)

Section Command.
Variable raw : bytes.

(** After the answer [r] the client waits with [ls]. *)
Record landed st (r : Reply) (ls : list bytes) st' (cp : bool) : Prop := mkLanded {
  ld_works : works opts st';
  ld_out : out st' = out st ++ re_text r;
  ld_abs : abs tls raw (reader (conn st')) (norm (conn st')) (re_state r) cp;
  ld_waiting : re_stop r = false -> waiting st' (pt_phase (re_state r)) ls
}.

Definition answers (m : M bool) st (r : Reply) (ls : list bytes) : Prop :=
  exists st' q cp, m st = (st', Val q) /\ landed st r ls st' cp /\ re_stop r = q || cp.

(** The state before a command is dispatched. *)
Record standing st p (ls : list bytes) : Prop := mkStanding {
  sd_works : works opts st;
  sd_abs : abs tls raw (reader (conn st)) (norm (conn st)) p false;
  sd_waiting : waiting st (pt_phase p) ls
}.

Lemma gives_answers m p r q st ls :
  gives opts tls raw m p r -> standing st p ls ->
  (pt_phase p = stateTransaction -> pt_phase (re_state r) = stateTransaction) ->
  answers (m;;; ret q) st (mkReply (re_text r) (re_state r) (q || re_stop r)) ls.
Proof using Hcfg.
  intros Hm [Hw Ha Hwt] Hp. destruct (Hm _ _ Ha) as (c' & D & A).
  destruct (D st eq_refl Hw) as (st' & E & [W O C I]).
  exists st', q, (re_stop r). unfold bind. rewrite E. split; [done|]. split; [|done].
  assert (reader (conn st') = reader (conn st)) as Hr.
  { change (reader (conn st')) with (reader (norm (conn st'))). rewrite C. by destruct A. }
  split; auto; [by rewrite C, Hr|]. intros _. eapply waiting_phase; [|exact Hp].
  by eapply waiting_same.
Qed.

Lemma answers_eq m st r r' ls : answers m st r ls -> r = r' -> answers m st r' ls.
Proof. by intros ? <-. Qed.

Lemma reply_eta (r : Reply (Sess := Sess)) : mkReply (re_text r) (re_state r) (false || re_stop r) = r.
Proof. by destruct r. Qed.

(** Logged in stays logged in. *)
Lemma transaction_phase cmd args p :
  pt_phase (re_state (in_transaction_state opts int_width tls cmd args p)) = pt_phase p.
Proof.
  unfold in_transaction_state, reply_capa, reply_stat, reply_list, reply_uidl, reply_retr, reply_top,
    reply_dele, reply_quit, reply_lang, reply_utf8, reply_unknown, done_or, answer, items, message,
    failed, refused, says, stopping, with_sess, with_error.
  repeat case_match; done.
Qed.

Lemma dispatchUnknown_answers cx cmd args p st ls :
  standing st p ls ->
  answers (dispatchUnknown opts cx cmd args) st (reply_unknown cmd p) ls.
Proof using Hcfg.
  intros [Hw Ha Hwt].
  destruct (dispatchUnknown_gives opts tls raw (pc_write _ _ Hcfg) cx cmd args p (pc_unknown _ _ Hcfg) _ _ Ha)
    as (c' & D & A).
  destruct (D st eq_refl Hw) as (st' & E & [W O C I]).
  exists st', false, false. split; [done|]. split; [|done].
  assert (reader (conn st') = reader (conn st)) as Hr.
  { change (reader (conn st')) with (reader (norm (conn st'))). rewrite C. by destruct A. }
  split; auto; [by rewrite C, Hr|]. intros _. by eapply waiting_same.
Qed.

Lemma dispatchTransaction_answers cx cmd args p st ls :
  pt_phase p = stateTransaction -> standing st p ls ->
  answers (dispatchTransaction opts int_width cx cmd args) st
    (in_transaction_state opts int_width tls cmd args p) ls.
Proof using Hcfg.
  intros Hp Hs. pose proof (pc_write _ _ Hcfg) as Hd.
  pose proof (transaction_phase cmd args p) as Hph. revert Hph.
  unfold dispatchTransaction, in_transaction_state.
  repeat case_goal; intros Hph; last (by apply dispatchUnknown_answers).
  10: eapply answers_eq; [eapply gives_answers with (q := true);
       [apply handleQuit_gives|exact Hs|intros _; rewrite <- Hp; exact Hph]|done].
  all: eapply answers_eq; [eapply gives_answers with (q := false);
       [|exact Hs|intros _; rewrite <- Hp; exact Hph]|apply reply_eta].
  all: auto using handleCapa_gives, handleStat_gives, handleList_gives, handleUidl_gives, handleRetr_gives,
    handleTop_gives, handleDele_gives, handleRset_gives, handleNoop_gives, handleLang_gives, handleUTF8_gives.
  apply gives_says. intros st1 c Hc. by apply does_err.
Qed.

(** ** AUTH, which may read a line of its own *)

(** [m] returns [a] from a connection that represents [p], writing [t] and
    going to [p1]. *)
Definition steps {A} (m : M A) p (t : bytes) (a : A) (p1 : Proto Sess) : Prop :=
  forall c rd, abs tls raw rd c p false ->
  exists c1, (forall st, norm (conn st) = c -> does opts m st t c1 a) /\ abs tls raw rd c1 p1 false.

Definition settles (m : M unit) st (r : Reply) (ls : list bytes) : Prop :=
  exists st', m st = (st', Val tt) /\ landed st r ls st' (re_stop r).

Lemma landed_after st st1 t r ls st' cp :
  out st1 = out st ++ t -> landed st1 r ls st' cp ->
  landed st (mkReply (t ++ re_text r) (re_state r) (re_stop r)) ls st' cp.
Proof. intros Ho [W O A Hw]. split; auto. by rewrite O, Ho, <- app_assoc. Qed.

Lemma settles_bind {A} (m0 : M A) (k : A -> M unit) t a p p1 st r ls ls' :
  steps m0 p t a p1 -> pt_phase p1 = pt_phase p -> standing st p ls ->
  (forall st1, standing st1 p1 ls -> settles (k a) st1 r ls') ->
  settles (bind m0 k) st (mkReply (t ++ re_text r) (re_state r) (re_stop r)) ls'.
Proof.
  intros Hm Hp [Hw Ha Hwt] Hk. destruct (Hm _ _ Ha) as (c1 & D & A1).
  destruct (D st eq_refl Hw) as (st1 & E & [W O C I]).
  assert (reader (conn st1) = reader (conn st)) as Hr.
  { change (reader (conn st1)) with (reader (norm (conn st1))). rewrite C. by destruct A1. }
  destruct (Hk st1) as (st2 & E2 & L2).
  { split; auto; [by rewrite C, Hr|]. rewrite Hp. by eapply waiting_same. }
  exists st2. unfold bind. rewrite E. split; [done|]. by eapply landed_after.
Qed.

Lemma settles_gives m p st r ls :
  gives opts tls raw m p r -> pt_phase p = stateAuthorization -> standing st p ls -> settles m st r ls.
Proof using Hcfg.
  intros Hm Hp Hs. destruct (gives_answers m p r false st ls Hm Hs) as (st' & q & cp & E & L & Hst).
  { by rewrite Hp. }
  destruct r as [t pr stop]. unfold bind in E. destruct (m st) as [st1 [[]| |]] eqn:Em; try done.
  injection E as <- <-. exists st1. split; [done|]. simpl in *. subst stop. exact L.
Qed.

Lemma steps_allowed p : steps (authAllowed opts) p [] (auth_open opts tls) p.
Proof.
  intros c rd Ha. exists c. split; [|done]. intros st Hc. unfold authAllowed, auth_open.
  rewrite <- (abs_tls _ _ _ _ _ _ Ha).
  change (@nil Init.Byte.byte) with (@nil Init.Byte.byte ++ []). eapply does_bind.
  - by apply does_getc.
  - intros st1 Hc1. by apply does_ret.
Qed.

Lemma steps_assert {A} (f : Sess -> option A) p : steps (assert_session f) p [] (f (pt_sess p)) p.
Proof. intros c rd Ha. exists c. split; [|done]. intros st Hc. apply does_assert; [done|by destruct Ha]. Qed.

Lemma steps_call {A} me (f : Sess -> Prog Sess A) pf p :
  (forall s, f s = pure_prog (pf s)) ->
  steps (call opts me f) p [] (pf (pt_sess p)).2 (with_sess (pf (pt_sess p)).1 p).
Proof. intros Hf c rd Ha. by eapply call_pure. Qed.

Lemma bind_assoc {A B C} (m : M A) (f : A -> M B) (k : B -> M C) st :
  bind (bind m f) k st = bind m (fun x => bind (f x) k) st.
Proof. unfold bind. by destruct (m st) as [st1 [a| |]]. Qed.

(** The continuation line of AUTH PLAIN. *)
Lemma read_standing st p l ls :
  standing st p (l :: ls) ->
  exists st', (arm_read opts;;; r <- readLine opts;; modn (SetReadDeadline None);;; ret r) st
      = (st', Val (if too_long opts l then inr (ESentinel errLineTooLong) else inl (chomp l)))
    /\ out st' = out st /\ works opts st' /\ abs tls raw (reader (conn st')) (norm (conn st')) p false
    /\ (too_long opts l = false -> waiting st' (pt_phase p) ls).
Proof using Hcfg.
  intros [Hw Ha Hwt]. assert (state (conn st) = pt_phase p) as Hst by by destruct Ha.
  rewrite <- Hst in Hwt. destruct (read_next st l ls Hwt) as (st1 & E & ((r & Hc) & (Hwi & Hws & Hwd & _ & _) & _) & Hw1).
  exists (mkSt (conn st1) (SetReadDeadline None (net st1)) (handshakes st1) (log st1)).
  split.
  { unfold bind in *. destruct (arm_read opts st) as [st0 [[]| |]]; try done. by rewrite E. }
  simpl in *. unfold out, works, written, writable in *. simpl. rewrite Hc in *. simpl. rewrite Hwi, Hws.
  split_and!; try done; try apply Hw; try (left; exact (pc_write _ _ Hcfg)); [destruct Ha; by split|]. intros Ht.
  rewrite <- Hst. destruct (Hw1 Ht) as (Hl & T & HT & Hy). split; [done|]. exists T. split; [done|].
  rewrite Hc in Hy. exact Hy.
Qed.

(** The client falls silent: the read ends in a timeout. *)
Lemma read_standing_silent st p :
  standing st p [] ->
  exists st', (arm_read opts;;; r <- readLine opts;; modn (SetReadDeadline None);;; ret r) st
      = (st', Val (inr timeoutError))
    /\ out st' = out st /\ works opts st' /\ abs tls raw (reader (conn st')) (norm (conn st')) p false.
Proof using Hcfg.
  intros [Hw Ha (_ & T & HT & Hy)]. assert (state (conn st) = pt_phase p) as Hst by by destruct Ha.
  rewrite <- Hst in HT. pose proof (yields_later _ _ _ _ _ Hy HT) as Hy'.
  destruct (readLine_silent opts (armed st) _ Hy' eq_refl) as (st1 & E & ((r & Hc) & (Hwi & Hws & Hwd & _ & _) & _)).
  exists (mkSt (conn st1) (SetReadDeadline None (net st1)) (handshakes st1) (log st1)).
  split; [unfold bind; by rewrite arm_read_eq, E|].
  simpl in *. unfold out, works, written, writable in *. simpl. rewrite Hc. simpl. rewrite Hwi, Hws.
  split_and!; try done; try apply Hw; [left; exact (pc_write _ _ Hcfg)|]. by destruct Ha; split.
Qed.

Definition continue_auth cx (x : SessionSASL Sess) (r : result bytes) : M unit :=
  match r with
  | inr _ => modc (set_closePending true)
  | inl line => auth_plain opts cx x (trim_space line)
  end.

(** The continuation, with the read in one piece. *)
Lemma auth_continuation_eq cx (x : SessionSASL Sess) st :
  (r <- auth_continuation opts;; match r with None => ret tt | Some e => auth_plain opts cx x e end) st
  = (WriteString opts (str "+ " ++ crlf);;; flush opts;;;
     r <- (arm_read opts;;; r <- readLine opts;; modn (SetReadDeadline None);;; ret r);;
     continue_auth cx x r) st.
Proof.
  unfold auth_continuation, bind. destruct (WriteString _ _ st) as [st1 [[]| |]]; [|done|done].
  destruct (flush opts st1) as [st2 [e| |]]; [|done|done].
  destruct (arm_read opts st2) as [st3 [[]| |]]; [|done|done].
  by destruct (readLine opts st3) as [st4 [[l|e']| |]].
Qed.

(** The answer to the continuation. *)
Definition continued (ls : list bytes) p : Reply * bool :=
  match head ls with
  | None => (mkReply (str "+ " ++ crlf) p true, false)
  | Some l =>
    if too_long opts l then (mkReply (str "+ " ++ crlf) p true, false)
    else
      let r := reply_plain opts (trim_space (chomp l)) p in
      (mkReply (str "+ " ++ crlf ++ re_text r) (re_state r) (re_stop r), true)
  end.

Lemma continuation_settles cx x p st ls :
  (forall cx i u pw s, AuthenticatePlain x cx i u pw s = pure_prog (p_Plain i u pw s)) ->
  pt_phase p = stateAuthorization -> standing st p ls ->
  settles (r <- auth_continuation opts;; match r with None => ret tt | Some e => auth_plain opts cx x e end) st
    (continued ls p).1 (if (continued ls p).2 then tail ls else ls).
Proof using Hcfg.
  intros Hx Hp Hs. unfold settles. rewrite auth_continuation_eq. fold (settles
    (WriteString opts (str "+ " ++ crlf);;; flush opts;;;
     r <- (arm_read opts;;; r <- readLine opts;; modn (SetReadDeadline None);;; ret r);;
     continue_auth cx x r) st (continued ls p).1 (if (continued ls p).2 then tail ls else ls)).
  set (after := match head ls with
    | Some l => if too_long opts l then mkReply [] p true else reply_plain opts (trim_space (chomp l)) p
    | None => mkReply [] p true end).
  assert ((continued ls p).1 = mkReply ((str "+ " ++ crlf) ++ re_text (mkReply ([] ++ re_text after)
     (re_state after) (re_stop after))) (re_state after) (re_stop after)) as ->.
  { subst after. unfold continued. destruct (head ls) as [l|]; [|done]. by destruct (too_long opts l). }
  eapply (settles_bind _ _ _ _ p p _ (mkReply ([] ++ re_text after) (re_state after) (re_stop after)));
    [|done|exact Hs|].
  { intros c rd Ha. exists c. split; [|done]. intros st1 Hc. by apply does_WriteString. }
  intros st1 Hs1. eapply (settles_bind _ _ _ _ p p _ after); [|done|exact Hs1|].
  { intros c rd Ha. exists c. split; [|done]. intros st2 Hc. by apply does_flush. }
  clear st1 Hs1 st Hs. intros st Hs. unfold settles, bind at 1. subst after. unfold continued.
  assert (forall st' stop, out st' = out st -> works opts st' -> abs tls raw (reader (conn st')) (norm (conn st')) p false ->
    exists st'', modc (set_closePending true) st' = (st'', Val tt)
      /\ landed st (mkReply [] p true) stop st'' true) as Hclose.
  { intros st' stop Ho Hw Ha. eexists. split; [reflexivity|].
    split; [exact Hw|rewrite app_nil_r; exact Ho|by destruct Ha; split|done]. }
  destruct ls as [|l ls]; simpl.
  - destruct (read_standing_silent st p Hs) as (st' & -> & Ho & Hw & Ha). by apply Hclose.
  - destruct (read_standing st p l ls Hs) as (st' & -> & Ho & Hw & Ha & Hwt).
    destruct (too_long opts l); [by apply Hclose|]. simpl.
    destruct (settles_gives _ _ st' _ ls (auth_plain_gives opts tls raw (pc_write _ _ Hcfg) cx x (trim_space (chomp l)) p Hx) Hp)
      as (st2 & E2 & L2); [by split; auto|].
    exists st2. split; [exact E2|]. destruct L2 as [W O A Hw2]. split; auto. by rewrite O, Ho.
Qed.

Lemma mechs_text (ms : list bytes) :
  (str "+OK" ++ crlf) ++ [] ++ concat (map (fun l => l ++ crlf) (map (fun m => m) ms)) ++ str "." ++ crlf
  = listing (str "+OK") ms.
Proof. unfold listing. by rewrite map_id, <- app_assoc. Qed.

Lemma handleAuth_settles cx args p st ls :
  pt_phase p = stateAuthorization -> standing st p ls ->
  settles (handleAuth opts cx args) st (reply_auth opts tls args (head ls) p).1
    (if (reply_auth opts tls args (head ls) p).2 then tail ls else ls).
Proof using Hcfg.
  intros Hp Hs. pose proof (pc_write _ _ Hcfg) as Hd. pose proof (sasl_pure (pt_sess p)) as Hsasl.
  assert (forall (r : Reply (Sess := Sess)), mkReply ([] ++ re_text r) (re_state r) (re_stop r) = r) as Heta by by intros [].
  assert (forall m r st p, pt_phase p = stateAuthorization -> gives opts tls raw m p r -> standing st p ls -> settles m st r ls) as Hgv.
  { intros. by eapply settles_gives. }
  unfold handleAuth, reply_auth. rewrite <- (Heta (_).1).
  eapply settles_bind; [apply steps_allowed|done|exact Hs|]. clear st Hs. intros st Hs.
  destruct (auth_open opts tls); simpl; [|by eapply Hgv; [exact Hp|by apply clientError_gives|]].
  rewrite <- (Heta (_).1). eapply settles_bind; [apply steps_assert|done|exact Hs|]. clear st Hs. intros st Hs.
  destruct has_SASL; simpl; [|rewrite Hsasl; by eapply Hgv; [exact Hp|by apply clientError_gives|]].
  destruct Hsasl as (x & -> & Hm & Hx).
  destruct args as [|a rest]; simpl.
  - eapply Hgv; [exact Hp| |exact Hs]. intros c rd Ha.
    destruct (call_pure opts tls raw MAuthenticateMechanisms _ p_Mechs p c rd Hm Ha) as (c1 & D1 & A1).
    exists c1. split; [|exact A1]. intros st1 Hc. eapply does_eq; [|by apply mechs_text|reflexivity].
    eapply does_bind; [by apply does_WriteString|]. intros st2 Hc2.
    eapply does_bind; [by apply D1|]. intros st3 Hc3.
    apply (listing_does opts (fun m => m)); [|done]. intros m st4 c4 Hc4.
    eapply does_bind; [by apply does_WriteString|]. intros st5 Hc5. by apply does_WriteString.
  - destruct (to_upper a =s? str "PLAIN"); simpl.
    2:{ rewrite <- (Heta (refused _ _)). eapply settles_bind with (p := p) (a := false) (p1 := p); [|done|exact Hs|].
        - intros c rd Ha. exists c. split; [|done]. intros st1 Hc. by apply does_ret.
        - intros st1 Hs1. by eapply Hgv; [exact Hp|by apply clientError_gives|]. }
    rewrite <- (Heta (_).1).
    eapply settles_bind with (p := p) (a := mechanismAdvertised (p_Mechs (pt_sess p)).2 (str "PLAIN"))
      (p1 := with_sess (p_Mechs (pt_sess p)).1 p); [|done|exact Hs|].
    { intros c rd Ha. destruct (steps_call MAuthenticateMechanisms _ p_Mechs p Hm c rd Ha) as (c1 & D1 & A1).
      exists c1. split; [|done]. intros st1 Hc. change (@nil Init.Byte.byte) with (@nil Init.Byte.byte ++ []).
      eapply does_bind; [by apply D1|]. intros st2 Hc2. by apply does_ret. }
    clear st Hs. intros st Hs. destruct (mechanismAdvertised _ _); simpl;
      [|by eapply Hgv; [|by apply clientError_gives|exact Hs]].
    destruct rest as [|i rest]; simpl.
    + by apply continuation_settles.
    + eapply Hgv; [|by apply auth_plain_gives|exact Hs]. done.
Qed.

(** ** Dispatch *)

Lemma settles_answers m st r ls : settles m st r ls -> answers (m;;; ret false) st r ls.
Proof.
  intros (st' & E & L). exists st', false, (re_stop r). unfold bind. rewrite E. by split_and!.
Qed.

Lemma dispatchAuth_answers cx cmd args p st ls :
  pt_phase p = stateAuthorization -> standing st p ls ->
  answers (dispatchAuth opts cx cmd args) st
    (in_authorization opts tls cmd raw args (head ls) p).1
    (if (in_authorization opts tls cmd raw args (head ls) p).2 then tail ls else ls).
Proof using Hcfg.
  intros Hp Hs. pose proof (pc_write _ _ Hcfg) as Hd. pose proof (pc_tls _ _ Hcfg) as Ht.
  unfold dispatchAuth, in_authorization.
  destruct (bytes_eqb_spec cmd (str "AUTH")) as [->|Hn].
  { by apply settles_answers, handleAuth_settles. }
  cbn [fst snd].
  assert (forall m r, gives opts tls raw m p r -> answers (m;;; ret false) st r ls) as Hgv.
  { intros m r Hm. by eapply settles_answers, settles_gives. }
  repeat case_goal; last (by apply dispatchUnknown_answers);
    try (apply Hgv; auto using handleCapa_gives, handleUser_gives, handlePass_gives, handleSTLS_gives,
      handleUTF8_gives, handleLang_gives, clientError_gives).
  - eapply answers_eq; [eapply gives_answers with (q := true); [|exact Hs|by rewrite Hp]|].
    + eapply (gives_says opts tls raw (ok opts (str "Goodbye"))). intros st1 c Hc. by apply does_ok.
    + done.
  - apply gives_says. intros st1 c Hc. by apply does_err.
Qed.

(** The answer to a line, and whether it used the next one. *)
Definition reply_to cmd args (next : option bytes) p : Reply * bool :=
  match pt_phase p with
  | stateAuthorization => in_authorization opts tls cmd raw args next p
  | stateTransaction => (in_transaction_state opts int_width tls cmd args p, false)
  end.

Lemma dispatch_answers cx cmd args p st ls :
  standing st p ls ->
  answers (dispatch opts int_width cx cmd args) st (reply_to cmd args (head ls) p).1
    (if (reply_to cmd args (head ls) p).2 then tail ls else ls).
Proof using Hcfg.
  intros Hs. assert (state (conn st) = pt_phase p) as Hst by by destruct Hs as [_ [] _].
  unfold dispatch, answers, bind at 1, getc, gets, reply_to. rewrite Hst. destruct (pt_phase p) eqn:Hp.
  - by apply dispatchAuth_answers.
  - by apply dispatchTransaction_answers.
Qed.

(** ** The end of a command *)

(** Everything written is on the wire. *)
Definition flushed st : Prop := wbuf (writer (conn st)) = [].

Lemma flush_flushes st :
  works opts st -> exists st', flush opts st = (st', Val None) /\ spoke opts [] (norm (conn st)) st st' /\ flushed st'.
Proof.
  intros Hw. destruct (does_flush opts st _ eq_refl Hw) as (st' & E & S). exists st'. split_and!; auto.
  unfold flush, with_writer, bind, getc, gets, lift_io in E.
  destruct (Flush _ _ _) as [n1 [[w1 e]|]] eqn:Ef; [|done]. injection E as <- ->.
  by apply Flush_result in Ef as [_ Hb]; apply Hb.
Qed.

Lemma abs_norm_raw rd c p cp : abs tls raw rd c p cp -> abs tls raw rd (norm c) p cp.
Proof. by intros []. Qed.

(** What follows an answer: the limit on errors, and the flush. *)
Lemma finish_command_answers cmd start q cp st st0 r ls :
  landed st0 r ls st cp -> re_stop r = q || cp ->
  exists st', finish_command opts cmd start q st
      = (st', Val (negb (re_stop r || over_limit opts (re_state r))))
    /\ out st' = out st ++ (if negb (re_stop r) && over_limit opts (re_state r)
                            then err_line (str "Too many errors, closing connection") else [])
    /\ flushed st' /\ works opts st' /\ abs tls raw (reader (conn st')) (norm (conn st')) (re_state r) cp
    /\ (re_stop r = false -> waiting st' (pt_phase (re_state r)) ls).
Proof.
  intros [Hw _ Ha Hwt] Hstop. unfold finish_command.
  assert (exists st1, (if OnCommand opts then
     t' <- gets (fun s => now (net s));; le <- getc lastErr;; emit_ev (EvOnCommand cmd (t' - start) le)
     else ret tt) st = (st1, Val tt) /\ conn st1 = conn st /\ net st1 = net st) as (st1 & E1 & Hc1 & Hn1).
  { destruct (OnCommand opts); eexists; (split; [reflexivity|done]). }
  unfold bind at 1. rewrite E1. clear E1.
  assert (works opts st1) as Hw1 by (unfold works; by rewrite Hc1, Hn1).
  assert (hijacked (conn st1) = false /\ closePending (conn st1) = cp
    /\ errorCount (conn st1) = pt_errors (re_state r)) as (Hh & Hcp & He) by (rewrite Hc1; by destruct Ha).
  set (over := over_limit opts (re_state r)).
  rewrite bind_getc, Hh, bind_getc, Hcp, <- Hstop.
  assert (forall k : bool -> M bool, bind (maxErrorsExceeded opts) k st1 = k over st1) as ->.
  { intros k. unfold maxErrorsExceeded, bind, getc, gets, over, over_limit. simpl. by rewrite He. }
  assert (exists st2, (if negb (re_stop r) && over
      then err opts (str "Too many errors, closing connection");;; ret true
      else ret (re_stop r)) st1 = (st2, Val (re_stop r || over))
    /\ spoke opts (if negb (re_stop r) && over then err_line (str "Too many errors, closing connection") else [])
        (norm (conn st1)) st1 st2) as (st2 & E2 & [W2 O2 C2 I2]).
  { destruct (negb (re_stop r) && over) eqn:Eo.
    - apply andb_true_iff in Eo as [Es ->]. rewrite orb_true_r.
      destruct (does_err opts (str "Too many errors, closing connection") st1 _ eq_refl Hw1) as (st2 & E & S).
      exists st2. unfold bind. by rewrite E.
    - exists st1. split; [|by apply spoke_refl]. by destruct (re_stop r), over. }
  unfold bind at 1. rewrite E2. unfold bind.
  destruct (flush_flushes st2 W2) as (st3 & E3 & [W3 O3 C3 I3] & F3). rewrite E3.
  assert (norm (conn st3) = norm (conn st)) as Hn by (by rewrite C3, C2, Hc1).
  assert (reader (conn st3) = reader (conn st)) as Hr by (exact (f_equal reader Hn)).
  exists st3. split; [done|]. split.
  { rewrite O3, O2, app_nil_r. unfold out. by rewrite Hc1, Hn1. }
  split; [done|]. split; [done|]. rewrite Hn, Hr. split; [done|]. intros Hns.
  eapply waiting_same; [by apply Hwt|done|]. rewrite <- Hn1. by etrans.
Qed.
End Command.

(** ** One round *)

(** The loop has ended in the machine's state [p]: everything is on the wire,
    the session is there. *)
Record over st p : Prop := mkOver {
  ov_flushed : flushed st;
  ov_session : session (conn st) = Some (pt_sess p);
  ov_hijacked : hijacked (conn st) = false
}.

Lemma abs_over raw rd st p cp : flushed st -> abs tls raw rd (norm (conn st)) p cp -> over st p.
Proof.
  intros Hf Ha. split; [done| |by destruct Ha].
  change (session (conn st)) with (session (norm (conn st))). by destruct Ha.
Qed.

Lemma standing_start cmd raw raw0 st p ls :
  standing raw0 st p ls -> standing raw (command_start cmd raw st) p ls.
Proof.
  intros [(Hw1 & Hw2 & Hw3 & Hw4) Ha Hwt]. split.
  - unfold works, writable. simpl. split_and!; [done..|]. by right.
  - by destruct Ha; split.
  - destruct Hwt as (Hl & T & HT & Hy). split; [done|]. by exists T.
Qed.

(** The machine's round for one line. *)
Definition round_text (r : Reply (Sess := Sess)) : bytes :=
  re_text r ++ (if negb (re_stop r) && over_limit opts (re_state r)
                then err_line (str "Too many errors, closing connection") else []).
Definition round_go (r : Reply (Sess := Sess)) : bool := negb (re_stop r || over_limit opts (re_state r)).

Lemma run_command_answers raw0 line st p ls :
  standing raw0 st p ls ->
  exists st', run_command opts int_width line st
      = (st', Val (round_go (respond opts int_width tls line (head ls) p).1))
    /\ out st' = out st ++ round_text (respond opts int_width tls line (head ls) p).1
    /\ over st' (re_state (respond opts int_width tls line (head ls) p).1)
    /\ (round_go (respond opts int_width tls line (head ls) p).1 = true ->
         standing (splitCommand line).2 st' (re_state (respond opts int_width tls line (head ls) p).1)
           (if (respond opts int_width tls line (head ls) p).2 then tail ls else ls)).
Proof using Hcfg.
  intros Hs. rewrite run_command_eq. unfold respond. destruct (splitCommand line) as [verb raw]. cbn [fst snd].
  set (cmd := to_upper verb). apply (standing_start cmd raw) in Hs.
  destruct (dispatch_answers raw (command_context opts (ctx (conn st)) (now (net st))) cmd (fields raw) p _ ls Hs)
    as (st1 & q & cp & E & L & Hstop).
  fold (reply_to raw cmd (fields raw) (head ls) p).
  set (r := (reply_to raw cmd (fields raw) (head ls) p).1) in *.
  destruct (finish_command_answers raw cmd (now (net st)) q cp st1 _ r _ L Hstop)
    as (st2 & E2 & O2 & F2 & W2 & A2 & Hw2).
  exists st2. unfold bind. rewrite E, E2. split; [done|].
  pose proof (ld_out _ _ _ _ _ _ L) as O1. split.
  { rewrite O2, O1. unfold round_text. by rewrite app_assoc. }
  split; [by eapply abs_over|]. intros Hgo. unfold round_go in Hgo.
  apply negb_true_iff, orb_false_iff in Hgo as [Hns _]. rewrite Hns in Hstop.
  symmetry in Hstop. apply orb_false_iff in Hstop as [_ ->]. split; auto.
Qed.

(** A failed read: the line was too long, or the client fell silent. *)
Lemma read_failed_answers e msg st raw p :
  works opts st -> abs tls raw (reader (conn st)) (norm (conn st)) p false ->
  (e = timeoutError /\ msg = str "Idle timeout, connection timed out")
    \/ (e = ESentinel errLineTooLong /\ msg = str "Line too long") ->
  exists st', read_failed opts e st = (st', Val tt) /\ out st' = out st ++ err_line msg /\ over st' p.
Proof using Hcfg.
  intros Hw Ha He.
  destruct (does_err opts msg st _ eq_refl Hw) as (st1 & E1 & [W1 O1 C1 I1]).
  destruct (flush_flushes st1 W1) as (st2 & E2 & [W2 O2 C2 I2] & F2).
  assert (exists st3, read_failed opts e st = (st3, Val tt) /\ conn st3 = conn st2 /\ net st3 = net st2)
    as (st3 & E3 & Hc3 & Hn3).
  { unfold read_failed. destruct He as [[-> ->]|[-> ->]].
    - change (isTimeout timeoutError) with true. cbn iota. unfold bind, getc, gets.
      destruct (Z.ltb_spec 0 (AbsoluteSessionTimeout opts)); [pose proof (pc_absolute _ _ Hcfg); lia|].
      simpl. rewrite E1, E2. destruct (OnTimeout opts); eexists; (split; [reflexivity|done]).
    - change (isTimeout (ESentinel errLineTooLong)) with false.
      change (is_sentinel errLineTooLong (ESentinel errLineTooLong)) with true. cbn iota.
      unfold bind. rewrite E1, E2. by exists st2. }
  exists st3. split; [done|]. unfold out. rewrite Hc3, Hn3. split.
  - fold (out st2). rewrite O2, app_nil_r. exact O1.
  - apply (abs_over raw (reader (conn st)) _ p false).
    + unfold flushed. by rewrite Hc3.
    + rewrite Hc3, C2, C1. exact Ha.
Qed.

(** One round of the loop, on the client's next line. *)
Lemma serve_step_line raw st p l ls :
  standing raw st p (l :: ls) ->
  let line := trim_space (chomp l) in
  let rr := respond opts int_width tls line (head ls) p in
  exists st' go, serve_step opts int_width st = (st', Val go)
    /\ if too_long opts l then go = false /\ out st' = out st ++ err_line (str "Line too long") /\ over st' p
       else if is_nil line then go = true /\ out st' = out st /\ standing raw st' p ls
       else go = round_go rr.1 /\ out st' = out st ++ round_text rr.1 /\ over st' (re_state rr.1)
            /\ (go = true -> standing (splitCommand line).2 st' (re_state rr.1) (if rr.2 then tail ls else ls)).
Proof using Hcfg.
  intros [Hw Ha Hwt] line rr. assert (state (conn st) = pt_phase p) as Hst by by destruct Ha.
  rewrite <- Hst in Hwt.
  destruct (read_next st l ls Hwt) as (st1 & E & ((r & Hc) & (Hwi & Hws & Hwd & _ & _) & _) & Hw1).
  assert (works opts st1) as W1.
  { simpl in *. unfold works, writable in *. rewrite Hc, Hws. split_and!; try apply Hw. left. exact (pc_write _ _ Hcfg). }
  assert (out st1 = out st) as O1 by (simpl in *; unfold out, written; by rewrite Hc, Hwi).
  assert (abs tls raw (reader (conn st1)) (norm (conn st1)) p false) as A1.
  { rewrite Hc. by destruct Ha; split. }
  assert (forall k : result bytes -> M bool, (arm_read opts;;; r <- readLine opts;; k r) st
    = k (if too_long opts l then inr (ESentinel errLineTooLong) else inl (chomp l)) st1) as Hk.
  { intros k. unfold bind in *. destruct (arm_read opts st) as [st0 [[]| |]]; try done. by rewrite E. }
  unfold serve_step. rewrite Hk. destruct (too_long opts l).
  - destruct (read_failed_answers (ESentinel errLineTooLong) (str "Line too long") st1 raw p W1 A1)
      as (st2 & E2 & O2 & V2); [by right|]. exists st2, false. unfold bind. rewrite E2.
    split; [done|]. by rewrite O2, O1.
  - specialize (Hw1 eq_refl). rewrite Hst in Hw1. assert (standing raw st1 p ls) as Hs1 by by split.
    cbn iota. fold line. destruct (is_nil line); [by exists st1, true|].
    destruct (run_command_answers raw line st1 p ls Hs1) as (st2 & E2 & O2 & V2 & S2).
    exists st2, (round_go rr.1). rewrite O2, O1. by split_and!.
Qed.

(** The last round: the client is silent. *)
Lemma serve_step_silent raw st p :
  standing raw st p [] ->
  exists st', serve_step opts int_width st = (st', Val false)
    /\ out st' = out st ++ err_line (str "Idle timeout, connection timed out") /\ over st' p.
Proof using Hcfg.
  intros [Hw Ha (_ & T & HT & Hy)]. assert (state (conn st) = pt_phase p) as Hst by by destruct Ha.
  rewrite <- Hst in HT. pose proof (yields_later _ _ _ _ _ Hy HT) as Hy'.
  destruct (readLine_silent opts (armed st) _ Hy' eq_refl) as (st1 & E & ((r & Hc) & (Hwi & Hws & Hwd & _ & _) & _)).
  simpl in *.
  assert (works opts st1) as W1.
  { unfold works, writable in *. rewrite Hc, Hws. split_and!; try apply Hw. left. exact (pc_write _ _ Hcfg). }
  assert (out st1 = out st) as O1 by (unfold out, written; by rewrite Hc, Hwi).
  assert (abs tls raw (reader (conn st1)) (norm (conn st1)) p false) as A1.
  { rewrite Hc. by destruct Ha; split. }
  destruct (read_failed_answers timeoutError (str "Idle timeout, connection timed out") st1 raw p W1 A1)
    as (st2 & E2 & O2 & V2); [by left|].
  exists st2. unfold serve_step, bind. rewrite arm_read_eq, E, E2. split; [done|]. by rewrite O2, O1.
Qed.

(** ** The whole conversation *)

(** Without a next line, none is used. *)
Lemma respond_unused line p : (respond opts int_width tls line None p).2 = false.
Proof.
  unfold respond, in_authorization, reply_auth. destruct (splitCommand line).
  repeat case_match; simpl in *; congruence.
Qed.

Lemma converse_line p l ls :
  too_long opts l = false -> is_nil (trim_space (chomp l)) = false ->
  let rr := respond opts int_width tls (trim_space (chomp l)) (head ls) p in
  converse opts int_width tls p (l :: ls)
  = round_text rr.1 ++ (if round_go rr.1
      then converse opts int_width tls (re_state rr.1) (if rr.2 then tail ls else ls) else []).
Proof.
  intros Ht Hn rr. cbn [converse]. rewrite Ht, Hn. fold rr.
  assert (ls = [] -> rr.2 = false) as Hu by (intros ->; apply respond_unused).
  destruct rr as [r used] eqn:Er. cbn [fst snd] in *. unfold round_text, round_go.
  destruct (re_stop r); simpl; [by rewrite !app_nil_r|].
  destruct (over_limit opts (re_state r)); simpl; [by rewrite app_nil_r|]. rewrite app_nil_r.
  destruct used; [|done]. destruct ls; [by specialize (Hu eq_refl) | done].
Qed.

Lemma final_state_line p l ls :
  too_long opts l = false -> is_nil (trim_space (chomp l)) = false ->
  let rr := respond opts int_width tls (trim_space (chomp l)) (head ls) p in
  final_state opts int_width tls p (l :: ls)
  = if round_go rr.1 then final_state opts int_width tls (re_state rr.1) (if rr.2 then tail ls else ls) else re_state rr.1.
Proof.
  intros Ht Hn rr. cbn [final_state]. rewrite Ht, Hn. fold rr.
  assert (ls = [] -> rr.2 = false) as Hu by (intros ->; apply respond_unused).
  destruct rr as [r used] eqn:Er. cbn [fst snd] in *. unfold round_go. destruct (_ || _); [done|]. simpl.
  destruct used; [|done]. destruct ls; [by specialize (Hu eq_refl) | done].
Qed.

Lemma serve_loop_converse k raw st p ls :
  standing raw st p ls -> (st_weight st < k)%nat ->
  exists st', serve_loop opts int_width k st = (st', Val tt)
    /\ out st' = out st ++ converse opts int_width tls p ls /\ over st' (final_state opts int_width tls p ls).
Proof using Hcfg.
  revert raw st p ls. induction k as [|k IH]; intros raw st p ls Hs Hk; [lia|].
  cbn [serve_loop]. unfold bind.
  destruct (serve_step_live opts int_width (pc_idle _ _ Hcfg) (pc_write _ _ Hcfg) st) as (_ & _ & Hlt).
  destruct ls as [|l ls].
  { destruct (serve_step_silent raw st p Hs) as (st1 & -> & O1 & V1). exists st1. by split_and!. }
  destruct (serve_step_line raw st p l ls Hs) as (st1 & go & E & Hcase). rewrite E in *. simpl in Hlt.
  destruct (too_long opts l) eqn:Et.
  { destruct Hcase as (-> & O & V). exists st1. cbn [converse final_state]. rewrite Et. by split_and!. }
  destruct (is_nil (trim_space (chomp l))) eqn:En.
  { destruct Hcase as (-> & O & Hs1). destruct (IH raw st1 p ls Hs1) as (st2 & E2 & O2 & V2); [pose proof (sm_weight _ _ _ (Hlt eq_refl)); lia|].
    exists st2. cbn [converse final_state]. rewrite Et, En. split_and!; [done|by rewrite O2, O|done]. }
  rewrite (converse_line p l ls Et En), (final_state_line p l ls Et En).
  destruct Hcase as (-> & O & V & Hs1). destruct (round_go _) eqn:Eg.
  - destruct (IH _ st1 _ _ (Hs1 eq_refl)) as (st2 & E2 & O2 & V2); [pose proof (sm_weight _ _ _ (Hlt eq_refl)); lia|].
    exists st2. split_and!; [done|by rewrite O2, O, app_assoc|done].
  - exists st1. split_and!; [done|by rewrite O, app_nil_r|done].
Qed.

(** Closing does not write. *)
Lemma close_wire st p :
  over st p ->
  exists st', close opts st = (st', Val tt) /\ wire (net st') = wire (net st)
    /\ session (conn st') = Some (p_Close (pt_sess p)).
Proof.
  intros [_ Hs Hh]. unfold close, bind, getc, gets. rewrite Hs. unfold call, bind, getc, gets. simpl.
  rewrite Hs, close_pure. simpl. rewrite Hh. by eexists.
Qed.

Lemma serve_conversation raw st p ls :
  standing raw st p ls ->
  exists st', serve opts int_width st = (st', Val tt)
    /\ wire (net st') = out st ++ ok_line (Greeting opts) ++ converse opts int_width tls p ls
    /\ session (conn st') = Some (p_Close (pt_sess (final_state opts int_width tls p ls))).
Proof using Hcfg.
  intros [Hw Ha Hwt].
  destruct (does_ok opts (Greeting opts) st _ eq_refl Hw) as (st1 & E1 & [W1 O1 C1 I1]).
  destruct (flush_flushes st1 W1) as (st2 & E2 & [W2 O2 C2 I2] & _).
  assert (norm (conn st2) = norm (conn st)) as Hn by by rewrite C2, C1.
  assert (reader (conn st2) = reader (conn st)) as Hr by exact (f_equal reader Hn).
  assert (standing raw st2 p ls) as Hs2.
  { split; [done|by rewrite Hn, Hr|]. eapply waiting_same; [done|done|by etrans]. }
  destruct (serve_loop_converse (Datatypes.S (st_weight st2)) raw st2 p ls Hs2) as (st3 & E3 & O3 & V3); [lia|].
  destruct (close_wire st3 _ V3) as (st4 & E4 & W4 & X4).
  assert (serve_body opts int_width st = (st3, Val tt)) as Hb by (unfold serve_body, bind; by rewrite E1, E2).
  eexists. split.
  - unfold serve, finally. rewrite Hb. unfold bind. rewrite E4. reflexivity.
  - cbn [net conn]. split; [|exact X4]. rewrite W4. destruct V3 as [F3 _ _]. unfold flushed in F3.
    assert (out st3 = wire (net st3)) as Ho3 by (unfold out, written; by rewrite F3, app_nil_r).
    by rewrite <- Ho3, O3, O2, app_nil_r, O1, <- app_assoc.
Qed.
End Loop.
