(* ===== verification/ConnTimeout.v ===== *)
(** * Time-outs and lines that are cut off

    What the command loop does when the next line does not arrive: when the
    client is silent until the read deadline, and when it stops in the middle of
    a line. *)
From S2P Require Import Prelude GoStrings GoConv Errors DotStuff Parse Net NetLive Session Options Mem ConnState ConnHandlers ConnServe Wire ConnFacts ConnFrame ConnTrace RefineInput RefineLoop Demo.

(** ** The buffered reader *)

(** Nothing arrives before [d]. *)
Definition silent_until (d : Z) (n : Net) : Prop :=
  match inbox n with [] => True | (t, _) :: _ => d <= Z.max (now n) t end.

Lemma net_read_late cap n d :
  rdl n = Some d -> silent_until d n -> net_read cap n = (wait_until d n, IoVal ([], Some timeoutError)).
Proof.
  unfold net_read, silent_until. intros Hd Hs. rewrite Hd. destruct (inbox n) as [|[t it] rest]; [done|].
  apply Z.leb_le in Hs. by rewrite Hs.
Qed.

(** The next read fails with [e], at once or at a deadline. *)
Definition cut_off (e : goerr) (n n' : Net) : Prop := forall cap, net_read cap n = (n', IoVal ([], Some e)).

Lemma silence_cuts n d : rdl n = Some d -> silent_until d n -> cut_off timeoutError n (wait_until d n).
Proof. intros Hd Hs cap. by apply net_read_late. Qed.

(** A line whose end does not come is a line; nothing at all is the error. *)
Lemma ReadLine_cut l n n' e :
  cut_off e n n' -> no_lf l -> (length l < bufsize)%nat ->
  ReadLine (mkReader l None) n
  = (n', IoVal (NewReader, match l with [] => ([], false, Some e) | _ => (l, false, None) end)).
Proof.
  intros Hc Hl Hb. unfold ReadLine, ReadSlice. pose proof bufsize_ge.
  replace (bufsize + 2)%nat with (S (S bufsize)) by lia. cbn [ReadSlice_go rbuf rerr].
  assert (index_byte l LF = None) as Hi.
  { apply index_func_None. eapply Forall_impl; [exact Hl|]. intros b. apply byte_eqb_neq. }
  rewrite Hi. destruct (Nat.leb_spec bufsize (length l)); [lia|].
  unfold fill. change 100%nat with (S 99). cbn [fill_go]. rewrite Hc. cbn [io_bind rbuf rerr].
  rewrite app_nil_r, Hi. by destruct l.
Qed.

(** ** The command loop *)

Section Loop.
Context {Sess : Type} `{Unicode} `{HS : Session Sess}.
Variable opts : Options Sess.
Variable int_width : Z.
Implicit Types st : St Sess.

(** The connection after the network was read. *)
Definition after_read (n : Net) st : St Sess :=
  mkSt (set_reader NewReader (conn st)) n (handshakes st) (log st).

Lemma readLine_cut l st n e :
  reader (conn st) = mkReader l None -> cut_off e (net st) n -> no_lf l -> (length l < bufsize)%nat ->
  (l <> [] -> blen l <= MaxLineLength opts) ->
  readLine opts st = (after_read n st, Val (match l with [] => inr e | _ => inl l end)).
Proof.
  intros Hr Hc Hl Hb Hm. unfold readLine.
  replace (Z.to_nat (MaxLineLength opts) + 2)%nat with (S (Z.to_nat (MaxLineLength opts) + 1)) by lia.
  cbn [readLine_go]. unfold readLine1, bind, getc, gets, lift_io.
  rewrite Hr, (ReadLine_cut l (net st) n e Hc Hl Hb). destruct l as [|b l]; [done|]. simpl.
  destruct (Z.ltb_spec (MaxLineLength opts) (blen (b :: l))); [specialize (Hm ltac:(done)); lia|done].
Qed.

(** The read deadline of a connection: the idle timeout of its state from now
    on, but not past the absolute limit. *)
Definition read_deadline st : option Z :=
  let idle := idle_of opts (state (conn st)) in
  let absolute := startTime (conn st) + AbsoluteSessionTimeout opts in
  if 0 <? AbsoluteSessionTimeout opts
  then Some (if 0 <? idle then Z.min (now (net st) + idle) absolute else absolute)
  else if 0 <? idle then Some (now (net st) + idle) else None.

Lemma nextReadDeadline_eq st : nextReadDeadline opts st = (st, Val (read_deadline st)).
Proof.
  unfold nextReadDeadline, read_deadline, bind, getc, gets. simpl. fold (idle_of opts (state (conn st))).
  destruct (0 <? AbsoluteSessionTimeout opts); [|by destruct (0 <? idle_of opts (state (conn st)))].
  destruct (0 <? idle_of opts (state (conn st))); [|done]. unfold ret. do 3 f_equal.
  case_match; bool_hyps; f_equal; lia.
Qed.

Definition with_deadline d st : St Sess := mkSt (conn st) (SetReadDeadline (Some d) (net st)) (handshakes st) (log st).

Lemma arm_read_deadline st d : read_deadline st = Some d -> arm_read opts st = (with_deadline d st, Val tt).
Proof. intros Hd. unfold arm_read, bind. by rewrite nextReadDeadline_eq, Hd. Qed.

(** Why a connection timed out. *)
Definition timeout_reason st : timeout_kind :=
  if (0 <? AbsoluteSessionTimeout opts)
     && ((idle_of opts (state (conn st)) <=? 0)
         || (startTime (conn st) + AbsoluteSessionTimeout opts <=? now (net st) + idle_of opts (state (conn st))))
  then TimeoutAbsolute else TimeoutIdle.

Definition timeout_text (k : timeout_kind) : bytes :=
  match k with
  | TimeoutAbsolute => str "[IN-USE] Maximum session duration exceeded"
  | TimeoutIdle => str "Idle timeout, connection timed out"
  end.

(** The elapsed time tells the two apart. *)
Lemma timeout_reason_elapsed st d :
  read_deadline st = Some d ->
  (0 <? AbsoluteSessionTimeout opts)
    && (AbsoluteSessionTimeout opts <=? Z.max (now (net st)) d - startTime (conn st))
  = match timeout_reason st with TimeoutAbsolute => true | TimeoutIdle => false end.
Proof.
  unfold read_deadline, timeout_reason. intros Hd.
  destruct (Z.ltb_spec 0 (AbsoluteSessionTimeout opts)); [|done]. cbn [andb].
  destruct (Z.ltb_spec 0 (idle_of opts (state (conn st)))), (Z.leb_spec (idle_of opts (state (conn st))) 0);
    try lia; injection Hd as <-; cbn [orb];
    repeat (match goal with |- context [?a <=? ?b] => destruct (Z.leb_spec a b) end); done || lia.
Qed.

(** Steps that take no time over a writer that works. *)
Definition prompt {A} (m : M Sess A) : Prop := forall st, works opts st ->
  works opts (m st).1 /\ now (net (m st).1) = now (net st).

Lemma prompt_bind {A B} (m : M Sess A) (k : A -> M Sess B) : prompt m -> (forall a, prompt (k a)) -> prompt (bind m k).
Proof.
  intros Hm Hk st Hw. destruct (Hm st Hw) as [W N]. unfold bind.
  destruct (m st) as [st1 [a| |]]; simpl in *; [|done|done]. destruct (Hk a st1 W). split; [done|congruence].
Qed.

Lemma prompt_with_writer {A} (f : Writer_ -> Net -> Net * io (Writer_ * A)) a :
  (forall w n, writable (WriteTimeout opts) w n -> exists w' n', f w n = (n', IoVal (w', a))
     /\ writable (WriteTimeout opts) w' n' /\ same_input n n') -> prompt (with_writer f).
Proof.
  intros Hf st Hw. destruct (Hf _ _ Hw) as (w' & n' & E & W & (N & _)).
  unfold with_writer, getc, gets, bind, lift_io. rewrite E. by split.
Qed.

Lemma prompt_WriteString s : prompt (WriteString opts s).
Proof.
  apply prompt_bind; [|by intros e st Hw]. apply prompt_with_writer with (a := None). intros w n Hw.
  destruct (wr_WriteString_ok _ s w n Hw) as (w' & n' & E & W & _ & I). by exists w', n'.
Qed.

Lemma prompt_flush : prompt (flush opts).
Proof.
  apply prompt_with_writer with (a := None). intros w n Hw.
  destruct (Flush_ok _ w n Hw) as (n' & E & W & _ & I). by exists (mkWriter [] None), n'.
Qed.

Lemma prompt_ok msg : prompt (ok opts msg).
Proof.
  unfold ok. destruct (is_nil msg); [|do 2 (apply prompt_bind; [apply prompt_WriteString|intros _])];
    apply prompt_WriteString.
Qed.

Lemma prompt_err msg : prompt (err opts msg).
Proof.
  unfold err. destruct (is_nil msg); [|do 2 (apply prompt_bind; [apply prompt_WriteString|intros _])];
    apply prompt_WriteString.
Qed.

(** A line for the client, and the flush, over a writer that works. *)
Lemma said_flush (m : M Sess unit) text st :
  does opts m st text (norm (conn st)) tt ->
  triple (fun _ : St Sess => True) (frame (fun _ => False)) m (fun _ _ => True) ->
  prompt m -> works opts st ->
  exists st', (m;;; flush opts) st = (st', Val None) /\ wire (net st') = out st ++ text
    /\ same_input (net st) (net st') /\ log st' = log st /\ norm (conn st') = norm (conn st) /\ works opts st'.
Proof.
  intros Hd Ht Hp Hw. destruct (Hd Hw) as (st1 & E1 & [W1 O1 C1 I1]).
  destruct (flush_flushes opts st1 W1) as (st2 & E2 & [W2 O2 C2 I2] & F2).
  exists st2. unfold bind. rewrite E1, E2. split; [done|].
  assert (forall s s' : St Sess, frame (fun _ => False) s s' -> log s' = log s) as Hlog.
  { intros s s' [(l & Hl & Hf & _) _ _ _ _ _ _ _]. rewrite Hl. destruct Hf; [by rewrite app_nil_r|done]. }
  destruct (Ht st I) as [H1%Hlog _]. rewrite E1 in H1.
  destruct (flush_frame opts (fun _ => False) (fun _ => True) st1 I) as [H2%Hlog _]. rewrite E2 in H2.
  destruct (prompt_bind m (fun _ => flush opts) Hp (fun _ => prompt_flush) st Hw) as [_ N].
  unfold bind in N. rewrite E1, E2 in N. cbn [fst] in N. destruct I1 as (B1 & R1 & _), I2 as (B2 & R2 & _).
  split_and!; [|split_and!; congruence|by etrans|congruence|done].
  unfold flushed in F2. assert (out st2 = wire (net st2)) as <- by (unfold out, written; by rewrite F2, app_nil_r).
  by rewrite O2, app_nil_r.
Qed.

Lemma err_flush st msg :
  works opts st ->
  exists st', (err opts msg;;; flush opts) st = (st', Val None) /\ wire (net st') = out st ++ err_line msg
    /\ same_input (net st) (net st') /\ log st' = log st /\ norm (conn st') = norm (conn st) /\ works opts st'.
Proof. apply said_flush; [by apply does_err|by frame_steps|apply prompt_err]. Qed.

Lemma ok_flush st msg :
  works opts st ->
  exists st', (ok opts msg;;; flush opts) st = (st', Val None) /\ wire (net st') = out st ++ ok_line msg
    /\ same_input (net st) (net st') /\ log st' = log st /\ norm (conn st') = norm (conn st) /\ works opts st'.
Proof. apply said_flush; [by apply does_ok|by frame_steps|apply prompt_ok]. Qed.

Lemma read_failed_timeout st :
  works opts st ->
  let k := if (0 <? AbsoluteSessionTimeout opts)
                && (AbsoluteSessionTimeout opts <=? now (net st) - startTime (conn st))
           then TimeoutAbsolute else TimeoutIdle in
  exists st', read_failed opts timeoutError st = (st', Val tt)
    /\ wire (net st') = out st ++ err_line (timeout_text k) /\ now (net st') = now (net st)
    /\ log st' = log st ++ (if OnTimeout opts then [EvOnTimeout k] else [])
    /\ norm (conn st') = norm (conn st).
Proof.
  intros Hw k. destruct (err_flush st (timeout_text k) Hw) as (st1 & E & O & (N & _ & _) & L & C & _).
  unfold read_failed. change (isTimeout timeoutError) with true. cbn iota.
  unfold bind at 1 2. cbn [getc gets]. subst k. unfold bind in *.
  destruct (_ && _); cbn [timeout_text] in *; destruct (err opts _ st) as [st0 [[]| |]]; try done;
    rewrite E; (destruct (OnTimeout opts); eexists; (split; [reflexivity|]); simpl; rewrite ?app_nil_r, ?L; by split_and!).
Qed.

(** A round in which nothing arrives. *)
Lemma serve_step_timeout st d :
  read_deadline st = Some d -> reader (conn st) = NewReader -> silent_until d (net st) ->
  works opts st -> 0 < WriteTimeout opts ->
  exists st', serve_step opts int_width st = (st', Val false)
    /\ now (net st') = Z.max (now (net st)) d
    /\ wire (net st') = out st ++ err_line (timeout_text (timeout_reason st))
    /\ log st' = log st ++ (if OnTimeout opts then [EvOnTimeout (timeout_reason st)] else [])
    /\ norm (conn st') = norm (set_reader NewReader (conn st)).
Proof.
  intros Hd Hr Hs Hw Hwt. set (n1 := wait_until d (SetReadDeadline (Some d) (net st))).
  set (st1 := after_read n1 st).
  assert (works opts st1) as Hw1.
  { destruct Hw as (He & Hb & Hsch & _). unfold works, writable. simpl. split_and!; [done..|by left]. }
  destruct (read_failed_timeout st1 Hw1) as (st2 & E & O & N & L & C).
  exists st2. unfold serve_step, bind. rewrite (arm_read_deadline st d Hd).
  assert (readLine opts (with_deadline d st) = (st1, Val (inr timeoutError))) as ->.
  { apply (readLine_cut [] (with_deadline d st) n1 timeoutError Hr); [|constructor| |done].
    - by apply silence_cuts.
    - pose proof bufsize_ge. simpl. lia. }
  rewrite E. change (now (net st1)) with (Z.max (now (net st)) d) in *.
  change (startTime (conn st1)) with (startTime (conn st)) in *.
  change (out st1) with (out st) in *. change (log st1) with (log st) in *.
  rewrite (timeout_reason_elapsed st d Hd) in *.
  split_and!; [done|done|rewrite O|rewrite L|done]; by destruct (timeout_reason st).
Qed.
End Loop.

(** C24: time-outs.  A client from which nothing arrives until the read deadline
    is told so exactly at the deadline (at once if it has passed): that the
    session has lasted too long when the absolute limit came first, else that it
    was idle; the hook is called with the same reason, the response is sent and
    the loop ends. *)
Theorem silent_client_timed_out (Sess : Type) `{Unicode} `{Session Sess} (opts : Options Sess) int_width
    (st : St Sess) d :
  read_deadline opts st = Some d -> reader (conn st) = NewReader -> silent_until d (net st) ->
  works opts st -> 0 < WriteTimeout opts ->
  exists st', serve_step opts int_width st = (st', Val false)
    /\ now (net st') = Z.max (now (net st)) d
    /\ wire (net st') = out st ++ err_line (timeout_text (timeout_reason opts st))
    /\ log st' = log st ++ (if OnTimeout opts then [EvOnTimeout (timeout_reason opts st)] else []).
Proof.
  intros Hd Hr Hs Hw Hwt.
  destruct (serve_step_timeout opts int_width st d Hd Hr Hs Hw Hwt) as (st' & E & N & O & L & _). by exists st'.
Qed.

Lemma silent_client_timed_out_witness :
  let st := mkSt (newConn (demo_options 0) None None 3) (mkNet 7 [] None None [] []) [] [] in
  let o := mkOptions (PRet tt (inl (mkMem demo_store NewSession))) false [] [] 600 0 50 0 60 true 1024 10
              false 0 0 [] [] false None false false true in
  exists st', serve_step o 64 st = (st', Val false) /\ now (net st') = 53
    /\ log st' = [EvOnTimeout TimeoutAbsolute].
Proof.
  intros st o.
  destruct (silent_client_timed_out MemSession o 64 st 53) as (st' & E & N & _ & L);
    [reflexivity|reflexivity|exact I| |reflexivity|exists st'; by split_and!].
  split_and!; [reflexivity|vm_compute; lia|constructor|by left].
Defined.

(** C39: a line that is cut off is executed.  When the client stops in the middle
    of a command line, by falling silent until the deadline, by closing its side
    or by a broken connection, the part that arrived is dispatched like a whole
    line, and neither the time-out nor the error is seen. *)
Theorem cut_line_is_executed (Sess : Type) `{Unicode} `{Session Sess} (opts : Options Sess) int_width
    (st st1 : St Sess) l e n :
  arm_read opts st = (st1, Val tt) -> reader (conn st1) = mkReader l None ->
  no_lf l -> (length l < bufsize)%nat -> blen l <= MaxLineLength opts -> is_nil (trim_space l) = false ->
  cut_off e (net st1) n ->
  serve_step opts int_width st = run_command opts int_width (trim_space l) (after_read n st1).
Proof.
  intros Ha Hr Hl Hb Hm Ht Hc. unfold serve_step, bind. rewrite Ha.
  rewrite (readLine_cut opts l st1 n e Hr Hc Hl Hb) by done.
  destruct l as [|b l]; [done|]. by rewrite Ht.
Qed.

(** The client sent QUIT without a line ending, and closed. *)
Lemma cut_line_is_executed_witness :
  let st := mkSt (set_state stateTransaction (set_session (Some (mkMem demo_store NewSession))
                   (set_reader (mkReader (str "QUIT") None) (newConn (demo_options 0) None None 3))))
              (mkNet 7 [(9, NEOF)] None None [] []) [] [] in
  let st1 := with_deadline (7 + 600000000000) st in
  serve_step (demo_options 0) 64 st
  = run_command (demo_options 0) 64 (str "QUIT") (after_read (wait_until 9 (net st1)) st1).
Proof.
  intros st st1.
  apply (cut_line_is_executed MemSession (demo_options 0) 64 st st1 (str "QUIT") (ESentinel EOF) (wait_until 9 (net st1)));
    [vm_compute; reflexivity|reflexivity|repeat constructor; vm_compute; discriminate| |vm_compute; discriminate
    |vm_compute; reflexivity|intros cap; reflexivity].
  pose proof bufsize_ge. apply Nat.ltb_lt. vm_compute. reflexivity.
Defined.

(** ** A silent connection *)

Section Silent.
Context {Sess : Type} `{Unicode} `{HS : Session Sess}.
Variable opts : Options Sess.
Variable int_width : Z.
Hypothesis Hidle : 0 < idle_of opts stateAuthorization.
Hypothesis Habs : AbsoluteSessionTimeout opts <= 0.
Hypothesis Hwrite : 0 < WriteTimeout opts.

Lemma read_deadline_idle (st : St Sess) :
  state (conn st) = stateAuthorization ->
  read_deadline opts st = Some (now (net st) + idle_of opts stateAuthorization).
Proof using Hidle Habs.
  intros Hs. unfold read_deadline. rewrite Hs. destruct (Z.ltb_spec 0 (AbsoluteSessionTimeout opts)); [lia|].
  by destruct (Z.ltb_spec 0 (idle_of opts stateAuthorization)); [|lia].
Qed.

(** The greeting, the wait, the farewell. *)
Lemma serve_body_silent (st : St Sess) :
  state (conn st) = stateAuthorization -> reader (conn st) = NewReader -> inbox (net st) = [] -> works opts st ->
  exists st', serve_body opts int_width st = (st', Val tt)
    /\ now (net st') = now (net st) + idle_of opts stateAuthorization
    /\ log st' = log st ++ (if OnTimeout opts then [EvOnTimeout TimeoutIdle] else [])
    /\ session (conn st') = session (conn st) /\ hijacked (conn st') = hijacked (conn st).
Proof using Hidle Habs Hwrite.
  intros Hs Hr Hi Hw.
  destruct (ok_flush opts st (Greeting opts) Hw) as (st1 & E1 & _ & (N1 & I1 & _) & L1 & C1 & W1).
  assert (state (conn st1) = stateAuthorization) as Hs1 by (etrans; [exact (f_equal state C1)|done]).
  destruct (serve_step_timeout opts int_width st1 (now (net st1) + idle_of opts stateAuthorization))
    as (st2 & E2 & N2 & _ & L2 & C2).
  - by apply read_deadline_idle.
  - etrans; [exact (f_equal reader C1)|done].
  - unfold silent_until. by rewrite I1, Hi.
  - done.
  - done.
  - exists st2. split.
    { unfold serve_body. unfold bind in *. destruct (ok opts (Greeting opts) st) as [s0 [[]| |]]; try done.
      rewrite E1. cbn [serve_loop]. unfold bind. by rewrite E2. }
    split; [lia|]. assert (timeout_reason opts st1 = TimeoutIdle) as Hk.
    { unfold timeout_reason. by destruct (Z.ltb_spec 0 (AbsoluteSessionTimeout opts)); [lia|]. }
    rewrite L2, L1, Hk. split; [done|].
    split; [exact (eq_trans (f_equal session C2) (f_equal session C1))
           |exact (eq_trans (f_equal hijacked C2) (f_equal hijacked C1))].
Qed.
End Silent.

(** C40: cancelling the server's context does not wake a connection that waits
    for a command: a client that stays silent holds its connection, and with it
    [Close], for the whole idle timeout, whenever the context is cancelled. *)
Theorem cancellation_does_not_wake (Sess : Type) `{Unicode} `{Session Sess} (opts : Options Sess) int_width nc cancel n hs s s' :
  Options.NewSession opts = PRet tt (inl s) -> s_Close s = PRet s' tt ->
  0 < idle_of opts stateAuthorization -> AbsoluteSessionTimeout opts <= 0 -> 0 < WriteTimeout opts ->
  inbox n = [] -> Forall (fun x => x = WOk) (wsched n) ->
  let r := ServeConn opts int_width nc cancel n hs in
  r.2 = Val tt
  /\ now (net r.1) = now n + idle_of opts stateAuthorization
  /\ log r.1 = (if OnTimeout opts then [EvOnTimeout TimeoutIdle] else [])
       ++ [EvCall MClose (state (conn r.1)) (isTLS (conn r.1)); EvNetClose; EvCancel].
Proof.
  intros Hn Hc Hi Ha Hw Hin Hws.
  set (st := mkSt (set_session (Some s) (newConn opts nc cancel (now n))) n hs []).
  destruct (serve_body_silent opts int_width Hi Ha Hw st) as (st1 & E1 & N1 & L1 & S1 & J1);
    [done|done|done|unfold works, writable; simpl; split_and!; [done|lia|done|by left]|].
  assert (handleConn_go opts int_width (conn_start opts nc cancel n hs) = serve opts int_width st) as Hh.
  { unfold handleConn_go, bind. by rewrite Hn. }
  assert (serve opts int_width st = (mkSt (set_session (Some s') (conn st1)) (net st1) (handshakes st1)
    (log st1 ++ [EvCall MClose (state (conn st1)) (isTLS (conn st1)); EvNetClose; EvCancel]), Val tt)) as Hs.
  { unfold serve, finally. rewrite E1. unfold close, call, bind, getc, gets, emit_ev, ret. simpl in *.
    rewrite S1. simpl. rewrite S1. simpl. rewrite Hc. simpl. rewrite J1. simpl. by rewrite <- !app_assoc. }
  unfold ServeConn, recoverConn. fold (conn_start opts nc cancel n hs). rewrite Hh, Hs. simpl. simpl in L1.
  by rewrite L1.
Qed.

Lemma cancellation_does_not_wake_witness :
  now (net (ServeConn (demo_options 0) 64 None (Some 5) (mkNet 0 [] None None [] []) []).1) = 0 + 600000000000.
Proof.
  apply (cancellation_does_not_wake MemSession (demo_options 0) 64 None (Some 5) (mkNet 0 [] None None [] []) []
    (mkMem demo_store NewSession) (mkMem demo_store NewSession)); try reflexivity; constructor.
Defined.
