(* ===== verification/ConnHijack.v ===== *)
(** * Hijacked connections

    What [Hijack] promises to a session that takes a connection over: the
    command loop stops, the connection is neither answered nor closed, what the
    client already sent is handed over; and the things it leaves behind. *)
From S2P Require Import Prelude GoStrings GoConv Errors DotStuff Parse Net Session Options ConnState ConnHandlers ConnServe Wire Spec Demo ConnFacts ConnFrame ConnAuth ConnTrace ConnSafety RefineInput ConnTimeout.

(** A proxy: a session that takes the connection over once it was given
    credentials, and then answers as [px_answer] says. *)
Record Proxy := mkProxy { px_answer : option goerr }.

Definition take_over (s : Proxy) : Prog Proxy (option goerr) :=
  PHijack (fun e => PRet s (match e with Some _ => e | None => px_answer s end)).

Definition proxy_sasl : SessionSASL Proxy :=
  mkSASL _ (fun s => PRet s [str "PLAIN"]) (fun _ _ _ _ => take_over).

#[export] Instance proxy_session : Session Proxy := {|
  s_Close s := PRet s tt;
  s_Login _ _ _ := take_over;
  s_Stat _ s := PRet s (inl (0, 0));
  s_List _ _ s := PRet s (inl []);
  s_Uidl _ _ s := PRet s (inl []);
  s_Retr _ _ s := PRet s (inr (EPlain []));
  s_Top _ _ _ s := PRet s (inr (EPlain []));
  s_Dele _ _ s := PRet s None;
  s_Rset _ s := PRet s None;
  s_Noop _ s := PRet s None;
  s_Quit _ s := PRet s (inl 0);
  as_SASL _ := Some proxy_sasl;
  as_Lang _ := None;
  as_UTF8 _ := None
|}.

#[export] Instance proxy_tls_stable : TLSStable Proxy.
Proof. constructor. intros x s [= <-] s'. constructor. Qed.

Definition proxy_options (answer : option goerr) : Options Proxy :=
  defaults (mkOptions (PRet tt (inl (mkProxy answer))) false [] [] 0 0 0 0 0 true 0 0
              false 0 0 [] [] false None false false false).

(** ** Methods that take the connection over *)

(** The error of a second [Hijack]. *)
Definition already_hijacked : goerr := EPlain (str "pop3server: connection already hijacked").

(** With the TLS flag [tls], and the connection hijacked or not, the program ends
    in [s'] and returns [e], the connection hijacked, having written no response
    of its own. *)
Inductive takes_over {Sess : Type} (s' : Sess) (e : option goerr) : bool -> bool -> Prog Sess (option goerr) -> Prop :=
| to_hijack tls k : takes_over s' e tls true (k None) -> takes_over s' e tls false (PHijack k)
| to_again tls k : takes_over s' e tls true (k (Some already_hijacked)) -> takes_over s' e tls true (PHijack k)
| to_work tls h d p : takes_over s' e tls h p -> takes_over s' e tls h (PWork d p)
| to_settls tls h v p : takes_over s' e v h p -> takes_over s' e tls h (PSetTLS v p)
| to_istls tls h k : takes_over s' e tls h (k tls) -> takes_over s' e tls h (PIsTLS k)
| to_ret tls : takes_over s' e tls true (PRet s' e).

(** A write under a timeout arms the write deadline anew. *)
Lemma net_write_arms wt p n :
  0 < wt -> Forall (fun x => x = WOk) (wsched n) ->
  exists n', net_write wt p n = (n', IoVal (length p, None))
    /\ wdl n' = Some (now n + wt) /\ wire n' = wire n ++ p /\ same_input n n'.
Proof.
  intros Ht Hs. destruct n as [t ib r w ws wi]. unfold net_write. apply Z.ltb_lt in Ht as Hlt. rewrite Hlt. cbn in *.
  destruct (Z.leb_spec (t + wt) t); [lia|].
  destruct Hs as [|x ws -> Hs]; (eexists; split; [reflexivity|]; by split_and!).
Qed.

Section Hijack.
Context {Sess : Type} `{Unicode} `{HS : Session Sess}.
Variable opts : Options Sess.
Variable int_width : Z.
Implicit Types st : St Sess.

(** Neither the client nor the network saw anything of what happened from [st] to
    [st'], and nothing was read. *)
Record untouched st st' : Prop := mkUntouched {
  un_reader : reader (conn st') = reader (conn st);
  un_state : state (conn st') = state (conn st);
  un_inbox : inbox (net st') = inbox (net st);
  un_wire : wire (net st') = wire (net st);
  un_rdl : rdl (net st') = rdl (net st);
  un_wdl : wdl (net st') = wdl (net st);
  un_log : exists l, log st' = log st ++ l /\ EvNetClose ∉ l
}.

#[export] Instance untouched_pre : PreOrder untouched.
Proof.
  split.
  - intros st. split; try done. exists []. rewrite app_nil_r. by split; [|apply not_elem_of_nil].
  - intros a b c [?? ????(l & El & Hl)] [?? ????(k & Ek & Hk)]. split; try congruence.
    exists (l ++ k). rewrite Ek, El, app_assoc. split; [done|]. rewrite elem_of_app. by intros [?|?].
Qed.

Lemma untouched_emit e st : e <> EvNetClose -> untouched st (emit_ev e st).1.
Proof. intros He. split; try done. exists [e]. split; [done|]. by rewrite list_elem_of_singleton. Qed.

(** The connection was hijacked on the way. *)
Definition hijack_logged st st' : Prop := exists l, log st' = log st ++ l /\ EvHijack ∈ l.

Lemma hijack_logged_after a b c : untouched a b -> hijack_logged b c -> hijack_logged a c.
Proof.
  intros [_ _ _ _ _ _ (l & El & _)] (k & Ek & Hk). exists (l ++ k). rewrite Ek, El, app_assoc.
  split; [done|]. apply elem_of_app. by right.
Qed.

Lemma hijack_logged_before a b c : hijack_logged a b -> untouched b c -> hijack_logged a c.
Proof.
  intros (l & El & Hl) [_ _ _ _ _ _ (k & Ek & _)]. exists (l ++ k). rewrite Ek, El, app_assoc.
  split; [done|]. apply elem_of_app. by left.
Qed.

(** The connection hijacked: its session, and what the buffered writer holds. *)
Record handed_over (s : Sess) (t : bytes) st : Prop := mkHanded {
  ho_hijacked : hijacked (conn st) = true;
  ho_session : session (conn st) = Some s;
  ho_writer : writer (conn st) = mkWriter t None
}.

(** ** Buffered responses *)

(** A text that fits is kept in the buffer. *)
Lemma WriteString_kept s st :
  werr (writer (conn st)) = None -> (length (wbuf (writer (conn st)) ++ s) <= bufsize)%nat ->
  WriteString opts s st
  = (mkSt (set_writer (mkWriter (wbuf (writer (conn st)) ++ s) None) (conn st)) (net st) (handshakes st) (log st), Val tt).
Proof.
  intros He Hl. unfold WriteString, with_writer, bind, getc, gets, lift_io, wr_WriteString.
  rewrite length_app in Hl. replace (2 * length s + 2)%nat with (S (2 * length s + 1)) by lia. cbn [write_go].
  destruct (Nat.ltb_spec (Available (writer (conn st))) (length s)); [unfold Available in *; lia|].
  simpl. by rewrite He.
Qed.

Lemma err_kept msg st :
  writer (conn st) = NewWriter -> (length (err_line msg) <= bufsize)%nat ->
  err opts msg st
  = (mkSt (set_writer (mkWriter (err_line msg) None) (conn st)) (net st) (handshakes st) (log st), Val tt).
Proof.
  intros Hw Hl. unfold err, err_line, status_line in *.
  destruct (is_nil msg); [rewrite WriteString_kept; rewrite Hw; done|].
  rewrite !length_app in Hl. simpl in Hl. unfold bind.
  repeat (rewrite WriteString_kept; cbn [conn writer set_writer wbuf werr net handshakes log];
    [|by rewrite ?Hw|rewrite ?Hw; cbn [NewWriter wbuf]; rewrite ?length_app; simpl; lia]).
  rewrite Hw. cbn [NewWriter wbuf app]. by rewrite <- !app_assoc.
Qed.

(** What the library queues for the client after the method returned [e]. *)
Definition unsent (e : option goerr) : bytes :=
  match e with Some e => err_line (error_text opts e) | None => [] end.

Lemma sessionError_kept e st :
  writer (conn st) = NewWriter -> (length (unsent (Some e)) <= bufsize)%nat ->
  exists st', sessionError opts e st = (st', Val tt) /\ untouched st st'
    /\ hijacked (conn st') = hijacked (conn st) /\ session (conn st') = session (conn st)
    /\ writer (conn st') = mkWriter (unsent (Some e)) None.
Proof.
  unfold unsent, sessionError, error_text. intros Hw Hl. unfold bind at 1. unfold modc at 1.
  destruct (as_error e) as [pe|]; [|destruct (is_sentinel ErrCloseConnection e); [|destruct (StrictSessionErrors opts)]];
    cbn [orb] in *; unfold bind; rewrite err_kept by done;
    try (destruct (Close pe)); (eexists; split; [reflexivity|]; split_and!; try done; split; try done;
      exists []; rewrite app_nil_r; by split; [|apply not_elem_of_nil]).
Qed.

(** ** The method and what follows it *)

Lemma run_takes_over upd s' e tls h p st :
  (forall st, upd s' st = (mkSt (set_session (Some s') (conn st)) (net st) (handshakes st) (log st), Val tt)) ->
  takes_over s' e tls h p ->
  state (conn st) = stateAuthorization -> hijacked (conn st) = h -> isTLS (conn st) = tls ->
  writer (conn st) = NewWriter ->
  exists st', run opts upd p st = (st', Val e) /\ untouched st st' /\ handed_over s' [] st'
    /\ (h = false -> hijack_logged st st').
Proof.
  intros Hu Ht. revert st. induction Ht as [tls k _ IH|tls k _ IH|tls h d p _ IH|tls h v p _ IH|tls h k _ IH|tls];
    intros st Hst Hh Htls Hw.
  - set (st1 := mkSt (set_hijacked true (conn st)) (net st) (handshakes st) (log st ++ [EvHijack])).
    assert (Hijack opts st = (st1, Val None)) as Hj by (destruct st as [[] n hs lg]; cbn in *; by subst).
    destruct (IH st1) as (st' & E & U & Ho & _); [done..|]. exists st'. cbn [run]. unfold bind. rewrite Hj, E.
    destruct U as [?? ? ? ? ? (l & El & Hl)]. split_and!; try done.
    + split; try done. exists ([EvHijack] ++ l). rewrite El, app_assoc. split; [done|]. by intros [|]%elem_of_cons.
    + intros _. exists ([EvHijack] ++ l). rewrite El, app_assoc. split; [done|]. by left.
  - assert (Hijack opts st = (st, Val (Some already_hijacked))) as Hj by (destruct st as [[] n hs lg]; cbn in *; by subst).
    destruct (IH st) as (st' & E & U & Ho & _); [done..|]. exists st'. cbn [run]. unfold bind. by rewrite Hj, E.
  - destruct (IH (mkSt (conn st) (wait_until (now (net st) + d) (net st)) (handshakes st) (log st)))
      as (st' & E & U & Ho & Hl); [done..|]. exists st'. split; [exact E|]. by destruct U.
  - destruct (IH (mkSt (set_isTLS v (conn st)) (net st) (handshakes st) (log st)))
      as (st' & E & U & Ho & Hl); [done..|]. exists st'. split; [exact E|]. by destruct U.
  - cbn [run]. unfold bind, IsTLS, getc, gets. rewrite Htls. by apply IH.
  - eexists. cbn [run]. unfold bind. rewrite Hu. split; [reflexivity|]. split_and!; try done.
    split; try done. exists []. rewrite app_nil_r. by split; [|apply not_elem_of_nil].
Qed.

(** On a connection that waits for credentials nothing is queued for the client. *)
Record awaiting (s : Sess) st : Prop := mkAwaiting {
  aw_state : state (conn st) = stateAuthorization;
  aw_session : session (conn st) = Some s;
  aw_allowed : InsecureAuth opts || isTLS (conn st) = true;
  aw_hijacked : hijacked (conn st) = false;
  aw_writer : writer (conn st) = NewWriter
}.

Lemma countError_untouched st :
  exists st', (if AuthFailuresExemptFromMaxErrors opts then ret tt else countError) st = (st', Val tt)
    /\ untouched st st' /\ hijacked (conn st') = hijacked (conn st) /\ session (conn st') = session (conn st)
    /\ writer (conn st') = writer (conn st).
Proof.
  destruct (AuthFailuresExemptFromMaxErrors opts); [by exists st|].
  eexists. split; [reflexivity|]. split_and!; try done. split; try done. exists [EvFail].
  split; [done|]. by rewrite list_elem_of_singleton.
Qed.

Lemma applyErrorDelay_untouched st :
  exists st', applyErrorDelay opts st = (st', Val tt) /\ untouched st st' /\ conn st' = conn st.
Proof.
  unfold applyErrorDelay. destruct (_ <=? _); [by exists st|]. eexists. split; [reflexivity|].
  split; [|done]. cbn. split; try done; cbn; try (by case_match).
  exists []. rewrite app_nil_r. by split; [|apply not_elem_of_nil].
Qed.

(** The end of a login on a hijacked connection. *)
Lemma auth_result_hijacked s e st :
  handed_over s [] st -> (length (unsent e) <= bufsize)%nat ->
  exists st', auth_result opts e st = (st', Val tt) /\ untouched st st' /\ handed_over s (unsent e) st'.
Proof.
  intros [Hh Hs Hw] Hl. unfold auth_result. destruct e as [e|].
  - destruct (countError_untouched st) as (st1 & E1 & U1 & H1 & S1 & W1).
    destruct (applyErrorDelay_untouched st1) as (st2 & E2 & U2 & C2).
    destruct (sessionError_kept e st2) as (st3 & E3 & U3 & H3 & S3 & W3); [by rewrite C2, W1|done|].
    exists st3. unfold bind. rewrite E1, E2, E3. split; [done|]. split; [by etrans; [|etrans]|].
    split; [|congruence|done]. by rewrite H3, C2, H1.
  - exists st. unfold bind, getc, gets. by rewrite Hh.
Qed.

Lemma hand_over m (f : Sess -> Prog Sess (option goerr)) s s' e st :
  awaiting s st -> takes_over s' e (isTLS (conn st)) false (f s) -> (length (unsent e) <= bufsize)%nat ->
  exists st', (r <- call opts m f;; auth_result opts r) st = (st', Val tt)
    /\ untouched st st' /\ handed_over s' (unsent e) st' /\ hijack_logged st st'.
Proof.
  intros [Hst Hs Ha Hh Hw] Ht Hl. unfold call, bind, getc, gets. cbn. rewrite Hs.
  set (st0 := mkSt _ _ _ _).
  destruct (run_takes_over (fun s' => modc (set_session (Some s'))) s' e _ _ _ st0 ltac:(done) Ht Hst Hh eq_refl Hw)
    as (st1 & -> & U1 & Ho1 & Hj). specialize (Hj eq_refl).
  destruct (auth_result_hijacked s' e st1 Ho1 Hl) as (st2 & -> & U2 & Ho2).
  exists st2. split; [done|]. split_and!; [|done|].
  - etrans; [|by etrans; [exact U1|exact U2]]. by apply (untouched_emit (EvCall m _ _)).
  - apply (hijack_logged_after st st0); [by apply (untouched_emit (EvCall m _ _))|]. by eapply hijack_logged_before.
Qed.

(** The loop ends after it. *)
Lemma finish_hijacked cmd start quit s t st :
  handed_over s t st ->
  exists st', finish_command opts cmd start quit st = (st', Val false) /\ untouched st st' /\ handed_over s t st'.
Proof.
  intros [Hh Hs Hw]. unfold finish_command. destruct (OnCommand opts).
  - exists (emit_ev (EvOnCommand cmd (now (net st) - start) (lastErr (conn st))) st).1.
    unfold bind, getc, gets, emit_ev. cbn. rewrite Hh. split; [done|].
    split; [by apply (untouched_emit (EvOnCommand cmd _ _))|by split].
  - exists st. unfold bind, getc, gets. cbn. by rewrite Hh.
Qed.

(** A command whose handler handed the connection over, and the loop's end. *)
Lemma run_hijacked line s t st st1 :
  (dispatch opts int_width (command_context opts (ctx (conn st)) (now (net st)))
    (to_upper (splitCommand line).1) (fields (splitCommand line).2)
    (command_start (to_upper (splitCommand line).1) (splitCommand line).2 st)) = (st1, Val false) ->
  handed_over s t st1 ->
  exists st', run_command opts int_width line st = (st', Val false) /\ untouched st1 st' /\ handed_over s t st'.
Proof.
  intros Hd Ho. destruct (finish_hijacked (to_upper (splitCommand line).1) (now (net st)) false s t st1 Ho)
    as (st' & E & U & Ho'). exists st'. rewrite run_command_eq. unfold bind. by rewrite Hd, E.
Qed.

Lemma handlePass_hijacked user pass cx s s' e st :
  awaiting s st -> username (conn st) = user -> rawArg (conn st) = pass ->
  is_nil user = false -> is_nil pass = false ->
  takes_over s' e (isTLS (conn st)) false (s_Login cx user pass s) -> (length (unsent e) <= bufsize)%nat ->
  exists st', handlePass opts cx st = (st', Val tt)
    /\ untouched st st' /\ handed_over s' (unsent e) st' /\ hijack_logged st st'.
Proof.
  intros Ha Hu Hp Hnu Hnp Ht Hl. destruct (hand_over MLogin (s_Login cx user pass) s s' e st Ha Ht Hl) as (st' & E & R).
  exists st'. split; [|exact R]. unfold handlePass, authAllowed. unfold bind at 1 2 3, getc, gets, ret.
  rewrite (aw_allowed _ _ Ha). cbn [negb]. unfold bind at 1. cbv beta iota. rewrite Hu, Hnu.
  unfold bind at 1. cbv beta iota. rewrite Hp, Hnp. exact E.
Qed.

(** ** The continuation of AUTH PLAIN *)

(** A flush arms the write deadline anew. *)
Lemma flush_arms b st :
  0 < WriteTimeout opts -> Forall (fun x => x = WOk) (wsched (net st)) ->
  writer (conn st) = mkWriter b None -> b <> [] ->
  exists n, flush opts st = (mkSt (set_writer NewWriter (conn st)) n (handshakes st) (log st), Val None)
    /\ wdl n = Some (now (net st) + WriteTimeout opts) /\ wire n = wire (net st) ++ b /\ same_input (net st) n.
Proof.
  intros Ht Hs Hw Hb.
  destruct (net_write_arms (WriteTimeout opts) b (net st) Ht Hs) as (n & E & R). exists n. split; [|exact R].
  unfold flush, with_writer, bind, getc, gets, lift_io, Flush. rewrite Hw. cbn [werr wbuf].
  destruct b as [|b0 b]; [done|]. rewrite E. cbn [io_bind]. by rewrite Nat.ltb_irrefl.
Qed.

Lemma arm_read_sets st :
  rdl (net st) = None ->
  arm_read opts st
  = (mkSt (conn st) (SetReadDeadline (read_deadline opts st) (net st)) (handshakes st) (log st), Val tt).
Proof.
  intros Hr. unfold arm_read, bind. rewrite nextReadDeadline_eq. destruct (read_deadline opts st); [done|].
  destruct st as [c [] hs lg]. cbn in *. by subst.
Qed.

(** The prompt is sent, and the next line read: the write deadline stays. *)
Lemma continuation_arms l t st :
  0 < WriteTimeout opts -> Forall (fun x => x = WOk) (wsched (net st)) ->
  writer (conn st) = NewWriter -> rdl (net st) = None -> no_lf l -> too_long opts l = false ->
  yields (reader (conn st)) (SetReadDeadline (read_deadline opts st) (net st)) (l ++ LF :: t) ->
  exists st' r, auth_continuation opts st = (st', Val (Some (trim_space (chomp l))))
    /\ conn st' = set_reader r (conn st) /\ log st' = log st
    /\ rdl (net st') = None /\ wdl (net st') = Some (now (net st) + WriteTimeout opts)
    /\ wire (net st') = wire (net st) ++ str "+ " ++ crlf.
Proof.
  intros Ht Hs Hw Hr Hl Htl Hy. unfold auth_continuation, bind.
  rewrite WriteString_kept; rewrite Hw; [|done|pose proof bufsize_z; simpl; lia].
  cbn [wbuf NewWriter app]. set (st1 := mkSt _ _ _ _).
  destruct (flush_arms (str "+ " ++ crlf) st1 Ht Hs eq_refl ltac:(done)) as (n & -> & Hd & Hwire & Hn & Hi & Hrd).
  cbn [st1 net conn handshakes log now inbox rdl] in *.
  rewrite arm_read_sets by (cbn; congruence). set (st2 := mkSt _ _ _ _).
  assert (read_deadline opts (mkSt (set_writer NewWriter (set_writer (mkWriter (str "+ " ++ crlf) None) (conn st))) n (handshakes st) (log st))
    = read_deadline opts st) as Hdl by (unfold read_deadline; cbn; by rewrite Hn).
  destruct (readLine_yields opts st2 l t) as (st3 & -> & ((r & Hc) & (Hw3 & _ & Hwd3 & _) & _ & Hlog) & _); [|done|].
  { unfold yields in *. subst st2. cbn [net conn reader set_writer inbox rdl now SetReadDeadline] in *.
    rewrite Hdl, Hi, Hn. exact Hy. }
  rewrite line_result_nil, Htl. subst st2. cbn in *. exists (mkSt (conn st3) (SetReadDeadline None (net st3)) (handshakes st3) (log st3)), r.
  split; [reflexivity|]. cbn. rewrite Hc, Hlog, Hwd3, Hw3, Hd, Hwire. split_and!; try done.
  rewrite <- Hw. by destruct (conn st).
Qed.

(** How the credentials of AUTH PLAIN reach the handler: with the command, or on
    the next line, in time. *)
Inductive credentials st : list bytes -> bytes -> Prop :=
| cr_initial enc rest : credentials st (enc :: rest) enc
| cr_continued l t :
    no_lf l -> too_long opts l = false ->
    yields (reader (conn st)) (SetReadDeadline (read_deadline opts st) (net st)) (l ++ LF :: t) ->
    credentials st [] (trim_space (chomp l)).

Lemma auth_plain_hijacked cx x enc i u pw s s' e st :
  awaiting s st -> decodeSASLPlain enc = inl (i, u, pw) ->
  takes_over s' e (isTLS (conn st)) false (AuthenticatePlain x cx i u pw s) -> (length (unsent e) <= bufsize)%nat ->
  exists st', auth_plain opts cx x enc st = (st', Val tt)
    /\ untouched st st' /\ handed_over s' (unsent e) st' /\ hijack_logged st st'.
Proof.
  intros Ha Hd Ht Hl. unfold auth_plain. destruct (enc =s? str "*") eqn:E.
  - apply bytes_eqb_eq in E as ->. vm_compute in Hd. discriminate.
  - rewrite Hd. by eapply hand_over.
Qed.

Lemma handleAuth_hijacked cx a rest enc x ms i u pw s s1 s' e st :
  awaiting s st -> as_SASL s = Some x -> AuthenticateMechanisms x s = PRet s1 ms ->
  mechanismAdvertised ms (str "PLAIN") = true -> to_upper a = str "PLAIN" ->
  0 < WriteTimeout opts -> Forall (fun x => x = WOk) (wsched (net st)) ->
  rdl (net st) = None -> wdl (net st) = None ->
  credentials st rest enc -> decodeSASLPlain enc = inl (i, u, pw) ->
  takes_over s' e (isTLS (conn st)) false (AuthenticatePlain x cx i u pw s1) -> (length (unsent e) <= bufsize)%nat ->
  exists st', handleAuth opts cx (a :: rest) st = (st', Val tt)
    /\ handed_over s' (unsent e) st' /\ hijack_logged st st' /\ rdl (net st') = None
    /\ wdl (net st') = match rest with [] => Some (now (net st) + WriteTimeout opts) | _ => None end
    /\ wire (net st') = wire (net st) ++ match rest with [] => str "+ " ++ crlf | _ => [] end.
Proof.
  intros [Hst Hse Hal Hh Hw] Hx Hm Hadv Hpl Ht Hs Hrd Hwd Hcr Hdec Hto Hl.
  set (st1 := mkSt (set_session (Some s1) (conn st)) (net st) (handshakes st)
                (log st ++ [EvCall MAuthenticateMechanisms stateAuthorization (isTLS (conn st))])).
  assert (forall B (k : SessionSASL Sess -> bool -> M Sess B),
    (x <- assert_session as_SASL;;
     match x with
     | Some x => adv <- (mechs <- call opts MAuthenticateMechanisms (AuthenticateMechanisms x);;
                         ret (mechanismAdvertised mechs (str "PLAIN")));; k x adv
     | None => block
     end) st = k x true st1) as Hcall.
  { intros B k. unfold assert_session, call, bind, getc, gets, emit_ev, ret, modc. cbn -[mechanismAdvertised str]. rewrite Hse, Hx. cbn -[mechanismAdvertised str]. rewrite Hse, Hm. cbn -[mechanismAdvertised str].
    by rewrite Hadv, Hst. }
  assert (awaiting s1 st1) as Ha1 by by split.
  assert (exists st2 st', awaiting s1 st2 /\ log st2 = log st1 /\ isTLS (conn st2) = isTLS (conn st)
     /\ rdl (net st2) = None /\ wdl (net st2) = match rest with [] => Some (now (net st) + WriteTimeout opts) | _ => None end
     /\ wire (net st2) = wire (net st) ++ match rest with [] => str "+ " ++ crlf | _ => [] end
     /\ handleAuth opts cx (a :: rest) st = auth_plain opts cx x enc st2) as (st2 & _ & Ha2 & Hlog2 & Htls & R2 & W2 & O2 & ->).
  { unfold handleAuth, authAllowed. unfold bind at 1 2, getc at 1, gets at 1, ret at 1. rewrite Hal. cbn [negb].
    unfold bind at 1, assert_session at 1. unfold bind at 1, getc at 1, gets at 1, ret at 1. rewrite Hse, Hx.
    specialize (Hcall unit (fun x adv => if negb adv then clientError opts (str "Unsupported SASL mechanism") else
       match rest with initial :: _ => auth_plain opts cx x initial
       | [] => r <- auth_continuation opts;; match r with None => ret tt | Some encoded => auth_plain opts cx x encoded end end)).
    unfold bind at 1, assert_session at 1 in Hcall. unfold bind at 1, getc at 1, gets at 1, ret at 1 in Hcall.
    rewrite Hse, Hx in Hcall. rewrite Hpl. change (str "PLAIN" =s? str "PLAIN") with true. cbv iota.
    rewrite Hcall. cbn [negb]. destruct Hcr as [enc rest|l t Hnl Htl Hy].
    - exists st1, st1. split_and!; try done. cbn. by rewrite app_nil_r.
    - destruct (continuation_arms l t st1 Ht Hs Hw Hrd Hnl Htl Hy) as (st3 & r & E3 & Hc & Hlog & R3 & W3 & O3).
      exists st3, st3. split_and!; try done; [split; by rewrite Hc|by rewrite Hc|]. unfold bind. by rewrite E3. }
  destruct (auth_plain_hijacked cx x enc i u pw s1 s' e st2 Ha2 Hdec) as (st' & E & U & Ho & Hj); [by rewrite Htls|done|].
  exists st'. destruct U. split_and!; try congruence. destruct Hj as (l & El & Hj).
  exists (EvCall MAuthenticateMechanisms stateAuthorization (isTLS (conn st)) :: l).
  rewrite El, Hlog2. cbn. rewrite <- app_assoc. split; [done|]. by right.
Qed.

Lemma close_hijacked s s' st :
  ConnState.session (conn st) = Some s -> hijacked (conn st) = true -> s_Close s = PRet s' tt ->
  net (close opts st).1 = net st
  /\ log (close opts st).1 = log st ++ [EvCall MClose (state (conn st)) (isTLS (conn st))].
Proof.
  intros Hs Hh Hc. unfold close, call, bind, getc, gets, emit_ev, modc, ret. cbn. rewrite Hs. cbn. rewrite Hs, Hc.
  cbn. by rewrite Hh.
Qed.
End Hijack.

(** ** Properties *)

(** C25: the hand-over.  On a connection on which nothing is queued for the
    client, a PASS whose Login hijacks the connection - and does whatever else a
    session may do but write a response of its own - ends the command loop with
    nothing written and no deadline set, and leaves every byte the client sent
    after the line in the reader that was handed over, or still to be read.  When
    Login returns nil nothing is queued either; when it returns an error the -ERR
    response is queued as on any other connection, but, as long as it fits the
    buffer, never sent: the loop ends without a flush and the teardown does not
    write. *)
Theorem hijack_hands_over (Sess : Type) `{Unicode} `{Session Sess} (opts : Options Sess) int_width
    user pass s s' e line verb (st : St Sess) :
  awaiting opts s st -> username (conn st) = user -> is_nil user = false -> is_nil pass = false ->
  splitCommand line = (verb, pass) -> to_upper verb = str "PASS" ->
  takes_over s' e (isTLS (conn st)) false
    (s_Login (command_context opts (ctx (conn st)) (now (net st))) user pass s) ->
  (length (unsent opts e) <= bufsize)%nat ->
  exists st', run_command opts int_width line st = (st', Val false)
    /\ hijacked (conn st') = true /\ ConnState.session (conn st') = Some s' /\ state (conn st') = stateAuthorization
    /\ writer (conn st') = mkWriter (unsent opts e) None /\ wire (net st') = wire (net st)
    /\ rdl (net st') = None /\ wdl (net st') = None
    /\ reader (conn st') = reader (conn st) /\ inbox (net st') = inbox (net st)
    /\ (exists l, log st' = log st ++ EvCommand (str "PASS") :: l /\ EvHijack ∈ l /\ EvNetClose ∉ l)
    /\ (forall s'', s_Close s' = PRet s'' tt ->
         wire (net (close opts st').1) = wire (net st) /\ EvNetClose ∉ drop (length (log st)) (log (close opts st').1)).
Proof.
  intros Ha Hu Hnu Hnp Hsp Hv Ht Hl. set (st1 := command_start (str "PASS") pass st).
  assert (awaiting opts s st1) as Ha1 by (destruct Ha; by split).
  destruct (handlePass_hijacked opts user pass _ s s' e st1 Ha1 Hu eq_refl Hnu Hnp Ht Hl) as (st2 & E2 & U2 & Ho2 & Hj).
  destruct (run_hijacked opts int_width line s' (unsent opts e) st st2) as (st' & E & U & [Hh Hs Hw]); [|done|].
  { rewrite Hsp. cbn [fst snd]. rewrite Hv. unfold dispatch. rewrite bind_getc.
    change (state (conn (command_start (str "PASS") pass st))) with (state (conn st)). rewrite (aw_state _ _ _ Ha).
    change ((handlePass opts (command_context opts (ctx (conn st)) (now (net st)));;; ret false) st1 = (st2, Val false)).
    unfold bind. by rewrite E2. }
  assert (untouched st1 st') as [Ur Us Ui Uw Urd Uwd (l & El & Hl1)] by by etrans.
  destruct (hijack_logged_before _ _ _ Hj U) as (k & Ek & Hk). rewrite El in Ek. apply app_inv_head in Ek as <-.
  assert (log st' = log st ++ EvCommand (str "PASS") :: l) as Elog by (rewrite El; cbn; by rewrite <- app_assoc).
  exists st'. split_and!; try done; [by rewrite Us; apply Ha|by exists l|].
  intros s'' Hcl. destruct (close_hijacked opts s' s'' st' Hs Hh Hcl) as (Hnet & Hlog). rewrite Hnet, Hlog, Elog.
  split; [done|]. rewrite <- app_assoc, drop_app_length.
  intros Hin%elem_of_app. destruct Hin as [[|]%elem_of_cons|Hin%list_elem_of_singleton]; done.
Qed.

Lemma hijack_hands_over_witness :
  let e := Some (EPlain (str "backend down")) in
  let o := proxy_options e in
  let st := mkSt (set_session (Some (mkProxy e)) (set_username (str "alice") (newConn o None None 0)))
              (mkNet 7 [(9, NBytes (str "STAT"))] (Some 600) None [] []) [] [] in
  exists st', run_command o 64 (str "pass s3cret") st = (st', Val false)
    /\ writer (conn st') = mkWriter (str "-ERR backend down" ++ crlf) None /\ wire (net st') = []
    /\ inbox (net st') = [(9, NBytes (str "STAT"))].
Proof.
  intros e o st.
  destruct (hijack_hands_over Proxy o 64 (str "alice") (str "s3cret") (mkProxy e) (mkProxy e) e
    (str "pass s3cret") (str "pass") st) as (st' & E & _ & _ & _ & Hw & Hn & _ & _ & _ & Hi & _);
    [by split|reflexivity..| |vm_compute; lia|].
  - apply to_hijack. apply to_ret.
  - exists st'. split; [exact E|]. split; [exact Hw|]. split; [exact Hn|exact Hi].
Defined.

(** C10: a hijacked connection is left alone.  Once a command has hijacked the
    connection no further command is dispatched, and unless consumer code panics
    the network connection is not closed: not by the command loop, not by the
    teardown, not even when [Close] itself hijacked it. *)
Theorem hijack_detaches (Sess : Type) `{Unicode} `{Session Sess} `{!TLSStable Sess}
    (opts : Options Sess) int_width nc cancel n hs pre post :
  log (ServeConn opts int_width nc cancel n hs).1 = pre ++ EvHijack :: post ->
  is_Some (last_command pre) ->
  Forall (fun e => is_command e = false) post
  /\ (~ panics opts int_width nc cancel n hs -> EvNetClose ∉ post).
Proof.
  intros Heq [c Hc]. destruct (ServeConn_shape opts int_width nc cancel n hs) as (q & l & z & Hl & Hq & Hh & Hz).
  assert (forall e, ending e -> is_command e = false) as Hen by by intros [].
  rewrite Heq in Hl. symmetry in Hl. apply app_eq_middle in Hl as [(x & -> & _)|(p & -> & Hl)].
  { apply Forall_app in Hq as [Hq _]. by rewrite (last_command_quiet pre Hq) in Hc. }
  destruct (accepted opts nc cancel n hs).
  - destruct Hz as [Hend Hu]. apply app_eq_middle in Hl as [(x & -> & ->)|(p' & -> & ->)].
    + destruct (history_hijack _ _ _ _ _ Hh p x eq_refl) as [Hx _]. split.
      * apply Forall_app. split; [done|]. destruct Hend as [[-> _]|(y & t & k & -> & Hk)]; [done|].
        constructor; [done|]. by eapply Forall_impl.
      * intros Hp [Hy|Hy]%elem_of_app; [eapply (history_no_net_close _ _ _ _ _ Hh), elem_of_app; right; by right|].
        eapply Hu; [done| |exact Hy]. apply elem_of_app. left. apply elem_of_app. right. left.
    + split.
      * destruct Hend as [[Hnil _]|(y & t & k & Hz & Hk)]; [by destruct p'|].
        destruct p' as [|e p']; [done|]. injection Hz as -> Hz. rewrite <- Hz in Hk.
        apply Forall_app in Hk as [_ Hk]. inv Hk. by eapply Forall_impl.
      * intros Hp Hy. eapply Hu; [done| |by apply elem_of_app; right; right].
        apply elem_of_app. right. apply elem_of_app. right. left.
  - destruct Hz as [-> Hz]. simpl in Hl. subst z. apply Forall_app in Hz as [Hp _].
    rewrite last_command_app, (last_command_quiet q Hq) in Hc.
    assert (last_command p = None) as Hn; [|by rewrite Hn in Hc].
    unfold last_command. clear -Hp. induction Hp as [|e p He _ IH]; [done|]. simpl. by destruct e.
Qed.

Lemma hijack_detaches_witness :
  Forall (fun e => is_command e = false) [EvCall MClose stateAuthorization false; EvCancel].
Proof.
  assert (log (ServeConn (proxy_options None) 64 None None (demo_net ["USER alice"; "PASS s3cret"; "STAT"]) []).1
    = [EvCommand (str "USER"); EvCommand (str "PASS"); EvCall MLogin stateAuthorization false] ++ EvHijack ::
      [EvCall MClose stateAuthorization false; EvCancel]) as Hl by (vm_compute; reflexivity).
  destruct (hijack_detaches Proxy (proxy_options None) 64 None None _ [] _ _ Hl) as [Hc _]; [by eexists|exact Hc].
Defined.

(** C38: what a hijacker is not told.  Whatever session hijacks the connection in
    AuthenticatePlain: when the credentials came on the continuation of AUTH
    PLAIN, the prompt has armed the connection's write deadline, and it is still
    armed at the hand-over, [WriteTimeout] after the prompt: from then on every
    write to the connection fails with nothing written.  With the credentials on
    the command's own line no deadline is left. *)
Theorem hijack_leaves_write_deadline (Sess : Type) `{Unicode} `{Session Sess} (opts : Options Sess) int_width
    x ms i u pw s s1 s' e line verb raw a rest enc (st : St Sess) :
  awaiting opts s st -> as_SASL s = Some x -> AuthenticateMechanisms x s = PRet s1 ms ->
  mechanismAdvertised ms (str "PLAIN") = true ->
  0 < WriteTimeout opts -> Forall (fun w => w = WOk) (wsched (net st)) ->
  splitCommand line = (verb, raw) -> to_upper verb = str "AUTH" ->
  fields raw = a :: rest -> to_upper a = str "PLAIN" ->
  credentials opts (command_start (str "AUTH") raw st) rest enc -> decodeSASLPlain enc = inl (i, u, pw) ->
  takes_over s' e (isTLS (conn st)) false
    (AuthenticatePlain x (command_context opts (ctx (conn st)) (now (net st))) i u pw s1) ->
  (length (unsent opts e) <= bufsize)%nat ->
  exists st', run_command opts int_width line st = (st', Val false)
    /\ handed_over s' (unsent opts e) st' /\ hijack_logged st st' /\ rdl (net st') = None
    /\ match rest with
       | [] =>
         wire (net st') = wire (net st) ++ str "+ " ++ crlf
         /\ wdl (net st') = Some (now (net st) + WriteTimeout opts)
         /\ forall n p, wdl n = wdl (net st') -> now (net st) + WriteTimeout opts <= now n ->
            net_write 0 p n = (n, IoVal (0%nat, Some timeoutError))
       | _ => wire (net st') = wire (net st) /\ wdl (net st') = None
       end.
Proof.
  intros Ha Hx Hm Hadv Ht Hw Hsp Hv Hf Hpl Hcr Hdec Hto Hl. set (st1 := command_start (str "AUTH") raw st).
  assert (awaiting opts s st1) as Ha1 by (destruct Ha; by split).
  destruct (handleAuth_hijacked opts (command_context opts (ctx (conn st)) (now (net st))) a rest enc x ms i u pw
    s s1 s' e st1 Ha1 Hx Hm Hadv Hpl Ht Hw eq_refl eq_refl Hcr Hdec Hto Hl) as (st2 & E2 & Ho2 & Hj & R2 & W2 & O2).
  destruct (run_hijacked opts int_width line s' (unsent opts e) st st2) as (st' & E & U & Ho); [|done|].
  { rewrite Hsp. cbn [fst snd]. rewrite Hv, Hf. unfold dispatch. rewrite bind_getc.
    change (state (conn (command_start (str "AUTH") raw st))) with (state (conn st)). rewrite (aw_state _ _ _ Ha).
    change ((handleAuth opts (command_context opts (ctx (conn st)) (now (net st))) (a :: rest);;; ret false) st1
      = (st2, Val false)). unfold bind. by rewrite E2. }
  exists st'. split; [exact E|]. split; [exact Ho|]. split.
  { destruct (hijack_logged_before _ _ _ Hj U) as (l & El & Hl'). exists (EvCommand (str "AUTH") :: l).
    rewrite El. cbn. rewrite <- app_assoc. split; [done|]. by right. }
  change (now (net st1)) with (now (net st)) in W2. change (wire (net st1)) with (wire (net st)) in O2.
  destruct U as [_ _ _ -> -> -> _]. split; [done|]. rewrite W2, O2. destruct rest as [|r0 rest].
  - split_and!; try done. intros n p Hn Hlate. unfold net_write. cbn [Z.ltb Z.compare]. rewrite Hn.
    destruct (Z.leb_spec (now (net st) + WriteTimeout opts) (now n)); [done|lia].
  - by rewrite app_nil_r.
Qed.

(** The proxy on a connection whose client answers the prompt at time 20, and
    writes to it a minute after the prompt. *)
Lemma hijack_leaves_write_deadline_witness :
  let o := proxy_options None in
  let st := mkSt (set_session (Some (mkProxy None)) (newConn o None None 0))
              (mkNet 5 [(20, NBytes (str "AGEAYg==" ++ crlf))] None None [] []) [] [] in
  exists st', run_command o 64 (str "AUTH PLAIN") st = (st', Val false)
    /\ wdl (net st') = Some (5 + 60000000000)
    /\ forall n p, wdl n = wdl (net st') -> 5 + 60000000000 <= now n ->
       net_write 0 p n = (n, IoVal (0%nat, Some timeoutError)).
Proof.
  intros o st.
  destruct (hijack_leaves_write_deadline Proxy o 64 proxy_sasl [str "PLAIN"] [] (str "a") (str "b") (mkProxy None) (mkProxy None)
    (mkProxy None) None (str "AUTH PLAIN") (str "AUTH") (str "PLAIN") (str "PLAIN") [] (str "AGEAYg==") st)
    as (st' & E & _ & _ & _ & _ & Hw & Hp); try reflexivity; try by split.
  - apply Forall_nil_2.
  - apply (cr_continued o (command_start (str "AUTH") (str "PLAIN") st) (str "AGEAYg==" ++ [CR]) []); [|reflexivity|].
    + repeat constructor; done.
    + assert (read_deadline o (command_start (str "AUTH") (str "PLAIN") st) = Some 600000000005) as -> by (vm_compute; reflexivity).
      unfold yields. cbn. split_and!; try done; try lia; (apply Forall_cons_2; [cbn; done || lia|apply Forall_nil_2]).
  - apply to_hijack. apply to_ret.
  - cbn. lia.
  - exists st'. split; [exact E|]. split; [exact Hw|exact Hp].
Defined.

(** A session that panics once it has taken the connection over. *)
Inductive Reckless := mkReckless.

Definition take_over_and_panic (s : Reckless) : Prog Reckless (option goerr) := PHijack (fun _ => PPanic s).

#[export] Instance reckless_session : Session Reckless := {|
  s_Close s := PRet s tt;
  s_Login _ _ _ := take_over_and_panic;
  s_Stat _ s := PRet s (inl (0, 0));
  s_List _ _ s := PRet s (inl []);
  s_Uidl _ _ s := PRet s (inl []);
  s_Retr _ _ s := PRet s (inr (EPlain []));
  s_Top _ _ _ s := PRet s (inr (EPlain []));
  s_Dele _ _ s := PRet s None;
  s_Rset _ s := PRet s None;
  s_Noop _ s := PRet s None;
  s_Quit _ s := PRet s (inl 0);
  as_SASL _ := None;
  as_Lang _ := None;
  as_UTF8 _ := None
|}.

Definition reckless_options : Options Reckless :=
  defaults (mkOptions (PRet tt (inl mkReckless)) false [] [] 0 0 0 0 0 true 0 0
              false 0 0 [] [] false None false false false).

(** The one case in which the library closes a connection that was taken over:
    the method that took it over panics, and [recoverConn] closes it. *)
Example panic_closes_hijacked :
  log (ServeConn reckless_options 64 None None (demo_net ["USER alice"; "PASS s3cret"]%string) []).1
  = [EvCommand (str "USER"); EvCommand (str "PASS"); EvCall MLogin stateAuthorization false; EvHijack;
     EvCall MClose stateAuthorization false; EvCancel; EvNetClose].
Proof. vm_compute. reflexivity. Qed.

(** The one case in which the library writes to a connection that was taken over:
    the method that took it over returns an error whose text does not fit the
    buffer. *)
Example long_error_reaches_the_wire :
  let e := EPlain (repeat "x"%byte 5000) in
  (4096 <= length (wire (net (ServeConn (proxy_options (Some e)) 64 None None
    (demo_net ["USER alice"; "PASS s3cret"]%string) []).1)) - length (wire (net (ServeConn (proxy_options None) 64 None None
    (demo_net ["USER alice"; "PASS s3cret"]%string) []).1)))%nat.
Proof. apply Nat.leb_le. vm_compute. reflexivity. Qed.
