(* ===== verification/ServerSpec.v ===== *)
(** * The server's contract

    The wire of a whole connection is the machine's conversation; the in-memory
    maildrop is one of the sessions it holds for. *)
From S2P Require Import Prelude GoStrings GoConv Errors DotStuff Parse Net NetLive Session Options ConnState ConnHandlers ConnServe Wire Spec ConnFacts ConnFrame ConnLive ConnAuth ConnTrace Refine RefineInput RefineLoop.

(** What the client sends, in any segments, from time [now n] on: whole lines,
    each arriving before the first idle deadline. *)
Definition sends {Sess} (opts : Options Sess) (n : Net) (ls : list bytes) : Prop :=
  Forall no_lf ls
  /\ Forall is_data (inbox n) /\ concat (map item_bytes (inbox n)) = script ls
  /\ Forall (fun it => it.1 < now n + idle_of opts stateAuthorization) (inbox n).

(** A peer that takes what it is sent. *)
Definition accepts (n : Net) : Prop := Forall (fun x => x = WOk) (wsched n).

Section Contract.
Context {Sess : Type} `{Unicode} `{PureSession Sess}.
Variable opts : Options Sess.
Variable nc : option NetConn.
Hypothesis Hcfg : plain_config opts (isTLSConn nc).

(** The connection [handleConn] builds stands at the machine's start. *)
Lemma start_standing cancel n hs s ls :
  sends opts n ls -> accepts n ->
  standing opts (isTLSConn nc) []
    (mkSt (set_session (Some s) (newConn opts nc cancel (now n))) n hs [])
    (mkProto stateAuthorization [] 0 s) ls.
Proof using Hcfg.
  intros (Hl & Hd & Hs & Ht) Ha. pose proof (idle_of_pos opts _ Hcfg stateAuthorization). split.
  - unfold works, writable. simpl. split_and!; try done; [lia|]. left. exact (pc_write _ _ Hcfg).
  - by split.
  - split; [done|]. eexists. split; [reflexivity|]. simpl.
    unfold yields. simpl. rewrite Hs. split_and!; (done || lia).
Qed.

Lemma ServeConn_conversation int_width cancel n hs s ls :
  NewSession opts = PRet tt (inl s) -> sends opts n ls -> accepts n ->
  let st := (ServeConn opts int_width nc cancel n hs).1 in
  wire (net st) = wire n ++ conversation opts int_width (isTLSConn nc) s ls
  /\ session (conn st) = Some (final_session opts int_width (isTLSConn nc) s ls).
Proof using Hcfg.
  intros Hn Hs Ha. unfold ServeConn, recoverConn.
  destruct (serve_conversation opts int_width (isTLSConn nc) Hcfg [] _ _ ls (start_standing cancel n hs s ls Hs Ha))
    as (st' & E & W & X).
  assert (handleConn_go opts int_width (mkSt (newConn opts nc cancel (now n)) n hs []) = (st', Val tt)) as ->.
  { unfold handleConn_go, bind. rewrite Hn. simpl. exact E. }
  simpl. split; [|exact X]. rewrite W. unfold out, written. simpl. by rewrite app_nil_r.
Qed.
End Contract.

