(* ===== verification/MemSpec.v ===== *)
(** * The in-memory maildrop as a session whose methods only compute *)
From S2P Require Import Prelude GoStrings Errors Session Options Spec Mem.

(** A store of accounts behind one session. *)
Definition mem_result {A} (f : session -> A) (s : MemSession) : MemSession * A := (s, f (m_sess s)).

Definition mem_log_in (name pass : bytes) (s : MemSession) : MemSession * option goerr :=
  let '(s', e) := Login (m_store s) (m_sess s) name pass in (mkMem (m_store s) s', e).

#[export] Instance mem_pure : PureSession MemSession.
Proof.
  refine {|
    p_Close s := s;
    p_Login := mem_log_in;
    p_Stat := mem_result (fun s => inl (Stat s));
    p_List n := mem_result (fun s => List_ s n);
    p_Uidl n := mem_result (fun s => Uidl s n);
    p_Retr n := mem_result (fun s => Retr s n);
    p_Top n l := mem_result (fun s => Top s n l);
    p_Dele n s := let '(s', e) := Dele (m_sess s) n in (mkMem (m_store s) s', e);
    p_Rset s := (mkMem (m_store s) (Rset (m_sess s)), None);
    p_Noop s := (s, None);
    p_Quit s := let '(st', n) := Quit (m_store s) (m_sess s) in (mkMem st' (m_sess s), inl n);
    p_Mechs s := (s, [str "PLAIN"]);
    p_Plain _ := mem_log_in;
    p_SetLang _ s := (s, inr (EPlain []));
    p_Langs s := (s, inr (EPlain []));
    p_UTF8 s := (s, Some (EPlain []));
    has_SASL := true;
    has_Lang := false;
    has_UTF8 := false
  |}; try done.
  - intros cx u p s. simpl. unfold mem_login, mem_log_in. by destruct (Login _ _ _ _).
  - intros cx n s. simpl. by destruct (Dele _ _).
  - intros cx s. simpl. by destruct (Quit _ _).
  - intros s. exists mem_sasl. split; [done|]. split; [done|].
    intros cx i u p s'. simpl. unfold mem_login, mem_log_in. by destruct (Login _ _ _ _).
Defined.
