(* ===== verification/WellFormed.v ===== *)
(** * What a client can rely on in the server's output

    Every response the server writes is well formed: one status line, or a
    status line and lines up to a dot, with no line a client could take for
    another one's end.  Nothing a session returns, its mechanism names apart,
    can add a line to a response or end one early. *)
From S2P Require Import Prelude GoStrings GoConv Errors DotStuff Parse Net Session Options Mem ConnState ConnHandlers ConnServe Wire Spec Demo RefineInput RefineLoop ServerSpec MemSpec.

(** ** Responses *)

(** A response: a single line; the request to go on of AUTH; a listing or a
    message, as the lines between the status line and the dot. *)
Inductive Response :=
| Single (ok : bool) (text : bytes)
| Continue
| Multi (text : bytes) (ls : list bytes).

Definition render (r : Response) : bytes :=
  match r with
  | Single ok text => str (if ok then "+OK" else "-ERR")%string ++ text ++ crlf
  | Continue => str "+ " ++ crlf
  | Multi text ls => str "+OK" ++ text ++ crlf ++ crlf_lines ls ++ str "." ++ crlf
  end.

(** The text of a status line: none, or set off by a space; on one line. *)
Definition text_ok (t : bytes) : Prop := no_crlf t /\ (t = [] \/ exists t', t = SP :: t').

(** A line of a multi-line response: it has no LF, and a client that strips the
    line ending does not take it for the terminating dot. *)
Definition line_ok (l : bytes) : Prop := no_lf l /\ forall k, l <> DOT :: replicate k CR.

Definition wf (r : Response) : Prop :=
  match r with
  | Single _ text => text_ok text
  | Continue => True
  | Multi text ls => text_ok text /\ Forall line_ok ls
  end.

(** The text is a sequence of well-formed responses; when the connection ends
    after it ([stop]) the last one may be cut short. *)
Definition typed (stop : bool) (t : bytes) : Prop :=
  exists rs rest, t = concat (map render rs) ++ rest /\ Forall wf rs
    /\ (rest = [] \/ stop = true /\ exists r, wf r /\ rest `prefix_of` render r).

(** ** Facts *)

Lemma no_crlf_app s t : no_crlf s -> no_crlf t -> no_crlf (s ++ t).
Proof. intros. by apply Forall_app. Qed.

Lemma no_crlf_lf s : no_crlf s -> no_lf s.
Proof. intros Hs. eapply Forall_impl; [exact Hs|]. intros b Hb ->. done. Qed.

Lemma no_crlf_str (s : string) : forallb (fun b => negb (is_crlf b)) (str s) = true -> no_crlf (str s).
Proof.
  intros Hs. apply Forall_forall. intros b Hb. rewrite forallb_forall in Hs.
  apply negb_true_iff, Hs. by apply list_elem_of_In.
Qed.

Lemma no_crlf_itoa n : no_crlf (itoa n).
Proof. eapply Forall_impl; [apply itoa_num|]. intros b. by destruct b. Qed.

Create HintDb tidy.
#[export] Hint Resolve no_crlf_app no_crlf_itoa sanitize_no_crlf no_crlf_lf : tidy.
#[export] Hint Extern 1 (no_crlf (str _)) => (apply no_crlf_str; reflexivity) : tidy.

Lemma typed_nil stop : typed stop [].
Proof. exists [], []. split_and!; [done|constructor|by left]. Qed.

Lemma typed_one stop r : wf r -> typed stop (render r).
Proof. intros Hr. exists [r], []. simpl. rewrite !app_nil_r. split_and!; [done|by constructor|by left]. Qed.

Lemma typed_app stop s t : typed false s -> typed stop t -> typed stop (s ++ t).
Proof.
  intros (rs & x & -> & Hrs & [->|[? _]]) (rt & y & -> & Hrt & Hy); [|done].
  exists (rs ++ rt), y. rewrite app_nil_r, map_app, concat_app, <- app_assoc. split_and!; [done| |done].
  by apply Forall_app.
Qed.

Lemma typed_any stop t : typed false t -> typed stop t.
Proof. intros (rs & x & E & H & [->|[? _]]); [|done]. exists rs, []. split_and!; auto. Qed.

Lemma typed_status stop (ok : bool) t : no_crlf t -> typed stop (str (if ok then "+OK " else "-ERR ")%string ++ t ++ crlf).
Proof.
  intros Ht. replace (_ ++ _ ++ _) with (render (Single ok (SP :: t))) by by destruct ok.
  apply typed_one. split; [by constructor|]. right. by exists t.
Qed.

Lemma text_ok_space t : no_crlf t -> text_ok (SP :: t).
Proof. intros Ht. split; [by constructor|]. right. by exists t. Qed.

Lemma status_text msg : text_ok (if is_nil msg then [] else SP :: sanitizeResponse msg).
Proof.
  destruct (is_nil msg); [split; [constructor|by left]|]. apply text_ok_space, sanitize_no_crlf.
Qed.

Lemma typed_ok_line stop msg : typed stop (ok_line msg).
Proof. exact (typed_one stop (Single true _) (status_text msg)). Qed.

Lemma typed_err_line stop msg : typed stop (err_line msg).
Proof. exact (typed_one stop (Single false _) (status_text msg)). Qed.

Lemma typed_listing stop text ls :
  text_ok text -> Forall line_ok ls -> typed stop (listing (str "+OK" ++ text) ls).
Proof.
  intros Ht Hl. replace (listing _ ls) with (render (Multi text ls)).
  - by apply typed_one.
  - unfold listing, render, crlf_lines. by rewrite <- !app_assoc.
Qed.

(** A line that begins otherwise than with a dot, or goes on after it. *)
Lemma line_ok_head b l : b <> DOT -> no_lf (b :: l) -> line_ok (b :: l).
Proof. intros Hb Hl. split; [done|]. intros k [= -> _]. done. Qed.

Lemma line_ok_num n l : no_crlf l -> line_ok (itoa n ++ l).
Proof.
  intros Hl. assert (no_lf (itoa n ++ l)) as Hn by auto with tidy.
  pose proof (itoa_num n) as Hnum. destruct (itoa n) as [|b s] eqn:E; [by destruct (itoa_nonempty n)|].
  inv Hnum. apply line_ok_head; [|done]. by intros ->.
Qed.

Lemma line_ok_stuffed l : no_lf l -> line_ok (stuff_line l).
Proof.
  intros Hl. unfold stuff_line. destruct l as [|b l]; [split; [done|]; by intros k|].
  cbn [has_prefix]. destruct (b =b? DOT) eqn:E; cbn [andb].
  - apply byte_eqb_eq in E as ->. split; [by constructor|]. intros [|k]; discriminate.
  - apply line_ok_head; [|done]. intros ->. done.
Qed.

Lemma body_lines_ok s : Forall line_ok (map stuff_line (body_lines s)).
Proof.
  pose proof (body_lines_no_lf s) as Hs. induction Hs; simpl; constructor; auto using line_ok_stuffed.
Qed.

Lemma typed_message stop status s : typed stop (ok_line status ++ dot_encode s).
Proof.
  replace (_ ++ _) with (render (Multi (if is_nil status then [] else SP :: sanitizeResponse status)
    (map stuff_line (body_lines s)))).
  - apply typed_one. split; [apply status_text | apply body_lines_ok].
  - unfold ok_line, status_line, render, dot_encode. by rewrite <- !app_assoc.
Qed.

(** A message that breaks off. *)
Lemma typed_broken status s : typed true (ok_line status ++ emit true true NUL s).
Proof.
  set (r := Multi (if is_nil status then [] else SP :: sanitizeResponse status) (map stuff_line (body_lines s))).
  exists [], (ok_line status ++ emit true true NUL s). split_and!; [done|constructor|]. right. split; [done|].
  exists r. split; [split; [apply status_text | apply body_lines_ok]|].
  exists (closing true NUL s ++ str "." ++ crlf).
  unfold ok_line, status_line, render, r. rewrite <- !app_assoc. do 3 f_equal.
  by rewrite (emit_encode s NUL).
Qed.

(** ** The machine's responses *)

Section Machine.
Context {Sess : Type} `{Unicode} `{PureSession Sess}.
Variable opts : Options Sess.
Variable int_width : Z.
Variable tls : bool.
Implicit Types (p : Proto Sess) (r : Reply (Sess := Sess)).

(** What the consumer configures: capabilities and mechanism names of one line. *)
Hypothesis Hcaps : Forall (fun c => line_ok (cap_line c)) (Caps opts).
Hypothesis Hmechs : forall s, Forall line_ok (p_Mechs s).2.

Definition typed_reply r : Prop := typed (re_stop r) (re_text r).

Lemma failed_typed e p : typed_reply (failed opts e p).
Proof. apply typed_err_line. Qed.

Lemma refused_typed msg p : typed_reply (refused msg p).
Proof. apply typed_err_line. Qed.

Lemma answer_typed {A} (x : Sess * result A) p f :
  (forall a p, typed_reply (f a p)) -> typed_reply (answer opts x p f).
Proof. intros Hf. unfold answer. destruct x.2; [apply Hf | apply failed_typed]. Qed.

Lemma done_or_typed (x : Sess * option goerr) p msg : typed_reply (done_or opts x p msg).
Proof. unfold done_or. destruct x.2; [apply failed_typed | apply typed_ok_line]. Qed.

Lemma login_typed x p : typed_reply (login opts x p).
Proof. unfold login. destruct x.2; [apply failed_typed | apply typed_ok_line]. Qed.

Lemma message_typed status b p : typed_reply (message status b p).
Proof. unfold message. destruct (body_err b); [apply typed_broken | apply typed_message]. Qed.

(** Session text in a line of its own. *)
Lemma says_typed t p : no_crlf t -> typed_reply (says (str "+OK " ++ t ++ crlf) p).
Proof. apply (typed_status false true). Qed.

Lemma items_typed {A} msg (item : A -> bytes) l p :
  (forall a, no_crlf (item a) /\ line_ok (item a)) -> typed_reply (items opts msg item l p).
Proof.
  intros Hi. unfold items. destruct (0 <? msg).
  - destruct l as [|a [|? ?]]; [apply failed_typed|apply says_typed, Hi|apply failed_typed].
  - unfold says. change (str "+OK " ++ ?x) with (str "+OK" ++ SP :: x). apply typed_listing.
    + apply text_ok_space. auto with tidy.
    + apply Forall_map, Forall_forall. intros a _. apply Hi.
Qed.

Lemma item_ok n t : no_crlf t -> no_crlf (itoa n ++ str " " ++ t) /\ line_ok (itoa n ++ str " " ++ t).
Proof. intros Ht. split; [|apply line_ok_num]; auto with tidy. Qed.

Lemma no_lf_join ls : Forall no_lf ls -> no_lf (join (str " ") ls).
Proof.
  induction 1 as [|l ls Hl Hls IH]; [constructor|]. destruct ls as [|l' ls]; [done|].
  change (join _ (l :: l' :: ls)) with (l ++ str " " ++ join (str " ") (l' :: ls)).
  apply Forall_app. split; [done|]. apply Forall_app. split; [by repeat constructor|done].
Qed.

Lemma capabilities_ok mechs :
  Forall line_ok mechs -> Forall (fun c => line_ok (cap_line c)) (capabilities opts tls mechs).
Proof using Hcaps.
  intros Hm.
  assert (forall (b : bool) name, line_ok (cap_line (mkCapability name [])) ->
    Forall (fun c => line_ok (cap_line c)) (if b then [mkCapability name []] else [])) as Hif.
  { intros [|] name Hn; [by constructor|constructor]. }
  assert (forall a t, a <> DOT -> forallb (fun b => negb (is_crlf b)) (a :: t) = true -> line_ok (a :: t)) as Hlit.
  { intros a t Ha Ht. apply line_ok_head; [done|]. apply no_crlf_lf, Forall_forall. intros b Hb.
    rewrite forallb_forall in Ht. by apply negb_true_iff, Ht, list_elem_of_In. }
  unfold capabilities. repeat (apply Forall_app; split);
    first [done | apply Hif; by apply Hlit | do 2 (constructor; [by apply Hlit|]); constructor | idtac].
  destruct (is_nil_list mechs) eqn:E; [constructor|]. constructor; [|constructor].
  unfold cap_line. simpl. rewrite E. apply line_ok_head; [done|].
  do 5 (constructor; [done|]). apply no_lf_join. eapply Forall_impl; [exact Hm|]. by intros l [? _].
Qed.

Lemma reply_capa_typed p : typed_reply (reply_capa opts tls p).
Proof using Hcaps Hmechs.
  unfold reply_capa, says. set (m := if auth_open opts tls && has_SASL then _ else _).
  change (str "+OK Capability list follows") with (str "+OK" ++ SP :: str "Capability list follows").
  apply typed_listing.
  - apply text_ok_space. auto with tidy.
  - apply Forall_map, Forall_forall. intros c Hc. apply list_elem_of_In, filter_In in Hc as [Hc _].
    apply list_elem_of_In in Hc. revert c Hc. apply Forall_forall, capabilities_ok.
    subst m. by destruct (_ && _); [apply Hmechs|constructor].
Qed.

Lemma reply_lang_typed args p : typed_reply (reply_lang opts args p).
Proof.
  unfold reply_lang. destruct (negb has_Lang); [apply refused_typed|]. destruct args as [|a args].
  - apply answer_typed. intros ls p'. unfold says.
    change (str "+OK Language list follows") with (str "+OK" ++ SP :: str "Language list follows").
    apply typed_listing.
    + apply text_ok_space. auto with tidy.
    + apply Forall_map, Forall_forall. intros l _.
      assert (forall s t : bytes, no_crlf s -> no_crlf t -> line_ok (s ++ str " " ++ t)) as Hl; [|auto with tidy].
      intros s t Hs Ht. split; [auto with tidy|]. intros k Hk. destruct s as [|x [|y s]]; [done| |].
      { injection Hk as -> Hk. by destruct k. }
      injection Hk as -> Hk. inv Hs. destruct k; [done|]. injection Hk as -> _.
      match goal with Hx : Forall _ (CR :: _) |- _ => by inv Hx end.
  - apply answer_typed. intros tag p'.
    change (str "+OK Language set to " ++ ?x) with (str "+OK " ++ str "Language set to " ++ x). rewrite app_assoc.
    rewrite <- app_assoc. rewrite (app_assoc (str "Language set to ")). apply says_typed. auto with tidy.
Qed.

Lemma reply_plain_typed encoded p : typed_reply (reply_plain opts encoded p).
Proof.
  unfold reply_plain. destruct (encoded =s? _); [apply typed_err_line|].
  destruct (decodeSASLPlain encoded) as [[[i u] pw]|e]; [apply login_typed | apply refused_typed].
Qed.

Lemma continue_typed stop t : typed stop t -> typed stop (str "+ " ++ crlf ++ t).
Proof. intros Ht. rewrite app_assoc. apply typed_app; [|done]. by apply (typed_one false Continue). Qed.

Lemma reply_auth_typed args next p : typed_reply (reply_auth opts tls args next p).1.
Proof using Hmechs.
  unfold reply_auth. destruct (negb (auth_open opts tls)); [apply refused_typed|].
  destruct (negb has_SASL); [apply refused_typed|]. destruct args as [|a rest].
  { apply (typed_listing false []); [split; [constructor|by left]|apply Hmechs]. }
  destruct (negb (to_upper a =s? _)); [apply refused_typed|].
  destruct (negb (mechanismAdvertised _ _)); [apply refused_typed|].
  destruct rest as [|i rest]; [|apply reply_plain_typed].
  destruct next as [l|]; [|apply (continue_typed true []), typed_nil].
  destruct (too_long opts l); [apply (continue_typed true []), typed_nil|].
  apply continue_typed, reply_plain_typed.
Qed.

Lemma stopping_typed r : typed_reply r -> typed_reply (stopping r).
Proof.
  unfold typed_reply. destruct (re_stop r) eqn:E; intros Hr; simpl; [done | by apply typed_any].
Qed.

Lemma reply_list_typed args p : typed_reply (reply_list opts int_width args p).
Proof.
  unfold reply_list. destruct (parseOptionalMsgNum _ _); [|apply refused_typed].
  apply answer_typed. intros l p'. apply items_typed. intros i. apply item_ok, no_crlf_itoa.
Qed.

Lemma reply_uidl_typed args p : typed_reply (reply_uidl opts int_width args p).
Proof.
  unfold reply_uidl. destruct (parseOptionalMsgNum _ _); [|apply refused_typed].
  apply answer_typed. intros l p'. apply items_typed. intros i. apply item_ok, sanitize_no_crlf.
Qed.

Lemma reply_stat_typed p : typed_reply (reply_stat opts p).
Proof.
  apply answer_typed. intros [c s] p'. cbn [fst snd]. rewrite (app_assoc (itoa c)), (app_assoc (_ ++ _)).
  apply says_typed. auto with tidy.
Qed.

Lemma reply_retr_typed args p : typed_reply (reply_retr opts int_width args p).
Proof.
  unfold reply_retr. destruct (parseMsgNum _ _); [|apply refused_typed]. apply answer_typed. intros b p'. apply message_typed.
Qed.

Lemma reply_top_typed args p : typed_reply (reply_top opts int_width args p).
Proof.
  unfold reply_top. destruct args as [|a [|l args]]; try apply refused_typed.
  destruct (parseMsgNum _ _); [|apply refused_typed]. destruct (parseInt _ _); [|apply refused_typed].
  destruct (_ <? 0); [apply refused_typed|]. apply answer_typed. intros b p'. apply message_typed.
Qed.

Lemma reply_dele_typed args p : typed_reply (reply_dele opts int_width args p).
Proof. unfold reply_dele. destruct (parseMsgNum _ _); [apply done_or_typed | apply refused_typed]. Qed.

Lemma reply_quit_typed p : typed_reply (reply_quit opts p).
Proof.
  apply stopping_typed, answer_typed. intros n p'. destruct (0 <? n); [|apply typed_ok_line].
  rewrite (app_assoc (itoa n)). apply says_typed. auto with tidy.
Qed.

Lemma reply_user_typed args p : typed_reply (reply_user opts tls args p).
Proof.
  unfold reply_user. destruct (negb _); [apply refused_typed|]. destruct args as [|a args]; [apply refused_typed|].
  destruct (containsCTL a); [apply refused_typed | apply typed_ok_line].
Qed.

Lemma reply_pass_typed raw p : typed_reply (reply_pass opts tls raw p).
Proof. unfold reply_pass. repeat case_match; apply refused_typed || apply login_typed. Qed.

Lemma reply_utf8_typed p : typed_reply (reply_utf8 opts p).
Proof. unfold reply_utf8. case_match; [apply refused_typed | apply done_or_typed]. Qed.

#[local] Hint Resolve refused_typed reply_capa_typed reply_user_typed reply_pass_typed reply_utf8_typed
  reply_lang_typed reply_auth_typed reply_list_typed reply_uidl_typed reply_stat_typed reply_retr_typed
  reply_top_typed reply_dele_typed reply_quit_typed done_or_typed typed_ok_line typed_err_line : core.

(** The response to any line, in either state. *)
Lemma respond_typed line next p : typed_reply (respond opts int_width tls line next p).1.
Proof using Hcaps Hmechs.
  unfold respond. destruct (splitCommand line) as [verb raw]. destruct (pt_phase p).
  - unfold in_authorization. destruct (_ =s? str "AUTH"); [auto|]. cbn [fst].
    repeat case_goal; auto; apply typed_ok_line || apply typed_err_line.
  - unfold in_transaction_state. cbn [fst]. repeat case_goal; auto; apply typed_err_line.
Qed.

Lemma converse_typed p ls : typed true (converse opts int_width tls p ls).
Proof using Hcaps Hmechs.
  assert (forall k p ls, (length ls <= k)%nat -> typed true (converse opts int_width tls p ls)) as Hk; [|by eapply Hk].
  clear p ls. induction k as [|k IH]; intros p ls Hl; (destruct ls as [|l ls]; [apply typed_err_line|]);
    cbn [length] in Hl; [lia|].
  cbn [converse]. destruct (too_long opts l); [apply typed_err_line|].
  destruct (is_nil (trim_space (chomp l))); [apply IH; lia|].
  pose proof (respond_typed (trim_space (chomp l)) (head ls) p) as Hr. unfold typed_reply in Hr.
  destruct (respond _ _ _ _ _ _) as [r used]. cbn [fst] in Hr.
  destruct (re_stop r); [by rewrite app_nil_r|]. apply typed_app; [done|].
  destruct (over_limit opts (re_state r)); [apply typed_err_line|].
  destruct used; [destruct ls; [apply typed_nil|]|]; apply IH; simpl in *; lia.
Qed.
End Machine.

(** C3: what the server sends is a sequence of well-formed responses.  Under the
    hypotheses of the refinement, and with capability and mechanism names that
    are single lines, the wire of a connection splits into responses, each a
    status line, or a status line and lines up to a dot none of which a client
    can take for the dot; only the last one may be cut short, when a message
    broke off and the connection ended with it.  The texts of the session, its
    errors, identifiers, languages and bodies are arbitrary. *)
Theorem server_output_well_formed (Sess : Type) `{Unicode} `{PureSession Sess}
    (opts : Options Sess) int_width nc cancel n hs s ls :
  plain_config opts (isTLSConn nc) -> Options.NewSession opts = PRet tt (inl s) -> sends opts n ls -> accepts n ->
  Forall (fun c => line_ok (cap_line c)) (Caps opts) ->
  (forall s, Forall line_ok (p_Mechs s).2) ->
  exists rs rest, wire (net (ServeConn opts int_width nc cancel n hs).1)
      = wire n ++ concat (map render rs) ++ rest
    /\ Forall wf rs /\ (rest = [] \/ exists r, wf r /\ rest `prefix_of` render r).
Proof.
  intros Hc Hs Hn Ha Hcaps Hm. destruct (ServeConn_conversation opts nc Hc int_width cancel n hs s ls Hs Hn Ha) as [-> _].
  destruct (typed_app true (ok_line (Greeting opts)) (converse opts int_width (isTLSConn nc) (mkProto stateAuthorization [] 0 s) ls))
    as (rs & rest & E & Hrs & Hr).
  - apply typed_ok_line.
  - by apply converse_typed.
  - exists rs, rest. unfold conversation. rewrite E. split_and!; [done|done|]. destruct Hr as [?|[_ ?]]; auto.
Qed.

Lemma server_output_well_formed_witness :
  let ls := ["USER alice"; "PASS s3cret"; "UIDL"; "RETR 1"; "QUIT"]%string in
  exists rs rest, wire (net (ServeConn (demo_options 0) 64 None None (demo_net ls) []).1)
      = wire (demo_net ls) ++ concat (map render rs) ++ rest
    /\ Forall wf rs /\ (rest = [] \/ exists r, wf r /\ rest `prefix_of` render r).
Proof.
  apply (server_output_well_formed MemSession (demo_options 0) 64 None None (demo_net _) []
    (mkMem demo_store NewSession) (map (fun s => str s ++ [CR])
      ["USER alice"; "PASS s3cret"; "UIDL"; "RETR 1"; "QUIT"]%string)).
  - split; vm_compute; done || by left.
  - reflexivity.
  - split; [apply (bool_decide_unpack _); vm_compute; exact I|].
    split; [repeat constructor; vm_compute; discriminate|].
    split; [vm_compute; reflexivity|]. repeat constructor; vm_compute; reflexivity.
  - constructor.
  - constructor.
  - intros m. constructor; [|constructor]. apply line_ok_head; [done|]. repeat constructor; vm_compute; discriminate.
Defined.
