(* ===== verification/ConnTLS.v ===== *)
(** * STLS

    What the upgrade to TLS does to a connection: the plaintext side leaves
    nothing behind, and an upgrade that does not happen changes nothing or ends
    the connection. *)
From S2P Require Import Prelude GoStrings GoConv Errors DotStuff Parse Net Session Options Mem ConnState ConnHandlers ConnServe ConnFacts ConnFrame ConnLive Demo.

Section STLS.
Context {Sess : Type} `{Unicode} `{HS : Session Sess}.
Variable opts : Options Sess.
Implicit Types st : St Sess.
Local Abbreviation top1 := (fun _ : St Sess => True).

(** The steps that answer a client: they change the output buffer, the error
    count and the hook's error, and no input. *)
Definition answered st st' : Prop :=
  (exists w le ec, conn st' = set_writer w (set_lastErr le (set_errorCount ec (conn st))))
  /\ handshakes st' = handshakes st /\ inbox (net st') = inbox (net st).

(** One field after the other. *)
Lemma answered_intro st c' n' l' w le ec :
  c' = set_writer w (set_lastErr le (set_errorCount ec (conn st))) -> inbox n' = inbox (net st) ->
  answered st (mkSt c' n' (handshakes st) l').
Proof. intros -> Hi. split; [|by split]. by exists w, le, ec. Qed.

Lemma conn_eta (c : Conn Sess) :
  c = set_writer (writer c) (set_lastErr (lastErr c) (set_errorCount (errorCount c) c)).
Proof. by destruct c. Qed.

#[export] Instance answered_pre : PreOrder answered.
Proof.
  split.
  - intros st. split; [|done]. eexists _, _, _. apply conn_eta.
  - intros a b c ((w1 & l1 & n1 & E1) & H1 & I1) ((w2 & l2 & n2 & E2) & H2 & I2).
    split; [|split; congruence]. exists w2, l2, n2. by rewrite E2, E1.
Qed.

Definition answers_only {A} (m : M Sess A) : Prop := forall st, answered st (m st).1 /\ (m st).2 <> Panicked.

Lemma answers_bind {A B} (m : M Sess A) (k : A -> M Sess B) :
  answers_only m -> (forall a, answers_only (k a)) -> answers_only (bind m k).
Proof.
  intros Hm Hk st. destruct (Hm st) as [H1 H2]. unfold bind. destruct (m st) as [st1 [a| |]]; simpl in *; [|done|done].
  destruct (Hk a st1) as [H3 H4]. split; [by etrans|done].
Qed.

Lemma answers_ret {A} (a : A) : answers_only (ret a).
Proof. by intros st. Qed.

Lemma answers_gets {A} (f : St Sess -> A) : answers_only (gets f).
Proof. by intros st. Qed.

Lemma answers_emit e : answers_only (emit_ev e).
Proof. intros st. split; [|done]. by eapply answered_intro; [apply conn_eta|]. Qed.

Lemma answers_errorCount v : answers_only (modc (set_errorCount v)).
Proof.
  intros st. split; [|done].
  by apply (answered_intro st _ _ _ (writer (conn st)) (lastErr (conn st)) v); [destruct (conn st)|].
Qed.

Lemma answers_lastErr v : answers_only (modc (set_lastErr v)).
Proof.
  intros st. split; [|done].
  by apply (answered_intro st _ _ _ (writer (conn st)) v (errorCount (conn st))); [destruct (conn st)|].
Qed.

Lemma answers_modn f : (forall n, inbox (f n) = inbox n) -> answers_only (modn f).
Proof. intros Hf st. split; [|done]. eapply answered_intro; [apply conn_eta|apply Hf]. Qed.

Lemma answers_writer {A} (f : Writer_ -> Net -> Net * io (Writer_ * A)) :
  (forall w n, input_kept n (f w n).1) -> answers_only (with_writer f).
Proof.
  intros Hf st. unfold with_writer, getc, gets, bind, lift_io.
  pose proof (Hf (writer (conn st)) (net st)) as (Hi & _ & _).
  destruct (f _ _) as [n1 [[w1 a]|]]; simpl in *; (split; [|done]).
  - by apply (answered_intro st _ _ _ w1 (lastErr (conn st)) (errorCount (conn st))); [destruct (conn st)|].
  - by eapply answered_intro; [apply conn_eta|].
Qed.

Lemma answers_WriteString s : answers_only (WriteString opts s).
Proof.
  apply answers_bind; [|intros; apply answers_ret]. apply answers_writer. intros. apply write_go_input.
Qed.

Lemma answers_flush : answers_only (flush opts).
Proof. apply answers_writer. intros. apply Flush_input. Qed.

Lemma answers_ok msg : answers_only (ok opts msg).
Proof. 
  unfold ok. destruct (is_nil msg); [|do 2 (apply answers_bind; [apply answers_WriteString|intros _])];
    apply answers_WriteString.
Qed.

Lemma answers_clientError msg : answers_only (clientError opts msg).
Proof.
  unfold clientError, countError, applyErrorDelay, sleep_ctx, err.
  repeat first
    [ apply answers_WriteString | apply answers_bind; [|intros ?]
    | apply answers_ret | apply answers_gets | apply answers_emit | apply answers_errorCount
    | apply answers_lastErr
    | apply answers_modn; intros; by destruct (ctx_done _) | case_goal ].
Qed.

(** ** The command *)

(** The upgrade was not made: the plaintext connection goes on. *)
Definition not_upgraded (closing : bool) st st' : Prop :=
  isTLS (conn st') = isTLS (conn st) /\ username (conn st') = username (conn st)
  /\ reader (conn st') = reader (conn st) /\ handshakes st' = handshakes st
  /\ inbox (net st') = inbox (net st) /\ closePending (conn st') = closePending (conn st) || closing.

(** The upgrade was made: what the peer sent in plaintext had all been read, the
    buffers, the deadlines and the name given with USER are gone, and what comes
    next was sent inside TLS. *)
Definition upgraded st st' : Prop :=
  Buffered (reader (conn st)) = 0
  /\ isTLS (conn st') = true /\ reader (conn st') = NewReader /\ writer (conn st') = NewWriter
  /\ username (conn st') = [] /\ state (conn st') = stateAuthorization
  /\ rdl (net st') = None /\ wdl (net st') = None
  /\ exists t items, head (handshakes st) = Some (HsOk t items) /\ inbox (net st') = items
       /\ handshakes st' = tail (handshakes st).

Lemma answered_not_upgraded st st' : answered st st' -> not_upgraded false st st'.
Proof. intros ((w & l & n & E) & Hh & Hi). unfold not_upgraded. rewrite E. simpl. by rewrite orb_false_r. Qed.

Lemma clientError_not_upgraded msg st st' o :
  clientError opts msg st = (st', o) -> not_upgraded false st st' /\ o <> Panicked.
Proof. intros E. destruct (answers_clientError msg st) as [Hr Hp]. rewrite E in *. split; [by apply answered_not_upgraded|done]. Qed.

(** The handshake. *)
Lemma handshake_result cx st st' o :
  handshake cx st = (st', o) ->
  match o with
  | Val e => conn st' = conn st /\ handshakes st' = tail (handshakes st) /\
    match e with
    | None => exists t items, head (handshakes st) = Some (HsOk t items) /\ inbox (net st') = items
    | Some _ => inbox (net st') = inbox (net st)
    end
  | Panicked => False
  | Blocked => True
  end.
Proof.
  unfold handshake. destruct (head (handshakes st)) as [[t items|t x|]|] eqn:Eh; intros E;
    repeat case_match; simplify_eq/=; try done; split_and!; eauto.
Qed.

(** The upgrade failed: the connection is to be closed. *)
Definition upgrade_failed st st' : Prop :=
  isTLS (conn st') = false /\ closePending (conn st') = true
  /\ username (conn st') = username (conn st) /\ handshakes st' = tail (handshakes st)
  /\ inbox (net st') = inbox (net st).

(** From the go-ahead on. *)
Definition stls_upgrade cx : M Sess unit :=
  ok opts (str "Begin TLS negotiation");;;
  flush opts;;;
  d <- nextReadDeadline opts;;
  (match d with Some _ => modn (SetDeadline d) | None => ret tt end);;;
  e <- handshake cx;;
  modn (SetDeadline None);;;
  match e with
  | Some _ => modc (set_closePending true)
  | None =>
    modc (set_reader NewReader);;;
    modc (set_writer NewWriter);;;
    modc (set_isTLS true);;;
    modc (set_username [])
  end.

Lemma answers_deadline :
  answers_only (d <- nextReadDeadline opts;; match d with Some _ => modn (SetDeadline d) | None => ret tt end).
Proof.
  apply answers_bind; [|intros [d|]; [by apply answers_modn|apply answers_ret]]. unfold nextReadDeadline.
  repeat (apply answers_bind; [apply answers_gets|intros ?]). case_goal; apply answers_ret.
Qed.

Lemma stls_upgrade_result cx st :
  isTLS (conn st) = false -> state (conn st) = stateAuthorization -> Buffered (reader (conn st)) = 0 ->
  match (stls_upgrade cx st).2 with
  | Val _ => upgraded st (stls_upgrade cx st).1 \/ upgrade_failed st (stls_upgrade cx st).1
  | Panicked => False
  | Blocked => True
  end.
Proof.
  intros Ht Hs Hb.
  set (pre := ok opts (str "Begin TLS negotiation");;; flush opts;;; (d <- nextReadDeadline opts;;
    match d with Some _ => modn (SetDeadline d) | None => ret tt end)).
  assert (answers_only pre) as Hpre.
  { apply answers_bind; [apply answers_ok|intros _]. apply answers_bind; [apply answers_flush|intros _].
    apply answers_deadline. }
  set (fin := fun e : option goerr => modn (SetDeadline None);;; match e with
    | Some _ => modc (set_closePending true)
    | None => modc (set_reader NewReader);;; modc (set_writer NewWriter);;; modc (set_isTLS true);;; modc (set_username [])
    end : M Sess unit).
  assert (stls_upgrade cx st = (pre;;; e <- handshake cx;; fin e) st) as ->.
  { unfold stls_upgrade, pre, bind. destruct (ok _ _ st) as [s1 [[]| |]]; [|done|done].
    destruct (flush opts s1) as [s2 [x| |]]; [|done|done].
    destruct (nextReadDeadline opts s2) as [s3 [[d|]| |]]; done. }
  destruct (Hpre st) as [((w & le & ec & E) & Hh & Hi) Hp]. clearbody pre.
  unfold bind. destruct (pre st) as [st1 [[]| |]]; simpl in *; [|done|done].
  destruct (handshake cx st1) as [st2 o] eqn:Eh. apply handshake_result in Eh.
  destruct o as [[e|]| |]; [| |done|done]; destruct Eh as (Hc & Hhs & Hin).
  - right. unfold upgrade_failed. simpl. rewrite Hc, E, Hhs, Hh, Hin. by split_and!.
  - left. destruct Hin as (t & items & Hhd & Hin). unfold upgraded. simpl. rewrite Hc, E, Hhs, Hh, Hin. simpl.
    rewrite Hh in Hhd. split_and!; eauto.
Qed.

Lemma handleSTLS_eq cx st :
  handleSTLS opts cx st =
    if isTLS (conn st) then clientError opts (str "Already using TLS") st
    else if negb (TLSConfig opts) then clientError opts (str "TLS not available") st
    else if bool_decide (state (conn st) <> stateAuthorization)
    then clientError opts (str "STLS only allowed before authentication") st
    else if 0 <? Buffered (reader (conn st))
    then (clientError opts (str "Pipelining after STLS not permitted");;; modc (set_closePending true)) st
    else stls_upgrade cx st.
Proof.
  unfold handleSTLS, stls_upgrade. rewrite (bind_getc isTLS). destruct (isTLS (conn st)); [done|].
  destruct (negb _); [done|]. rewrite (bind_getc state). destruct (bool_decide _); [done|].
  rewrite (bind_getc reader). by destruct (0 <? _).
Qed.

Lemma refused_stls msg st :
  (clientError opts msg st).2 <> Blocked ->
  exists st', clientError opts msg st = (st', Val tt) /\ not_upgraded false st st'.
Proof.
  destruct (clientError opts msg st) as [st' o] eqn:E. apply clientError_not_upgraded in E as [Hn Hp].
  intros Hb. exists st'. split; [|done]. by destruct o as [[]| |].
Qed.
End STLS.

(** C9: STLS.  With the timeouts not disabled the command always returns.  It is
    refused, and changes nothing but the count of errors, on a connection that
    is encrypted already, without a TLS configuration, and after the login.  It
    is refused, and the connection marked for closing, when the client has
    pipelined anything behind it.  Otherwise either the handshake succeeds, and
    then the reader, the writer, the deadlines and the name given with USER are
    those of a new connection and everything read from now on was sent inside
    TLS; or it fails, and the connection is marked for closing and stays
    unencrypted. *)
Theorem stls_upgrades_cleanly (Sess : Type) `{Unicode} `{Session Sess} (opts : Options Sess) cx (st : St Sess) :
  0 < IdleTimeout opts -> 0 < WriteTimeout opts ->
  exists st', handleSTLS opts cx st = (st', Val tt) /\
    if isTLS (conn st) || negb (TLSConfig opts) || bool_decide (state (conn st) <> stateAuthorization)
    then not_upgraded false st st'
    else if 0 <? Buffered (reader (conn st)) then not_upgraded true st st'
    else upgraded st st' \/ upgrade_failed st st'.
Proof.
  intros Hi Hw. destruct (live_handleSTLS opts Hi Hw cx st) as [Hb _]. rewrite handleSTLS_eq in *.
  destruct (isTLS (conn st)) eqn:Ht; cbn [orb]; [by apply refused_stls|].
  destruct (negb (TLSConfig opts)); cbn [orb]; [by apply refused_stls|].
  destruct (bool_decide _) eqn:Hs; [by apply refused_stls|].
  destruct (Z.ltb_spec 0 (Buffered (reader (conn st)))) as [Hbuf|Hbuf].
  - destruct (refused_stls opts (str "Pipelining after STLS not permitted") st) as (st1 & E & Hn).
    { intros E. unfold bind in Hb. by destruct (clientError _ _ _) as [? [| |]]. }
    unfold bind. rewrite E. eexists. split; [reflexivity|].
    destruct Hn as (H1 & H2 & H3 & H4 & H5 & H6). unfold not_upgraded. simpl. rewrite orb_true_r. by split_and!.
  - assert (Buffered (reader (conn st)) = 0) as Hb0 by (unfold Buffered, blen in *; lia).
    apply bool_decide_eq_false, dec_stable in Hs.
    pose proof (stls_upgrade_result opts cx st Ht Hs Hb0) as Hu.
    destruct (stls_upgrade opts cx st) as [st' [[]| |]]; [|done|done]. by exists st'.
Qed.

(** A server with a TLS configuration, and a client that sent USER in plaintext. *)
Definition stls_options : Options MemSession :=
  defaults (mkOptions (PRet tt (inl (mkMem demo_store NewSession))) true [] [] 0 0 0 0 0 false 0 0
              false 0 0 [] [] false None false false false).

Definition stls_demo : St MemSession :=
  mkSt (set_username (str "alice") (newConn stls_options None None 0))
    (mkNet 7 [(9, NBytes (str "QUIT"))] None None [] []) [HsOk 8 [(10, NBytes (str "CAPA"))]] [].

Lemma stls_upgrades_cleanly_witness :
  exists st', handleSTLS stls_options (mkContext None None) stls_demo = (st', Val tt)
    /\ (upgraded stls_demo st' \/ upgrade_failed stls_demo st').
Proof.
  exact (stls_upgrades_cleanly MemSession stls_options (mkContext None None) stls_demo
    ltac:(vm_compute; reflexivity) ltac:(vm_compute; reflexivity)).
Defined.
