(* ===== verification/ServerProps.v ===== *)
(** * The server's contract, stated

    The refinement theorem of a whole connection, and a dialogue with the
    in-memory maildrop it applies to. *)
From S2P Require Import Prelude GoStrings GoConv Errors DotStuff Parse Net Session Options ConnState ConnHandlers ConnServe Wire Spec Mem MemSpec Demo RefineInput RefineLoop ServerSpec.

(** C1: to a client that sends whole lines, in whatever segments and however
    early, and takes what it is sent, the server writes exactly the
    conversation of the abstract protocol machine: greeting, one response per
    line, in order, and the farewell of a timeout, a line too long, QUIT or too
    many errors; and it leaves the session as the machine does, closed.  This holds for every session whose methods only compute. *)
Theorem server_implements_machine (Sess : Type) `{Unicode} `{PureSession Sess}
    (opts : Options Sess) int_width nc cancel n hs s ls :
  plain_config opts (isTLSConn nc) -> Options.NewSession opts = PRet tt (inl s) -> sends opts n ls -> accepts n ->
  let st := (ServeConn opts int_width nc cancel n hs).1 in
  wire (net st) = wire n ++ conversation opts int_width (isTLSConn nc) s ls
  /\ ConnState.session (conn st) = Some (final_session opts int_width (isTLSConn nc) s ls).
Proof. intros Hc Hs Hn Ha. by apply ServeConn_conversation. Qed.

(** The dialogue of the witness. *)
Lemma server_implements_machine_witness :
  let ls := ["USER alice"; "PASS s3cret"; "STAT"; "RETR 1"; "DELE 1"; "QUIT"]%string in
  let st := (ServeConn (demo_options 0) 64 None None (demo_net ls) []).1 in
  wire (net st) = wire (demo_net ls) ++ conversation (demo_options 0) 64 (isTLSConn None) (mkMem demo_store NewSession)
      (map (fun s => str s ++ [CR]) ls)
  /\ ConnState.session (conn st) = Some (final_session (demo_options 0) 64 (isTLSConn None) (mkMem demo_store NewSession)
      (map (fun s => str s ++ [CR]) ls)).
Proof.
  apply (server_implements_machine MemSession (demo_options 0) 64 None None (demo_net _) []).
  - split; vm_compute; done || by left.
  - reflexivity.
  - split; [apply (bool_decide_unpack _); vm_compute; exact I|].
    split; [repeat constructor; vm_compute; discriminate|].
    split; [vm_compute; reflexivity|]. repeat constructor; vm_compute; reflexivity.
  - constructor.
Defined.
