(* ===== verification/Server.v ===== *)
(** * pop3server/server.go: accepting connections and shutting down

    The accept loop of [Serve], with its back-off, as a function of what
    [Accept] returns and when; and [Serve], the connections it starts and
    [Close] as concurrent steps on the server's shared state. *)
From S2P Require Import Prelude Errors Session Options.

(** ** The accept loop *)

(** Durations in nanoseconds. *)
Definition millisecond : Z := 1000000.
Definition maxBackoff : Z := 1000 * millisecond.

(** The delay after one more failure. *)
Definition next_backoff (backoff : Z) : Z :=
  let b := if backoff =? 0 then 5 * millisecond else backoff * 2 in
  if maxBackoff <? b then maxBackoff else b.

(** What one call of [Accept] returns, and how long it takes. *)
Inductive accept_result := AConn (id : nat) | AErr (e : goerr).

(** What the loop does: it starts the goroutine of a connection, or waits. *)
Inductive serve_event := EvConn (id : nat) | EvBackoff (d : Z).

(** How [Serve] stands when the script of [Accept] ends: it returned nil, or it
    waits in [Accept]. *)
Inductive serve_end := ServeReturned (t : Z) | ServeAccepting (t : Z).

(** The loop from time [now] on; [cancelled] is when the server's context is. *)
Fixpoint serve_accepts (script : list (Z * accept_result)) (cancelled : option Z) (backoff now : Z)
    : list serve_event * serve_end :=
  match script with
  | [] => ([], ServeAccepting now)
  | (d, r) :: script' =>
    let now := now + d in
    match r with
    | AErr _ =>
      if match cancelled with Some c => c <=? now | None => false end then ([], ServeReturned now)
      else
        let backoff := next_backoff backoff in
        if match cancelled with Some c => c <=? now + backoff | None => false end
        then ([EvBackoff (default 0 cancelled - now)], ServeReturned (default 0 cancelled))
        else
          let '(evs, e) := serve_accepts script' cancelled backoff (now + backoff) in
          (EvBackoff backoff :: evs, e)
    | AConn id =>
      let '(evs, e) := serve_accepts script' cancelled 0 now in (EvConn id :: evs, e)
    end
  end.

Definition Serve (script : list (Z * accept_result)) (cancelled : option Z) (now : Z) :=
  serve_accepts script cancelled 0 now.

(** [ListenAndServe], [ListenAndServeTLS]: [listen] is what [net.Listen] or
    [tls.Listen] returned; an error ends them. *)
Definition ListenAndServe (listen : option goerr) script cancelled now :=
  match listen with
  | Some e => inr e
  | None => inl (Serve script cancelled now)
  end.

Definition errListenerClosed : goerr := ENet (str "use of closed network connection") false.

Definition ListenAndServeTLS (TLSConfig : bool) (listen : option goerr) script cancelled now :=
  if negb TLSConfig then inr errListenerClosed
  else ListenAndServe listen script cancelled now.

(** ** Serve, connections and Close as concurrent steps

    One call of [Serve] and one of [Close] on one server; [handleConn] is one
    step here, from the goroutine's start to its end ([ConnServe] has what it
    does in between). *)

(** Where the goroutine of [Serve] is: before [s.listener = ln]; in [Accept];
    holding an accepted connection, before [s.wg.Add(1)]; backing off; returned. *)
Inductive serve_pc := SStart | SAccept | SGot | SBackoff | SReturned.

(** Where the goroutine of [Close] is: not called; past [s.cancel()]; past
    [s.listener.Close()], in [s.wg.Wait()]; returned. *)
Inductive close_pc := CIdle | CCancelled | CWaiting | CReturned.

Record shutdown := mkShutdown {
  sd_serve : serve_pc;
  sd_close : close_pc;
  sd_ctx : bool;       (* the server's context is cancelled *)
  sd_listener : bool;  (* [s.listener] is set *)
  sd_closed : bool;    (* the listener is closed *)
  sd_wg : nat;         (* the WaitGroup's counter *)
  sd_conns : nat       (* connections being handled *)
}.

(** What [New] leaves: the options resolved, a fresh context, no listener. *)
Definition sd_start : shutdown := mkShutdown SStart CIdle false false false 0 0.

Definition New {Sess} (opts : Options Sess) : Options Sess * shutdown := (defaults opts, sd_start).

(** One step of one goroutine. *)
Inductive sd_step : shutdown -> shutdown -> Prop :=
| st_store c x l k w n :
    sd_step (mkShutdown SStart c x l k w n) (mkShutdown SAccept c x true k w n)
| st_accept c x l w n :
    sd_step (mkShutdown SAccept c x l false w n) (mkShutdown SGot c x l false w n)
| st_spawn c x l k w n :
    sd_step (mkShutdown SGot c x l k w n) (mkShutdown SAccept c x l k (S w) (S n))
| st_error c l k w n :
    sd_step (mkShutdown SAccept c false l k w n) (mkShutdown SBackoff c false l k w n)
| st_retry c x l k w n :
    sd_step (mkShutdown SBackoff c x l k w n) (mkShutdown SAccept c x l k w n)
| st_return pc c l k w n :
    pc = SAccept \/ pc = SBackoff ->
    sd_step (mkShutdown pc c true l k w n) (mkShutdown SReturned c true l k w n)
| st_conn_done pc c x l k w n :
    sd_step (mkShutdown pc c x l k (S w) (S n)) (mkShutdown pc c x l k w n)
| st_cancel pc x l k w n :
    sd_step (mkShutdown pc CIdle x l k w n) (mkShutdown pc CCancelled true l k w n)
| st_close pc x l k w n :
    sd_step (mkShutdown pc CCancelled x l k w n) (mkShutdown pc CWaiting x l (k || l) w n)
| st_wait pc x l k n :
    sd_step (mkShutdown pc CWaiting x l k 0 n) (mkShutdown pc CReturned x l k 0 n).

Definition reachable : shutdown -> Prop := rtc sd_step sd_start.

(** ** Facts *)

(** The delay after [k] consecutive failures, [k] from one on. *)
Definition backoff_after (k : nat) : Z := Z.min maxBackoff (5 * millisecond * 2 ^ (Z.of_nat k - 1)).

(** The loop's variable after them. *)
Definition current (k : nat) : Z := match k with O => 0 | S _ => backoff_after k end.

Lemma next_backoff_after k : next_backoff (current k) = backoff_after (S k).
Proof.
  unfold next_backoff, current, backoff_after, maxBackoff, millisecond. destruct k as [|k]; [done|].
  replace (Z.of_nat (S (S k)) - 1) with (Z.succ (Z.of_nat (S k) - 1)) by lia.
  rewrite Z.pow_succ_r by lia. set (p := 2 ^ (Z.of_nat (S k) - 1)).
  assert (0 < p) by (apply Z.pow_pos_nonneg; lia).
  destruct (Z.eqb_spec (Z.min (1000 * 1000000) (5 * 1000000 * p)) 0); [lia|].
  destruct (Z.ltb_spec (1000 * 1000000) (Z.min (1000 * 1000000) (5 * 1000000 * p) * 2)); lia.
Qed.

(** [k] failures in a row. *)
Definition failures (l : list (Z * goerr)) : list (Z * accept_result) := map (fun de => (de.1, AErr de.2)) l.

Definition backoffs (k n : nat) : list Z := map backoff_after (seq (S k) n).

Lemma serve_failures k l script now :
  exists now',
    now' = now + foldr (fun de a => de.1 + a) 0 l + foldr Z.add 0 (backoffs k (length l))
    /\ serve_accepts (failures l ++ script) None (current k) now
       = let '(evs, e) := serve_accepts script None (current (k + length l)) now' in
         (map EvBackoff (backoffs k (length l)) ++ evs, e).
Proof.
  revert k now. induction l as [|[d e] l IH]; intros k now.
  - exists now. simpl. rewrite Nat.add_0_r. split; [lia|]. by destruct (serve_accepts _ _ _ _).
  - cbn [failures map fst snd app serve_accepts]. fold (failures l). rewrite (next_backoff_after k).
    destruct (IH (S k) (now + d + backoff_after (S k))) as (now' & Hn & E).
    change (current (S k)) with (backoff_after (S k)) in E. rewrite E.
    cbv zeta. exists now'. split.
    + rewrite Hn. simpl. fold (backoffs (S k) (length l)). unfold backoffs. lia.
    + replace (k + length ((d, e) :: l))%nat with (S k + length l)%nat by (simpl; lia).
      destruct (serve_accepts script _ _ _) as [evs x]. done.
Qed.

Definition accepted (script : list (Z * accept_result)) : list nat :=
  omap (fun x => match x.2 with AConn id => Some id | AErr _ => None end) script.

Definition handled (evs : list serve_event) : list nat :=
  omap (fun e => match e with EvConn id => Some id | EvBackoff _ => None end) evs.

Definition calm_event (e : serve_event) : Prop := match e with EvConn _ => True | EvBackoff d => 0 < d <= maxBackoff end.

Lemma next_backoff_range b : 0 <= b -> 0 < next_backoff b <= maxBackoff.
Proof.
  intros Hb. unfold next_backoff, maxBackoff, millisecond.
  destruct (Z.eqb_spec b 0); [done|]. destruct (Z.ltb_spec (1000 * 1000000) (b * 2)); lia.
Qed.

Lemma serve_accepts_spec script cancelled b now evs e :
  0 <= b -> serve_accepts script cancelled b now = (evs, e) ->
  handled evs `prefix_of` accepted script /\ Forall calm_event evs
  /\ match e with
     | ServeReturned t => exists c, cancelled = Some c /\ c <= t
     | ServeAccepting _ => handled evs = accepted script
     end.
Proof.
  revert b now evs e. induction script as [|[d r] script IH]; intros b now evs e Hb; cbn [serve_accepts].
  { intros [= <- <-]. split_and!; done || constructor. }
  destruct r as [id|err].
  - destruct (serve_accepts script cancelled 0 (now + d)) as [evs' e'] eqn:E. intros [= <- <-].
    destruct (IH 0 _ _ _ ltac:(lia) E) as (Hp & Hc & He). split_and!.
    + simpl. by apply prefix_cons.
    + by constructor.
    + destruct e'; [done|]. simpl. by rewrite He.
  - pose proof (next_backoff_range b Hb) as Hr.
    destruct cancelled as [c|].
    + destruct (Z.leb_spec c (now + d)).
      { intros [= <- <-]. split_and!; [apply prefix_nil|constructor|]. by exists c. }
      destruct (Z.leb_spec c (now + d + next_backoff b)).
      { intros [= <- <-]. split_and!; [apply prefix_nil| |by exists c]. repeat constructor; simpl; lia. }
      destruct (serve_accepts script (Some c) _ _) as [evs' e'] eqn:E. intros [= <- <-].
      destruct (IH (next_backoff b) _ _ _ ltac:(lia) E) as (Hp & Hc & He). split_and!; [done| |by destruct e'].
      constructor; [exact Hr|done].
    + destruct (serve_accepts script None _ _) as [evs' e'] eqn:E. intros [= <- <-].
      destruct (IH (next_backoff b) _ _ _ ltac:(lia) E) as (Hp & Hc & He). split_and!; [done| |by destruct e'].
      constructor; [exact Hr|done].
Qed.

(** ** Facts: shutting down *)

Lemma reachable_ind (P : shutdown -> Prop) :
  P sd_start -> (forall s s', sd_step s s' -> P s -> P s') -> forall s, reachable s -> P s.
Proof. intros H0 Hs s H. refine (rtc_ind_r _ _ H0 _ _ H). intros y z _ Hyz Hy. by eapply Hs. Qed.

(** The counter counts, and an unset listener is not closed. *)
Lemma reachable_inv s : reachable s ->
  sd_wg s = sd_conns s /\ (sd_serve s = SStart -> sd_closed s = false /\ sd_listener s = false).
Proof.
  revert s. apply reachable_ind; [done|]. intros s s' Hs. destruct Hs; simpl; naive_solver.
Qed.

(** The listener is closed; at most a connection that was being accepted is
    still to come. *)
Definition winding_down (s : shutdown) : Prop :=
  sd_closed s = true
  /\ (sd_serve s = SGot /\ sd_conns s = 0%nat
      \/ sd_serve s <> SGot /\ sd_serve s <> SStart /\ (sd_conns s <= 1)%nat).

Lemma winding_down_step s s' : sd_step s s' -> winding_down s -> winding_down s'.
Proof.
  unfold winding_down. intros Hs. destruct Hs; simpl; intros [Hk Hc]; split; try done;
    try (destruct Hc as [[? ?]|(? & ? & ?)]; simplify_eq; try done; right; split_and!; done || lia).
Qed.

(** Nothing is left and nothing is to come. *)
Definition quiet (s : shutdown) : Prop :=
  sd_closed s = true /\ sd_serve s <> SGot /\ sd_serve s <> SStart /\ sd_conns s = 0%nat.

Lemma quiet_step s s' : sd_step s s' -> quiet s -> quiet s'.
Proof. unfold quiet. intros Hs. destruct Hs; simpl; intros (? & ? & ? & ?); by simplify_eq. Qed.

Lemma rtc_keeps (P : shutdown -> Prop) s s' :
  (forall a b, sd_step a b -> P a -> P b) -> rtc sd_step s s' -> P s -> P s'.
Proof. intros Hp Hr. induction Hr; eauto. Qed.

(** [Close] is past the closing of the listener and left it open: it found none. *)
Definition unseen (s : shutdown) : Prop :=
  (sd_close s = CWaiting \/ sd_close s = CReturned) /\ sd_closed s = false.

Lemma unseen_step s s' : sd_step s s' -> unseen s -> unseen s'.
Proof. unfold unseen. intros Hs. destruct Hs; simpl; naive_solver. Qed.

Lemma accepts_any c x l n m :
  rtc sd_step (mkShutdown SAccept c x l false n n) (mkShutdown SAccept c x l false (m + n) (m + n)).
Proof.
  induction m as [|m IH]; [apply rtc_refl|]. etrans; [exact IH|].
  eapply rtc_l; [apply st_accept|]. eapply rtc_l; [apply st_spawn|]. apply rtc_refl.
Qed.

(** Before [Serve] has stored its listener there is none and nothing is handled. *)
Lemma reachable_start s : reachable s ->
  sd_serve s = SStart -> (sd_closed s || sd_listener s) = false /\ sd_wg s = 0%nat /\ sd_conns s = 0%nat.
Proof.
  revert s. refine (reachable_ind (fun s => sd_serve s = SStart -> _) _ _); [done|].
  intros s s' Hs. destruct Hs; simpl; intros IH Hst; try done; destruct (IH Hst) as (Hk & Hw & Hn); simplify_eq/=; try done.
  apply orb_false_iff in Hk as [-> ->]. done.
Qed.

Lemma unseen_accepts s n : reachable s -> unseen s -> sd_serve s = SStart ->
  exists s', rtc sd_step s s' /\ sd_close s' = CReturned /\ sd_serve s' = SAccept /\ sd_listener s' = true
    /\ sd_closed s' = false /\ sd_conns s' = n.
Proof.
  intros Hr [Hc Hk] Hs. destruct (reachable_start s Hr Hs) as (_ & Hw & Hn).
  destruct s as [pc c x l k w m]. simpl in *. subst.
  exists (mkShutdown SAccept CReturned x true false (n + 0) (n + 0)). split; [|simpl; split_and!; try done; lia].
  etrans; [|apply accepts_any]. destruct Hc as [-> | ->].
  - eapply rtc_l; [apply st_wait|]. eapply rtc_l; [apply st_store|]. apply rtc_refl.
  - eapply rtc_l; [apply st_store|]. apply rtc_refl.
Qed.

(** ** Properties *)

(** C34: the accept loop backs off.  [n] failures of Accept in a row, the first
    after a success or at the start, are followed by waits of 5 ms, 10 ms, 20 ms,
    and so on, doubling up to one second; the next success starts its connection
    and resets the delay. *)
Theorem accept_backoff l d id script now :
  exists now',
    now' = now + foldr (fun de a => de.1 + a) 0 l + foldr Z.add 0 (backoffs 0 (length l)) + d
    /\ Serve (failures l ++ (d, AConn id) :: script) None now
       = (map EvBackoff (backoffs 0 (length l)) ++ EvConn id :: (Serve script None now').1,
          (Serve script None now').2).
Proof.
  destruct (serve_failures 0 l ((d, AConn id) :: script) now) as (now' & Hn & E).
  exists (now' + d). split; [lia|]. unfold Serve. change 0 with (current 0) at 1. rewrite E.
  cbn [serve_accepts]. by destruct (serve_accepts script None 0 (now' + d)).
Qed.

(** C30: Serve starts one goroutine per accepted connection, in order, and no
    other; it waits at most a second at a time; it returns only when the
    server's context is cancelled, and as long as it has not returned every
    accepted connection was started. *)
Theorem serve_handles_connections script cancelled now :
  let '(evs, e) := Serve script cancelled now in
  handled evs `prefix_of` accepted script /\ Forall calm_event evs
  /\ match e with
     | ServeReturned t => exists c, cancelled = Some c /\ c <= t
     | ServeAccepting _ => handled evs = accepted script
     end.
Proof.
  destruct (Serve script cancelled now) as [evs e] eqn:E. by eapply serve_accepts_spec; [|exact E].
Qed.

(** C29: Close waits.  When Close returns no connection is being handled; and when
    it found the listener and closed it, then whatever happens afterwards at most
    one connection is ever handled again, and none if Serve was not just holding
    a connection it had accepted. *)
Theorem close_waits s s' :
  reachable s -> sd_step s s' -> sd_close s <> CReturned -> sd_close s' = CReturned ->
  sd_conns s' = 0%nat
  /\ (sd_closed s' = true -> forall s'', rtc sd_step s' s'' ->
       (sd_conns s'' <= 1)%nat /\ (sd_serve s' <> SGot -> sd_conns s'' = 0%nat)).
Proof.
  intros Hr Hs Hn Hc. destruct (reachable_inv s Hr) as [Hwg Hst].
  assert (sd_conns s' = 0%nat) as H0 by (destruct Hs; simpl in *; done).
  assert (sd_serve s' = SStart -> sd_closed s' = false) as Hst'.
  { intros H. apply (reachable_inv s'); [|done]. eapply rtc_r; [exact Hr|exact Hs]. }
  split; [done|]. intros Hk s'' Hrr.
  assert (sd_serve s' <> SStart) as Hns by (intros H; rewrite (Hst' H) in Hk; done).
  split.
  - assert (winding_down s'') as [_ [[_ ->]|(_ & _ & ?)]]; [|lia|done].
    apply (rtc_keeps winding_down s'); [apply winding_down_step | done|].
    split; [done|]. destruct (sd_serve s') eqn:E; try done; [right|by left|right|right]; (split_and!; done || lia).
  - intros Hg. apply (rtc_keeps quiet s'); [apply quiet_step | done|]. by split_and!.
Qed.

(** C37: what Close does not wait for.  First: a connection that Serve holds when
    Close returns - accepted just before the listener was closed - is handled
    after Close has returned.  Second: when Close looks for the listener before
    Serve has stored it, then nothing that happens afterwards closes the
    listener; and from there, Serve being still at its start, Close can return
    and Serve store the listener and have any number of connections being
    handled at once, with the listener open and Serve accepting more. *)
Theorem close_can_miss_connections :
  (exists s, reachable s /\ sd_close s = CReturned /\ sd_closed s = true /\ sd_serve s = SGot /\ sd_conns s = 0%nat)
  /\ (forall s, reachable s -> sd_close s = CReturned -> sd_serve s = SGot ->
       exists s', sd_step s s' /\ sd_close s' = CReturned /\ sd_conns s' = S (sd_conns s))
  /\ (exists s, reachable s /\ unseen s)
  /\ forall s, reachable s -> unseen s ->
     (forall s', rtc sd_step s s' -> sd_closed s' = false)
     /\ (sd_serve s = SStart -> forall n, exists s', rtc sd_step s s'
           /\ sd_close s' = CReturned /\ sd_serve s' = SAccept /\ sd_listener s' = true
           /\ sd_closed s' = false /\ sd_conns s' = n).
Proof.
  split_and!.
  - exists (mkShutdown SGot CReturned true true true 0 0). split; [|done].
    eapply rtc_l; [apply st_store|]. eapply rtc_l; [apply st_accept|]. eapply rtc_l; [apply st_cancel|].
    eapply rtc_l; [apply st_close|]. eapply rtc_l; [apply st_wait|]. apply rtc_refl.
  - intros [pc c x l k w n] _ Hc Hg. simpl in *. subst. eexists. split; [apply st_spawn|done].
  - exists (mkShutdown SStart CWaiting true false false 0 0). split; [|split; [by left|done]].
    eapply rtc_l; [apply st_cancel|]. eapply rtc_l; [apply st_close|]. apply rtc_refl.
  - intros s Hr Hu. split; [intros s' Hrr; by apply (rtc_keeps unseen s s' unseen_step Hrr Hu)|].
    intros Hs n. by apply unseen_accepts.
Qed.

Lemma close_waits_witness :
  let s := mkShutdown SAccept CWaiting true true true 0 0 in
  let s' := mkShutdown SAccept CReturned true true true 0 0 in
  reachable s /\ sd_step s s' /\ sd_conns s' = 0%nat.
Proof.
  intros s s'.
  assert (reachable s) as Hr.
  { eapply rtc_l; [apply st_store|]. eapply rtc_l; [apply st_cancel|].
    eapply rtc_l; [apply st_close|]. apply rtc_refl. }
  assert (sd_step s s') as Hs by apply st_wait.
  split; [exact Hr|]. split; [exact Hs|].
  destruct (close_waits s s' Hr Hs ltac:(discriminate) eq_refl) as [H _]. exact H.
Defined.
