(* ===== verification/Client.v ===== *)
(** * pop3client: the client

    [Client] and its operations over the same connections and buffers as the
    server's.  A context has a deadline and may be cancelled; [guard] watches
    it while an operation is under way. *)
From S2P Require Import Prelude GoStrings GoConv Errors DotStuff Parse Net Session ConnState.

(** ** Data *)

(** [Options]: whether [TLSConfig] is set, and the limits. *)
Record COptions := mkCOptions {
  co_TLSConfig : bool;
  STARTTLS : bool;
  co_MaxLineLength : Z;
  MaxResponseLines : Z
}.

(** [Client]; [conn] is the network of the state below. *)
Record Client := mkClient {
  cl_reader : Reader;
  cl_writer : Writer_;
  maxLine : Z;
  maxRespLines : Z;
  greeting : bytes
}.

Record XClientParam := mkXClientParam { xp_Name : bytes; xp_Value : bytes }.

(** The errors an operation returns: of the connection; [ProtocolError]; and
    [fmt.Errorf("pop3client: malformed LIST line %q", line)], likewise UIDL. *)
Inductive cerr :=
| CErr (e : goerr)
| ProtocolError (Response : bytes)
| MalformedLIST (line : bytes)
| MalformedUIDL (line : bytes).

Abbreviation cres A := (A + cerr)%type.

(** The client, its connection, the outcomes of TLS handshakes to come, and
    the guards that are armed: each by the time its context is done.  [lag]
    schedules the guards' goroutines: for each call into the connection, how long
    during it the goroutine of a guard that is due takes to get to run, no time
    at all when the list is at its end. *)
Record CSt := mkCSt {
  client : Client;
  cnet : Net;
  chs : list Handshake;
  armed : list Z;
  lag : list nat;
  closed : bool
}.

Definition set_client v s := mkCSt v (cnet s) (chs s) (armed s) (lag s) (closed s).
Definition set_cnet v s := mkCSt (client s) v (chs s) (armed s) (lag s) (closed s).
Definition set_chs v s := mkCSt (client s) (cnet s) v (armed s) (lag s) (closed s).
Definition set_armed v s := mkCSt (client s) (cnet s) (chs s) v (lag s) (closed s).
Definition set_lag v s := mkCSt (client s) (cnet s) (chs s) (armed s) v (closed s).
Definition set_closed v s := mkCSt (client s) (cnet s) (chs s) (armed s) (lag s) v.

Definition set_cl_reader v c := mkClient v (cl_writer c) (maxLine c) (maxRespLines c) (greeting c).
Definition set_cl_writer v c := mkClient (cl_reader c) v (maxLine c) (maxRespLines c) (greeting c).
Definition set_greeting v c := mkClient (cl_reader c) (cl_writer c) (maxLine c) (maxRespLines c) v.

(** ** Computations: they return a value or never return *)

Definition C (A : Type) : Type := CSt -> CSt * io A.

Definition cret {A} (a : A) : C A := fun s => (s, IoVal a).

Definition cbind {A B} (m : C A) (k : A -> C B) : C B := fun s =>
  match m s with
  | (s', IoVal a) => k a s'
  | (s', IoBlock) => (s', IoBlock)
  end.

(** [if err != nil { return err }]. *)
Definition ebind {A B} (m : C (cres A)) (k : A -> C (cres B)) : C (cres B) :=
  cbind m (fun r => match r with inl a => k a | inr e => cret (inr e) end).

Definition cget {A} (f : CSt -> A) : C A := fun s => (s, IoVal (f s)).
Definition cmod (f : CSt -> CSt) : C unit := fun s => (f s, IoVal tt).

Declare Scope client_scope.
Notation "x <- m ;; k" := (cbind m (fun x => k))
  (at level 100, m at next level, right associativity) : client_scope.
Notation "m ;;; k" := (cbind m (fun _ => k)) (at level 100, right associativity) : client_scope.
Notation "x <-? m ;; k" := (ebind m (fun x => k))
  (at level 100, m at next level, right associativity) : client_scope.
Local Open Scope client_scope.

(** ** Guards *)

(** In a call that begins at [since], with the schedule's delay [late], the
    goroutine of a guard armed by [t] runs at [goes since late t]. *)
Definition goes (since late t : Z) : Z := Z.max since t + late.

(** What a guard's goroutine does: [conn.SetDeadline(time.Now().Add(-time.Second))]. *)
Definition poison (n : Net) : Net := SetDeadline (Some (now n - 1000000000)) n.

(** The guards whose goroutine has got to run by now have run. *)
Definition fire (since late : Z) (s : CSt) : CSt :=
  if existsb (fun t => goes since late t <=? now (cnet s)) (armed s)
  then set_armed (List.filter (fun t => negb (goes since late t <=? now (cnet s))) (armed s))
         (set_cnet (poison (cnet s)) s)
  else s.

(** Before a call into the connection: the schedule's delay for it, and the
    guards that are due have run unless it holds them back. *)
Definition poll : C Z := fun s =>
  let late := Z.of_nat (hd 0%nat (lag s)) in
  (fire (now (cnet s)) late (set_lag (tail (lag s)) s), IoVal late).

(** The earliest of a list of times. *)
Definition soonest (l : list Z) : option Z := foldr (fun t o => min_opt (Some t) o) None l.

(** The network as a call that may block sees it: when the first guard's goroutine
    runs, a deadline in the past ends the call. *)
Definition watched (late : Z) (s : CSt) : Net :=
  let n := cnet s in
  let g := option_map (goes (now n) late) (soonest (armed s)) in
  mkNet (now n) (inbox n) (min_opt (rdl n) g) (min_opt (wdl n) g) (wsched n) (wire n).

(** The state after such a call, which left the network [n]. *)
Definition after_call (s : CSt) (n : Net) : CSt :=
  set_cnet (mkNet (now n) (inbox n) (rdl (cnet s)) (wdl (cnet s)) (wsched n) (wire n)) s.

Definition blocking {A} (f : Net -> Net * io A) : C A := late <- poll;; (fun s =>
  let '(n, r) := f (watched late s) in (fire (now (cnet s)) late (after_call s n), r)).

Definition conn_SetReadDeadline (d : Z) : C unit :=
  poll;;; cmod (fun s => set_cnet (SetReadDeadline (Some d) (cnet s)) s).
Definition conn_SetWriteDeadline (d : Z) : C unit :=
  poll;;; cmod (fun s => set_cnet (SetWriteDeadline (Some d) (cnet s)) s).
Definition conn_SetDeadline (d : Z) : C unit :=
  poll;;; cmod (fun s => set_cnet (SetDeadline (Some d) (cnet s)) s).
Definition conn_Close : C unit := cmod (set_closed true).

(** [guard(ctx)] and the [stop] it returns, which ends the goroutine if it has
    not run. *)
Definition guard (cx : Context) : C unit :=
  match ctx_done cx with
  | None => cret tt
  | Some t => cmod (fun s => set_armed (t :: armed s) s)
  end.

Fixpoint remove_one (t : Z) (l : list Z) : list Z :=
  match l with
  | [] => []
  | u :: l' => if u =? t then l' else u :: remove_one t l'
  end.

Definition stop (cx : Context) : C unit :=
  match ctx_done cx with
  | None => cret tt
  | Some t => cmod (fun s => set_armed (remove_one t (armed s)) s)
  end.

(** [defer c.guard(ctx)()]. *)
Definition guarded {A} (cx : Context) (m : C A) : C A :=
  guard cx;;; r <- m;; stop cx;;; cret r.

(** ** internal helpers *)

Definition isOK (line : bytes) : bool := has_prefix line (str "+OK").

(** [c.reader.ReadLine()]. *)
Definition cl_ReadLine : C (bytes * bool * option goerr) :=
  r <- cget (fun s => cl_reader (client s));;
  res <- blocking (ReadLine r);;
  cmod (fun s => set_client (set_cl_reader res.1 (client s)) s);;;
  cret res.2.

(** An operation of [c.writer]. *)
Definition cl_write (f : Writer_ -> Net -> Net * io (Writer_ * option goerr)) : C (option goerr) :=
  w <- cget (fun s => cl_writer (client s));;
  res <- blocking (f w);;
  cmod (fun s => set_client (set_cl_writer res.1 (client s)) s);;;
  cret res.2.

Definition writeCmd (cx : Context) (line : bytes) : C (cres unit) :=
  (match ctx_deadline cx with Some d => conn_SetWriteDeadline d | None => cret tt end);;;
  e <- cl_write (wr_WriteString 0 (line ++ crlf));;
  match e with
  | Some e => cret (inr (CErr e))
  | None =>
    e <- cl_write (Flush 0);;
    cret (match e with Some e => inr (CErr e) | None => inl tt end)
  end.

(** The loop of [readLine].  Every round but the last adds a byte to [line], so
    [maxLine + 2] rounds are enough. *)
Fixpoint cl_readLine_go (k : nat) (line : bytes) : C (cres bytes) :=
  match k with
  | O => fun s => (s, IoBlock)
  | S k' =>
    res <- cl_ReadLine;;
    let '(chunk, isPrefix, e) := res in
    match e with
    | Some e => cret (inr (CErr e))
    | None =>
      max <- cget (fun s => maxLine (client s));;
      let line := line ++ chunk in
      if max <? blen line then cret (inr (CErr (EPlain (str "pop3client: response line too long"))))
      else if negb isPrefix then cret (inl line) else cl_readLine_go k' line
    end
  end.

Definition readLine (cx : Context) : C (cres bytes) :=
  (match ctx_deadline cx with Some d => conn_SetReadDeadline d | None => cret tt end);;;
  max <- cget (fun s => maxLine (client s));;
  cl_readLine_go (Z.to_nat max + 2) [].

(** The loop of [readMultiLine]: every round but the last adds a line, so
    [maxRespLines + 2] rounds are enough. *)
Fixpoint readMultiLine_go (k : nat) (cx : Context) (lines : list bytes) : C (cres (list bytes)) :=
  match k with
  | O => fun s => (s, IoBlock)
  | S k' =>
    line <-? readLine cx;;
    if line =s? str "." then cret (inl lines)
    else
      let lines := lines ++ [unstuffLine line] in
      max <- cget (fun s => maxRespLines (client s));;
      if max <? blen lines
      then cret (inr (CErr (EPlain (str "pop3client: multi-line response too long"))))
      else readMultiLine_go k' cx lines
  end.

Definition readMultiLine (cx : Context) : C (cres (list bytes)) :=
  max <- cget (fun s => maxRespLines (client s));;
  readMultiLine_go (Z.to_nat max + 2) cx [].

(** The check that follows most reads of a status line. *)
Definition expectOK (status : bytes) : cres bytes :=
  if isOK status then inl status else inr (ProtocolError status).

Definition Cmd (cx : Context) (line : bytes) : C (cres bytes) :=
  guarded cx (_ <-? writeCmd cx line;; readLine cx).

Definition cmdExpectOK (cx : Context) (line : bytes) : C (cres unit) :=
  status <-? Cmd cx line;; cret (if isOK status then inl tt else inr (ProtocolError status)).

(** ** client.go: the session commands *)

Definition Capa (cx : Context) : C (cres (list bytes)) :=
  guarded cx (
    _ <-? writeCmd cx (str "CAPA");;
    status <-? readLine cx;;
    if negb (isOK status) then cret (inr (ProtocolError status)) else readMultiLine cx).

Definition xclient_line (params : list XClientParam) : bytes :=
  str "XCLIENT" ++ concat (map (fun p => SP :: xp_Name p ++ str "=" ++ xp_Value p) params).

Definition XClient (cx : Context) (params : list XClientParam) : C (cres unit) :=
  guarded cx (
    _ <-? writeCmd cx (xclient_line params);;
    status <-? readLine cx;;
    cret (if negb (isOK status) then inr (ProtocolError status) else inl tt)).

Definition AuthPlain (cx : Context) (identity username password : bytes) : C (cres unit) :=
  guarded cx (
    let enc := b64_encode (plain_payload identity username password) in
    _ <-? writeCmd cx (str "AUTH PLAIN " ++ enc);;
    status <-? readLine cx;;
    cret (if negb (isOK status) then inr (ProtocolError status) else inl tt)).

Definition User (cx : Context) (username password : bytes) : C (cres unit) :=
  _ <-? cmdExpectOK cx (str "USER " ++ username);;
  cmdExpectOK cx (str "PASS " ++ password).

Definition Quit (cx : Context) : C (cres unit) := cmdExpectOK cx (str "QUIT").

(** [tls.Client(conn, cfg).HandshakeContext(ctx)], after [SetDeadline] to the
    context's deadline.  On success the connection is the TLS one: what the peer
    sends comes from inside it. *)
Definition client_handshake (cx : Context) : C (option goerr) :=
  (match ctx_deadline cx with Some d => conn_SetDeadline d | None => cret tt end);;;
  hs <- cget (fun s => head (chs s));;
  cmod (fun s => set_chs (tail (chs s)) s);;;
  blocking (fun n =>
    let limit := min_opt (rdl n) (ctx_done cx) in
    let late t := match limit with Some d => d <=? Z.max (now n) t | None => false end in
    let cancelled := bool_decide (is_Some (ctx_cancel cx) /\ limit = ctx_cancel cx) in
    let timed_out := (wait_until (default 0 limit) n,
                      IoVal (Some (if cancelled then EPlain (str "context canceled") else timeoutError))) in
    match hs with
    | Some (HsOk t items) =>
      if late t then timed_out else (set_inbox items (wait_until t n), IoVal None)
    | Some (HsFail t e) => if late t then timed_out else (wait_until t n, IoVal (Some e))
    | Some HsStall | None => match limit with Some _ => timed_out | None => (n, IoBlock) end
    end).

(** A fresh reader and writer: plaintext that was read ahead is dropped. *)
Definition startTLS (cx : Context) : C (cres unit) :=
  _ <-? cmdExpectOK cx (str "STLS");;
  e <- client_handshake cx;;
  match e with
  | Some e => cret (inr (CErr e))
  | None =>
    cmod (fun s => set_client (set_cl_writer NewWriter (set_cl_reader NewReader (client s))) s);;;
    cret (inl tt)
  end.

(** [Dial], from the result of [DialContext] on; the state's client is not yet
    constructed. *)
Definition Dial (cx : Context) (dialed : option goerr) (opts : COptions) : C (cres unit) :=
  match dialed with
  | Some e => cret (inr (CErr e))
  | None =>
    let max := if co_MaxLineLength opts <=? 0 then 4096 else co_MaxLineLength opts in
    let lines := if MaxResponseLines opts <=? 0 then 100000 else MaxResponseLines opts in
    e <- (if co_TLSConfig opts && negb (STARTTLS opts) then client_handshake cx else cret None);;
    match e with
    | Some e => conn_Close;;; cret (inr (CErr e))
    | None =>
      cmod (set_client (mkClient NewReader NewWriter max lines []));;;
      guarded cx (
        line <- readLine cx;;
        match line with
        | inr e => conn_Close;;; cret (inr e)
        | inl line =>
          if negb (isOK line) then conn_Close;;; cret (inr (ProtocolError line))
          else
            cmod (fun s => set_client (set_greeting line (client s)) s);;;
            (if co_TLSConfig opts && STARTTLS opts then
               r <- startTLS cx;;
               match r with inr e => conn_Close;;; cret (inr e) | inl tt => cret (inl tt) end
             else cret (inl tt))
        end)
    end
  end.

(** ** commands.go *)

Section Commands.
(** The width of [int]. *)
Variable int_width : Z.

Definition Atoi (s : bytes) : option Z := parse_signed int_width s.
Definition ParseInt64 (s : bytes) : option Z := parse_signed 64 s.

Definition parseStat (status : bytes) : cres (Z * Z) :=
  match fields status with
  | _ :: c :: n :: _ =>
    match Atoi c with
    | None => inr (ProtocolError status)
    | Some count =>
      match ParseInt64 n with
      | None => inr (ProtocolError status)
      | Some size => inl (count, size)
      end
    end
  | _ => inr (ProtocolError status)
  end.

Definition Stat (cx : Context) : C (cres (Z * Z)) :=
  status <-? Cmd cx (str "STAT");;
  cret (if negb (isOK status) then inr (ProtocolError status) else parseStat status).

Definition parseNumSize (line : bytes) : cres (Z * Z) :=
  match fields line with
  | a :: b :: _ =>
    match Atoi a with
    | None => inr (MalformedLIST line)
    | Some num => match ParseInt64 b with
                  | None => inr (MalformedLIST line)
                  | Some size => inl (num, size)
                  end
    end
  | _ => inr (MalformedLIST line)
  end.

Definition parseNumUID (line : bytes) : cres (Z * bytes) :=
  match fields line with
  | a :: b :: _ =>
    match Atoi a with
    | None => inr (MalformedUIDL line)
    | Some num => inl (num, b)
    end
  | _ => inr (MalformedUIDL line)
  end.

(** Parse every line, or stop at the first that does not parse. *)
Fixpoint parse_lines {A} (parse : bytes -> cres A) (lines : list bytes) : cres (list A) :=
  match lines with
  | [] => inl []
  | l :: ls =>
    match parse l with
    | inr e => inr e
    | inl a => match parse_lines parse ls with inr e => inr e | inl l => inl (a :: l) end
    end
  end.

(** The shape [List] and [Uidl] share. *)
Definition listing_cmd {A} (cx : Context) (cmd : bytes) (parse : bytes -> cres A) : C (cres (list A)) :=
  guarded cx (
    _ <-? writeCmd cx cmd;;
    status <-? readLine cx;;
    if negb (isOK status) then cret (inr (ProtocolError status))
    else lines <-? readMultiLine cx;; cret (parse_lines parse lines)).

Definition as_info (r : cres (Z * Z)) : cres MessageInfo :=
  match r with inl (n, s) => inl (mkMessageInfo n s) | inr e => inr e end.
Definition as_uidl (r : cres (Z * bytes)) : cres MessageUidl :=
  match r with inl (n, u) => inl (mkMessageUidl n u) | inr e => inr e end.

Definition List_ (cx : Context) : C (cres (list MessageInfo)) :=
  listing_cmd cx (str "LIST") (fun l => as_info (parseNumSize l)).
Definition Uidl (cx : Context) : C (cres (list MessageUidl)) :=
  listing_cmd cx (str "UIDL") (fun l => as_uidl (parseNumUID l)).

(** What follows the [+OK] of a one-line answer. *)
Definition after_ok (status : bytes) : bytes := trim_space (trim_prefix status (str "+OK")).

(** An item that does not parse is reported with the whole status line. *)
Definition or_protocol {A} (status : bytes) (r : cres A) : cres A :=
  match r with inl a => inl a | inr _ => inr (ProtocolError status) end.

Definition ListOne (cx : Context) (msg : Z) : C (cres MessageInfo) :=
  status <-? Cmd cx (str "LIST " ++ itoa msg);;
  cret (if negb (isOK status) then inr (ProtocolError status)
        else or_protocol status (as_info (parseNumSize (after_ok status)))).

Definition UidlOne (cx : Context) (msg : Z) : C (cres MessageUidl) :=
  status <-? Cmd cx (str "UIDL " ++ itoa msg);;
  cret (if negb (isOK status) then inr (ProtocolError status)
        else or_protocol status (as_uidl (parseNumUID (after_ok status)))).

Definition Dele (cx : Context) (msg : Z) : C (cres unit) := cmdExpectOK cx (str "DELE " ++ itoa msg).
End Commands.

Definition Rset (cx : Context) : C (cres unit) := cmdExpectOK cx (str "RSET").
Definition Noop (cx : Context) : C (cres unit) := cmdExpectOK cx (str "NOOP").

(** ** Message bodies *)

(** [bodyReader]; [br_guard] says that [stop] is still to be called. *)
Record bodyReader := mkBodyReader { br_ctx : Context; br_buf : bytes; br_done : bool; br_guard : bool }.

(** [retrieve]: the guard stays armed while the body is read. *)
Definition retrieve (cx : Context) (cmd : bytes) : C (cres bodyReader) :=
  guard cx;;;
  r <- writeCmd cx cmd;;
  match r with
  | inr e => stop cx;;; cret (inr e)
  | inl tt =>
    r <- readLine cx;;
    match r with
    | inr e => stop cx;;; cret (inr e)
    | inl status =>
      if negb (isOK status) then stop cx;;; cret (inr (ProtocolError status))
      else cret (inl (mkBodyReader cx [] false true))
    end
  end.

Definition Retr (cx : Context) (msg : Z) : C (cres bodyReader) := retrieve cx (str "RETR " ++ itoa msg).
Definition Top (cx : Context) (msg lines : Z) : C (cres bodyReader) :=
  retrieve cx (str "TOP " ++ itoa msg ++ str " " ++ itoa lines).

Definition finish (b : bodyReader) : C bodyReader :=
  (if br_guard b then stop (br_ctx b) else cret tt);;;
  cret (mkBodyReader (br_ctx b) (br_buf b) true false).

(** [copy] into a slice of length [n]. *)
Definition body_copy (n : nat) (b : bodyReader) : bodyReader * bytes :=
  (mkBodyReader (br_ctx b) (drop n (br_buf b)) (br_done b) (br_guard b), take n (br_buf b)).

(** [Read] into a slice of length [n].  A line read from the connection leaves
    the buffer non-empty, so that the loop over it runs at most once. *)
Definition body_Read (n : nat) (b : bodyReader) : C (bodyReader * (bytes * option cerr)) :=
  match br_buf b with
  | _ :: _ => let '(b', p) := body_copy n b in cret (b', (p, None))
  | [] =>
    if br_done b then cret (b, ([], Some (CErr (ESentinel EOF))))
    else
      r <- readLine (br_ctx b);;
      match r with
      | inr e => b <- finish b;; cret (b, ([], Some e))
      | inl line =>
        if line =s? str "." then b <- finish b;; cret (b, ([], Some (CErr (ESentinel EOF))))
        else
          let '(b', p) := body_copy n (mkBodyReader (br_ctx b) (unstuffLine line ++ crlf) (br_done b) (br_guard b)) in
          cret (b', (p, None))
      end
  end.

(** The loop of [Close], with the number of lines it may read. *)
Fixpoint body_Close_go (k : nat) (b : bodyReader) : C (bodyReader * option cerr) :=
  if br_done b then b <- finish b;; cret (b, None)
  else
    match k with
    | O => fun s => (s, IoBlock)
    | S k' =>
      r <- readLine (br_ctx b);;
      match r with
      | inr e => b <- finish b;; cret (b, Some e)
      | inl line =>
        if line =s? str "." then b <- finish b;; body_Close_go k' b else body_Close_go k' b
      end
    end.

(** [Close].  Every line costs a byte of what is buffered or still to come, so
    that this many rounds are enough. *)
Definition body_Close (b : bodyReader) : C (bodyReader * option cerr) :=
  w <- cget (fun s => rweight (cl_reader (client s)) (cnet s));;
  body_Close_go (w + 1) b.
