(* ===== verification/ClientFacts.v ===== *)
(** * The client over a connection that answers in time

    What each building block of the client does when the server's bytes arrive,
    in any segments, before every deadline and cancellation: what it reads,
    what it writes, what it returns. *)
From S2P Require Import Prelude GoStrings GoConv Errors DotStuff Parse Net NetLive Session ConnState Client.
Local Open Scope client_scope.

(** The server's bytes [s] arrive before anything interrupts an operation under
    [cx], and writing works. *)
Record calm (cx : Context) (st : CSt) (s : bytes) : Prop := mkCalm {
  rd_input : yields (cl_reader (client st)) (cnet st) s;
  rd_output : writable 0 (cl_writer (client st)) (cnet st);
  rd_wdl d : wdl (cnet st) = Some d -> before d (cnet st);
  rd_armed : Forall (fun t => before t (cnet st)) (armed st);
  rd_ctx t : ctx_done cx = Some t -> before t (cnet st)
}.

(** Moreover nothing is buffered: the client is between two commands. *)
Definition ready (cx : Context) (st : CSt) (s : bytes) : Prop :=
  calm cx st s /\ wbuf (cl_writer (client st)) = [].

(** What operations leave alone. *)
Record keeps (st st' : CSt) : Prop := mkKeeps {
  kp_armed : armed st' = armed st;
  kp_chs : chs st' = chs st;
  kp_closed : closed st' = closed st;
  kp_line : maxLine (client st') = maxLine (client st);
  kp_resp : maxRespLines (client st') = maxRespLines (client st)
}.

#[export] Instance keeps_pre : PreOrder keeps.
Proof. split; [by intros st|]. intros a b c [] []. split; congruence. Qed.

(** Under [cx], [m] reads [i], writes [o] and returns [a]. *)
Definition happens {A} (cx : Context) (m : C A) (st : CSt) (i o : bytes) (a : A) : Prop :=
  forall rest, ready cx st (i ++ rest) ->
  exists st', m st = (st', IoVal a) /\ ready cx st' rest /\ keeps st st'
              /\ wire (cnet st') = wire (cnet st) ++ o.

Section Happens.
Variable cx : Context.

Lemma happens_ret {A} (a : A) st : happens cx (cret a) st [] [] a.
Proof. intros rest Hr. exists st. split_and!; [done|done|done|by rewrite app_nil_r]. Qed.

Lemma happens_eq {A} (m : C A) st i i' o o' a :
  happens cx m st i o a -> i = i' -> o = o' -> happens cx m st i' o' a.
Proof. by intros ? <- <-. Qed.

Lemma happens_bind {A B} (m : C A) (k : A -> C B) st i1 i2 o1 o2 a b :
  happens cx m st i1 o1 a ->
  (forall st', keeps st st' -> happens cx (k a) st' i2 o2 b) ->
  happens cx (cbind m k) st (i1 ++ i2) (o1 ++ o2) b.
Proof.
  intros Hm Hk rest Hr. rewrite <- app_assoc in Hr. destruct (Hm _ Hr) as (s1 & E1 & R1 & K1 & W1).
  destruct (Hk s1 K1 _ R1) as (s2 & E2 & R2 & K2 & W2).
  exists s2. unfold cbind. rewrite E1. split_and!; [done|done|by etrans|by rewrite W2, W1, app_assoc].
Qed.

Lemma happens_ebind {A B} (m : C (cres A)) (k : A -> C (cres B)) st i1 i2 o1 o2 a b :
  happens cx m st i1 o1 (inl a) ->
  (forall st', keeps st st' -> happens cx (k a) st' i2 o2 b) ->
  happens cx (ebind m k) st (i1 ++ i2) (o1 ++ o2) b.
Proof. intros Hm Hk. eapply happens_bind; [exact Hm|]. exact Hk. Qed.

Lemma happens_err {A B} (m : C (cres A)) (k : A -> C (cres B)) st i o e :
  happens cx m st i o (inr e) -> happens cx (ebind m k) st i o (inr e).
Proof.
  intros Hm. eapply happens_eq; [eapply happens_bind; [exact Hm|]; intros; apply happens_ret| |];
    apply app_nil_r.
Qed.

Lemma happens_get {A} (f : CSt -> A) st : happens cx (cget f) st [] [] (f st).
Proof. intros rest Hr. exists st. split_and!; [done|done|done|by rewrite app_nil_r]. Qed.

(** ** Calls into the connection *)

(** No guard's goroutine runs in a call that ends before every guard is due. *)
Lemma fire_calm st s s' since late :
  calm cx st s -> armed s' = armed st -> (forall d, before d (cnet st) -> now (cnet s') < d) -> 0 <= late ->
  fire since late s' = s'.
Proof.
  intros Hr Ha Hb Hl. unfold fire. replace (existsb _ _) with false; [done|]. symmetry.
  apply not_true_iff_false. rewrite existsb_exists. intros (t & Ht & Hd).
  pose proof (rd_armed _ _ _ Hr) as Hall. rewrite Forall_forall in Hall. rewrite Ha in Ht.
  specialize (Hb t (Hall t (proj2 (list_elem_of_In _ _) Ht))). unfold goes in Hd. bool_hyps. lia.
Qed.

(** The state with the next delay taken from the schedule. *)
Definition polled st : CSt := set_lag (tail (lag st)) st.

Lemma polled_calm st s : calm cx st s -> calm cx (polled st) s.
Proof. by intros []. Qed.

Lemma poll_ready st s : calm cx st s -> poll st = (polled st, IoVal (Z.of_nat (hd 0%nat (lag st)))).
Proof.
  intros Hr. unfold poll. rewrite (fire_calm st s (polled st)); [done|done|done| |lia].
  by intros d [? _].
Qed.

(** A deadline ahead of everything. *)
Lemma set_deadlines st s rd wd :
  calm cx st s -> (forall d, rd = Some d -> before d (cnet st)) ->
  (forall d, wd = Some d -> before d (cnet st)) ->
  calm cx (set_cnet (mkNet (now (cnet st)) (inbox (cnet st)) rd wd (wsched (cnet st)) (wire (cnet st))) st) s.
Proof.
  intros [Hi Ho Hw Ha Hc] Hrd Hwd. split; simpl; auto.
  - destruct Hi as (?&?&?&?&_). split_and!; auto. simpl. destruct rd as [d|]; [by apply Hrd|done].
  - destruct Ho as (?&?&?&_). split_and!; auto. right. simpl. destruct wd as [d|]; [by apply Hwd|done].
Qed.

Lemma rd_deadline st s d : calm cx st s -> ctx_deadline cx = Some d -> before d (cnet st).
Proof.
  intros Hr Hd. pose proof (rd_ctx _ _ _ Hr) as Hc. unfold ctx_done in Hc. rewrite Hd in Hc.
  destruct (ctx_cancel cx) as [t|]; [|by apply Hc]. destruct (Hc _ eq_refl) as [Hn Ha].
  split; [simpl in *; lia|]. eapply Forall_impl; [exact Ha|]. simpl. lia.
Qed.

Lemma rd_rdl st s d : calm cx st s -> rdl (cnet st) = Some d -> before d (cnet st).
Proof. intros [(_&_&_&_&H) _ _ _ _] Hd. by rewrite Hd in H. Qed.

Lemma happens_SetReadDeadline st d :
  ctx_deadline cx = Some d -> happens cx (conn_SetReadDeadline d) st [] [] tt.
Proof.
  intros Hd rest [Hr Hw]. unfold conn_SetReadDeadline, cbind. rewrite (poll_ready _ _ Hr).
  apply polled_calm in Hr. eexists. split; [reflexivity|]. split; [split; [|exact Hw]|split; [done|by rewrite app_nil_r]].
  apply set_deadlines; [done| |by eapply rd_wdl]. intros d' [= <-]. by eapply rd_deadline.
Qed.

Lemma happens_SetWriteDeadline st d :
  ctx_deadline cx = Some d -> happens cx (conn_SetWriteDeadline d) st [] [] tt.
Proof.
  intros Hd rest [Hr Hw]. unfold conn_SetWriteDeadline, cbind. rewrite (poll_ready _ _ Hr).
  apply polled_calm in Hr. eexists. split; [reflexivity|]. split; [split; [|exact Hw]|split; [done|by rewrite app_nil_r]].
  apply set_deadlines; [done|by intros d' Hd'; eapply rd_rdl|]. intros d' [= <-]. by eapply rd_deadline.
Qed.

Lemma soonest_before n l g : Forall (fun t => before t n) l -> soonest l = Some g -> before g n.
Proof.
  intros Hl. revert g. induction Hl as [|t l Ht Hl IH]; intros g; simpl; [done|].
  destruct (soonest l) as [u|]; intros [= <-]; [|done].
  specialize (IH u eq_refl). destruct Ht as [? Ht], IH as [? Hu]. split; [lia|].
  rewrite Forall_forall in Ht, Hu |- *. intros x Hx. specialize (Ht x Hx). specialize (Hu x Hx).
  simpl in *. lia.
Qed.

Lemma min_before n a b d :
  (forall x, a = Some x -> before x n) -> (forall x, b = Some x -> before x n) ->
  min_opt a b = Some d -> before d n.
Proof.
  intros Ha Hb. destruct a as [x|], b as [y|]; simpl; intros [= <-]; auto.
  destruct (Z.min_spec x y) as [[_ ->]|[_ ->]]; auto.
Qed.

(** No guard's goroutine runs before what is to come. *)
Lemma goes_before late st s g :
  calm cx st s -> 0 <= late ->
  option_map (goes (now (cnet st)) late) (soonest (armed st)) = Some g -> before g (cnet st).
Proof.
  intros Hr Hl. destruct (soonest (armed st)) as [u|] eqn:E; [|done]. intros [= <-].
  eapply soonest_before in E; [|by eapply rd_armed]. destruct E as [? Hu]. unfold goes.
  split; [lia|]. eapply Forall_impl; [exact Hu|]. simpl. lia.
Qed.

Lemma watched_ready late st s :
  calm cx st s -> 0 <= late ->
  yields (cl_reader (client st)) (watched late st) s /\ writable 0 (cl_writer (client st)) (watched late st).
Proof.
  intros Hr Hl.
  assert (forall g, option_map (goes (now (cnet st)) late) (soonest (armed st)) = Some g -> before g (cnet st)) as Hs
    by (intros g; by eapply goes_before).
  pose proof Hr as [(?&?&?&?&_) (?&?&?&_) _ _ _]. split.
  - split_and!; auto. simpl. destruct (min_opt (rdl _) _) as [d|] eqn:E; [|done].
    eapply min_before in E; [exact E| |exact Hs]. intros x. by eapply rd_rdl.
  - split_and!; auto. right. simpl. destruct (min_opt (wdl _) _) as [d|] eqn:E; [|done].
    eapply min_before in E; [exact (proj1 E)| |exact Hs]. intros x. by eapply rd_wdl.
Qed.

(** The next call into the connection. *)
Definition next_late st : Z := Z.of_nat (hd 0%nat (lag st)).

Lemma blocking_ready {A} (f : Net -> Net * io A) st s n a :
  calm cx st s -> f (watched (next_late st) st) = (n, IoVal a) ->
  (forall d, before d (cnet st) -> before d n) ->
  blocking f st = (after_call (polled st) n, IoVal a).
Proof.
  intros Hr Hf Hb. unfold blocking, cbind. rewrite (poll_ready _ _ Hr).
  change (watched (Z.of_nat (hd 0%nat (lag st))) (polled st)) with (watched (next_late st) st).
  rewrite Hf. rewrite (fire_calm st s); [done|done|done| |lia]. intros d Hd. by destruct (Hb d Hd).
Qed.

(** What is left to show of the state after. *)
Lemma after_ready st s n r w s' :
  calm cx st s -> (forall d, before d (cnet st) -> before d n) ->
  yields r n s' -> writable 0 w n ->
  calm cx (set_client (mkClient r w (maxLine (client st)) (maxRespLines (client st)) (greeting (client st)))
              (after_call (polled st) n)) s'.
Proof.
  intros Hr Hb' (?&?&?&?&_) (?&?&?&_).
  split; simpl; auto.
  - split_and!; auto. simpl. destruct (rdl (cnet st)) as [d|] eqn:E; [|done].
    by eapply Hb', rd_rdl.
  - split_and!; auto. right. simpl. destruct (wdl (cnet st)) as [d|] eqn:E; [|done].
    by eapply Hb', rd_wdl.
  - intros d Hd. eapply Hb', rd_wdl; done.
  - eapply Forall_impl; [by eapply rd_armed|]. intros t. apply Hb'.
  - intros t Ht. by eapply Hb', rd_ctx.
Qed.

Lemma cl_ReadLine_ready st l t :
  calm cx st (l ++ LF :: t) -> Forall (fun b => b <> LF) l ->
  exists st', keeps st st' /\ wire (cnet st') = wire (cnet st)
    /\ cl_writer (client st') = cl_writer (client st) /\
    (cl_ReadLine st = (st', IoVal (chomp l, false, None)) /\ calm cx st' t
     \/ exists m, (1 <= m <= length l)%nat /\ cl_ReadLine st = (st', IoVal (take m l, true, None))
        /\ calm cx st' (drop m l ++ LF :: t) /\ chomp l = take m l ++ chomp (drop m l)).
Proof.
  intros Hr Hl. destruct (watched_ready (next_late st) _ _ Hr ltac:(unfold next_late; lia)) as [Hy Hw].
  destruct (ReadLine_yields _ _ _ _ Hy Hl) as (r & n & Hb & H).
  pose proof (ReadLine_output (cl_reader (client st)) (watched (next_late st) st)) as Ho.
  exists (set_client (set_cl_reader r (client st)) (after_call (polled st) n)). split; [done|].
  assert (forall s' res, ReadLine (cl_reader (client st)) (watched (next_late st) st) = (n, IoVal (r, res)) ->
    yields r n s' ->
    cl_ReadLine st = (set_client (set_cl_reader r (client st)) (after_call (polled st) n), IoVal res)
    /\ wire n = wire (cnet st)
    /\ calm cx (set_client (set_cl_reader r (client st)) (after_call (polled st) n)) s') as Hcase.
  { intros s' res E Hy'. rewrite E in Ho. destruct Ho as (Hwi & Hws & Hwd & Hrd & Hnow). simpl in *.
    split_and!; [|done|].
    - unfold cl_ReadLine, cbind, cget. erewrite blocking_ready; [|done..]. done.
    - apply (after_ready st (l ++ LF :: t) n r (cl_writer (client st))); auto.
      destruct Hw as (?&?&?&?). split_and!; auto; [by rewrite Hws|].
      right. rewrite Hwd. simpl. destruct (min_opt (wdl _) _) as [d|] eqn:E'; [|done].
      apply Hb. eapply min_before in E'; [exact E'| |].
      + intros x. by eapply rd_wdl.
      + intros x. eapply goes_before; [exact Hr|]. unfold next_late. lia. }
  destruct H as [[E Hy']|(m & Hm & E & Hy' & Hc)];
    destruct (Hcase _ _ E Hy') as (E1 & W1 & R1); (split; [exact W1|]; split; [done|]).
  - left. by split.
  - right. exists m. split; [exact Hm|by split_and!].
Qed.


Lemma write_calm (P : Writer_ -> Prop) f t st s :
  (forall w n, writable 0 w n -> exists w' n', f w n = (n', IoVal (w', None)) /\ writable 0 w' n'
     /\ written w' n' = written w n ++ t /\ same_input n n' /\ P w') ->
  calm cx st s ->
  exists st', cl_write f st = (st', IoVal None) /\ calm cx st' s /\ keeps st st'
    /\ P (cl_writer (client st'))
    /\ written (cl_writer (client st')) (cnet st') = written (cl_writer (client st)) (cnet st) ++ t.
Proof.
  intros Hf Hr. destruct (watched_ready (next_late st) _ _ Hr ltac:(unfold next_late; lia)) as [Hy Hw].
  destruct (Hf _ _ Hw) as (w & n & E & Hw' & Hwr & (Hnow & Hin & Hrd) & HP).
  assert (forall d, before d (watched (next_late st) st) -> before d n) as Hb.
  { intros d [? ?]. split; [by rewrite Hnow | by rewrite Hin]. }
  exists (set_client (set_cl_writer w (client st)) (after_call (polled st) n)). split_and!.
  - unfold cl_write, cbind, cget. erewrite blocking_ready; [|done..]. done.
  - apply (after_ready st s n (cl_reader (client st)) w); auto.
    destruct Hy as (?&?&?&?&?). unfold yields. rewrite Hin, Hrd, Hnow. by split_and!.
  - done.
  - exact HP.
  - exact Hwr.
Qed.

(** ** The building blocks *)

Lemma happens_writeCmd line st : happens cx (writeCmd cx line) st [] (line ++ crlf) (inl tt).
Proof.
  eapply happens_eq; [eapply happens_bind with (i1 := []) (o1 := []) (a := tt) (i2 := [])| |]; try done.
  { destruct (ctx_deadline cx) as [d|] eqn:E; [by apply happens_SetWriteDeadline | apply happens_ret]. }
  intros st1 _ rest [Hc Hb].
  destruct (write_calm (fun _ => True) (wr_WriteString 0 (line ++ crlf)) (line ++ crlf) st1 _ ltac:(intros w n Hw;
    destruct (wr_WriteString_ok 0 (line ++ crlf) w n Hw) as (w' & n' & ? & ? & ? & ?); by exists w', n') Hc)
    as (st2 & E2 & C2 & K2 & _ & W2).
  destruct (write_calm (fun w => w = mkWriter [] None) (Flush 0) [] st2 _ ltac:(intros w n Hw;
    destruct (Flush_ok 0 w n Hw) as (n' & ? & ? & Hwi & ?); exists (mkWriter [] None), n';
    split_and!; try done; unfold written in *; simpl; by rewrite Hwi, !app_nil_r) C2)
    as (st3 & E3 & C3 & K3 & P3 & W3).
  exists st3. unfold cbind. rewrite E2, E3. split_and!; [done| |by etrans|].
  - split; [exact C3|]. by rewrite P3.
  - unfold written in *. rewrite P3, Hb in *. simpl in *. rewrite !app_nil_r in *. by rewrite W3, W2.
Qed.

Lemma readLine_go_happens k acc l st rest :
  ready cx st (l ++ LF :: rest) -> Forall (fun b => b <> LF) l ->
  (Z.to_nat (maxLine (client st) + 1 - blen acc) < k)%nat ->
  blen (acc ++ chomp l) <= maxLine (client st) ->
  exists st', cl_readLine_go k acc st = (st', IoVal (inl (acc ++ chomp l))) /\ ready cx st' rest
    /\ keeps st st' /\ wire (cnet st') = wire (cnet st).
Proof.
  revert acc l st. induction k as [|k IH]; intros acc l st [Hc Hb] Hl Hk Hm; [lia|].
  destruct (cl_ReadLine_ready _ _ _ Hc Hl) as (st1 & K1 & W1 & B1 & [[E R1]|(m & Hlm & E & R1 & Hch)]);
    cbn [cl_readLine_go]; unfold cbind, cget; rewrite E; rewrite (kp_line _ _ K1).
  - destruct (Z.ltb_spec (maxLine (client st)) (blen (acc ++ chomp l))); [lia|].
    exists st1. split_and!; try done. split; [done|]. by rewrite B1.
  - rewrite Hch, app_assoc in *.
    assert (blen (acc ++ take m l) <= maxLine (client st)) as Hle.
    { rewrite blen_app in Hm. pose proof (blen_nonneg (chomp (drop m l))). lia. }
    destruct (Z.ltb_spec (maxLine (client st)) (blen (acc ++ take m l))); [lia|].
    destruct (IH (acc ++ take m l) (drop m l) st1) as (st2 & E2 & R2 & K2 & W2).
    + split; [done|]. by rewrite B1.
    + by apply Forall_drop.
    + rewrite (kp_line _ _ K1). rewrite blen_app in *. unfold blen at 2. unfold blen at 2 in Hle.
      rewrite length_take in *. unfold blen in *. lia.
    + by rewrite (kp_line _ _ K1).
    + exists st2. split_and!; [exact E2|done|by etrans|congruence].
Qed.

(** A line within the limit is read whole. *)
Lemma happens_readLine l st :
  Forall (fun b => b <> LF) l -> blen (chomp l) <= maxLine (client st) ->
  happens cx (readLine cx) st (l ++ [LF]) [] (inl (chomp l)).
Proof.
  intros Hl Hm.
  eapply happens_eq; [eapply happens_bind with (i1 := []) (o1 := []) (o2 := []) (a := tt)| |]; try done.
  { destruct (ctx_deadline cx) as [d|] eqn:E; [by apply happens_SetReadDeadline | apply happens_ret]. }
  intros st1 K1 rest Hr. unfold cbind, cget. rewrite <- app_assoc in Hr.
  destruct (readLine_go_happens (Z.to_nat (maxLine (client st1)) + 2) [] l st1 rest Hr Hl)
    as (st2 & E2 & R2 & K2 & W2).
  - unfold blen. simpl. lia.
  - by rewrite (kp_line _ _ K1).
  - exists st2. split_and!; [exact E2|done|done|by rewrite W2, app_nil_r].
Qed.

(** The state with the guard armed, and with it stopped. *)
Definition guard_on st : CSt :=
  match ctx_done cx with Some t => set_armed (t :: armed st) st | None => st end.
Definition guard_off st : CSt :=
  match ctx_done cx with Some t => set_armed (remove_one t (armed st)) st | None => st end.

Lemma guard_eq st : guard cx st = (guard_on st, IoVal tt).
Proof. unfold guard, guard_on. by destruct (ctx_done cx). Qed.

Lemma stop_eq st : stop cx st = (guard_off st, IoVal tt).
Proof. unfold stop, guard_off. by destruct (ctx_done cx). Qed.

Lemma guard_on_ready st s : ready cx st s -> ready cx (guard_on st) s.
Proof.
  unfold guard_on. destruct (ctx_done cx) as [t|] eqn:Ed; [|done]. intros [[Hi Ho Hw Ha Hc] Hb].
  split; [|done]. split; try done. constructor; [|done]. by apply Hc.
Qed.

Lemma guard_off_ready st st' s : keeps (guard_on st) st' -> ready cx st' s -> ready cx (guard_off st') s.
Proof.
  unfold guard_on, guard_off. destruct (ctx_done cx) as [t|]; [|done].
  intros [Hk _ _ _ _] [[Hi Ho Hw Ha Hc] Hb]. split; [|done]. split; try done. simpl in *.
  rewrite Hk in Ha |- *. simpl. rewrite Z.eqb_refl. by inv Ha.
Qed.

Lemma guard_keeps st st' : keeps (guard_on st) st' -> keeps st (guard_off st').
Proof.
  unfold guard_on, guard_off. destruct (ctx_done cx) as [t|]; [|done].
  intros [Hk ? ? ? ?]. split; try done. simpl in *. rewrite Hk. simpl. by rewrite Z.eqb_refl.
Qed.

Lemma guard_on_client st : client (guard_on st) = client st /\ cnet (guard_on st) = cnet st.
Proof. unfold guard_on. by destruct (ctx_done cx). Qed.

Lemma guard_off_cnet st : cnet (guard_off st) = cnet st.
Proof. unfold guard_off. by destruct (ctx_done cx). Qed.

Lemma happens_guarded {A} (m : C A) st i o a :
  (forall st', maxLine (client st') = maxLine (client st) -> maxRespLines (client st') = maxRespLines (client st) ->
     happens cx m st' i o a) ->
  happens cx (guarded cx m) st i o a.
Proof.
  intros Hm rest Hr. unfold guarded, cbind. rewrite guard_eq.
  destruct (guard_on_client st) as [Hc Hn].
  destruct (Hm (guard_on st) ltac:(by rewrite Hc) ltac:(by rewrite Hc) rest (guard_on_ready _ _ Hr))
    as (st2 & E2 & R2 & K2 & W2).
  exists (guard_off st2). rewrite E2, stop_eq. split_and!; [done|by eapply guard_off_ready|by apply guard_keeps|].
  by rewrite guard_off_cnet, W2, Hn.
Qed.
End Happens.
