(* ===== verification/ClientText.v ===== *)
(** * Reading what the server prints

    The lines of a response as the client's parsers see them: white-space
    separated tokens, status lines, listings, and the operations that read
    them. *)
From S2P Require Import Prelude GoStrings GoConv Errors DotStuff Parse Net Session ConnState RefineInput Client ClientFacts.
Local Open Scope client_scope.

(** ** Tokens *)

(** A printable ASCII word: RFC 1939's unique-id, or a number. *)
Definition token (s : bytes) : Prop := s <> [] /\ Forall (fun b => 33 <= byte_z b <= 126) s.

Lemma token_no_space s : token s -> Forall (fun b => is_space (byte_z b) = false) s.
Proof. 
  intros [_ H]. eapply Forall_impl; [exact H|]. intros b. cbv beta. unfold is_space.
  generalize (byte_z b). intros z Hz. destruct (Z.leb_spec z 255); lia.
Qed.

Lemma token_ascii s : token s -> ascii_only s = true.
Proof.
  intros [_ H]. apply forallb_forall. intros b Hb%list_elem_of_In. rewrite Forall_forall in H.
  specialize (H _ Hb). cbv beta in H. lia.
Qed.

Lemma token_no_crlf s : token s -> no_crlf s.
Proof.
  intros [_ H]. eapply Forall_impl; [exact H|]. intros b Hb. cbv beta in *. unfold is_crlf.
  destruct (byte_eqb_spec b CR) as [->|]; [exfalso; change (byte_z _) with 13 in Hb; lia|].
  destruct (byte_eqb_spec b LF) as [->|]; [exfalso; change (byte_z _) with 10 in Hb; lia|]. done.
Qed.

Lemma token_no_ctl s : token s -> containsCTL s = false.
Proof.
  intros [_ H]. apply not_true_iff_false. unfold containsCTL. rewrite existsb_exists.
  intros (b & Hb & Hc). rewrite Forall_forall in H. apply list_elem_of_In, H in Hb. cbv beta in Hb. lia.
Qed.

Lemma token_itoa n : token (itoa n).
Proof.
  split; [apply itoa_nonempty|]. eapply Forall_impl; [apply itoa_num|]. intros b.
  cbv beta. unfold num_byte, is_digit. destruct (byte_eqb_spec b x2d) as [->|]; [by vm_compute|].
  lia.
Qed.

Lemma token_of s : forallb (fun b => (33 <=? byte_z b) && (byte_z b <=? 126)) s = true -> s <> [] -> token s.
Proof.
  intros H Hn. split; [done|]. apply Forall_forall. intros b Hb%list_elem_of_In.
  eapply forallb_forall in H; [|exact Hb]. lia.
Qed.

Lemma join_ascii ts : Forall token ts -> ascii_only (join (str " ") ts) = true.
Proof.
  induction 1 as [|t [|t2 ts] Ht Hts IH]; [done|by apply token_ascii|].
  change (join (str " ") (t :: t2 :: ts)) with (t ++ str " " ++ join (str " ") (t2 :: ts)).
  unfold ascii_only in *. rewrite !forallb_app, IH. apply andb_true_intro.
  split; [by apply token_ascii | done].
Qed.

(** Tokens separated by single spaces come back. *)
Lemma fields_join ts : Forall token ts -> fields (join (str " ") ts) = ts.
Proof.
  intros Hts. unfold fields. rewrite runes_ascii by by apply join_ascii.
  induction Hts as [|t [|t2 ts] Ht Hts IH]; [done| |].
  - simpl join. rewrite <- (app_nil_r (map _ t)), fields_word; [done | apply Ht | by apply token_no_space].
  - change (join (str " ") (t :: t2 :: ts)) with (t ++ SP :: join (str " ") (t2 :: ts)).
    rewrite map_app, fields_word by (apply Ht || by apply token_no_space).
    cbn [map fields_go]. change (is_space (byte_z SP)) with true. cbv iota. by rewrite IH.
Qed.

Lemma join_no_crlf ts : Forall token ts -> no_crlf (join (str " ") ts).
Proof.
  induction 1 as [|t [|t2 ts] Ht Hts IH]; [constructor|by apply token_no_crlf|].
  change (join (str " ") (t :: t2 :: ts)) with (t ++ str " " ++ join (str " ") (t2 :: ts)).
  apply Forall_app. split; [by apply token_no_crlf|]. by constructor.
Qed.

(** ** Parsing items *)

Definition fits (w n : Z) : Prop := - 2 ^ (w - 1) <= n < 2 ^ (w - 1).

Section Items.
Variable w : Z.
Hypothesis Hw : 0 < w.

Lemma parseNumSize_item n size :
  fits w n -> fits 64 size -> parseNumSize w (itoa n ++ str " " ++ itoa size) = inl (n, size).
Proof using Hw.
  intros Hn Hs. unfold parseNumSize, Atoi, ParseInt64.
  change (itoa n ++ _) with (join (str " ") [itoa n; itoa size]).
  rewrite fields_join by auto using token_itoa. by rewrite !parse_itoa.
Qed.

Lemma parseNumUID_item n uid :
  fits w n -> token uid -> parseNumUID w (itoa n ++ str " " ++ uid) = inl (n, uid).
Proof using Hw.
  intros Hn Hs. unfold parseNumUID, Atoi.
  change (itoa n ++ _) with (join (str " ") [itoa n; uid]).
  rewrite fields_join by auto using token_itoa. by rewrite parse_itoa.
Qed.

Lemma parse_lines_map {A B} (parse : bytes -> cres A) (print : B -> bytes) (f : B -> A) l :
  Forall (fun b => parse (print b) = inl (f b)) l -> parse_lines parse (map print l) = inl (map f l).
Proof. induction 1 as [|b l Hb Hl IH]; simpl; [done|]. by rewrite Hb, IH. Qed.
End Items.

(** ** Operations *)

(** A line the client takes: no LF inside, and within [maxLine]. *)
Definition takes (max : Z) (l : bytes) : Prop := no_lf l /\ blen (chomp l) <= max.

Section Ops.
Variable cx : Context.
Implicit Types st : CSt.

Lemma happens_Cmd line l st :
  takes (maxLine (client st)) l ->
  happens cx (Cmd cx line) st (l ++ [LF]) (line ++ crlf) (inl (chomp l)).
Proof.
  intros [Hl Hm]. apply happens_guarded. intros st1 Hml _.
  eapply happens_eq; [eapply happens_ebind; [apply happens_writeCmd|]| |].
  - intros st2 K2. apply happens_readLine; [done|]. by rewrite (kp_line _ _ K2), Hml.
  - done.
  - by rewrite app_nil_r.
Qed.

(** A command whose answer is one line, of which [k] makes the result. *)
Lemma happens_one {A} line l st (k : bytes -> cres A) :
  takes (maxLine (client st)) l ->
  happens cx (status <-? Cmd cx line;; cret (k status)) st (l ++ [LF]) (line ++ crlf) (k (chomp l)).
Proof.
  intros Hl. eapply happens_eq; [eapply happens_ebind; [by apply happens_Cmd|]| |].
  - intros. apply happens_ret.
  - apply app_nil_r.
  - apply app_nil_r.
Qed.

Lemma readMultiLine_go_happens k acc ls body st :
  Forall (takes (maxLine (client st))) ls -> until_dot (map chomp ls) = Some (body, []) ->
  blen (acc ++ body) <= maxRespLines (client st) -> (length body < k)%nat ->
  happens cx (readMultiLine_go k cx acc) st (script ls) [] (inl (acc ++ body)).
Proof.
  revert acc ls body st. induction k as [|k IH]; intros acc ls body st Hls Hu Hb Hk; [lia|].
  destruct ls as [|l ls]; [done|]. inversion Hls as [|? ? [Hl Hm] Hls']; subst. cbn [map until_dot] in Hu.
  unfold script. cbn [readMultiLine_go map concat].
  eapply happens_eq; [eapply happens_ebind with (o2 := []); [by apply happens_readLine|]| |]; [| |done].
  2: reflexivity.
  intros st1 K1. destruct (bytes_eqb_spec (chomp l) (str ".")) as [Hd|Hd].
  - injection Hu as <- Hn. destruct ls; [|done]. rewrite app_nil_r. apply happens_ret.
  - destruct (until_dot (map chomp ls)) as [[b r]|] eqn:E; [|done]. injection Hu as <- ->.
    assert (acc ++ unstuffLine (chomp l) :: b = (acc ++ [unstuffLine (chomp l)]) ++ b) as Ha
      by by rewrite <- app_assoc.
    rewrite Ha in *. simpl in Hk.
    eapply happens_eq; [eapply happens_bind with (i1 := []) (o1 := []) (o2 := []); [apply happens_get|]| |]; try done.
    intros st2 K2. cbv beta. rewrite (kp_resp _ _ K1).
    destruct (Z.ltb_spec (maxRespLines (client st)) (blen (acc ++ [unstuffLine (chomp l)]))) as [Hlt|_].
    { rewrite blen_app in Hb. pose proof (blen_nonneg b). lia. }
    apply IH; [|done| |lia].
    + by rewrite (kp_line _ _ K2), (kp_line _ _ K1).
    + by rewrite (kp_resp _ _ K2), (kp_resp _ _ K1).
Qed.

Lemma happens_readMultiLine ls body st :
  Forall (takes (maxLine (client st))) ls -> until_dot (map chomp ls) = Some (body, []) ->
  blen body <= maxRespLines (client st) ->
  happens cx (readMultiLine cx) st (script ls) [] (inl body).
Proof.
  intros Hl Hu Hb.
  eapply happens_eq; [eapply happens_bind with (i1 := []) (o1 := []) (o2 := []); [apply happens_get|]| |]; try done.
  intros st1 K1. apply (readMultiLine_go_happens _ []).
  - by rewrite (kp_line _ _ K1).
  - done.
  - by rewrite (kp_resp _ _ K1).
  - unfold blen in *. lia.
Qed.

(** LIST and UIDL without an argument. *)
Lemma happens_listing {A} cmd (parse : bytes -> cres A) status ls body st :
  takes (maxLine (client st)) status -> isOK (chomp status) = true ->
  Forall (takes (maxLine (client st))) ls -> until_dot (map chomp ls) = Some (body, []) ->
  blen body <= maxRespLines (client st) ->
  happens cx (listing_cmd cx cmd parse) st (script (status :: ls)) (cmd ++ crlf) (parse_lines parse body).
Proof.
  intros [Hs Hm] Hok Hls Hu Hb. apply happens_guarded. intros st1 Hml Hmr.
  eapply happens_eq; [eapply happens_ebind; [apply happens_writeCmd|]| |].
  - intros st2 K2. eapply happens_ebind; [apply happens_readLine; [done|]|].
    + by rewrite (kp_line _ _ K2), Hml.
    + intros st3 K3. cbv beta. rewrite Hok. simpl negb. cbv iota.
      eapply happens_ebind; [apply (happens_readMultiLine ls body)|].
      * by rewrite (kp_line _ _ K3), (kp_line _ _ K2), Hml.
      * done.
      * by rewrite (kp_resp _ _ K3), (kp_resp _ _ K2), Hmr.
      * intros. apply happens_ret.
  - unfold script. simpl. by rewrite app_nil_r.
  - by rewrite !app_nil_r.
Qed.

(** The start of a retrieval: the guard stays armed when it succeeds. *)
Lemma retrieve_runs cmd l st rest :
  takes (maxLine (client st)) l -> ready cx st (l ++ LF :: rest) ->
  exists st', ready cx st' rest /\ keeps (guard_on cx st) st'
    /\ wire (cnet st') = wire (cnet st) ++ cmd ++ crlf
    /\ retrieve cx cmd st
       = if isOK (chomp l) then (st', IoVal (inl (mkBodyReader cx [] false true)))
         else (guard_off cx st', IoVal (inr (ProtocolError (chomp l)))).
Proof.
  intros [Hl Hm] Hr. destruct (guard_on_client cx st) as [Hc Hn].
  destruct (happens_writeCmd cx cmd (guard_on cx st) _ (guard_on_ready cx _ _ Hr)) as (s1 & E1 & R1 & K1 & W1).
  change (l ++ LF :: rest) with (l ++ [LF] ++ rest) in R1. rewrite app_assoc in R1.
  destruct (happens_readLine cx l s1 Hl ltac:(by rewrite (kp_line _ _ K1), Hc) _ R1) as (s2 & E2 & R2 & K2 & W2).
  exists s2. split_and!; [done|by etrans|by rewrite W2, W1, Hn, app_nil_r|].
  unfold retrieve, cbind. rewrite guard_eq, E1, E2. destruct (isOK (chomp l)); simpl; [done|].
  by rewrite stop_eq.
Qed.
End Ops.
