(* ===== verification/ClientServer.v ===== *)
(** * The client against the server's responses

    The client's operations on the text the abstract protocol machine (hence
    the server) answers with: they return what the session returned, and leave
    the connection at the next response. *)
From S2P Require Import Prelude GoStrings GoConv Errors DotStuff Parse Net Session Options ConnState Wire Spec RefineInput Client ClientFacts ClientText.
Local Open Scope client_scope.

(** ** The machine's text, as lines *)

Definition with_cr (l : bytes) : bytes := l ++ [CR].

Lemma chomp_with_cr ls : map chomp (map with_cr ls) = ls.
Proof. induction ls as [|l ls IH]; cbn [map]; [done|]. unfold with_cr at 1. by rewrite chomp_snoc_cr, IH. Qed.

Lemma script_with_cr ls : script (map with_cr ls) = crlf_lines ls.
Proof.
  unfold script, crlf_lines. rewrite map_map. f_equal. apply map_ext. intros l.
  unfold with_cr. by rewrite <- app_assoc.
Qed.

Lemma crlf_lines_app a b : crlf_lines (a ++ b) = crlf_lines a ++ crlf_lines b.
Proof. unfold crlf_lines. by rewrite map_app, concat_app. Qed.

Lemma listing_script status ls : listing status ls = script (with_cr status :: map with_cr (ls ++ [str "."])).
Proof.
  change (with_cr status :: map with_cr (ls ++ [str "."])) with (map with_cr (status :: ls ++ [str "."])).
  rewrite script_with_cr. change (status :: ls ++ [str "."]) with ([status] ++ ls ++ [str "."]).
  rewrite !crlf_lines_app. unfold listing, crlf_lines. simpl. by rewrite !app_nil_r, <- !app_assoc.
Qed.

Lemma takes_with_cr max l : no_crlf l -> blen l <= max -> takes max (with_cr l).
Proof.
  intros Hl Hm. split; [|by unfold with_cr; rewrite chomp_snoc_cr].
  apply Forall_app. split; [|by repeat constructor]. eapply Forall_impl; [exact Hl|].
  intros b Hb ->. done.
Qed.

(** A line that is neither stuffed nor the terminator. *)
Definition plain_line (l : bytes) : Prop := match l with b :: _ => b <> DOT | [] => True end.

Lemma until_dot_plain ls : Forall plain_line ls -> until_dot (ls ++ [str "."]) = Some (ls, []).
Proof.
  induction 1 as [|l ls Hl Hls IH]; [done|]. cbn [app until_dot]. rewrite IH.
  destruct (bytes_eqb_spec l (str ".")) as [->|_]; [done|]. simpl. do 3 f_equal.
  unfold unstuffLine. destruct l as [|b l]; [done|]. simpl.
  destruct (byte_eqb_spec b DOT) as [->|]; [by destruct Hl | done].
Qed.

(** ** How long a printed number is *)

Lemma digits_fuel_length k m n acc :
  0 <= n < 10 ^ Z.of_nat m -> (1 <= m)%nat -> (length (digits_fuel k n acc) <= m + length acc)%nat.
Proof.
  revert m n acc. induction k as [|k IH]; intros m n acc Hn Hm; cbn [digits_fuel]; [lia|].
  destruct (Z.eqb_spec (n / 10) 0); [simpl; lia|].
  assert (m <> 1)%nat by (intros ->; rewrite Z.pow_1_r in Hn; apply n0, Z.div_small; lia).
  specialize (IH (m - 1)%nat (n / 10) (digit (n mod 10) :: acc)). simpl length in IH.
  assert (0 <= n / 10 < 10 ^ Z.of_nat (m - 1)).
  { split; [apply Z.div_pos; lia|]. apply Z.div_lt_upper_bound; [lia|].
    rewrite <- Z.pow_succ_r by lia. replace (Z.succ (Z.of_nat (m - 1))) with (Z.of_nat m) by lia. lia. }
  specialize (IH H0 ltac:(lia)). lia.
Qed.

Lemma itoa_length n : fits 64 n -> blen (itoa n) <= 20.
Proof.
  intros Hn. unfold fits in Hn. unfold itoa, utoa, blen.
  destruct (Z.ltb_spec n 0).
  - pose proof (digits_fuel_length (S (Z.to_nat (Z.log2 (- n)))) 19 (- n) []) as H1. simpl in *. lia.
  - pose proof (digits_fuel_length (S (Z.to_nat (Z.log2 n))) 19 n []) as H1. simpl in *. lia.
Qed.

Lemma fits_le w n : 0 < w <= 64 -> fits w n -> fits 64 n.
Proof.
  intros Hw Hn. unfold fits in *. pose proof (Z.pow_le_mono_r 2 (w - 1) (64 - 1)). lia.
Qed.

(** ** One-line answers *)

Lemma decode_last_rune_ascii s b : byte_z b < 128 -> decode_last_rune (s ++ [b]) = (byte_z b, 1%nat).
Proof.
  intros Hb. unfold decode_last_rune. rewrite reverse_snoc. by apply Z.ltb_lt in Hb as ->.
Qed.

(** A blank before a text that starts and ends with a word. *)
Lemma trim_space_token s t u :
  ascii_only (s ++ t ++ u) = true -> token s -> token u -> trim_space (SP :: s ++ t ++ u) = s ++ t ++ u.
Proof.
  intros Ha Hs Hu. unfold trim_space.
  rewrite runes_ascii by (unfold ascii_only in *; simpl; exact Ha).
  cbn [map trim_left_space]. change (is_space (byte_z SP)) with true. cbv iota.
  assert (trim_left_space (map (fun b => (byte_z b, [b])) (s ++ t ++ u)) = s ++ t ++ u) as ->.
  { pose proof (token_no_space _ Hs) as Hns. destruct s as [|b s]; [by destruct Hs|]. inv Hns.
    cbn [app map trim_left_space]. rewrite H1. cbn [app]. f_equal. clear.
    rewrite map_map. simpl. generalize (s ++ t ++ u). intros l. induction l as [|c l IH]; [done|].
    simpl. by rewrite IH. }
  pose proof (token_no_space _ Hu) as Hns. destruct u as [|b u _] using rev_ind; [by destruct Hu|].
  apply Forall_app in Hns as [_ Hb]. inv Hb.
  assert (byte_z b < 128) as Hb.
  { destruct Hu as [_ Hu]. apply Forall_app in Hu as [_ Hu]. inv Hu. cbv beta in *. lia. }
  rewrite !app_assoc. set (l := (s ++ t) ++ u). rewrite length_app, Nat.add_comm. cbn [length Nat.add trim_right_fuel].
  destruct (l ++ [b]) eqn:E; [by destruct l|]. rewrite <- E, decode_last_rune_ascii by done.
  by rewrite H1.
Qed.

Section Server.
Context {Sess : Type} `{Unicode} `{PureSession Sess}.
Variable opts : Options Sess.
Variable int_width : Z.
Variable tls : bool.
Variable cx : Context.
Implicit Types (p : Proto Sess) (st : CSt).

(** The client's limit on a line leaves room for what the server prints: 20
    digits per number, 70 bytes of unique-id. *)
Definition roomy st : Prop := 100 <= maxLine (client st).

Lemma status_takes st n :
  roomy st -> fits 64 n ->
  takes (maxLine (client st)) (with_cr (str "+OK " ++ itoa n ++ str " messages")).
Proof.
  intros Hr Hn. apply takes_with_cr.
  - apply (join_no_crlf [str "+OK"; itoa n; str "messages"]).
    repeat constructor; try apply token_itoa; vm_compute; done.
  - rewrite !blen_app. pose proof (itoa_length n Hn). unfold roomy, blen in *. simpl. lia.
Qed.

Lemma pair_takes st n t :
  roomy st -> fits 64 n -> token t -> blen t <= 70 ->
  takes (maxLine (client st)) (with_cr (itoa n ++ str " " ++ t)).
Proof.
  intros Hr Hn Ht Hl. apply takes_with_cr.
  - apply (join_no_crlf [itoa n; t]). repeat constructor; try apply token_itoa; apply Ht.
  - rewrite !blen_app. pose proof (itoa_length n Hn). unfold roomy, blen in *. simpl. lia.
Qed.

Lemma itoa_plain n l : plain_line (itoa n ++ l).
Proof.
  pose proof (itoa_num n) as Hn. pose proof (itoa_nonempty n) as He.
  destruct (itoa n) as [|b s]; [done|]. simpl. apply Forall_cons in Hn as [Hb _]. by intros ->.
Qed.

Lemma dot_takes st : roomy st -> takes (maxLine (client st)) (with_cr (str ".")).
Proof.
  intros Hr. apply takes_with_cr; [by repeat constructor|]. unfold roomy, blen in *. simpl. lia.
Qed.

(** The shape of the two listings. *)
Lemma listing_roundtrip {A B} cmd (parse : bytes -> cres A) (item : B -> bytes) (f : B -> A) st (l : list B) :
  roomy st -> fits 64 (blen l) -> blen l <= maxRespLines (client st) ->
  Forall (fun b => takes (maxLine (client st)) (with_cr (item b)) /\ plain_line (item b)
                   /\ parse (item b) = inl (f b)) l ->
  happens cx (listing_cmd cx cmd parse) st
    (listing (str "+OK " ++ itoa (blen l) ++ str " messages") (map item l)) (cmd ++ crlf)
    (inl (map f l)).
Proof.
  intros Hr Hf Hm Hl. rewrite listing_script.
  rewrite <- (parse_lines_map parse item f l) by (eapply Forall_impl; [exact Hl|]; naive_solver).
  apply happens_listing.
  - by apply status_takes.
  - unfold with_cr. by rewrite chomp_snoc_cr.
  - rewrite map_app, map_map. apply Forall_app. split.
    + apply Forall_map. eapply Forall_impl; [exact Hl|]. naive_solver.
    + constructor; [by apply dot_takes | constructor].
  - rewrite chomp_with_cr. apply until_dot_plain, Forall_map. eapply Forall_impl; [exact Hl|]. naive_solver.
  - unfold blen in *. by rewrite length_map.
Qed.

(** What the machine makes of the lines the client sends. *)
Lemma respond_word verb p :
  pt_phase p = stateTransaction ->
  splitCommand verb = (verb, []) -> to_upper verb = verb ->
  respond opts int_width tls verb None p = (in_transaction_state opts int_width tls verb [] p, false).
Proof. intros Hp Hs Hu. unfold respond. by rewrite Hs, Hu, Hp. Qed.

Lemma respond_args verb args p :
  pt_phase p = stateTransaction -> Forall token args ->
  splitCommand (verb ++ SP :: join (str " ") args) = (verb, join (str " ") args) -> to_upper verb = verb ->
  respond opts int_width tls (verb ++ SP :: join (str " ") args) None p
  = (in_transaction_state opts int_width tls verb args p, false).
Proof. intros Hp Ha Hs Hu. unfold respond. by rewrite Hs, Hu, Hp, fields_join. Qed.

Lemma list_reply p s' items :
  pt_phase p = stateTransaction -> p_List 0 (pt_sess p) = (s', inl items) ->
  re_text (respond opts int_width tls (str "LIST") None p).1
  = listing (str "+OK " ++ itoa (blen items) ++ str " messages") (map scan_item items).
Proof.
  intros Hp E. rewrite respond_word by done. unfold in_transaction_state. simpl.
  unfold reply_list, answer. simpl. by rewrite E.
Qed.

Lemma uidl_reply p s' items :
  pt_phase p = stateTransaction -> p_Uidl 0 (pt_sess p) = (s', inl items) ->
  re_text (respond opts int_width tls (str "UIDL") None p).1
  = listing (str "+OK " ++ itoa (blen items) ++ str " messages") (map uid_item items).
Proof.
  intros Hp E. rewrite respond_word by done. unfold in_transaction_state. simpl.
  unfold reply_uidl, answer. simpl. by rewrite E.
Qed.

Lemma uid_item_eq i : token (mu_UniqueID i) -> uid_item i = itoa (mu_Num i) ++ str " " ++ mu_UniqueID i.
Proof. intros Ht. unfold uid_item. by rewrite sanitize_id by by apply token_no_crlf. Qed.
End Server.

(** What a client can hold of a listing. *)
Definition info_fits (w : Z) (i : MessageInfo) : Prop := fits w (mi_Num i) /\ fits 64 (mi_Size i).
Definition uidl_fits (w : Z) (i : MessageUidl) : Prop :=
  fits w (mu_Num i) /\ token (mu_UniqueID i) /\ blen (mu_UniqueID i) <= 70.

(** The two commands, each on the response to its line. *)
Section Listings.
Context {Sess : Type} `{Unicode} `{PureSession Sess}.
Variables (opts : Options Sess) (ws w : Z) (tls : bool) (cx : Context) (p : Proto Sess) (st : CSt).
Hypotheses (Hw : 0 < w <= 64) (Hr : roomy st) (Hp : pt_phase p = stateTransaction).
Hypothesis (Hmr : fits 64 (maxRespLines (client st))).

Lemma listing_fits {A} (l : list A) : blen l <= maxRespLines (client st) -> fits 64 (blen l).
Proof using Hmr. intros Hb. unfold fits in *. pose proof (blen_nonneg l). lia. Qed.

Lemma happens_List s' infos :
  p_List 0 (pt_sess p) = (s', inl infos) -> Forall (info_fits w) infos ->
  blen infos <= maxRespLines (client st) ->
  happens cx (List_ w cx) st (re_text (respond opts ws tls (str "LIST") None p).1)
    (str "LIST" ++ crlf) (inl infos).
Proof using Hw Hr Hp Hmr.
  intros Hl Hf Hm. rewrite (list_reply opts ws tls p s' infos Hp Hl). unfold List_. rewrite <- (map_id infos) at 3.
  apply listing_roundtrip; auto using listing_fits. eapply Forall_impl; [exact Hf|]. intros i [Hn Hs]. split_and!.
  - apply pair_takes; auto using token_itoa; [by eapply fits_le|]. pose proof (itoa_length _ Hs). lia.
  - apply itoa_plain.
  - unfold scan_item. rewrite parseNumSize_item by (done || lia). by destruct i.
Qed.

Lemma happens_Uidl s' uids :
  p_Uidl 0 (pt_sess p) = (s', inl uids) -> Forall (uidl_fits w) uids ->
  blen uids <= maxRespLines (client st) ->
  happens cx (Uidl w cx) st (re_text (respond opts ws tls (str "UIDL") None p).1)
    (str "UIDL" ++ crlf) (inl uids).
Proof using Hw Hr Hp Hmr.
  intros Hu Hf Hm. rewrite (uidl_reply opts ws tls p s' uids Hp Hu). unfold Uidl. rewrite <- (map_id uids) at 3.
  apply listing_roundtrip; auto using listing_fits. eapply Forall_impl; [exact Hf|]. intros i (Hn & Ht & Hb).
  rewrite uid_item_eq by done. split_and!.
  - apply pair_takes; auto. by eapply fits_le.
  - apply itoa_plain.
  - rewrite parseNumUID_item by (done || lia). by destruct i.
Qed.
End Listings.

(** C15: the client's List and Uidl against the server: on the response the
    server gives to the very line the client sends, they return exactly the
    items the session returned, in order, and the connection stands at the next
    response, whatever the segments the response arrived in.  Sizes must fit 64
    bits, numbers the width of int, unique-ids be RFC 1939's (one to seventy
    printable characters), and the listing be within MaxResponseLines. *)
Theorem client_reads_listings (Sess : Type) `{Unicode} `{PureSession Sess}
    (opts : Options Sess) ws tls w cx (p : Proto Sess) st s1 s2 infos uids :
  0 < w <= 64 -> roomy st -> pt_phase p = stateTransaction ->
  p_List 0 (pt_sess p) = (s1, inl infos) -> p_Uidl 0 (pt_sess p) = (s2, inl uids) ->
  Forall (info_fits w) infos -> Forall (uidl_fits w) uids ->
  fits 64 (maxRespLines (client st)) ->
  blen infos <= maxRespLines (client st) -> blen uids <= maxRespLines (client st) ->
  happens cx (List_ w cx) st (re_text (respond opts ws tls (str "LIST") None p).1)
    (str "LIST" ++ crlf) (inl infos)
  /\ happens cx (Uidl w cx) st (re_text (respond opts ws tls (str "UIDL") None p).1)
    (str "UIDL" ++ crlf) (inl uids).
Proof.
  intros Hw Hr Hp Hl Hu Hfi Hfu Hmr Hli Hlu. split; [by eapply happens_List | by eapply happens_Uidl].
Qed.

Section Lines.
Variable cx : Context.
Implicit Types st : CSt.

Lemma with_cr_lf l : with_cr l ++ [LF] = l ++ crlf.
Proof. unfold with_cr. by rewrite <- app_assoc. Qed.

(** A line of two printed values after [+OK]. *)
Lemma ok_pair n t :
  token t ->
  after_ok (str "+OK " ++ itoa n ++ str " " ++ t) = itoa n ++ str " " ++ t
  /\ isOK (str "+OK " ++ itoa n ++ str " " ++ t) = true
  /\ no_crlf (str "+OK " ++ itoa n ++ str " " ++ t).
Proof.
  intros Ht. split_and!; [|done|].
  - unfold after_ok, trim_prefix. simpl (has_prefix _ _). cbv iota.
    change (drop _ _) with (SP :: itoa n ++ str " " ++ t).
    apply trim_space_token; auto using token_itoa.
    apply (join_ascii [itoa n; t]). auto using token_itoa.
  - apply (join_no_crlf [str "+OK"; itoa n; t]). repeat constructor; try apply token_itoa; try apply Ht; by vm_compute.
Qed.

Lemma pair_line_takes st n t :
  100 <= maxLine (client st) -> fits 64 n -> token t -> blen t <= 70 ->
  takes (maxLine (client st)) (with_cr (str "+OK " ++ itoa n ++ str " " ++ t)).
Proof.
  intros Hr Hn Ht Hl. apply takes_with_cr; [by apply ok_pair|].
  rewrite !blen_app. pose proof (itoa_length n Hn). unfold blen in *. simpl. lia.
Qed.

(** An error line: every command reports it. *)
Definition err_status (m : bytes) : bytes := if is_nil m then str "-ERR" else str "-ERR " ++ sanitizeResponse m.

Lemma err_line_status m : err_line m = with_cr (err_status m) ++ [LF].
Proof. rewrite with_cr_lf. unfold err_line, status_line, err_status. destruct (is_nil m); by rewrite <- ?app_assoc. Qed.

Lemma err_status_takes st m : blen (err_status m) <= maxLine (client st) -> takes (maxLine (client st)) (with_cr (err_status m)).
Proof.
  intros Hm. apply takes_with_cr; [|done]. unfold err_status. destruct (is_nil m); [by repeat constructor|].
  apply Forall_app. split; [by repeat constructor | apply sanitize_no_crlf].
Qed.

Lemma err_status_not_ok m : isOK (chomp (with_cr (err_status m))) = false.
Proof. unfold with_cr. rewrite chomp_snoc_cr. unfold err_status. by destruct (is_nil m). Qed.

Lemma happens_cmdExpectOK cmd l st :
  takes (maxLine (client st)) l ->
  happens cx (cmdExpectOK cx cmd) st (l ++ [LF]) (cmd ++ crlf)
    (if isOK (chomp l) then inl tt else inr (ProtocolError (chomp l))).
Proof. apply (happens_one cx cmd l st (fun s => if isOK s then inl tt else inr (ProtocolError s))). Qed.
End Lines.

(** [STAT] and the one-message forms: the machine's answer as a line. *)
Section Answers.
Context {Sess : Type} `{Unicode} `{PureSession Sess}.
Variable opts : Options Sess.
Variable ws : Z.
Variable tls : bool.
Implicit Types p : Proto Sess.

Definition pair_line (n : Z) (t : bytes) : bytes := str "+OK " ++ itoa n ++ str " " ++ t.

Lemma stat_reply p s' c n :
  pt_phase p = stateTransaction -> p_Stat (pt_sess p) = (s', inl (c, n)) ->
  re_text (respond opts ws tls (str "STAT") None p).1 = with_cr (pair_line c (itoa n)) ++ [LF].
Proof.
  intros Hp E. rewrite respond_word by done. unfold in_transaction_state. simpl.
  unfold reply_stat, answer. simpl. rewrite E. simpl. unfold with_cr, pair_line. simpl.
  by rewrite <- !app_assoc.
Qed.

Lemma parseOptionalMsgNum_itoa n : 36 <= ws -> 1 <= n <= maxVal -> parseOptionalMsgNum ws [itoa n] = inl n.
Proof.
  intros Hw Hn. unfold parseOptionalMsgNum, parseMsgNum. simpl. rewrite parseInt_itoa by lia.
  by destruct (Z.ltb_spec n 1); [lia|].
Qed.

Lemma parseMsgNum_itoa n : 36 <= ws -> 1 <= n <= maxVal -> parseMsgNum ws [itoa n] = inl n.
Proof. intros Hw Hn. by apply (parseOptionalMsgNum_itoa n). Qed.

Lemma arg_line verb n : verb ++ SP :: join (str " ") [itoa n] = verb ++ str " " ++ itoa n.
Proof. done. Qed.

Lemma list_one_reply p s' n i :
  36 <= ws -> 1 <= n <= maxVal -> pt_phase p = stateTransaction ->
  p_List n (pt_sess p) = (s', inl [i]) ->
  re_text (respond opts ws tls (str "LIST " ++ itoa n) None p).1
  = with_cr (pair_line (mi_Num i) (itoa (mi_Size i))) ++ [LF].
Proof.
  intros Hw Hn Hp E. change (str "LIST " ++ itoa n) with (str "LIST" ++ SP :: join (str " ") [itoa n]).
  rewrite respond_args by (auto using token_itoa). unfold in_transaction_state. simpl.
  unfold reply_list, answer. rewrite parseOptionalMsgNum_itoa, E by done. unfold items. simpl.
  destruct (Z.ltb_spec 0 n); [|lia]. unfold with_cr, pair_line, scan_item. simpl. by rewrite <- !app_assoc.
Qed.

Lemma uidl_one_reply p s' n i :
  36 <= ws -> 1 <= n <= maxVal -> pt_phase p = stateTransaction -> token (mu_UniqueID i) ->
  p_Uidl n (pt_sess p) = (s', inl [i]) ->
  re_text (respond opts ws tls (str "UIDL " ++ itoa n) None p).1
  = with_cr (pair_line (mu_Num i) (mu_UniqueID i)) ++ [LF].
Proof.
  intros Hw Hn Hp Ht E. change (str "UIDL " ++ itoa n) with (str "UIDL" ++ SP :: join (str " ") [itoa n]).
  rewrite respond_args by (auto using token_itoa). unfold in_transaction_state. simpl.
  unfold reply_uidl, answer. rewrite parseOptionalMsgNum_itoa, E by done. unfold items. simpl.
  destruct (Z.ltb_spec 0 n); [|lia]. rewrite uid_item_eq by done. unfold with_cr, pair_line.
  simpl. by rewrite <- !app_assoc.
Qed.
End Answers.

(** A command answered by such a line. *)
Lemma happens_pair {A} cx cmd (k : bytes -> cres A) st n t a :
  roomy st -> fits 64 n -> token t -> blen t <= 70 -> k (pair_line n t) = inl a ->
  happens cx (status <-? Cmd cx cmd;; cret (k status)) st (with_cr (pair_line n t) ++ [LF])
    (cmd ++ crlf) (inl a).
Proof.
  intros Hr Hn Ht Hl Hk. rewrite <- Hk.
  replace (pair_line n t) with (chomp (with_cr (pair_line n t))) at 2 by (unfold with_cr; by rewrite chomp_snoc_cr).
  apply happens_one. by apply pair_line_takes.
Qed.

Lemma parseStat_line w c n : 0 < w -> fits w c -> fits 64 n -> parseStat w (pair_line c (itoa n)) = inl (c, n).
Proof.
  intros Hw Hc Hn. unfold parseStat, Atoi, ParseInt64.
  change (pair_line c (itoa n)) with (join (str " ") [str "+OK"; itoa c; itoa n]).
  rewrite fields_join, !parse_itoa; try done; try lia.
  constructor; [by apply token_of|]. auto using token_itoa.
Qed.

(** C19: Stat, ListOne and UidlOne against the server: on the response to the
    very line the client sends, they return what the session returned for the
    message asked for, and the connection stands at the next response.  The
    server's int is at least 36 bits wide. *)
Theorem client_reads_answers (Sess : Type) `{Unicode} `{PureSession Sess}
    (opts : Options Sess) ws tls w cx (p : Proto Sess) st s1 s2 s3 c n msg i u :
  0 < w <= 64 -> 36 <= ws -> roomy st -> pt_phase p = stateTransaction -> 1 <= msg <= maxVal ->
  p_Stat (pt_sess p) = (s1, inl (c, n)) -> fits w c -> fits 64 n ->
  p_List msg (pt_sess p) = (s2, inl [i]) -> info_fits w i ->
  p_Uidl msg (pt_sess p) = (s3, inl [u]) -> uidl_fits w u ->
  happens cx (Stat w cx) st (re_text (respond opts ws tls (str "STAT") None p).1)
    (str "STAT" ++ crlf) (inl (c, n))
  /\ happens cx (ListOne w cx msg) st (re_text (respond opts ws tls (str "LIST " ++ itoa msg) None p).1)
    ((str "LIST " ++ itoa msg) ++ crlf) (inl i)
  /\ happens cx (UidlOne w cx msg) st (re_text (respond opts ws tls (str "UIDL " ++ itoa msg) None p).1)
    ((str "UIDL " ++ itoa msg) ++ crlf) (inl u).
Proof.
  intros Hw Hws Hr Hp Hm Es Hc Hn El [Hi1 Hi2] Eu (Hu1 & Hu2 & Hu3).
  assert (forall k, fits 64 k -> blen (itoa k) <= 70) as Hlen by (intros k Hk; pose proof (itoa_length k Hk); lia).
  assert (forall k, fits w k -> fits 64 k) as Hf by (intros k; by apply fits_le).
  split_and!.
  - rewrite (stat_reply opts ws tls p s1 c n Hp Es).
    apply (happens_pair cx _ (fun s => if negb (isOK s) then _ else _)); auto using token_itoa.
    apply parseStat_line; (done || lia).
  - rewrite (list_one_reply opts ws tls p s2 msg i Hws Hm Hp El).
    apply (happens_pair cx _ (fun s => if negb (isOK s) then _ else _)); auto using token_itoa.
    unfold pair_line. destruct (ok_pair (mi_Num i) (itoa (mi_Size i)) (token_itoa _)) as (-> & -> & _).
    rewrite parseNumSize_item by (done || lia). by destruct i.
  - rewrite (uidl_one_reply opts ws tls p s3 msg u Hws Hm Hp Hu2 Eu).
    apply (happens_pair cx _ (fun s => if negb (isOK s) then _ else _)); auto.
    unfold pair_line. destruct (ok_pair (mu_Num u) (mu_UniqueID u) Hu2) as (-> & -> & _).
    rewrite parseNumUID_item by (done || lia). by destruct u.
Qed.

(** A command whose rest, after a status line that is not +OK, is to report it. *)
Lemma happens_refused {A} cx st m cmd (k : bytes -> C (cres A)) :
  blen (err_status m) <= maxLine (client st) ->
  (forall status, isOK status = false -> k status = cret (inr (ProtocolError status))) ->
  happens cx (guarded cx (_ <-? writeCmd cx cmd;; status <-? readLine cx;; k status))
    st (err_line m) (cmd ++ crlf) (inr (ProtocolError (err_status m))).
Proof.
  intros Hm Hk. pose proof (err_status_takes st m Hm) as Ht. pose proof (err_status_not_ok m) as Hn.
  assert (chomp (with_cr (err_status m)) = err_status m) as Hc by apply chomp_snoc_cr.
  apply happens_guarded. intros st1 Hml _. rewrite err_line_status.
  eapply happens_eq; [eapply happens_ebind; [apply happens_writeCmd|]|done|by rewrite app_nil_r].
  intros st2 K2. eapply happens_eq; [eapply happens_ebind with (o2 := []) (i2 := []);
    [apply happens_readLine; [apply Ht | rewrite (kp_line _ _ K2), Hml; apply Ht]|]| |]; [|by rewrite app_nil_r|done].
  intros st3 K3. rewrite Hk by done. rewrite Hc. apply happens_ret.
Qed.

Lemma happens_refused_one {A} cx st m cmd (k : bytes -> cres A) :
  blen (err_status m) <= maxLine (client st) ->
  (forall status, isOK status = false -> k status = inr (ProtocolError status)) ->
  happens cx (status <-? Cmd cx cmd;; cret (k status))
    st (err_line m) (cmd ++ crlf) (inr (ProtocolError (err_status m))).
Proof.
  intros Hm Hk. pose proof (happens_one cx cmd _ st k (err_status_takes st m Hm)) as H.
  rewrite Hk in H by apply err_status_not_ok. rewrite <- err_line_status in H.
  assert (chomp (with_cr (err_status m)) = err_status m) as Hc by apply chomp_snoc_cr. by rewrite Hc in H.
Qed.

Lemma happens_expect cx st m cmd :
  blen (err_status m) <= maxLine (client st) ->
  happens cx (cmdExpectOK cx cmd) st (err_line m) (cmd ++ crlf) (inr (ProtocolError (err_status m))).
Proof. intros Hm. apply happens_refused_one; [done|]. by intros s ->. Qed.

Lemma happens_refused_body cx st m cmd :
  blen (err_status m) <= maxLine (client st) ->
  happens cx (retrieve cx cmd) st (err_line m) (cmd ++ crlf) (inr (ProtocolError (err_status m))).
Proof.
  intros Hm rest Hr. rewrite err_line_status, <- app_assoc in Hr.
  destruct (retrieve_runs cx cmd _ st rest (err_status_takes st m Hm) Hr) as (st' & R & K & W & E).
  assert (chomp (with_cr (err_status m)) = err_status m) as Hc by apply chomp_snoc_cr.
  rewrite err_status_not_ok, Hc in E.
  exists (guard_off cx st'). split_and!; [exact E|by eapply guard_off_ready|by apply guard_keeps|].
  by rewrite guard_off_cnet.
Qed.

(** C18: an error response is reported by every command of the client as a
    ProtocolError that carries the status line, and the connection stands at the
    next response, nothing more having been sent: CAPA, XCLIENT, AUTH PLAIN, STLS,
    USER - and PASS after an accepted USER -, the commands that only expect +OK,
    any line given to Cmd's callers, STAT, the listings and their one-message
    forms, RETR and TOP. *)
Theorem client_reports_errors w cx st m msg lines cmd params i u pw :
  blen (err_status m) <= maxLine (client st) ->
  let line := err_status m in
  happens cx (Stat w cx) st (err_line m) (str "STAT" ++ crlf) (inr (ProtocolError line))
  /\ happens cx (List_ w cx) st (err_line m) (str "LIST" ++ crlf) (inr (ProtocolError line))
  /\ happens cx (Uidl w cx) st (err_line m) (str "UIDL" ++ crlf) (inr (ProtocolError line))
  /\ happens cx (ListOne w cx msg) st (err_line m) ((str "LIST " ++ itoa msg) ++ crlf) (inr (ProtocolError line))
  /\ happens cx (UidlOne w cx msg) st (err_line m) ((str "UIDL " ++ itoa msg) ++ crlf) (inr (ProtocolError line))
  /\ happens cx (cmdExpectOK cx cmd) st (err_line m) (cmd ++ crlf) (inr (ProtocolError line))
  /\ happens cx (retrieve cx cmd) st (err_line m) (cmd ++ crlf) (inr (ProtocolError line))
  /\ happens cx (Capa cx) st (err_line m) (str "CAPA" ++ crlf) (inr (ProtocolError line))
  /\ happens cx (XClient cx params) st (err_line m) (xclient_line params ++ crlf) (inr (ProtocolError line))
  /\ happens cx (AuthPlain cx i u pw) st (err_line m)
       ((str "AUTH PLAIN " ++ b64_encode (plain_payload i u pw)) ++ crlf) (inr (ProtocolError line))
  /\ happens cx (startTLS cx) st (err_line m) (str "STLS" ++ crlf) (inr (ProtocolError line))
  /\ happens cx (User cx u pw) st (err_line m) ((str "USER " ++ u) ++ crlf) (inr (ProtocolError line))
  /\ happens cx (User cx u pw) st (str "+OK" ++ crlf ++ err_line m)
       ((str "USER " ++ u) ++ crlf ++ (str "PASS " ++ pw) ++ crlf) (inr (ProtocolError line))
  /\ happens cx (Retr cx msg) st (err_line m) ((str "RETR " ++ itoa msg) ++ crlf) (inr (ProtocolError line))
  /\ happens cx (Top cx msg lines) st (err_line m)
       ((str "TOP " ++ itoa msg ++ str " " ++ itoa lines) ++ crlf) (inr (ProtocolError line))
  /\ happens cx (Dele cx msg) st (err_line m) ((str "DELE " ++ itoa msg) ++ crlf) (inr (ProtocolError line))
  /\ happens cx (Rset cx) st (err_line m) (str "RSET" ++ crlf) (inr (ProtocolError line))
  /\ happens cx (Noop cx) st (err_line m) (str "NOOP" ++ crlf) (inr (ProtocolError line))
  /\ happens cx (Quit cx) st (err_line m) (str "QUIT" ++ crlf) (inr (ProtocolError line)).
Proof.
  intros Hm line.
  assert (3 <= maxLine (client st)) as H3.
  { etrans; [|exact Hm]. unfold err_status. destruct (is_nil m); [done|]. rewrite blen_app.
    pose proof (blen_nonneg (sanitizeResponse m)). change (blen (str "-ERR ")) with 5. lia. }
  split_and!; try (apply happens_refused_one; [done|by intros s ->]); try (by apply happens_expect);
    try (by apply happens_refused_body); try (apply happens_refused; [done|by intros s ->]);
    try (by apply happens_err, happens_expect).
  assert (takes (maxLine (client st)) (with_cr (str "+OK"))) as Htu.
  { apply takes_with_cr; [by repeat constructor|]. unfold blen. simpl. lia. }
  eapply happens_eq; [eapply happens_ebind; [apply (happens_cmdExpectOK cx _ _ _ Htu)|]| |].
  - intros st1 K1. apply happens_expect. by rewrite (kp_line _ _ K1).
  - done.
  - by rewrite <- !app_assoc.
Qed.
