(* ===== verification/ClientBody.v ===== *)
(** * Message bodies at the client

    [bodyReader] over the dot-stuffed body the server sends: reads of any sizes
    give back the body with CRLF line endings, and [Close] leaves the connection
    at the next response, however little was read. *)
From S2P Require Import Prelude GoStrings GoConv Errors DotStuff Parse Net Session Options ConnState Wire Spec RefineInput Client ClientFacts ClientText ClientServer.
Local Open Scope client_scope.

(** Reads into slices of the given lengths, until one fails. *)
Fixpoint body_ReadAll (sizes : list nat) (b : bodyReader) : C (bodyReader * (bytes * option cerr)) :=
  match sizes with
  | [] => cret (b, ([], None))
  | n :: sizes' =>
    res <- body_Read n b;;
    let '(b', (p, e)) := res in
    match e with
    | Some e => cret (b', (p, Some e))
    | None =>
      res <- body_ReadAll sizes' b';;
      let '(b'', (q, e)) := res in cret (b'', (p ++ q, e))
    end
  end.

Section Body.
Variable cx : Context.
(** What the client has sent so far. *)
Variable sent : bytes.
Implicit Types (st : CSt) (b : bodyReader).

(** The wire holds the stuffed [ls] and the terminator. *)
Definition body_wire (ls : list bytes) : bytes := crlf_lines (map stuff_line ls ++ [str "."]).

(** [b] is being read: [ls] are the lines still on the wire. *)
Record reading (st0 : CSt) (ls : list bytes) (rest : bytes) b st : Prop := mkReading {
  re_ctx : br_ctx b = cx;
  re_more : br_done b = false;
  re_guard : br_guard b = true;
  re_ready : ready cx st (body_wire ls ++ rest);
  re_keeps : keeps (guard_on cx st0) st;
  re_wire : wire (cnet st) = sent;
  re_lines : Forall (fun l => no_lf l /\ blen l < maxLine (client st0)) ls;
  re_dot : 1 <= maxLine (client st0)
}.

(** [b] was finished: the guard is released, the connection is in step. *)
Record finished (st0 : CSt) (rest : bytes) b st : Prop := mkFinished {
  fi_ctx : br_ctx b = cx;
  fi_done : br_done b = true;
  fi_guard : br_guard b = false;
  fi_ready : ready cx st rest;
  fi_keeps : keeps st0 st;
  fi_wire : wire (cnet st) = sent
}.

Lemma stuff_line_length l : blen (stuff_line l) <= blen l + 1.
Proof. unfold stuff_line. destruct (has_prefix l [DOT]); rewrite ?blen_cons; lia. Qed.

Lemma body_wire_cons l ls : body_wire (l :: ls) = with_cr (stuff_line l) ++ LF :: body_wire ls.
Proof. unfold body_wire, crlf_lines, with_cr. simpl. by rewrite <- !app_assoc. Qed.

Lemma body_wire_nil : body_wire [] = with_cr (str ".") ++ [LF].
Proof. done. Qed.

(** The next line of a body that is being read. *)
Lemma reading_line st0 l ls rest b st :
  reading st0 (l :: ls) rest b st ->
  exists st', readLine cx st = (st', IoVal (inl (stuff_line l)))
    /\ reading st0 ls rest b st'.
Proof.
  intros [Hc Hm Hg Hr Hk Hw Hl Hd]. inversion Hl as [|? ? [Hnl Hlen] Hl']; subst.
  rewrite body_wire_cons in Hr. rewrite <- app_assoc in Hr. simpl in Hr.
  change (LF :: body_wire ls ++ rest) with ([LF] ++ body_wire ls ++ rest) in Hr. rewrite app_assoc in Hr.
  pose proof (kp_line _ _ Hk) as Hml. destruct (guard_on_client cx st0) as [Hc0 _].
  destruct (happens_readLine cx (with_cr (stuff_line l)) st) with (rest := body_wire ls ++ rest)
    as (st' & E & R & K & W); [| |exact Hr|].
  - apply Forall_app. split; [by apply stuff_line_no_lf | by repeat constructor].
  - unfold with_cr. rewrite chomp_snoc_cr, Hml, Hc0. pose proof (stuff_line_length l). lia.
  - exists st'. unfold with_cr in E. rewrite chomp_snoc_cr in E. split; [exact E|].
    split; auto; [by etrans|by rewrite W, app_nil_r, Hw].
Qed.

(** The terminator, and what [finish] then does. *)
Lemma reading_dot st0 rest b st :
  reading st0 [] rest b st ->
  exists st' st'', readLine cx st = (st', IoVal (inl (str ".")))
    /\ finish b st' = (st'', IoVal (mkBodyReader cx (br_buf b) true false))
    /\ finished st0 rest (mkBodyReader cx (br_buf b) true false) st''.
Proof.
  intros [Hc Hm Hg Hr Hk Hw Hl Hd]. rewrite body_wire_nil in Hr.
  pose proof (kp_line _ _ Hk) as Hml. destruct (guard_on_client cx st0) as [Hc0 _].
  destruct (happens_readLine cx (with_cr (str ".")) st) with (rest := rest) as (st' & E & R & K & W);
    [by repeat constructor| |exact Hr|].
  { rewrite Hml, Hc0. unfold blen. simpl. lia. }
  exists st', (guard_off cx st'). split; [exact E|]. assert (keeps (guard_on cx st0) st') as K' by by etrans.
  split.
  - unfold finish, cbind. rewrite Hg, Hc, stop_eq. done.
  - split; simpl; auto; [by eapply guard_off_ready|by apply guard_keeps|].
    by rewrite guard_off_cnet, W, app_nil_r, Hw.
Qed.

(** What is left to read. *)
Definition pending b (ls : list bytes) : bytes := br_buf b ++ crlf_lines ls.

Lemma body_Read_step st0 ls rest b st n :
  reading st0 ls rest b st -> (1 <= n)%nat ->
  exists b' st' p e, body_Read n b st = (st', IoVal (b', (p, e))) /\
    (pending b ls = [] /\ p = [] /\ e = Some (CErr (ESentinel EOF)) /\ finished st0 rest b' st'
     \/ exists ls', p <> [] /\ e = None /\ pending b ls = p ++ pending b' ls' /\ reading st0 ls' rest b' st').
Proof.
  intros Hr Hn. pose proof Hr as [Hc Hm Hg Hrd Hk Hw Hl Hd]. unfold body_Read.
  destruct (br_buf b) as [|c buf] eqn:Eb.
  - rewrite Hm, Hc. destruct ls as [|l ls].
    + destruct (reading_dot _ _ _ _ Hr) as (s1 & s2 & E1 & E2 & F). unfold cbind.
      rewrite E1. simpl (_ =s? _). cbv beta iota. rewrite E2. eexists _, s2, _, _. split; [reflexivity|].
      left. split_and!; try done. unfold pending. by rewrite Eb.
    + destruct (reading_line _ _ _ _ _ _ Hr) as (s1 & E1 & R1). unfold cbind. rewrite E1.
      destruct (unstuff_stuff l) as [Hu Hdot]. destruct (bytes_eqb_spec (stuff_line l) (str ".")) as [|_]; [done|].
      rewrite Hu. eexists _, s1, _, _. split; [reflexivity|]. right. exists ls.
      split; [|split; [done|split]].
      * simpl. destruct n as [|n]; [lia|]. by destruct l.
      * unfold pending, body_copy. rewrite Eb. simpl. by rewrite app_assoc, take_drop.
      * destruct R1. by split.
  - eexists _, st, _, _. split; [reflexivity|]. right. exists ls. split; [|split; [done|split]].
    + destruct n as [|n]; [lia|]. simpl. by rewrite Eb.
    + unfold pending, body_copy. simpl. by rewrite app_assoc, take_drop.
    + by split.
Qed.

Lemma body_ReadAll_reads sizes st0 ls rest b st :
  reading st0 ls rest b st -> Forall (fun n => (1 <= n)%nat) sizes ->
  exists b' st' p e, body_ReadAll sizes b st = (st', IoVal (b', (p, e))) /\
    (p = pending b ls /\ e = Some (CErr (ESentinel EOF)) /\ finished st0 rest b' st'
     \/ exists ls', e = None /\ pending b ls = p ++ pending b' ls' /\ reading st0 ls' rest b' st'
         /\ (length sizes <= length p)%nat).
Proof.
  intros Hr Hs. revert ls b st Hr. induction Hs as [|n sizes Hn Hs IH]; intros ls b st Hr; simpl.
  - exists b, st, [], None. split; [done|]. right. exists ls. split_and!; done || simpl; lia.
  - destruct (body_Read_step _ _ _ _ _ n Hr Hn) as (b1 & s1 & p & e & E & [(Hp & -> & -> & F)|(ls1 & Hne & -> & Hp & R1)]);
      unfold cbind; rewrite E; cbv beta iota.
    + eexists _, _, _, _. split; [reflexivity|]. left. by rewrite Hp.
    + destruct (IH _ _ _ R1) as (b2 & s2 & q & e & E2 & H2). rewrite E2. eexists _, _, _, _.
      split; [reflexivity|]. destruct H2 as [(-> & -> & F)|(ls2 & -> & Hq & R2 & Hlen)]; [left; by rewrite Hp|].
      right. exists ls2. split_and!; [done|by rewrite Hp, Hq, app_assoc|done|].
      rewrite length_app. destruct p; [done|]. simpl. lia.
Qed.

Lemma body_Close_done k st0 rest b st :
  finished st0 rest b st ->
  body_Close_go k b st = (st, IoVal (mkBodyReader cx (br_buf b) true false, None)).
Proof. intros [Hc Hd Hg _ _ _]. unfold body_Close_go, finish, cbind. destruct k; by rewrite Hd, Hg, Hc. Qed.

Lemma body_Close_reading k st0 ls rest b st :
  reading st0 ls rest b st -> (length ls < k)%nat ->
  exists b' st', body_Close_go k b st = (st', IoVal (b', None)) /\ finished st0 rest b' st'.
Proof.
  revert ls b st. induction k as [|k IH]; intros ls b st Hr Hk; [lia|]. cbn [body_Close_go].
  rewrite (re_more _ _ _ _ _ Hr), (re_ctx _ _ _ _ _ Hr). destruct ls as [|l ls]; unfold cbind at 1.
  - destruct (reading_dot _ _ _ _ Hr) as (s1 & s2 & E1 & E2 & F). rewrite E1. simpl (_ =s? _). cbv iota.
    unfold cbind. rewrite E2. rewrite (body_Close_done k _ _ _ _ F). eexists _, _. split; [reflexivity|]. exact F.
  - destruct (reading_line _ _ _ _ _ _ Hr) as (s1 & E1 & R1). rewrite E1.
    destruct (unstuff_stuff l) as [_ Hdot]. destruct (bytes_eqb_spec (stuff_line l) (str ".")) as [|_]; [done|].
    apply (IH ls); [done|]. simpl in Hk. lia.
Qed.

Lemma inbox_bytes_weight l : Forall is_data l -> (length (concat (map item_bytes l)) <= inbox_weight l)%nat.
Proof.
  induction 1 as [|[t it] l Hi Hl IH]; [done|]. rewrite inbox_weight_cons. simpl. rewrite length_app.
  unfold item_bytes, item_weight in *. simpl in *. destruct it; simpl; lia.
Qed.

Lemma crlf_lines_length ls : (length ls <= length (crlf_lines ls))%nat.
Proof. unfold crlf_lines. induction ls as [|l ls IH]; simpl; [done|]. rewrite !length_app. simpl. lia. Qed.

Lemma body_Close_reads st0 ls rest b st :
  reading st0 ls rest b st ->
  exists b' st', body_Close b st = (st', IoVal (b', None)) /\ finished st0 rest b' st'.
Proof.
  intros Hr. unfold body_Close, cbind, cget. eapply body_Close_reading; [exact Hr|].
  destruct (re_ready _ _ _ _ _ Hr) as [[(_ & Hd & Hs & _) _ _ _ _] _]. unfold rweight.
  apply (f_equal length) in Hs. rewrite !length_app in Hs. pose proof (inbox_bytes_weight _ Hd).
  pose proof (crlf_lines_length (map stuff_line ls ++ [str "."])) as Hc.
  rewrite length_app, length_map in Hc. unfold body_wire in Hs. simpl in Hc. lia.
Qed.
End Body.

(** The server's answer to RETR, as the client's lines. *)
Definition retr_status (b : Body) : bytes :=
  match body_octets b with
  | Some n => str "+OK " ++ itoa n ++ str " octets"
  | None => str "+OK Message follows"
  end.

Lemma retr_reply {Sess} `{Unicode} `{PureSession Sess} (opts : Options Sess) ws tls (p : Proto Sess) s' msg b :
  36 <= ws -> 1 <= msg <= maxVal -> pt_phase p = stateTransaction ->
  p_Retr msg (pt_sess p) = (s', inl b) -> body_err b = None ->
  re_text (respond opts ws tls (str "RETR " ++ itoa msg) None p).1
  = with_cr (retr_status b) ++ LF :: body_wire (body_lines (concat (body_chunks b))).
Proof.
  intros Hw Hn Hp E He. change (str "RETR " ++ itoa msg) with (str "RETR" ++ SP :: join (str " ") [itoa msg]).
  rewrite respond_args by (auto using token_itoa). unfold in_transaction_state. simpl.
  unfold reply_retr, answer. rewrite parseMsgNum_itoa, E by done. unfold message. simpl. rewrite He. simpl.
  assert (forall x, body_wire (body_lines x) = dot_encode x) as ->
    by (intros x; unfold body_wire; by rewrite crlf_lines_app).
  unfold retr_status, ok_line, status_line, with_cr. destruct (body_octets b) as [n|]; [|done].
  destruct (is_nil (itoa n ++ str " octets")) eqn:En; [by destruct (itoa n)|].
  rewrite sanitize_id by (apply (join_no_crlf [itoa n; str "octets"]); repeat constructor;
    try apply token_itoa; by vm_compute).
  simpl. by rewrite <- !app_assoc.
Qed.

(** The status line of such an answer. *)
Lemma retr_status_takes (b : Body) st :
  roomy st -> match body_octets b with Some n => fits 64 n | None => True end ->
  takes (maxLine (client st)) (with_cr (retr_status b)) /\ isOK (retr_status b) = true.
Proof.
  intros Hr Ho. split; [|unfold retr_status; by destruct (body_octets b)].
  apply takes_with_cr; unfold retr_status; destruct (body_octets b) as [n|].
  - apply (join_no_crlf [str "+OK"; itoa n; str "octets"]). repeat constructor; try apply token_itoa; by vm_compute.
  - by repeat constructor.
  - rewrite !blen_app. pose proof (itoa_length n Ho). unfold roomy, blen in *. simpl. lia.
  - unfold roomy, blen in *. simpl. lia.
Qed.

(** A retrieval, reads of any sizes, and a Close, on a body of the lines [ls]. *)
Lemma retrieve_reads cx cmd st status ls sizes rest :
  takes (maxLine (client st)) (with_cr status) -> isOK status = true -> roomy st ->
  Forall (fun l => no_lf l /\ blen l < maxLine (client st)) ls -> Forall (fun n => (1 <= n)%nat) sizes ->
  ready cx st (with_cr status ++ LF :: body_wire ls ++ rest) ->
  exists b0 st1 b1 st2 out e b2 st3,
    retrieve cx cmd st = (st1, IoVal (inl b0))
    /\ body_ReadAll sizes b0 st1 = (st2, IoVal (b1, (out, e)))
    /\ body_Close b1 st2 = (st3, IoVal (b2, None))
    /\ (e = Some (CErr (ESentinel EOF)) /\ out = crlf_lines ls
        \/ e = None /\ out `prefix_of` crlf_lines ls /\ (length sizes <= length out)%nat)
    /\ ready cx st3 rest /\ keeps st st3
    /\ wire (cnet st3) = wire (cnet st) ++ cmd ++ crlf.
Proof.
  intros Ht Hok Hr Hls Hs Hrd.
  destruct (retrieve_runs cx cmd _ st _ Ht Hrd) as (st1 & R1 & K1 & W1 & E1).
  unfold with_cr in E1. rewrite chomp_snoc_cr, Hok in E1.
  assert (reading cx (wire (cnet st1)) st ls rest
            (mkBodyReader cx [] false true) st1) as Hread by (split; auto; unfold roomy in Hr; lia).
  destruct (body_ReadAll_reads _ _ sizes _ _ _ _ _ Hread Hs) as (b1 & st2 & out & e & E2 & H2).
  assert (exists b2 st3, body_Close b1 st2 = (st3, IoVal (b2, None))
          /\ finished cx (wire (cnet st1)) st rest b2 st3) as (b2 & st3 & E3 & F3).
  { destruct H2 as [(_ & _ & F)|(ls' & _ & _ & R & _)]; [|by eapply body_Close_reads].
    unfold body_Close, cbind, cget. rewrite (body_Close_done _ _ _ _ _ _ _ F).
    eexists _, _. split; [reflexivity|]. by destruct F. }
  eexists _, st1, b1, st2, out, e, b2, st3. split; [exact E1|]. split; [exact E2|]. split; [exact E3|].
  destruct F3 as [_ _ _ Fr Fk Fw]. split_and!; [|done|done|by rewrite Fw, W1].
  destruct H2 as [(-> & -> & _)|(ls' & -> & Hpre & _ & Hlen)]; [by left|]. right.
  split_and!; [done| |done]. eexists. exact Hpre.
Qed.

(** C14: retrieving a message from the server, with reads of any sizes.  The
    client sends the command; the reads give the message with its line endings
    normalised to CRLF, piece by piece, and then EOF; a Close at any point,
    after every byte or after none, drains the rest: the connection stands at
    the next response and the cancellation guard is released.  Lines must be
    within the client's limit. *)
Theorem client_reads_body (Sess : Type) `{Unicode} `{PureSession Sess}
    (opts : Options Sess) ws tls cx (p : Proto Sess) st s' msg b sizes rest :
  36 <= ws -> roomy st -> 1 <= msg <= maxVal -> pt_phase p = stateTransaction ->
  p_Retr msg (pt_sess p) = (s', inl b) -> body_err b = None ->
  match body_octets b with Some n => fits 64 n | None => True end ->
  Forall (fun l => blen l < maxLine (client st)) (body_lines (concat (body_chunks b))) ->
  Forall (fun n => (1 <= n)%nat) sizes ->
  ready cx st (re_text (respond opts ws tls (str "RETR " ++ itoa msg) None p).1 ++ rest) ->
  let text := normalize (concat (body_chunks b)) in
  exists b0 st1 b1 st2 out e b2 st3,
    Retr cx msg st = (st1, IoVal (inl b0))
    /\ body_ReadAll sizes b0 st1 = (st2, IoVal (b1, (out, e)))
    /\ body_Close b1 st2 = (st3, IoVal (b2, None))
    /\ (e = Some (CErr (ESentinel EOF)) /\ out = text
        \/ e = None /\ out `prefix_of` text /\ (length sizes <= length out)%nat)
    /\ ready cx st3 rest /\ keeps st st3
    /\ wire (cnet st3) = wire (cnet st) ++ (str "RETR " ++ itoa msg) ++ crlf.
Proof.
  intros Hws Hr Hmsg Hp E He Ho Hl Hs Hrd text.
  rewrite (retr_reply opts ws tls p s' msg b) in Hrd by done. rewrite <- app_assoc in Hrd. simpl in Hrd.
  destruct (retr_status_takes b st Hr Ho) as [Ht Hok].
  apply (retrieve_reads cx (str "RETR " ++ itoa msg) st (retr_status b)); auto.
  apply Forall_and. split; [apply body_lines_no_lf | exact Hl].
Qed.
