(* ===== verification/ClientAuth.v ===== *)
(** * The client's logins against the server's

    The lines of [AuthPlain] and [User], as the command loop reads, trims and
    answers them. *)
From S2P Require Import Prelude GoStrings GoConv Errors DotStuff Parse Net Session Options ConnState Wire Spec RefineInput RefineLoop Client ClientFacts ClientText ClientServer.
Local Open Scope client_scope.

Lemma b64_byte_printable b : implb (b64_byte b) ((33 <=? byte_z b) && (byte_z b <=? 126)) = true.
Proof. destruct b; vm_compute; reflexivity. Qed.

Lemma b64_token s : s <> [] -> token (b64_encode s).
Proof.
  intros Hs. split.
  - destruct s as [|a [|b [|c s]]]; done.
  - eapply Forall_impl; [apply b64_encode_bytes|]. intros b Hb. cbv beta in *.
    pose proof (b64_byte_printable b) as Hp. rewrite Hb in Hp. simpl in Hp. lia.
Qed.

Lemma b64_not_star s : b64_encode s <> str "*".
Proof. intros He. pose proof (b64_encode_bytes s) as Hb. rewrite He in Hb. inv Hb. Qed.

(** ** Trimming a line that starts with a word *)

Lemma word_not_space b : 33 <= byte_z b <= 126 -> is_space (byte_z b) = false.
Proof. unfold is_space. intros Hb. destruct (Z.leb_spec (byte_z b) 255); lia. Qed.

Lemma trim_left_word b s : 33 <= byte_z b <= 126 -> trim_left_space (runes (b :: s)) = b :: s.
Proof.
  intros Hb. pose proof (runes_concat (b :: s)) as Hc. unfold runes in *. cbn [length runes_fuel] in *.
  assert (decode_rune (b :: s) = (byte_z b, 1%nat)) as E.
  { unfold decode_rune. destruct (Z.ltb_spec (byte_z b) 128); [done|lia]. }
  rewrite E in *. cbn [trim_left_space map snd concat] in *. by rewrite word_not_space.
Qed.

Lemma trim_right_take n s : exists k, trim_right_fuel n s = take k s.
Proof.
  revert s. induction n as [|n IH]; intros s; [exists (length s); by rewrite take_ge|]. cbn [trim_right_fuel].
  destruct s as [|b s]; [by exists 0%nat|]. destruct (decode_last_rune (b :: s)) as [r w].
  destruct (is_space r); [|exists (length (b :: s)); by rewrite take_ge].
  destruct (IH (take (length (b :: s) - w) (b :: s))) as [k ->]. rewrite take_take. by eexists.
Qed.

Lemma trim_right_word n s b : 33 <= byte_z b <= 126 -> trim_right_fuel n (s ++ [b]) = s ++ [b].
Proof.
  intros Hb. destruct n as [|n]; [done|]. cbn [trim_right_fuel]. destruct (s ++ [b]) eqn:E; [done|].
  rewrite <- E, decode_last_rune_ascii by lia. by rewrite word_not_space.
Qed.

Lemma trim_space_take b s : 33 <= byte_z b <= 126 -> exists k, trim_space (b :: s) = take k (b :: s).
Proof. intros Hb. unfold trim_space. rewrite trim_left_word by done. apply trim_right_take. Qed.

(** A text between two printable bytes is not trimmed. *)
Lemma trim_space_exact a s b :
  33 <= byte_z a <= 126 -> 33 <= byte_z b <= 126 -> trim_space (a :: s ++ [b]) = a :: s ++ [b].
Proof.
  intros Ha Hb. unfold trim_space. rewrite trim_left_word by done.
  by apply (trim_right_word _ (a :: s)).
Qed.

Lemma token_last s : token s -> exists q b, s = q ++ [b] /\ 33 <= byte_z b <= 126.
Proof.
  intros [Hn Hs]. destruct s as [|b q _] using rev_ind; [done|]. exists q, b. split; [done|].
  apply Forall_app in Hs as [_ Hs]. by inv Hs.
Qed.

(** What is left of a password when the line it is on has been trimmed: white
    space at its end is lost. *)
Definition seen (pw : bytes) : bytes := drop 5 (trim_space (str "PASS " ++ pw)).

Lemma seen_line pw : seen pw <> [] -> trim_space (str "PASS " ++ pw) = str "PASS " ++ seen pw.
Proof.
  unfold seen. destruct (trim_space_take x50 (str "ASS " ++ pw)) as [k E]; [by vm_compute|].
  change (x50 :: str "ASS " ++ pw) with (str "PASS " ++ pw) in E. rewrite E. clear E.
  destruct k as [|[|[|[|[|[|k]]]]]]; done.
Qed.

Lemma seen_exact q b : 33 <= byte_z b <= 126 -> seen (q ++ [b]) = q ++ [b].
Proof.
  intros Hb. unfold seen. change (str "PASS " ++ q ++ [b]) with (x50 :: (str "ASS " ++ q) ++ [b]).
  by rewrite trim_space_exact by (done || by vm_compute).
Qed.

(** The password of the repository's test on white space in passwords. *)
Example seen_test : seen (str "a  b" ++ [TAB] ++ str "c d ") = str "a  b" ++ [TAB] ++ str "c d".
Proof. vm_compute. reflexivity. Qed.

Section Auth.
Context {Sess : Type} `{Unicode} `{PureSession Sess}.
Variable opts : Options Sess.
Variable ws : Z.
Variable tls : bool.
Implicit Types p : Proto Sess.

Definition auth_line (i u pw : bytes) : bytes := str "AUTH PLAIN " ++ b64_encode (plain_payload i u pw).

(** The status line of a login's outcome. *)
Definition login_status (r : option goerr) : bytes :=
  match r with
  | None => str "+OK Authentication successful"
  | Some e => err_status (error_text opts e)
  end.

Lemma login_reply r p : re_text (login opts r p) = with_cr (login_status r.2) ++ [LF].
Proof.
  unfold login, login_status. destruct r.2; simpl; [by rewrite <- err_line_status|]. done.
Qed.

(** What the machine makes of the client's AUTH line. *)
Lemma respond_auth i u pw nx p s1 mechs :
  pt_phase p = stateAuthorization -> auth_open opts tls = true -> has_SASL = true ->
  p_Mechs (pt_sess p) = (s1, mechs) -> mechanismAdvertised mechs (str "PLAIN") = true ->
  containsCTL i = false -> containsCTL u = false -> no_nul pw ->
  respond opts ws tls (auth_line i u pw) nx p
  = (login opts (p_Plain i u pw s1) (with_sess s1 p), false).
Proof.
  intros Hp Ho Hs Em Ha Hi Hu Hpw. unfold respond.
  assert (token (b64_encode (plain_payload i u pw))) as Ht by (apply b64_token; by destruct i).
  assert (splitCommand (auth_line i u pw) = (str "AUTH", join (str " ") [str "PLAIN"; b64_encode (plain_payload i u pw)])) as -> by done.
  change (to_upper (str "AUTH")) with (str "AUTH"). rewrite Hp. unfold in_authorization.
  rewrite fields_join by (constructor; [by apply token_of|auto]). simpl (_ =s? _). cbv iota.
  unfold reply_auth. rewrite Ho, Hs. simpl negb. cbv iota.
  change (to_upper (str "PLAIN") =s? str "PLAIN") with true. simpl negb. cbv iota.
  rewrite Em. cbv zeta. simpl fst. simpl snd. rewrite Ha. simpl negb. cbv iota.
  unfold reply_plain.
  destruct (bytes_eqb_spec (b64_encode (plain_payload i u pw)) (str "*")) as [He|_];
    [by apply b64_not_star in He|].
  destruct decodeSASLPlain_iff with (e := b64_encode (plain_payload i u pw)) (i := i) (u := u) (p := pw) as [_ Hd].
  rewrite Hd by (rewrite b64_decode_encode; auto). done.
Qed.

(** What it makes of the USER and PASS lines. *)
Lemma respond_user u nx p :
  pt_phase p = stateAuthorization -> auth_open opts tls = true -> token u ->
  respond opts ws tls (str "USER " ++ u) nx p = (says (ok_line []) (with_user u p), false).
Proof.
  intros Hp Ho Hu. unfold respond.
  assert (splitCommand (str "USER " ++ u) = (str "USER", join (str " ") [u])) as -> by done.
  change (to_upper (str "USER")) with (str "USER"). rewrite Hp. unfold in_authorization.
  rewrite fields_join by auto. simpl (_ =s? _). cbv iota. unfold reply_user. rewrite Ho. simpl negb. cbv iota.
  by rewrite token_no_ctl.
Qed.

Lemma respond_pass pw nx p :
  pt_phase p = stateAuthorization -> auth_open opts tls = true -> pt_user p <> [] -> pw <> [] ->
  respond opts ws tls (str "PASS " ++ pw) nx p
  = (login opts (p_Login (pt_user p) pw (pt_sess p)) p, false).
Proof.
  intros Hp Ho Hu Hpw. unfold respond.
  assert (splitCommand (str "PASS " ++ pw) = (str "PASS", pw)) as -> by done.
  change (to_upper (str "PASS")) with (str "PASS"). rewrite Hp. unfold in_authorization.
  simpl (_ =s? _). cbv iota. unfold reply_pass. rewrite Ho. simpl negb. cbv iota.
  by destruct (pt_user p), pw.
Qed.
End Auth.

(** The client's verdict on a login whose outcome on the server was [r]. *)
Definition verdict {Sess} `{Unicode} (opts : Options Sess) (r : option goerr) : cres unit :=
  match r with
  | None => inl tt
  | Some e => inr (ProtocolError (login_status opts r))
  end.

Lemma login_line {Sess} `{Unicode} (opts : Options Sess) max r :
  blen (login_status opts r) <= max ->
  takes max (with_cr (login_status opts r))
  /\ (if isOK (login_status opts r) then inl tt else inr (ProtocolError (login_status opts r))) = verdict opts r.
Proof.
  intros Hm. destruct r as [e|]; simpl in *.
  - split; [|by unfold err_status; destruct (is_nil _)]. apply takes_with_cr; [|done].
    unfold err_status. destruct (is_nil _); [by repeat constructor|].
    apply Forall_app. split; [by repeat constructor | apply sanitize_no_crlf].
  - split; [|done]. apply takes_with_cr; [by repeat constructor | done].
Qed.

(** [User] on the server's two answers. *)
Lemma happens_User {Sess} `{Unicode} (opts : Options Sess) cx u pw r st :
  10 <= maxLine (client st) -> blen (login_status opts r) <= maxLine (client st) ->
  happens cx (User cx u pw) st (ok_line [] ++ with_cr (login_status opts r) ++ [LF])
    ((str "USER " ++ u) ++ crlf ++ (str "PASS " ++ pw) ++ crlf) (verdict opts r).
Proof.
  intros H10 Hl. destruct (login_line opts _ _ Hl) as [Ht <-]. unfold User.
  assert (takes (maxLine (client st)) (with_cr (str "+OK"))) as Htu.
  { apply takes_with_cr; [by repeat constructor|]. unfold blen. simpl. lia. }
  eapply happens_eq; [eapply happens_ebind; [apply (happens_cmdExpectOK cx _ _ _ Htu)|]| |].
  - intros st1 K1. pose proof (happens_cmdExpectOK cx (str "PASS " ++ pw) (with_cr (login_status opts r)) st1) as H'.
    unfold with_cr in H' at 3 4. rewrite !chomp_snoc_cr in H'. apply H'. by rewrite (kp_line _ _ K1).
  - done.
  - by rewrite <- !app_assoc.
Qed.

Lemma auth_line_trim i u pw : trim_space (auth_line i u pw) = auth_line i u pw.
Proof.
  unfold auth_line. destruct (token_last (b64_encode (plain_payload i u pw))) as (q & b & -> & Hb).
  - apply b64_token. by destruct i.
  - change (str "AUTH PLAIN " ++ q ++ [b]) with (x41 :: (str "UTH PLAIN " ++ q) ++ [b]).
    by rewrite trim_space_exact by (done || by vm_compute).
Qed.

Lemma user_line_trim u : token u -> trim_space (str "USER " ++ u) = str "USER " ++ u.
Proof.
  intros Hu. destruct (token_last u Hu) as (q & b & -> & Hb).
  change (str "USER " ++ q ++ [b]) with (x55 :: (str "SER " ++ q) ++ [b]).
  by rewrite trim_space_exact by (done || by vm_compute).
Qed.

Lemma with_cr_no_lf l : no_lf l -> no_lf (with_cr l).
Proof. intros Hl. apply Forall_app. split; [done|by apply Forall_singleton]. Qed.

Lemma script_one l : script [with_cr l] = l ++ crlf.
Proof. unfold script, with_cr. simpl. by rewrite app_nil_r, <- app_assoc. Qed.

Lemma happens_AuthPlain {Sess} `{Unicode} (opts : Options Sess) cx i u pw r st :
  blen (login_status opts r) <= maxLine (client st) ->
  happens cx (AuthPlain cx i u pw) st (with_cr (login_status opts r) ++ [LF]) (auth_line i u pw ++ crlf) (verdict opts r).
Proof.
  intros Hl. destruct (login_line opts _ _ Hl) as [Ht <-].
  unfold AuthPlain. apply happens_guarded. intros st1 Hml _.
  eapply happens_eq; [eapply happens_ebind; [apply happens_writeCmd|]|done|by rewrite app_nil_r].
  intros st2 K2. eapply happens_eq; [eapply happens_ebind with (o2 := []) (i2 := []);
    [apply happens_readLine; [apply Ht | rewrite (kp_line _ _ K2), Hml; apply Ht]|]|by rewrite app_nil_r|done].
  intros st3 K3. cbv beta. unfold with_cr. rewrite chomp_snoc_cr.
  destruct (isOK (login_status opts r)); simpl; apply happens_ret.
Qed.

(** A line of a client that the server reads whole: the machine is given its text,
    trimmed. *)
Lemma converse_command {Sess} `{Unicode} `{PureSession Sess} (opts : Options Sess) ws tls p l l' r rest :
  blen l <= MaxLineLength opts -> trim_space l = l' -> l' <> [] ->
  (forall nx, respond opts ws tls l' nx p = (r, false)) ->
  converse opts ws tls p (with_cr l :: rest)
  = round_text opts r ++ (if round_go opts r then converse opts ws tls (re_state r) rest else []).
Proof.
  intros Hl Ht Hn Hr. assert (chomp (with_cr l) = l) as Hc by apply chomp_snoc_cr.
  rewrite (converse_line opts ws tls p (with_cr l) rest).
  - rewrite Hc, Ht, Hr. done.
  - unfold too_long. rewrite Hc. by apply Z.ltb_ge.
  - rewrite Hc, Ht. by destruct l'.
Qed.

(** C16: logging in, line by line.  The machine in AUTHORIZATION reads the lines
    [AuthPlain] and [User] send, trims them as the command loop does, and goes on
    with whatever the client sends after them.  [AuthPlain]: for an identity and a
    user name without control characters and a password without NUL, the session
    is given exactly the three strings the client was given.  [User]: for a
    printable user name, and a password without LF that does not consist of white
    space, the session is given the password without the white space at its end
    - exactly the password when it ends in a printable character.  In both, the
    client reads the answers to its lines, reports success exactly when the
    session accepted, and otherwise the server's error line; the server is in
    TRANSACTION exactly after a success; and the connection stands at the next
    response. *)
Theorem client_login (Sess : Type) `{Unicode} `{PureSession Sess}
    (opts : Options Sess) ws tls cx (p : Proto Sess) st i u pw rest :
  pt_phase p = stateAuthorization -> auth_open opts tls = true -> 10 <= maxLine (client st) ->
  (forall s1 mechs, has_SASL = true -> p_Mechs (pt_sess p) = (s1, mechs) -> mechanismAdvertised mechs (str "PLAIN") = true ->
     containsCTL i = false -> containsCTL u = false -> no_nul pw -> blen (auth_line i u pw) <= MaxLineLength opts ->
     let accepted := p_Plain i u pw s1 in
     blen (login_status opts accepted.2) <= maxLine (client st) ->
     let r := login opts accepted (with_sess s1 p) in
     converse opts ws tls p (with_cr (auth_line i u pw) :: rest)
       = round_text opts r ++ (if round_go opts r then converse opts ws tls (re_state r) rest else [])
     /\ happens cx (AuthPlain cx i u pw) st (re_text r) (script [with_cr (auth_line i u pw)]) (verdict opts accepted.2)
     /\ (pt_phase (re_state r) = stateTransaction <-> accepted.2 = None))
  /\ (token u -> no_lf pw -> seen pw <> [] -> over_limit opts p = false ->
     blen (str "USER " ++ u) <= MaxLineLength opts -> blen (str "PASS " ++ pw) <= MaxLineLength opts ->
     let accepted := p_Login u (seen pw) (pt_sess p) in
     blen (login_status opts accepted.2) <= maxLine (client st) ->
     let lines := [with_cr (str "USER " ++ u); with_cr (str "PASS " ++ pw)] in
     let r := login opts accepted (with_user u p) in
     Forall no_lf lines
     /\ converse opts ws tls p (lines ++ rest)
       = ok_line [] ++ round_text opts r ++ (if round_go opts r then converse opts ws tls (re_state r) rest else [])
     /\ happens cx (User cx u pw) st (ok_line [] ++ re_text r) (script lines) (verdict opts accepted.2)
     /\ (pt_phase (re_state r) = stateTransaction <-> accepted.2 = None)
     /\ (forall q b, pw = q ++ [b] -> 33 <= byte_z b <= 126 -> seen pw = pw)).
Proof.
  intros Hp Ho H10.
  assert (forall q x, pt_phase q = stateAuthorization ->
    pt_phase (re_state (login opts x q)) = stateTransaction <-> x.2 = None) as Hph.
  { intros q x Hq. unfold login. destruct x.2; simpl; [|done].
    destruct (AuthFailuresExemptFromMaxErrors opts); simpl; rewrite Hq; done. }
  split.
  - intros s1 mechs Hs Em Ha Hi Hu Hn Hmax accepted Hl r. split_and!; [| |by apply Hph].
    + apply converse_command with (l' := auth_line i u pw); [done|by apply auth_line_trim|done|].
      intros nx. by apply (respond_auth opts ws tls i u pw nx p s1 mechs).
    + subst r. rewrite login_reply, script_one. by apply happens_AuthPlain.
  - intros Hu Hlf Hseen Hov Hlu Hlp accepted Hl lines r. split_and!; [| | |by apply Hph|].
    + subst lines. apply Forall_cons_2; [|apply Forall_singleton]; apply with_cr_no_lf, Forall_app;
        (split; [by repeat constructor|]); [|done].
      eapply Forall_impl; [apply Hu|]. intros b Hb ->. cbv beta in Hb. change (byte_z LF) with 10 in Hb. lia.
    + pose proof (user_line_trim u Hu) as Htu. pose proof (seen_line pw Hseen) as Htp.
      change (lines ++ rest) with (with_cr (str "USER " ++ u) :: with_cr (str "PASS " ++ pw) :: rest).
      pose proof (converse_command opts ws tls p _ _ _ (with_cr (str "PASS " ++ pw) :: rest) Hlu Htu ltac:(done)
        (fun nx => respond_user opts ws tls u nx p Hp Ho Hu)) as E1.
      assert (str "PASS " ++ seen pw <> []) as Hne by done.
      pose proof (converse_command opts ws tls (with_user u p) _ _ r rest Hlp Htp Hne
        (fun nx => respond_pass opts ws tls (seen pw) nx (with_user u p) Hp Ho (proj1 Hu) Hseen)) as E2.
      rewrite E1. unfold round_text at 1, round_go at 1. cbn [says re_text re_stop re_state negb andb orb].
      change (over_limit opts (with_user u p)) with (over_limit opts p). rewrite Hov, app_nil_r. cbn [negb].
      by rewrite E2.
    + subst r lines. rewrite login_reply. unfold script. cbn [map concat]. rewrite app_nil_r.
      eapply happens_eq; [by apply happens_User|done|]. unfold with_cr. by rewrite <- !app_assoc.
    + intros q b -> Hb. by apply seen_exact.
Qed.
