(* ===== verification/Dialogue.v ===== *)
(** * The client and the machine in step

    A computation of the client and the lines it makes the machine see, side by
    side: the machine's answers are what the client reads, the client's lines
    are what the machine is given, and both end where the next pair starts. *)
From S2P Require Import Prelude GoStrings GoConv Errors DotStuff Parse Net Session Options ConnState Wire Spec RefineInput RefineLoop Client ClientFacts ClientText ClientServer ClientBody ClientAuth.
Local Open Scope client_scope.

(** Two printable words with a blank between them are not trimmed. *)
Lemma trim_space_words v t : token v -> token t -> trim_space (v ++ SP :: t) = v ++ SP :: t.
Proof.
  intros Hv Ht. assert (ascii_only (v ++ [SP] ++ t) = true) as Ha by (apply (join_ascii [v; t]); auto).
  pose proof (trim_space_token v [SP] t Ha Hv Ht) as E. simpl in E. rewrite <- E at 2. unfold trim_space.
  rewrite !runes_ascii by (unfold ascii_only in *; simpl in *; done). done.
Qed.

(** ** Programs of a client *)

(** [Retr], reads into slices of the given lengths until one fails, [Close]. *)
Definition fetch (cx : Context) (msg : Z) (sizes : list nat) : C (cres bytes) :=
  b <-? Retr cx msg;;
  r <- body_ReadAll sizes b;;
  c <- body_Close r.1;;
  cret (match c.2, r.2.2 with
        | Some e, _ => inr e
        | None, (None | Some (CErr (ESentinel EOF))) => inl r.2.1
        | None, Some e => inr e
        end).

(** Every message of a listing: fetched, then deleted. *)
Fixpoint fetch_each (cx : Context) (sizes : list nat) (us : list MessageUidl) : C (cres (list (bytes * bytes))) :=
  match us with
  | [] => cret (inl [])
  | i :: us' =>
    text <-? fetch cx (mu_Num i) sizes;;
    _ <-? Dele cx (mu_Num i);;
    ms <-? fetch_each cx sizes us';;
    cret (inl ((mu_UniqueID i, text) :: ms))
  end.

(** A mailbox downloaded and emptied. *)
Definition download (w : Z) (cx : Context) (u pw : bytes) (sizes : list nat) : C (cres (list (bytes * bytes))) :=
  _ <-? User cx u pw;;
  us <-? Uidl w cx;;
  ms <-? fetch_each cx sizes us;;
  _ <-? Quit cx;;
  cret (inl ms).

(** The lines these programs send. *)
Definition fetch_lines (us : list MessageUidl) : list bytes :=
  concat (map (fun i => [str "RETR " ++ itoa (mu_Num i); str "DELE " ++ itoa (mu_Num i)]) us).

Definition download_lines (u pw : bytes) (us : list MessageUidl) : list bytes :=
  [str "USER " ++ u; str "PASS " ++ pw] ++ [str "UIDL"] ++ fetch_lines us ++ [str "QUIT"].

Section Dialogue.
Context {Sess : Type} `{Unicode} `{PureSession Sess}.
Variables (opts : Options Sess) (ws w : Z) (tls : bool) (cx : Context).
(** The client's limits. *)
Variables (ml mr : Z).
Implicit Types (p : Proto Sess) (st : CSt).

Definition limits st : Prop := maxLine (client st) = ml /\ maxRespLines (client st) = mr.

Lemma keeps_limits st st' : keeps st st' -> limits st -> limits st'.
Proof. intros K [Hl Hr]. split; [by rewrite (kp_line _ _ K) | by rewrite (kp_resp _ _ K)]. Qed.

(** On the lines [ls] (and a CR each) the machine goes from [p] to [p'] and
    answers [t]; with [stop], the connection ends there. *)
Definition turns p (ls : list bytes) (t : bytes) p' (stop : bool) : Prop := forall rest,
  converse opts ws tls p (map with_cr ls ++ rest)
    = t ++ (if stop then [] else converse opts ws tls p' rest)
  /\ final_state opts ws tls p (map with_cr ls ++ rest)
    = if stop then p' else final_state opts ws tls p' rest.

(** The client sends those lines and reads those answers. *)
Definition talks {A} (m : C (cres A)) p (ls : list bytes) (a : A) p' (stop : bool) : Prop :=
  exists t, turns p ls t p' stop
    /\ forall st, limits st -> happens cx m st t (script (map with_cr ls)) (inl a).

Lemma turns_app p l1 t1 p1 l2 t2 p2 stop :
  turns p l1 t1 p1 false -> turns p1 l2 t2 p2 stop -> turns p (l1 ++ l2) (t1 ++ t2) p2 stop.
Proof.
  intros Ha Hb rest. rewrite map_app, <- !app_assoc.
  destruct (Ha (map with_cr l2 ++ rest)) as [-> ->], (Hb rest) as [-> ->]. done.
Qed.

Lemma talks_ret {A} (a : A) p : talks (cret (inl a)) p [] a p false.
Proof. exists []. split; [by intros rest|]. intros st _. apply happens_ret. Qed.

Lemma talks_ebind {A B} (m : C (cres A)) (k : A -> C (cres B)) p l1 a p1 l2 b p2 stop :
  talks m p l1 a p1 false -> talks (k a) p1 l2 b p2 stop ->
  talks (ebind m k) p (l1 ++ l2) b p2 stop.
Proof.
  intros (t1 & T1 & M1) (t2 & T2 & M2). exists (t1 ++ t2). split; [by eapply turns_app|].
  intros st Hst. rewrite map_app. unfold script. rewrite map_app, concat_app.
  eapply happens_ebind; [by apply M1|]. intros st' K. by apply M2, (keeps_limits st).
Qed.

(** A last step that only returns. *)
Lemma talks_then_ret {A B} (m : C (cres A)) (f : A -> B) p l a p' stop :
  talks m p l a p' stop -> talks (x <-? m;; cret (inl (f x))) p l (f a) p' stop.
Proof.
  intros (t & T & Hm). exists t. split; [done|]. intros st Hst.
  eapply happens_eq; [eapply happens_ebind; [by apply Hm|]; intros; apply happens_ret| |]; apply app_nil_r.
Qed.

(** ** One line *)

(** A line the client sends as it is meant. *)
Record plain_command (l : bytes) : Prop := mkPlainCommand {
  pl_short : blen l <= MaxLineLength opts;
  pl_trim : trim_space l = l;
  pl_some : l <> []
}.

Lemma turns_line p l r :
  plain_command l -> (forall nx, respond opts ws tls l nx p = (r, false)) -> pt_errors (re_state r) = 0 ->
  turns p [l] (re_text r) (re_state r) (re_stop r).
Proof.
  intros [Hs Ht Hn] Hr He rest. change (map with_cr [l] ++ rest) with (with_cr l :: rest).
  assert (chomp (with_cr l) = l) as Hc by (unfold with_cr; apply chomp_snoc_cr).
  assert (over_limit opts (re_state r) = false) as Ho.
  { unfold over_limit. rewrite He. destruct (Z.ltb_spec 0 (MaxErrors opts)), (Z.leb_spec (MaxErrors opts) 0); done || lia. }
  assert (too_long opts (with_cr l) = false) as Hl by (unfold too_long; rewrite Hc; by apply Z.ltb_ge).
  assert (is_nil (trim_space (chomp (with_cr l))) = false) as Hb by (rewrite Hc, Ht; by destruct l).
  rewrite (converse_line opts ws tls p _ rest Hl Hb), (final_state_line opts ws tls p _ rest Hl Hb).
  rewrite Hc, Ht, Hr. cbn [fst snd]. unfold round_text, round_go. rewrite Ho, andb_false_r, orb_false_r, app_nil_r.
  by destruct (re_stop r).
Qed.

Lemma talks_line {A} (m : C (cres A)) p l (a : A) r p' stop :
  re_state r = p' -> re_stop r = stop -> pt_errors p' = 0 ->
  plain_command l -> (forall nx, respond opts ws tls l nx p = (r, false)) ->
  (forall st, limits st -> happens cx m st (re_text r) (l ++ crlf) (inl a)) ->
  talks m p [l] a p' stop.
Proof.
  intros <- <- He Hl Hr Hm. exists (re_text r). split; [by apply turns_line|]. intros st Hst.
  rewrite script_with_cr. unfold crlf_lines. simpl. rewrite app_nil_r. by apply Hm.
Qed.

(** In TRANSACTION the next line does not matter. *)
Lemma respond_next line nx p :
  pt_phase p = stateTransaction -> respond opts ws tls line nx p = respond opts ws tls line None p.
Proof. intros Hp. unfold respond. by rewrite Hp. Qed.

(** ** The commands *)

Hypotheses (Hw : 0 < w <= 64) (Hws : 36 <= ws) (Hml : 100 <= ml) (Hmr : fits 64 mr).
Hypothesis (Hline : 100 <= MaxLineLength opts).

Lemma plain_words v t : token v -> token t -> blen v + blen t < MaxLineLength opts -> plain_command (v ++ SP :: t).
Proof using.
  intros Hv Ht Hl. split; [rewrite blen_app, blen_cons; lia | by apply trim_space_words|]. by destruct v.
Qed.

Lemma plain_numbered v n : token v -> blen v <= 10 -> 1 <= n <= maxVal -> plain_command (v ++ SP :: itoa n).
Proof using Hline.
  intros Hv Hl Hn. apply plain_words; auto using token_itoa.
  assert (fits 64 n) as Hf by (unfold fits, maxVal in *; lia). pose proof (itoa_length n Hf). lia.
Qed.

Lemma plain_verb v : trim_space v = v -> v <> [] -> blen v <= 100 -> plain_command v.
Proof using Hline. intros Ht Hn Hl. split; (done || lia). Qed.

Lemma talks_User u pw p s' :
  pt_phase p = stateAuthorization -> pt_errors p = 0 -> auth_open opts tls = true ->
  token u -> token pw -> blen u + 5 <= MaxLineLength opts -> blen pw + 5 <= MaxLineLength opts ->
  p_Login u pw (pt_sess p) = (s', None) ->
  talks (User cx u pw) p [str "USER " ++ u; str "PASS " ++ pw] tt (logged_in (with_sess s' (with_user u p))) false.
Proof using Hml.
  intros Hp He Ho Hu Hpw Hlu Hlp El. eexists. split.
  - change ([?a; ?b]) with ([a] ++ [b]). eapply turns_app.
    + apply (turns_line p (str "USER " ++ u) (says (ok_line []) (with_user u p))); [|intros nx; by apply respond_user|done].
      change (str "USER " ++ u) with (str "USER" ++ SP :: u). apply plain_words; [by apply token_of|done|].
      change (blen (str "USER")) with 4. lia.
    + apply (turns_line (with_user u p) (str "PASS " ++ pw) (login opts (s', None) (with_user u p))); [| |done].
      * change (str "PASS " ++ pw) with (str "PASS" ++ SP :: pw). apply plain_words; [by apply token_of|done|].
        change (blen (str "PASS")) with 4. lia.
      * intros nx. rewrite respond_pass; [cbn [with_user pt_user pt_sess]; by rewrite El|done|done|apply Hu|apply Hpw].
  - intros st [Hst _]. rewrite script_with_cr. unfold crlf_lines. simpl map. simpl concat.
    rewrite app_nil_r, <- app_assoc. apply (happens_User opts cx u pw None); rewrite Hst; [lia|].
    change (blen (login_status opts None)) with 29. lia.
Qed.

Lemma talks_Uidl p s' uids :
  pt_phase p = stateTransaction -> pt_errors p = 0 -> p_Uidl 0 (pt_sess p) = (s', inl uids) ->
  Forall (uidl_fits w) uids -> blen uids <= mr ->
  talks (Uidl w cx) p [str "UIDL"] uids (with_sess s' p) false.
Proof using Hw Hml Hmr Hline.
  intros Hp He Eu Hf Hm.
  set (r := (respond opts ws tls (str "UIDL") None p).1).
  assert (re_state r = with_sess s' p /\ re_stop r = false) as [Es Ep].
  { subst r. rewrite respond_word by done. unfold in_transaction_state. simpl.
    unfold reply_uidl, answer. simpl. by rewrite Eu. }
  apply (talks_line _ _ _ _ r); [done|done|done|..].
  - by apply plain_verb.
  - intros nx. rewrite respond_next by done. subst r. rewrite respond_word by done. done.
  - intros st [Hl Hr]. eapply happens_Uidl; try done; unfold roomy; rewrite ?Hl, ?Hr; done.
Qed.

(** The whole body is read when there are more reads than bytes. *)
Lemma talks_fetch p s' msg b sizes :
  pt_phase p = stateTransaction -> pt_errors p = 0 -> 1 <= msg <= maxVal ->
  p_Retr msg (pt_sess p) = (s', inl b) -> body_err b = None ->
  match body_octets b with Some n => fits 64 n | None => True end ->
  Forall (fun l => blen l < ml) (body_lines (concat (body_chunks b))) ->
  Forall (fun n => (1 <= n)%nat) sizes -> (length (normalize (concat (body_chunks b))) < length sizes)%nat ->
  talks (fetch cx msg sizes) p [str "RETR " ++ itoa msg] (normalize (concat (body_chunks b))) (with_sess s' p) false.
Proof using Hws Hml Hline.
  intros Hp He Hn Er Hb Ho Hl Hs Hlen.
  set (r := (respond opts ws tls (str "RETR " ++ itoa msg) None p).1).
  assert (respond opts ws tls (str "RETR " ++ itoa msg) None p = (r, false)
    /\ re_state r = with_sess s' p /\ re_stop r = false) as (Ef & Es & Ep).
  { subst r. change (str "RETR " ++ itoa msg) with (str "RETR" ++ SP :: join (str " ") [itoa msg]).
    rewrite respond_args by (auto using token_itoa). unfold in_transaction_state. simpl.
    unfold reply_retr, answer. rewrite parseMsgNum_itoa, Er by done. unfold message. simpl. by rewrite Hb. }
  apply (talks_line _ _ _ _ r); [done|done|done|..].
  - change (str "RETR " ++ itoa msg) with (str "RETR" ++ SP :: itoa msg). by apply plain_numbered; [apply token_of|..].
  - intros nx. by rewrite respond_next.
  - intros st [Hst _] rest Hrd. subst r. rewrite (retr_reply opts ws tls p s' msg b) in Hrd by done.
    rewrite <- app_assoc in Hrd. simpl in Hrd.
    assert (roomy st) as Hr by (unfold roomy; by rewrite Hst).
    destruct (retr_status_takes b st Hr Ho) as [Ht Hok].
    destruct (retrieve_reads cx (str "RETR " ++ itoa msg) st (retr_status b)
      (body_lines (concat (body_chunks b))) sizes rest)
      as (b0 & s1 & b1 & s2 & out & e & b2 & s3 & E1 & E2 & E3 & Hout & R & K & W); auto.
    { apply Forall_and. split; [apply body_lines_no_lf|]. by rewrite Hst. }
    exists s3. unfold fetch, ebind, cbind, Retr. rewrite E1, E2. simpl. rewrite E3. split_and!; auto.
    destruct Hout as [[-> ->]|(-> & Hpre & Hle)]; [done|].
    apply prefix_length in Hpre. exfalso. unfold normalize in Hlen. lia.
Qed.

Lemma happens_ok cmd s st :
  limits st -> no_crlf (str "+OK " ++ s) -> blen s + 4 <= ml ->
  happens cx (cmdExpectOK cx cmd) st (str "+OK " ++ s ++ crlf) (cmd ++ crlf) (inl tt).
Proof using.
  intros [Hst _] Hs Hl. pose proof (happens_cmdExpectOK cx cmd (with_cr (str "+OK " ++ s)) st) as Hh.
  rewrite with_cr_lf in Hh. unfold with_cr in Hh at 2. rewrite chomp_snoc_cr, <- app_assoc in Hh.
  apply Hh. apply takes_with_cr; [done|]. rewrite Hst, blen_app. change (blen (str "+OK ")) with 4. lia.
Qed.

Lemma talks_Dele p s' msg :
  pt_phase p = stateTransaction -> pt_errors p = 0 -> 1 <= msg <= maxVal ->
  p_Dele msg (pt_sess p) = (s', None) ->
  talks (Dele cx msg) p [str "DELE " ++ itoa msg] tt (with_sess s' p) false.
Proof using Hws Hml Hline.
  intros Hp He Hn Ed. set (r := mkReply (ok_line (str "Message deleted")) (with_sess s' p) false).
  apply (talks_line _ _ _ _ r); [done|done|done|..].
  - change (str "DELE " ++ itoa msg) with (str "DELE" ++ SP :: itoa msg). by apply plain_numbered; [apply token_of|..].
  - intros nx. rewrite respond_next by done.
    change (str "DELE " ++ itoa msg) with (str "DELE" ++ SP :: join (str " ") [itoa msg]).
    rewrite respond_args by (auto using token_itoa). unfold in_transaction_state. simpl.
    unfold reply_dele, done_or. by rewrite parseMsgNum_itoa, Ed.
  - intros st Hst. apply (happens_ok (str "DELE " ++ itoa msg) (str "Message deleted")); [done| |].
    + by repeat constructor.
    + change (blen (str "Message deleted")) with 15. lia.
Qed.

Lemma talks_Quit p s' n :
  pt_phase p = stateTransaction -> pt_errors p = 0 -> fits 64 n -> p_Quit (pt_sess p) = (s', inl n) ->
  talks (Quit cx) p [str "QUIT"] tt (with_sess s' p) true.
Proof using Hml Hline.
  intros Hp He Hn Eq.
  set (r := mkReply (if 0 <? n then str "+OK " ++ itoa n ++ str " messages expunged" ++ crlf
                     else ok_line (str "Goodbye")) (with_sess s' p) true).
  apply (talks_line _ _ _ _ r); [done|done|done|..].
  - by apply plain_verb.
  - intros nx. rewrite respond_next, respond_word by done. unfold in_transaction_state. simpl.
    unfold reply_quit, answer, stopping. by rewrite Eq.
  - intros st Hst. unfold r, re_text. destruct (0 <? n).
    + rewrite (app_assoc (itoa n)). apply (happens_ok (str "QUIT")); [done| |].
      * apply (join_no_crlf [str "+OK"; itoa n; str "messages"; str "expunged"]).
        repeat constructor; try apply token_itoa; by vm_compute.
      * rewrite blen_app. pose proof (itoa_length n Hn). change (blen (str " messages expunged")) with 18. lia.
    + apply (happens_ok (str "QUIT") (str "Goodbye")); [done|by repeat constructor|].
      change (blen (str "Goodbye")) with 7. lia.
Qed.
End Dialogue.
