(* ===== verification/EndToEnd.v ===== *)
(** * The whole system: a mailbox downloaded

    The client, the server and the in-memory store together: the server is given
    the lines the client sends, the client the bytes the server writes. *)
From stdpp Require Import gmap.
From S2P Require Import Prelude GoStrings GoConv Errors DotStuff Parse Net Session Options Mem MemProps MemWorld ConnState ConnHandlers ConnServe Wire Spec MemSpec Demo RefineInput RefineLoop ServerSpec Client ClientFacts ClientText ClientServer ClientBody ClientAuth Dialogue.
Local Open Scope client_scope.

(** ** Connecting *)

(** The client [Dial] constructs. *)
Definition new_client (o : COptions) : Client :=
  mkClient NewReader NewWriter
    (if co_MaxLineLength o <=? 0 then 4096 else co_MaxLineLength o)
    (if MaxResponseLines o <=? 0 then 100000 else MaxResponseLines o) [].

Definition ok_status (m : bytes) : bytes := if is_nil m then str "+OK" else str "+OK " ++ sanitizeResponse m.

Lemma ok_line_status m : ok_line m = with_cr (ok_status m) ++ [LF].
Proof. rewrite with_cr_lf. unfold ok_line, status_line, ok_status. destruct (is_nil m); by rewrite <- ?app_assoc. Qed.

Lemma happens_Dial cx (o : COptions) m st rest :
  co_TLSConfig o = false -> blen (ok_status m) <= maxLine (new_client o) ->
  ready cx (set_client (new_client o) st) (ok_line m ++ rest) ->
  exists st', Dial cx None o st = (st', IoVal (inl tt)) /\ ready cx st' rest
    /\ keeps (set_client (new_client o) st) st' /\ wire (cnet st') = wire (cnet st).
Proof.
  intros Ht Hm Hr. unfold Dial. rewrite Ht. simpl negb. simpl andb. cbv iota. unfold cbind at 1 2. unfold cret at 1, cmod at 1.
  match goal with |- context [guarded cx ?k] => set (body := k) end.
  assert (happens cx (guarded cx body) (set_client (new_client o) st) (ok_line m) [] (inl tt)) as Hh.
  { apply happens_guarded. intros st1 Hml _. subst body. rewrite ok_line_status.
    eapply happens_eq; [eapply happens_bind with (o1 := []) (o2 := []) (i2 := [])| |]; [| |apply app_nil_r|done].
    - apply happens_readLine.
      + apply Forall_app. split; [|by repeat constructor]. unfold ok_status. destruct (is_nil m); [by repeat constructor|].
        apply Forall_app. split; [by repeat constructor|]. eapply Forall_impl; [apply sanitize_no_crlf|]. by intros b Hb ->.
      + unfold with_cr. rewrite chomp_snoc_cr, Hml. exact Hm.
    - intros st2 K2. unfold with_cr. rewrite chomp_snoc_cr.
      assert (isOK (ok_status m) = true) as -> by (unfold ok_status; by destruct (is_nil m)). simpl.
      intros rest2 [[Hi Ho Hw Ha Hc] Hb]. eexists. split; [reflexivity|].
      split; [by split; [split|]|]. split; [by split|]. by rewrite app_nil_r. }
  destruct (Hh rest Hr) as (st' & E & R & K & W). exists st'. rewrite app_nil_r in W.
  split_and!; [exact E|done|done|exact W].
Qed.

(** ** The store's side *)

(** The listing of a maildrop, numbered from [k]. *)
Fixpoint uids_from (k : Z) (l : list MessageRef) : list MessageUidl :=
  match l with [] => [] | m :: l' => mkMessageUidl k (UID m) :: uids_from (k + 1) l' end.

(** What a client gets of a message: its unique-id and its text, every line
    ended by CRLF. *)
Definition mail (m : MessageRef) : bytes * bytes := (UID m, normalize (Data m)).

(** The session of [u] on [msgs] in which the first [k] are marked. *)
Record emptied (u : bytes) (msgs : list MessageRef) (k : Z) (s : Mem.session) : Prop := mkEmptied {
  em_user : s_username s = u;
  em_msgs : s_msgs s = msgs;
  em_deleted i : i ∈ s_deleted s <-> 1 <= i <= k
}.

Lemma live_uids u msgs s k l :
  emptied u msgs 0 s -> map (fun im => mkMessageUidl im.1 (UID im.2)) (live_from s k l) = uids_from k l.
Proof.
  intros [_ _ Hd]. revert k. induction l as [|m l IH]; intros k; [done|]. cbn [live_from uids_from].
  assert (is_deleted s k = false) as ->; [|by rewrite map_app, IH].
  apply bool_decide_eq_false. rewrite Hd. lia.
Qed.

Lemma emptied_next u done_ m todo s :
  emptied u (done_ ++ m :: todo) (blen done_) s ->
  let n := blen done_ + 1 in
  msgAt s n = inl m
  /\ exists s', Mem.Dele s n = (s', None) /\ emptied u (done_ ++ m :: todo) n s'.
Proof.
  intros [Hu Hm Hd] n. pose proof (blen_nonneg done_).
  assert (in_range s n = true) as Hi.
  { unfold in_range. rewrite Hm, blen_app, blen_cons. pose proof (blen_nonneg todo).
    apply andb_true_iff. split; apply Z.leb_le; lia. }
  assert (is_deleted s n = false) as Hn by (apply bool_decide_eq_false; rewrite Hd; lia).
  unfold msgAt, Mem.Dele. rewrite Hi, Hn. simpl. split.
  - rewrite Hm. replace (Z.to_nat (n - 1)) with (length done_ + 0)%nat by (unfold n, blen in *; lia).
    by rewrite lookup_app_r, Nat.add_comm, Nat.add_sub by lia.
  - eexists. split; [reflexivity|]. split; simpl; auto. intros i. rewrite elem_of_union, elem_of_singleton, Hd. lia.
Qed.

(** QUIT leaves the account with nothing. *)
Lemma quit_empties store u acc s :
  users store !! u = Some acc -> emptied u (messages acc) (blen (messages acc)) s ->
  Mem.Quit store s
  = (mkStore (<[u := mkAccount (password acc) []]> (users store)) (next store), blen (messages acc)).
Proof.
  intros Ha [Hu Hs Hd]. unfold Mem.Quit.
  assert (Forall (fun m => bool_decide (addr m ∈ marked s) = true) (messages acc)) as Hall.
  { apply Forall_forall. intros m Hin. apply bool_decide_eq_true, marked_spec. exists m. split; [|done].
    apply list_elem_of_lookup in Hin as [i Hi]. exists (Z.of_nat i + 1). rewrite Hd, Hs.
    pose proof (lookup_lt_Some _ _ _ Hi). unfold blen in *. split_and!; [lia|lia|lia|].
    by replace (Z.to_nat (Z.of_nat i + 1 - 1)) with i by lia. }
  pose proof (blen_nonneg (messages acc)). destruct (messages acc) as [|m l] eqn:El.
  - rewrite bool_decide_eq_true_2; [|apply set_eq; intros i; rewrite Hd; unfold blen; simpl; set_solver by lia].
    f_equal. destruct store as [us nx], acc as [pw l]. simpl in *. subst l. by rewrite insert_id.
  - assert (1 ∈ s_deleted s) as Hone by (apply Hd; rewrite blen_cons in *; pose proof (blen_nonneg l); lia).
    rewrite bool_decide_eq_false_2 by (intros He; rewrite He in Hone; set_solver).
    unfold expunge. rewrite Hu, Ha, El.
    pose proof Hall as Hm. apply Forall_inv, bool_decide_eq_true in Hm.
    rewrite bool_decide_eq_false_2 by (intros He; rewrite He in Hm; set_solver).
    pose proof (blen_filter_split (fun m => bool_decide (addr m ∈ marked s)) (m :: l)) as Hsp.
    rewrite (filter_Forall_id _ _ Hall) in Hsp |- *.
    destruct (List.filter (fun x => negb _) (m :: l)) as [|x k]; [done|].
    rewrite (blen_cons x k) in Hsp. pose proof (blen_nonneg k). lia.
Qed.

(** ** The download *)

Section Download.
Context `{Unicode}.
Variables (opts : Options MemSession) (ws w : Z) (tls : bool) (cx : Context).
Variables (ml mr : Z).
Hypotheses (Hw : 0 < w <= 64) (Hws : 36 <= ws) (Hml : 100 <= ml) (Hmr : fits 64 mr).
Hypothesis (Hline : 100 <= MaxLineLength opts).
Variables (store : Store) (u : bytes) (sizes : list nat).
Hypothesis (Hsizes : Forall (fun n => (1 <= n)%nat) sizes).

(** A message the client can take: a unique-id of RFC 1939, lines within its
    limit, fewer bytes than it has reads. *)
Record fetchable (m : MessageRef) : Prop := mkFetchable {
  fe_uid : token (UID m) /\ blen (UID m) <= 70;
  fe_lines : Forall (fun l => blen l < ml) (body_lines (Data m));
  fe_reads : (length (normalize (Data m)) < length sizes)%nat
}.

(** [s] was reached from a state [p] of TRANSACTION without an error. *)
Definition open (p : Proto MemSession) (s : Mem.session) : Prop :=
  pt_phase p = stateTransaction /\ pt_errors p = 0 /\ pt_sess p = mkMem store s.

Lemma talks_fetch_each done_ todo p s :
  open p s -> emptied u (done_ ++ todo) (blen done_) s -> Forall fetchable todo ->
  blen (done_ ++ todo) <= maxVal ->
  exists p' s', talks opts ws tls cx ml mr (fetch_each cx sizes (uids_from (blen done_ + 1) todo)) p
      (fetch_lines (uids_from (blen done_ + 1) todo)) (map mail todo) p' false
    /\ open p' s' /\ emptied u (done_ ++ todo) (blen (done_ ++ todo)) s'.
Proof using Hws Hml Hline Hsizes.
  revert done_ p s. induction todo as [|m todo IH]; intros done_ p s Ho He Hf Hm.
  { rewrite app_nil_r in *. exists p, s. split; [apply talks_ret|done]. }
  inversion_clear Hf as [|? ? [_ Hl Hr] Hf']. destruct Ho as (Hp & Her & Hs).
  destruct (emptied_next _ _ _ _ _ He) as [Hat (s1 & Ed & E1)].
  set (n := blen done_ + 1) in *. assert (1 <= n <= maxVal) as Hn.
  { rewrite blen_app, blen_cons in Hm. unfold n. pose proof (blen_nonneg done_). pose proof (blen_nonneg todo). lia. }
  assert (p_Retr n (pt_sess p) = (mkMem store s, inl (bytes_body (Data m)))) as Er.
  { rewrite Hs. simpl. unfold mem_result, Mem.Retr. simpl. by rewrite Hat. }
  assert (concat (body_chunks (bytes_body (Data m))) = Data m) as Hb by (simpl; by rewrite app_nil_r).
  pose proof (talks_fetch opts ws tls cx ml mr Hws Hml Hline p _ n (bytes_body (Data m)) sizes
    Hp Her Hn Er eq_refl I) as T1. rewrite Hb in T1. specialize (T1 Hl Hsizes Hr).
  set (p1 := with_sess (mkMem store s) p) in T1.
  assert (p_Dele n (pt_sess p1) = (mkMem store s1, None)) as Ed' by (simpl; by rewrite Ed).
  pose proof (talks_Dele opts ws tls cx ml mr Hws Hml Hline p1 _ n Hp Her Hn Ed') as T2.
  assert (blen (done_ ++ [m]) = n) as Hlen by (rewrite blen_app; unfold blen, n, blen; simpl; lia).
  destruct (IH (done_ ++ [m]) (with_sess (mkMem store s1) p1) s1) as (p' & s' & T3 & O3 & E3);
    rewrite <- ?app_assoc; rewrite ?Hlen; auto; [by split_and!|].
  rewrite Hlen, <- app_assoc in *. exists p', s'. split; [|by split].
  cbn [uids_from fetch_each fetch_lines mu_Num mu_UniqueID].
  eapply (talks_ebind _ _ _ _ _ _ _ _ _ [_]); [exact T1|].
  eapply (talks_ebind _ _ _ _ _ _ _ _ _ [_]); [exact T2|].
  apply (talks_then_ret _ _ _ _ _ _ _ (cons (mail m))). exact T3.
Qed.

Lemma uids_from_fit k l :
  Forall fetchable l -> 1 <= k -> fits w (k - 1 + blen l) -> Forall (uidl_fits w) (uids_from k l).
Proof using Hw.
  intros Hl. revert k. induction Hl as [|m l [[Ht Hb] _ _] Hl IH]; intros k Hk Hf; constructor.
  - split; [|by split]. simpl. rewrite blen_cons in Hf. pose proof (blen_nonneg l). unfold fits in *. lia.
  - apply IH; [lia|]. rewrite blen_cons in Hf. replace (k + 1 - 1 + blen l) with (k - 1 + (1 + blen l)) by lia. done.
Qed.

Lemma uids_from_length k l : blen (uids_from k l) = blen l.
Proof using. revert k. induction l as [|m l IH]; intros k; [done|]. simpl. by rewrite !blen_cons, IH. Qed.

(** The account, and the store after the download. *)
Variable acc : account.
Hypotheses (Hacc : users store !! u = Some acc) (Huser : token u) (Hpass : token (password acc)).
Definition emptied_store : Store :=
  mkStore (<[u := mkAccount (password acc) []]> (users store)) (next store).

Lemma talks_download :
  auth_open opts tls = true ->
  blen u + 5 <= MaxLineLength opts -> blen (password acc) + 5 <= MaxLineLength opts ->
  Forall fetchable (messages acc) ->
  blen (messages acc) <= maxVal -> blen (messages acc) <= mr -> fits w (blen (messages acc)) ->
  exists p' s', talks opts ws tls cx ml mr (download w cx u (password acc) sizes)
      (mkProto stateAuthorization [] 0 (mkMem store NewSession))
      (download_lines u (password acc) (uids_from 1 (messages acc)))
      (map mail (messages acc)) p' true
    /\ pt_sess p' = mkMem emptied_store s'.
Proof using All.
  intros Ho Hlu Hlp Hf Hmax Hres Hfit. set (msgs := messages acc) in *.
  set (p0 := mkProto stateAuthorization [] 0 (mkMem store NewSession)).
  set (s1 := mkSession u msgs ∅).
  assert (p_Login u (password acc) (pt_sess p0) = (mkMem store s1, None)) as El.
  { simpl. unfold mem_log_in, Login, authenticate. simpl. by rewrite Hacc, bytes_eqb_refl. }
  pose proof (talks_User opts ws tls cx ml mr Hml u (password acc) p0 _ eq_refl eq_refl Ho Huser Hpass Hlu Hlp El) as T1.
  set (p1 := logged_in _) in T1.
  assert (emptied u msgs 0 s1) as E1 by (split; [done|done|]; intros i; simpl; set_solver by lia).
  assert (p_Uidl 0 (pt_sess p1) = (mkMem store s1, inl (uids_from 1 msgs))) as Eu.
  { simpl. unfold mem_result, Mem.Uidl, live. simpl. by rewrite (live_uids u msgs s1 1 msgs E1). }
  assert (Forall (uidl_fits w) (uids_from 1 msgs)) as Hu by (apply uids_from_fit; [done|lia|done]).
  pose proof (talks_Uidl opts ws w tls cx ml mr Hw Hml Hmr Hline p1 _ _ eq_refl eq_refl Eu Hu) as T2.
  rewrite uids_from_length in T2. specialize (T2 Hres). set (p2 := with_sess _ p1) in T2.
  destruct (talks_fetch_each [] msgs p2 s1) as (p3 & s3 & T3 & (Hp3 & He3 & Hs3) & E3); [done|done|done|done|].
  assert (p_Quit (pt_sess p3) = (mkMem emptied_store s3, inl (blen msgs))) as Eq.
  { rewrite Hs3. simpl. by rewrite (quit_empties store u acc s3 Hacc E3). }
  assert (fits 64 (blen msgs)) as Hf64 by by eapply fits_le.
  pose proof (talks_Quit opts ws tls cx ml mr Hml Hline p3 _ _ Hp3 He3 Hf64 Eq) as T4.
  exists (with_sess (mkMem emptied_store s3) p3), s3. split; [|done]. unfold download, download_lines.
  eapply talks_ebind; [exact T1|]. eapply talks_ebind; [exact T2|]. eapply talks_ebind; [exact T3|].
  eapply (talks_then_ret _ _ _ _ _ _ _ (fun _ => map mail msgs)). exact T4.
Qed.
End Download.

(** ** The system *)

(** Connect, download, leave. *)
Definition visit (w : Z) (cx : Context) (o : COptions) (u pw : bytes) (sizes : list nat)
    : C (cres (list (bytes * bytes))) :=
  _ <-? Dial cx None o;; download w cx u pw sizes.

(** The limits of both sides leave room for the account [u], [acc]: the client
    connects in plaintext or over a connection that is already encrypted, its
    limits hold every message, the server's take every line. *)
Record roomy_setup (opts : Options MemSession) (o : COptions) (w ws : Z) (u : bytes) (acc : account)
    (sizes : list nat) : Prop := mkRoomySetup {
  rs_width : 0 < w <= 64 /\ 36 <= ws;
  rs_plain : co_TLSConfig o = false;
  rs_line : 100 <= maxLine (new_client o) /\ blen (ok_status (Greeting opts)) <= maxLine (new_client o);
  rs_lines : fits 64 (maxRespLines (new_client o)) /\ blen (messages acc) <= maxRespLines (new_client o);
  rs_server : 100 <= MaxLineLength opts;
  rs_user : token u /\ blen u + 5 <= MaxLineLength opts;
  rs_pass : token (password acc) /\ blen (password acc) + 5 <= MaxLineLength opts;
  rs_count : blen (messages acc) <= maxVal /\ fits w (blen (messages acc));
  rs_sizes : Forall (fun k => (1 <= k)%nat) sizes;
  rs_messages : Forall (fetchable (maxLine (new_client o)) sizes) (messages acc)
}.

(** C2: the client, the server and the store as one system.  A client connects,
    logs in, lists the mailbox, retrieves and deletes every message and quits;
    the server is given, in any segments and in time, the lines the client
    sends, and the client, likewise, what the server writes.  Then the client
    gets exactly the messages of the account, in order, each with its unique-id
    and its text with every line ended by CRLF; what it sent is what the server
    was given, and nothing of what the server wrote is left over; and the store
    the server leaves is the same but for the account's mailbox, which is
    empty. *)
Theorem mailbox_downloaded (opts : Options MemSession) `{Unicode} ws nc cancel hs o w cx store u acc sizes n st :
  plain_config opts (isTLSConn nc) ->
  Options.NewSession opts = PRet tt (inl (mkMem store NewSession)) ->
  auth_open opts (isTLSConn nc) = true ->
  users store !! u = Some acc -> roomy_setup opts o w ws u acc sizes ->
  let lines := map with_cr (download_lines u (password acc) (uids_from 1 (messages acc))) in
  let server := (ServeConn opts ws nc cancel n hs).1 in
  wire n = [] -> sends opts n lines -> accepts n ->
  ready cx (set_client (new_client o) st) (wire (net server)) ->
  exists st' s',
    visit w cx o u (password acc) sizes st = (st', IoVal (inl (map mail (messages acc))))
    /\ wire (cnet st') = wire (cnet st) ++ script lines
    /\ ready cx st' []
    /\ ConnState.session (conn server) = Some (mkMem (emptied_store store u acc) s').
Proof.
  intros Hc Hn Ho Hacc [[Hw Hws] Ht [Hl Hg] [Hmr Hm] Hsl [Hu Hul] [Hp Hpl] [Hmax Hfit] Hz Hf] lines server Hwn Hs Ha Hr.
  destruct (talks_download opts ws w (isTLSConn nc) cx _ _ Hw Hws Hl Hmr Hsl store u sizes Hz acc Hacc Hu Hp
    Ho Hul Hpl Hf Hmax Hm Hfit) as (p' & s' & (t & T & Hd) & Hsess).
  destruct (ServeConn_conversation opts nc Hc ws cancel n hs _ lines Hn Hs Ha) as [Wo Wf].
  fold server in Wo, Wf. unfold conversation, final_session in *. rewrite Hwn, app_nil_l in Wo.
  destruct (T []) as [Tc Tf]. rewrite app_nil_r in Tc, Tf. fold lines in Tc, Tf. rewrite Tc, app_nil_r in Wo. rewrite Tf, Hsess in Wf.
  rewrite Wo in Hr. destruct (happens_Dial cx o _ st t Ht Hg Hr) as (st1 & E1 & R1 & K1 & W1).
  rewrite <- (app_nil_r t) in R1. destruct (Hd st1 (keeps_limits _ _ _ _ K1 (conj eq_refl eq_refl)) [] R1) as (st2 & E2 & R2 & _ & W2).
  exists st2, s'. split_and!; [|by rewrite W2, W1|done|done].
  unfold visit, ebind, cbind. rewrite E1. exact E2.
Qed.

(** ** Alice's mailbox *)

Definition demo_account : account :=
  mkAccount (str "s3cret")
    [mkMessage 0 (str "u1") (str "Subject: hi" ++ crlf ++ crlf ++ str ".dot" ++ [LF]);
     mkMessage 1 (str "u2") (str "x")].

(** The lines of her client, in two segments. *)
Definition demo_lines : bytes :=
  script (map with_cr (download_lines (str "alice") (str "s3cret") (uids_from 1 (messages demo_account)))).
Definition demo_input : Net :=
  mkNet 0 [(5, NBytes (take 20 demo_lines)); (6, NBytes (drop 20 demo_lines))] None None [] [].

Definition demo_plain : COptions := mkCOptions false false 0 0.
Definition demo_sizes : list nat := repeat 7%nat 40.

(** A client that will receive these bytes, and a context that is done at 100. *)
Definition visitor (reply : bytes) : CSt :=
  mkCSt (new_client demo_plain) (mkNet 0 [(1, NBytes reply)] None None [] []) [] [] [] false.
Definition visitor_cx : Context := mkContext (Some 100) None.

Lemma visitor_ready reply : reply <> [] -> ready visitor_cx (set_client (new_client demo_plain) (visitor reply)) reply.
Proof.
  intros Hr.
  split; [|reflexivity]. split.
  - split_and!; try done; simpl; [by apply Forall_singleton|by rewrite app_nil_r|lia].
  - split_and!; try done; simpl; try lia. by right.
  - done.
  - constructor.
  - intros t [= <-]. split; [simpl; lia|]. repeat constructor; simpl; lia.
Defined.

(** Her client, to receive what the server writes. *)
Definition demo_visitor : CSt := visitor (wire (net (ServeConn (demo_options 0) 64 None None demo_input []).1)).

Lemma demo_setup : roomy_setup (demo_options 0) demo_plain 64 64 (str "alice") demo_account demo_sizes.
Proof.
  split; try (vm_compute; done).
  - split; [by apply token_of|vm_compute; done].
  - split; [by apply token_of|vm_compute; done].
  - repeat constructor; lia.
  - repeat constructor; try (vm_compute; lia); try (vm_compute; done); by apply token_of.
Defined.

Lemma mailbox_downloaded_witness :
  exists st' s',
    visit 64 visitor_cx demo_plain (str "alice") (str "s3cret") demo_sizes demo_visitor
      = (st', IoVal (inl [(str "u1", str "Subject: hi" ++ crlf ++ crlf ++ str ".dot" ++ crlf); (str "u2", str "x" ++ crlf)]))
    /\ ConnState.session (conn (ServeConn (demo_options 0) 64 None None demo_input []).1)
       = Some (mkMem (emptied_store demo_store (str "alice") demo_account) s').
Proof.
  destruct (mailbox_downloaded (demo_options 0) 64 None None [] demo_plain 64 visitor_cx
    demo_store (str "alice") demo_account demo_sizes demo_input demo_visitor) as (st' & s' & E1 & _ & _ & E2).
  - split; vm_compute; done || by left.
  - reflexivity.
  - reflexivity.
  - vm_compute. reflexivity.
  - exact demo_setup.
  - reflexivity.
  - split; [apply (bool_decide_unpack _); vm_compute; exact I|].
    split; [repeat constructor; vm_compute; discriminate|].
    split; [vm_compute; reflexivity|]. repeat constructor; vm_compute; reflexivity.
  - constructor.
  - apply visitor_ready. vm_compute. discriminate.
  - exists st', s'. split; [exact E1 | exact E2].
Defined.
