(* ===== verification/ClientLive.v ===== *)
(** * The client always returns

    Under a context that has a deadline or will be cancelled no operation of the
    client waits for ever, whatever the server does and however the guards'
    goroutines are scheduled; and what a server can make it keep is bounded. *)
From S2P Require Import Prelude GoStrings GoConv Errors DotStuff Parse Net NetLive Session ConnState Client ClientBody.
Local Open Scope client_scope.

Section Live.
Variable cx : Context.
Implicit Types st : CSt.

(** Whatever blocks will be interrupted. *)
Definition bounded st : Prop :=
  is_Some (ctx_deadline cx) \/ armed st <> []
  \/ (is_Some (rdl (cnet st)) /\ is_Some (wdl (cnet st))).

(** A read, a write will be interrupted. *)
Definition read_bounded st : Prop := armed st <> [] \/ is_Some (rdl (cnet st)).
Definition write_bounded st : Prop := armed st <> [] \/ is_Some (wdl (cnet st)).

Definition ends {A} (m : C A) : Prop :=
  forall st, bounded st -> exists st' a, m st = (st', IoVal a) /\ bounded st'.

Lemma ends_ret {A} (a : A) : ends (cret a).
Proof. intros st Hb. by exists st, a. Qed.

Lemma ends_get {A} (f : CSt -> A) : ends (cget f).
Proof. intros st Hb. by exists st, (f st). Qed.

Lemma ends_bind {A B} (m : C A) (k : A -> C B) : ends m -> (forall a, ends (k a)) -> ends (cbind m k).
Proof.
  intros Hm Hk st Hb. destruct (Hm st Hb) as (s1 & a & E & B1). unfold cbind. rewrite E. by apply Hk.
Qed.

Lemma ends_ebind {A B} (m : C (cres A)) (k : A -> C (cres B)) :
  ends m -> (forall a, ends (k a)) -> ends (ebind m k).
Proof. intros Hm Hk. apply ends_bind; [done|]. intros [a|e]; [apply Hk | apply ends_ret]. Qed.

(** ** Guards never weaken the bounds *)

Lemma fire_cases a b st :
  fire a b st = st \/ exists l, fire a b st = set_armed l (set_cnet (poison (cnet st)) st).
Proof. unfold fire. destruct (existsb _ _); [right; eauto | by left]. Qed.

Definition stays (P : CSt -> Prop) : Prop :=
  (forall a b st, P st -> P (fire a b st)) /\ (forall l st, P st -> P (set_lag l st))
  /\ (forall n st, P st -> P (after_call st n)).

Lemma bounded_stays : stays bounded.
Proof.
  split; [|split; [done|done]]. intros a b st Hb. destruct (fire_cases a b st) as [->|[l ->]]; [done|].
  destruct Hb as [?|_]; [by left|]. right; right. by split; eexists.
Qed.

Lemma read_bounded_stays : stays read_bounded.
Proof.
  split; [|split; [done|done]]. intros a b st Hb. destruct (fire_cases a b st) as [->|[l ->]]; [done|].
  right. by eexists.
Qed.

Lemma write_bounded_stays : stays write_bounded.
Proof.
  split; [|split; [done|done]]. intros a b st Hb. destruct (fire_cases a b st) as [->|[l ->]]; [done|].
  right. by eexists.
Qed.

Lemma fire_same a b st : client (fire a b st) = client st /\ inbox (cnet (fire a b st)) = inbox (cnet st).
Proof. by destruct (fire_cases a b st) as [->|[l ->]]. Qed.

Lemma poll_stays P st : stays P -> P st -> exists st' late, poll st = (st', IoVal late) /\ P st'
  /\ client st' = client st /\ inbox (cnet st') = inbox (cnet st).
Proof.
  intros (Hf & Hl & _) HP. unfold poll. eexists _, _. split; [reflexivity|]. split; [by apply Hf, Hl|].
  apply (fire_same _ _ (set_lag (tail (lag st)) st)).
Qed.

(** A blocking call returns when the network it sees makes it return. *)
Lemma blocking_returns {A} (P : CSt -> Prop) (f : Net -> Net * io A) st :
  stays P -> (forall late st, P st -> returns (f (watched late st))) -> P st ->
  exists st0 late st' n a, f (watched late st0) = (n, IoVal a) /\ blocking f st = (st', IoVal a) /\ P st'
    /\ client st' = client st /\ client st0 = client st
    /\ inbox (cnet st0) = inbox (cnet st) /\ inbox (cnet st') = inbox n.
Proof.
  intros Hs Hr HP. destruct (poll_stays P st Hs HP) as (s1 & late & E1 & P1 & C1 & I1). unfold blocking, cbind.
  rewrite E1. specialize (Hr late s1 P1). destruct (f (watched late s1)) as [n [a|]] eqn:Ef; [|done].
  exists s1, late, (fire (now (cnet s1)) late (after_call s1 n)), n, a.
  destruct (fire_same (now (cnet s1)) late (after_call s1 n)) as [-> ->].
  destruct Hs as (Hf & _ & Ha). split_and!; auto.
Qed.

Lemma stays_and P Q : stays P -> stays Q -> stays (fun st => P st /\ Q st).
Proof. intros (?&?&?) (?&?&?). split_and!; naive_solver. Qed.

Lemma soonest_Some l : l <> [] -> is_Some (soonest l).
Proof. destruct l as [|t l]; [done|]. intros _. simpl. destruct (soonest l); by eexists. Qed.

Lemma min_opt_Some a b : is_Some a \/ is_Some b -> is_Some (min_opt a b).
Proof. destruct a, b; simpl; intros [[? ?]|[? ?]]; try done; by eexists. Qed.

Lemma watched_read late st : read_bounded st -> is_Some (rdl (watched late st)).
Proof. intros [H|H]; apply min_opt_Some; [right; by apply fmap_is_Some, soonest_Some | by left]. Qed.

Lemma watched_write late st : write_bounded st -> bounded_w 0 (watched late st).
Proof. intros [H|H]; right; apply min_opt_Some; [right; by apply fmap_is_Some, soonest_Some | by left]. Qed.

(** ** Reading *)

Definition weight st : nat := rweight (cl_reader (client st)) (cnet st).
Definition reads st : Prop := bounded st /\ read_bounded st.

Lemma reads_stays : stays reads.
Proof. apply stays_and; [apply bounded_stays | apply read_bounded_stays]. Qed.

Lemma cl_ReadLine_ends st :
  reads st -> exists st' chunk pre e, cl_ReadLine st = (st', IoVal (chunk, pre, e)) /\ reads st'
    /\ maxLine (client st') = maxLine (client st) /\ maxRespLines (client st') = maxRespLines (client st)
    /\ (e = None -> pre = true -> chunk <> []) /\ (weight st' <= weight st)%nat
    /\ (e = None -> (weight st' < weight st)%nat).
Proof.
  intros Hr. unfold cl_ReadLine. unfold cbind at 1, cget.
  destruct (blocking_returns reads (ReadLine (cl_reader (client st))) st reads_stays)
    as (s0 & late & s1 & n & [r [[chunk pre] e]] & Ef & E & R1 & C1 & C0 & I0 & I1); [|done|].
  { intros l s [_ Hs]. by apply ReadLine_returns, watched_read. }
  unfold cbind. rewrite E. exists (set_client (set_cl_reader r (client s1)) s1), chunk, pre, e.
  assert (rweight (cl_reader (client st)) (watched late s0) = weight st) as Hw
    by (unfold weight, rweight; simpl; by rewrite I0).
  split; [done|]. split; [exact R1|]. simpl. rewrite C1. split_and!; try done.
  - intros -> ->. by eapply ReadLine_prefix.
  - pose proof (ReadLine_weight_le (cl_reader (client st)) (watched late s0)) as Hle.
    rewrite Ef in Hle. cbn [fst snd] in Hle. destruct Hle as [_ Hle]. rewrite Hw in Hle.
    etrans; [|exact Hle]. unfold weight, rweight. simpl. by rewrite I1.
  - intros ->. apply ReadLine_weight in Ef. rewrite Hw in Ef. unfold weight, rweight in *. simpl. by rewrite I1.
Qed.

Lemma cl_readLine_go_ends k line st :
  reads st -> (Z.to_nat (maxLine (client st) + 2 - blen line) <= k)%nat -> (1 <= k)%nat ->
  exists st' r, cl_readLine_go k line st = (st', IoVal r) /\ reads st' /\ (weight st' <= weight st)%nat
    /\ maxRespLines (client st') = maxRespLines (client st) /\ maxLine (client st') = maxLine (client st)
    /\ match r with inl l => (weight st' < weight st)%nat /\ blen l <= maxLine (client st) | inr _ => True end.
Proof.
  revert line st. induction k as [|k IH]; intros line st Hr Hk Hk1; [lia|]. cbn [cl_readLine_go].
  destruct (cl_ReadLine_ends st Hr) as (s1 & chunk & pre & e & E & R1 & Hml & Hmr & Hne & Hw & Hlt).
  unfold cbind at 1. rewrite E. cbv beta iota. destruct e as [e|].
  { eexists _, _. split; [reflexivity|]. by split_and!. }
  specialize (Hlt eq_refl). unfold cbind, cget. rewrite Hml.
  destruct (Z.ltb_spec (maxLine (client st)) (blen (line ++ chunk))) as [|Hle].
  { eexists _, _. split; [reflexivity|]. by split_and!. }
  destruct pre; simpl negb; cbv iota.
  - assert (blen chunk <> 0) as Hc by (specialize (Hne eq_refl eq_refl); destruct chunk; [done|rewrite blen_cons; pose proof (blen_nonneg chunk); lia]).
    pose proof (blen_nonneg chunk). pose proof (blen_nonneg line). rewrite blen_app in Hle.
    destruct (IH (line ++ chunk) s1 R1) as (s2 & r & E2 & R2 & W2 & M2 & L2 & H2).
    + rewrite Hml, blen_app. lia.
    + lia.
    + eexists _, _. split; [exact E2|]. split; [done|]. split; [lia|]. split; [congruence|]. split; [congruence|].
      destruct r; [|done]. rewrite Hml in H2. split; [lia|apply H2].
  - eexists _, _. split; [reflexivity|]. split_and!; try done.
Qed.

Lemma start_reading st :
  bounded st ->
  exists st', (match ctx_deadline cx with Some d => conn_SetReadDeadline d | None => cret tt end) st
    = (st', IoVal tt) /\ reads st' /\ client st' = client st /\ weight st' = weight st.
Proof.
  intros Hb. destruct (ctx_deadline cx) as [d|] eqn:Ed.
  - destruct (poll_stays bounded st bounded_stays Hb) as (s1 & ? & E1 & B1 & C1 & I1).
    unfold conn_SetReadDeadline, cbind. rewrite E1. eexists. split; [reflexivity|]. split; [|split; [done|]].
    + split; [left; by rewrite Ed|]. right. by eexists.
    + unfold weight, rweight. simpl. by rewrite C1, I1.
  - exists st. split; [done|]. split; [|done]. split; [done|].
    destruct Hb as [[? Hd]|[?|[? _]]]; [by rewrite Ed in Hd|by left|by right].
Qed.

Lemma readLine_ends' st :
  bounded st ->
  exists st' r, readLine cx st = (st', IoVal r) /\ bounded st' /\ (weight st' <= weight st)%nat
    /\ maxRespLines (client st') = maxRespLines (client st) /\ maxLine (client st') = maxLine (client st)
    /\ match r with inl l => (weight st' < weight st)%nat /\ blen l <= maxLine (client st) | inr _ => True end.
Proof.
  intros Hb. destruct (start_reading st Hb) as (s1 & E1 & R1 & C1 & W1).
  unfold readLine. unfold cbind at 1. rewrite E1. unfold cbind, cget.
  destruct (cl_readLine_go_ends (Z.to_nat (maxLine (client s1)) + 2) [] s1 R1) as (s2 & r & E2 & [B2 _] & W2 & M2 & L2 & H2).
  - unfold blen. simpl. lia.
  - lia.
  - exists s2, r. rewrite W1, C1 in *. by split_and!.
Qed.

Lemma readLine_ends : ends (readLine cx).
Proof. intros st Hb. destruct (readLine_ends' st Hb) as (s1 & r & E & B & _). eauto. Qed.

(** The lines kept of a response, and how long each may be. *)
Lemma readMultiLine_go_ends k lines st :
  bounded st -> (Z.to_nat (maxRespLines (client st) + 2 - blen lines) <= k)%nat -> (1 <= k)%nat ->
  exists st' r, readMultiLine_go k cx lines st = (st', IoVal r) /\ bounded st'
    /\ match r with
       | inl ls => exists new, ls = lines ++ new /\ Forall (fun l => blen l <= maxLine (client st)) new
                   /\ (blen ls <= maxRespLines (client st) \/ new = [])
       | inr _ => True
       end.
Proof.
  revert lines st. induction k as [|k IH]; intros lines st Hb Hk Hk1; [lia|]. cbn [readMultiLine_go].
  destruct (readLine_ends' st Hb) as (s1 & r & E & B1 & _ & M1 & L1 & H1).
  unfold ebind, cbind at 1. rewrite E. destruct r as [line|e]; [|by eexists _, _].
  destruct (line =s? str ".").
  { eexists _, _. split; [reflexivity|]. split; [done|]. exists []. rewrite app_nil_r. split_and!; auto. }
  unfold cbind, cget. rewrite M1.
  destruct (Z.ltb_spec (maxRespLines (client st)) (blen (lines ++ [unstuffLine line]))) as [|Hle].
  { eexists _, _. by split. }
  assert (blen (unstuffLine line) <= maxLine (client st)) as Hlen.
  { etrans; [|apply H1]. unfold unstuffLine, blen. destruct (has_prefix _ _); [|lia].
    rewrite length_drop. lia. }
  rewrite blen_app in Hle. change (blen [unstuffLine line]) with 1 in Hle. pose proof (blen_nonneg lines).
  destruct (IH (lines ++ [unstuffLine line]) s1 B1) as (s2 & r & E2 & B2 & H2).
  - rewrite M1, blen_app. change (blen [unstuffLine line]) with 1. lia.
  - lia.
  - eexists _, _. split; [exact E2|]. split; [done|]. destruct r as [ls|]; [|done].
    destruct H2 as (new & -> & Hn & Hc). exists (unstuffLine line :: new). rewrite L1, M1 in *.
    split; [by rewrite <- app_assoc|]. split; [by constructor|]. left.
    destruct Hc as [?| ->]; [done|]. rewrite app_nil_r, blen_app. change (blen [unstuffLine line]) with 1. lia.
Qed.

Lemma readMultiLine_ends' st :
  bounded st -> exists st' r, readMultiLine cx st = (st', IoVal r) /\ bounded st'
    /\ match r with
       | inl ls => Forall (fun l => blen l <= maxLine (client st)) ls /\ blen ls <= Z.max 0 (maxRespLines (client st))
       | inr _ => True
       end.
Proof.
  intros Hb. unfold readMultiLine, cbind, cget.
  destruct (readMultiLine_go_ends (Z.to_nat (maxRespLines (client st)) + 2) [] st Hb) as (s1 & r & E & B & H).
  - unfold blen. simpl. lia.
  - lia.
  - exists s1, r. split; [exact E|]. split; [done|]. destruct r as [ls|]; [|done].
    destruct H as (new & -> & Hn & Hc). split; [done|]. destruct Hc as [?| ->]; [lia|]. unfold blen. simpl. lia.
Qed.

Lemma readMultiLine_ends : ends (readMultiLine cx).
Proof. intros st Hb. destruct (readMultiLine_ends' st Hb) as (s1 & r & E & B & _). eauto. Qed.

(** ** Writing *)

Definition writes st : Prop := bounded st /\ write_bounded st.

Lemma writes_stays : stays writes.
Proof. apply stays_and; [apply bounded_stays | apply write_bounded_stays]. Qed.

Lemma cl_write_ends f st :
  (forall w n, bounded_w 0 n -> returns (f w n)) -> writes st ->
  exists st' e, cl_write f st = (st', IoVal e) /\ writes st'.
Proof.
  intros Hf Hw. unfold cl_write. unfold cbind at 1, cget.
  destruct (blocking_returns writes (f (cl_writer (client st))) st writes_stays)
    as (s0 & late & s1 & n & [w e] & Ef & E & W1 & _); [|done|].
  { intros l s [_ Hs]. by apply Hf, watched_write. }
  unfold cbind. rewrite E. by eexists _, _.
Qed.

Lemma writeCmd_ends line : ends (writeCmd cx line).
Proof.
  intros st Hb. unfold writeCmd.
  assert (exists s1, (match ctx_deadline cx with Some d => conn_SetWriteDeadline d | None => cret tt end) st
    = (s1, IoVal tt) /\ writes s1) as (s1 & E1 & W1).
  { destruct (ctx_deadline cx) as [d|] eqn:Ed.
    - destruct (poll_stays bounded st bounded_stays Hb) as (s1 & ? & E1 & B1 & _ & _).
      unfold conn_SetWriteDeadline, cbind. rewrite E1. eexists. split; [reflexivity|].
      split; [left; by rewrite Ed|]. right. by eexists.
    - exists st. split; [done|]. split; [done|].
      destruct Hb as [[? Hd]|[?|[_ ?]]]; [by rewrite Ed in Hd|by left|by right]. }
  unfold cbind at 1. rewrite E1.
  destruct (cl_write_ends (wr_WriteString 0 (line ++ crlf)) s1) as (s2 & e & E2 & W2); [|done|].
  { intros w n Hw. by apply wr_WriteString_returns. }
  unfold cbind at 1. rewrite E2. destruct e as [e|]; [destruct W2; by eexists _, _|].
  destruct (cl_write_ends (Flush 0) s2) as (s3 & e & E3 & W3); [|done|].
  { intros w n Hw. by apply Flush_returns. }
  unfold cbind. rewrite E3. destruct W3. by eexists _, _.
Qed.

(** ** Whole operations *)

(** They return from every state, once their guard is armed. *)
Definition always {A} (m : C A) : Prop := forall st, exists st' a, m st = (st', IoVal a).

Hypothesis Hdone : is_Some (ctx_done cx).

Lemma guard_bounded st : exists st', guard cx st = (st', IoVal tt) /\ bounded st'.
Proof using Hdone.
  destruct Hdone as [t Ht]. unfold guard. rewrite Ht. eexists. split; [reflexivity|]. right; left. done.
Qed.

Lemma stop_always : always (stop cx).
Proof. intros st. unfold stop. destruct (ctx_done cx); by eexists _, _. Qed.

Lemma always_bind {A B} (m : C A) (k : A -> C B) : always m -> (forall a, always (k a)) -> always (cbind m k).
Proof. intros Hm Hk st. destruct (Hm st) as (s1 & a & E). unfold cbind. rewrite E. apply Hk. Qed.

Lemma always_ret {A} (a : A) : always (cret a).
Proof. intros st. by eexists _, _. Qed.

Lemma always_ebind {A B} (m : C (cres A)) (k : A -> C (cres B)) :
  always m -> (forall a, always (k a)) -> always (ebind m k).
Proof. intros Hm Hk. apply always_bind; [done|]. intros [a|e]; [apply Hk | apply always_ret]. Qed.

(** From a state where whatever blocks will be interrupted, they return. *)
Definition ends_once {A} (m : C A) : Prop := forall st, bounded st -> exists st' a, m st = (st', IoVal a).

Lemma ends_ends_once {A} (m : C A) : ends m -> ends_once m.
Proof. intros Hm st Hb. destruct (Hm st Hb) as (s1 & a & E & _). eauto. Qed.

Lemma always_ends_once {A} (m : C A) : always m -> ends_once m.
Proof. intros Hm st _. apply Hm. Qed.

Lemma ends_once_bind {A B} (m : C A) (k : A -> C B) : ends m -> (forall a, ends_once (k a)) -> ends_once (cbind m k).
Proof.
  intros Hm Hk st Hb. destruct (Hm st Hb) as (s1 & a & E & B1). unfold cbind. rewrite E. by apply Hk.
Qed.

Lemma guarded_once {A} (m : C A) : ends_once m -> always (guarded cx m).
Proof using Hdone.
  intros Hm st. destruct (guard_bounded st) as (s1 & E1 & B1). destruct (Hm s1 B1) as (s2 & a & E2).
  destruct (stop_always s2) as (s3 & [] & E3). unfold guarded, cbind. rewrite E1, E2, E3. by eexists _, _.
Qed.

Lemma guarded_always {A} (m : C A) : ends m -> always (guarded cx m).
Proof using Hdone. intros Hm. by apply guarded_once, ends_ends_once. Qed.

Lemma Cmd_always line : always (Cmd cx line).
Proof using Hdone.
  apply guarded_always, ends_ebind; [apply writeCmd_ends|]. intros []. apply readLine_ends.
Qed.

Lemma cmdExpectOK_always line : always (cmdExpectOK cx line).
Proof using Hdone. apply always_ebind; [apply Cmd_always|]. intros s. apply always_ret. Qed.

Lemma listing_cmd_always {A} cmd (parse : bytes -> cres A) : always (listing_cmd cx cmd parse).
Proof using Hdone.
  apply guarded_always, ends_ebind; [apply writeCmd_ends|]. intros _.
  apply ends_ebind; [apply readLine_ends|]. intros s. destruct (negb _); [apply ends_ret|].
  apply ends_ebind; [apply readMultiLine_ends|]. intros l. apply ends_ret.
Qed.

Lemma one_always {A} line (k : bytes -> cres A) : always (status <-? Cmd cx line;; cret (k status)).
Proof using Hdone. apply always_ebind; [apply Cmd_always|]. intros s. apply always_ret. Qed.

(** A command and its status line, the shape of XCLIENT and AUTH. *)
Lemma status_always {A} line (k : bytes -> cres A) :
  always (guarded cx (_ <-? writeCmd cx line;; status <-? readLine cx;; cret (k status))).
Proof using Hdone.
  apply guarded_always, ends_ebind; [apply writeCmd_ends|]. intros _.
  apply ends_ebind; [apply readLine_ends|]. intros s. apply ends_ret.
Qed.

Lemma Capa_always : always (Capa cx).
Proof using Hdone.
  apply guarded_always, ends_ebind; [apply writeCmd_ends|]. intros _.
  apply ends_ebind; [apply readLine_ends|]. intros s. destruct (negb _); [apply ends_ret|].
  apply readMultiLine_ends.
Qed.

Lemma blocking_always {A} (f : Net -> Net * io A) : (forall n, returns (f n)) -> always (blocking f).
Proof.
  intros Hf st. assert (stays (fun _ => True)) as Ht by by split_and!.
  destruct (blocking_returns (fun _ => True) f st Ht) as (s0 & late & s1 & n & a & _ & E & _); auto. eauto.
Qed.

Lemma client_handshake_always : always (client_handshake cx).
Proof using Hdone.
  assert (stays (fun _ => True)) as Ht by by split_and!.
  apply always_bind; [|intros _; apply always_bind; [by intros st; eexists _, _|intros hs]].
  - destruct (ctx_deadline cx) as [d|]; [|apply always_ret]. intros st. unfold conn_SetDeadline, cbind.
    destruct (poll_stays (fun _ => True) st Ht I) as (s1 & ? & -> & _). by eexists _, _.
  - apply always_bind; [by intros st; eexists _, _|]. intros _. apply blocking_always.
    intros n. destruct (min_opt_Some (rdl n) (ctx_done cx)) as [l Hl]; [by right|].
    unfold returns. cbv zeta. rewrite Hl. destruct hs as [[t items|t e|]|]; try done; by destruct (_ <=? _).
Qed.

Lemma startTLS_always : always (startTLS cx).
Proof using Hdone.
  apply always_ebind; [apply cmdExpectOK_always|]. intros _.
  apply always_bind; [apply client_handshake_always|]. intros [e|]; [apply always_ret|].
  apply always_bind; [by intros st; eexists _, _|]. intros _. apply always_ret.
Qed.

Lemma conn_Close_always : always conn_Close.
Proof. intros st. by eexists _, _. Qed.

Lemma Dial_always dialed opts : always (Dial cx dialed opts).
Proof using Hdone.
  unfold Dial. destruct dialed as [e|]; [apply always_ret|].
  apply always_bind; [destruct (_ && _); [apply client_handshake_always | apply always_ret]|].
  intros [e|]; [apply always_bind; [apply conn_Close_always | intros; apply always_ret]|].
  apply always_bind; [by intros st; eexists _, _|]. intros _. apply guarded_once.
  apply ends_once_bind; [apply readLine_ends|]. intros [line|e]; apply always_ends_once.
  2:{ apply always_bind; [apply conn_Close_always | intros; apply always_ret]. }
  destruct (negb _); [apply always_bind; [apply conn_Close_always | intros; apply always_ret]|].
  apply always_bind; [by intros st; eexists _, _|]. intros _. destruct (_ && _); [|apply always_ret].
  apply always_bind; [apply startTLS_always|]. intros [[]|e]; [apply always_ret|].
  apply always_bind; [apply conn_Close_always | intros; apply always_ret].
Qed.

(** ** Bodies *)

(** The body is finished, or its reads are bounded. *)
Definition body_bounded (b : bodyReader) st : Prop := br_ctx b = cx /\ (br_done b = true \/ bounded st).

Lemma finish_returns b st : exists st', finish b st = (st', IoVal (mkBodyReader (br_ctx b) (br_buf b) true false)).
Proof.
  unfold finish, cbind. destruct (br_guard b); [|by eexists].
  unfold stop. destruct (ctx_done (br_ctx b)); by eexists.
Qed.

Lemma body_Read_returns n b st :
  body_bounded b st -> exists st' b' r, body_Read n b st = (st', IoVal (b', r)) /\ body_bounded b' st'.
Proof.
  intros [Hc Hb]. unfold body_Read. destruct (br_buf b) as [|c buf]; [|by eexists _, _, _].
  destruct (br_done b) eqn:Ed; [by eexists _, _, _; split; [reflexivity|]; split; [|left]|].
  destruct Hb as [|Hb]; [done|]. rewrite Hc.
  destruct (readLine_ends st Hb) as (s1 & r & E1 & B1). unfold cbind at 1. rewrite E1.
  destruct r as [line|e].
  - destruct (line =s? str ".").
    + destruct (finish_returns b s1) as (s2 & E2). unfold cbind. rewrite E2. eexists _, _, _.
      split; [reflexivity|]. by split; [|left].
    + eexists _, _, _. split; [reflexivity|]. by split; [|right].
  - destruct (finish_returns b s1) as (s2 & E2). unfold cbind. rewrite E2. eexists _, _, _.
    split; [reflexivity|]. by split; [|left].
Qed.

Lemma body_ReadAll_returns sizes b st :
  body_bounded b st -> exists st' b' r, body_ReadAll sizes b st = (st', IoVal (b', r)) /\ body_bounded b' st'.
Proof.
  revert b st. induction sizes as [|n sizes IH]; intros b st Hb; simpl; [by eexists _, _, _|].
  destruct (body_Read_returns n b st Hb) as (s1 & b1 & [p e] & E1 & B1). unfold cbind at 1. rewrite E1.
  destruct e as [e|]; [by eexists _, _, _|].
  destruct (IH b1 s1 B1) as (s2 & b2 & [q e] & E2 & B2). unfold cbind. rewrite E2. by eexists _, _, _.
Qed.

Lemma body_Close_done_returns k b st :
  br_done b = true -> exists st' b' e, body_Close_go k b st = (st', IoVal (b', e)).
Proof.
  intros Hd. destruct (finish_returns b st) as (s1 & E1).
  destruct k; cbn [body_Close_go]; rewrite Hd; unfold cbind; rewrite E1; by eexists _, _, _.
Qed.

Lemma body_Close_go_returns k b st :
  body_bounded b st -> (weight st < k)%nat ->
  exists st' b' e, body_Close_go k b st = (st', IoVal (b', e)).
Proof.
  revert b st. induction k as [|k IH]; intros b st [Hc Hb] Hk; [lia|].
  destruct (br_done b) eqn:Ed; [by apply body_Close_done_returns|]. destruct Hb as [|Hb]; [done|].
  cbn [body_Close_go]. rewrite Ed, Hc.
  destruct (readLine_ends' st Hb) as (s1 & r & E1 & B1 & _ & _ & _ & H1). unfold cbind at 1. rewrite E1.
  destruct r as [line|e].
  - destruct (line =s? str ".").
    + destruct (finish_returns b s1) as (s2 & E2). unfold cbind. rewrite E2. by apply body_Close_done_returns.
    + apply IH; [by split; [|right]|]. destruct H1. lia.
  - destruct (finish_returns b s1) as (s2 & E2). unfold cbind. rewrite E2. by eexists _, _, _.
Qed.

Lemma body_Close_returns b st : body_bounded b st -> exists st' b' e, body_Close b st = (st', IoVal (b', e)).
Proof.
  intros Hb. unfold body_Close, cbind, cget. apply body_Close_go_returns; [done|]. unfold weight. lia.
Qed.

Lemma retrieve_returns cmd st :
  exists st' r, retrieve cx cmd st = (st', IoVal r)
    /\ match r with inl b => body_bounded b st' | inr _ => True end.
Proof using Hdone.
  destruct (guard_bounded st) as (s1 & E1 & B1). destruct (writeCmd_ends cmd s1 B1) as (s2 & r & E2 & B2).
  unfold retrieve. unfold cbind at 1. rewrite E1. unfold cbind at 1. rewrite E2.
  assert (forall (e : cerr) s, exists st' r, (stop cx;;; cret (inr e : cres bodyReader)) s = (st', IoVal r)
    /\ match r with inl b => body_bounded b st' | inr _ => True end) as Hstop.
  { intros e s. destruct (stop_always s) as (s' & [] & E). unfold cbind. rewrite E. by eexists _, (inr e). }
  destruct r as [[]|e]; [|apply Hstop].
  destruct (readLine_ends s2 B2) as (s3 & r & E3 & B3). unfold cbind at 1. rewrite E3.
  destruct r as [status|e]; [|apply Hstop]. destruct (negb _); [apply Hstop|].
  eexists _, _. split; [reflexivity|]. by split; [|right].
Qed.
End Live.

(** ** The handshakes to come are the environment's *)

Definition same_chs {A} (m : C A) : Prop := forall st, chs (m st).1 = chs st.

Lemma same_chs_bind {A B} (m : C A) (k : A -> C B) :
  same_chs m -> (forall a, same_chs (k a)) -> same_chs (cbind m k).
Proof.
  intros Hm Hk st. unfold cbind. specialize (Hm st). destruct (m st) as [s1 [a|]]; simpl in *; [|done].
  by rewrite Hk.
Qed.

Lemma same_chs_ebind {A B} (m : C (cres A)) (k : A -> C (cres B)) :
  same_chs m -> (forall a, same_chs (k a)) -> same_chs (ebind m k).
Proof. intros Hm Hk. apply same_chs_bind; [done|]. by intros [a|e]. Qed.

Lemma fire_chs a b st : chs (fire a b st) = chs st.
Proof. unfold fire. by destruct (existsb _ _). Qed.

Lemma poll_chs : same_chs poll.
Proof.
  intros st. unfold poll. cbn [fst]. by rewrite fire_chs.
Qed.

Lemma blocking_chs {A} (f : Net -> Net * io A) : same_chs (blocking f).
Proof.
  apply same_chs_bind; [apply poll_chs|]. intros late st. destruct (f (watched late st)). simpl. by rewrite fire_chs.
Qed.

Lemma cl_write_chs f : same_chs (cl_write f).
Proof.
  apply same_chs_bind; [done|]. intros w. apply same_chs_bind; [apply blocking_chs|]. intros res.
  by apply same_chs_bind.
Qed.

Lemma writeCmd_chs cx line : same_chs (writeCmd cx line).
Proof.
  apply same_chs_bind.
  { destruct (ctx_deadline cx); [|done]. by apply same_chs_bind; [apply poll_chs|]. }
  intros _. apply same_chs_bind; [apply cl_write_chs|]. intros [e|]; [done|].
  apply same_chs_bind; [apply cl_write_chs|]. done.
Qed.

Lemma cl_readLine_go_chs k line : same_chs (cl_readLine_go k line).
Proof.
  revert line. induction k as [|k IH]; intros line; [done|]. cbn [cl_readLine_go]. apply same_chs_bind.
  { apply same_chs_bind; [done|]. intros r. apply same_chs_bind; [apply blocking_chs|]. intros res.
    by apply same_chs_bind. }
  intros [[chunk pre] [e|]]; [done|]. apply same_chs_bind; [done|]. intros max.
  destruct (_ <? _); [done|]. by destruct (negb pre).
Qed.

Lemma readLine_chs cx : same_chs (readLine cx).
Proof.
  apply same_chs_bind.
  { destruct (ctx_deadline cx); [|done]. by apply same_chs_bind; [apply poll_chs|]. }
  intros _. apply same_chs_bind; [done|]. intros max. apply cl_readLine_go_chs.
Qed.

Lemma guard_chs cx : same_chs (guard cx).
Proof. unfold guard. by destruct (ctx_done cx). Qed.

Lemma stop_chs cx : same_chs (stop cx).
Proof. unfold stop. by destruct (ctx_done cx). Qed.

Lemma guarded_chs {A} cx (m : C A) : same_chs m -> same_chs (guarded cx m).
Proof.
  intros Hm. apply same_chs_bind; [apply guard_chs|]. intros _. apply same_chs_bind; [done|]. intros r.
  by apply same_chs_bind; [apply stop_chs|].
Qed.

Lemma cmdExpectOK_chs cx line : same_chs (cmdExpectOK cx line).
Proof.
  apply same_chs_ebind; [|done]. apply guarded_chs, same_chs_ebind; [apply writeCmd_chs|].
  intros _. apply readLine_chs.
Qed.

(** ** Properties *)

(** C17: with a context that has a deadline or will be cancelled, every operation
    of the client returns, from every state of the client and the connection,
    whatever the server sends or does not send, and however late the goroutines
    that watch the context get to run.  So do the reads of a retrieved body, in
    any number and of any sizes, and its Close. *)
Theorem client_always_returns cx t w (st : CSt) :
  ctx_done cx = Some t ->
  (forall dialed opts, exists st' r, Dial cx dialed opts st = (st', IoVal r))
  /\ (exists st' r, Capa cx st = (st', IoVal r))
  /\ (forall params, exists st' r, XClient cx params st = (st', IoVal r))
  /\ (forall i u p, exists st' r, AuthPlain cx i u p st = (st', IoVal r))
  /\ (forall u p, exists st' r, User cx u p st = (st', IoVal r))
  /\ (forall line, exists st' r, Cmd cx line st = (st', IoVal r))
  /\ (forall line, exists st' r, cmdExpectOK cx line st = (st', IoVal r))
  /\ (exists st' r, Stat w cx st = (st', IoVal r))
  /\ (exists st' r, List_ w cx st = (st', IoVal r))
  /\ (exists st' r, Uidl w cx st = (st', IoVal r))
  /\ (forall msg, exists st' r, ListOne w cx msg st = (st', IoVal r))
  /\ (forall msg, exists st' r, UidlOne w cx msg st = (st', IoVal r))
  /\ (exists st' r, startTLS cx st = (st', IoVal r))
  /\ (forall cmd, exists st' r, retrieve cx cmd st = (st', IoVal r)
        /\ forall b sizes, r = inl b ->
           exists st1 b1 out, body_ReadAll sizes b st' = (st1, IoVal (b1, out))
           /\ exists st2 b2 e, body_Close b1 st1 = (st2, IoVal (b2, e))).
Proof.
  intros Ht. assert (is_Some (ctx_done cx)) as Hd by by eexists.
  split_and!; intros.
  - by apply Dial_always.
  - by apply Capa_always.
  - apply (status_always cx Hd).
  - apply (status_always cx Hd).
  - apply always_ebind; [by apply cmdExpectOK_always|]. intros _. by apply cmdExpectOK_always.
  - by apply Cmd_always.
  - by apply cmdExpectOK_always.
  - apply (one_always cx Hd).
  - by apply listing_cmd_always.
  - by apply listing_cmd_always.
  - apply (one_always cx Hd).
  - apply (one_always cx Hd).
  - by apply startTLS_always.
  - destruct (retrieve_returns cx Hd cmd st) as (st' & r & E & Hb). exists st', r. split; [exact E|].
    intros b sizes ->. destruct (body_ReadAll_returns cx sizes b st' Hb) as (st1 & b1 & out & E1 & B1).
    exists st1, b1, out. split; [exact E1|].
    destruct (body_Close_returns cx b1 st1 B1) as (st2 & b2 & e & E2). eauto.
Qed.

(** C23: a response cannot grow without limit.  What readMultiLine returns,
    whatever the server sends, is at most MaxResponseLines lines of at most
    MaxLineLength bytes each. *)
Theorem response_is_bounded cx st st' ls :
  bounded cx st -> readMultiLine cx st = (st', IoVal (inl ls)) ->
  blen ls <= Z.max 0 (maxRespLines (client st))
  /\ Forall (fun l => blen l <= maxLine (client st)) ls.
Proof.
  intros Hb E. destruct (readMultiLine_ends' cx st Hb) as (s1 & r & E1 & _ & H1).
  rewrite E in E1. injection E1 as <- <-. naive_solver.
Qed.

(** C22: STLS response injection.  After a successful upgrade the client's
    buffers are empty and everything it will read comes from inside the TLS
    connection: whatever the server, or somebody in between, sent in plaintext
    after the +OK is gone. *)
Theorem startTLS_discards_plaintext cx st st' :
  startTLS cx st = (st', IoVal (inl tt)) ->
  rbuf (cl_reader (client st')) = [] /\ rerr (cl_reader (client st')) = None
  /\ wbuf (cl_writer (client st')) = []
  /\ exists t items, head (chs st) = Some (HsOk t items) /\ inbox (cnet st') = items.
Proof.
  unfold startTLS, ebind, cbind at 1. pose proof (cmdExpectOK_chs cx (str "STLS") st) as Hchs.
  destruct (cmdExpectOK cx (str "STLS") st) as [s1 [[[]|e]|]]; try done. simpl in Hchs.
  unfold cbind at 1. destruct (client_handshake cx s1) as [s2 [[e|]|]] eqn:Eh; try done.
  unfold cbind, cmod, cret. intros [= <-]. simpl. split_and!; try done.
  unfold client_handshake in Eh. revert Eh. unfold cbind at 1.
  assert (exists s0, (match ctx_deadline cx with Some d => conn_SetDeadline d | None => cret tt end) s1
    = (s0, IoVal tt) /\ chs s0 = chs s1) as (s0 & -> & Hc0).
  { destruct (ctx_deadline cx); [|by exists s1]. unfold conn_SetDeadline, cbind.
    assert (stays (fun _ => True)) as Ht by by split_and!.
    pose proof (poll_chs s1) as Hp. destruct (poll_stays _ s1 Ht I) as (s0 & ? & E0 & _). rewrite E0 in *.
    by eexists. }
  unfold cbind at 1, cget. unfold cbind at 1, cmod. unfold blocking, cbind.
  destruct (poll _) as [s3 [late|]]; [|done].
  destruct (match head (chs s0) with Some _ => _ | None => _ end) as [n [e|]] eqn:Ef; [|done].
  intros [= <- ->]. rewrite Hc0, Hchs in Ef.
  destruct (head (chs st)) as [[t items|t e|]|].
  - exists t, items. split; [done|]. destruct (match min_opt _ _ with Some _ => _ | None => _ end); [done|].
    injection Ef as <-. unfold fire. by destruct (existsb _ _).
  - by destruct (match min_opt _ _ with Some _ => _ | None => _ end).
  - by destruct (min_opt _ _).
  - by destruct (min_opt _ _).
Qed.
