(* ===== verification/ClientCancel.v ===== *)
(** * Cancellations that are lost

    [guard] acts once, while the operation it guards sets the connection's
    deadlines itself: what happens when the context is done before it does. *)
From S2P Require Import Prelude GoStrings GoConv Errors DotStuff Parse Net Session ConnState RefineInput ConnTimeout Client ClientFacts.
Local Open Scope client_scope.

(** The shape of the client's operations: a command line, its status line, and
    what follows it. *)
Definition exchange {A} (cx : Context) (line : bytes) (k : bytes -> C (cres A)) : C (cres A) :=
  guarded cx (_ <-? writeCmd cx line;; status <-? readLine cx;; k status).

(** The server says nothing more and takes whatever is written; nothing is
    buffered of what it said, and no operation is under way. *)
Record unheard (st : CSt) : Prop := mkUnheard {
  uh_inbox : inbox (cnet st) = [];
  uh_reader : cl_reader (client st) = NewReader;
  uh_werr : werr (cl_writer (client st)) = None;
  uh_wbuf : (length (wbuf (cl_writer (client st))) <= bufsize)%nat;
  uh_wsched : Forall (fun w => w = WOk) (wsched (cnet st));
  uh_line : 0 <= maxLine (client st)
}.

Section Lost.
(** A context that is cancelled at [c], and has the deadline [d]. *)
Variables (cx : Context) (c d : Z).
Hypothesis Hc : ctx_cancel cx = Some c.
Hypothesis Hd : ctx_deadline cx = Some d.
Implicit Types st : CSt.

(** The operation's guard has acted; or its goroutine is held back in the next
    calls, as many as [ls] is long, and acts at the one after them. *)
Definition holding (ls : list nat) st : Prop :=
  armed st = [] \/ armed st = [c] /\ lag st = ls /\ Forall (fun x => 0 < x)%nat ls.

(** From [st], a call that took no time. *)
Record instant (ls : list nat) st st' : Prop := mkInstant {
  in_now : now (cnet st') = now (cnet st);
  in_unheard : unheard st';
  in_holding : holding ls st';
  in_acted : armed st = [] -> armed st' = [];
  in_waiting : armed st <> [] -> armed st' <> []
}.

Lemma holding_polled x ls st : holding (x :: ls) st -> holding ls (polled st).
Proof. intros [?|(? & Hl & Hx)]; [by left|]. right. inv Hx. simpl. by rewrite Hl. Qed.

Lemma holding_late x ls st : holding (x :: ls) st -> armed st = [] \/ armed st = [c] /\ 0 < next_late st.
Proof. unfold next_late. intros [?|(? & -> & Hx)]; [by left|]. right. inv Hx. simpl. split; [done|lia]. Qed.

Lemma fire_none since late st : armed st = [] -> fire since late st = st.
Proof. unfold fire. by intros ->. Qed.

Lemma fire_held since late st :
  armed st = [] \/ armed st = [c] /\ 0 < late -> now (cnet st) <= since -> fire since late st = st.
Proof.
  unfold fire. intros [-> |[-> Hl]] Hs; simpl; [done|]. unfold goes.
  destruct (Z.leb_spec (Z.max since c + late) (now (cnet st))); [lia|done].
Qed.

Lemma poll_held x ls st : holding (x :: ls) st -> poll st = (polled st, IoVal (next_late st)).
Proof. intros Hh. unfold poll. rewrite fire_held; [done|exact (holding_late _ _ _ Hh)|done]. Qed.

Lemma write_held x ls f st :
  (forall w n, writable 0 w n -> exists w' n', f w n = (n', IoVal (w', None)) /\ writable 0 w' n' /\ same_input n n') ->
  unheard st -> holding (x :: ls) st -> wdl (cnet st) = Some d -> now (cnet st) < d ->
  exists st', cl_write f st = (st', IoVal None) /\ instant ls st st' /\ wdl (cnet st') = Some d.
Proof.
  intros Hf [Hi Hr He Hb Hs Hm] Hh Hw Hn. destruct (Hf (cl_writer (client st)) (watched (next_late st) st))
    as (w & n & E & (He' & Hb' & Hs' & _) & (Hn' & Hi' & _)).
  { split_and!; try done. right. simpl. rewrite Hw. destruct (holding_late _ _ _ Hh) as [-> |[-> Hl]]; simpl; [done|].
    unfold goes. lia. }
  exists (set_client (set_cl_writer w (client st)) (after_call (polled st) n)). split; [|split; [|exact Hw]].
  - unfold cl_write, cbind, cget, blocking. unfold cbind at 1. rewrite (poll_held x ls) by done.
    change (watched (next_late st) (polled st)) with (watched (next_late st) st). rewrite E.
    rewrite fire_held; [done|exact (holding_late _ _ _ Hh)|]. simpl in *. lia.
  - split; try done; [split; simpl; try done; by rewrite Hi'|by apply (holding_polled x)].
Qed.

Lemma writeCmd_held x y ls line st :
  unheard st -> holding (x :: y :: ls) st -> wdl (cnet st) = Some d -> now (cnet st) < d ->
  exists st', (e <- cl_write (wr_WriteString 0 (line ++ crlf));;
     match e with
     | Some e => cret (inr (CErr e) : cres unit)
     | None => e <- cl_write (Flush 0);; cret (match e with Some e => inr (CErr e) | None => inl tt end)
     end) st = (st', IoVal (inl tt)) /\ instant ls st st'.
Proof.
  intros Hu Hh Hw Hn.
  destruct (write_held x (y :: ls) (wr_WriteString 0 (line ++ crlf)) st) as (s1 & E1 & [N1 U1 H1 A1 B1] & W1); try done.
  { intros w n Hwr. destruct (wr_WriteString_ok 0 (line ++ crlf) w n Hwr) as (w' & n' & E & ? & ? & ?). by exists w', n'. }
  destruct (write_held y ls (Flush 0) s1) as (s2 & E2 & [N2 U2 H2 A2 B2] & W2); try done; [|lia|].
  { intros w n Hwr. destruct (Flush_ok 0 w n Hwr) as (n' & E & ? & ? & ?). by exists (mkWriter [] None), n'. }
  exists s2. unfold cbind. rewrite E1, E2. split; [done|]. split; auto; congruence.
Qed.

(** A deadline is set while the guard's goroutine is held back. *)
Lemma set_held x ls st rd wd :
  unheard st -> holding (x :: ls) st ->
  exists st', (poll;;; cmod (fun s => set_cnet (mkNet (now (cnet s)) (inbox (cnet s)) (rd s) (wd s)
                                        (wsched (cnet s)) (wire (cnet s))) s)) st = (st', IoVal tt)
    /\ instant ls st st' /\ rdl (cnet st') = rd (polled st) /\ wdl (cnet st') = wd (polled st).
Proof.
  intros [] Hh. eexists. unfold cbind. rewrite (poll_held x ls st Hh). split; [reflexivity|].
  split; [|done]. split; try done. by apply (holding_polled x).
Qed.

(** Before a read the guard's goroutine runs now, or has run. *)
Lemma poll_acts st :
  armed st = [] \/ armed st = [c] /\ lag st = [] /\ c <= now (cnet st) ->
  exists s1 late, poll st = (s1, IoVal late) /\ armed s1 = [] /\ client s1 = client st
    /\ inbox (cnet s1) = inbox (cnet st) /\ now (cnet s1) = now (cnet st) /\ wsched (cnet s1) = wsched (cnet st)
    /\ (armed st = [] -> rdl (cnet s1) = rdl (cnet st))
    /\ (armed st <> [] -> rdl (cnet s1) = Some (now (cnet st) - 1000000000)).
Proof.
  unfold poll. intros [Ha|(Ha & Hl & Hcn)].
  - rewrite fire_none by done. by eexists _, _.
  - assert (fire (now (cnet st)) 0 (set_lag [] st) = set_armed [] (set_cnet (poison (cnet st)) (set_lag [] st))) as E.
    { unfold fire. simpl. rewrite Ha. simpl. unfold goes.
      destruct (Z.leb_spec (Z.max (now (cnet st)) c + 0) (now (cnet st))); [done|lia]. }
    rewrite Hl. change (fire _ _ _) with (fire (now (cnet st)) 0 (set_lag [] st)). rewrite E, Ha. eexists _, _. split; [reflexivity|]. by split_and!.
Qed.

Lemma blocking_eq {A} (f : Net -> Net * io A) st s1 late n r :
  poll st = (s1, IoVal late) -> f (watched late s1) = (n, r) ->
  blocking f st = (fire (now (cnet s1)) late (after_call s1 n), r).
Proof. intros Ep Ef. unfold blocking, cbind. by rewrite Ep, Ef. Qed.

Lemma read_ends st :
  unheard st -> (armed st = [] /\ rdl (cnet st) = Some d \/ armed st = [c] /\ lag st = [] /\ c <= now (cnet st)) ->
  exists st', cl_ReadLine st = (st', IoVal ([], false, Some timeoutError))
    /\ now (cnet st') = match armed st with [] => Z.max (now (cnet st)) d | _ => now (cnet st) end.
Proof.
  intros [Hi Hr _ _ _ _] Hcase.
  destruct (poll_acts st) as (s1 & late & Ep & Ha & Hcl & Hin & Hn & _ & Hr0 & Hr1); [by destruct Hcase as [[? ?]|?]; [left|right]|].
  set (T := default 0 (rdl (cnet s1))).
  assert (rdl (cnet s1) = Some T /\ Z.max (now (cnet st)) T
    = match armed st with [] => Z.max (now (cnet st)) d | _ => now (cnet st) end) as [HT <-].
  { subst T. destruct Hcase as [[H1 H2]|(H1 & H2 & H3)]; rewrite H1 in *; [rewrite Hr0, H2 by done|rewrite Hr1 by done]; simpl;
      (split; [done|lia]). }
  assert (ReadLine (cl_reader (client st)) (watched late s1)
    = (wait_until T (watched late s1), IoVal (NewReader, ([], false, Some timeoutError)))) as E.
  { rewrite Hr. apply (ReadLine_cut []); [|by constructor|pose proof bufsize_ge; simpl; lia].
    apply silence_cuts; [simpl; by rewrite Ha, HT|]. unfold silent_until. simpl. by rewrite Hin, Hi. }
  pose proof (blocking_eq _ _ _ _ _ _ Ep E) as Eb. rewrite fire_none in Eb by done.
  unfold cl_ReadLine. unfold cbind at 1, cget. unfold cbind at 1. rewrite Eb.
  eexists. split; [reflexivity|]. simpl. by rewrite Hn.
Qed.
(** The rest of [writeCmd], and [readLine], once the write deadline is set. *)
Lemma exchange_held x y z line st :
  c <= now (cnet st) < d -> unheard st -> holding [x; y; z] st -> wdl (cnet st) = Some d ->
  exists s1 s2, (e <- cl_write (wr_WriteString 0 (line ++ crlf));;
     match e with
     | Some e => cret (inr (CErr e) : cres unit)
     | None => e <- cl_write (Flush 0);; cret (match e with Some e => inr (CErr e) | None => inl tt end)
     end) st = (s1, IoVal (inl tt))
    /\ readLine cx s1 = (s2, IoVal (inr (CErr timeoutError)))
    /\ now (cnet s2) = match armed st with [] => d | _ => now (cnet st) end.
Proof.
  intros Hn Hu Hh Hw.
  destruct (writeCmd_held x y [z] line st Hu Hh Hw ltac:(lia)) as (s1 & E1 & [N1 U1 H1 A1 B1]).
  destruct (set_held z [] s1 (fun _ => Some d) (fun s => wdl (cnet s)) U1 H1) as (s2 & E2 & [N2 U2 H2 A2 B2] & R2 & _).
  destruct (read_ends s2 U2) as (s3 & E3 & N3).
  { destruct H2 as [Ha|(Ha & Hl & _)]; [by left|]. right. split_and!; [done|done|lia]. }
  exists s1, s3. split; [exact E1|]. split.
  - unfold readLine. rewrite Hd. unfold cbind at 1. change (conn_SetReadDeadline d s1) with
      ((poll;;; cmod (fun s => set_cnet (mkNet (now (cnet s)) (inbox (cnet s)) (Some d)
          (wdl (cnet s)) (wsched (cnet s)) (wire (cnet s))) s)) s1).
    rewrite E2. unfold cbind at 1, cget.
    replace (Z.to_nat (maxLine (client s2)) + 2)%nat with (S (Z.to_nat (maxLine (client s2)) + 1)) by lia.
    cbn [cl_readLine_go]. unfold cbind at 1. by rewrite E3.
  - rewrite N3. destruct (armed st) as [|a l] eqn:Ea.
    + rewrite (A2 (A1 eq_refl)). lia.
    + assert (armed s2 <> []) as Hne by (apply B2, B1; done). destruct (armed s2); [done|]. lia.
Qed.

(** The line is written and its answer not read: the guard has acted before the
    write deadline was set, or acts at the read. *)
Lemma exchange_fails line st :
  c <= now (cnet st) < d -> unheard st -> armed st = [c] ->
  lag st = [] \/ (exists w x y z, lag st = map S [w; x; y; z]) ->
  exists s1 s2, writeCmd cx line st = (s1, IoVal (inl tt))
    /\ readLine cx s1 = (s2, IoVal (inr (CErr timeoutError)))
    /\ now (cnet s2) = match lag st with [] => d | _ => now (cnet st) end.
Proof.
  intros Hn Hu Ha Hl.
  assert (exists x y z s0, conn_SetWriteDeadline d st = (s0, IoVal tt) /\ now (cnet s0) = now (cnet st)
    /\ unheard s0 /\ holding [x; y; z] s0 /\ wdl (cnet s0) = Some d
    /\ (armed s0 = [] <-> lag st = [])) as (x & y & z & s0 & E0 & N0 & U0 & H0 & W0 & A0).
  { destruct Hl as [Hl|(w & x & y & z & Hl)].
    - destruct (poll_acts st) as (s0 & late & E & Ha0 & Hcl & Hi & Hno & Hws & _); [right; split_and!; (done || lia)|].
      exists 0%nat, 0%nat, 0%nat. eexists. unfold conn_SetWriteDeadline, cbind. rewrite E.
      split; [reflexivity|]. split; [exact Hno|]. split; [|split; [by left|split; [done|by split]]].
      destruct Hu. split; simpl; congruence.
    - destruct (set_held (S w) [S x; S y; S z] st (fun s => rdl (cnet s)) (fun _ => Some d) Hu)
        as (s0 & E & [N U Hh A B] & _ & W).
      { right. split_and!; [done|done|]. repeat (apply Forall_cons_2; [lia|]). apply Forall_nil_2. }
      exists (S x), (S y), (S z), s0. split; [exact E|]. split_and!; try done. rewrite Hl, Ha in *.
      split; [|done]. intros He. by destruct B. }
  destruct (exchange_held x y z line s0) as (s1 & s2 & E1 & E2 & N2); [lia|done..|].
  exists s1, s2. unfold writeCmd. rewrite Hd. unfold cbind at 1. rewrite E0, E1. split; [done|]. split; [done|].
  rewrite N2, N0. destruct (armed s0), (lag st); try done; [by destruct A0 as [A0 _]; specialize (A0 eq_refl)|by destruct A0 as [_ A0]; specialize (A0 eq_refl)].
Qed.
End Lost.

(** The operation fails with a time-out, at the time [T]. *)
Definition fails_at {A} (T : Z) (m : C (cres A)) (st : CSt) : Prop :=
  exists st', m st = (st', IoVal (inr (CErr timeoutError))) /\ now (cnet st') = T.

Lemma fails_ebind {A B} T (m : C (cres A)) (k : A -> C (cres B)) st : fails_at T m st -> fails_at T (ebind m k) st.
Proof. intros (st' & E & N). exists st'. unfold ebind, cbind. by rewrite E. Qed.

(** Every operation of the client that sends a line and reads its status line
    does so. *)
Record operations_fail (w : Z) (cx : Context) (T : Z) (st : CSt) : Prop := mkFail {
  of_Cmd line : fails_at T (Cmd cx line) st;
  of_cmdExpectOK line : fails_at T (cmdExpectOK cx line) st;
  of_Capa : fails_at T (Capa cx) st;
  of_XClient params : fails_at T (XClient cx params) st;
  of_AuthPlain i u p : fails_at T (AuthPlain cx i u p) st;
  of_User u p : fails_at T (User cx u p) st;
  of_startTLS : fails_at T (startTLS cx) st;
  of_Stat : fails_at T (Stat w cx) st;
  of_List : fails_at T (List_ w cx) st;
  of_Uidl : fails_at T (Uidl w cx) st;
  of_ListOne msg : fails_at T (ListOne w cx msg) st;
  of_UidlOne msg : fails_at T (UidlOne w cx msg) st;
  of_Retr msg : fails_at T (Retr cx msg) st;
  of_Top msg lines : fails_at T (Top cx msg lines) st
}.

Section Operations.
Variables (cx : Context) (c T : Z) (st : CSt).
Hypothesis Hdone : ctx_done cx = Some c.
Hypothesis Harmed : armed st = [].
(** The line is written, its answer not read. *)
Hypothesis Hfails : forall line, exists s1 s2, writeCmd cx line (set_armed [c] st) = (s1, IoVal (inl tt))
  /\ readLine cx s1 = (s2, IoVal (inr (CErr timeoutError))) /\ now (cnet s2) = T.

Lemma guard_arms : guard cx st = (set_armed [c] st, IoVal tt).
Proof using Hdone Harmed. unfold guard. rewrite Hdone. unfold cmod. by rewrite Harmed. Qed.

Lemma stops {A} (r : A) s :
  exists s', (stop cx;;; cret r) s = (s', IoVal r) /\ now (cnet s') = now (cnet s).
Proof using Hdone. unfold stop. rewrite Hdone. by eexists. Qed.

Lemma exchange_fails_at {A} line (k : bytes -> C (cres A)) : fails_at T (exchange cx line k) st.
Proof using Hdone Harmed Hfails.
  destruct (Hfails line) as (s1 & s2 & E1 & E2 & N). destruct (stops (inr (CErr timeoutError) : cres A) s2) as (s3 & E3 & N3).
  exists s3. split; [|congruence]. unfold exchange, guarded. unfold cbind at 1. rewrite guard_arms.
  unfold cbind at 1. unfold ebind at 1. unfold cbind at 1. rewrite E1. unfold ebind. unfold cbind at 1. by rewrite E2.
Qed.

Lemma Cmd_fails_at line : fails_at T (Cmd cx line) st.
Proof using Hdone Harmed Hfails.
  destruct (Hfails line) as (s1 & s2 & E1 & E2 & N). destruct (stops (inr (CErr timeoutError) : cres bytes) s2) as (s3 & E3 & N3).
  exists s3. split; [|congruence]. unfold Cmd, guarded. unfold cbind at 1. rewrite guard_arms.
  unfold cbind at 1. unfold ebind, cbind at 1. by rewrite E1, E2.
Qed.

Lemma retrieve_fails_at cmd : fails_at T (retrieve cx cmd) st.
Proof using Hdone Harmed Hfails.
  destruct (Hfails cmd) as (s1 & s2 & E1 & E2 & N). destruct (stops (inr (CErr timeoutError) : cres bodyReader) s2) as (s3 & E3 & N3).
  exists s3. split; [|congruence]. unfold retrieve. unfold cbind at 1. rewrite guard_arms.
  unfold cbind at 1. rewrite E1. unfold cbind at 1. by rewrite E2.
Qed.

Lemma all_fail w : operations_fail w cx T st.
Proof using Hdone Harmed Hfails.
  assert (forall line, fails_at T (cmdExpectOK cx line) st) as Hok by (intros; apply fails_ebind, Cmd_fails_at).
  split; intros; try apply exchange_fails_at; try apply retrieve_fails_at; try apply Cmd_fails_at; try apply Hok;
    apply fails_ebind; (apply Hok || apply Cmd_fails_at).
Qed.
End Operations.

(** ** Properties *)

(** C36: a cancellation can be lost.  The context of an operation of the client is
    cancelled by the time the operation starts, and has a deadline [d] ahead; the
    server says nothing more.  When the goroutine of [guard] runs at once, the
    deadline it forces into the past is overwritten by those that writeCmd and
    readLine set, and the operation, whichever it is (Dial apart), fails only at [d].  When
    the goroutine is held back until the read deadline has been set, however
    long, the operation fails at once. *)
Theorem cancellation_can_be_lost w cx c d (st : CSt) :
  ctx_cancel cx = Some c -> ctx_deadline cx = Some d -> c <= now (cnet st) < d ->
  unheard st -> armed st = [] ->
  (lag st = [] -> operations_fail w cx d st)
  /\ (forall a1 a2 a3 a4, lag st = map S [a1; a2; a3; a4] -> operations_fail w cx (now (cnet st)) st).
Proof.
  intros Hc Hd Hn Hu Ha.
  assert (ctx_done cx = Some c) as Hdone by (unfold ctx_done; rewrite Hc, Hd; simpl; f_equal; lia).
  assert (unheard (set_armed [c] st)) as Hu' by (by destruct Hu).
  split.
  - intros Hl. apply (all_fail cx c d st Hdone Ha). intros line.
    destruct (exchange_fails cx c d Hd line (set_armed [c] st) Hn Hu' eq_refl) as (s1 & s2 & E1 & E2 & N); [by left|].
    exists s1, s2. by rewrite N; simpl; rewrite Hl.
  - intros a1 a2 a3 a4 Hl. apply (all_fail cx c (now (cnet st)) st Hdone Ha). intros line.
    destruct (exchange_fails cx c d Hd line (set_armed [c] st) Hn Hu' eq_refl) as (s1 & s2 & E1 & E2 & N);
      [right; by exists a1, a2, a3, a4|].
    exists s1, s2. by rewrite N; simpl; rewrite Hl.
Qed.

(** A server that never answers; [lagging] schedules the goroutine. *)
Definition silent_client (lagging : list nat) : CSt :=
  mkCSt (mkClient NewReader NewWriter 4096 100000 []) (mkNet 0 [] None None [] []) [] [] lagging false.

Lemma cancellation_can_be_lost_witness :
  fails_at 100 (Capa (mkContext (Some 100) (Some 0))) (silent_client [])
  /\ fails_at 0 (Capa (mkContext (Some 100) (Some 0))) (silent_client [1; 1; 1; 1]%nat).
Proof.
  split.
  - destruct (cancellation_can_be_lost 64 (mkContext (Some 100) (Some 0)) 0 100 (silent_client []) eq_refl eq_refl)
      as [H _]; [simpl; lia|split; try done; simpl; lia|done|]. apply (of_Capa _ _ _ _ (H eq_refl)).
  - destruct (cancellation_can_be_lost 64 (mkContext (Some 100) (Some 0)) 0 100 (silent_client [1; 1; 1; 1]%nat) eq_refl eq_refl)
      as [_ H]; [simpl; lia|split; try done; simpl; lia|done|]. apply (of_Capa _ _ _ _ (H 0%nat 0%nat 0%nat 0%nat eq_refl)).
Defined.
