(* ===== verification/ClientDemo.v ===== *)
(** * Concrete runs of the client

    The client's theorems at concrete inputs: alice's maildrop behind the
    server, and a client at its start. *)
From S2P Require Import Prelude GoStrings GoConv Errors DotStuff Parse Net Session Options ConnState Wire Spec Mem MemSpec Demo RefineInput Client ClientFacts ClientText ClientServer ClientBody ClientAuth ClientLive.

(** A client that will receive these bytes. *)
Definition demo_client (reply : bytes) : CSt :=
  mkCSt (mkClient NewReader NewWriter 4096 100000 []) (mkNet 0 [(1, NBytes reply)] None None [] []) [] [] [] false.

(** A context that is done at 100. *)
Definition demo_cx : Context := mkContext (Some 100) None.

Definition demo_session : MemSession := mkMem demo_store (Login demo_store NewSession (str "alice") (str "s3cret")).1.

(** The protocol state after alice's login, and before it. *)
Definition demo_proto : Proto MemSession := mkProto stateTransaction [] 0 demo_session.
Definition demo_start : Proto MemSession := mkProto stateAuthorization [] 0 (mkMem demo_store NewSession).

Definition demo_infos : list MessageInfo := [mkMessageInfo 1 20; mkMessageInfo 2 1].
Definition demo_uids : list MessageUidl := [mkMessageUidl 1 (str "u1"); mkMessageUidl 2 (str "u2")].

Definition demo_respond (line : bytes) (p : Proto MemSession) : Reply := (respond (demo_options 0) 64 false line None p).1.

Lemma demo_uids_fit : Forall (uidl_fits 64) demo_uids.
Proof.
  repeat constructor; try done; apply (bool_decide_unpack _); vm_compute; exact I.
Defined.

Lemma client_reads_listings_witness :
  happens demo_cx (List_ 64 demo_cx) (demo_client []) (re_text (demo_respond (str "LIST") demo_proto))
    (str "LIST" ++ crlf) (inl demo_infos)
  /\ happens demo_cx (Uidl 64 demo_cx) (demo_client []) (re_text (demo_respond (str "UIDL") demo_proto))
    (str "UIDL" ++ crlf) (inl demo_uids).
Proof.
  apply (client_reads_listings MemSession (demo_options 0) 64 false 64 demo_cx demo_proto (demo_client [])
           demo_session demo_session demo_infos demo_uids).
  - lia.
  - unfold roomy. simpl. lia.
  - reflexivity.
  - vm_compute. reflexivity.
  - vm_compute. reflexivity.
  - repeat constructor; vm_compute; done.
  - exact demo_uids_fit.
  - vm_compute. done.
  - vm_compute. done.
  - vm_compute. done.
Defined.

Lemma client_reads_answers_witness :
  happens demo_cx (Stat 64 demo_cx) (demo_client []) (re_text (demo_respond (str "STAT") demo_proto))
    (str "STAT" ++ crlf) (inl (2, 21))
  /\ happens demo_cx (ListOne 64 demo_cx 2) (demo_client []) (re_text (demo_respond (str "LIST " ++ itoa 2) demo_proto))
    ((str "LIST " ++ itoa 2) ++ crlf) (inl (mkMessageInfo 2 1))
  /\ happens demo_cx (UidlOne 64 demo_cx 2) (demo_client []) (re_text (demo_respond (str "UIDL " ++ itoa 2) demo_proto))
    ((str "UIDL " ++ itoa 2) ++ crlf) (inl (mkMessageUidl 2 (str "u2"))).
Proof.
  apply (client_reads_answers MemSession (demo_options 0) 64 false 64 demo_cx demo_proto (demo_client [])
           demo_session demo_session demo_session 2 21 2 (mkMessageInfo 2 1) (mkMessageUidl 2 (str "u2"))).
  - lia.
  - lia.
  - unfold roomy. simpl. lia.
  - reflexivity.
  - vm_compute. done.
  - vm_compute. reflexivity.
  - vm_compute. done.
  - vm_compute. done.
  - vm_compute. reflexivity.
  - split; vm_compute; done.
  - vm_compute. reflexivity.
  - pose proof demo_uids_fit as H. inv H. by inv H3.
Defined.

Lemma client_reports_errors_witness :
  happens demo_cx (List_ 64 demo_cx) (demo_client []) (err_line (str "no such message")) (str "LIST" ++ crlf)
    (inr (ProtocolError (str "-ERR no such message"))).
Proof.
  assert (blen (err_status (str "no such message")) <= maxLine (client (demo_client []))) as Hl
    by (vm_compute; done).
  destruct (client_reports_errors 64 demo_cx (demo_client []) (str "no such message") 1 0 (str "NOOP") [] [] [] [] Hl)
    as (_ & H & _). exact H.
Defined.

(** The reply to RETR 1, and the start of the next. *)
Definition demo_retr : bytes := re_text (demo_respond (str "RETR " ++ itoa 1) demo_proto).

Lemma client_reads_body_witness :
  exists b0 st1 b1 st2 out e b2 st3,
    Retr demo_cx 1 (demo_client (demo_retr ++ str "+OK")) = (st1, IoVal (inl b0))
    /\ body_ReadAll [7; 7]%nat b0 st1 = (st2, IoVal (b1, (out, e)))
    /\ body_Close b1 st2 = (st3, IoVal (b2, None))
    /\ ready demo_cx st3 (str "+OK").
Proof.
  set (data := str "Subject: hi" ++ crlf ++ crlf ++ str ".dot" ++ [LF]).
  destruct (client_reads_body MemSession (demo_options 0) 64 false demo_cx demo_proto
    (demo_client (demo_retr ++ str "+OK")) demo_session 1 (mkBody [data] None None) [7; 7]%nat (str "+OK"))
    as (b0 & st1 & b1 & st2 & out & e & b2 & st3 & H1 & H2 & H3 & _ & H4 & _).
  - lia.
  - unfold roomy. simpl. lia.
  - vm_compute. done.
  - reflexivity.
  - vm_compute. reflexivity.
  - reflexivity.
  - exact I.
  - repeat constructor; vm_compute; done.
  - repeat constructor; lia.
  - split; [|reflexivity]. split.
    + split_and!; try done; simpl; try lia. by repeat constructor.
    + split_and!; try done; simpl; try lia. by right.
    + done.
    + constructor.
    + intros t [= <-]. split; [simpl; lia|]. repeat constructor; simpl; lia.
  - exists b0, st1, b1, st2, out, e, b2, st3. split; [exact H1|]. split; [exact H2|]. split; [exact H3 | exact H4].
Defined.

(** Alice's password, given exactly to AUTH PLAIN and with a trailing blank to
    USER and PASS, where the blank is lost. *)
Lemma client_login_witness :
  happens demo_cx (AuthPlain demo_cx [] (str "alice") (str "s3cret")) (demo_client [])
    (str "+OK Authentication successful" ++ crlf) (auth_line [] (str "alice") (str "s3cret") ++ crlf) (inl tt)
  /\ happens demo_cx (User demo_cx (str "alice") (str "s3cret ")) (demo_client [])
    (str "+OK" ++ crlf ++ str "+OK Authentication successful" ++ crlf)
    (script [with_cr (str "USER alice"); with_cr (str "PASS s3cret ")]) (inl tt).
Proof.
  assert (over_limit (demo_options 0) demo_start = false) as Hov by reflexivity. split.
  - destruct (client_login MemSession (demo_options 0) 64 false demo_cx demo_start (demo_client [])
      [] (str "alice") (str "s3cret") []) as [H _]; [reflexivity|reflexivity|simpl; lia|].
    destruct (H (mkMem demo_store NewSession) [str "PLAIN"]) as (_ & Hh & _);
      [reflexivity..| |vm_compute; discriminate|vm_compute; discriminate|exact Hh].
    apply (bool_decide_unpack _). vm_compute. exact I.
  - destruct (client_login MemSession (demo_options 0) 64 false demo_cx demo_start (demo_client [])
      [] (str "alice") (str "s3cret ") []) as [_ H]; [reflexivity|reflexivity|simpl; lia|].
    destruct H as (_ & _ & Hh & _);
      [split; [done|]; apply (bool_decide_unpack _); vm_compute; exact I
      |apply (bool_decide_unpack _); vm_compute; exact I|vm_compute; discriminate|exact Hov
      |vm_compute; discriminate|vm_compute; discriminate|vm_compute; discriminate|exact Hh].
Defined.

Lemma client_always_returns_witness :
  exists st r, Capa demo_cx (demo_client (str "-ERR")) = (st, IoVal r).
Proof.
  destruct (client_always_returns demo_cx 100 64 (demo_client (str "-ERR")) eq_refl) as (_ & H & _). exact H.
Defined.

Lemma response_is_bounded_witness :
  exists st, readMultiLine demo_cx (demo_client (lines ["one"; "."]%string)) = (st, IoVal (inl [str "one"]))
  /\ blen [str "one"] <= 100000.
Proof.
  assert (exists st, readMultiLine demo_cx (demo_client (lines ["one"; "."]%string)) = (st, IoVal (inl [str "one"])))
    as [st E] by (eexists; vm_compute; reflexivity).
  assert (bounded demo_cx (demo_client (lines ["one"; "."]%string))) as Hb by (left; eexists; reflexivity).
  exists st. split; [exact E|]. destruct (response_is_bounded demo_cx _ st [str "one"] Hb E) as [H _]. exact H.
Defined.

(** The server's +OK to STLS is followed by plaintext that pretends to be more. *)
Definition demo_stls : CSt :=
  mkCSt (mkClient NewReader NewWriter 4096 100000 [])
    (mkNet 0 [(1, NBytes (lines ["+OK"; "+OK injected"]%string))] None None [] [])
    [HsOk 2 [(3, NBytes (lines ["+OK secure"]%string))]] [] [] false.

Lemma startTLS_discards_plaintext_witness :
  exists st, startTLS demo_cx demo_stls = (st, IoVal (inl tt)) /\ rbuf (cl_reader (client st)) = [].
Proof.
  assert (exists st, startTLS demo_cx demo_stls = (st, IoVal (inl tt))) as [st E] by (eexists; vm_compute; reflexivity).
  exists st. split; [exact E|]. destruct (startTLS_discards_plaintext demo_cx demo_stls st E) as [H _]. exact H.
Defined.
